(* ===== verification/_CoqProject ===== *)
-Q . S2P
Prelude.v
Bytes.v
Crc32.v
LogRecord.v
FileSystem.v
Bisect.v
Segment.v
SegmentFacts.v
CommitLog.v
CommitLogFacts.v
Handles.v
HandleFacts.v
Retention.v
LogSpec.v
RaftLog.v
RaftLogFacts.v
DurableLog.v
DurableLogFacts.v
Unicode.v
Json.v
JsonFacts.v
KVStore.v
RaftInterfaces.v
RaftNode.v
Sim.v
Net.v
Wire.v
Server.v
Transport.v
StateFiles.v
NetFacts.v
Programs.v
FrameServer.v
WireFacts.v
ServerFacts.v
TransportFacts.v
Broker.v
BrokerFacts.v
Api.v
Cli.v
Runner.v
Metrics.v
PartitionFacts.v
GroupFacts.v
ElectionSpec.v
RaftSpec.v
CommitSpec.v
NodeFacts.v
NodeElection.v
NodeFunctional.v
NodeMonotone.v
NodeLog.v
Network.v
SimFacts.v
NodeLiveness.v
Replication.v
ReplicationNet.v
Unbatched.v
Threads.v
DurableNet.v
PreVote.v
LogTheorems.v
HandleTheorems.v
BrokerTheorems.v
ApiTheorems.v
CliTheorems.v
RaftLogTheorems.v
NodeTheorems.v
ThreadTheorems.v
ReplicationTheorems.v
DurableTheorems.v
SimTheorems.v
NetTheorems.v
RunnerTheorems.v
