(* ===== verification/Prelude.v ===== *)
(** * pylog: a verification library

    pylog (src/pylog) is a Kafka-style commit log, a Raft implementation that
    replicates one, and a broker on top of the log, with their TCP and HTTP fronts.
    This development translates its Python code into executable Rocq definitions,
    file by file, and proves what makes each part correct.

    ** Parts, files and the code they model

    - Prelude: exceptions, the effect monad, specifications of runs ([returns],
      [preserves]), shared lemmas and tactics.  Bytes, Crc32, Unicode, Json: what the
      code uses of [struct], [zlib.crc32], UTF-8 and [json].
    - Commit log (log.py).  LogRecord: [encode_record], [read_record].  FileSystem: a
      directory as a map, file names.  Bisect, Segment: class [Segment].  CommitLog:
      class [CommitLog].  SegmentFacts, CommitLogFacts, Retention hold its invariant
      and refinement; LogSpec states the contract as a class, [CommitLogSpec], against
      which the durable log and the broker are verified, and its instance.  Handles has
      the methods of [Segment] once more, as they go to inodes through the handles, the
      read buffer and the mmap that are kept open; HandleFacts relates the two call by
      call, so that everything else is about the simpler one.
    - Raft log (raft.py [RaftLog], durable_log.py [DurableRaftLog]): RaftLog,
      RaftLogFacts, DurableLog, DurableLogFacts.
    - State machine (statemachine.py): KVStore.
    - Raft node (raft.py [DurableState], [RaftNode]): RaftInterfaces (the log and the
      random source a node is given), RaftNode (every handler, timer and proposal),
      NodeFacts, NodeElection, NodeFunctional, NodeMonotone, NodeLiveness, StateFiles.
      ElectionSpec is the abstract election protocol, RaftSpec the protocol with logs,
      commit indexes and state machines, with log matching and leader completeness;
      CommitSpec has its state machine safety.  Network is a cluster of nodes over a
      network that loses, repeats and reorders, and refines the first; Replication
      shows each handler to be actions of the second, and ReplicationNet that the
      cluster refines it; Unbatched is about nodes whose logs fit into one message.  NodeLog states what a node relies on of its log as a class,
      [LogImplements], with the durable log as an instance, and that a node over such a
      log does what it does over the in-memory one; DurableNet draws the conclusion for
      clusters that restart from their files.  PreVote runs schedules.
    - Simulator (sim.py [SimCluster]): Sim, SimFacts.
    - Threads.  Programs: code as programs of atomic steps, and the interleaving of
      several on one object.  Threads (log.py [append], raft.py [_on_vote]): methods as
      such programs, which do what the methods do when they run alone.
    - TCP (net.py, server.py): Net (frames, the server loop, the client), FrameServer
      (the server with the threads of all its connections, which work on one object, the
      handler being a program of atomic steps), Wire (base64
      and the dictionaries of messages), Server ([RaftServerNode]), Transport
      ([TcpTransport]), NetFacts, WireFacts, ServerFacts, TransportFacts.  Runner
      starts and stops server nodes ([RaftClusterRunner], and cli.py's [cmd_replicate]
      and [cmd_raft_node]); the dictionaries of addresses that nodes, transports and
      the runner write to are objects in a store.
    - Broker (broker.py): Broker, BrokerFacts, PartitionFacts, GroupFacts.
    - Fronts of the broker: Api (api.py), Metrics (metrics.py), Cli (cli.py).

    ** How code becomes definitions

    A Python method is a computation [M S A]: it gets the state, returns a value or
    raises an [Exn], and leaves the state as it is at that point, since a Python
    exception rolls nothing back.  The state is the object with the files it works on
    ([LogState], [DurableRaftLog], [DataDir * Broker]) or, for a node, [World]: the
    node, the messages sent and the callbacks made.  Python integers are [Z]; where a
    [struct] format bounds them the bound is checked as it is in the code.  Byte
    strings are [list byte], text is [string] holding UTF-8, dictionaries are [gmap]
    or, where their order is visible, association lists.  Times are integers.  The
    clock is an argument, [random.Random] a class.

    ** What the theorems show

    - LogTheorems: records are read back as written and damage is detected; append,
      batched append, reading, ranges and truncation compute the operation on the list
      of records; after a crash at any point of a write, opening the directory finds
      the records that were complete.
    - HandleTheorems: whatever is done with the segments of a directory, no call and no
      file can tell that handles are kept open.
    - RaftLogTheorems: [merge] equals a reference merge, keeps the log-matching
      property, loses nothing that agrees with the leader, and refuses with a correct
      hint; the durable log computes the same and is rebuilt by a restart.
    - NodeTheorems: a cluster of nodes refines the election protocol, so there is one
      leader per term; a candidate a majority can hear wins; what voting, committing
      (a majority, but for a leader outside its configuration) and applying (up to a
      command that is not UTF-8) compute; term, vote, commit and applied indexes never go back;
      snapshots survive a restart.
    - ReplicationTheorems, for clusters with fixed members and in-memory logs that take
      no snapshots: the cluster refines the replication protocol; the logs of any two
      nodes match; what a leader may commit is in the log of every later leader; what
      is committed and applied agrees everywhere as long as no message carries a commit
      index beyond its entries, and so as long as the logs fit into one message; but cut
      to [max_batch] entries a message may, and then two nodes that have applied as many
      entries hold different data.
    - DurableTheorems: the same cluster over durable logs, restarted from its files, does
      what the one with in-memory logs does, so these theorems hold of it; as long as
      logs fit into a message, what its nodes commit and apply agrees across crashes.
      None of this is about nodes with pre-votes, which the servers of cli.py use:
      NodeTheorems has a run in which these elect two leaders of one term.
    - SimTheorems: the simulator keeps election safety under any script of faults,
      but its restart does not keep state machine safety.
    - ThreadTheorems: without a lock two threads of one node grant two votes of one term,
      and two nodes lead it; two appends are given one offset, and one record is lost.
    - NetTheorems: frames are served in order however the stream is cut; with many
      connections the handlers interleave on the object they share, and each connection
      is answered its own requests in order; messages
      survive the wire; a connection delivers to the handlers; the transport contains
      network failures; a server node starts again from its files.
    - BrokerTheorems, ApiTheorems, CliTheorems: producing, fetching, retention,
      committed offsets and reopening act on the contents of the partitions as
      specified; a group that retention has not left behind consumes each record once
      through the gateway, and one it has left behind gets nothing; the consume
      command ends and prints the partition; histograms keep a window, and the
      quantiles shown are those of the window; the dashboard is the page with the rows
      of the topics.
    - RunnerTheorems: a started cluster's nodes all have the addresses of each other;
      the leader that is reported is agreed on; a crashed leader may be proposed to.

    Theorems that hold of the code as it is, but not as it is meant, are kept beside
    the others and say so.

    ** Fuel

    Loops that are not structural take fuel, which the lemmas about them show to be
    enough.  [recover_loop] and [scan_record] have the bytes of the file, of which a
    record takes 28; [read_range_loop] reads a record a round up to its limit;
    [append_batches] has the number of items and writes one a round at least; binary
    search takes the length of the list; [apply_loop] the distance from the applied
    to the commit index; [sweep_by_size] the number of segments, one of which goes in
    a round; [json_fuel] is bounded by the text ([json_weight_le]); [recv_loop] gains
    a byte a round; [serve_conn] has the bytes to come, of which a frame takes four; the
    command [cmd_consume] shows a message a round.  [run_until] and [run_for] of the
    simulator report an exhausted fuel as [None] and nothing is claimed of them then:
    they wait for a condition that need not come.

    ** Not modelled

    Most interleavings of threads: outside of Threads and FrameServer each method runs to its end alone,
    which is how the simulator calls the nodes, while the servers call [RaftNode] and
    [Broker], which take no lock, from several threads.  Sockets, time-outs and
    operating-system errors, except as an interface of the transport and as events of
    the frame server; [fsync] (every write reaches the directory in order; a crash
    keeps a prefix of the last write).  Floating-point numbers, so times are integers
    and metrics are over any ordered numbers; only the index of a percentile is
    computed in double precision.  HTTP parsing and headers.  Lone surrogates in
    text.  [cmd_serve], which starts the servers and waits.  What the threads of a
    running cluster do between two steps of the main thread is a parameter of Runner.
    Argument parsing, demos and benchmarks.  The replication protocol has no
    snapshots, changes of members or pre-votes: the theorems about single nodes cover
    these handlers, those of ReplicationTheorems leave them out. *)

From Corelib Require Export ssreflect_rw.
From stdpp Require Export base tactics numbers option list list_numbers gmap.
From Stdlib Require Export ZArith Lia.
#[export] Set Default Goal Selector "!".

(** ** Exceptions

    The exceptions the modelled code raises or lets through.  The Python code
    distinguishes them only through [except] clauses, so the constructors carry
    no payload. *)
Inductive Exn : Set :=
  | StructError
  | CorruptRecord
  | KeyError
  | IndexError
  | ValueError
  | TypeError
  | FileNotFoundError
  | UnicodeDecodeError
  | AttributeError
  | OSError
  | AssertionError
  | TimeoutError
  | Disconnected.

#[export] Instance Exn_eq_dec : EqDecision Exn.
Proof. solve_decision. Defined.

(** ** The effect monad

    A computation over a state [S] either raises or returns, and in both cases
    leaves the state as it is at that point: a Python exception does not roll
    back what was mutated before it. *)
Definition M (S A : Type) : Type := S → (Exn + A) * S.

#[export] Instance M_ret S : MRet (M S) := λ A x s, (inr x, s).

#[export] Instance M_bind S : MBind (M S) := λ A B f m s,
  match m s with
  | (inl e, s') => (inl e, s')
  | (inr x, s') => f x s'
  end.

Definition raise {S A} (e : Exn) : M S A := λ s, (inl e, s).
Definition get {S} : M S S := λ s, (inr s, s).
Definition put {S} (s : S) : M S () := λ _, (inr (), s).
Definition modify {S} (f : S → S) : M S () := λ s, (inr (), f s).
Definition gets {S A} (f : S → A) : M S A := λ s, (inr (f s), s).

(** Lift a pure computation that may raise. *)
Definition lift {S A} (r : Exn + A) : M S A := λ s, (r, s).

(** [when b m]: the Python [if b: m]. *)
Definition when {S} (b : bool) (m : M S ()) : M S () := if b then m else mret ().

(** [for x in l: body x] *)
Fixpoint for_each {S A} (l : list A) (body : A → M S ()) : M S () :=
  match l with
  | [] => mret ()
  | x :: l' => _ ← body x; for_each l' body
  end.

Section monad_laws.
Context {S A B : Type}.
Implicit Types (m : M S A) (f : A → M S B) (s : S).

Lemma bind_ok m f s s' x : m s = (inr x, s') → (m ≫= f) s = f x s'.
Proof. rw /mbind /M_bind. by intros ->. Qed.

Lemma bind_exn m f s s' e : m s = (inl e, s') → (m ≫= f) s = (inl e, s').
Proof. rw /mbind /M_bind. by intros ->. Qed.

Lemma bind_inv_ok m f s s'' y :
  (m ≫= f) s = (inr y, s'') → ∃ x s', m s = (inr x, s') ∧ f x s' = (inr y, s'').
Proof.
  rw /mbind /M_bind. destruct (m s) as [[e|x] s'] eqn:E; [done|eauto].
Qed.

Lemma ret_bind x f s : (mret x ≫= f) s = f x s.
Proof. done. Qed.
End monad_laws.

(** ** Total correctness

    [returns m s Q]: run in [s], [m] raises nothing, and its value and final state
    satisfy [Q]. *)
Definition returns {S A} (m : M S A) (s : S) (Q : A → S → Prop) : Prop :=
  match m s with (inr x, s') => Q x s' | (inl _, _) => False end.

Section returns.
Context {S A B : Type}.
Implicit Types (m : M S A) (f : A → M S B) (s : S).

Lemma returns_intro m s x s' (Q : A → S → Prop) : m s = (inr x, s') → Q x s' → returns m s Q.
Proof. unfold returns. by intros ->. Qed.

Lemma returns_inv m s (Q : A → S → Prop) :
  returns m s Q → ∃ x s', m s = (inr x, s') ∧ Q x s'.
Proof. unfold returns. destruct (m s) as [[e|x] s'] eqn:E; [done|eauto]. Qed.

Lemma returns_ret x s (Q : A → S → Prop) : Q x s → returns (mret x) s Q.
Proof. done. Qed.

Lemma returns_bind m f s (Q : B → S → Prop) :
  returns m s (λ x s', returns (f x) s' Q) → returns (m ≫= f) s Q.
Proof. unfold returns, mbind, M_bind. by destruct (m s) as [[e|x] s']. Qed.

Lemma returns_mono m s (P Q : A → S → Prop) :
  returns m s P → (∀ x s', P x s' → Q x s') → returns m s Q.
Proof. unfold returns. destruct (m s) as [[e|x] s']; auto. Qed.

Lemma returns_and m s (P Q : A → S → Prop) :
  returns m s P → returns m s Q → returns m s (λ x s', P x s' ∧ Q x s').
Proof. unfold returns. destruct (m s) as [[e|x] s']; tauto. Qed.
End returns.

(** ** Relations every run respects

    [preserves R m]: whatever [m] does, including raising, relates its start to its
    end by [R].  [respects R s m] is the same from one start. *)
Definition respects {S A} (R : S → S → Prop) (s : S) (m : M S A) : Prop := R s (m s).2.
Definition preserves {S A} (R : S → S → Prop) (m : M S A) : Prop := ∀ s, respects R s m.

Section preserves.
Context {S : Type} (R : S → S → Prop) `{!PreOrder R}.

Lemma respects_bind {A B} (m : M S A) (f : A → M S B) s :
  respects R s m → (∀ x s', m s = (inr x, s') → respects R s' (f x)) → respects R s (m ≫= f).
Proof.
  unfold respects, mbind, M_bind. destruct (m s) as [[e|x] s']; [done|].
  intros Hm Hf. etrans; [exact Hm|]. by apply Hf.
Qed.

Lemma preserves_bind {A B} (m : M S A) (f : A → M S B) :
  preserves R m → (∀ x, preserves R (f x)) → preserves R (m ≫= f).
Proof. intros Hm Hf s. apply respects_bind; [apply Hm|]. intros x s' _. apply Hf. Qed.

Lemma preserves_ret {A} (x : A) : preserves R (mret x).
Proof. intros s. unfold respects. cbn. reflexivity. Qed.

Lemma preserves_raise {A} e : preserves R (raise (A:=A) e).
Proof. intros s. unfold respects. cbn. reflexivity. Qed.

Lemma preserves_lift {A} (r : Exn + A) : preserves R (lift r).
Proof. intros s. unfold respects. cbn. reflexivity. Qed.

Lemma preserves_when b (m : M S ()) : preserves R m → preserves R (when b m).
Proof. destruct b; [done|]. intros _. apply preserves_ret. Qed.

Lemma preserves_for_each {A} (l : list A) (f : A → M S ()) :
  (∀ x, preserves R (f x)) → preserves R (for_each l f).
Proof.
  intros Hf. induction l as [|x l IH]; cbn [for_each]; [apply preserves_ret|].
  apply preserves_bind; [apply Hf|]. intros _. apply IH.
Qed.

(** Reading the state fixes it for what follows. *)
Lemma respects_gets {A B} (g : S → A) (f : A → M S B) s :
  respects R s (f (g s)) → respects R s (gets g ≫= f).
Proof. done. Qed.

Lemma preserves_gets {A B} (g : S → A) (f : A → M S B) :
  (∀ s, respects R s (f (g s))) → preserves R (gets g ≫= f).
Proof. intros Hf s. apply Hf. Qed.
End preserves.

(** Steps that only compute are replaced by their result. *)
Lemma respects_run {S A} (R : S → S → Prop) `{!PreOrder R} s s' (m m' : M S A) :
  m s = m' s' → R s s' → respects R s' m' → respects R s m.
Proof. unfold respects. intros ->. apply transitivity. Qed.

Lemma respects_impl {S A} (R Q : S → S → Prop) s (m : M S A) :
  (∀ s', R s s' → Q s s') → respects R s m → respects Q s m.
Proof. unfold respects. auto. Qed.

(** Use a specification [H : returns m s P] of the first call of a sequence. *)
Ltac rstep H := apply returns_bind; eapply returns_mono; [ apply H |]; cbv beta.

(** Step through the head of a monadic computation whose effect is known. *)
Ltac mstep H := erewrite bind_ok; [| by apply H ]; cbv beta iota.

(** Split the conditionals of a decision procedure in the goal. *)
Ltac case_bool :=
  repeat match goal with
  | |- context [bool_decide ?P] => destruct (bool_decide_reflect P)
  | H : context [bool_decide ?P] |- _ => destruct (bool_decide_reflect P)
  end.

(** [lia] over division and remainder by constants. *)
Ltac div_lia := Z.to_euclidean_division_equations; lia.

(** ** Lists *)

Section lists.
Context {A : Type}.
Implicit Types (l k : list A).

(** [xs[i:]] with the length known. *)
Lemma drop_app_len l k n : n = length l → drop n (l ++ k) = k.
Proof. intros ->. apply drop_app_length. Qed.

Lemma take_app_len l k n : n = length l → take n (l ++ k) = l.
Proof. intros ->. apply take_app_length. Qed.

Lemma take_short l n : length (take n l) < n → take n l = l.
Proof. rw length_take. intros. apply take_ge. lia. Qed.

Lemma last_snoc_lookup l x : last l = Some x → l !! (length l - 1)%nat = Some x.
Proof. rw last_lookup. intros <-. f_equal. lia. Qed.

Lemma list_filter_all (P : A → Prop) `{∀ x, Decision (P x)} l :
  (∀ x, x ∈ l → P x) → filter P l = l.
Proof.
  induction l as [|x l IH]; intros Hl; [done|].
  rewrite filter_cons_True by (apply Hl; set_solver). f_equal. apply IH. set_solver.
Qed.

Lemma list_filter_none (P : A → Prop) `{∀ x, Decision (P x)} l :
  (∀ x, x ∈ l → ¬ P x) → filter P l = [].
Proof.
  induction l as [|x l IH]; intros Hl; [done|].
  rewrite filter_cons_False by (apply Hl; set_solver). apply IH. set_solver.
Qed.

Lemma Forall_list_filter (Q P : A → Prop) `{∀ x, Decision (P x)} l :
  Forall Q l → Forall Q (filter P l).
Proof.
  rewrite !Forall_forall. intros Hl x [_ Hx]%list_elem_of_filter. by apply Hl.
Qed.

(** [omap] of a function injective where it is defined. *)
Lemma NoDup_omap_inj {B} (f : A → option B) l :
  (∀ x y b, x ∈ l → y ∈ l → f x = Some b → f y = Some b → x = y) → NoDup l → NoDup (omap f l).
Proof.
  induction l as [|x l IH]; intros Hinj Hnd; [constructor|].
  apply NoDup_cons in Hnd as [Hx Hnd]. simpl.
  assert (NoDup (omap f l)) by (apply IH; [|done]; intros; eapply Hinj; eauto using list_elem_of_further).
  destruct (f x) as [b|] eqn:E; [|done]. constructor; [|done].
  intros (y & Hy & Ey)%list_elem_of_omap. apply Hx.
  rewrite (Hinj x y b); [done|left|by right|done..].
Qed.
End lists.

(** The length of a list as a Python integer. *)
Definition len {A} (l : list A) : Z := Z.of_nat (length l).

Lemma len_nil {A} : len (@nil A) = 0%Z.
Proof. done. Qed.

Lemma len_cons {A} (x : A) l : len (x :: l) = (1 + len l)%Z.
Proof. unfold len. simpl. lia. Qed.

Lemma forallb_fmap_true {A B} (f : B → bool) (g : A → B) l : (∀ x, f (g x) = true) → forallb f (g <$> l) = true.
Proof. intros H. induction l as [|x l IH]; [done|]. cbn. by rewrite H, IH. Qed.

Lemma len_app {A} (l k : list A) : len (l ++ k) = (len l + len k)%Z.
Proof. unfold len. rw length_app. lia. Qed.

Lemma len_nonneg {A} (l : list A) : (0 <= len l)%Z.
Proof. unfold len. lia. Qed.

Lemma len_map {A B} (f : A → B) l : len (f <$> l) = len l.
Proof. unfold len. by rw length_fmap. Qed.

(** ** Record update

    [n <| f := x |>] is [n] with field [f] set to [x].  A record [R] declares its
    eta expansion as an instance of [Eta]; the setter of a projection is obtained by
    abstracting the projection in it. *)
Class Eta (R : Type) := eta : R → R.
Class Update {R T : Type} (proj : R → T) := update : (T → T) → R → R.

Ltac solve_update :=
  lazymatch goal with
  | |- @Update ?R ?T ?proj =>
      let e := constr:(_ : Eta R) in
      let e := eval hnf in e in
      lazymatch (eval pattern proj in e) with
      | ?body _ => exact (fun f r => body (fun r => f (proj r)) r)
      end
  end.

#[export] Hint Extern 1 (Update _) => solve_update : typeclass_instances.

Declare Scope record_scope.
Delimit Scope record_scope with rec.
Open Scope record_scope.
Notation "r <| f := x |>" := (update (proj:=f) (fun _ => x) r)
  (at level 1, left associativity, f at level 11, format "r  <| f  :=  x |>") : record_scope.

Create HintDb pylog.
Create Rewrite HintDb pylog.
#[export] Hint Rewrite @len_nil @len_cons @len_app @len_map : pylog.
#[export] Hint Resolve len_nonneg : pylog.
