(* ===== verification/Bytes.v ===== *)
(** * Bytes: the [struct] module's fixed-width integer codecs

    Python [bytes] are lists of [Init.Byte.byte].  [struct.Struct] formats used by
    the code are little-endian ([<4sIQqI], [<QQ], [<I]) and big-endian ([>Q]);
    packing a value outside the field's range raises [struct.error]. *)
From Stdlib Require Export Init.Byte.
From Stdlib Require Import Strings.Byte.
From S2P Require Import Prelude.
Local Open Scope Z_scope.

Abbreviation bytes := (list byte).

#[export] Instance byte_eq_dec : EqDecision byte := Byte.byte_eq_dec.

Definition byte_to_Z (b : byte) : Z := Z.of_N (Byte.to_N b).

Definition Z_to_byte (z : Z) : byte :=
  match Byte.of_N (Z.to_N (z mod 256)) with Some b => b | None => x00 end.

Lemma byte_to_Z_bound b : 0 <= byte_to_Z b < 256.
Proof. unfold byte_to_Z. pose proof (Byte.to_N_bounded b). lia. Qed.

Lemma byte_to_Z_to_byte z : byte_to_Z (Z_to_byte z) = z mod 256.
Proof.
  unfold Z_to_byte, byte_to_Z.
  pose proof (Z.mod_pos_bound z 256 ltac:(lia)) as Hb.
  destruct (Byte.of_N _) as [b|] eqn:E.
  - apply Byte.to_of_N in E. rewrite E, Z2N.id by lia. done.
  - apply Byte.of_N_None_iff in E. lia.
Qed.

Lemma Z_to_byte_to_Z b : Z_to_byte (byte_to_Z b) = b.
Proof.
  unfold Z_to_byte, byte_to_Z.
  pose proof (Byte.to_N_bounded b).
  rewrite Z.mod_small by lia. rw N2Z.id. by rw Byte.of_to_N.
Qed.

Lemma byte_to_Z_inj b1 b2 : byte_to_Z b1 = byte_to_Z b2 → b1 = b2.
Proof. intros E. rw -(Z_to_byte_to_Z b1) -(Z_to_byte_to_Z b2). by rw E. Qed.

(** ** Little-endian, [n] bytes *)

Fixpoint le_encode (n : nat) (z : Z) : bytes :=
  match n with
  | O => []
  | S n' => Z_to_byte z :: le_encode n' (z / 256)
  end.

Fixpoint le_decode (l : bytes) : Z :=
  match l with
  | [] => 0
  | b :: l' => byte_to_Z b + 256 * le_decode l'
  end.

Lemma le_encode_length n z : length (le_encode n z) = n.
Proof. revert z. induction n; intros z; simpl; auto. Qed.

Lemma le_decode_encode n z : le_decode (le_encode n z) = z mod 256 ^ Z.of_nat n.
Proof.
  revert z. induction n as [|n IH]; intros z.
  - simpl. by rw Z.mod_1_r.
  - cbn [le_encode le_decode]. rw byte_to_Z_to_byte IH.
    rewrite Nat2Z.inj_succ, Z.pow_succ_r, Z.rem_mul_r by lia. done.
Qed.

Lemma le_decode_encode_id n z : 0 <= z < 256 ^ Z.of_nat n → le_decode (le_encode n z) = z.
Proof. intros. rw le_decode_encode. by apply Z.mod_small. Qed.

Lemma le_decode_bound l : 0 <= le_decode l < 256 ^ len l.
Proof.
  induction l as [|b l IH]; [done|]. rw len_cons. cbn [le_decode].
  rewrite Z.pow_add_r by (try apply len_nonneg; lia).
  pose proof (byte_to_Z_bound b). lia.
Qed.

Lemma le_decode_inj l k : length l = length k → le_decode l = le_decode k → l = k.
Proof.
  revert k. induction l as [|b l IH]; intros [|c k] Hl E; try done.
  cbn [le_decode] in E. pose proof (byte_to_Z_bound b). pose proof (byte_to_Z_bound c).
  assert (byte_to_Z b = byte_to_Z c) as ->%byte_to_Z_inj by lia.
  f_equal. apply IH; [by injection Hl|lia].
Qed.

Lemma le_encode_decode n l : length l = n → le_encode n (le_decode l) = l.
Proof.
  intros Hn. apply le_decode_inj; [by rewrite le_encode_length|].
  apply le_decode_encode_id. rewrite <-Hn. apply le_decode_bound.
Qed.

Lemma le_encode_mod n z : le_encode n (z mod 256 ^ Z.of_nat n) = le_encode n z.
Proof.
  apply le_decode_inj; [by rewrite !le_encode_length|].
  rewrite !le_decode_encode. apply Z.mod_mod. apply Z.pow_nonzero; lia.
Qed.

(** ** Signed fields: two's complement *)

Definition to_signed (w z : Z) : Z := if 2 ^ (w - 1) <=? z then z - 2 ^ w else z.

Lemma to_signed_mod w z :
  0 < w → - 2 ^ (w - 1) <= z < 2 ^ (w - 1) → to_signed w (z mod 2 ^ w) = z.
Proof.
  intros Hw Hz. unfold to_signed.
  assert (2 ^ w = 2 * 2 ^ (w - 1)) as Hp.
  { rewrite <-Z.pow_succ_r by lia. f_equal. lia. }
  destruct (decide (0 <= z)).
  - rewrite Z.mod_small by lia. destruct (Z.leb_spec (2 ^ (w - 1)) z); lia.
  - assert (z mod 2 ^ w = z + 2 ^ w) as ->.
    { rw -(Z_mod_plus_full z 1 (2 ^ w)) Z.mul_1_l. apply Z.mod_small. lia. }
    destruct (Z.leb_spec (2 ^ (w - 1)) (z + 2 ^ w)); lia.
Qed.

Lemma to_signed_bound w z :
  0 < w → 0 <= z < 2 ^ w → - 2 ^ (w - 1) <= to_signed w z < 2 ^ (w - 1).
Proof.
  intros Hw Hz. unfold to_signed.
  assert (2 ^ w = 2 * 2 ^ (w - 1)) as Hp.
  { rewrite <-Z.pow_succ_r by lia. f_equal. lia. }
  destruct (Z.leb_spec (2 ^ (w - 1)) z); lia.
Qed.

Lemma to_signed_unsigned w z :
  0 < w → 0 <= z < 2 ^ w → to_signed w z mod 2 ^ w = z.
Proof.
  intros Hw Hz. unfold to_signed. destruct (Z.leb_spec (2 ^ (w - 1)) z).
  - replace (z - 2 ^ w) with (z + (-1) * 2 ^ w) by lia.
    rewrite Z_mod_plus_full. by apply Z.mod_small.
  - by apply Z.mod_small.
Qed.

(** ** [struct] fields: packing checks the range *)

Definition in_range (lo hi z : Z) : bool := (lo <=? z) && (z <? hi).

Lemma in_range_true lo hi z : in_range lo hi z = true ↔ lo <= z < hi.
Proof. unfold in_range. rw andb_true_iff Z.leb_le Z.ltb_lt. done. Qed.

(** ** Big-endian ([>Q]) *)

Definition be_encode (n : nat) (z : Z) : bytes := reverse (le_encode n z).
Definition be_decode (l : bytes) : Z := le_decode (reverse l).

Lemma be_encode_length n z : length (be_encode n z) = n.
Proof. unfold be_encode. by rw length_reverse le_encode_length. Qed.

Lemma be_decode_encode_id n z : 0 <= z < 256 ^ Z.of_nat n → be_decode (be_encode n z) = z.
Proof. intros. unfold be_decode, be_encode. rw reverse_involutive. by apply le_decode_encode_id. Qed.

#[export] Hint Rewrite le_encode_length be_encode_length : pylog.

#[global] Arguments le_encode : simpl never.
#[global] Arguments le_decode : simpl never.

Lemma len_le_encode n z : len (le_encode n z) = Z.of_nat n.
Proof. unfold len. by rewrite le_encode_length. Qed.

Lemma len_be_encode n z : len (be_encode n z) = Z.of_nat n.
Proof. unfold len. by rewrite be_encode_length. Qed.

#[export] Hint Rewrite len_le_encode len_be_encode : pylog.
