(* ===== verification/Crc32.v ===== *)
(** * [zlib.crc32]

    The reflected CRC-32 (polynomial 0xEDB88320, initial value and final xor
    0xFFFFFFFF), bit by bit, as [zlib.crc32(data)] computes it. *)
From S2P Require Import Prelude Bytes.
Local Open Scope Z_scope.

Definition CRC_POLY : Z := 0xEDB88320.
Definition CRC_MASK : Z := 0xFFFFFFFF.

Definition crc_bit (c : Z) : Z :=
  if Z.odd c then Z.lxor (Z.shiftr c 1) CRC_POLY else Z.shiftr c 1.

Definition crc_byte (c : Z) (b : byte) : Z :=
  Nat.iter 8 crc_bit (Z.lxor c (byte_to_Z b)).

Definition crc_update (c : Z) (l : bytes) : Z := foldl crc_byte c l.

Definition crc32 (l : bytes) : Z := Z.lxor (crc_update CRC_MASK l) CRC_MASK.

(** The check value of CRC-32: [zlib.crc32(b"123456789") == 0xCBF43926]. *)
Example crc32_check_value :
  crc32 [x31; x32; x33; x34; x35; x36; x37; x38; x39] = 0xCBF43926.
Proof. vm_compute. reflexivity. Qed.

(** ** 32-bit words *)

Definition word32 (z : Z) : Prop := 0 <= z < 2 ^ 32.

Lemma word32_bits z : 0 <= z → word32 z ↔ (∀ i, 32 <= i → Z.testbit z i = false).
Proof.
  intros H0. split.
  - intros [_ Hz] i Hi. apply Z.bits_above_log2; [done|].
    destruct (decide (z = 0)) as [->|]; [simpl; lia|].
    apply Z.log2_lt_pow2 in Hz; lia.
  - intros Hb. split; [done|]. destruct (decide (z = 0)) as [->|]; [done|].
    apply Z.log2_lt_pow2; [lia|]. apply Z.nle_gt. intros Hl.
    pose proof (Z.bit_log2 z ltac:(lia)). rw Hb in H; done.
Qed.

Lemma lxor_word32 a b : word32 a → word32 b → word32 (Z.lxor a b).
Proof.
  intros Ha Hb. assert (0 <= Z.lxor a b) by (apply Z.lxor_nonneg; unfold word32 in *; lia).
  apply word32_bits; [done|]. intros i Hi. rw Z.lxor_spec.
  apply word32_bits with (i:=i) in Ha; [|unfold word32 in *; lia|done].
  apply word32_bits with (i:=i) in Hb; [|unfold word32 in *; lia|done].
  by rw Ha Hb.
Qed.

Lemma shiftr_word31 a : word32 a → 0 <= Z.shiftr a 1 < 2 ^ 31.
Proof. intros Ha. rewrite Z.shiftr_div_pow2 by lia. unfold word32 in *. change (2 ^ 1) with 2. div_lia. Qed.

Lemma word32_poly : word32 CRC_POLY. Proof. done. Qed.
Lemma word32_mask : word32 CRC_MASK. Proof. done. Qed.

Lemma byte_word32 b : word32 (byte_to_Z b).
Proof. pose proof (byte_to_Z_bound b). unfold word32. lia. Qed.

Lemma crc_bit_word32 c : word32 c → word32 (crc_bit c).
Proof.
  intros Hc. pose proof (shiftr_word31 c Hc). unfold crc_bit.
  destruct (Z.odd c); [|unfold word32; lia].
  apply lxor_word32; [unfold word32; lia|done].
Qed.

(** Bit 31 of the shifted register records the bit shifted out. *)
Lemma crc_bit_top c : word32 c → Z.testbit (crc_bit c) 31 = Z.odd c.
Proof.
  intros Hc. pose proof (shiftr_word31 c Hc).
  assert (Z.testbit (Z.shiftr c 1) 31 = false) as Hs.
  { rewrite Z.shiftr_spec by lia. apply word32_bits; unfold word32 in *; lia. }
  unfold crc_bit. destruct (Z.odd c); [by rw Z.lxor_spec Hs|done].
Qed.

Lemma lxor_inj_r a b c : Z.lxor a c = Z.lxor b c → a = b.
Proof.
  intros E. rw -(Z.lxor_0_r a) -(Z.lxor_0_r b) -(Z.lxor_nilpotent c).
  by rw -!Z.lxor_assoc E.
Qed.

Lemma lxor_inj_l a b c : Z.lxor c a = Z.lxor c b → a = b.
Proof. rw !(Z.lxor_comm c). apply lxor_inj_r. Qed.

Lemma crc_bit_inj a b : word32 a → word32 b → crc_bit a = crc_bit b → a = b.
Proof.
  intros Ha Hb E.
  assert (Z.odd a = Z.odd b) as Ho by (rw -!crc_bit_top //; by rw E).
  assert (Z.shiftr a 1 = Z.shiftr b 1) as Es.
  { unfold crc_bit in E. rw Ho in E. destruct (Z.odd b); [by eapply lxor_inj_r|done]. }
  rw -!Z.div2_spec in Es.
  rw (Z.div2_odd a) (Z.div2_odd b) Es Ho. done.
Qed.

Lemma crc_bits_word32 n c : word32 c → word32 (Nat.iter n crc_bit c).
Proof. intros. induction n; simpl; auto using crc_bit_word32. Qed.

Lemma crc_bits_inj n a b :
  word32 a → word32 b → Nat.iter n crc_bit a = Nat.iter n crc_bit b → a = b.
Proof.
  intros Ha Hb. induction n as [|n IH]; simpl; [done|].
  intros E%crc_bit_inj; auto using crc_bits_word32.
Qed.

Lemma crc_byte_word32 c b : word32 c → word32 (crc_byte c b).
Proof. intros. apply crc_bits_word32, lxor_word32; auto using byte_word32. Qed.

Lemma crc_update_word32 c l : word32 c → word32 (crc_update c l).
Proof. revert c. induction l; intros; simpl; auto using crc_byte_word32. Qed.

Lemma crc_update_app c l k : crc_update c (l ++ k) = crc_update (crc_update c l) k.
Proof. apply foldl_app. Qed.

(** The register after a suffix determines the register before it. *)
Lemma crc_update_inj l a b :
  word32 a → word32 b → crc_update a l = crc_update b l → a = b.
Proof.
  revert a b. induction l as [|x l IH]; intros a b Ha Hb E; [done|].
  apply IH in E; auto using crc_byte_word32.
  unfold crc_byte in E. apply crc_bits_inj in E; auto using lxor_word32, byte_word32.
  by apply lxor_inj_r in E.
Qed.

Lemma crc_byte_inj_byte c x y : word32 c → crc_byte c x = crc_byte c y → x = y.
Proof.
  intros Hc E. apply crc_bits_inj in E; auto using lxor_word32, byte_word32.
  apply lxor_inj_l in E. by apply byte_to_Z_inj.
Qed.

Lemma crc32_word32 l : 0 <= crc32 l < 2 ^ 32.
Proof. apply lxor_word32; [apply crc_update_word32|]; apply word32_mask. Qed.

(** Replacing one byte by a different one always changes the checksum. *)
Lemma crc32_single_byte p x y s : x ≠ y → crc32 (p ++ x :: s) ≠ crc32 (p ++ y :: s).
Proof.
  intros Hne E. apply lxor_inj_r in E. rw !crc_update_app in E. simpl in E.
  pose proof (crc_update_word32 CRC_MASK p word32_mask) as Hw.
  apply crc_update_inj in E; auto using crc_byte_word32.
  by apply crc_byte_inj_byte in E.
Qed.
