(* ===== verification/LogRecord.v ===== *)
(** * Record framing (pylog/log.py, [encode_record] and [read_record])

    A record on disk is a 28-byte header [<4sIQqI] (magic, payload length, offset,
    timestamp, CRC-32 of the payload) followed by the payload.  An open file is the
    list of its bytes from the current position on; [f.read(n)] takes at most [n]
    of them. *)
From S2P Require Import Prelude Bytes Crc32.
Local Open Scope Z_scope.

Definition MAGIC : bytes := [x50; x4c; x47; x31].
Definition HEADER_SIZE : Z := 28.
Definition MAX_RECORD_BYTES : Z := 64 * 1024 * 1024.

Record LogRec := mkRec {
  rec_offset : Z;
  rec_timestamp : Z;
  rec_payload : bytes;
}.

#[export] Instance LogRec_eq_dec : EqDecision LogRec.
Proof. solve_decision. Defined.

(** [_HEADER.pack(...)]: [struct.error] when a field is out of range. *)
Definition header_pack (magic : bytes) (length offset timestamp crc : Z) : Exn + bytes :=
  if in_range 0 (2 ^ 32) length && in_range 0 (2 ^ 64) offset
     && in_range (- 2 ^ 63) (2 ^ 63) timestamp && in_range 0 (2 ^ 32) crc
  then inr (magic ++ le_encode 4 length ++ le_encode 8 offset
                  ++ le_encode 8 timestamp ++ le_encode 4 crc)
  else inl StructError.

(** [_HEADER.unpack(h)] on a 28-byte string. *)
Definition header_unpack (h : bytes) : bytes * Z * Z * Z * Z :=
  (take 4 h, le_decode (take 4 (drop 4 h)), le_decode (take 8 (drop 8 h)),
   to_signed 64 (le_decode (take 8 (drop 16 h))), le_decode (take 4 (drop 24 h))).

Definition encode_record (offset : Z) (payload : bytes) (timestamp : Z) : Exn + bytes :=
  match header_pack MAGIC (len payload) offset timestamp (crc32 payload) with
  | inl e => inl e
  | inr h => inr (h ++ payload)
  end.

(** [f.read(n)] *)
Definition file_read (n : Z) : M bytes bytes :=
  λ f, (inr (take (Z.to_nat n) f), drop (Z.to_nat n) f).

Definition read_record : M bytes (option LogRec) :=
  header ← file_read HEADER_SIZE;
  if bool_decide (header = []) then mret None
  else if len header <? HEADER_SIZE then raise CorruptRecord
  else
    let '(magic, length, offset, timestamp, crc) := header_unpack header in
    if negb (bool_decide (magic = MAGIC)) then raise CorruptRecord
    else if MAX_RECORD_BYTES <? length then raise CorruptRecord
    else
      payload ← file_read length;
      if len payload <? length then raise CorruptRecord
      else if negb (crc32 payload =? crc) then raise CorruptRecord
      else mret (Some (mkRec offset timestamp payload)).

(** ** The encoding as a total function *)

Definition enc (r : LogRec) : bytes :=
  MAGIC ++ le_encode 4 (len (rec_payload r)) ++ le_encode 8 (rec_offset r)
        ++ le_encode 8 (rec_timestamp r) ++ le_encode 4 (crc32 (rec_payload r))
        ++ rec_payload r.

(** The records the format can represent and read back. *)
Definition rec_ok (r : LogRec) : Prop :=
  0 <= rec_offset r < 2 ^ 64 ∧ - 2 ^ 63 <= rec_timestamp r < 2 ^ 63 ∧
  len (rec_payload r) <= MAX_RECORD_BYTES.

#[export] Instance rec_ok_dec r : Decision (rec_ok r).
Proof. unfold rec_ok. apply _. Defined.

(** The fields [_HEADER.pack] accepts. *)
Definition packable (o t n : Z) : Prop :=
  0 <= o < 2 ^ 64 ∧ - 2 ^ 63 <= t < 2 ^ 63 ∧ n < 2 ^ 32.

Lemma encode_record_enc o p t :
  packable o t (len p) → encode_record o p t = inr (enc (mkRec o t p)).
Proof.
  intros (Ho & Ht & Hp). unfold encode_record, header_pack.
  pose proof (crc32_word32 p) as Hc. pose proof (len_nonneg p).
  rewrite !(proj2 (in_range_true _ _ _)) by lia. cbn -[app MAGIC].
  unfold enc. cbn [rec_offset rec_timestamp rec_payload]. by rewrite <-!app_assoc.
Qed.

Lemma encode_record_error o p t :
  ¬ packable o t (len p) → encode_record o p t = inl StructError.
Proof.
  intros Hn. unfold encode_record, header_pack.
  destruct (_ && _) eqn:E; [|done]. exfalso. apply Hn.
  rewrite !andb_true_iff, !in_range_true in E. unfold packable. tauto.
Qed.

Lemma rec_ok_packable r : rec_ok r → packable (rec_offset r) (rec_timestamp r) (len (rec_payload r)).
Proof. unfold rec_ok, packable, MAX_RECORD_BYTES. lia. Qed.

Lemma enc_length r : len (enc r) = HEADER_SIZE + len (rec_payload r).
Proof.
  unfold enc. autorewrite with pylog. change (len MAGIC) with 4. unfold HEADER_SIZE. lia.
Qed.

Lemma enc_nonempty r : enc r ≠ [].
Proof. unfold enc, MAGIC. done. Qed.

(** ** Reading *)

Definition header_of (r : LogRec) : bytes :=
  MAGIC ++ le_encode 4 (len (rec_payload r)) ++ le_encode 8 (rec_offset r)
        ++ le_encode 8 (rec_timestamp r) ++ le_encode 4 (crc32 (rec_payload r)).

Lemma enc_split r : enc r = header_of r ++ rec_payload r.
Proof. unfold enc, header_of. by rewrite <-!app_assoc. Qed.

Lemma header_of_length r : length (header_of r) = 28%nat.
Proof. done. Qed.

Lemma header_unpack_of r :
  header_unpack (header_of r)
  = (MAGIC, le_decode (le_encode 4 (len (rec_payload r))),
     le_decode (le_encode 8 (rec_offset r)),
     to_signed 64 (le_decode (le_encode 8 (rec_timestamp r))),
     le_decode (le_encode 4 (crc32 (rec_payload r)))).
Proof. reflexivity. Qed.

Lemma header_unpack_ok r :
  packable (rec_offset r) (rec_timestamp r) (len (rec_payload r)) →
  header_unpack (header_of r)
  = (MAGIC, len (rec_payload r), rec_offset r, rec_timestamp r, crc32 (rec_payload r)).
Proof.
  intros (Ho & Ht & Hp). pose proof (crc32_word32 (rec_payload r)). pose proof (len_nonneg (rec_payload r)).
  rewrite header_unpack_of, !le_decode_encode.
  change (256 ^ Z.of_nat 4) with (2 ^ 32). change (256 ^ Z.of_nat 8) with (2 ^ 64).
  rewrite to_signed_mod by (simpl; lia). by rewrite !Z.mod_small by lia.
Qed.

Lemma file_read_split (n : Z) a b : len a = n → file_read n (a ++ b) = (inr a, b).
Proof.
  intros <-. unfold file_read, len. rewrite Nat2Z.id. by rewrite take_app_length, drop_app_length.
Qed.

Lemma file_read_short (n : Z) a : len a <= n → file_read n a = (inr a, []).
Proof.
  intros Ha. unfold file_read, len in *.
  rewrite take_ge by lia. by rewrite drop_ge by lia.
Qed.

(** The part of [read_record] after the header has been read. *)
Definition read_body (header : bytes) : M bytes (option LogRec) :=
  let '(magic, length, offset, timestamp, crc) := header_unpack header in
  if negb (bool_decide (magic = MAGIC)) then raise CorruptRecord
  else if MAX_RECORD_BYTES <? length then raise CorruptRecord
  else
    payload ← file_read length;
    if len payload <? length then raise CorruptRecord
    else if negb (crc32 payload =? crc) then raise CorruptRecord
    else mret (Some (mkRec offset timestamp payload)).

Lemma read_record_header h f :
  length h = 28%nat → read_record (h ++ f) = read_body h f.
Proof.
  intros Hh. unfold read_record. erewrite bind_ok.
  2:{ apply file_read_split. unfold len. by rewrite Hh. }
  rewrite bool_decide_eq_false_2 by (by intros ->).
  assert ((len h <? HEADER_SIZE) = false) as -> by (unfold len; rewrite Hh; done). done.
Qed.

Lemma read_record_eof : read_record [] = (inr None, []).
Proof. reflexivity. Qed.

(** Reading a record whose payload bytes on disk are [p'] instead of the ones it was
    written with. *)
Lemma read_record_payload r p' f :
  packable (rec_offset r) (rec_timestamp r) (len (rec_payload r)) →
  len p' = len (rec_payload r) →
  read_record (header_of r ++ p' ++ f) =
    if MAX_RECORD_BYTES <? len (rec_payload r) then (inl CorruptRecord, p' ++ f)
    else if crc32 p' =? crc32 (rec_payload r)
         then (inr (Some (mkRec (rec_offset r) (rec_timestamp r) p')), f)
         else (inl CorruptRecord, f).
Proof.
  intros Hp Hl. rewrite read_record_header by done. unfold read_body.
  rewrite header_unpack_ok by done. rewrite bool_decide_eq_true_2 by done. cbn [negb].
  destruct (MAX_RECORD_BYTES <? _); [done|].
  erewrite bind_ok by (by apply file_read_split).
  rewrite Hl, Z.ltb_irrefl. by destruct (_ =? _).
Qed.

Lemma read_record_enc r f : rec_ok r → read_record (enc r ++ f) = (inr (Some r), f).
Proof.
  intros Hr. rewrite enc_split, <-app_assoc, read_record_payload by (try apply rec_ok_packable; done).
  destruct Hr as (_ & _ & Hm). destruct (Z.ltb_spec MAX_RECORD_BYTES (len (rec_payload r))); [lia|].
  rewrite Z.eqb_refl. by destruct r.
Qed.

(** A file ending inside a record: nothing is left, or the tail is corrupt. *)
Lemma read_record_torn r n :
  rec_ok r → (0 < n < length (enc r))%nat →
  ∃ f', read_record (take n (enc r)) = (inl CorruptRecord, f').
Proof.
  intros Hr Hn. rewrite enc_split. rewrite enc_split, length_app, header_of_length in Hn.
  destruct (decide (n < 28)%nat) as [Hlt|Hge].
  - rewrite take_app_le by (rewrite header_of_length; lia).
    unfold read_record. erewrite bind_ok.
    2:{ apply file_read_short. unfold len, HEADER_SIZE. rewrite length_take. lia. }
    assert (length (take n (header_of r)) = n) as Hl by (rewrite length_take, header_of_length; lia).
    rewrite bool_decide_eq_false_2 by (intros E; rewrite E in Hl; simpl in Hl; lia).
    assert ((len (take n (header_of r)) <? HEADER_SIZE) = true) as ->.
    { unfold len, HEADER_SIZE. rewrite Hl. apply Z.ltb_lt. lia. }
    by eexists.
  - rewrite take_app_ge by (rewrite header_of_length; lia). rewrite header_of_length.
    rewrite read_record_header by done. unfold read_body.
    rewrite header_unpack_ok by by apply rec_ok_packable. rewrite bool_decide_eq_true_2 by done. cbn [negb].
    destruct (MAX_RECORD_BYTES <? _); [by eexists|].
    assert (length (take (n - 28) (rec_payload r)) = n - 28)%nat as Hl by (rewrite length_take; lia).
    erewrite bind_ok. 2:{ apply file_read_short. unfold len. rewrite Hl. lia. }
    assert ((len (take (n - 28) (rec_payload r)) <? len (rec_payload r)) = true) as ->.
    { unfold len. rewrite Hl. apply Z.ltb_lt. lia. }
    by eexists.
Qed.

(** The header bytes are determined by the fields they unpack to. *)
Lemma header_of_unpack h o t p :
  length h = 28%nat → header_unpack h = (MAGIC, len p, o, t, crc32 p) →
  h = header_of (mkRec o t p) ∧ 0 <= o < 2 ^ 64 ∧ - 2 ^ 63 <= t < 2 ^ 63.
Proof.
  intros Hh E. unfold header_unpack in E. injection E as Hm Hl Ho Ht Hc.
  pose proof (le_decode_bound (take 8 (drop 8 h))) as Hbo.
  pose proof (le_decode_bound (take 8 (drop 16 h))) as Hbt.
  assert (∀ i n, (i + n ≤ 28)%nat → length (take n (drop i h)) = n) as Hsub.
  { intros i n Hi. rewrite length_take, length_drop. lia. }
  unfold len in Hbo, Hbt. rewrite Hsub in Hbo, Hbt by lia.
  change (256 ^ Z.of_nat 8) with (2 ^ 64) in *.
  split; [|split; [by rewrite <-Ho|]].
  2:{ rewrite <-Ht. by apply (to_signed_bound 64). }
  unfold header_of; cbn [rec_offset rec_timestamp rec_payload].
  rewrite <-Hl, <-Ho, <-Hc, <-Hm.
  assert (le_encode 8 t = take 8 (drop 16 h)) as ->.
  { rewrite <-(le_encode_mod 8 t), <-Ht. change (256 ^ Z.of_nat 8) with (2 ^ 64).
    rewrite to_signed_unsigned by done. apply le_encode_decode. apply Hsub. lia. }
  rewrite !le_encode_decode by (apply Hsub; lia).
  rewrite <-(take_drop 4 h) at 1. f_equal.
  rewrite <-(take_drop 4 (drop 4 h)) at 1. f_equal. rewrite drop_drop.
  rewrite <-(take_drop 8 (drop _ h)) at 1. f_equal. rewrite drop_drop.
  rewrite <-(take_drop 8 (drop _ h)) at 1. f_equal. rewrite drop_drop.
  symmetry. apply take_ge. rewrite length_drop. lia.
Qed.

(** What is read was written: [read_record] accepts encodings only. *)
Lemma read_record_inv f r f' :
  read_record f = (inr (Some r), f') → rec_ok r ∧ f = enc r ++ f'.
Proof.
  destruct (decide (28 ≤ length f)%nat) as [Hge|Hlt].
  2:{ unfold read_record. erewrite bind_ok by (apply file_read_short; unfold len, HEADER_SIZE; lia).
      case_bool_decide; [done|].
      assert ((len f <? HEADER_SIZE) = true) as ->; [|done].
      unfold len, HEADER_SIZE. apply Z.ltb_lt. lia. }
  rewrite <-(take_drop 28 f). set (h := take 28 f). set (g := drop 28 f).
  assert (length h = 28%nat) as Hh by (unfold h; rewrite length_take; lia).
  clearbody h g. rewrite read_record_header by done. unfold read_body.
  destruct (header_unpack h) as [[[[magic n] o] t] c] eqn:E.
  case_bool_decide as Hm; [cbn [negb]; subst magic|done].
  destruct (Z.ltb_spec MAX_RECORD_BYTES n) as [|Hn]; [done|].
  intros (p & g' & Hp & H)%bind_inv_ok.
  unfold file_read in Hp. injection Hp as Hp Hg'.
  destruct (Z.ltb_spec (len p) n) as [|Hpn]; [done|].
  destruct (Z.eqb_spec (crc32 p) c) as [<-|]; [|done]. injection H as <- <-.
  assert (0 <= n).
  { unfold header_unpack in E. injection E as _ <- _ _ _. apply le_decode_bound. }
  assert (len p = n) as Hpn'.
  { unfold len in *. assert (length p ≤ Z.to_nat n)%nat; [|lia]. subst p. rewrite length_take. lia. }
  subst n. apply header_of_unpack in E as (-> & Ho & Ht); [|done].
  split; [done|]. rewrite enc_split, <-app_assoc. f_equal.
  rewrite <-(take_drop (Z.to_nat (len p)) g). by rewrite Hp, Hg'.
Qed.
