(* ===== verification/FileSystem.v ===== *)
(** * Directory contents and segment file names (pylog/log.py)

    The files of one directory, as a map from file names to contents.  Segment
    files are named [f"{base_offset:020d}.log"] and [.index]; [CommitLog.recover]
    reads the base offsets back from the names. *)
From stdpp Require Export strings sorting.
From Stdlib Require Import Ascii.
From S2P Require Import Prelude Bytes.
Local Open Scope Z_scope.

Abbreviation FS := (gmap string bytes).

(** ** [f"{n:020d}"], [str.isdigit] and [int] *)

Definition digit (d : Z) : ascii := ascii_of_nat (48 + Z.to_nat d).
Definition digit_val (c : ascii) : Z := Z.of_nat (nat_of_ascii c) - 48.

Fixpoint dec_aux (fuel : nat) (n : Z) (acc : string) : string :=
  match fuel with
  | O => acc
  | S fuel' =>
      let acc' := String (digit (n mod 10)) acc in
      if n <? 10 then acc' else dec_aux fuel' (n / 10) acc'
  end.

(** [str(n)] for [n >= 0]; the number of binary digits bounds the decimal ones. *)
Definition dec (n : Z) : string := dec_aux (S (Z.to_nat (Z.log2 n))) n EmptyString.

Fixpoint zeros (k : nat) : string :=
  match k with O => EmptyString | S k' => String "0" (zeros k') end.

Definition zfill (w : nat) (s : string) : string := (zeros (w - String.length s) +:+ s)%string.

Definition fmt_020d (n : Z) : string :=
  if n <? 0 then String "-" (zfill 19 (dec (- n))) else zfill 20 (dec n).

Definition is_digit_char (c : ascii) : bool := (0 <=? digit_val c) && (digit_val c <=? 9).

Fixpoint all_digits (s : string) : bool :=
  match s with EmptyString => true | String c s' => is_digit_char c && all_digits s' end.

Definition isdigit (s : string) : bool :=
  match s with EmptyString => false | _ => all_digits s end.

Fixpoint int_aux (s : string) (acc : Z) : Z :=
  match s with EmptyString => acc | String c s' => int_aux s' (acc * 10 + digit_val c) end.

Definition int_of_string (s : string) : Z := int_aux s 0.

(** [name.endswith(suf)] and [name[:-len(suf)]] *)
Definition strip_suffix (suf name : string) : option string :=
  let n := (String.length name - String.length suf)%nat in
  if bool_decide (String.substring n (String.length suf) name = suf)
  then Some (String.substring 0 n name) else None.

Definition log_name (base : Z) : string := (fmt_020d base +:+ ".log")%string.
Definition index_name (base : Z) : string := (fmt_020d base +:+ ".index")%string.

(** The base offset a directory entry stands for, if it is a segment file. *)
Definition segment_base (name : string) : option Z :=
  stem ← strip_suffix ".log" name;
  if isdigit stem then Some (int_of_string stem) else None.

(** [sorted(int(name[:-4]) for name in os.listdir(d) if ...)] *)
Definition list_bases (fs : FS) : list Z :=
  merge_sort Z.le (omap segment_base (elements (dom fs : gset string))).

Example log_name_7 : log_name 7 = "00000000000000000007.log"%string.
Proof. reflexivity. Qed.
Example segment_base_7 : segment_base "00000000000000000007.log" = Some 7.
Proof. reflexivity. Qed.
Example segment_base_other : segment_base "7.index" = None ∧ segment_base "x7.log" = None ∧ segment_base ".log" = None.
Proof. repeat split. Qed.

(** ** Files *)

(** [open(p, "wb").write(data)] *)
Definition fs_write (p : string) (data : bytes) (fs : FS) : FS := <[p := data]> fs.

(** A write to a file opened ["ab"]: created if missing, data goes to the end. *)
Definition fs_append (p : string) (data : bytes) (fs : FS) : FS :=
  <[p := default [] (fs !! p) ++ data]> fs.

(** [f.truncate(n)]: cuts, or extends with zero bytes. *)
Definition truncate_to (n : Z) (f : bytes) : bytes :=
  take (Z.to_nat n) f ++ replicate (Z.to_nat n - length f) x00.

(** [os.remove(p)] guarded by [os.path.exists(p)] *)
Definition fs_remove (p : string) (fs : FS) : FS := delete p fs.

(** ** Names round-trip *)

Lemma digit_val_digit d : 0 <= d < 10 → digit_val (digit d) = d.
Proof.
  intros Hd. unfold digit_val, digit. rewrite nat_ascii_embedding by lia. lia.
Qed.

Lemma is_digit_digit d : 0 <= d < 10 → is_digit_char (digit d) = true.
Proof.
  intros Hd. unfold is_digit_char. rewrite digit_val_digit by done.
  apply andb_true_iff. rewrite !Z.leb_le. lia.
Qed.

Lemma int_dec_aux fuel n s a :
  0 <= n < 10 ^ Z.of_nat fuel → (0 < fuel)%nat → a = 0 →
  int_aux (dec_aux fuel n s) a = int_aux s n.
Proof.
  intros Hn Hf ->. revert n s Hn. induction fuel as [|fuel IH]; intros n s Hn; [lia|].
  cbn [dec_aux]. rewrite Nat2Z.inj_succ, Z.pow_succ_r in Hn by lia.
  destruct (Z.ltb_spec n 10) as [Hlt|Hge].
  - cbn [int_aux]. rewrite digit_val_digit by (apply Z.mod_pos_bound; lia).
    rewrite Z.mod_small by lia. done.
  - destruct (decide (fuel = O)) as [->|]; [simpl in Hn; lia|].
    rewrite IH; [|lia|].
    + cbn [int_aux]. rewrite digit_val_digit by (apply Z.mod_pos_bound; lia).
      f_equal. pose proof (Z.div_mod n 10). lia.
    + split; [apply Z.div_pos; lia|]. apply Z.div_lt_upper_bound; lia.
Qed.

Lemma int_dec n : 0 <= n → int_of_string (dec n) = n.
Proof.
  intros Hn. apply int_dec_aux; [|lia|done]. split; [done|].
  destruct (decide (n = 0)) as [->|]; [done|].
  rewrite Nat2Z.inj_succ, Z2Nat.id by apply Z.log2_nonneg.
  eapply Z.lt_le_trans; [apply Z.log2_spec; lia|].
  apply Z.pow_le_mono_l. lia.
Qed.

Lemma int_zeros k s : int_of_string (zeros k +:+ s)%string = int_of_string s.
Proof. unfold int_of_string. induction k; simpl; done. Qed.

Lemma int_fmt_020d n : 0 <= n → int_of_string (fmt_020d n) = n.
Proof.
  intros Hn. unfold fmt_020d, zfill. destruct (Z.ltb_spec n 0); [lia|].
  rewrite int_zeros. by apply int_dec.
Qed.

Lemma all_digits_dec_aux fuel n s :
  0 <= n → all_digits s = true → all_digits (dec_aux fuel n s) = true.
Proof.
  revert n s. induction fuel as [|fuel IH]; intros n s Hn Hs; [done|]. cbn [dec_aux].
  assert (all_digits (String (digit (n mod 10)) s) = true).
  { cbn [all_digits]. rewrite is_digit_digit, Hs by (apply Z.mod_pos_bound; lia). done. }
  destruct (n <? 10); [done|]. apply IH; [apply Z.div_pos; lia|done].
Qed.

Lemma all_digits_dec n : 0 <= n → all_digits (dec n) = true.
Proof. intros Hn. by apply all_digits_dec_aux. Qed.

Lemma all_digits_zeros k s : all_digits (zeros k +:+ s)%string = all_digits s.
Proof. induction k; simpl; done. Qed.

Lemma length_zeros k s : String.length (zeros k +:+ s)%string = (k + String.length s)%nat.
Proof. induction k; simpl; auto. Qed.

Lemma isdigit_fmt_020d n : 0 <= n → isdigit (fmt_020d n) = true.
Proof.
  intros Hn. unfold fmt_020d. destruct (Z.ltb_spec n 0); [lia|]. unfold zfill.
  assert (all_digits (zeros (20 - String.length (dec n)) +:+ dec n)%string = true) as Ha.
  { rewrite all_digits_zeros. by apply all_digits_dec_aux. }
  pose proof (length_zeros (20 - String.length (dec n)) (dec n)) as Hl.
  destruct (_ +:+ _)%string; [simpl in Hl; lia|done].
Qed.

Lemma substring_app_r s t n :
  String.substring (String.length s) n (s +:+ t)%string = String.substring 0 n t.
Proof. induction s; simpl; auto. Qed.

Lemma substring_app_l s t : String.substring 0 (String.length s) (s +:+ t)%string = s.
Proof. induction s as [|c s IH]; simpl; [by destruct t|by rewrite IH]. Qed.

Lemma substring_all s : String.substring 0 (String.length s) s = s.
Proof. induction s as [|c s IH]; simpl; [done|by rewrite IH]. Qed.

Lemma length_string_app s t :
  String.length (s +:+ t)%string = (String.length s + String.length t)%nat.
Proof. induction s; simpl; auto. Qed.

Lemma strip_suffix_app s t : strip_suffix t (s +:+ t)%string = Some s.
Proof.
  unfold strip_suffix. rewrite length_string_app, Nat.add_sub, substring_app_r, substring_all.
  rewrite bool_decide_eq_true_2 by done. by rewrite substring_app_l.
Qed.

Lemma string_prefix_app p s : String.prefix p (p +:+ s)%string = true.
Proof.
  induction p as [|c p IH]; [by destruct s|].
  change ((if ascii_dec c c then String.prefix p (p +:+ s) else false) = true)%string. by destruct (ascii_dec c c).
Qed.

Lemma string_append_assoc a b c : (a +:+ (b +:+ c) = (a +:+ b) +:+ c)%string.
Proof. induction a as [|x a IH]; [done|]. exact (f_equal (String x) IH). Qed.

Lemma segment_base_log_name n : 0 <= n → segment_base (log_name n) = Some n.
Proof.
  intros Hn. unfold segment_base, log_name. rewrite strip_suffix_app. simpl.
  rewrite isdigit_fmt_020d by done. f_equal. by apply int_fmt_020d.
Qed.

Fixpoint last_char (s : string) : option ascii :=
  match s with EmptyString => None | String c EmptyString => Some c | String _ s' => last_char s' end.

Lemma last_char_app s c t : last_char (s +:+ String c t)%string = last_char (String c t).
Proof.
  induction s as [|d s IH]; [done|]. simpl. rewrite IH. by destruct s.
Qed.

Lemma last_char_index n : last_char (index_name n) = Some "x"%char.
Proof. apply last_char_app. Qed.

Lemma last_char_log n : last_char (log_name n) = Some "g"%char.
Proof. apply last_char_app. Qed.

Lemma log_name_inj a b : 0 <= a → 0 <= b → log_name a = log_name b → a = b.
Proof.
  intros Ha Hb E. apply (f_equal segment_base) in E.
  rewrite !segment_base_log_name in E by done. congruence.
Qed.

Lemma index_name_inj a b : 0 <= a → 0 <= b → index_name a = index_name b → a = b.
Proof.
  intros Ha Hb E. unfold index_name in E. apply (f_equal (strip_suffix ".index")) in E.
  rewrite !strip_suffix_app in E. injection E as E.
  rewrite <-(int_fmt_020d a), <-(int_fmt_020d b) by done. by rewrite E.
Qed.

Lemma log_index_ne a b : log_name a ≠ index_name b.
Proof. intros E. apply (f_equal last_char) in E. by rewrite last_char_log, last_char_index in E. Qed.

Lemma segment_base_index_name n : segment_base (index_name n) = None.
Proof.
  unfold segment_base, strip_suffix. case_bool_decide as E; [|done]. exfalso.
  change (String.length ".log") with 4%nat in *. set (k := (_ - 4)%nat) in *.
  assert (last_char (String.substring k 4 (index_name n)) = Some "g"%char) as Hg by (by rewrite E).
  assert (∃ s, index_name n = s +:+ "ndex")%string as [s Hs].
  { exists (fmt_020d n +:+ ".i")%string. unfold index_name.
    generalize (fmt_020d n). intros s. induction s as [|c s IH]; [done|].
    exact (f_equal (String c) IH). }
  assert (k = String.length s) as Hk by (unfold k; rewrite Hs, length_string_app; simpl; lia).
  rewrite Hs, Hk, substring_app_r in Hg. done.
Qed.
