(* ===== verification/Bisect.v ===== *)
(** * Binary search

    The loop [while lo < hi: mid = (lo + hi) // 2 ...] that [Segment.read] and
    [Segment.position_of] write out over the index, and that [bisect.bisect_right]
    runs over the segment base offsets. *)
From S2P Require Import Prelude.
From stdpp Require Import sorting.
Local Open Scope Z_scope.

(** The position after the last key that is at most [x], searched in [lo..hi).
    [keys[mid]] is always in range, and [hi - lo] shrinks at each turn. *)
Fixpoint bisect_loop (fuel : nat) (keys : list Z) (x : Z) (lo hi : nat) : nat :=
  match fuel with
  | O => lo
  | S fuel' =>
      if (lo <? hi)%nat then
        let mid := ((lo + hi) / 2)%nat in
        match keys !! mid with
        | Some r =>
            if r <=? x then bisect_loop fuel' keys x (S mid) hi
            else bisect_loop fuel' keys x lo mid
        | None => lo
        end
      else lo
  end.

Definition bisect_right (keys : list Z) (x : Z) : nat :=
  bisect_loop (length keys) keys x 0 (length keys).

Example bisect_right_hit : bisect_right [0; 10; 20; 30] 20 = 3%nat.
Proof. reflexivity. Qed.
Example bisect_right_before : bisect_right [5; 10] 4 = 0%nat.
Proof. reflexivity. Qed.

Section bisect.
Context (keys : list Z) (x : Z).
Hypothesis sorted : StronglySorted Z.lt keys.

Lemma sorted_lookup i j a b : (i < j)%nat → keys !! i = Some a → keys !! j = Some b → a < b.
Proof.
  clear x. revert i j. induction sorted as [|k l Hl IH Hk]; intros i j Hij Hi Hj; [by destruct i|].
  destruct j as [|j]; [lia|]. destruct i as [|i]; simpl in *.
  - simplify_eq. rewrite Forall_lookup in Hk. by eapply Hk.
  - apply (IH Hl i j); [lia|done|done].
Qed.

(** The first [n] keys are those at most [x]. *)
Definition splits_at (n : nat) : Prop :=
  (n ≤ length keys)%nat ∧ (∀ i k, keys !! i = Some k → (i < n)%nat ↔ k <= x).

Lemma splits_at_intro n :
  (n ≤ length keys)%nat →
  (∀ i k, keys !! i = Some k → (i < n)%nat → k <= x) →
  (∀ i k, keys !! i = Some k → (n ≤ i)%nat → x < k) → splits_at n.
Proof.
  intros Hn Hlo Hhi. split; [done|]. intros i k Hi. split; [by eauto|].
  intros Hk. destruct (decide (i < n)%nat); [done|]. specialize (Hhi _ _ Hi). lia.
Qed.

Lemma bisect_loop_splits fuel lo hi :
  (hi - lo ≤ fuel)%nat → (lo ≤ hi)%nat → (hi ≤ length keys)%nat →
  (∀ i k, keys !! i = Some k → (i < lo)%nat → k <= x) →
  (∀ i k, keys !! i = Some k → (hi ≤ i)%nat → x < k) →
  splits_at (bisect_loop fuel keys x lo hi).
Proof.
  revert lo hi. induction fuel as [|fuel IH]; intros lo hi Hf Hle Hn Hlo Hhi; cbn [bisect_loop].
  - apply splits_at_intro; [lia|done|]. intros i e Hi Hge. apply (Hhi i); [done|lia].
  - destruct (Nat.ltb_spec lo hi) as [Hlt|Hge].
    2:{ apply splits_at_intro; [lia|done|]. intros i e Hi ?. apply (Hhi i); [done|lia]. }
    assert (lo ≤ (lo + hi) / 2 < hi)%nat as [Hm1 Hm2].
    { split; [apply Nat.div_le_lower_bound; lia|apply Nat.Div0.div_lt_upper_bound; lia]. }
    set (mid := ((lo + hi) / 2)%nat) in *.
    destruct (keys !! mid) as [r|] eqn:Em.
    2:{ apply lookup_ge_None in Em. lia. }
    destruct (Z.leb_spec r x) as [Hr|Hr].
    + apply IH; [lia..| |done]. intros i e Hi Hlt'.
      destruct (decide (i = mid)) as [->|]; [by simplify_eq|].
      pose proof (sorted_lookup i mid _ _ ltac:(lia) Hi Em). lia.
    + apply IH; [lia..|done|]. intros i e Hi Hge'.
      destruct (decide (i = mid)) as [->|]; [by simplify_eq|].
      pose proof (sorted_lookup mid i _ _ ltac:(lia) Em Hi). lia.
Qed.

Lemma bisect_right_splits : splits_at (bisect_right keys x).
Proof.
  apply bisect_loop_splits; [lia..|intros; lia|]. intros i e Hi%lookup_lt_Some. lia.
Qed.
End bisect.

Lemma splits_at_count keys x n : splits_at keys x n → n = length (filter (λ k, k <= x) keys).
Proof.
  revert n. induction keys as [|k keys IH]; intros n [Hn Hs]; [simpl in *; lia|].
  destruct (Hs O k eq_refl) as [H1 H2]. destruct n as [|n].
  - rewrite filter_cons_False by (intros ?; lia).
    apply (IH O). split; [lia|]. intros i e' Hi. specialize (Hs (S i) e' Hi). lia.
  - rewrite filter_cons_True by (apply H1; lia). simpl. f_equal.
    apply IH. split; [simpl in Hn; lia|]. intros i e' Hi. specialize (Hs (S i) e' Hi). lia.
Qed.
