(* ===== verification/Segment.v ===== *)
(** * Segments (pylog/log.py, class [Segment])

    One [.log] file and its sparse [.index] sidecar.  A [Segment] value is the
    object's in-memory state; the files live in the directory's [FS], which every
    operation threads along.  File handles, the read buffer and the mmap are not part of
    the state here: Handles has them, and HandleFacts shows that these methods and
    those give the same results and files. *)
From S2P Require Import Prelude Bytes Crc32 LogRecord FileSystem Bisect.
Local Open Scope Z_scope.

Record Segment := mkSegment {
  base_offset : Z;
  index_interval_bytes : Z;
  index : list (Z * Z);
  size : Z;
  last_indexed_position : Z;
  max_timestamp : Z;
  next_offset : Z;
}.

Definition Segment_init (base interval : Z) : Segment :=
  mkSegment base (Z.max 1 interval) [] 0 (-1) 0 base.

(** The fields [recover] and a truncation to the base offset reset. *)
Definition Segment_reset (g : Segment) : Segment :=
  mkSegment (base_offset g) (index_interval_bytes g) [] 0 (-1) 0 (base_offset g).

Definition log_path (g : Segment) : string := log_name (base_offset g).
Definition index_path (g : Segment) : string := index_name (base_offset g).

Definition set_index (x : list (Z * Z)) (g : Segment) : Segment :=
  mkSegment (base_offset g) (index_interval_bytes g) x (size g)
            (last_indexed_position g) (max_timestamp g) (next_offset g).
Definition set_size (x : Z) (g : Segment) : Segment :=
  mkSegment (base_offset g) (index_interval_bytes g) (index g) x
            (last_indexed_position g) (max_timestamp g) (next_offset g).
Definition set_last_indexed (x : Z) (g : Segment) : Segment :=
  mkSegment (base_offset g) (index_interval_bytes g) (index g) (size g)
            x (max_timestamp g) (next_offset g).
Definition set_max_timestamp (x : Z) (g : Segment) : Segment :=
  mkSegment (base_offset g) (index_interval_bytes g) (index g) (size g)
            (last_indexed_position g) x (next_offset g).
Definition set_next_offset (x : Z) (g : Segment) : Segment :=
  mkSegment (base_offset g) (index_interval_bytes g) (index g) (size g)
            (last_indexed_position g) (max_timestamp g) x.

(** The state a segment method runs in. *)
Abbreviation SegM := (M (FS * Segment)).

Definition get_fs : SegM FS := gets fst.
Definition self : SegM Segment := gets snd.
Definition on_fs (f : FS → FS) : SegM () := modify (λ s, (f s.1, s.2)).
Definition on_self (f : Segment → Segment) : SegM () := modify (λ s, (s.1, f s.2)).

(** [open(p, "rb").read()] *)
Definition read_file (p : string) : SegM bytes :=
  fs ← get_fs;
  match fs !! p with Some f => mret f | None => raise FileNotFoundError end.

(** [_INDEX_ENTRY.pack(rel, position)], format [<QQ] *)
Definition index_entry_pack (e : Z * Z) : Exn + bytes :=
  if in_range 0 (2 ^ 64) e.1 && in_range 0 (2 ^ 64) e.2
  then inr (le_encode 8 e.1 ++ le_encode 8 e.2) else inl StructError.

(** [self._index_handle().write(_INDEX_ENTRY.pack(rel, position))]: the handle is
    opened first, which creates the file, then the entry is packed. *)
Definition write_index_entry (e : Z * Z) : SegM () :=
  g ← self;
  _ ← on_fs (fs_append (index_path g) []);
  d ← lift (index_entry_pack e);
  on_fs (fs_append (index_path g) d).

(** The guard of [_maybe_index] and of [append]. *)
Definition index_due (g : Segment) (position : Z) : bool :=
  bool_decide (index g = []) || (index_interval_bytes g <=? position - last_indexed_position g).

Definition Segment_maybe_index (abs_offset position : Z) : SegM () :=
  g ← self;
  let rel := abs_offset - base_offset g in
  when (index_due g position) (
    _ ← on_self (set_index (index g ++ [(rel, position)]));
    _ ← write_index_entry (rel, position);
    on_self (set_last_indexed position)).

Definition Segment_rewrite_index : SegM () :=
  g ← self;
  _ ← on_fs (fs_write (index_path g) []);
  for_each (index g) (λ e,
    d ← lift (index_entry_pack e);
    on_fs (fs_append (index_path g) d)).

(** The replay loop of [recover]: [f] is the unread part of the file, [position]
    is [f.tell()].  Every iteration that continues consumes a record, so the
    length of the file bounds the number of iterations. *)
Fixpoint recover_loop (fuel : nat) (f : bytes) (position good_size next : Z)
    : SegM (Z * Z) :=
  match fuel with
  | O => mret (good_size, next)
  | S fuel' =>
      match read_record f with
      | (inl _, _) => mret (good_size, next)
      | (inr None, _) => mret (good_size, next)
      | (inr (Some rec), f') =>
          _ ← Segment_maybe_index (rec_offset rec) position;
          _ ← on_self (λ g, set_max_timestamp (Z.max (max_timestamp g) (rec_timestamp rec)) g);
          let tell := position + (len f - len f') in
          recover_loop fuel' f' tell tell (rec_offset rec + 1)
      end
  end.

Definition Segment_recover : SegM Z :=
  _ ← on_self Segment_reset;
  g ← self;
  fs ← get_fs;
  match fs !! log_path g with
  | None =>
      _ ← on_fs (fs_write (log_path g) []);
      _ ← on_fs (fs_write (index_path g) []);
      mret (base_offset g)
  | Some f =>
      '(good_size, next) ← recover_loop (S (length f)) f 0 0 (base_offset g);
      _ ← when (good_size <? len f) (on_fs (fs_write (log_path g) (truncate_to good_size f)));
      _ ← on_self (set_size good_size);
      _ ← on_self (set_next_offset next);
      _ ← Segment_rewrite_index;
      mret next
  end.

Definition Segment_append (offset : Z) (record_bytes : bytes) (timestamp : Z) : SegM () :=
  g ← self;
  let position := size g in
  _ ← on_fs (fs_append (log_path g) record_bytes);
  _ ← on_self (λ g, set_size (size g + len record_bytes) g);
  _ ← on_self (λ g, if max_timestamp g <? timestamp then set_max_timestamp timestamp g else g);
  _ ← on_self (set_next_offset (offset + 1));
  let rel := offset - base_offset g in
  g ← self;
  when (index_due g position) (
    _ ← on_self (set_index (index g ++ [(rel, position)]));
    _ ← write_index_entry (rel, position);
    on_self (set_last_indexed position)).

(** The search of [read] and [position_of] over [self.index[mid][0]], then
    [start_rel, start_pos = self.index[lo - 1] if lo > 0 else (0, 0)]. *)
Definition index_start (idx : list (Z * Z)) (rel_target : Z) : Z * Z :=
  let lo := bisect_right (fst <$> idx) rel_target in
  if (0 <? lo)%nat then default (0, 0) (idx !! (lo - 1)%nat) else (0, 0).

(** The scan of [read], over the bytes from [start_pos] on. *)
Fixpoint scan_record (fuel : nat) (f : bytes) (abs_offset : Z) : option LogRec :=
  match fuel with
  | O => None
  | S fuel' =>
      match read_record f with
      | (inr (Some rec), f') =>
          if rec_offset rec =? abs_offset then Some rec
          else if abs_offset <? rec_offset rec then None
          else scan_record fuel' f' abs_offset
      | _ => None
      end
  end.

Fixpoint scan_position (fuel : nat) (f : bytes) (position abs_offset : Z) : option Z :=
  match fuel with
  | O => None
  | S fuel' =>
      match read_record f with
      | (inr (Some rec), f') =>
          if rec_offset rec =? abs_offset then Some position
          else if abs_offset <? rec_offset rec then None
          else scan_position fuel' f' (position + (len f - len f')) abs_offset
      | _ => None
      end
  end.

(** The mmap and the file handle both show the bytes of [log_path] from
    [start_pos] on, so the two scans of the source are one here. *)
Definition Segment_read (abs_offset : Z) : SegM (option LogRec) :=
  g ← self;
  if (abs_offset <? base_offset g) || (next_offset g <=? abs_offset) then mret None
  else
    let rel_target := abs_offset - base_offset g in
    let '(_, start_pos) := index_start (index g) rel_target in
    f ← read_file (log_path g);
    let f := drop (Z.to_nat start_pos) f in
    mret (scan_record (S (length f)) f abs_offset).

Definition Segment_position_of (abs_offset : Z) : SegM (option Z) :=
  g ← self;
  if (abs_offset <? base_offset g) || (next_offset g <=? abs_offset) then mret None
  else
    let rel_target := abs_offset - base_offset g in
    let '(_, start_pos) := index_start (index g) rel_target in
    f ← read_file (log_path g);
    let f := drop (Z.to_nat start_pos) f in
    mret (scan_position (S (length f)) f start_pos abs_offset).

Definition Segment_truncate_from (abs_offset : Z) : SegM bool :=
  g ← self;
  if abs_offset <=? base_offset g then
    let changed := (0 <? size g) || negb (next_offset g =? base_offset g) in
    _ ← on_fs (fs_write (log_path g) []);
    _ ← on_self Segment_reset;
    _ ← Segment_rewrite_index;
    mret changed
  else
    p ← Segment_position_of abs_offset;
    match p with
    | None => mret false
    | Some position =>
        f ← read_file (log_path g);
        _ ← on_fs (fs_write (log_path g) (truncate_to position f));
        _ ← on_self (set_size position);
        _ ← on_self (set_next_offset abs_offset);
        let rel_cut := abs_offset - base_offset g in
        let idx := filter (λ e, e.1 < rel_cut) (index g) in
        _ ← on_self (set_index idx);
        _ ← on_self (set_last_indexed (default (-1) (snd <$> last idx)));
        _ ← Segment_rewrite_index;
        mret true
    end.

Definition Segment_is_empty (g : Segment) : bool := size g =? 0.

Definition Segment_delete : SegM () :=
  g ← self;
  _ ← on_fs (fs_remove (log_path g));
  on_fs (fs_remove (index_path g)).
