(* ===== verification/SegmentFacts.v ===== *)
(** * Segments: representation invariant and functional correctness

    A segment represents a list of records [rs] when its log file is exactly
    their encodings, offsets count up from the base, the in-memory counters agree
    with the file, and the sparse index is the one the append rule builds for
    [rs].  Every operation is shown to compute the corresponding list operation. *)
From S2P Require Import Prelude Bytes Crc32 LogRecord FileSystem Bisect Segment.
Local Open Scope Z_scope.

(** Run the primitive steps at the head of a segment computation. *)
Ltac mrun := cbv [mbind M_bind mret M_ret self get_fs gets on_fs on_self modify lift raise].

(** ** Encoded record sequences *)

Definition enc_all (rs : list LogRec) : bytes := concat (enc <$> rs).

Lemma enc_all_app a b : enc_all (a ++ b) = enc_all a ++ enc_all b.
Proof. unfold enc_all. by rewrite fmap_app, concat_app. Qed.

Lemma enc_all_cons r rs : enc_all (r :: rs) = enc r ++ enc_all rs.
Proof. done. Qed.

Lemma enc_all_snoc rs r : enc_all (rs ++ [r]) = enc_all rs ++ enc r.
Proof. rewrite enc_all_app. unfold enc_all at 2. simpl. by rewrite app_nil_r. Qed.

Lemma enc_len_pos r : 28 <= len (enc r).
Proof. rewrite enc_length. pose proof (len_nonneg (rec_payload r)). unfold HEADER_SIZE. lia. Qed.

(** Byte position of the [k]-th record. *)
Definition pos_of (rs : list LogRec) (k : nat) : Z := len (enc_all (take k rs)).

Lemma pos_of_S rs k r : rs !! k = Some r → pos_of rs (S k) = pos_of rs k + len (enc r).
Proof.
  intros Hk. unfold pos_of. rewrite (take_S_r _ _ _ Hk), enc_all_snoc. by rewrite len_app.
Qed.

Lemma pos_of_mono rs j k : (j ≤ k)%nat → pos_of rs j <= pos_of rs k.
Proof.
  intros Hjk. unfold pos_of.
  replace k with (j + (k - j))%nat by lia. rewrite <-take_take_drop, enc_all_app, len_app.
  pose proof (len_nonneg (enc_all (take (k - j) (drop j rs)))). lia.
Qed.

Lemma pos_of_le rs k : pos_of rs k <= len (enc_all rs).
Proof.
  rewrite <-(take_drop k rs) at 2. rewrite enc_all_app, len_app. unfold pos_of.
  pose proof (len_nonneg (enc_all (drop k rs))). lia.
Qed.

Lemma pos_of_all rs k : (length rs ≤ k)%nat → pos_of rs k = len (enc_all rs).
Proof. intros. unfold pos_of. by rewrite take_ge by done. Qed.

Lemma drop_pos_of rs k : drop (Z.to_nat (pos_of rs k)) (enc_all rs) = enc_all (drop k rs).
Proof.
  rewrite <-(take_drop k rs) at 2. rewrite enc_all_app. apply drop_app_len.
  unfold pos_of, len. lia.
Qed.

Lemma take_pos_of rs k : take (Z.to_nat (pos_of rs k)) (enc_all rs) = enc_all (take k rs).
Proof.
  rewrite <-(take_drop k rs) at 2. rewrite enc_all_app. apply take_app_len.
  unfold pos_of, len. lia.
Qed.

Lemma truncate_to_pos_of rs k : truncate_to (pos_of rs k) (enc_all rs) = enc_all (take k rs).
Proof.
  unfold truncate_to. rewrite take_pos_of.
  pose proof (pos_of_le rs k) as Hle. unfold len in Hle.
  replace (Z.to_nat (pos_of rs k) - length (enc_all rs))%nat with 0%nat by lia.
  simpl. by rewrite app_nil_r.
Qed.

Lemma truncate_to_app a b : truncate_to (len a) (a ++ b) = a.
Proof.
  unfold truncate_to, len. rewrite Nat2Z.id, take_app_length, length_app.
  replace (length a - (length a + length b))%nat with 0%nat by lia. simpl. by rewrite app_nil_r.
Qed.

(** Offsets count up from [base]. *)
Definition contiguous (base : Z) (rs : list LogRec) : Prop :=
  ∀ i r, rs !! i = Some r → rec_offset r = base + Z.of_nat i.

Lemma contiguous_snoc base rs r :
  contiguous base rs → rec_offset r = base + len rs → contiguous base (rs ++ [r]).
Proof.
  intros Hc Hr i r' Hi. apply lookup_app_Some in Hi as [Hi|[Hge Hi]]; [by apply Hc|].
  apply list_lookup_singleton_Some in Hi as [Hi <-]. unfold len in Hr. lia.
Qed.

Lemma contiguous_take base rs k : contiguous base rs → contiguous base (take k rs).
Proof. intros Hc i r Hi. apply lookup_take_Some in Hi as [Hi _]. by apply Hc. Qed.

Lemma contiguous_drop base rs k : contiguous base rs → contiguous (base + Z.of_nat k) (drop k rs).
Proof. intros Hc i r Hi. rewrite lookup_drop in Hi. rewrite (Hc _ _ Hi). lia. Qed.

Lemma contiguous_app base a b :
  contiguous base (a ++ b) ↔ contiguous base a ∧ contiguous (base + len a) b.
Proof.
  split.
  - intros Hc. split.
    + intros i r Hi. apply Hc. by apply lookup_app_l_Some.
    + intros i r Hi. rewrite (Hc (length a + i)%nat); [unfold len; lia|].
      rewrite lookup_app_r by lia. by rewrite Nat.add_sub', Hi.
  - intros [Ha Hb] i r Hi. apply lookup_app_Some in Hi as [Hi|[Hge Hi]]; [by apply Ha|].
    rewrite (Hb _ _ Hi). unfold len. lia.
Qed.

(** ** The sparse index as a function of the records *)

Definition idx_step (interval : Z) (st : list (Z * Z) * Z) (mark : Z * Z) : list (Z * Z) * Z :=
  if bool_decide (st.1 = []) || (interval <=? mark.2 - st.2)
  then (st.1 ++ [mark], mark.2) else st.

Definition marks (rs : list LogRec) : list (Z * Z) :=
  (λ k, (Z.of_nat k, pos_of rs k)) <$> seq 0 (length rs).

Definition build_index (interval : Z) (rs : list LogRec) : list (Z * Z) * Z :=
  foldl (idx_step interval) ([], -1) (marks rs).

Lemma marks_snoc rs r : marks (rs ++ [r]) = marks rs ++ [(len rs, len (enc_all rs))].
Proof.
  unfold marks. rewrite length_app, seq_app, fmap_app. simpl. f_equal.
  - apply list_fmap_ext. intros i k Hk. apply lookup_seq in Hk as [-> Hlt].
    unfold pos_of. by rewrite take_app_le by (simpl; lia).
  - unfold pos_of, len. by rewrite take_app_length.
Qed.

Lemma build_index_snoc i rs r :
  build_index i (rs ++ [r]) = idx_step i (build_index i rs) (len rs, len (enc_all rs)).
Proof. unfold build_index. by rewrite marks_snoc, foldl_app. Qed.

(** Facts about the index built for [rs]: its entries mark records, in order, the
    first record is indexed, and the last position is remembered. *)
Record index_spec (rs : list LogRec) (st : list (Z * Z) * Z) : Prop := {
  ix_marks : ∀ e, e ∈ st.1 → ∃ k, (k < length rs)%nat ∧ e = (Z.of_nat k, pos_of rs k);
  ix_sorted : StronglySorted Z.lt (fst <$> st.1);
  ix_head : rs ≠ [] → head st.1 = Some (0, 0);
  ix_last : st.2 = default (-1) (snd <$> last st.1);
}.

Lemma pos_of_snoc rs r k : (k ≤ length rs)%nat → pos_of (rs ++ [r]) k = pos_of rs k.
Proof. intros. unfold pos_of. by rewrite take_app_le. Qed.

Lemma StronglySorted_snoc_lt (l : list Z) x :
  StronglySorted Z.lt l → (∀ e, e ∈ l → e < x) → StronglySorted Z.lt (l ++ [x]).
Proof.
  induction 1 as [|y l Hl IH Hy]; intros Hx; simpl; [repeat constructor|].
  constructor; [apply IH; set_solver|].
  apply Forall_app. split; [done|]. constructor; [|done]. apply Hx. set_solver.
Qed.

Lemma idx_step_spec interval rs r st :
  index_spec rs st → index_spec (rs ++ [r]) (idx_step interval st (len rs, len (enc_all rs))).
Proof.
  intros [Hm Hs Hh Hl]. unfold idx_step.
  assert (∀ e, e ∈ st.1 → ∃ k, (k < length (rs ++ [r]))%nat ∧ e = (Z.of_nat k, pos_of (rs ++ [r]) k)) as Hm'.
  { intros e He. destruct (Hm e He) as (k & Hk & ->). exists k.
    rewrite length_app, pos_of_snoc by lia. split; [lia|done]. }
  destruct (_ || _) eqn:E; constructor; simpl; try done.
  - intros e [He|He]%elem_of_app; [by apply Hm'|].
    apply list_elem_of_singleton in He as ->. exists (length rs).
    rewrite length_app, pos_of_snoc, pos_of_all by done. split; [simpl; lia|done].
  - rewrite fmap_app. apply StronglySorted_snoc_lt; [done|]. intros z Hz.
    apply list_elem_of_fmap in Hz as (e & -> & He).
    destruct (Hm e He) as (k & Hk & ->). simpl. unfold len. lia.
  - intros _. destruct (decide (rs = [])) as [->|Hne].
    + destruct st.1 as [|e l] eqn:E1; [done|]. exfalso.
      destruct (Hm e) as (k & Hk & _); [set_solver|]. simpl in Hk. lia.
    + specialize (Hh Hne). by destruct st.1.
  - by rewrite last_snoc.
  - intros _. apply orb_false_iff in E as [E _]. apply bool_decide_eq_false in E.
    apply Hh. intros ->. destruct st.1 as [|e l]; [done|].
    destruct (Hm e) as (k & Hk & _); [set_solver|]. simpl in Hk. lia.
Qed.

Lemma build_index_spec interval rs : index_spec rs (build_index interval rs).
Proof.
  induction rs as [|r rs IH] using rev_ind.
  - constructor; simpl; try done; [set_solver|constructor].
  - rewrite build_index_snoc. by apply idx_step_spec.
Qed.

(** Cutting the records cuts the index: filtering the entries below the cut gives
    the index the kept records would have built. *)
Lemma build_index_take interval rs k :
  filter (λ e, e.1 < Z.of_nat k) (build_index interval rs).1 = (build_index interval (take k rs)).1.
Proof.
  induction rs as [|r rs IH] using rev_ind; [by rewrite take_nil|].
  destruct (decide (k ≤ length rs)%nat) as [Hle|Hgt].
  - rewrite take_app_le by done. rewrite <-IH, build_index_snoc.
    unfold idx_step. destruct (_ || _); [|done].
    cbn [fst]. rewrite filter_app. rewrite filter_cons_False by (simpl; unfold len; lia).
    by rewrite filter_nil, app_nil_r.
  - rewrite take_ge by (rewrite length_app; simpl; lia).
    apply list_filter_all. intros e He.
    destruct (ix_marks _ _ (build_index_spec interval (rs ++ [r])) e He) as (j & Hj & ->).
    rewrite length_app in Hj. simpl in *. lia.
Qed.

(** ** The index lookup *)

Lemma index_start_spec rs st k :
  index_spec rs st → (k < length rs)%nat →
  ∃ j, (j ≤ k)%nat ∧ index_start st.1 (Z.of_nat k) = (Z.of_nat j, pos_of rs j).
Proof.
  intros [Hm Hs Hh Hl] Hk. unfold index_start.
  destruct (bisect_right_splits (fst <$> st.1) (Z.of_nat k) Hs) as [Hn Hsp].
  set (lo := bisect_right _ _) in *. rewrite length_fmap in Hn.
  destruct (Nat.ltb_spec 0 lo) as [Hpos|]; [|exists 0%nat; split; [lia|done]].
  destruct (st.1 !! (lo - 1)%nat) as [e|] eqn:E.
  2:{ apply lookup_ge_None in E. lia. }
  destruct (Hm e) as (j & Hj & ->); [by eapply list_elem_of_lookup_2|].
  exists j. split; [|done].
  destruct (Hsp (lo - 1)%nat (Z.of_nat j)) as [Hjk _]; [by rewrite list_lookup_fmap, E|]. lia.
Qed.

(** ** The scans *)

Lemma scan_record_spec fuel rs tail base k :
  Forall rec_ok rs → contiguous base rs → (k < length rs)%nat → (k < fuel)%nat →
  scan_record fuel (enc_all rs ++ tail) (base + Z.of_nat k) = rs !! k.
Proof.
  revert rs base k. induction fuel as [|fuel IH]; intros rs base k Hok Hc Hk Hf; [lia|].
  destruct rs as [|r rs]; [simpl in Hk; lia|]. apply Forall_cons in Hok as [Hr Hok].
  cbn [scan_record]. rewrite enc_all_cons, <-app_assoc, read_record_enc by done.
  rewrite (Hc O r) by done. destruct k as [|k].
  - by rewrite Z.eqb_refl.
  - destruct (Z.eqb_spec (base + Z.of_nat 0) (base + Z.of_nat (S k))) as [|_]; [lia|].
    destruct (Z.ltb_spec (base + Z.of_nat (S k)) (base + Z.of_nat 0)) as [|_]; [lia|].
    replace (base + Z.of_nat (S k)) with ((base + 1) + Z.of_nat k) by lia.
    change ((r :: rs) !! S k) with (rs !! k).
    apply IH; [done| |simpl in Hk; lia|lia].
    apply (contiguous_drop _ _ 1) in Hc. simpl in Hc. by rewrite drop_0 in Hc.
Qed.

Lemma scan_position_spec fuel rs tail base k p :
  Forall rec_ok rs → contiguous base rs → (k < length rs)%nat → (k < fuel)%nat →
  scan_position fuel (enc_all rs ++ tail) p (base + Z.of_nat k) = Some (p + pos_of rs k).
Proof.
  revert rs base k p. induction fuel as [|fuel IH]; intros rs base k p Hok Hc Hk Hf; [lia|].
  destruct rs as [|r rs]; [simpl in Hk; lia|]. apply Forall_cons in Hok as [Hr Hok].
  cbn [scan_position]. rewrite enc_all_cons, <-app_assoc, read_record_enc by done.
  rewrite (Hc O r) by done. destruct k as [|k].
  - rewrite Z.eqb_refl. change (pos_of (r :: rs) 0) with 0. f_equal. lia.
  - destruct (Z.eqb_spec (base + Z.of_nat 0) (base + Z.of_nat (S k))) as [|_]; [lia|].
    destruct (Z.ltb_spec (base + Z.of_nat (S k)) (base + Z.of_nat 0)) as [|_]; [lia|].
    replace (base + Z.of_nat (S k)) with ((base + 1) + Z.of_nat k) by lia.
    rewrite IH; [|done| |simpl in Hk; lia|lia].
    + f_equal. unfold pos_of. cbn [take]. rewrite enc_all_cons, !len_app. lia.
    + apply (contiguous_drop _ _ 1) in Hc. simpl in Hc. by rewrite drop_0 in Hc.
Qed.

Lemma length_le_enc_all rs : (length rs ≤ length (enc_all rs))%nat.
Proof.
  induction rs as [|r rs IH]; [simpl; lia|]. rewrite enc_all_cons, length_app. simpl.
  pose proof (enc_len_pos r). unfold len in *. lia.
Qed.

(** ** The index file *)

Definition index_bytes (idx : list (Z * Z)) : bytes :=
  concat ((λ e, le_encode 8 e.1 ++ le_encode 8 e.2) <$> idx).

Definition entry_fits (e : Z * Z) : Prop := 0 <= e.1 < 2 ^ 64 ∧ 0 <= e.2 < 2 ^ 64.

Lemma index_entry_pack_ok e :
  entry_fits e → index_entry_pack e = inr (le_encode 8 e.1 ++ le_encode 8 e.2).
Proof.
  intros [H1 H2]. unfold index_entry_pack. by rewrite !(proj2 (in_range_true _ _ _)) by done.
Qed.

Lemma index_bytes_snoc idx e :
  index_bytes (idx ++ [e]) = index_bytes idx ++ le_encode 8 e.1 ++ le_encode 8 e.2.
Proof.
  unfold index_bytes. rewrite fmap_app, concat_app. cbn [fmap list_fmap concat].
  by rewrite app_nil_r.
Qed.

(** All files but the segment's own are untouched. *)
Definition frame (base : Z) (fs fs' : FS) : Prop :=
  ∀ p, p ≠ log_name base → p ≠ index_name base → fs' !! p = fs !! p.

Lemma frame_refl base fs : frame base fs fs.
Proof. done. Qed.

Lemma frame_trans base a b c : frame base a b → frame base b c → frame base a c.
Proof. intros H1 H2 p Hl Hi. rewrite H2, H1; done. Qed.

Lemma frame_log base fs x : frame base fs (<[log_name base := x]> fs).
Proof. intros p Hl Hi. by rewrite lookup_insert_ne. Qed.

Lemma frame_index base fs x : frame base fs (<[index_name base := x]> fs).
Proof. intros p Hl Hi. by rewrite lookup_insert_ne. Qed.

#[export] Hint Resolve frame_refl frame_log frame_index : pylog.

Lemma write_index_entry_run e fs g :
  entry_fits e →
  write_index_entry e (fs, g) =
    (inr (), (<[index_path g := default [] (fs !! index_path g)
                 ++ le_encode 8 e.1 ++ le_encode 8 e.2]> fs, g)).
Proof.
  intros He. unfold write_index_entry. mrun. cbn [fst snd].
  rewrite index_entry_pack_ok by done. unfold fs_append. cbn [fst snd].
  rewrite lookup_insert_eq, app_nil_r. cbn [default from_option id]. by rewrite insert_insert_eq.
Qed.

Lemma rewrite_index_run fs g :
  Forall entry_fits (index g) →
  Segment_rewrite_index (fs, g) = (inr (), (<[index_path g := index_bytes (index g)]> fs, g)).
Proof.
  intros Hf. unfold Segment_rewrite_index. mrun. cbn [fst snd]. unfold fs_write.
  assert (∀ idx x, Forall entry_fits idx →
    for_each idx (λ e, d ← lift (index_entry_pack e); on_fs (fs_append (index_path g) d))
      (<[index_path g := x]> fs, g)
    = (inr (), (<[index_path g := x ++ index_bytes idx]> fs, g))) as Hloop.
  { induction idx as [|e idx IH]; intros x Hi.
    - unfold index_bytes. simpl. by rewrite app_nil_r.
    - apply Forall_cons in Hi as [He Hi]. cbn [for_each]. mrun. cbn [fst snd].
      rewrite index_entry_pack_ok by done. cbn [fst snd]. unfold fs_append.
      rewrite lookup_insert_eq, insert_insert_eq. cbn [default from_option id].
      etransitivity; [by apply IH|]. unfold index_bytes. cbn [fmap list_fmap concat].
      by rewrite <-!app_assoc. }
  apply (Hloop (index g) [] Hf).
Qed.

Lemma maybe_index_run o pos fs g st :
  (index g, last_indexed_position g) = st → entry_fits (o - base_offset g, pos) →
  ∃ fs', let st' := idx_step (index_interval_bytes g) st (o - base_offset g, pos) in
    Segment_maybe_index o pos (fs, g)
      = (inr (), (fs', set_last_indexed st'.2 (set_index st'.1 g))) ∧
    (∀ p, p ≠ index_path g → fs' !! p = fs !! p) ∧
    (fs !! index_path g = Some (index_bytes st.1) →
     fs' !! index_path g = Some (index_bytes st'.1)).
Proof.
  intros <- He. unfold Segment_maybe_index, idx_step, index_due. cbn [fst snd].
  mrun. cbn [fst snd]. destruct (_ || _) eqn:E; cbn [when fst snd].
  - mrun. cbn [fst snd]. rewrite write_index_entry_run by done. cbn [fst snd].
    eexists. split; [done|]. split.
    + intros p Hp. by rewrite lookup_insert_ne.
    + intros Hi. change (index_path (set_index _ g)) with (index_path g).
      rewrite lookup_insert_eq, Hi. cbn [default from_option id]. by rewrite index_bytes_snoc.
  - exists fs. split; [by destruct g|done].
Qed.

(** ** The representation invariant *)

Record seg_wf (fs : FS) (rs : list LogRec) (g : Segment) : Prop := {
  wf_base : 0 <= base_offset g;
  wf_interval : 1 <= index_interval_bytes g;
  wf_ok : Forall rec_ok rs;
  wf_contig : contiguous (base_offset g) rs;
  wf_fits : len (enc_all rs) < 2 ^ 64;
  wf_log : fs !! log_path g = Some (enc_all rs);
  wf_index_file : fs !! index_path g = Some (index_bytes (index g));
  wf_size : size g = len (enc_all rs);
  wf_next : next_offset g = base_offset g + len rs;
  wf_index : (index g, last_indexed_position g) = build_index (index_interval_bytes g) rs;
  wf_max_ts : Forall (λ r, rec_timestamp r <= max_timestamp g) rs;
}.

(** What an operation started on [(fs, g)] leaves when it ends with records [rs]:
    the invariant, the same segment identity, and no other file touched. *)
Definition seg_post (fs : FS) (g : Segment) (rs : list LogRec) (s' : FS * Segment) : Prop :=
  seg_wf s'.1 rs s'.2 ∧ base_offset s'.2 = base_offset g ∧
  index_interval_bytes s'.2 = index_interval_bytes g ∧ frame (base_offset g) fs s'.1.

Lemma marks_fit rs e : len (enc_all rs) < 2 ^ 64 → e ∈ marks rs → entry_fits e.
Proof.
  intros Hf (k & -> & Hk)%list_elem_of_fmap. apply elem_of_seq in Hk.
  pose proof (length_le_enc_all rs). pose proof (pos_of_le rs k).
  assert (0 <= pos_of rs k) by apply len_nonneg. unfold entry_fits, len in *. simpl. lia.
Qed.

Lemma build_index_fit i rs : len (enc_all rs) < 2 ^ 64 → Forall entry_fits (build_index i rs).1.
Proof.
  intros Hf. apply Forall_forall. intros e He.
  destruct (ix_marks _ _ (build_index_spec i rs) e He) as (k & Hk & ->).
  apply (marks_fit rs); [done|]. apply list_elem_of_fmap. exists k. split; [done|].
  apply elem_of_seq. lia.
Qed.

Lemma next_mark_fits rs r :
  len (enc_all (rs ++ [r])) < 2 ^ 64 → entry_fits (len rs, len (enc_all rs)).
Proof.
  intros Hf. apply (marks_fit _ _ Hf). rewrite marks_snoc. set_solver.
Qed.

Lemma log_index_path_ne g : log_path g ≠ index_path g.
Proof. apply log_index_ne. Qed.
#[export] Hint Resolve log_index_path_ne : pylog.

Lemma frame_of_index fs fs' g :
  (∀ p, p ≠ index_path g → fs' !! p = fs !! p) → frame (base_offset g) fs fs'.
Proof. intros H p _ Hp. by apply H. Qed.

Lemma contiguous_last base rs r :
  contiguous base (rs ++ [r]) → rec_offset r = base + len rs.
Proof. intros Hc. rewrite (Hc (length rs) r); [done|]. by rewrite lookup_app_r, Nat.sub_diag by lia. Qed.

(** [Segment.append] with the encoding of the next record adds that record. *)
Lemma Segment_append_spec fs rs g r :
  seg_wf fs rs g → rec_ok r → rec_offset r = next_offset g →
  len (enc_all (rs ++ [r])) < 2 ^ 64 →
  returns (Segment_append (rec_offset r) (enc r) (rec_timestamp r)) (fs, g)
    (λ _, seg_post fs g (rs ++ [r])).
Proof.
  intros [Hb Hi Hok Hc Hf Hl Hif Hs Hn Hx Ht] Hr Ho Hf'.
  set (g1 := set_next_offset (rec_offset r + 1)
    (set_max_timestamp (Z.max (max_timestamp g) (rec_timestamp r)) (set_size (size g + len (enc r)) g))).
  set (fs1 := <[log_path g := enc_all (rs ++ [r])]> fs).
  assert (Segment_append (rec_offset r) (enc r) (rec_timestamp r) (fs, g)
          = Segment_maybe_index (rec_offset r) (size g) (fs1, g1)) as Erun.
  { unfold Segment_append, Segment_maybe_index. mrun. cbn [fst snd].
    unfold fs_append. rewrite Hl. cbn [default from_option id]. rewrite <-enc_all_snoc. fold fs1.
    cbn [max_timestamp set_size]. unfold g1.
    destruct (Z.ltb_spec (max_timestamp g) (rec_timestamp r)).
    - by rewrite Z.max_r by lia.
    - rewrite Z.max_l by lia. reflexivity. }
  assert (rec_offset r - base_offset g1 = len rs) as Hrel by (change (base_offset g1) with (base_offset g); lia).
  destruct (maybe_index_run (rec_offset r) (size g) fs1 g1 (build_index (index_interval_bytes g) rs))
    as (fs' & E & Hoth & Hidx).
  { by rewrite <-Hx. }
  { rewrite Hrel, Hs. by eapply next_mark_fits. }
  change (index_interval_bytes g1) with (index_interval_bytes g) in *.
  rewrite Hrel, Hs, <-(build_index_snoc _ _ r) in E, Hidx.
  eapply returns_intro; [by rewrite Erun, Hs|]. unfold seg_post.
  split; [|split; [done|split; [done|]]].
  - constructor; cbn -[frame fs1 Z.max]; try done.
    + apply Forall_app. by split; [|constructor].
    + apply contiguous_snoc; [done|lia].
    + unfold log_path in *. cbn. rewrite Hoth by apply log_index_ne.
      unfold fs1. by rewrite lookup_insert_eq.
    + apply Hidx. unfold fs1. rewrite lookup_insert_ne by apply log_index_ne.
      change (index_path g1) with (index_path g). by rewrite Hif, <-Hx.
    + by rewrite enc_all_snoc, len_app, Hs.
    + rewrite len_app. change (len [r]) with 1. lia.
    + by rewrite <-surjective_pairing.
    + apply Forall_app. split; [|constructor; [lia|done]].
      eapply Forall_impl; [done|]. cbn. lia.
  - eapply frame_trans; [apply (frame_log _ fs)|]. by apply (frame_of_index _ _ g1).
Qed.

(** ** Recovery *)

(** Nothing can be read from [tail]: the end of the file, or a torn or corrupt
    record. *)
Definition unreadable (tail : bytes) : Prop := ∀ r f', read_record tail ≠ (inr (Some r), f').

Lemma unreadable_nil : unreadable [].
Proof. intros r f'. by rewrite read_record_eof. Qed.

Lemma unreadable_torn r n : rec_ok r → (n < length (enc r))%nat → unreadable (take n (enc r)).
Proof.
  intros Hr Hn r' f'. destruct n as [|n]; [by rewrite take_0, read_record_eof|].
  destruct (read_record_torn r (S n) Hr) as [f'' ->]; [lia|done].
Qed.

Lemma read_record_unreadable tail :
  unreadable tail → ∃ f', read_record tail = (inr None, f') ∨ ∃ e, read_record tail = (inl e, f').
Proof.
  intros Hu. destruct (read_record tail) as [[e|[r|]] f'] eqn:E; eauto. by destruct (Hu r f').
Qed.

(** The loop state after replaying [a]. *)
Definition replayed (g : Segment) (a : list LogRec) : Prop :=
  (index g, last_indexed_position g) = build_index (index_interval_bytes g) a ∧
  Forall (λ r, rec_timestamp r <= max_timestamp g) a.

Lemma recover_loop_spec b : ∀ fuel a tail fs g,
  (length b < fuel)%nat → Forall rec_ok b → contiguous (base_offset g) (a ++ b) →
  len (enc_all (a ++ b)) < 2 ^ 64 → unreadable tail → replayed g a →
  returns (recover_loop fuel (enc_all b ++ tail) (len (enc_all a)) (len (enc_all a))
             (base_offset g + len a)) (fs, g)
    (λ x s', x = (len (enc_all (a ++ b)), base_offset g + len (a ++ b)) ∧
       replayed s'.2 (a ++ b) ∧ base_offset s'.2 = base_offset g ∧
       index_interval_bytes s'.2 = index_interval_bytes g ∧
       (∀ p, p ≠ index_path g → s'.1 !! p = fs !! p)).
Proof.
  induction b as [|r b IH]; intros fuel a tail fs g Hfuel Hok Hc Hf Hu Hrep;
    (destruct fuel as [|fuel]; [simpl in Hfuel; lia|]); cbn [recover_loop].
  - rewrite app_nil_r in *. cbn [app enc_all concat fmap list_fmap].
    destruct (read_record_unreadable tail Hu) as [f' [->|[e ->]]]; by (apply returns_ret; split_and!).
  - apply Forall_cons in Hok as [Hr Hok].
    rewrite enc_all_cons, <-app_assoc, read_record_enc by done.
    assert (rec_offset r = base_offset g + len a) as Ho.
    { rewrite (Hc (length a) r); [done|]. by rewrite list_lookup_middle. }
    assert (len (enc_all (a ++ [r])) < 2 ^ 64) as Hf1.
    { rewrite (cons_middle r a b), app_assoc, enc_all_app, len_app in Hf.
      pose proof (len_nonneg (enc_all b)). lia. }
    destruct Hrep as [Hx Ht].
    destruct (maybe_index_run (rec_offset r) (len (enc_all a)) fs g _ Hx) as (fs1 & E & Hoth & _).
    { rewrite Ho. replace (_ - _) with (len a) by lia. by eapply next_mark_fits. }
    rewrite Ho in E. replace (base_offset g + len a - base_offset g) with (len a) in E by lia.
    rewrite <-(build_index_snoc _ _ r) in E.
    apply returns_bind. eapply returns_intro; [rewrite Ho; exact E|]. cbv beta.
    apply returns_bind. eapply returns_intro; [reflexivity|]. cbn [fst snd].
    match goal with |- returns _ (_, ?g') _ => set (g1 := g') end.
    rewrite Ho, len_app.
    replace (len (enc_all a) + (len (enc r) + len (enc_all b ++ tail) - len (enc_all b ++ tail)))
      with (len (enc_all (a ++ [r]))) by (rewrite enc_all_snoc, len_app; lia).
    replace (base_offset g + len a + 1) with (base_offset g1 + len (a ++ [r]))
      by (rewrite len_app; change (len [r]) with 1; change (base_offset g1) with (base_offset g); lia).
    rewrite (cons_middle r a b), app_assoc in *.
    eapply returns_mono; [apply (IH fuel (a ++ [r]) tail fs1 g1)|]; try done.
    + simpl in Hfuel. lia.
    + split; [unfold g1; cbn -[build_index]; by destruct (build_index _ (a ++ [r]))|]. apply Forall_app. split.
      * eapply Forall_impl; [done|]. cbn. lia.
      * constructor; [cbn; lia|done].
    + intros x s' (-> & Hrep' & Hb' & Hi' & Hoth'). repeat split; try done; try apply Hrep'.
      intros p Hp. rewrite Hoth' by done. by apply Hoth.
Qed.

(** Recovery keeps exactly the records before the first unreadable byte, cuts the
    file there and rebuilds the index appends had built. *)
Lemma Segment_recover_spec fs rs tail g :
  0 <= base_offset g → 1 <= index_interval_bytes g →
  fs !! log_path g = Some (enc_all rs ++ tail) → Forall rec_ok rs →
  contiguous (base_offset g) rs → len (enc_all rs) < 2 ^ 64 → unreadable tail →
  returns Segment_recover (fs, g)
    (λ n s', n = base_offset g + len rs ∧ seg_post fs g rs s').
Proof.
  intros Hb Hi Hl Hok Hc Hf Hu. unfold Segment_recover.
  apply returns_bind. eapply returns_intro; [reflexivity|]. cbn [fst snd].
  apply returns_bind. eapply returns_intro; [reflexivity|]. cbn [fst snd].
  apply returns_bind. eapply returns_intro; [reflexivity|]. cbn [fst snd].
  change (log_path (Segment_reset g)) with (log_path g). rewrite Hl.
  apply returns_bind. eapply returns_mono.
  { replace (base_offset (Segment_reset g)) with (base_offset (Segment_reset g) + len (@nil LogRec)) by (rewrite len_nil; lia).
    apply (recover_loop_spec rs _ []); try done.
    rewrite length_app. pose proof (length_le_enc_all rs). lia. }
  intros x [fs1 g1] (-> & [Hx Ht] & Hb' & Hi' & Hoth). cbn [app fst snd] in *.
  change (base_offset (Segment_reset g)) with (base_offset g) in *.
  assert (fs1 !! log_path g = Some (enc_all rs ++ tail)) as Hl1.
  { rewrite Hoth by apply log_index_ne. done. }
  set (fs2 := <[log_path g := enc_all rs]> fs1).
  apply returns_bind. eapply (returns_intro _ _ () (fs2, g1)).
  { rewrite len_app. destruct (Z.ltb_spec (len (enc_all rs)) (len (enc_all rs) + len tail)) as [|Hge].
    - cbn [when]. mrun. cbn [fst snd]. unfold fs_write. by rewrite truncate_to_app.
    - cbn [when]. mrun. unfold fs2. rewrite insert_id; [done|]. rewrite Hl1.
      assert (tail = []) as ->; [|by rewrite app_nil_r].
      destruct tail; [done|]. rewrite len_cons in Hge. pose proof (len_nonneg tail). lia. }
  apply returns_bind. eapply returns_intro; [reflexivity|]. cbn [fst snd].
  apply returns_bind. eapply returns_intro; [reflexivity|]. cbn [fst snd].
  apply returns_bind. eapply returns_intro.
  { apply rewrite_index_run. cbn. change (index g1) with (index g1, last_indexed_position g1).1.
    rewrite Hx. by apply build_index_fit. }
  apply returns_ret. split; [done|]. unfold seg_post. cbn -[frame].
  assert (index_path (set_next_offset (base_offset g + len rs) (set_size (len (enc_all rs)) g1)) = index_path g) as ->.
  { unfold index_path. cbn. by rewrite Hb'. }
  split; [|split; [done|split; [done|]]].
  - constructor; cbn -[frame]; rewrite ?Hb', ?Hi'; try done.
    + unfold log_path in *. cbn. rewrite Hb', lookup_insert_ne by apply not_eq_sym, log_index_ne.
      unfold fs2. by rewrite lookup_insert_eq.
    + unfold index_path. cbn. by rewrite Hb', lookup_insert_eq.
    + rewrite Hx. by rewrite ?Hi'.
  - apply (frame_trans _ _ fs1); [by apply (frame_of_index _ _ (Segment_reset g))|].
    eapply frame_trans; [apply (frame_log _ fs1)|]. apply frame_index.
Qed.

(** A missing log file is created empty. *)
Lemma Segment_recover_fresh fs g :
  0 <= base_offset g → 1 <= index_interval_bytes g → fs !! log_path g = None →
  returns Segment_recover (fs, g) (λ n s', n = base_offset g ∧ seg_post fs g [] s').
Proof.
  intros Hb Hi Hl. unfold Segment_recover. mrun. unfold returns. cbn [fst snd].
  change (log_path (Segment_reset g)) with (log_path g). rewrite Hl.
  split; [done|]. unfold seg_post, fs_write. cbn -[frame].
  split; [|split; [done|split; [done|]]].
  - constructor; cbn -[frame]; try done; try lia.
    + rewrite lookup_insert_ne by apply not_eq_sym, log_index_ne. by rewrite lookup_insert_eq.
    + by rewrite lookup_insert_eq.
    + unfold len. simpl. lia.
  - eapply frame_trans; [apply (frame_log _ fs)|]. apply frame_index.
Qed.

(** ** Lookups *)

Section lookups.
Context (fs : FS) (rs : list LogRec) (g : Segment).
Hypothesis wf : seg_wf fs rs g.

Lemma wf_index_spec : index_spec rs (index g, last_indexed_position g).
Proof. rewrite (wf_index _ _ _ wf). apply build_index_spec. Qed.

(** The bytes a lookup of record [k] scans: the file from an index entry at or
    before the record on. *)
Lemma lookup_start k :
  (k < length rs)%nat →
  ∃ j, (j ≤ k)%nat ∧ index_start (index g) (Z.of_nat k) = (Z.of_nat j, pos_of rs j) ∧
    drop (Z.to_nat (pos_of rs j)) (enc_all rs) = enc_all (drop j rs) ++ [].
Proof.
  intros Hk. destruct (index_start_spec _ _ _ wf_index_spec Hk) as (j & Hj & E).
  exists j. split; [done|split; [done|]]. by rewrite drop_pos_of, app_nil_r.
Qed.

Lemma out_of_range abs :
  ((abs <? base_offset g) || (next_offset g <=? abs)) = false ↔
  ∃ k, (k < length rs)%nat ∧ abs = base_offset g + Z.of_nat k.
Proof.
  rewrite orb_false_iff, Z.ltb_ge, Z.leb_gt, (wf_next _ _ _ wf). unfold len. split.
  - intros [H1 H2]. exists (Z.to_nat (abs - base_offset g)). lia.
  - intros (k & Hk & ->). lia.
Qed.

(** [read(abs)] is the list lookup, [None] outside the segment. *)
Lemma Segment_read_spec abs :
  Segment_read abs (fs, g) =
    (inr (if bool_decide (base_offset g <= abs) then rs !! Z.to_nat (abs - base_offset g) else None), (fs, g)).
Proof.
  unfold Segment_read. mrun. cbn [fst snd].
  destruct (_ || _) eqn:E.
  - apply orb_true_iff in E. rewrite Z.ltb_lt, Z.leb_le, (wf_next _ _ _ wf) in E.
    case_bool_decide; [|done]. rewrite lookup_ge_None_2; [done|]. unfold len in E. lia.
  - apply out_of_range in E as (k & Hk & ->). rewrite bool_decide_eq_true_2 by lia.
    replace (base_offset g + Z.of_nat k - base_offset g) with (Z.of_nat k) by lia.
    rewrite Nat2Z.id. destruct (lookup_start k Hk) as (j & Hj & -> & Hd).
    unfold read_file. mrun. cbn [fst snd]. rewrite (wf_log _ _ _ wf), Hd.
    replace (base_offset g + Z.of_nat k) with ((base_offset g + Z.of_nat j) + Z.of_nat (k - j)) by lia.
    rewrite scan_record_spec, lookup_drop; [do 3 f_equal; lia|..].
    + apply Forall_drop, wf.
    + apply contiguous_drop, wf.
    + rewrite length_drop. lia.
    + rewrite length_app. pose proof (length_le_enc_all (drop j rs)). rewrite length_drop in *. lia.
Qed.

Lemma Segment_position_of_spec abs :
  Segment_position_of abs (fs, g) =
    (inr (if bool_decide (base_offset g <= abs < next_offset g)
          then Some (pos_of rs (Z.to_nat (abs - base_offset g))) else None), (fs, g)).
Proof.
  unfold Segment_position_of. mrun. cbn [fst snd].
  destruct (_ || _) eqn:E.
  - apply orb_true_iff in E. rewrite Z.ltb_lt, Z.leb_le in E.
    by rewrite bool_decide_eq_false_2 by lia.
  - pose proof E as E'. apply orb_false_iff in E'. rewrite Z.ltb_ge, Z.leb_gt in E'.
    rewrite bool_decide_eq_true_2 by lia.
    apply out_of_range in E as (k & Hk & ->).
    replace (base_offset g + Z.of_nat k - base_offset g) with (Z.of_nat k) by lia.
    rewrite Nat2Z.id. destruct (lookup_start k Hk) as (j & Hj & -> & Hd).
    unfold read_file. mrun. cbn [fst snd]. rewrite (wf_log _ _ _ wf), Hd.
    replace (base_offset g + Z.of_nat k) with ((base_offset g + Z.of_nat j) + Z.of_nat (k - j)) by lia.
    rewrite scan_position_spec; [|apply Forall_drop, wf|apply contiguous_drop, wf|..].
    + replace (Z.to_nat (Z.of_nat k)) with k by lia. do 3 f_equal. unfold pos_of. rewrite <-len_app, <-enc_all_app.
      rewrite take_take_drop. by replace (j + (k - j))%nat with k by lia.
    + rewrite length_drop. lia.
    + rewrite length_app. pose proof (length_le_enc_all (drop j rs)). rewrite length_drop in *. lia.
Qed.
End lookups.

(** ** Truncation *)

Lemma seg_wf_take fs rs g k fs' :
  seg_wf fs rs g → (k ≤ length rs)%nat →
  fs' !! log_path g = Some (enc_all (take k rs)) →
  let idx := (build_index (index_interval_bytes g) (take k rs)).1 in
  fs' !! index_path g = Some (index_bytes idx) →
  seg_wf fs' (take k rs)
    (mkSegment (base_offset g) (index_interval_bytes g) idx (pos_of rs k)
       (build_index (index_interval_bytes g) (take k rs)).2 (max_timestamp g)
       (base_offset g + Z.of_nat k)).
Proof.
  intros [Hb Hi Hok Hc Hf Hl Hif Hs Hn Hx Ht] Hk Hl' idx Hi'. constructor; cbn; try done.
  - by apply Forall_take.
  - by apply contiguous_take.
  - pose proof (pos_of_le rs k). unfold pos_of in *. lia.
  - unfold len. rewrite length_take. lia.
  - unfold idx. by rewrite <-surjective_pairing.
  - by apply Forall_take.
Qed.

(** Truncation keeps the records below the offset, and reports whether it
    dropped any. *)
(** Cutting at or below the base empties the segment. *)
Lemma Segment_empty_spec fs rs g abs :
  seg_wf fs rs g → abs <= base_offset g →
  returns (Segment_truncate_from abs) (fs, g) (λ b s', b = bool_decide ([] ≠ rs) ∧ seg_post fs g [] s').
Proof.
  intros wf Hle. pose proof wf as [Hb Hi Hok Hc Hf Hl Hif Hs Hn Hx Ht]. unfold Segment_truncate_from.
  apply returns_bind. eapply returns_intro; [reflexivity|]. cbn [fst snd].
  rewrite (proj2 (Z.leb_le _ _) Hle).
  apply returns_bind. eapply returns_intro; [reflexivity|]. cbn [fst snd].
  apply returns_bind. eapply returns_intro; [reflexivity|]. cbn [fst snd].
  apply returns_bind. eapply returns_intro; [apply rewrite_index_run; constructor|].
  apply returns_ret. split.
  + rewrite Hs, Hn. destruct rs as [|r rs].
    * change (len (enc_all [])) with 0. change (len (@nil LogRec)) with 0.
      rewrite Z.add_0_r, Z.eqb_refl. by rewrite bool_decide_eq_false_2 by naive_solver.
    * rewrite bool_decide_eq_true_2 by done. apply orb_true_iff. left. apply Z.ltb_lt.
      rewrite enc_all_cons, len_app. pose proof (enc_len_pos r). pose proof (len_nonneg (enc_all rs)). lia.
  + unfold seg_post, fs_write. cbn -[frame]. split; [|split; [done|split; [done|]]].
    * constructor; cbn -[frame]; try done; try lia.
      -- unfold log_path. cbn. rewrite lookup_insert_ne by apply not_eq_sym, log_index_ne.
         by rewrite lookup_insert_eq.
      -- unfold index_path. cbn. by rewrite lookup_insert_eq.
      -- change (len (@nil LogRec)) with 0. lia.
    * eapply frame_trans; [apply (frame_log _ fs)|]. apply frame_index.
Qed.

Lemma Segment_truncate_from_spec fs rs g abs :
  seg_wf fs rs g →
  returns (Segment_truncate_from abs) (fs, g)
    (λ b s', b = bool_decide (take (Z.to_nat (abs - base_offset g)) rs ≠ rs) ∧
             seg_post fs g (take (Z.to_nat (abs - base_offset g)) rs) s').
Proof.
  intros wf. pose proof wf as [Hb Hi Hok Hc Hf Hl Hif Hs Hn Hx Ht].
  destruct (Z.leb_spec abs (base_offset g)) as [Hle|Hgt].
  - replace (Z.to_nat (abs - base_offset g)) with 0%nat by lia. rewrite take_0. by apply Segment_empty_spec.
  - unfold Segment_truncate_from. apply returns_bind. eapply returns_intro; [reflexivity|]. cbn [fst snd].
    rewrite (proj2 (Z.leb_gt _ _)) by done.
    apply returns_bind. eapply returns_intro; [by eapply Segment_position_of_spec|]. cbv beta.
    case_bool_decide as Hr.
    2:{ apply returns_ret. rewrite take_ge by (unfold len in *; lia).
        split; [by rewrite bool_decide_eq_false_2 by naive_solver|].
        split; [done|]. split; [done|]. split; [done|]. apply frame_refl. }
    set (k := Z.to_nat (abs - base_offset g)) in *.
    assert (k < length rs)%nat as Hk by (unfold len in *; lia).
    apply returns_bind. eapply (returns_intro _ _ (enc_all rs)).
    { unfold read_file. mrun. cbn [fst snd]. by rewrite Hl. }
    rewrite truncate_to_pos_of.
    replace (abs - base_offset g) with (Z.of_nat k) by lia.
    assert ((build_index (index_interval_bytes g) rs).1 = index g) as Hx1 by (by rewrite <-Hx).
    rewrite <-Hx1, build_index_take.
    assert (default (-1) (snd <$> last (build_index (index_interval_bytes g) (take k rs)).1)
      = (build_index (index_interval_bytes g) (take k rs)).2) as ->.
    { symmetry. apply (ix_last (take k rs)), build_index_spec. }
    assert (len (enc_all (take k rs)) < 2 ^ 64) as Hf'.
    { pose proof (pos_of_le rs k). unfold pos_of in *. lia. }
    do 5 (apply returns_bind; eapply returns_intro; [reflexivity|]; cbn [fst snd]).
    apply returns_bind. eapply returns_intro; [apply rewrite_index_run; by apply build_index_fit|].
    apply returns_ret. split.
    { rewrite bool_decide_eq_true_2; [done|]. intros E. apply (f_equal length) in E.
      rewrite length_take in E. lia. }
    unfold seg_post. cbn -[frame]. split; [|split; [done|split; [done|]]].
    + replace abs with (base_offset g + Z.of_nat k) by lia.
      apply (seg_wf_take fs rs g k); [done|lia|..]; unfold fs_write, set_last_indexed; cbn.
      * unfold index_path, log_path; cbn.
        rewrite lookup_insert_ne by apply not_eq_sym, log_index_ne. by rewrite lookup_insert_eq.
      * unfold index_path; cbn. by rewrite lookup_insert_eq.
    + eapply frame_trans; [apply (frame_log _ fs)|]. apply frame_index.
Qed.

Lemma Segment_delete_run fs g :
  Segment_delete (fs, g) = (inr (), (delete (index_path g) (delete (log_path g) fs), g)).
Proof. reflexivity. Qed.
