(* ===== verification/CommitLog.v ===== *)
(** * The commit log (pylog/log.py, class [CommitLog])

    A directory of segments, appended at the last one and rolled by size.  The
    state of a method is the directory's files and the object; segment methods run
    on the segment at a position of [self.segments]. *)
From S2P Require Import Prelude Bytes LogRecord FileSystem Bisect Segment.
Local Open Scope Z_scope.

Record CommitLog := mkLog {
  max_segment_bytes : Z;
  log_index_interval : Z;
  segments : list Segment;
  log_next_offset : Z;
}.

Definition set_segments (x : list Segment) (l : CommitLog) : CommitLog :=
  mkLog (max_segment_bytes l) (log_index_interval l) x (log_next_offset l).
Definition set_log_next (x : Z) (l : CommitLog) : CommitLog :=
  mkLog (max_segment_bytes l) (log_index_interval l) (segments l) x.

Abbreviation LogM := (M (FS * CommitLog)).

Definition this : LogM CommitLog := gets snd.
Definition on_log (f : CommitLog → CommitLog) : LogM () := modify (λ s, (s.1, f s.2)).

(** [self.segments[i].op()] *)
Definition on_segment {A} (i : nat) (op : SegM A) : LogM A := λ s,
  match segments s.2 !! i with
  | None => (inl IndexError, s)
  | Some g =>
      let '(r, (fs', g')) := op (s.1, g) in
      (r, (fs', set_segments (<[i := g']> (segments s.2)) s.2))
  end.

(** [self._active()]: the last segment and its position. *)
Definition CommitLog_active : LogM (nat * Segment) :=
  l ← this;
  match last (segments l) with
  | None => raise IndexError
  | Some g => mret (pred (length (segments l)), g)
  end.

Definition CommitLog_new_segment (base : Z) : LogM () := λ s,
  let '(r, (fs', g')) := Segment_recover (s.1, Segment_init base (log_index_interval s.2)) in
  match r with
  | inl e => (inl e, (fs', s.2))
  | inr _ => (inr (), (fs', set_segments (segments s.2 ++ [g']) s.2))
  end.

Definition CommitLog_recover : LogM Z :=
  fs ← gets fst;
  l ← this;
  let stems := list_bases fs in
  _ ← on_log (set_segments ((λ b, Segment_init b (log_index_interval l)) <$> stems));
  if bool_decide (stems = []) then
    _ ← CommitLog_new_segment 0;
    mret 0
  else
    _ ← for_each (seq 0 (length stems)) (λ i, _ ← on_segment i Segment_recover; mret ());
    '(_, g) ← CommitLog_active;
    mret (next_offset g).

(** [CommitLog(dir_path, max_segment_bytes, index_interval_bytes)] over the
    directory [fs]. *)
Definition CommitLog_init : LogM () := n ← CommitLog_recover; on_log (set_log_next n).

Definition CommitLog_open (max_bytes interval : Z) (fs : FS) : (Exn + ()) * (FS * CommitLog) :=
  CommitLog_init (fs, mkLog (Z.max 1 max_bytes) interval [] 0).

(** [timestamp] is optional; [now] is [int(time.time() * 1000)]. *)
Definition CommitLog_append (payload : bytes) (timestamp : option Z) (now : Z) : LogM Z :=
  l ← this;
  let offset := log_next_offset l in
  let ts := default now timestamp in
  '(_, active) ← CommitLog_active;
  _ ← when (max_segment_bytes l <=? size active) (CommitLog_new_segment offset);
  '(i, _) ← CommitLog_active;
  record ← lift (encode_record offset payload ts);
  _ ← on_segment i (Segment_append offset record ts);
  _ ← on_log (set_log_next (offset + 1));
  mret offset.

(** An element of a batch: offset, payload, [timestamps[j]] if there is one. *)
Abbreviation Item := (Z * bytes * option Z)%type.

(** The inner loop of [append_many]: encode records while they fit.  Returns the
    positions given to [_maybe_index], the blob, the end position and the items
    left for the next segment. *)
Fixpoint gather_batch (max_bytes : Z) (started : bool) (pos : Z) (items : list Item)
    : Exn + (list (Z * Z * Z) * bytes * Z * list Item) :=
  match items with
  | [] => inr ([], [], pos, [])
  | (o, p, None) :: _ => inl IndexError
  | (o, p, Some t) :: rest =>
      match encode_record o p t with
      | inl e => inl e
      | inr rec =>
          if started && (max_bytes <? pos + len rec) then inr ([], [], pos, items)
          else
            match gather_batch max_bytes true (pos + len rec) rest with
            | inl e => inl e
            | inr (ms, blob, pos', rest') => inr ((o, pos, t) :: ms, rec ++ blob, pos', rest')
            end
      end
  end.

(** Writing one gathered batch to the active segment. *)
Definition write_batch (ms : list (Z * Z * Z)) (blob : bytes) (pos : Z) : SegM () :=
  g ← self;
  _ ← on_fs (fs_append (log_path g) blob);
  _ ← for_each ms (λ '(o, p, t),
        _ ← Segment_maybe_index o p;
        _ ← on_self (set_next_offset (o + 1));
        on_self (λ g, if max_timestamp g <? t then set_max_timestamp t g else g));
  on_self (set_size pos).

(** The outer loop: each turn takes at least one item. *)
Fixpoint append_batches (fuel : nat) (items : list Item) : LogM () :=
  match fuel, items with
  | O, _ | _, [] => mret ()
  | S fuel', _ =>
      l ← this;
      '(i, active) ← CommitLog_active;
      '(ms, blob, pos, rest) ← lift (gather_batch (max_segment_bytes l) false (size active) items);
      _ ← on_segment i (write_batch ms blob pos);
      _ ← match rest with
          | [] => mret ()
          | (o, _, _) :: _ => CommitLog_new_segment o
          end;
      append_batches fuel' rest
  end.

Definition CommitLog_append_many (payloads : list bytes) (timestamps : option (list Z)) (now : Z)
    : LogM (list Z) :=
  if bool_decide (payloads = []) then mret []
  else
    l ← this;
    let n := length payloads in
    let offsets := (λ j, log_next_offset l + Z.of_nat j) <$> seq 0 n in
    let timestamps := default (replicate n now) timestamps in
    let items := imap (λ j p, (log_next_offset l + Z.of_nat j, p, timestamps !! j)) payloads in
    _ ← append_batches n items;
    _ ← on_log (set_log_next (log_next_offset l + Z.of_nat n));
    mret offsets.

Definition CommitLog_read (offset : Z) : LogM (option LogRec) :=
  l ← this;
  let bases := base_offset <$> segments l in
  match bisect_right bases offset with
  | O => mret None
  | S idx =>
      rec ← on_segment idx (Segment_read offset);
      match rec, idx with
      | None, S idx' => on_segment idx' (Segment_read offset)
      | _, _ => mret rec
      end
  end.

(** [k] is the number of records still allowed, [limit - len(out)]. *)
Fixpoint read_range_loop (k : nat) (offset : Z) : LogM (list LogRec) :=
  match k with
  | O => mret []
  | S k' =>
      rec ← CommitLog_read offset;
      match rec with
      | None => mret []
      | Some r => out ← read_range_loop k' (offset + 1); mret (r :: out)
      end
  end.

Definition CommitLog_read_range (start limit : Z) : LogM (list LogRec) :=
  read_range_loop (Z.to_nat limit) start.

Definition CommitLog_truncate_from (offset : Z) : LogM bool :=
  l ← this;
  let bases := base_offset <$> segments l in
  match bisect_right bases offset with
  | O => mret false
  | S idx =>
      let dropped := seq (S idx) (length (segments l) - S idx) in
      _ ← for_each dropped (λ i, on_segment i Segment_delete);
      _ ← on_log (λ l, set_segments (take (S idx) (segments l)) l);
      cut ← on_segment idx (Segment_truncate_from offset);
      l ← this;
      match last (segments l) with
      | Some g =>
          _ ← on_log (set_log_next (next_offset g));
          mret (negb (bool_decide (dropped = [])) || cut)
      | None =>
          _ ← CommitLog_new_segment 0;
          _ ← on_log (set_log_next 0);
          mret true
      end
  end.

(** The loop of [truncate_segments_before] over [enumerate(self.segments)]; [n] is
    [len(self.segments)]. *)
Fixpoint sweep_segments (min_base : Z) (n i : nat) (segs : list Segment) (fs : FS)
    : FS * list Segment * Z :=
  match segs with
  | [] => (fs, [], 0)
  | g :: segs' =>
      if (Segment_is_empty g && (i <? n - 1)%nat)
         || ((base_offset g <? min_base) && (i <? n - 1)%nat)
      then
        let '(fs', kept, removed) :=
          sweep_segments min_base n (S i) segs'
            (fs_remove (index_path g) (fs_remove (log_path g) fs)) in
        (fs', kept, removed + 1)
      else
        let '(fs', kept, removed) := sweep_segments min_base n (S i) segs' fs in
        (fs', g :: kept, removed)
  end.

Definition CommitLog_truncate_segments_before (min_base : Z) : LogM Z := λ s,
  let '(fs', kept, removed) :=
    sweep_segments min_base (length (segments s.2)) 0 (segments s.2) s.1 in
  (inr removed, (fs', set_segments kept s.2)).

(** [stats()]: next offset, number of segments, bytes, first offset. *)
Definition size_bytes (l : CommitLog) : Z := foldr (λ g acc, size g + acc) 0 (segments l).

Record LogStats := mkStats {
  st_next_offset : Z; st_segments : Z; st_size_bytes : Z; st_first_offset : Z }.

Definition CommitLog_stats (l : CommitLog) : LogStats :=
  mkStats (log_next_offset l) (len (segments l)) (size_bytes l)
          (default 0 (base_offset <$> head (segments l))).

(** A run on concrete data: appends over 40-byte segments, a read in each
    segment, a truncation that drops the second one, and a restart. *)
Definition demo_log : (Exn + (option LogRec * option LogRec * bool)) * (FS * CommitLog) :=
  let start := CommitLog_open 40 16 ∅ in
  (_ ← CommitLog_append [x61; x62] (Some 5) 0;
   _ ← CommitLog_append [x63] None 7;
   _ ← CommitLog_append_many [[x64]; [x65; x66]] None 9;
   a ← CommitLog_read 0;
   b ← CommitLog_read 3;
   c ← CommitLog_truncate_from 2;
   mret (a, b, c)) start.2.

Example demo_log_runs :
  demo_log.1 = inr (Some (mkRec 0 5 [x61; x62]), Some (mkRec 3 9 [x65; x66]), true)
  ∧ (base_offset <$> segments demo_log.2.2) = [0]
  ∧ log_next_offset demo_log.2.2 = 2
  ∧ (CommitLog_open 40 16 demo_log.2.1).1 = inr ()
  ∧ log_next_offset (CommitLog_open 40 16 demo_log.2.1).2.2 = 2.
Proof. vm_compute. repeat split. Qed.
