(* ===== verification/CommitLogFacts.v ===== *)
(** * The commit log: representation invariant and refinement to a list

    A well-formed log stands for its first retained offset and the list of its
    records.  Each method computes the list operation of the same name. *)
From S2P Require Import Prelude Bytes LogRecord FileSystem Bisect Segment SegmentFacts CommitLog.
Local Open Scope Z_scope.

(** ** Segment boundaries *)

(** Base offsets of consecutive segments holding [parts], the first at [b]. *)
Fixpoint starts (b : Z) (parts : list (list LogRec)) : list Z :=
  match parts with [] => [] | q :: parts' => b :: starts (b + len q) parts' end.

Lemma starts_lookup b parts i :
  (i < length parts)%nat → starts b parts !! i = Some (b + len (concat (take i parts))).
Proof.
  revert b i. induction parts as [|q parts IH]; intros b i Hi; [simpl in Hi; lia|].
  destruct i as [|i]; [simpl; f_equal; change (len (@nil LogRec)) with 0; lia|].
  cbn [starts take concat]. simpl in Hi. change (starts b (q :: parts) !! S i) with (starts (b + len q) parts !! i).
  cbn. rewrite IH by lia. rewrite len_app. f_equal. lia.
Qed.

Lemma length_starts b parts : length (starts b parts) = length parts.
Proof. revert b. induction parts; intros b; simpl; auto. Qed.

Lemma starts_snoc b ps p : starts b (ps ++ [p]) = starts b ps ++ [b + len (concat ps)].
Proof.
  revert b. induction ps as [|q ps IH]; intros b.
  - simpl. change (len (@nil LogRec)) with 0. by rewrite Z.add_0_r.
  - cbn [app starts concat]. rewrite IH, len_app. simpl. do 3 f_equal. lia.
Qed.

Lemma starts_app b ps qs : starts b (ps ++ qs) = starts b ps ++ starts (b + len (concat ps)) qs.
Proof.
  revert b. induction ps as [|q ps IH]; intros b.
  - simpl. change (len (@nil LogRec)) with 0. by rewrite Z.add_0_r.
  - cbn [app starts concat]. rewrite IH, len_app. by rewrite Z.add_assoc.
Qed.

Lemma starts_ge b parts x : x ∈ starts b parts → b <= x.
Proof.
  revert b. induction parts as [|q parts IH]; intros b; simpl; [set_solver|].
  intros [->|H]%elem_of_cons; [lia|]. apply IH in H. pose proof (len_nonneg q). lia.
Qed.

(** Only the last segment may be empty, so the base offsets increase strictly. *)
Lemma starts_sorted b ps p :
  Forall (λ q, q ≠ []) ps → StronglySorted Z.lt (starts b (ps ++ [p])).
Proof.
  revert b. induction ps as [|q ps IH]; intros b Hne; simpl; [repeat constructor|].
  apply Forall_cons in Hne as [Hq Hne]. constructor; [by apply IH|].
  apply Forall_forall. intros x Hx%starts_ge. destruct q; [done|].
  rewrite len_cons in Hx. pose proof (len_nonneg q). lia.
Qed.

Lemma starts_lt_next b ps p x :
  p ≠ [] → x ∈ starts b (ps ++ [p]) → x < b + len (concat (ps ++ [p])).
Proof.
  intros Hp. revert b. induction ps as [|q ps IH]; intros b; cbn [app starts concat].
  - rewrite list_elem_of_singleton, app_nil_r. intros ->. destruct p; [done|].
    rewrite len_cons. pose proof (len_nonneg p). lia.
  - intros [->|H]%elem_of_cons.
    + rewrite concat_app, !len_app. simpl. rewrite app_nil_r.
      destruct p; [done|]. rewrite len_cons.
      pose proof (len_nonneg p). pose proof (len_nonneg q). pose proof (len_nonneg (concat ps)). lia.
    + apply IH in H. rewrite len_app. lia.
Qed.

(** ** The invariant *)

Record log_wf (fs : FS) (l : CommitLog) (first : Z) (ps : list (list LogRec)) (p : list LogRec)
    : Prop := {
  lw_max : 1 <= max_segment_bytes l;
  lw_first : 0 <= first;
  lw_segs : Forall2 (seg_wf fs) (ps ++ [p]) (segments l);
  lw_bases : base_offset <$> segments l = starts first (ps ++ [p]);
  lw_full : Forall (λ q, q ≠ []) ps;
  lw_next : log_next_offset l = first + len (concat (ps ++ [p]));
  lw_intervals : Forall (λ g, index_interval_bytes g = Z.max 1 (log_index_interval l)) (segments l);
  lw_dir : ∀ name b, is_Some (fs !! name) → segment_base name = Some b →
    name = log_name b ∧ b ∈ starts first (ps ++ [p]);
}.

(** The abstraction: the first retained offset and the records. *)
Definition log_repr (fs : FS) (l : CommitLog) (first : Z) (rs : list LogRec) : Prop :=
  ∃ ps p, log_wf fs l first ps p ∧ concat (ps ++ [p]) = rs.

(** ** Segments among segments *)

Lemma seg_wf_frame b fs fs' rs g :
  0 <= b → base_offset g ≠ b → frame b fs fs' → seg_wf fs rs g → seg_wf fs' rs g.
Proof.
  intros Hb Hne Hfr [Hb0 Hi Hok Hc Hf Hl Hif Hs Hn Hx Ht].
  constructor; try done.
  - rewrite Hfr; [done|intros E; by apply log_name_inj in E|apply log_index_ne].
  - rewrite Hfr; [done|apply not_eq_sym, log_index_ne|intros E; by apply index_name_inj in E].
Qed.

Lemma segs_frame b fs fs' parts gs :
  0 <= b → b ∉ (base_offset <$> gs) → frame b fs fs' →
  Forall2 (seg_wf fs) parts gs → Forall2 (seg_wf fs') parts gs.
Proof.
  intros Hb Hnin Hfr Hall. induction Hall as [|q g parts gs Hg Hgs IH]; constructor.
  - eapply seg_wf_frame; [done| |done|done]. set_solver.
  - apply IH. intros Hin. apply Hnin. by right.
Qed.

Lemma on_segment_returns {A} i (op : SegM A) fs l g Q :
  segments l !! i = Some g → returns op (fs, g) Q →
  returns (on_segment i op) (fs, l)
    (λ x s', ∃ g', Q x (s'.1, g') ∧ s'.2 = set_segments (<[i := g']> (segments l)) l).
Proof.
  intros Hi H. unfold returns, on_segment in *. cbn [fst snd]. rewrite Hi.
  destruct (op (fs, g)) as [[e|x] [fs' g']]; [done|]. by exists g'.
Qed.

(** The state split at its last segment. *)
Lemma log_wf_last fs l first ps p :
  log_wf fs l first ps p →
  ∃ gs g, segments l = gs ++ [g] ∧ Forall2 (seg_wf fs) ps gs ∧ seg_wf fs p g ∧
    (base_offset <$> gs) = starts first ps ∧ base_offset g = first + len (concat ps) ∧
    (base_offset g ∉ base_offset <$> gs) ∧ next_offset g = log_next_offset l.
Proof.
  intros wf. pose proof (lw_segs _ _ _ _ _ wf) as (gs & gl & Hgs & Hg & E)%Forall2_app_inv_l.
  apply Forall2_cons_inv_l in Hg as (g & gl' & Hg & Hnil%Forall2_nil_inv_l & ->). subst gl'.
  exists gs, g. pose proof (lw_bases _ _ _ _ _ wf) as Hb.
  rewrite E, fmap_app, starts_snoc in Hb. apply app_inj_2 in Hb as [Hb1 Hb2]; [|done].
  injection Hb2 as Hb2. split_and!; try done.
  - pose proof (starts_sorted first ps p (lw_full _ _ _ _ _ wf)) as Hs.
    rewrite starts_snoc in Hs. rewrite Hb1, Hb2. intros Hin.
    apply StronglySorted_app_1_elem_of with (x1:=first + len (concat ps)) (x2:=first + len (concat ps)) in Hs;
      [lia|done|set_solver].
  - rewrite (lw_next _ _ _ _ _ wf), (wf_next _ _ _ Hg), Hb2, concat_app, len_app. simpl.
    rewrite app_nil_r. lia.
Qed.

Lemma len_concat_snoc (ps : list (list LogRec)) p :
  len (concat (ps ++ [p])) = len (concat ps) + len p.
Proof. rewrite concat_app, len_app. simpl. by rewrite app_nil_r. Qed.

Lemma concat_snoc (ps : list (list LogRec)) p : concat (ps ++ [p]) = concat ps ++ p.
Proof. rewrite concat_app. simpl. by rewrite app_nil_r. Qed.

(** Replacing what the last segment holds. *)
Lemma log_wf_update_last fs l first ps p gs g fs' g' p' :
  log_wf fs l first ps p → segments l = gs ++ [g] → seg_post fs g p' (fs', g') →
  log_wf fs' (set_log_next (first + len (concat (ps ++ [p']))) (set_segments (gs ++ [g']) l)) first ps p'.
Proof.
  intros wf Egs (Hwf' & Hb' & Hi' & Hfr). cbn [fst snd] in *.
  destruct (log_wf_last _ _ _ _ _ wf) as (gs0 & g0 & E & Hgs & Hg & Hbs & Hb & Hnin & _).
  rewrite Egs in E. apply app_inj_2 in E as [-> E]; [|done]. injection E as ->.
  pose proof (wf_base _ _ _ Hg) as Hb0.
  destruct wf as [Hmax Hfirst Hsegs Hbases Hfull Hnext Hint Hdir]. constructor; try done.
  - cbn. apply Forall2_app; [by eapply segs_frame|]. by constructor.
  - cbn. rewrite fmap_app, starts_snoc, Hbs. cbn. by rewrite Hb', Hb.
  - cbn. rewrite Egs in Hint. apply Forall_app in Hint as [Hint Hint'].
    apply Forall_app. split; [done|]. constructor; [|done]. rewrite Hi'. by inversion Hint'.
  - intros name b Hin Hseg. rewrite starts_snoc, <-(starts_snoc _ _ p). apply Hdir; [|done].
    destruct (decide (name = log_name (base_offset g0))) as [->|Hn1]; [by (eexists; apply (wf_log _ _ _ Hg))|].
    destruct (decide (name = index_name (base_offset g0))) as [->|Hn2]; [by (eexists; apply (wf_index_file _ _ _ Hg))|].
    by rewrite <-Hfr.
Qed.

Lemma CommitLog_active_run fs l gs g :
  segments l = gs ++ [g] → CommitLog_active (fs, l) = (inr (length gs, g), (fs, l)).
Proof.
  intros E. unfold CommitLog_active, this. mrun. cbn [fst snd]. rewrite E, last_snoc, length_app.
  do 3 f_equal. simpl. lia.
Qed.

(** Rolling to a new segment at the next offset. *)
Lemma new_segment_spec fs l first ps p :
  log_wf fs l first ps p → p ≠ [] →
  returns (CommitLog_new_segment (log_next_offset l)) (fs, l)
    (λ _ s', log_wf s'.1 s'.2 first (ps ++ [p]) [] ∧ max_segment_bytes s'.2 = max_segment_bytes l ∧
       log_next_offset s'.2 = log_next_offset l ∧
       last (segments s'.2) ≠ None ∧ log_index_interval s'.2 = log_index_interval l).
Proof.
  intros wf Hp. destruct wf as [Hmax Hfirst Hsegs Hbases Hfull Hnext Hint Hdir].
  set (b := log_next_offset l) in *.
  assert (0 <= b) as Hb by (pose proof (len_nonneg (concat (ps ++ [p]))); lia).
  assert (b ∉ starts first (ps ++ [p])) as Hnin.
  { intros Hin. apply starts_lt_next in Hin; [|done]. lia. }
  assert (fs !! log_name b = None) as Hnone.
  { destruct (fs !! log_name b) eqn:E; [|done]. exfalso. apply Hnin.
    eapply Hdir; [by rewrite E|by apply segment_base_log_name]. }
  unfold returns, CommitLog_new_segment. cbn [fst snd].
  pose proof (Segment_recover_fresh fs (Segment_init b (log_index_interval l)) Hb) as Hrec.
  destruct (returns_inv _ _ _ (Hrec ltac:(simpl; lia) Hnone)) as (n & [fs' g'] & -> & -> & Hpost).
  destruct Hpost as (Hwf' & Hb' & Hi' & Hfr). cbn [fst snd base_offset Segment_init] in *.
  split; [|by cbn; rewrite last_snoc]. constructor; cbn; try done.
  - apply Forall2_app; [|by constructor].
    eapply segs_frame; [exact Hb| |exact Hfr|done]. by rewrite Hbases.
  - rewrite fmap_app, starts_snoc, Hbases. cbn. by rewrite Hb', Hnext.
  - apply Forall_app. by split; [|constructor].
  - rewrite (len_concat_snoc (ps ++ [p])). change (len (@nil LogRec)) with 0. lia.
  - apply Forall_app. split; [done|]. by constructor.
  - intros name b0 Hin Hseg. rewrite starts_snoc, <-Hnext. fold b.
    destruct (decide (name = log_name b)) as [->|Hn1].
    { rewrite (segment_base_log_name b Hb) in Hseg. injection Hseg as <-.
      split; [done|]. rewrite elem_of_app, list_elem_of_singleton. by right. }
    destruct (decide (name = index_name b)) as [->|Hn2]; [by rewrite segment_base_index_name in Hseg|].
    rewrite Hfr in Hin by done. destruct (Hdir _ _ Hin Hseg) as [-> Hb1].
    split; [done|]. rewrite elem_of_app. by left.
Qed.

Lemma enc_all_le a b : len (enc_all a) <= len (enc_all (a ++ b)).
Proof. rewrite enc_all_app, len_app. pose proof (len_nonneg (enc_all b)). lia. Qed.

(** The active segment receives one record. *)
Lemma append_active_spec fs l first ps p r :
  log_wf fs l first ps p → rec_ok r → rec_offset r = log_next_offset l →
  len (enc_all (concat (ps ++ [p]) ++ [r])) < 2 ^ 64 →
  returns
    ('(i, _) ← CommitLog_active;
     record ← lift (encode_record (rec_offset r) (rec_payload r) (rec_timestamp r));
     _ ← on_segment i (Segment_append (rec_offset r) record (rec_timestamp r));
     _ ← on_log (set_log_next (rec_offset r + 1));
     mret (rec_offset r)) (fs, l)
    (λ x s', x = log_next_offset l ∧ log_wf s'.1 s'.2 first ps (p ++ [r])).
Proof.
  intros wf Hr Ho Hfit.
  destruct (log_wf_last _ _ _ _ _ wf) as (gs & g & E & Hgs & Hg & Hbs & Hb & Hnin & Hnx).
  apply returns_bind. eapply returns_intro; [by apply CommitLog_active_run|]. cbv beta iota.
  apply returns_bind. eapply (returns_intro _ _ (enc r) (fs, l)).
  { unfold lift. rewrite encode_record_enc by by apply rec_ok_packable. by destruct r. }
  apply returns_bind. eapply returns_mono.
  { eapply on_segment_returns; [by rewrite E, list_lookup_middle|].
    apply Segment_append_spec; [done|done|congruence|].
    rewrite concat_snoc, <-app_assoc in Hfit.
    rewrite enc_all_app, len_app in Hfit. pose proof (len_nonneg (enc_all (concat ps))). lia. }
  intros _ [fs' l'] (g' & Hpost & El). cbn [fst snd] in *. subst l'.
  apply returns_bind. eapply returns_intro; [reflexivity|]. cbn [fst snd].
  apply returns_ret. split; [done|]. cbn [fst snd].
  rewrite E, insert_app_r_alt, Nat.sub_diag by done. cbn [list_insert insert].
  replace (rec_offset r + 1) with (first + len (concat (ps ++ [p ++ [r]]))).
  - by eapply log_wf_update_last.
  - rewrite Ho, (lw_next _ _ _ _ _ wf), !len_concat_snoc, len_app. change (len [r]) with 1. lia.
Qed.

(** [append] adds one record at the next offset and returns that offset. *)
Lemma append_spec fs l first ps p payload timestamp now :
  log_wf fs l first ps p →
  let r := mkRec (log_next_offset l) (default now timestamp) payload in
  rec_ok r → len (enc_all (concat (ps ++ [p]) ++ [r])) < 2 ^ 64 →
  returns (CommitLog_append payload timestamp now) (fs, l)
    (λ o s', o = log_next_offset l ∧
       ∃ ps' p', log_wf s'.1 s'.2 first ps' p' ∧ concat (ps' ++ [p']) = concat (ps ++ [p]) ++ [r]).
Proof.
  intros wf r Hr Hfit. unfold CommitLog_append.
  destruct (log_wf_last _ _ _ _ _ wf) as (gs & g & E & Hgs & Hg & Hbs & Hb & Hnin & Hnx).
  apply returns_bind. eapply returns_intro; [reflexivity|]. cbn [fst snd].
  apply returns_bind. eapply returns_intro; [by apply CommitLog_active_run|]. cbv beta iota.
  destruct (Z.leb_spec (max_segment_bytes l) (size g)) as [Hroll|Hkeep]; cbn [when].
  - assert (p ≠ []) as Hp.
    { intros ->. rewrite (wf_size _ _ _ Hg) in Hroll. change (len (enc_all [])) with 0 in Hroll.
      pose proof (lw_max _ _ _ _ _ wf). lia. }
    apply returns_bind. eapply returns_mono; [by eapply new_segment_spec|].
    intros _ [fs1 l1] (wf1 & _ & Hn1 & _). cbn [fst snd] in *.
    eapply returns_mono; [apply (append_active_spec fs1 l1 first (ps ++ [p]) [] r wf1 Hr)|].
    + done.
    + rewrite (concat_snoc (ps ++ [p])), app_nil_r. done.
    + intros o s' [-> wf']. split; [done|]. exists (ps ++ [p]), [r]. split; [done|].
      by rewrite (concat_snoc (ps ++ [p])).
  - apply returns_bind, returns_ret.
    eapply returns_mono; [by apply (append_active_spec fs l first ps p r)|].
    intros o s' [-> wf']. split; [done|]. exists ps, (p ++ [r]). split; [done|].
    by rewrite !concat_snoc, app_assoc.
Qed.

(** ** Reading *)

Lemma concat_lookup_part (parts : list (list LogRec)) i q k :
  parts !! i = Some q → (k < length q)%nat →
  concat parts !! (length (concat (take i parts)) + k)%nat = q !! k.
Proof.
  revert i. induction parts as [|q0 parts IH]; intros i Hi Hk; [by destruct i|].
  destruct i as [|i]; simpl in *.
  - simplify_eq. by apply lookup_app_l.
  - rewrite length_app, <-Nat.add_assoc, lookup_app_r, Nat.add_sub' by lia. by apply IH.
Qed.

Lemma take_S_concat (parts : list (list LogRec)) idx q :
  parts !! idx = Some q →
  len (concat (take (S idx) parts)) = len (concat (take idx parts)) + len q.
Proof. intros Hq. by rewrite (take_S_r _ _ _ Hq), len_concat_snoc. Qed.

Section read.
Context (fs : FS) (l : CommitLog) (first : Z) (ps : list (list LogRec)) (p : list LogRec).
Hypothesis wf : log_wf fs l first ps p.
Let parts := ps ++ [p].

Lemma seg_at i q :
  parts !! i = Some q →
  ∃ g, segments l !! i = Some g ∧ seg_wf fs q g ∧
       base_offset g = first + len (concat (take i parts)).
Proof.
  intros Hi. destruct (Forall2_lookup_l _ _ _ _ _ (lw_segs _ _ _ _ _ wf) Hi) as (g & Hg & Hwf).
  exists g. split; [done|split; [done|]].
  pose proof (f_equal (λ x, x !! i) (lw_bases _ _ _ _ _ wf)) as E.
  cbn in E. rewrite list_lookup_fmap, Hg, starts_lookup in E by by eapply lookup_lt_Some.
  by injection E.
Qed.

Lemma on_segment_read i q o :
  parts !! i = Some q →
  on_segment i (Segment_read o) (fs, l) =
    (inr (if bool_decide (first + len (concat (take i parts)) <= o)
          then q !! Z.to_nat (o - (first + len (concat (take i parts)))) else None), (fs, l)).
Proof.
  intros Hi. destruct (seg_at i q Hi) as (g & Hg & Hwf & Hb).
  unfold on_segment. cbn [fst snd]. rewrite Hg, (Segment_read_spec _ _ _ Hwf), Hb.
  rewrite list_insert_id by done. by destruct l.
Qed.

(** The segment the search selects covers the offset. *)
Lemma covering o idx :
  bisect_right (base_offset <$> segments l) o = S idx →
  ∃ q, parts !! idx = Some q ∧ first + len (concat (take idx parts)) <= o ∧
    (∀ q', parts !! S idx = Some q' → o < first + len (concat (take (S idx) parts))).
Proof.
  intros E. rewrite (lw_bases _ _ _ _ _ wf) in E.
  destruct (bisect_right_splits _ o (starts_sorted first ps p (lw_full _ _ _ _ _ wf))) as [Hn Hs].
  rewrite E, length_starts in Hn. rewrite E in Hs. fold parts in Hn, Hs.
  destruct (parts !! idx) as [q|] eqn:Eq; [|apply lookup_ge_None in Eq; lia].
  exists q. split; [done|]. split.
  - apply (Hs idx); [|lia]. rewrite starts_lookup by lia. done.
  - intros q' Hq'%lookup_lt_Some.
    apply Z.nle_gt. intros Hle. apply (Hs (S idx)) in Hle; [lia|]. by apply starts_lookup.
Qed.

Lemma before_first o : bisect_right (base_offset <$> segments l) o = O ↔ o < first.
Proof.
  rewrite (lw_bases _ _ _ _ _ wf).
  destruct (bisect_right_splits _ o (starts_sorted first ps p (lw_full _ _ _ _ _ wf))) as [Hn Hs].
  assert (starts first (ps ++ [p]) !! 0%nat = Some first) as H0 by by destruct ps.
  specialize (Hs _ _ H0). lia.
Qed.


(** Looking an offset up through its covering segment. *)
Lemma covering_lookup o idx q :
  parts !! idx = Some q → first + len (concat (take idx parts)) <= o →
  (∀ q', parts !! S idx = Some q' → o < first + len (concat (take (S idx) parts))) →
  q !! Z.to_nat (o - (first + len (concat (take idx parts)))) = concat parts !! Z.to_nat (o - first).
Proof.
  intros Hq Hlo Hhi. set (b := len (concat (take idx parts))) in *.
  assert (0 <= b) by apply len_nonneg.
  destruct (decide (Z.to_nat (o - (first + b)) < length q)%nat) as [Hlt|Hge].
  - rewrite <-(concat_lookup_part parts idx q) by done. f_equal.
    unfold b, len in *. lia.
  - rewrite (lookup_ge_None_2 q) by lia. symmetry. apply lookup_ge_None_2.
    destruct (parts !! S idx) as [q'|] eqn:Eq'.
    + specialize (Hhi q' eq_refl). rewrite (take_S_concat _ _ _ Hq) in Hhi. fold b in Hhi.
      unfold len in Hhi. lia.
    + apply lookup_ge_None in Eq'. rewrite <-(take_ge parts (S idx)) by lia.
      pose proof (take_S_concat _ _ _ Hq) as E. fold b in E. unfold len in *. lia.
Qed.

Lemma read_spec o :
  CommitLog_read o (fs, l) =
    (inr (if bool_decide (first <= o) then concat parts !! Z.to_nat (o - first) else None), (fs, l)).
Proof.
  unfold CommitLog_read, this. mrun. cbn [fst snd].
  destruct (bisect_right _ o) as [|idx] eqn:E.
  { apply before_first in E. by rewrite bool_decide_eq_false_2 by lia. }
  destruct (covering o idx E) as (q & Hq & Hlo & Hhi).
  pose proof (len_nonneg (concat (take idx parts))).
  rewrite (bool_decide_eq_true_2 (first <= o)) by lia.
  rewrite (on_segment_read idx q o Hq), (bool_decide_eq_true_2 (_ <= o)) by done.
  rewrite (covering_lookup o idx q Hq Hlo Hhi).
  destruct (concat parts !! _) as [r|] eqn:Er; [done|]. destruct idx as [|idx']; [done|].
  destruct (parts !! idx') as [q'|] eqn:Eq'.
  2:{ apply lookup_ge_None in Eq'. apply lookup_lt_Some in Hq. lia. }
  rewrite (on_segment_read idx' q' o Eq'). rewrite (take_S_concat _ _ _ Eq') in Hlo.
  case_bool_decide; [|done]. rewrite lookup_ge_None_2; [done|]. unfold len in *. lia.
Qed.

Lemma read_range_loop_spec k o :
  first <= o →
  read_range_loop k o (fs, l) = (inr (take k (drop (Z.to_nat (o - first)) (concat parts))), (fs, l)).
Proof.
  revert o. induction k as [|k IH]; intros o Ho; cbn [read_range_loop]; [by rewrite take_0|].
  erewrite bind_ok by apply read_spec. rewrite bool_decide_eq_true_2 by done.
  destruct (concat parts !! Z.to_nat (o - first)) as [r|] eqn:E.
  - erewrite bind_ok by (apply IH; lia).
    rewrite (drop_S _ _ _ E). cbn [take].
    by replace (Z.to_nat (o + 1 - first)) with (S (Z.to_nat (o - first))) by lia.
  - apply lookup_ge_None in E. by rewrite drop_ge by done.
Qed.
End read.

(** ** Recovery *)

Lemma strictly_sorted_nodup bs : StronglySorted Z.lt bs → NoDup bs.
Proof.
  induction 1 as [|b bs Hbs IH Hb]; constructor; [|done].
  intros Hin. rewrite Forall_forall in Hb. specialize (Hb _ Hin). lia.
Qed.

(** Listing a directory whose segment files are those of [bs] gives [bs]. *)
Lemma list_bases_spec fs bs :
  StronglySorted Z.lt bs → Forall (λ b, 0 <= b ∧ is_Some (fs !! log_name b)) bs →
  (∀ name b, is_Some (fs !! name) → segment_base name = Some b → name = log_name b ∧ b ∈ bs) →
  list_bases fs = bs.
Proof.
  intros Hs Hbs Hdir. unfold list_bases.
  apply (Sorted_unique Z.le); [apply Sorted_merge_sort; intros ??; lia| |].
  { apply StronglySorted_Sorted. clear Hbs Hdir. induction Hs as [|b bs Hs IH Hb]; constructor; [done|].
    eapply Forall_impl; [done|]. cbn. lia. }
  rewrite merge_sort_Permutation. apply NoDup_Permutation.
  - apply NoDup_omap_inj; [|apply NoDup_elements].
    intros x y b Hx%elem_of_elements%elem_of_dom Hy%elem_of_elements%elem_of_dom Ex Ey.
    destruct (Hdir _ _ Hx Ex) as [-> _]. by destruct (Hdir _ _ Hy Ey) as [-> _].
  - by apply strictly_sorted_nodup.
  - intros b. rewrite list_elem_of_omap. split.
    + intros (name & Hn%elem_of_elements%elem_of_dom & E). by eapply Hdir.
    + intros Hb. rewrite Forall_forall in Hbs. destruct (Hbs _ Hb) as [Hb0 Hf].
      exists (log_name b). split; [|by apply segment_base_log_name].
      by apply elem_of_elements, elem_of_dom.
Qed.

(** A directory as a crash leaves it: the log files of the segments, the last one
    followed by an unreadable [tail]; index files may hold anything. *)
Record dir_wf (fs : FS) (first : Z) (ps : list (list LogRec)) (p : list LogRec) (tail : bytes)
    : Prop := {
  dw_first : 0 <= first;
  dw_files : ∀ i q, ps !! i = Some q →
    fs !! log_name (first + len (concat (take i ps))) = Some (enc_all q);
  dw_last : fs !! log_name (first + len (concat ps)) = Some (enc_all p ++ tail);
  dw_ok : Forall rec_ok (concat (ps ++ [p]));
  dw_contig : contiguous first (concat (ps ++ [p]));
  dw_fits : len (enc_all (concat (ps ++ [p]))) < 2 ^ 64;
  dw_full : Forall (λ q, q ≠ []) ps;
  dw_dir : ∀ name b, is_Some (fs !! name) → segment_base name = Some b →
    name = log_name b ∧ b ∈ starts first (ps ++ [p]);
}.

(** The recovery loop over the segments: [dones] are recovered, [todo] are not. *)
Lemma recover_segments_spec interval todo : ∀ fs l fin dones first tails,
  0 <= first → length tails = length todo →
  Forall2 (seg_wf fs) fin dones →
  segments l = dones ++ ((λ b, Segment_init b interval) <$> starts first todo) →
  (∀ i q t, todo !! i = Some q → tails !! i = Some t →
     fs !! log_name (first + len (concat (take i todo))) = Some (enc_all q ++ t) ∧ unreadable t) →
  Forall (λ q, Forall rec_ok q ∧ len (enc_all q) < 2 ^ 64) todo →
  contiguous first (concat todo) →
  (∀ g b, g ∈ dones → b ∈ starts first todo → base_offset g < b) →
  StronglySorted Z.lt (starts first todo) →
  returns (for_each (seq (length dones) (length todo)) (λ i, _ ← on_segment i Segment_recover; mret ())) (fs, l)
    (λ _ s', ∃ gs, s'.2 = set_segments (dones ++ gs) l ∧
       Forall2 (seg_wf s'.1) (fin ++ todo) (dones ++ gs) ∧
       (base_offset <$> gs) = starts first todo ∧
       Forall (λ g, index_interval_bytes g = Z.max 1 interval) gs ∧
       (∀ p, (∀ b, b ∈ starts first todo → p ≠ log_name b ∧ p ≠ index_name b) → s'.1 !! p = fs !! p)).
Proof.
  induction todo as [|q todo IH]; intros fs l fin dones first tails Hf0 Htl Hfin Hsegs Hfiles Hok Hc Hlt Hso.
  - exists []. cbn in *. rewrite !app_nil_r in *. split_and!; try done. by destruct l; cbn in *; subst.
  - destruct tails as [|t tails]; [done|]. injection Htl as Htl. cbn [length seq for_each].
    apply Forall_cons in Hok as [[Hq Hqf] Hok].
    destruct (Hfiles O q t eq_refl eq_refl) as [Hfile Hut].
    cbn [take concat] in Hfile. change (len (@nil LogRec)) with 0 in Hfile. rewrite Z.add_0_r in Hfile.
    cbn [concat] in Hc. apply contiguous_app in Hc as [Hcq Hc].
    assert (∀ b, b ∈ starts (first + len q) todo → first < b) as Hgt.
    { cbn [starts] in Hso. apply StronglySorted_inv in Hso as [_ Hso]. by apply Forall_forall. }
    set (g0 := Segment_init first interval).
    cbn [starts fmap list_fmap] in Hsegs.
    apply returns_bind, returns_bind. eapply returns_mono.
    { eapply on_segment_returns; [by rewrite Hsegs, list_lookup_middle|].
      apply (Segment_recover_spec fs q t g0); try done; cbn; lia. }
    intros n [fs1 l1] (g1 & (_ & Hwf1 & Hb1 & Hi1 & Hfr1) & El1). cbn [fst snd] in *.
    apply returns_ret. cbn [base_offset index_interval_bytes g0 Segment_init] in *.
    rewrite Hsegs, insert_app_r_alt, Nat.sub_diag in El1 by done. cbn [list_insert insert] in El1.
    assert (first ∉ base_offset <$> dones) as Hnd.
    { intros (g & Eg & Hg)%list_elem_of_fmap. specialize (Hlt g first Hg). cbn in Hlt.
      rewrite elem_of_cons in Hlt. lia. }
    eapply returns_mono.
    { replace (S (length dones)) with (length (dones ++ [g1])) by (rewrite length_app; simpl; lia).
      apply (IH fs1 l1 (fin ++ [q]) (dones ++ [g1]) (first + len q) tails); try done.
      - pose proof (len_nonneg q). lia.
      - apply Forall2_app; [by eapply segs_frame|by constructor; [|constructor]].
      - subst l1. cbn. by rewrite <-app_assoc.
      - intros i q' t' Hq' Ht'. destruct (Hfiles (S i) q' t' Hq' Ht') as [Hf Hu].
        cbn [take concat] in Hf. rewrite len_app, Z.add_assoc in Hf. split; [|done].
        assert (first < first + len q + len (concat (take i todo))) as Hlt'.
        { apply Hgt. eapply list_elem_of_lookup_2. apply starts_lookup. by eapply lookup_lt_Some. }
        rewrite Hfr1; [done| |apply log_index_ne].
        intros E%log_name_inj; lia.
      - intros g b [Hg|Hg%list_elem_of_singleton]%elem_of_app Hb.
        + apply (Hlt g b Hg). cbn. by right.
        + subst g. rewrite Hb1. by apply Hgt.
      - by apply StronglySorted_inv in Hso as [Hso _]. }
    intros _ s' (gs & Es' & Hall & Hbs & His & Hoth). subst l1. cbn in Es'.
    exists (g1 :: gs). rewrite <-!app_assoc in *. cbn [app] in *. split_and!; try done.
    + cbn. by rewrite Hb1, Hbs.
    + by constructor.
    + intros p Hp. rewrite Hoth.
      * destruct (Hp first) as [H1 H2]; [cbn; by left|]. by apply Hfr1.
      * intros b Hb. apply Hp. cbn. by right.
Qed.

Lemma Forall_concat_parts {A} (P : A → Prop) (parts : list (list A)) :
  Forall P (concat parts) → Forall (Forall P) parts.
Proof.
  induction parts as [|q parts IH]; cbn [concat]; intros H; constructor.
  - by apply Forall_app in H as [H _].
  - apply IH. by apply Forall_app in H as [_ H].
Qed.

Lemma enc_all_part parts q : q ∈ parts → len (enc_all q) <= len (enc_all (concat parts)).
Proof.
  induction parts as [|q0 parts IH]; [set_solver|]. intros [->|Hq]%elem_of_cons; cbn [concat].
  - apply enc_all_le.
  - apply IH in Hq. rewrite enc_all_app, len_app. pose proof (len_nonneg (enc_all q0)). lia.
Qed.

Section open.
Context (fs : FS) (first : Z) (ps : list (list LogRec)) (p : list LogRec) (tail : bytes).
Hypothesis wf : dir_wf fs first ps p tail.
Hypothesis torn : unreadable tail.

Lemma dir_file i q t :
  (ps ++ [p]) !! i = Some q → (replicate (length ps) [] ++ [tail]) !! i = Some t →
  fs !! log_name (first + len (concat (take i (ps ++ [p])))) = Some (enc_all q ++ t) ∧ unreadable t.
Proof.
  destruct wf as [Hf0 Hfiles Hlast Hok Hc Hfit Hfull Hdir].
  intros Hq Ht. apply lookup_snoc_Some in Hq as [[Hi Hq]|[-> <-]].
  - rewrite take_app_le by lia. rewrite lookup_app_l in Ht by by rewrite length_replicate.
    apply lookup_replicate in Ht as [-> _]. rewrite app_nil_r.
    split; [by apply Hfiles|apply unreadable_nil].
  - rewrite take_app_length. rewrite lookup_app_r, length_replicate, Nat.sub_diag in Ht
      by by rewrite length_replicate. by injection Ht as <-.
Qed.

Lemma dir_bases : list_bases fs = starts first (ps ++ [p]).
Proof.
  apply list_bases_spec; [apply starts_sorted, wf| |apply wf].
  apply Forall_lookup. intros i b Hb. pose proof (lookup_lt_Some _ _ _ Hb) as Hi.
  rewrite length_starts in Hi. rewrite starts_lookup in Hb by done. injection Hb as <-.
  split; [pose proof (dw_first _ _ _ _ _ wf); pose proof (len_nonneg (concat (take i (ps ++ [p])))); lia|].
  destruct ((ps ++ [p]) !! i) as [q|] eqn:Eq; [|apply lookup_ge_None in Eq; lia].
  destruct ((replicate (length ps) [] ++ [tail]) !! i) as [t|] eqn:Et.
  2:{ apply lookup_ge_None in Et. rewrite length_app, length_replicate in *. simpl in *. lia. }
  destruct (dir_file i q t Eq Et) as [-> _]. by eexists.
Qed.

Lemma parts_ok :
  Forall (λ q, Forall rec_ok q ∧ len (enc_all q) < 2 ^ 64) (ps ++ [p]).
Proof.
  apply Forall_forall. intros q Hq. split.
  - pose proof (Forall_concat_parts _ _ (dw_ok _ _ _ _ _ wf)) as H.
    rewrite Forall_forall in H. by apply H.
  - eapply Z.le_lt_trans; [by apply enc_all_part|apply wf].
Qed.

(** Opening a directory gives the log of its readable records. *)
Lemma open_spec max_bytes interval :
  returns CommitLog_init (fs, mkLog (Z.max 1 max_bytes) interval [] 0)
    (λ _ s', log_wf s'.1 s'.2 first ps p ∧
       max_segment_bytes s'.2 = Z.max 1 max_bytes ∧ log_index_interval s'.2 = interval).
Proof.
  unfold CommitLog_init, CommitLog_recover, this.
  apply returns_bind, returns_bind. eapply returns_intro; [reflexivity|]. cbn [fst snd].
  apply returns_bind. eapply returns_intro; [reflexivity|]. cbn [fst snd].
  apply returns_bind. eapply returns_intro; [reflexivity|]. cbn [fst snd log_index_interval].
  rewrite dir_bases. rewrite bool_decide_eq_false_2 by by destruct ps.
  apply returns_bind. eapply returns_mono.
  { rewrite length_starts.
    eapply (recover_segments_spec interval (ps ++ [p]) fs _ [] [] first (replicate (length ps) [] ++ [tail])).
    - apply wf.
    - rewrite !length_app, length_replicate. done.
    - constructor.
    - done.
    - apply dir_file.
    - apply parts_ok.
    - apply wf.
    - set_solver.
    - apply starts_sorted, wf. }
  intros _ [fs' l'] (gs & El & Hall & Hbs & His & Hoth). cbn [fst snd app] in *. subst l'. cbn [set_segments].
  apply Forall2_app_inv_l in Hall as (gs1 & gl & Hgs & Hg & ->).
  apply Forall2_cons_inv_l in Hg as (g & gl' & Hg & Hnil%Forall2_nil_inv_l & ->). subst gl'.
  apply returns_bind. eapply returns_intro; [by apply CommitLog_active_run|]. cbv beta iota.
  apply returns_ret. eapply returns_intro; [reflexivity|]. cbn [fst snd].
  split; [|done]. constructor; cbn; try done.
  - lia.
  - apply wf.
  - apply Forall2_app; [done|]. by constructor.
  - apply wf.
  - rewrite (wf_next _ _ _ Hg). rewrite fmap_app, starts_snoc in Hbs.
    apply app_inj_2 in Hbs as [_ Hbs]; [|done]. injection Hbs as ->. rewrite len_concat_snoc. lia.
  - intros name b Hin Hseg. apply (dw_dir _ _ _ _ _ wf); [|done].
    destruct (decide (name ∈ (log_name <$> starts first (ps ++ [p]))
                      ∨ name ∈ (index_name <$> starts first (ps ++ [p])))) as [[Hn|Hn]|Hn].
    + apply list_elem_of_fmap in Hn as (b0 & -> & Hb0).
      rewrite <-dir_bases in Hb0. unfold list_bases in Hb0. rewrite merge_sort_Permutation in Hb0.
      apply list_elem_of_omap in Hb0 as (x & Hx%elem_of_elements%elem_of_dom & Ex).
      by destruct (dw_dir _ _ _ _ _ wf _ _ Hx Ex) as [-> _].
    + apply list_elem_of_fmap in Hn as (b0 & -> & _). by rewrite segment_base_index_name in Hseg.
    + rewrite <-Hoth; [done|]. intros b0 Hb0. split; intros ->; apply Hn; [left|right];
        apply list_elem_of_fmap; by exists b0.
Qed.
End open.

Lemma log_wf_facts fs l first ps p :
  log_wf fs l first ps p →
  Forall rec_ok (concat (ps ++ [p])) ∧ contiguous first (concat (ps ++ [p])).
Proof.
  intros wf. destruct wf as [Hmax Hfirst Hsegs Hbases Hfull Hnext Hint Hdir].
  generalize dependent (ps ++ [p]). intros parts Hsegs Hbases _ _. clear -Hsegs Hbases.
  revert first Hbases. induction Hsegs as [|q g parts gs Hg Hgs IH]; intros first Hb; [done|].
  cbn in Hb. injection Hb as Hb1 Hb2. apply IH in Hb2 as [Hok Hc]. cbn [concat]. split.
  - apply Forall_app. split; [apply Hg|done].
  - apply contiguous_app. split; [rewrite <-Hb1; apply Hg|done].
Qed.

(** What a crash during an append to the active segment leaves: its log file ends
    with part of a record, its index file holds anything, the other files are as
    they were. *)
Definition crash_image (fs : FS) (active_base : Z) (content tail : bytes) (fs' : FS) : Prop :=
  fs' !! log_name active_base = Some (content ++ tail) ∧ frame active_base fs fs'.

Lemma crash_dir_wf fs l first ps p tail fs' :
  log_wf fs l first ps p → len (enc_all (concat (ps ++ [p]))) < 2 ^ 64 →
  crash_image fs (first + len (concat ps)) (enc_all p) tail fs' →
  dir_wf fs' first ps p tail.
Proof.
  intros wf Hfit [Hlast Hfr]. destruct (log_wf_facts _ _ _ _ _ wf) as [Hok Hc].
  destruct (log_wf_last _ _ _ _ _ wf) as (gs & g & E & Hgs & Hg & Hbs & Hb & Hnin & Hnx).
  pose proof (wf_base _ _ _ Hg) as Hb0. rewrite <-Hb in Hlast, Hfr.
  constructor; try done; try apply wf.
  - intros i q Hq.
    assert (starts first ps !! i = Some (first + len (concat (take i ps)))) as Hi
      by (apply starts_lookup; by eapply lookup_lt_Some).
    rewrite <-Hbs, list_lookup_fmap in Hi.
    destruct (gs !! i) as [g0|] eqn:Eg; [|done]. cbn in Hi. injection Hi as Hi. rewrite <-Hi.
    destruct (Forall2_lookup_lr _ _ _ _ _ _ Hgs Hq Eg) as [Hg00 _ _ _ _ Hl _ _ _ _ _].
    rewrite Hfr; [done| |apply log_index_ne].
    intros En%log_name_inj; [|done..]. apply Hnin. rewrite <-En.
    apply list_elem_of_fmap. exists g0. split; [done|]. by eapply list_elem_of_lookup_2.
  - by rewrite <-Hb.
  - intros name b Hin Hseg.
    destruct (decide (name = index_name (base_offset g))) as [->|Hn2]; [by rewrite segment_base_index_name in Hseg|].
    apply (lw_dir _ _ _ _ _ wf); [|done].
    destruct (decide (name = log_name (base_offset g))) as [->|Hn1]; [eexists; apply (wf_log _ _ _ Hg)|].
    by rewrite <-Hfr.
Qed.

(** ** Truncation *)

Lemma delete_segments_spec ids : ∀ fs l,
  Forall (λ i, (i < length (segments l))%nat) ids →
  returns (for_each ids (λ i, on_segment i Segment_delete)) (fs, l)
    (λ _ s', s'.2 = l ∧
       (∀ name, s'.1 !! name = fs !! name ∨ s'.1 !! name = None) ∧
       (∀ i g, i ∈ ids → segments l !! i = Some g → s'.1 !! log_path g = None) ∧
       (∀ name, (∀ i g, i ∈ ids → segments l !! i = Some g → name ≠ log_path g ∧ name ≠ index_path g) →
          s'.1 !! name = fs !! name)).
Proof.
  induction ids as [|i ids IH]; intros fs l Hin; cbn [for_each].
  - apply returns_ret. split_and!; [done|by left|intros ?? Hn; by apply not_elem_of_nil in Hn|done].
  - apply Forall_cons in Hin as [Hi His].
    destruct (segments l !! i) as [g|] eqn:Eg; [|apply lookup_ge_None in Eg; lia].
    apply returns_bind. eapply returns_intro.
    { unfold on_segment. cbn [fst snd]. rewrite Eg, Segment_delete_run. reflexivity. }
    cbv beta. rewrite list_insert_id by done.
    replace (set_segments (segments l) l) with l by by destruct l.
    eapply returns_mono; [by apply IH|]. intros _ [fs' l'] (-> & Hsub & Hgone & Hrest). cbn [fst snd] in *.
    split_and!; [done|..].
    + intros name. destruct (Hsub name) as [E|]; [|by right]. rewrite E.
      destruct (decide (name = log_path g)) as [->|]; [right; rewrite lookup_delete_ne by apply not_eq_sym, log_index_ne; apply lookup_delete_eq|].
      destruct (decide (name = index_path g)) as [->|]; [right; apply lookup_delete_eq|].
      left. by rewrite !lookup_delete_ne by done.
    + intros i0 g0 Hi0 Eg0. apply elem_of_cons in Hi0 as [->|Hi0]; [|by eapply Hgone].
      rewrite Eg in Eg0. injection Eg0 as <-.
      destruct (Hsub (log_path g)) as [E|]; [|done]. rewrite E.
      rewrite lookup_delete_ne by apply not_eq_sym, log_index_ne. apply lookup_delete_eq.
    + intros name Hn. rewrite Hrest.
      * destruct (Hn i g) as [H1 H2]; [by left|done|]. by rewrite !lookup_delete_ne by done.
      * intros i0 g0 Hi0 Eg0. apply (Hn i0 g0); [by right|done].
Qed.

Lemma take_concat_split (parts : list (list LogRec)) idx q k :
  parts !! idx = Some q → (k ≤ length q)%nat →
  concat (take idx parts ++ [take k q]) = take (length (concat (take idx parts)) + k) (concat parts).
Proof.
  intros Hq Hk. rewrite concat_snoc.
  rewrite <-(take_drop idx parts) at 3. rewrite concat_app, take_app_add'.
  2:{ done. } f_equal. rewrite (drop_S _ _ _ Hq). cbn [concat].
  by rewrite take_app_le by lia.
Qed.

(** Dropping the segments after position [idx] keeps a well-formed log. *)
Lemma log_wf_cut fs l first ps p idx q fs' :
  log_wf fs l first ps p → (ps ++ [p]) !! idx = Some q →
  (∀ name, fs' !! name = fs !! name ∨ fs' !! name = None) →
  (∀ i g, (idx < i)%nat → segments l !! i = Some g → fs' !! log_path g = None) →
  (∀ name, (∀ i g, (idx < i)%nat → segments l !! i = Some g → name ≠ log_path g ∧ name ≠ index_path g) →
     fs' !! name = fs !! name) →
  log_wf fs' (set_log_next (first + len (concat (take (S idx) (ps ++ [p]))))
                (set_segments (take (S idx) (segments l)) l)) first (take idx (ps ++ [p])) q.
Proof.
  intros wf Hq Hsub Hgone Hrest.
  pose proof (starts_sorted first ps p (lw_full _ _ _ _ _ wf)) as Hso.
  pose proof (lw_bases _ _ _ _ _ wf) as Hbs.
  destruct wf as [Hmax Hfirst Hsegs Hbases Hfull Hnext Hint Hdir].
  assert (take idx (ps ++ [p]) ++ [q] = take (S idx) (ps ++ [p])) as Etk by by rewrite (take_S_r _ _ _ Hq).
  constructor; rewrite ?Etk; cbn -[take]; try done.
  - apply Forall2_same_length_lookup_2.
    { rewrite !length_take. by rewrite (Forall2_length _ _ _ Hsegs). }
    intros i q0 g0 Hi Hg. apply lookup_take_Some in Hi as [Hi Hlt]. apply lookup_take_Some in Hg as [Hg _].
    pose proof (Forall2_lookup_lr _ _ _ _ _ _ Hsegs Hi Hg) as [Hb0 Hint0 Hok Hc Hf Hl Hif Hs Hn Hx Ht].
    assert (∀ j g, (idx < j)%nat → segments l !! j = Some g → base_offset g0 < base_offset g ∧ 0 <= base_offset g) as Hlt2.
    { intros j g Hj Ej.
      assert (base_offset g0 < base_offset g); [|lia].
      rewrite <-Hbs in Hso. apply (sorted_lookup _ Hso i j); [lia|by rewrite list_lookup_fmap, Hg|by rewrite list_lookup_fmap, Ej]. }
    constructor; try done.
    + rewrite Hrest; [done|]. intros j g Hj Ej. destruct (Hlt2 j g Hj Ej).
      split; [intros E%log_name_inj; lia|apply log_index_ne].
    + rewrite Hrest; [done|]. intros j g Hj Ej. destruct (Hlt2 j g Hj Ej).
      split; [apply not_eq_sym, log_index_ne|intros E%index_name_inj; lia].
  - rewrite fmap_take, Hbases. rewrite <-(take_drop (S idx) (ps ++ [p])) at 1. rewrite starts_app.
    rewrite take_app_le by (rewrite length_starts, length_take; apply lookup_lt_Some in Hq; lia).
    apply take_ge. rewrite length_starts, length_take. lia.
  - destruct (decide (idx ≤ length ps)%nat).
    + rewrite take_app_le by done. by apply Forall_take.
    + apply lookup_lt_Some in Hq. rewrite length_app in Hq. simpl in Hq. lia.
  - by apply Forall_take.
  - intros name b Hin Hseg.
    destruct (Hsub name) as [E|E]; [|rewrite E in Hin; by destruct Hin].
    rewrite E in Hin. destruct (Hdir name b Hin Hseg) as [-> Hb]. split; [done|].
    rewrite <-Hbs in Hb. apply list_elem_of_fmap in Hb as (g & -> & Hg).
    apply list_elem_of_lookup in Hg as [i Hi].
    destruct (decide (idx < i)%nat) as [Hgt|Hle].
    { specialize (Hgone i g Hgt Hi). unfold log_path in Hgone. rewrite Hgone in E.
      rewrite <-E in Hin. by destruct Hin. }
    apply list_elem_of_lookup. exists i.
    assert (starts first (ps ++ [p]) !! i = Some (base_offset g)) as Hst by by rewrite <-Hbs, list_lookup_fmap, Hi.
    rewrite <-(take_drop (S idx) (ps ++ [p])) in Hst. rewrite starts_app in Hst.
    rewrite lookup_app_l in Hst; [done|]. rewrite length_starts, length_take.
    apply lookup_lt_Some in Hq. lia.
Qed.

(** [truncate_from] keeps the records below the offset; it reports whether there
    was anything at or above it.  Offsets below the first one are refused. *)
(** Cutting at [o] inside the covering part [idx]: what is kept, and whether anything
    is removed. *)
Section cut.
Context (first o : Z) (parts : list (list LogRec)) (idx : nat) (q : list LogRec).
Hypothesis Hq : parts !! idx = Some q.
Hypothesis Hlo : first + len (concat (take idx parts)) <= o.
Hypothesis Hhi : ∀ q', parts !! S idx = Some q' → o < first + len (concat (take (S idx) parts)).
Let k : nat := Z.to_nat (o - (first + len (concat (take idx parts)))).

(** Past the end of the part only if it is the last one. *)
Lemma cut_last : (length q ≤ k)%nat → take (S idx) parts = parts.
Proof.
  intros Hk. apply take_ge. destruct (parts !! S idx) as [q'|] eqn:Eq'; [|by apply lookup_ge_None in Eq'].
  specialize (Hhi _ eq_refl). rewrite (take_S_concat parts idx q Hq) in Hhi. unfold k, len in *. lia.
Qed.

Lemma cut_contents : concat (take idx parts ++ [take k q]) = take (Z.to_nat (o - first)) (concat parts).
Proof.
  destruct (decide (length q ≤ k)%nat) as [Hk|Hk].
  - rewrite (take_ge q) by done. rewrite <-(take_S_r _ _ _ Hq), (cut_last Hk). symmetry. apply take_ge.
    pose proof (take_S_concat parts idx q Hq) as Hc. rewrite (cut_last Hk) in Hc. unfold k, len in *. lia.
  - rewrite (take_concat_split parts idx q k Hq) by lia. f_equal. unfold k, len in *. lia.
Qed.

Lemma cut_removes :
  (negb (bool_decide (S idx = length parts)) || bool_decide (take k q ≠ q)) = (o <? first + len (concat parts)).
Proof.
  pose proof (take_S_concat parts idx q Hq) as Hc. pose proof (lookup_lt_Some _ _ _ Hq).
  assert (length (concat (take (S idx) parts)) ≤ length (concat parts))%nat as Hle.
  { rewrite <-(take_drop (S idx) parts) at 2. rewrite concat_app, length_app. lia. }
  destruct (decide (length q ≤ k)%nat) as [Hk|Hk].
  - rewrite (bool_decide_eq_false_2 (_ ≠ _)), orb_false_r by (rewrite take_ge; [auto|done]).
    pose proof (cut_last Hk) as Hl. pose proof (f_equal length Hl) as Hl'. rewrite length_take in Hl'.
    rewrite bool_decide_eq_true_2 by lia. rewrite Hl in Hc. symmetry. apply Z.ltb_ge. unfold k, len in *. lia.
  - rewrite (bool_decide_eq_true_2 (_ ≠ _)), orb_true_r.
    + symmetry. apply Z.ltb_lt. unfold k, len in *. lia.
    + intros Hs. apply (f_equal length) in Hs. rewrite length_take in Hs. lia.
Qed.
End cut.

Lemma truncate_spec fs l first ps p o :
  log_wf fs l first ps p →
  returns (CommitLog_truncate_from o) (fs, l)
    (λ b s', if o <? first then b = false ∧ s' = (fs, l)
       else b = (o <? log_next_offset l) ∧ ∃ ps' p', log_wf s'.1 s'.2 first ps' p' ∧
              concat (ps' ++ [p']) = take (Z.to_nat (o - first)) (concat (ps ++ [p]))).
Proof.
  intros wf. unfold CommitLog_truncate_from.
  apply returns_bind. eapply returns_intro; [reflexivity|]. cbn [fst snd].
  destruct (bisect_right _ o) as [|idx] eqn:E.
  { apply (before_first _ _ _ _ _ wf) in E. destruct (Z.ltb_spec o first); [by apply returns_ret|lia]. }
  destruct (Z.ltb_spec o first) as [Hlt|Hge].
  { apply (before_first _ _ _ _ _ wf) in Hlt. congruence. }
  destruct (covering _ _ _ _ _ wf o idx E) as (q & Hq & Hlo & Hhi).
  pose proof (Forall2_length _ _ _ (lw_segs _ _ _ _ _ wf)) as Hlen.
  assert (S idx ≤ length (segments l))%nat as Hidx by (apply lookup_lt_Some in Hq; lia).
  set (parts := ps ++ [p]) in *. set (b := len (concat (take idx parts))) in *.
  apply returns_bind. eapply returns_mono.
  { apply delete_segments_spec. apply Forall_forall. intros i Hi%elem_of_seq. lia. }
  intros _ [fs1 l1] (El1 & Hsub & Hgone & Hrest). cbn [fst snd] in *. subst l1.
  assert (∀ i g, (idx < i)%nat → segments l !! i = Some g → i ∈ seq (S idx) (length (segments l) - S idx)) as Hin.
  { intros i g Hi Hg%lookup_lt_Some. apply elem_of_seq. lia. }
  assert (log_wf fs1 (set_log_next (first + len (concat (take (S idx) parts)))
    (set_segments (take (S idx) (segments l)) l)) first (take idx parts) q) as wf1.
  { apply (log_wf_cut fs l first ps p idx q fs1 wf Hq Hsub).
    - intros i g Hi Hg. eapply Hgone; [by eapply Hin|done].
    - intros name Hn. apply Hrest. intros i g Hi Hg. apply (Hn i g); [apply elem_of_seq in Hi; lia|done]. }
  apply returns_bind. eapply returns_intro; [reflexivity|]. cbn [fst snd].
  destruct (seg_at _ _ _ _ _ wf idx q Hq) as (g & Hg & _ & Hbg). fold parts b in Hbg.
  assert (take (S idx) (segments l) = take idx (segments l) ++ [g]) as Etk by by apply take_S_r.
  destruct (log_wf_last _ _ _ _ _ wf1) as (gs1 & g1 & Es1 & Hgs1 & Hg1 & _). cbn in Es1.
  rewrite Etk in Es1. apply app_inj_2 in Es1 as [<- Eg1]; [|done]. injection Eg1 as <-.
  apply returns_bind. eapply returns_mono.
  { eapply on_segment_returns; [|by apply (Segment_truncate_from_spec fs1 q g)].
    cbn. by rewrite lookup_take_lt, Hg by lia. }
  intros cut [fs2 l2] (g2 & [Ecut Hpost] & El2). cbn [fst snd] in *. subst l2.
  cbn [segments set_segments]. rewrite Hbg in *.
  set (k := Z.to_nat (o - (first + b))) in *.
  assert (<[idx:=g2]> (take (S idx) (segments l)) = take idx (segments l) ++ [g2]) as Eins.
  { rewrite Etk. 
    rewrite insert_app_r_alt by (rewrite length_take; lia).
    by replace (idx - length (take idx (segments l)))%nat with 0%nat by (rewrite length_take; lia). }
  apply returns_bind. eapply returns_intro; [reflexivity|]. cbn [fst snd segments set_segments].
  rewrite Eins, last_snoc.
  apply returns_bind. eapply returns_intro; [reflexivity|]. cbn [fst snd].
  apply returns_ret.
  assert (log_wf fs2 (set_log_next (next_offset g2) (set_segments (take idx (segments l) ++ [g2]) l))
            first (take idx parts) (take k q)) as wf2.
  { pose proof (log_wf_update_last _ _ _ _ _ _ _ fs2 g2 (take k q) wf1 Etk Hpost) as W.
    destruct Hpost as (Hwf2 & Hb2 & _). cbn [fst snd] in *.
    rewrite (wf_next _ _ _ Hwf2), Hb2, Hbg, <-Z.add_assoc. unfold b. rewrite <-len_concat_snoc. done. }
  split.
  - rewrite Ecut, (lw_next _ _ _ _ _ wf). fold parts. rewrite <-(cut_removes first o parts idx q Hq Hlo Hhi). f_equal. f_equal.
    apply bool_decide_ext. rewrite Hlen. fold parts. split; [|by intros <-; rewrite Nat.sub_diag].
    intros E0%(f_equal length). rewrite length_seq in E0. cbn in E0. lia.
  - exists (take idx parts), (take k q). split; [done|]. by apply cut_contents.
Qed.

(** ** Group commit *)

Definition item_of (r : LogRec) : Item := (rec_offset r, rec_payload r, Some (rec_timestamp r)).

(** The [(offset, position, timestamp)] triples of records written from [pos] on. *)
Fixpoint batch_marks (pos : Z) (rs : list LogRec) : list (Z * Z * Z) :=
  match rs with
  | [] => []
  | r :: rs' => (rec_offset r, pos, rec_timestamp r) :: batch_marks (pos + len (enc r)) rs'
  end.

(** A batch is a prefix of the items, nonempty unless one was already started. *)
Lemma gather_batch_spec max_bytes rs : ∀ started pos,
  Forall rec_ok rs →
  ∃ k, (k ≤ length rs)%nat ∧ (started = false → rs ≠ [] → 0 < k)%nat ∧
    gather_batch max_bytes started pos (item_of <$> rs)
    = inr (batch_marks pos (take k rs), enc_all (take k rs), pos + len (enc_all (take k rs)),
           item_of <$> drop k rs).
Proof.
  induction rs as [|r rs IH]; intros started pos Hok.
  - exists 0%nat. split_and!; [done|done|]. cbn. change (len []) with 0. by rewrite Z.add_0_r.
  - apply Forall_cons in Hok as [Hr Hok]. cbn [fmap list_fmap gather_batch item_of].
    rewrite encode_record_enc by by apply rec_ok_packable.
    replace (mkRec (rec_offset r) (rec_timestamp r) (rec_payload r)) with r by by destruct r.
    destruct (started && _) eqn:E.
    + exists 0%nat. split_and!; [lia|intros ->; done|]. cbn. change (len []) with 0. by rewrite Z.add_0_r.
    + destruct (IH true (pos + len (enc r)) Hok) as (k & Hk & _ & Eg). fold (item_of <$> rs).
      change (list_fmap LogRec Item item_of rs) with (item_of <$> rs).
      rewrite Eg. exists (S k). split_and!; [simpl; lia|lia|].
      cbn [take drop batch_marks]. rewrite enc_all_cons, len_app, Z.add_assoc. done.
Qed.

(** Progress of the index loop of a batch: [a] is indexed, the log file already
    holds the whole batch. *)
Record batch_state (base interval : Z) (a : list LogRec) (s : FS * Segment) : Prop := {
  bs_base : base_offset s.2 = base;
  bs_interval : index_interval_bytes s.2 = interval;
  bs_index : (index s.2, last_indexed_position s.2) = build_index interval a;
  bs_file : s.1 !! index_name base = Some (index_bytes (index s.2));
  bs_next : next_offset s.2 = base + len a;
  bs_ts : Forall (λ r, rec_timestamp r <= max_timestamp s.2) a;
}.

Definition mark_step : Z * Z * Z → SegM () := λ '(o, p, t),
  _ ← Segment_maybe_index o p;
  _ ← on_self (set_next_offset (o + 1));
  on_self (λ g, if max_timestamp g <? t then set_max_timestamp t g else g).

Lemma mark_step_spec base interval a r s :
  batch_state base interval a s → rec_offset r = base + len a →
  len (enc_all (a ++ [r])) < 2 ^ 64 →
  returns (mark_step (rec_offset r, len (enc_all a), rec_timestamp r)) s
    (λ _ s', batch_state base interval (a ++ [r]) s' ∧
             ∀ p, p ≠ index_name base → s'.1 !! p = s.1 !! p).
Proof.
  destruct s as [fs g]. intros [Hb Hi Hx Hf Hn Ht] Ho Hfit. cbn [fst snd] in *.
  unfold mark_step.
  destruct (maybe_index_run (rec_offset r) (len (enc_all a)) fs g _ Hx) as (fs1 & E & Hoth & Hidx).
  { rewrite Hb, Ho. replace (_ - _) with (len a) by lia. by eapply next_mark_fits. }
  rewrite Hb, Ho in E, Hidx. replace (base + len a - base) with (len a) in E, Hidx by lia.
  rewrite Hi, <-(build_index_snoc _ _ r) in E, Hidx.
  unfold index_path in *. rewrite Hb in *.
  apply returns_bind. eapply returns_intro; [by rewrite Ho|]. cbv beta.
  apply returns_bind. eapply returns_intro; [reflexivity|]. cbn [fst snd].
  eapply returns_intro; [reflexivity|]. cbn [fst snd].
  split; [|done].
  match goal with |- context [if ?c then _ else _] => destruct c eqn:Ec end;
    cbn in Ec; constructor; cbn; try done.
  1,5: by rewrite <-surjective_pairing.
  1,4: apply Hidx; by rewrite Hf, <-Hx.
  1,3: rewrite len_app; change (len [r]) with 1; lia.
  all: apply Forall_app; split; [|constructor; [|done]].
  all: try (eapply Forall_impl; [exact Ht|]; cbn; intros r0 Hr0).
  all: first [apply Z.ltb_lt in Ec|apply Z.ltb_ge in Ec]; lia.
Qed.

Lemma batch_loop_spec base interval rs : ∀ a s,
  batch_state base interval a s → contiguous base (a ++ rs) →
  len (enc_all (a ++ rs)) < 2 ^ 64 →
  returns (for_each (batch_marks (len (enc_all a)) rs) mark_step) s
    (λ _ s', batch_state base interval (a ++ rs) s' ∧
             ∀ p, p ≠ index_name base → s'.1 !! p = s.1 !! p).
Proof.
  induction rs as [|r rs IH]; intros a s Hs Hc Hfit; cbn [batch_marks for_each].
  - rewrite app_nil_r in *. by apply returns_ret.
  - rewrite (cons_middle r a rs), app_assoc in *.
    apply contiguous_app in Hc as Hc'. destruct Hc' as [Hca _].
    apply returns_bind. eapply returns_mono.
    { apply (mark_step_spec base interval a r s Hs); [by apply contiguous_last|].
      pose proof (enc_all_le (a ++ [r]) rs). lia. }
    intros _ s1 [Hs1 Hoth]. rewrite <-len_app, <-enc_all_snoc.
    eapply returns_mono; [by apply IH|]. intros _ s2 [Hs2 Hoth2]. split; [done|].
    intros p Hp. by rewrite Hoth2, Hoth.
Qed.

Lemma write_batch_spec fs p g rs :
  seg_wf fs p g → Forall rec_ok rs → contiguous (base_offset g) (p ++ rs) →
  len (enc_all (p ++ rs)) < 2 ^ 64 →
  returns (write_batch (batch_marks (size g) rs) (enc_all rs) (size g + len (enc_all rs))) (fs, g)
    (λ _, seg_post fs g (p ++ rs)).
Proof.
  intros [Hb Hi Hok Hc Hf Hl Hif Hs Hn Hx Ht] Hrs Hc' Hfit. unfold write_batch. fold mark_step.
  apply returns_bind. eapply returns_intro; [reflexivity|]. cbn [fst snd].
  apply returns_bind. eapply returns_intro; [reflexivity|]. cbn [fst snd].
  unfold fs_append. rewrite Hl. cbn [default from_option id]. rewrite <-enc_all_app.
  set (fs1 := <[log_path g := enc_all (p ++ rs)]> fs).
  rewrite Hs. apply returns_bind. eapply returns_mono.
  { apply (batch_loop_spec (base_offset g) (index_interval_bytes g) rs p (fs1, g)); [|done..].
    constructor; cbn; try done.
    unfold fs1. by rewrite lookup_insert_ne by apply log_index_ne. }
  intros _ [fs2 g2] [[Hb2 Hi2 Hx2 Hf2 Hn2 Ht2] Hoth]. cbn [fst snd] in *.
  eapply returns_intro; [reflexivity|]. unfold seg_post. cbn -[frame].
  split; [|split; [done|split; [done|]]].
  - constructor; cbn; rewrite ?Hb2, ?Hi2; try done.
    + by apply Forall_app.
    + unfold log_path. cbn. rewrite Hb2, Hoth by apply log_index_ne.
      unfold fs1. by rewrite lookup_insert_eq.
    + unfold index_path. cbn. by rewrite Hb2.
    + by rewrite enc_all_app, len_app.
  - eapply frame_trans; [apply (frame_log _ fs)|]. intros name _ Hp. by apply Hoth.
Qed.

Lemma new_segment_next b n fs l :
  CommitLog_new_segment b (fs, set_log_next n l) =
  let '(r, (fs', l')) := CommitLog_new_segment b (fs, l) in (r, (fs', set_log_next n l')).
Proof.
  unfold CommitLog_new_segment. cbn [fst snd log_index_interval set_log_next].
  by destruct (Segment_recover _) as [[e|x] [fs' g']].
Qed.

(** The active segment takes one batch; [l]'s own next offset is updated only after
    all batches are written. *)
Lemma write_active_spec fs l first ps p rs :
  log_wf fs (set_log_next (first + len (concat (ps ++ [p]))) l) first ps p →
  Forall rec_ok rs → contiguous first (concat (ps ++ [p]) ++ rs) →
  len (enc_all (concat (ps ++ [p]) ++ rs)) < 2 ^ 64 →
  ∃ i g, CommitLog_active (fs, l) = (inr (i, g), (fs, l)) ∧
    returns (on_segment i (write_batch (batch_marks (size g) rs) (enc_all rs) (size g + len (enc_all rs)))) (fs, l)
      (λ _ s', log_wf s'.1 (set_log_next (first + len (concat (ps ++ [p ++ rs]))) s'.2) first ps (p ++ rs) ∧
         max_segment_bytes s'.2 = max_segment_bytes l).
Proof.
  intros wf Hrs Hc Hfit.
  destruct (log_wf_last _ _ _ _ _ wf) as (gs & g & E & Hgs & Hg & Hbs & Hb & Hnin & Hnx). cbn in E.
  exists (length gs), g. split; [by apply CommitLog_active_run|].
  rewrite concat_snoc, <-app_assoc in Hc, Hfit. apply contiguous_app in Hc as [_ Hc]. rewrite <-Hb in Hc.
  eapply returns_mono.
  { eapply on_segment_returns; [by rewrite E, list_lookup_middle|].
    apply write_batch_spec; [done|done|done|].
    rewrite enc_all_app, len_app in Hfit. pose proof (len_nonneg (enc_all (concat ps))). lia. }
  intros _ [fs' l'] (g' & Hpost & El). cbn [fst snd] in *. subst l'.
  rewrite E, insert_app_r_alt, Nat.sub_diag by done. cbn [list_insert insert]. split; [|done].
  exact (log_wf_update_last _ _ _ _ _ _ _ _ _ _ wf E Hpost).
Qed.

(** Rolling between batches: [next_offset] is not advanced before the last batch. *)
Lemma roll_spec fs l first ps p o :
  log_wf fs (set_log_next o l) first ps p → p ≠ [] →
  returns (CommitLog_new_segment o) (fs, l) (λ _ s', log_wf s'.1 (set_log_next o s'.2) first (ps ++ [p]) []).
Proof.
  intros wf Hp. pose proof (new_segment_spec _ _ _ _ _ wf Hp) as Hnew. cbn [log_next_offset set_log_next] in Hnew.
  apply returns_inv in Hnew as (u & [fs2 l2] & En & wf2 & _). rewrite new_segment_next in En. unfold returns.
  destruct (CommitLog_new_segment o (fs, l)) as [[e|u'] [fs2' l2']]; [done|]. by injection En as -> -> <-.
Qed.

Lemma append_batches_spec fuel : ∀ rs fs l first ps p,
  (length rs ≤ fuel)%nat →
  log_wf fs (set_log_next (first + len (concat (ps ++ [p]))) l) first ps p →
  Forall rec_ok rs → contiguous first (concat (ps ++ [p]) ++ rs) →
  len (enc_all (concat (ps ++ [p]) ++ rs)) < 2 ^ 64 →
  returns (append_batches fuel (item_of <$> rs)) (fs, l)
    (λ _ s', ∃ ps' p', log_wf s'.1 (set_log_next (first + len (concat (ps' ++ [p']))) s'.2) first ps' p' ∧
       concat (ps' ++ [p']) = concat (ps ++ [p]) ++ rs).
Proof.
  induction fuel as [|fuel IH]; intros rs fs l first ps p Hlen wf Hrs Hc Hfit.
  { destruct rs; [|simpl in Hlen; lia]. apply returns_ret. exists ps, p. by rewrite app_nil_r. }
  destruct rs as [|r0 rs0] eqn:Ers; [apply returns_ret; exists ps, p; by rewrite app_nil_r|].
  rewrite <-Ers in *. assert (rs ≠ []) as Hne by by rewrite Ers.
  assert (append_batches (S fuel) (item_of <$> rs) =
    (l ← this; '(i, active) ← CommitLog_active;
     '(ms, blob, pos, rest) ← lift (gather_batch (max_segment_bytes l) false (size active) (item_of <$> rs));
     _ ← on_segment i (write_batch ms blob pos);
     _ ← match rest with [] => mret () | (o, _, _) :: _ => CommitLog_new_segment o end;
     append_batches fuel rest)) as -> by by rewrite Ers.
  clear Ers r0 rs0. apply returns_bind. eapply returns_intro; [reflexivity|]. cbn [fst snd].
  destruct (gather_batch_spec (max_segment_bytes l) rs false
    (size (default (Segment_init 0 0) (last (segments l)))) Hrs) as (k & Hk & Hpos & Eg).
  specialize (Hpos eq_refl Hne).
  rewrite <-(take_drop k rs) in Hrs, Hc, Hfit. apply Forall_app in Hrs as [Hrs1 Hrs2].
  rewrite app_assoc in Hc, Hfit. apply contiguous_app in Hc as Hc'. destruct Hc' as [Hc1 Hc2].
  pose proof (enc_all_le (concat (ps ++ [p]) ++ take k rs) (drop k rs)).
  destruct (write_active_spec fs l first ps p (take k rs) wf Hrs1 Hc1 ltac:(lia)) as (i & g & Eact & Hw).
  assert (default (Segment_init 0 0) (last (segments l)) = g) as Eg0.
  { destruct (log_wf_last _ _ _ _ _ wf) as (gs & g1 & E & _). cbn in E.
    rewrite (CommitLog_active_run _ _ _ _ E) in Eact. injection Eact as _ ->. by rewrite E, last_snoc. }
  rewrite Eg0 in Eg.
  apply returns_bind. eapply returns_intro; [done|]. cbv beta iota.
  apply returns_bind. eapply returns_intro; [unfold lift; by rewrite Eg|]. cbv beta iota.
  apply returns_bind. eapply returns_mono; [exact Hw|]. intros _ [fs1 l1] [wf1 _]. cbn [fst snd] in *.
  assert (concat (ps ++ [p ++ take k rs]) = concat (ps ++ [p]) ++ take k rs) as Ec
    by by rewrite !concat_snoc, app_assoc.
  destruct (drop k rs) as [|r rest] eqn:Ed.
  - apply returns_bind, returns_ret.
    assert (append_batches fuel [] = mret ()) as Eb by by destruct fuel. cbn [fmap list_fmap]. rewrite Eb.
    apply returns_ret. exists ps, (p ++ take k rs). split; [done|].
    rewrite Ec. f_equal. rewrite <-(take_drop k rs) at 2. by rewrite Ed, app_nil_r.
  - cbn [fmap list_fmap item_of]. fold (item_of r). change (list_fmap LogRec Item item_of rest) with (item_of <$> rest).
    assert (p ++ take k rs ≠ []) as Hne1.
    { destruct rs as [|r1 rs1]; [done|]. destruct k as [|k]; [lia|]. by destruct p. }
    assert (rec_offset r = first + len (concat (ps ++ [p ++ take k rs]))) as Ho.
    { rewrite Ec. rewrite (Hc2 O r) by done. lia. }
    rewrite <-Ho in wf1. apply returns_bind. eapply returns_mono; [by apply (roll_spec fs1 l1 first ps (p ++ take k rs))|].
    intros _ [fs2 l2'] wf2. cbn [fst snd] in wf2.
    assert (concat ((ps ++ [p ++ take k rs]) ++ [[]]) = concat (ps ++ [p]) ++ take k rs) as Ec2.
    { by rewrite (concat_snoc (ps ++ [_])), app_nil_r. }
    eapply returns_mono.
    { apply (IH (r :: rest) fs2 l2' first (ps ++ [p ++ take k rs]) []).
      - rewrite <-Ed, length_drop. lia.
      - rewrite Ec2, <-Ec, <-Ho. exact wf2.
      - done.
      - by rewrite Ec2.
      - by rewrite Ec2. }
    intros _ s' (ps' & p' & wf' & E'). exists ps', p'. split; [done|].
    by rewrite E', Ec2, <-app_assoc, <-Ed, take_drop.
Qed.

(** The records a batch stands for. *)
Fixpoint batch_records (next : Z) (payloads : list bytes) (timestamps : list Z) : list LogRec :=
  match payloads, timestamps with
  | p :: ps, t :: ts => mkRec next t p :: batch_records (next + 1) ps ts
  | _, _ => []
  end.

Lemma batch_records_items next payloads timestamps :
  (length payloads ≤ length timestamps)%nat →
  imap (λ j p, (next + Z.of_nat j, p, timestamps !! j)) payloads
    = item_of <$> batch_records next payloads timestamps.
Proof.
  revert next timestamps. induction payloads as [|p ps IH]; intros next [|t ts] Hl; simpl in Hl; try done; [lia|].
  cbn. rewrite Z.add_0_r. unfold item_of at 1. cbn. f_equal.
  rewrite <-IH by lia. apply imap_ext. intros i x _. cbn. do 2 f_equal. lia.
Qed.

Lemma batch_records_offsets next payloads timestamps :
  (length payloads ≤ length timestamps)%nat →
  (λ j, next + Z.of_nat j) <$> seq 0 (length payloads)
    = rec_offset <$> batch_records next payloads timestamps.
Proof.
  revert next timestamps. induction payloads as [|p ps IH]; intros next [|t ts] Hl; simpl in Hl; try done; [lia|].
  cbn. rewrite Z.add_0_r. f_equal. rewrite <-IH by lia. rewrite <-fmap_S_seq, <-list_fmap_compose.
  apply list_fmap_ext. intros i x _. cbn. lia.
Qed.

Lemma batch_records_contiguous next payloads timestamps :
  contiguous next (batch_records next payloads timestamps).
Proof.
  revert next timestamps. induction payloads as [|p ps IH]; intros next [|t ts] i r Hi; try by destruct i.
  destruct i as [|i]; cbn in Hi; [injection Hi as <-; cbn; lia|].
  rewrite (IH _ _ _ _ Hi). lia.
Qed.

Lemma length_batch_records next payloads timestamps :
  (length payloads ≤ length timestamps)%nat →
  length (batch_records next payloads timestamps) = length payloads.
Proof.
  revert next timestamps. induction payloads as [|p ps IH]; intros next [|t ts] Hl; simpl in Hl; try done; [lia|].
  cbn. rewrite IH by lia. done.
Qed.

(** [append_many] adds the batch in order and returns its offsets, however it is
    spread over segments. *)
Lemma append_many_spec fs l first ps p payloads timestamps now :
  log_wf fs l first ps p →
  let ts := default (replicate (length payloads) now) timestamps in
  let rs := batch_records (log_next_offset l) payloads ts in
  (length payloads ≤ length ts)%nat →
  Forall rec_ok rs → len (enc_all (concat (ps ++ [p]) ++ rs)) < 2 ^ 64 →
  returns (CommitLog_append_many payloads timestamps now) (fs, l)
    (λ offsets s', offsets = rec_offset <$> rs ∧
       ∃ ps' p', log_wf s'.1 s'.2 first ps' p' ∧ concat (ps' ++ [p']) = concat (ps ++ [p]) ++ rs).
Proof.
  intros wf ts rs Hlen Hok Hfit. unfold CommitLog_append_many. case_bool_decide as Hnil.
  { unfold rs. rewrite Hnil. apply returns_ret. split; [done|]. exists ps, p. by rewrite app_nil_r. }
  apply returns_bind. eapply returns_intro; [reflexivity|]. cbn [fst snd]. fold ts.
  rewrite (batch_records_items _ _ _ Hlen), (batch_records_offsets _ _ _ Hlen). fold rs.
  pose proof (lw_next _ _ _ _ _ wf) as Hnext.
  assert (log_wf fs (set_log_next (first + len (concat (ps ++ [p]))) l) first ps p) as wf'.
  { rewrite <-Hnext. by destruct l. }
  destruct (log_wf_facts _ _ _ _ _ wf) as [_ Hc].
  apply returns_bind. eapply returns_mono.
  { apply (append_batches_spec _ rs fs l first ps p); [|done|done| |done].
    - unfold rs. by rewrite length_batch_records.
    - apply contiguous_app. split; [done|]. rewrite <-Hnext. apply batch_records_contiguous. }
  intros _ [fs1 l1] (ps' & p' & wf1 & Ec). cbn [fst snd] in *.
  apply returns_bind. eapply returns_intro; [reflexivity|]. cbn [fst snd].
  apply returns_ret. split; [done|]. exists ps', p'. split; [|done]. cbn [fst snd].
  replace (log_next_offset l + Z.of_nat (length payloads)) with (first + len (concat (ps' ++ [p']))); [done|].
  assert (len rs = Z.of_nat (length payloads)) by (unfold len, rs; by rewrite length_batch_records).
  rewrite Ec, len_app. lia.
Qed.
