(* ===== verification/Handles.v ===== *)
(** * Segments with their file handles (pylog/log.py, class [Segment])

    The methods of [Segment] as they go to the operating system: names lead to inodes,
    the append, index and read handles and the mmap are kept open between calls, and
    the read handle has a buffer.  Segment has the same methods over a map from names
    to contents; HandleFacts shows that they cannot be told apart. *)
From S2P Require Import Prelude Bytes LogRecord FileSystem Segment CommitLog.
Local Open Scope Z_scope.

(** ** The operating system

    A directory, and the contents of the inodes.  An inode that no name leads to is
    still there for the handles on it. *)
Record Disk := mkDisk {
  names : gmap string nat;
  inodes : list bytes;
}.
#[export] Instance Disk_eta : Eta Disk := λ d, mkDisk (names d) (inodes d).

Definition content (d : Disk) (i : nat) : bytes := default [] (inodes d !! i).

(** What a reader of the directory sees. *)
Definition files (d : Disk) : FS := content d <$> names d.

(** [open(p, "ab")] and [open(p, "wb")]: the inode, made if there is none. *)
Definition open_append (p : string) (d : Disk) : nat * Disk :=
  match names d !! p with
  | Some i => (i, d)
  | None => (length (inodes d), mkDisk (<[p := length (inodes d)]> (names d)) (inodes d ++ [[]]))
  end.

Definition write_inode (i : nat) (data : bytes) (d : Disk) : Disk := d <| inodes := <[i := data]> (inodes d) |>.

Definition open_write (p : string) (d : Disk) : nat * Disk :=
  let '(i, d') := open_append p d in (i, write_inode i [] d').

(** [fh.write(data)] at the end of the file. *)
Definition fd_write (i : nat) (data : bytes) (d : Disk) : Disk := write_inode i (content d i ++ data) d.

Definition remove (p : string) (d : Disk) : Disk := d <| names := delete p (names d) |>.

(** ** Handles

    The attribute is [None] at first; [close_handles] closes the file and leaves it. *)
Inductive Handle (A : Type) : Type :=
  | NoHandle
  | ClosedHandle
  | OpenHandle (x : A).
Arguments NoHandle {A}.
Arguments ClosedHandle {A}.
Arguments OpenHandle {A}.

Definition close {A} (h : Handle A) : Handle A := match h with NoHandle => NoHandle | _ => ClosedHandle end.

(** The bytes a buffered reader holds, and where they start. *)
Record Buffer := mkBuffer { buf_start : nat; buf_bytes : bytes }.

(** What reading through a buffer shows of a file: its own bytes first. *)
Definition overlay (b : Buffer) (f : bytes) : bytes :=
  if bool_decide (buf_bytes b = []) then f
  else take (buf_start b) f ++ buf_bytes b ++ drop (buf_start b + length (buf_bytes b)) f.

(** [_log_fh], [_index_fh], [_read_fh], and [_mmap] with [_mmap_size]. *)
Record Handles := mkHandles {
  log_fh : Handle nat;
  index_fh : Handle nat;
  read_fh : Handle (nat * Buffer);
  mmap : option (nat * nat);
}.
#[export] Instance Handles_eta : Eta Handles := λ h, mkHandles (log_fh h) (index_fh h) (read_fh h) (mmap h).

Definition no_handles : Handles := mkHandles NoHandle NoHandle NoHandle None.

(** A segment object: its fields and its handles. *)
Abbreviation HandleM := (M (Disk * (Handles * Segment))).

Definition on_disk (f : Disk → Disk) : HandleM () := modify (λ s, (f s.1, s.2)).
Definition on_handles (f : Handles → Handles) : HandleM () := modify (λ s, (s.1, (f s.2.1, s.2.2))).
Definition on_fields (f : Segment → Segment) : HandleM () := modify (λ s, (s.1, (s.2.1, f s.2.2))).
Definition fields : HandleM Segment := gets (λ s, s.2.2).
Definition handles : HandleM Handles := gets (λ s, s.2.1).
Definition the_disk : HandleM Disk := gets fst.

Definition opened {A} (f : Disk → A * Disk) : HandleM A := λ s, let '(x, d) := f s.1 in (inr x, (d, s.2)).

(** [open(p, "rb")] *)
Definition open_read (p : string) : HandleM nat :=
  d ← the_disk;
  match names d !! p with Some i => mret i | None => raise FileNotFoundError end.

(** [os.path.getsize(p)] *)
Definition getsize (p : string) : HandleM Z :=
  i ← open_read p;
  d ← the_disk;
  mret (len (content d i)).

Definition Segment_append_handle : HandleM nat :=
  h ← handles;
  match log_fh h with
  | OpenHandle i => mret i
  | _ =>
      g ← fields;
      i ← opened (open_append (log_path g));
      _ ← on_handles (λ h, h <| log_fh := OpenHandle i |>);
      mret i
  end.

Definition Segment_index_handle : HandleM nat :=
  h ← handles;
  match index_fh h with
  | OpenHandle i => mret i
  | _ =>
      g ← fields;
      i ← opened (open_append (index_path g));
      _ ← on_handles (λ h, h <| index_fh := OpenHandle i |>);
      mret i
  end.

Definition Segment_read_handle : HandleM (nat * Buffer) :=
  h ← handles;
  match read_fh h with
  | OpenHandle f => mret f
  | _ =>
      g ← fields;
      i ← open_read (log_path g);
      _ ← on_handles (λ h, h <| read_fh := OpenHandle (i, mkBuffer 0 []) |>);
      mret (i, mkBuffer 0 [])
  end.

(** The mapped inode and how much of it is mapped; a mapping of another size than the
    file's is replaced. *)
Definition Segment_mmap_handle : HandleM (option (nat * nat)) :=
  g ← fields;
  d ← the_disk;
  let size := match names d !! log_path g with Some i => length (content d i) | None => 0%nat end in
  if bool_decide (size = 0%nat) then mret None
  else
    h ← handles;
    _ ← match mmap h with
        | Some (_, mapped) =>
            if bool_decide (mapped ≠ size) then
              i ← open_read (log_path g);
              on_handles (λ h, h <| mmap := Some (i, size) |>)
            else mret ()
        | None =>
            i ← open_read (log_path g);
            on_handles (λ h, h <| mmap := Some (i, size) |>)
        end;
    h ← handles;
    mret (mmap h).

Definition Segment_close_handles : HandleM () :=
  on_handles (λ h, mkHandles (close (log_fh h)) (close (index_fh h)) (close (read_fh h)) None).

(** ** The methods *)

Definition write_index_entry_h (e : Z * Z) : HandleM () :=
  fh ← Segment_index_handle;
  data ← lift (index_entry_pack e);
  on_disk (fd_write fh data).

Definition Segment_maybe_index_h (abs_offset position : Z) : HandleM () :=
  g ← fields;
  let rel := abs_offset - base_offset g in
  when (index_due g position) (
    _ ← on_fields (set_index (index g ++ [(rel, position)]));
    _ ← write_index_entry_h (rel, position);
    on_fields (set_last_indexed position)).

Definition Segment_rewrite_index_h : HandleM () :=
  g ← fields;
  f ← opened (open_write (index_path g));
  for_each (index g) (λ e,
    data ← lift (index_entry_pack e);
    on_disk (fd_write f data)).

Fixpoint recover_loop_h (fuel : nat) (f : bytes) (position good_size next : Z) : HandleM (Z * Z) :=
  match fuel with
  | O => mret (good_size, next)
  | S fuel' =>
      match read_record f with
      | (inl _, _) => mret (good_size, next)
      | (inr None, _) => mret (good_size, next)
      | (inr (Some rec), f') =>
          _ ← Segment_maybe_index_h (rec_offset rec) position;
          _ ← on_fields (λ g, set_max_timestamp (Z.max (max_timestamp g) (rec_timestamp rec)) g);
          let tell := position + (len f - len f') in
          recover_loop_h fuel' f' tell tell (rec_offset rec + 1)
      end
  end.

(** [with open(p, "r+b") as f: f.truncate(n)] *)
Definition truncate_path (p : string) (n : Z) : HandleM () :=
  i ← open_read p;
  on_disk (λ d, write_inode i (truncate_to n (content d i)) d).

Definition Segment_recover_h : HandleM Z :=
  _ ← Segment_close_handles;
  _ ← on_fields Segment_reset;
  g ← fields;
  d ← the_disk;
  match names d !! log_path g with
  | None =>
      _ ← opened (open_write (log_path g));
      _ ← opened (open_write (index_path g));
      mret (base_offset g)
  | Some i =>
      let f := content d i in
      '(good_size, next) ← recover_loop_h (S (length f)) f 0 0 (base_offset g);
      size ← getsize (log_path g);
      _ ← when (good_size <? size) (truncate_path (log_path g) good_size);
      _ ← on_fields (set_size good_size);
      _ ← on_fields (set_next_offset next);
      _ ← Segment_rewrite_index_h;
      mret next
  end.

Definition Segment_append_h (offset : Z) (record_bytes : bytes) (timestamp : Z) : HandleM () :=
  g ← fields;
  let position := size g in
  fh ← Segment_append_handle;
  _ ← on_disk (fd_write fh record_bytes);
  _ ← on_fields (λ g, set_size (size g + len record_bytes) g);
  _ ← on_fields (λ g, if max_timestamp g <? timestamp then set_max_timestamp timestamp g else g);
  _ ← on_fields (set_next_offset (offset + 1));
  let rel := offset - base_offset g in
  g ← fields;
  when (index_due g position) (
    _ ← on_fields (set_index (index g ++ [(rel, position)]));
    _ ← write_index_entry_h (rel, position);
    on_fields (set_last_indexed position)).

(** ** Reading *)

(** A batch of [append_many]. *)
Definition write_batch_h (ms : list (Z * Z * Z)) (blob : bytes) (pos : Z) : HandleM () :=
  fh ← Segment_append_handle;
  _ ← on_disk (fd_write fh blob);
  _ ← for_each ms (λ '(o, p, t),
        _ ← Segment_maybe_index_h o p;
        _ ← on_fields (set_next_offset (o + 1));
        on_fields (λ g, if max_timestamp g <? t then set_max_timestamp t g else g));
  on_fields (set_size pos).

Section methods.
(** Which part of the file is in the buffer after a scan from a position. *)
Context (readahead : Z → bytes → nat * nat).

(** [f.seek(start_pos)] and the bytes that are read from there on; the buffer moves. *)
Definition read_from (start_pos : Z) : HandleM bytes :=
  '(i, b) ← Segment_read_handle;
  d ← the_disk;
  let f := overlay b (content d i) in
  let '(from, count) := readahead start_pos f in
  _ ← on_handles (λ h, h <| read_fh := OpenHandle (i, mkBuffer from (take count (drop from f))) |>);
  mret (drop (Z.to_nat start_pos) f).

(** The scan over the mmap, where seeking past the end raises and so falls through to
    the scan over the read handle. *)
Definition Segment_read_h (abs_offset : Z) : HandleM (option LogRec) :=
  g ← fields;
  if (abs_offset <? base_offset g) || (next_offset g <=? abs_offset) then mret None
  else
    let rel_target := abs_offset - base_offset g in
    let '(_, start_pos) := index_start (index g) rel_target in
    mm ← Segment_mmap_handle;
    d ← the_disk;
    match mm with
    | Some (i, mapped) =>
        if start_pos <=? Z.of_nat mapped then
          let f := drop (Z.to_nat start_pos) (take mapped (content d i)) in
          mret (scan_record (S (length f)) f abs_offset)
        else
          f ← read_from start_pos;
          mret (scan_record (S (length f)) f abs_offset)
    | None =>
        f ← read_from start_pos;
        mret (scan_record (S (length f)) f abs_offset)
    end.

Definition Segment_position_of_h (abs_offset : Z) : HandleM (option Z) :=
  g ← fields;
  if (abs_offset <? base_offset g) || (next_offset g <=? abs_offset) then mret None
  else
    let rel_target := abs_offset - base_offset g in
    let '(_, start_pos) := index_start (index g) rel_target in
    f ← read_from start_pos;
    mret (scan_position (S (length f)) f start_pos abs_offset).

Definition Segment_truncate_from_h (abs_offset : Z) : HandleM bool :=
  g ← fields;
  if abs_offset <=? base_offset g then
    let changed := (0 <? size g) || negb (next_offset g =? base_offset g) in
    _ ← Segment_close_handles;
    _ ← opened (open_write (log_path g));
    _ ← on_fields Segment_reset;
    _ ← Segment_rewrite_index_h;
    mret changed
  else
    p ← Segment_position_of_h abs_offset;
    match p with
    | None => mret false
    | Some position =>
        _ ← Segment_close_handles;
        _ ← truncate_path (log_path g) position;
        _ ← on_fields (set_size position);
        _ ← on_fields (set_next_offset abs_offset);
        let rel_cut := abs_offset - base_offset g in
        let idx := filter (λ e, e.1 < rel_cut) (index g) in
        _ ← on_fields (set_index idx);
        _ ← on_fields (set_last_indexed (default (-1) (snd <$> last idx)));
        _ ← Segment_rewrite_index_h;
        mret true
    end.

Definition Segment_delete_h : HandleM () :=
  _ ← Segment_close_handles;
  g ← fields;
  _ ← on_disk (remove (log_path g));
  on_disk (remove (index_path g)).
End methods.

(** ** A directory of segments

    What [CommitLog] does with the segment objects of its directory, with and without
    handles. *)
Inductive SegCall : Type :=
  | CallRecover
  | CallAppend (offset : Z) (record : bytes) (timestamp : Z)
  | CallBatch (ms : list (Z * Z * Z)) (blob : bytes) (pos : Z)
  | CallRead (offset : Z)
  | CallPositionOf (offset : Z)
  | CallTruncateFrom (offset : Z)
  | CallCloseHandles.

Inductive SegResult : Type :=
  | Done
  | Number (n : Z)
  | Changed (b : bool)
  | Found (r : option LogRec)
  | Position (p : option Z).

(** A new object, a call on the [i]-th, its deletion, [close] of the log, and its
    [recover], which forgets all objects and makes new ones. *)
Inductive DirCall : Type :=
  | NewSegment (base interval : Z)
  | CloseLog
  | OnSegment (i : nat) (c : SegCall)
  | DeleteSegment (i : nat)
  | ReopenSegments (bases : list Z) (interval : Z).

Section directory.
Context {S Obj : Type} (call : SegCall → M (S * Obj) SegResult) (delete_files : M (S * Obj) ()) (make : Z → Z → Obj).

Definition on_object {A} (i : nat) (m : M (S * Obj) A) : M (S * list Obj) A := λ s,
  match s.2 !! i with
  | None => (inl IndexError, s)
  | Some o => let '(r, (d, o')) := m (s.1, o) in (r, (d, <[i := o']> s.2))
  end.

Definition CommitLog_close : M (S * list Obj) () :=
  segments ← gets snd;
  for_each (seq 0 (length segments)) (λ i, _ ← on_object i (call CallCloseHandles); mret ()).

Definition dir_call (c : DirCall) : M (S * list Obj) SegResult :=
  match c with
  | CloseLog => _ ← CommitLog_close; mret Done
  | NewSegment base interval => _ ← modify (λ s, (s.1, s.2 ++ [make base interval])); mret Done
  | OnSegment i c => on_object i (call c)
  | DeleteSegment i => _ ← on_object i delete_files; _ ← modify (λ s, (s.1, delete i s.2)); mret Done
  | ReopenSegments bases interval => _ ← modify (λ s, (s.1, (λ b, make b interval) <$> bases)); mret Done
  end.

(** The results of a script; what raises does not stop it. *)
Fixpoint dir_run (cs : list DirCall) (s : S * list Obj) : list (Exn + SegResult) * (S * list Obj) :=
  match cs with
  | [] => ([], s)
  | c :: cs' => let '(r, s1) := dir_call c s in let '(rs, s2) := dir_run cs' s1 in (r :: rs, s2)
  end.
End directory.

Definition seg_call (c : SegCall) : SegM SegResult :=
  match c with
  | CallRecover => n ← Segment_recover; mret (Number n)
  | CallAppend o r t => _ ← Segment_append o r t; mret Done
  | CallBatch ms blob pos => _ ← write_batch ms blob pos; mret Done
  | CallRead o => r ← Segment_read o; mret (Found r)
  | CallPositionOf o => p ← Segment_position_of o; mret (Position p)
  | CallTruncateFrom o => b ← Segment_truncate_from o; mret (Changed b)
  | CallCloseHandles => mret Done
  end.

Definition seg_call_h (readahead : Z → bytes → nat * nat) (c : SegCall) : HandleM SegResult :=
  match c with
  | CallRecover => n ← Segment_recover_h; mret (Number n)
  | CallAppend o r t => _ ← Segment_append_h o r t; mret Done
  | CallBatch ms blob pos => _ ← write_batch_h ms blob pos; mret Done
  | CallRead o => r ← Segment_read_h readahead o; mret (Found r)
  | CallPositionOf o => p ← Segment_position_of_h readahead o; mret (Position p)
  | CallTruncateFrom o => b ← Segment_truncate_from_h readahead o; mret (Changed b)
  | CallCloseHandles => _ ← Segment_close_handles; mret Done
  end.

(** The directory as a map, and the directory with handles. *)
Definition run_plain : list DirCall → FS * list Segment → list (Exn + SegResult) * (FS * list Segment) :=
  dir_run seg_call Segment_delete Segment_init.

Definition run_handles (readahead : Z → bytes → nat * nat) :
    list DirCall → Disk * list (Handles * Segment) → list (Exn + SegResult) * (Disk * list (Handles * Segment)) :=
  dir_run (seg_call_h readahead) Segment_delete_h (λ base interval, (no_handles, Segment_init base interval)).

(** Scripts that keep the base offsets apart, from the bases [bs] on. *)
Fixpoint script_ok (cs : list DirCall) (bs : list Z) : bool :=
  match cs with
  | [] => true
  | NewSegment b _ :: cs' => bool_decide (0 <= b ∧ b ∉ bs) && script_ok cs' (bs ++ [b])
  | OnSegment _ _ :: cs' | CloseLog :: cs' => script_ok cs' bs
  | DeleteSegment i :: cs' => script_ok cs' (if bool_decide (i < length bs)%nat then delete i bs else bs)
  | ReopenSegments bs' _ :: cs' => bool_decide (NoDup bs' ∧ Forall (λ b, 0 <= b) bs') && script_ok cs' bs'
  end.
