(* ===== verification/HandleFacts.v ===== *)
(** * File handles cannot be seen

    The methods of Handles and those of Segment, run side by side: they return or raise
    the same and leave the same files, because every open handle stays with the inode
    its path names and shows what is there now. *)
From S2P Require Import Prelude Bytes LogRecord FileSystem Segment SegmentFacts CommitLog Handles.
Local Open Scope Z_scope.

(** ** The disk *)

(** Names lead to inodes, each to its own. *)
Record disk_ok (d : Disk) : Prop := {
  dk_bound p i : names d !! p = Some i → (i < length (inodes d))%nat;
  dk_inj p q i : names d !! p = Some i → names d !! q = Some i → p = q;
}.

Lemma content_write i j data d : (i < length (inodes d))%nat → content (write_inode i data d) j = if decide (j = i) then data else content d j.
Proof.
  intros Hi. unfold content, write_inode. cbn. case_decide as E.
  - subst. by rewrite list_lookup_insert_eq.
  - by rewrite list_lookup_insert_ne.
Qed.

Lemma write_inode_ok i data d : disk_ok d → disk_ok (write_inode i data d).
Proof. intros [Hb Hi]. split; cbn; [|exact Hi]. intros p j Hj. rewrite length_insert. by eapply Hb. Qed.

(** Writing to the inode of [p] is writing to [p]. *)
Lemma write_inode_files p i data d :
  disk_ok d → names d !! p = Some i → files (write_inode i data d) = <[p := data]> (files d).
Proof.
  intros Hd Hp. apply map_eq. intros q. unfold files. rewrite lookup_fmap. cbn.
  pose proof (dk_bound _ Hd _ _ Hp) as Hi. destruct (decide (q = p)) as [->|Hq].
  - rewrite lookup_insert_eq, Hp. cbn. by rewrite content_write, decide_True.
  - rewrite lookup_insert_ne, lookup_fmap by done. destruct (names d !! q) as [j|] eqn:Ej; [|done]. cbn.
    rewrite content_write, decide_False; [done| |done]. intros ->. by apply Hq, (dk_inj _ Hd _ _ _ Ej Hp).
Qed.

Lemma files_lookup d p i : names d !! p = Some i → files d !! p = Some (content d i).
Proof. intros Hp. unfold files. by rewrite lookup_fmap, Hp. Qed.

Lemma files_none d p : names d !! p = None → files d !! p = None.
Proof. intros Hp. unfold files. by rewrite lookup_fmap, Hp. Qed.

(** [d'] has the inodes of [d], under the same names, except for [p]'s. *)
Definition elsewhere (p : string) (d d' : Disk) : Prop :=
  ∀ q, q ≠ p → names d' !! q = names d !! q ∧ ∀ i, names d !! q = Some i → content d' i = content d i.

Lemma open_append_spec p d i d' :
  disk_ok d → open_append p d = (i, d') →
  disk_ok d' ∧ names d' !! p = Some i ∧ files d' = fs_append p [] (files d) ∧ elsewhere p d d' ∧
  (∀ j, names d !! p = Some j → j = i ∧ d' = d).
Proof.
  intros Hd. unfold open_append. destruct (names d !! p) as [j|] eqn:Ej.
  - intros [= <- <-]. split_and!; [done|done| | |].
    + unfold fs_append. rewrite (files_lookup _ _ _ Ej). cbn. rewrite app_nil_r. symmetry. by apply insert_id, files_lookup.
    + by intros q _.
    + by intros ? [= ->].
  - intros [= <- <-]. assert (∀ q j, names d !! q = Some j → content (mkDisk (<[p:=length (inodes d)]> (names d)) (inodes d ++ [[]])) j = content d j) as Hc.
    { intros q j Hj. unfold content. cbn. rewrite lookup_app_l; [done|]. by eapply dk_bound. }
    split_and!.
    + split; cbn.
      * intros q k. rewrite length_app. cbn. destruct (decide (q = p)) as [->|Hq].
        -- rewrite lookup_insert_eq. intros [= <-]. lia.
        -- rewrite lookup_insert_ne by done. intros Hk. pose proof (dk_bound _ Hd _ _ Hk). lia.
      * intros q r k. destruct (decide (q = p)) as [->|Hq], (decide (r = p)) as [->|Hr]; rewrite ?lookup_insert_eq, ?lookup_insert_ne by done; [done|..].
        -- intros [= <-] Hk. pose proof (dk_bound _ Hd _ _ Hk). lia.
        -- intros Hk [= <-]. pose proof (dk_bound _ Hd _ _ Hk). lia.
        -- apply (dk_inj _ Hd).
    + cbn. by rewrite lookup_insert_eq.
    + apply map_eq. intros q. unfold files, fs_append. rewrite lookup_fmap. cbn. destruct (decide (q = p)) as [->|Hq].
      * rewrite !lookup_insert_eq, lookup_fmap, Ej. cbn. unfold content. cbn. by rewrite lookup_app_r, Nat.sub_diag.
      * rewrite !lookup_insert_ne, lookup_fmap by done. destruct (names d !! q) as [j|] eqn:Hj; [|done]. cbn. f_equal. by apply (Hc q).
    + intros q Hq. cbn. rewrite lookup_insert_ne by done. split; [done|]. apply Hc.
    + done.
Qed.

Lemma write_elsewhere p i data d : disk_ok d → names d !! p = Some i → elsewhere p d (write_inode i data d).
Proof.
  intros Hd Hp q Hq. split; [done|]. intros j Hj. rewrite content_write by by eapply dk_bound.
  rewrite decide_False; [done|]. intros ->. by apply Hq, (dk_inj _ Hd _ _ _ Hj Hp).
Qed.

Lemma elsewhere_trans p d1 d2 d3 : elsewhere p d1 d2 → elsewhere p d2 d3 → elsewhere p d1 d3.
Proof.
  intros H1 H2 q Hq. destruct (H1 q Hq) as [E1 C1], (H2 q Hq) as [E2 C2]. split; [congruence|].
  intros i Hi. rewrite C2 by congruence. by apply C1.
Qed.

Lemma open_write_spec p d i d' :
  disk_ok d → open_write p d = (i, d') →
  disk_ok d' ∧ names d' !! p = Some i ∧ files d' = fs_write p [] (files d) ∧ elsewhere p d d' ∧
  (∀ j, names d !! p = Some j → j = i).
Proof.
  intros Hd. unfold open_write. destruct (open_append p d) as [j d1] eqn:E. intros [= -> <-].
  destruct (open_append_spec _ _ _ _ Hd E) as (Hd1 & Hp & Hf & He & Hj). split_and!.
  - by apply write_inode_ok.
  - done.
  - rewrite (write_inode_files p) by done. rewrite Hf. unfold fs_append, fs_write. by rewrite insert_insert_eq.
  - eapply elsewhere_trans; [done|]. by apply write_elsewhere.
  - intros k Hk. by apply Hj in Hk as [-> _].
Qed.

Lemma fd_write_files p i data d : disk_ok d → names d !! p = Some i → files (fd_write i data d) = fs_append p data (files d).
Proof.
  intros Hd Hp. unfold fd_write. rewrite (write_inode_files p) by done. unfold fs_append. by rewrite (files_lookup _ _ _ Hp).
Qed.

Lemma remove_ok p d : disk_ok d → disk_ok (remove p d) ∧ files (remove p d) = fs_remove p (files d).
Proof.
  intros [Hb Hi]. split.
  - split; cbn.
    + intros q i [_ Hq]%lookup_delete_Some. by eapply Hb.
    + intros q r i [_ Hq]%lookup_delete_Some [_ Hr]%lookup_delete_Some. by eapply Hi.
  - unfold files, fs_remove. cbn. by rewrite fmap_delete.
Qed.

(** ** Buffers *)

(** A buffer that shows what is in the file. *)
Definition shows (b : Buffer) (f : bytes) : Prop :=
  buf_bytes b = [] ∨ buf_bytes b = take (length (buf_bytes b)) (drop (buf_start b) f).

Lemma shows_overlay b f : shows b f → overlay b f = f.
Proof.
  intros Hb. unfold overlay. case_bool_decide as E; [done|]. destruct Hb as [?|Hb]; [done|].
  rewrite Hb at 1. rewrite <-drop_drop, (take_drop (length (buf_bytes b))). apply take_drop.
Qed.

(** Files that are open only grow. *)
Lemma shows_grow b f d : shows b f → shows b (f ++ d).
Proof.
  intros [Hb|Hb]; [by left|right]. assert (length (buf_bytes b) ≤ length (drop (buf_start b) f))%nat as Hl.
  { pose proof (f_equal length Hb) as E. rewrite length_take in E. lia. }
  rewrite Hb at 1. rewrite length_drop in Hl. destruct (decide (buf_start b ≤ length f)%nat).
  - rewrite drop_app_le by done. rewrite take_app_le by (rewrite length_drop; lia). done.
  - destruct (buf_bytes b); [done|]. cbn in Hl. lia.
Qed.

Lemma shows_slice f from n : shows (mkBuffer from (take n (drop from f))) f.
Proof.
  right. cbn. rewrite length_take. destruct (decide (n ≤ length (drop from f))%nat).
  - by rewrite Nat.min_l.
  - rewrite Nat.min_r, !take_ge by lia. done.
Qed.

(** ** Handles that are up to date *)

(** Every open handle is on the inode its path names, and the buffer shows it. *)
Record handles_ok (d : Disk) (h : Handles) (base : Z) : Prop := {
  ho_log i : log_fh h = OpenHandle i → names d !! log_name base = Some i;
  ho_index i : index_fh h = OpenHandle i → names d !! index_name base = Some i;
  ho_read i b : read_fh h = OpenHandle (i, b) → names d !! log_name base = Some i ∧ shows b (content d i);
  ho_map i n : mmap h = Some (i, n) → names d !! log_name base = Some i;
}.

Definition not_reading (h : Handles) : Prop := ∀ f, read_fh h ≠ OpenHandle f.

Lemma no_handles_ok d base : handles_ok d no_handles base.
Proof. by split. Qed.

Lemma close_not_open {A} (h : Handle A) x : close h ≠ OpenHandle x.
Proof. by destruct h. Qed.

Lemma closed_ok d h base : handles_ok d (mkHandles (close (log_fh h)) (close (index_fh h)) (close (read_fh h)) None) base.
Proof. split; cbn; intros *; [intros E; by apply close_not_open in E..|done]. Qed.

Lemma handles_ok_apart d d' h base p :
  elsewhere p d d' → log_name base ≠ p → index_name base ≠ p → handles_ok d h base → handles_ok d' h base.
Proof.
  intros He Hl Hx [H1 H2 H3 H4]. destruct (He _ Hl) as [El Cl], (He _ Hx) as [Ex _]. split.
  - intros i Hi. rewrite El. by apply H1.
  - intros i Hi. rewrite Ex. by apply H2.
  - intros i b Hb. destruct (H3 _ _ Hb) as [Hn Hs]. rewrite El, Cl by done. done.
  - intros i n Hn. rewrite El. by eapply H4.
Qed.

Lemma handles_ok_index d d' h base :
  elsewhere (index_name base) d d' →
  (∀ j, names d !! index_name base = Some j → names d' !! index_name base = Some j) →
  handles_ok d h base → handles_ok d' h base.
Proof.
  intros He Hj [H1 H2 H3 H4]. destruct (He (log_name base) (log_index_ne base base)) as [El Cl]. split.
  - intros i Hi. rewrite El. by apply H1.
  - intros i Hi. by apply Hj, H2.
  - intros i b Hb. destruct (H3 _ _ Hb) as [Hn Hs]. rewrite El, Cl by done. done.
  - intros i n Hn. rewrite El. by eapply H4.
Qed.

Lemma handles_ok_log d d' h base :
  elsewhere (log_name base) d d' →
  (∀ j, names d !! log_name base = Some j → names d' !! log_name base = Some j) →
  (∀ i b, read_fh h = OpenHandle (i, b) → shows b (content d i) → shows b (content d' i)) →
  handles_ok d h base → handles_ok d' h base.
Proof.
  intros He Hj Hr [H1 H2 H3 H4]. destruct (He (index_name base)) as [Ex _]; [by intros E; symmetry in E; apply log_index_ne in E|]. split.
  - intros i Hi. by apply Hj, H1.
  - intros i Hi. rewrite Ex. by apply H2.
  - intros i b Hb. destruct (H3 _ _ Hb) as [Hn Hs]. split; [by apply Hj|by apply Hr].
  - intros i n Hn. eapply Hj, H4, Hn.
Qed.

(** ** Side by side *)

Section mirror.
Context (readahead : Z → bytes → nat * nat).
(** The segment, and the handles of the others in the directory. *)
Context (base : Z) (others : list (Z * Handles)).
Hypothesis Hothers : ∀ b h, (b, h) ∈ others → log_name b ≠ log_name base ∧ index_name b ≠ index_name base.

(** With [q], the read handle is not open. *)
Record mirror (q : bool) (s : Disk * (Handles * Segment)) (s' : FS * Segment) : Prop := {
  mi_disk : disk_ok s.1;
  mi_files : files s.1 = s'.1;
  mi_fields : s.2.2 = s'.2;
  mi_base : base_offset s'.2 = base;
  mi_own : handles_ok s.1 s.2.1 base;
  mi_others b h : (b, h) ∈ others → handles_ok s.1 h b;
  mi_quiet : q = true → not_reading s.2.1;
}.

Lemma mirror_weaken q s s' : mirror q s s' → mirror false s s'.
Proof. by intros []. Qed.

(** The same result, and mirrors again; after an exception the read handle may be open. *)
Definition mirrors_at {A} (q' : bool) (m : HandleM A) (m' : SegM A) s s' : Prop :=
  (m s).1 = (m' s').1 ∧ mirror (match (m s).1 with inl _ => false | inr _ => q' end) (m s).2 (m' s').2.

Definition mirrors {A} (q q' : bool) (m : HandleM A) (m' : SegM A) : Prop :=
  ∀ s s', mirror q s s' → mirrors_at q' m m' s s'.

Lemma mirrors_at_bind {A B} q1 q2 (m : HandleM A) m' (f : A → HandleM B) f' s s' :
  mirrors_at q1 m m' s s' →
  (∀ x s1 s1', m s = (inr x, s1) → m' s' = (inr x, s1') → mirror q1 s1 s1' → mirrors_at q2 (f x) (f' x) s1 s1') →
  mirrors_at q2 (m ≫= f) (m' ≫= f') s s'.
Proof.
  unfold mirrors_at. intros [E Hs1] Hf. unfold mbind, M_bind.
  destruct (m s) as [r s1], (m' s') as [r' s1']. cbn in E, Hs1. subst r'.
  destruct r as [e|x]; cbn; [done|]. by apply Hf.
Qed.

(** A step of one side only. *)
Lemma mirrors_at_left {A B} q (m : HandleM A) (f : A → HandleM B) k' x s s1 s' :
  m s = (inr x, s1) → mirrors_at q (f x) k' s1 s' → mirrors_at q (m ≫= f) k' s s'.
Proof. intros E H. unfold mirrors_at. by rewrite (bind_ok _ _ _ _ _ E). Qed.

Lemma mirrors_at_right {A B} q (m : SegM A) (k : HandleM B) f x s s' s1' :
  m s' = (inr x, s1') → mirrors_at q k (f x) s s1' → mirrors_at q k (m ≫= f) s s'.
Proof. intros E H. unfold mirrors_at. by rewrite (bind_ok _ _ _ _ _ E). Qed.

Lemma mirrors_bind {A B} q q1 q2 (m : HandleM A) m' (f : A → HandleM B) f' :
  mirrors q q1 m m' → (∀ x, mirrors q1 q2 (f x) (f' x)) → mirrors q q2 (m ≫= f) (m' ≫= f').
Proof.
  intros Hm Hf s s' Hs. eapply mirrors_at_bind; [by apply Hm|]. intros x s1 s1' _ _ Hs1. by apply Hf.
Qed.

Lemma mirrors_ret {A} q (x : A) : mirrors q q (mret x) (mret x).
Proof. by intros s s' Hs. Qed.

Lemma mirrors_lift {A} q (r : Exn + A) : mirrors q q (lift r) (lift r).
Proof. intros s s' Hs. split; [done|]. cbn. destruct r; [by eapply mirror_weaken|done]. Qed.

Lemma mirrors_end {A} q q' (m : HandleM A) m' : mirrors q q' m m' → mirrors q false m m'.
Proof.
  intros Hm s s' Hs. destruct (Hm s s' Hs) as [E Hs1]. split; [done|]. destruct (m s).1; [done|]. by eapply mirror_weaken.
Qed.

Lemma mirrors_fields {A} q q' (f : Segment → HandleM A) f' :
  (∀ g, base_offset g = base → mirrors q q' (f g) (f' g)) → mirrors q q' (fields ≫= f) (self ≫= f').
Proof.
  intros Hf s s' Hs. unfold mirrors_at, mbind, M_bind. cbn. rewrite (mi_fields _ _ _ Hs). apply Hf; [apply Hs|done].
Qed.

Lemma mirrors_on_fields q f : (∀ g, base_offset (f g) = base_offset g) → mirrors q q (on_fields f) (on_self f).
Proof. intros Hb s s' Hs. split; [done|]. destruct Hs. split; cbn in *; try done; [congruence|by rewrite Hb]. Qed.

Lemma mirrors_fields_then {A} q q' f (m : HandleM A) m' :
  (∀ g, base_offset (f g) = base_offset g) → mirrors q q' m m' → mirrors q q' (_ ← on_fields f; m) (_ ← on_self f; m').
Proof. intros Hf Hm. eapply mirrors_bind; [by apply mirrors_on_fields|]. by intros _. Qed.

Lemma mirrors_when q b (m : HandleM ()) m' : mirrors q q m m' → mirrors q q (when b m) (when b m').
Proof. intros Hm. destruct b; [done|apply mirrors_ret]. Qed.

Lemma mirrors_for_each {A} q (l : list A) (f : A → HandleM ()) f' :
  (∀ x, mirrors q q (f x) (f' x)) → mirrors q q (for_each l f) (for_each l f').
Proof.
  intros Hf. induction l as [|x l IH]; cbn [for_each]; [apply mirrors_ret|]. eapply mirrors_bind; [apply Hf|by intros _].
Qed.

(** *** Changes of the disk *)

Lemma mirror_index q d' s s' :
  mirror q s s' → disk_ok d' → elsewhere (index_name base) s.1 d' →
  (∀ j, names s.1 !! index_name base = Some j → names d' !! index_name base = Some j) →
  mirror q (d', s.2) (files d', s'.2).
Proof.
  intros [Hd Hf Hg Hb Ho Ht Hq] Hd' He Hj. split; cbn; try done.
  - by eapply handles_ok_index.
  - intros b h Hin. destruct (Hothers _ _ Hin) as [Hl Hx]. eapply handles_ok_apart; [done| |done|by apply Ht]. apply log_index_ne.
Qed.

Lemma mirror_log q d' s s' :
  mirror q s s' → disk_ok d' → elsewhere (log_name base) s.1 d' →
  (∀ j, names s.1 !! log_name base = Some j → names d' !! log_name base = Some j) →
  (∀ i b, read_fh s.2.1 = OpenHandle (i, b) → shows b (content s.1 i) → shows b (content d' i)) →
  mirror q (d', s.2) (files d', s'.2).
Proof.
  intros [Hd Hf Hg Hb Ho Ht Hq] Hd' He Hj Hr. split; cbn; try done.
  - by eapply handles_ok_log.
  - intros b h Hin. destruct (Hothers _ _ Hin) as [Hl Hx]. eapply handles_ok_apart; [done|done| |by apply Ht].
    intros E. symmetry in E. by apply log_index_ne in E.
Qed.

(** Replacing handles by others that are right. *)
Lemma mirror_handles q q' h' s s' :
  mirror q s s' → handles_ok s.1 h' base → (q' = true → not_reading h') → mirror q' (s.1, (h', s.2.2)) s'.
Proof. intros [Hd Hf Hg Hb Ho Ht Hq] Hh Hq'. by split. Qed.

(** *** Primitives *)

Lemma log_ne_index : log_name base ≠ index_name base.
Proof. apply log_index_ne. Qed.

Lemma index_ne_log : index_name base ≠ log_name base.
Proof. intros E. symmetry in E. by apply log_index_ne in E. Qed.

Lemma mirrors_close q : mirrors q true Segment_close_handles (mret ()).
Proof.
  intros s s' Hs. split; [done|]. cbn. eapply mirror_handles; [done|apply closed_ok|].
  intros _ f. apply close_not_open.
Qed.

Lemma mirrors_then_ret {A} q q' (m : HandleM ()) (k : HandleM A) (k' : SegM A) :
  mirrors q true m (mret ()) → mirrors true q' k k' → mirrors q q' (_ ← m; k) k'.
Proof. intros Hm Hk s s' Hs. exact (mirrors_bind _ _ _ m (mret ()) (λ _, k) (λ _, k') Hm (λ _, Hk) s s' Hs). Qed.

Ltac unfold_run :=
  unfold fields, handles, the_disk, on_fields, on_handles, on_disk, opened, self, on_self, on_fs, get_fs, gets, modify,
    lift, raise, mret, M_ret, mbind, M_bind; cbn [fst snd].

Lemma mirror_append_nil q p i s s' : mirror q s s' → names s.1 !! p = Some i → mirror q s (fs_append p [] s'.1, s'.2).
Proof.
  intros Hs Hn. unfold fs_append. rewrite <-(mi_files _ _ _ Hs), (files_lookup _ _ _ Hn). cbn.
  rewrite app_nil_r, insert_id by by apply files_lookup. destruct s'. cbn. by rewrite (mi_files _ _ _ Hs).
Qed.

(** The index handle, and what is written through it. *)
Lemma index_handle_run q s s' :
  mirror q s s' → ∃ i s1, Segment_index_handle s = (inr i, s1) ∧ names s1.1 !! index_name base = Some i ∧
    mirror q s1 (fs_append (index_name base) [] s'.1, s'.2).
Proof.
  intros Hs. pose proof (mi_fields _ _ _ Hs) as Hg. pose proof (mi_base _ _ _ Hs) as Hb.
  unfold Segment_index_handle. destruct (index_fh s.2.1) as [| |i] eqn:Eh.
  3: { assert (names s.1 !! index_name base = Some i) as Hn by by apply (ho_index _ _ _ (mi_own _ _ _ Hs)).
    exists i, s. split; [unfold_run; by rewrite Eh|]. split; [done|]. by eapply mirror_append_nil. }
  all: destruct (open_append (index_name base) s.1) as [i d'] eqn:Eo;
    destruct (open_append_spec _ _ _ _ (mi_disk _ _ _ Hs) Eo) as (Hd' & Hn & Hf & He & Hj);
    exists i; eexists; (split; [unfold_run; rewrite Eh; unfold index_path; rewrite Hg, Hb, Eo; reflexivity|]);
    (split; [done|]); rewrite <-(mi_files _ _ _ Hs), <-Hf;
    assert (mirror q (d', s.2) (files d', s'.2)) as Hs1
      by (apply mirror_index; [done..|]; intros j Hjn; by destruct (Hj _ Hjn) as [-> ->]);
    apply (mirror_handles q q _ _ _ Hs1); cbn;
      [destruct (mi_own _ _ _ Hs1) as [O1 O2 O3 O4]; split; cbn; [exact O1|by intros ? [= <-]|exact O3|exact O4]|apply Hs1].
Qed.

Lemma mirror_fd_index q i data s s' :
  mirror q s s' → names s.1 !! index_name base = Some i →
  mirror q (fd_write i data s.1, s.2) (fs_append (index_name base) data s'.1, s'.2).
Proof.
  intros Hs Hn. rewrite <-(mi_files _ _ _ Hs), <-(fd_write_files _ i) by (done || apply Hs).
  apply (mirror_index _ _ _ s' Hs); [by apply write_inode_ok, Hs|by apply write_elsewhere; [apply Hs|]|done].
Qed.

Lemma mirror_fd_log q i data s s' :
  mirror q s s' → names s.1 !! log_name base = Some i →
  mirror q (fd_write i data s.1, s.2) (fs_append (log_name base) data s'.1, s'.2).
Proof.
  intros Hs Hn. rewrite <-(mi_files _ _ _ Hs), <-(fd_write_files _ i) by (done || apply Hs).
  apply (mirror_log _ _ _ s' Hs); [by apply write_inode_ok, Hs|by apply write_elsewhere; [apply Hs|]|done|].
  intros j b Hj Hb. unfold fd_write. rewrite content_write by by eapply dk_bound, Hn; apply Hs.
  case_decide as E; [subst j|done]. by apply shows_grow.
Qed.

Lemma mirrors_write_index_entry q e : mirrors q q (write_index_entry_h e) (write_index_entry e).
Proof.
  intros s s' Hs. destruct (index_handle_run _ _ _ Hs) as (i & s1 & E & Hn & Hs1).
  assert (index_path s'.2 = index_name base) as Hp by (unfold index_path; by rewrite (mi_base _ _ _ Hs)).
  unfold mirrors_at, write_index_entry_h, write_index_entry. unfold_run. rewrite E, Hp.
  destruct (index_entry_pack e) as [x|data]; (split; [done|]); [by eapply mirror_weaken|].
  apply (mirror_fd_index _ _ _ _ _ Hs1 Hn).
Qed.

Lemma mirrors_maybe_index q o p : mirrors q q (Segment_maybe_index_h o p) (Segment_maybe_index o p).
Proof.
  apply mirrors_fields. intros g Hg. apply mirrors_when.
  eapply mirrors_bind; [by apply mirrors_on_fields|]. intros _.
  eapply mirrors_bind; [apply mirrors_write_index_entry|]. intros _. by apply mirrors_on_fields.
Qed.

(** Writing the index anew, where the file is open for all entries. *)
Lemma mirrors_fd_entries q i es s s' :
  mirror q s s' → names s.1 !! index_name base = Some i →
  let m := for_each es (λ e, data ← lift (index_entry_pack e); on_disk (fd_write i data)) in
  let m' := for_each es (λ e, data ← lift (index_entry_pack e); on_fs (fs_append (index_name base) data)) in
  (m s).1 = (m' s').1 ∧ mirror (match (m s).1 with inl _ => false | inr _ => q end) (m s).2 (m' s').2.
Proof.
  revert s s'. induction es as [|e es IH]; intros s s' Hs Hn; cbn [for_each]; [by split|].
  unfold_run. destruct (index_entry_pack e) as [x|data].
  - split; [done|]. by eapply mirror_weaken.
  - apply IH; [by apply mirror_fd_index|done].
Qed.

Lemma mirror_open_write q p i d' s s' :
  mirror q s s' → p = index_name base ∨ p = log_name base ∧ not_reading s.2.1 → open_write p s.1 = (i, d') →
  names d' !! p = Some i ∧ mirror q (d', s.2) (fs_write p [] s'.1, s'.2).
Proof.
  intros Hs Hp Eo. destruct (open_write_spec _ _ _ _ (mi_disk _ _ _ Hs) Eo) as (Hd' & Hn & Hf & He & Hj).
  split; [done|]. rewrite <-(mi_files _ _ _ Hs), <-Hf.
  destruct Hp as [->|[-> Hq]]; [apply mirror_index|apply mirror_log]; try done; try (intros j Hjn; by rewrite (Hj _ Hjn)).
  intros j b Hb. by apply Hq in Hb.
Qed.

Lemma mirrors_rewrite_index q : mirrors q q Segment_rewrite_index_h Segment_rewrite_index.
Proof.
  intros s s' Hs. destruct (open_write (index_name base) s.1) as [i d'] eqn:Eo.
  destruct (mirror_open_write _ (index_name base) _ _ _ _ Hs ltac:(by left) Eo) as [Hn Hs1].
  assert (index_path s'.2 = index_name base) as Hp by (unfold index_path; by rewrite (mi_base _ _ _ Hs)).
  unfold mirrors_at. assert (Segment_rewrite_index_h s = for_each (index s'.2) (λ e, data ← lift (index_entry_pack e); on_disk (fd_write i data)) (d', s.2)) as ->.
  { unfold Segment_rewrite_index_h. erewrite bind_ok; [|reflexivity]. rewrite (mi_fields _ _ _ Hs), Hp.
    erewrite bind_ok; [|unfold opened; by rewrite Eo]. done. }
  assert (Segment_rewrite_index s' = for_each (index s'.2) (λ e, data ← lift (index_entry_pack e);
    on_fs (fs_append (index_name base) data)) (fs_write (index_name base) [] s'.1, s'.2)) as ->.
  { unfold Segment_rewrite_index. erewrite bind_ok; [|reflexivity]. rewrite Hp. erewrite bind_ok; [|reflexivity]. done. }
  by apply mirrors_fd_entries.
Qed.

Lemma mirrors_recover_loop q fuel : ∀ f position good next,
  mirrors q q (recover_loop_h fuel f position good next) (recover_loop fuel f position good next).
Proof.
  induction fuel as [|fuel IH]; intros f position good next; cbn [recover_loop_h recover_loop]; [apply mirrors_ret|].
  destruct (read_record f) as [[e|[rec|]] f']; [apply mirrors_ret| |apply mirrors_ret].
  eapply mirrors_bind; [apply mirrors_maybe_index|]. intros _.
  eapply mirrors_bind; [by apply mirrors_on_fields|]. intros _. apply IH.
Qed.

Lemma mirror_lookup q p i s s' : mirror q s s' → names s.1 !! p = Some i → s'.1 !! p = Some (content s.1 i).
Proof. intros Hs Hp. rewrite <-(mi_files _ _ _ Hs). by apply files_lookup. Qed.

Lemma mirror_missing q p s s' : mirror q s s' → names s.1 !! p = None → s'.1 !! p = None.
Proof. intros Hs Hp. rewrite <-(mi_files _ _ _ Hs). by apply files_none. Qed.

(** Cutting the file, which no buffer shows. *)
Lemma mirror_write_log i data s s' :
  mirror true s s' → names s.1 !! log_name base = Some i →
  mirror true (write_inode i data s.1, s.2) (fs_write (log_name base) data s'.1, s'.2).
Proof.
  intros Hs Hn. unfold fs_write. rewrite <-(mi_files _ _ _ Hs), <-(write_inode_files _ i) by (done || apply Hs).
  apply (mirror_log _ _ _ s' Hs); [by apply write_inode_ok, Hs|by apply write_elsewhere; [apply Hs|]|done|].
  intros j b Hb. by apply (mi_quiet _ _ _ Hs eq_refl) in Hb.
Qed.

Lemma mirrors_truncate n :
  mirrors true true (truncate_path (log_name base) n)
    (f ← read_file (log_name base); on_fs (fs_write (log_name base) (truncate_to n f))).
Proof.
  intros s s' Hs. unfold mirrors_at, truncate_path, open_read, read_file. unfold_run.
  destruct (names s.1 !! log_name base) as [i|] eqn:Hn.
  - rewrite (mirror_lookup _ _ _ _ _ Hs Hn). split; [done|]. by apply mirror_write_log.
  - rewrite (mirror_missing _ _ _ _ Hs Hn). split; [done|]. by eapply mirror_weaken.
Qed.

(** On a recovered index, the log is as it was. *)
Definition log_kept (s s' : FS * Segment) : Prop :=
  base_offset s'.2 = base_offset s.2 ∧ s'.1 !! log_path s.2 = s.1 !! log_path s.2.

#[local] Instance log_kept_preorder : PreOrder log_kept.
Proof.
  split; [by intros s|]. intros a b c [B1 L1] [B2 L2]. unfold log_kept, log_path in *. rewrite B1 in *. split; congruence.
Qed.

Lemma log_kept_fields f : (∀ g, base_offset (f g) = base_offset g) → preserves log_kept (on_self f).
Proof. intros Hf s. split; [apply Hf|done]. Qed.

Lemma log_kept_write_entry e : preserves log_kept (write_index_entry e).
Proof.
  intros s. unfold respects, write_index_entry. unfold_run. unfold fs_append.
  destruct (index_entry_pack e); (split; [done|]); cbn [fst snd]; by rewrite !lookup_insert_ne by by apply not_eq_sym, log_index_path_ne.
Qed.

Lemma log_kept_maybe_index o p : preserves log_kept (Segment_maybe_index o p).
Proof.
  apply preserves_gets. intros s. apply (preserves_when log_kept).
  apply (preserves_bind log_kept); [by apply log_kept_fields|]. intros _.
  apply (preserves_bind log_kept); [apply log_kept_write_entry|]. intros _. by apply log_kept_fields.
Qed.

Lemma log_kept_recover_loop fuel : ∀ f position good next, preserves log_kept (recover_loop fuel f position good next).
Proof.
  induction fuel as [|fuel IH]; intros f position good next; cbn [recover_loop]; [apply (preserves_ret log_kept)|].
  destruct (read_record f) as [[e|[rec|]] f']; [apply (preserves_ret log_kept)| |apply (preserves_ret log_kept)].
  apply (preserves_bind log_kept); [apply log_kept_maybe_index|]. intros _.
  apply (preserves_bind log_kept); [by apply log_kept_fields|]. intros _. apply IH.
Qed.

Lemma getsize_run q p f s s' : mirror q s s' → s'.1 !! p = Some f → getsize p s = (inr (len f), s).
Proof.
  intros Hs Hf. unfold getsize, open_read. unfold_run. destruct (names s.1 !! p) as [i|] eqn:Hn.
  - rewrite (mirror_lookup _ _ _ _ _ Hs Hn) in Hf. by injection Hf as <-.
  - by rewrite (mirror_missing _ _ _ _ Hs Hn) in Hf.
Qed.

Lemma truncate_at n f s s' :
  mirror true s s' → s'.1 !! log_name base = Some f →
  mirrors_at true (truncate_path (log_name base) n) (on_fs (fs_write (log_name base) (truncate_to n f))) s s'.
Proof.
  intros Hs Hf. pose proof (mirrors_truncate n s s' Hs) as H. unfold mirrors_at in *.
  rewrite (bind_ok (read_file (log_name base)) _ s' s' f) in H; [exact H|]. unfold read_file. unfold_run. by rewrite Hf.
Qed.

Lemma mirrors_recover q : mirrors q false Segment_recover_h Segment_recover.
Proof.
  unfold Segment_recover_h. eapply mirrors_then_ret; [apply mirrors_close|].
  eapply mirrors_bind; [by apply mirrors_on_fields|]. intros _.
  apply mirrors_fields. intros g Hg s s' Hs. eapply mirrors_at_left; [reflexivity|]. eapply mirrors_at_right; [reflexivity|].
  assert (log_path g = log_name base ∧ index_path g = index_name base) as [Hl Hx] by (unfold log_path, index_path; by rewrite Hg).
  rewrite Hl, Hx. destruct (names s.1 !! log_name base) as [i|] eqn:Hn.
  - rewrite (mirror_lookup _ _ _ _ _ Hs Hn). set (f := content s.1 i).
    eapply mirrors_at_bind; [by apply mirrors_recover_loop|]. intros [good next] s1 s1' _ E Hs1.
    pose proof (log_kept_recover_loop (S (length f)) f 0 0 (base_offset g) s') as Hk. unfold respects in Hk. rewrite E in Hk.
    assert (s1'.1 !! log_name base = Some f) as Hf.
    { destruct Hk as [_ Hk]. cbn in Hk. unfold log_path in Hk. rewrite (mi_base _ _ _ Hs) in Hk. rewrite Hk. by eapply mirror_lookup. }
    eapply mirrors_at_left; [by eapply getsize_run|].
    eapply mirrors_at_bind; [destruct (good <? len f); [by apply truncate_at|by apply mirrors_ret]|].
    intros [] s2 s2' _ _ Hs2. apply (mirrors_end true true); [|exact Hs2]. apply mirrors_fields_then; [done|].
    apply mirrors_fields_then; [done|]. eapply mirrors_bind; [apply mirrors_rewrite_index|]. intros _. apply mirrors_ret.
  - rewrite (mirror_missing _ _ _ _ Hs Hn).
    destruct (open_write (log_name base) s.1) as [i d1] eqn:E1.
    destruct (mirror_open_write _ (log_name base) _ _ _ _ Hs ltac:(right; split; [done|by apply Hs]) E1) as [_ Hs1].
    eapply mirrors_at_left; [unfold opened; by rewrite E1|]. eapply mirrors_at_right; [reflexivity|].
    destruct (open_write (index_name base) d1) as [j d2] eqn:E2.
    destruct (mirror_open_write _ (index_name base) _ _ _ _ Hs1 ltac:(by left) E2) as [_ Hs2].
    eapply mirrors_at_left; [unfold opened; cbn [fst]; by rewrite E2|]. eapply mirrors_at_right; [reflexivity|].
    split; [done|]. by eapply mirror_weaken.
Qed.

(** *** The log handle *)

Lemma append_handle_run q s s' :
  mirror q s s' → ∃ i s1, Segment_append_handle s = (inr i, s1) ∧ names s1.1 !! log_name base = Some i ∧
    mirror q s1 (fs_append (log_name base) [] s'.1, s'.2).
Proof.
  intros Hs. pose proof (mi_fields _ _ _ Hs) as Hg. pose proof (mi_base _ _ _ Hs) as Hb.
  unfold Segment_append_handle. destruct (log_fh s.2.1) as [| |i] eqn:Eh.
  3: { assert (names s.1 !! log_name base = Some i) as Hn by by apply (ho_log _ _ _ (mi_own _ _ _ Hs)).
    exists i, s. split; [unfold_run; by rewrite Eh|]. split; [done|]. by eapply mirror_append_nil. }
  all: destruct (open_append (log_name base) s.1) as [i d'] eqn:Eo;
    destruct (open_append_spec _ _ _ _ (mi_disk _ _ _ Hs) Eo) as (Hd' & Hn & Hf & He & Hj);
    exists i; eexists; (split; [unfold_run; rewrite Eh; unfold log_path; rewrite Hg, Hb, Eo; reflexivity|]);
    (split; [done|]); rewrite <-(mi_files _ _ _ Hs), <-Hf;
    assert (mirror q (d', s.2) (files d', s'.2)) as Hs1
      by (apply mirror_log; [done..|by intros j Hjn; destruct (Hj _ Hjn) as [-> ->]|];
          intros j b Hb' _; destruct (ho_read _ _ _ (mi_own _ _ _ Hs) _ _ Hb') as [Hr Hsh]; by destruct (Hj _ Hr) as [_ ->]);
    apply (mirror_handles q q _ _ _ Hs1); cbn;
      [destruct (mi_own _ _ _ Hs1) as [O1 O2 O3 O4]; split; cbn; [by intros ? [= <-]|exact O2|exact O3|exact O4]|apply Hs1].
Qed.

(** Writing at the end of the log, as the source does it. *)
Lemma write_log_at {A} q q' data (k : HandleM A) k' s s' :
  mirror q s s' → mirrors q q' k k' →
  mirrors_at q' (fh ← Segment_append_handle; _ ← on_disk (fd_write fh data); k) (_ ← on_fs (fs_append (log_name base) data); k') s s'.
Proof.
  intros Hs Hk. destruct (append_handle_run _ _ _ Hs) as (i & s1 & E & Hn & Hs1).
  eapply mirrors_at_left; [exact E|]. eapply mirrors_at_left; [reflexivity|]. eapply mirrors_at_right; [reflexivity|]. apply Hk.
  pose proof (mirror_fd_log _ _ data _ _ Hs1 Hn) as H. cbn [fst snd] in *. unfold fs_append in H.
  rewrite lookup_insert_eq, insert_insert_eq in H. cbn in H. rewrite app_nil_r in H. exact H.
Qed.

Lemma mirrors_append q o data t : mirrors q q (Segment_append_h o data t) (Segment_append o data t).
Proof.
  apply mirrors_fields. intros g Hg s s' Hs. unfold log_path. rewrite Hg. eapply write_log_at; [done|].
  do 3 (apply mirrors_fields_then; [by intros g'; try case_match|]).
  apply mirrors_fields. intros g' Hg'. apply mirrors_when.
  apply mirrors_fields_then; [done|]. eapply mirrors_bind; [apply mirrors_write_index_entry|]. intros _. by apply mirrors_on_fields.
Qed.

Lemma mirrors_write_batch q ms blob pos : mirrors q q (write_batch_h ms blob pos) (write_batch ms blob pos).
Proof.
  intros s s' Hs. unfold write_batch. eapply mirrors_at_right; [reflexivity|]. unfold log_path. rewrite (mi_base _ _ _ Hs).
  eapply write_log_at; [done|]. eapply mirrors_bind; [|intros _; by apply mirrors_on_fields].
  apply mirrors_for_each. intros [[o p] t]. eapply mirrors_bind; [apply mirrors_maybe_index|]. intros _.
  apply mirrors_fields_then; [done|]. apply mirrors_on_fields. intros g. by case_match.
Qed.

(** *** Reading *)

Lemma mirror_path q s s' : mirror q s s' → log_path s.2.2 = log_name base.
Proof. intros Hs. unfold log_path. by rewrite (mi_fields _ _ _ Hs), (mi_base _ _ _ Hs). Qed.

Lemma read_handle_run s s' :
  mirror false s s' →
  Segment_read_handle s = (inl FileNotFoundError, s) ∧ s'.1 !! log_name base = None ∨
  ∃ i b h1, Segment_read_handle s = (inr (i, b), (s.1, (h1, s.2.2))) ∧ mirror false (s.1, (h1, s.2.2)) s' ∧
    names s.1 !! log_name base = Some i ∧ shows b (content s.1 i).
Proof.
  intros Hs. pose proof (mirror_path _ _ _ Hs) as Hp.
  unfold Segment_read_handle, open_read. destruct (read_fh s.2.1) as [| |[i b]] eqn:Eh.
  3: { destruct (ho_read _ _ _ (mi_own _ _ _ Hs) _ _ Eh) as [Hn Hsh]. right. exists i, b, s.2.1.
    split; [unfold_run; rewrite Eh; by destruct s as (? & ? & ?)|]. split; [|done].
    apply (mirror_handles _ _ _ _ _ Hs); [apply Hs|done]. }
  all: unfold_run; rewrite Eh; rewrite Hp;
    destruct (names s.1 !! log_name base) as [i|] eqn:Hn; [right|left; split; [done|by eapply mirror_missing]];
    eexists i, _, _; (split; [reflexivity|]); (split; [|split; [done|by left]]);
    apply (mirror_handles _ _ _ _ _ Hs); [|done]; destruct (mi_own _ _ _ Hs) as [O1 O2 O3 O4]; split; cbn;
    [exact O1|exact O2|intros ? ? [= <- <-]; split; [done|by left]|exact O4].
Qed.

(** What is read is the file from the position on. *)
Lemma mirrors_read_from {A} p (k : bytes → A) :
  mirrors false false (f ← read_from readahead p; mret (k f))
    (f ← read_file (log_name base); mret (k (drop (Z.to_nat p) f))).
Proof.
  intros s s' Hs. unfold read_file. destruct (read_handle_run _ _ Hs) as [[E Hn]|(i & b & h1 & E & Hs1 & Hn & Hb)].
  - unfold mirrors_at, read_from. unfold_run. by rewrite E, Hn.
  - assert (Hl := mirror_lookup _ _ _ _ _ Hs Hn). unfold mirrors_at, read_from. unfold_run. rewrite E, Hl. cbn [fst snd].
    rewrite (shows_overlay _ _ Hb). destruct (readahead p (content s.1 i)) as [from count]. cbn [fst snd]. split; [done|].
    apply (mirror_handles _ _ _ _ _ Hs1); [|done]. destruct (mi_own _ _ _ Hs1) as [O1 O2 O3 O4]. split; cbn;
      [exact O1|exact O2| |exact O4]. intros ? ? [= <- <-]. split; [done|apply shows_slice].
Qed.

(** The mmap is on the whole file. *)
Lemma mmap_handle_run s s' :
  mirror false s s' → ∃ o h1, Segment_mmap_handle s = (inr o, (s.1, (h1, s.2.2))) ∧ mirror false (s.1, (h1, s.2.2)) s' ∧
    ∀ i n, o = Some (i, n) → names s.1 !! log_name base = Some i ∧ n = length (content s.1 i).
Proof.
  intros Hs. pose proof (mirror_path _ _ _ Hs) as Hp. pose proof (mi_own _ _ _ Hs) as Ho.
  unfold Segment_mmap_handle, open_read. unfold_run. rewrite Hp.
  assert (∀ h, handles_ok s.1 h base → mirror false (s.1, (h, s.2.2)) s') as Hm by (intros h Hh; by apply (mirror_handles _ _ _ _ _ Hs)).
  destruct (names s.1 !! log_name base) as [i|] eqn:Hn.
  2: { rewrite bool_decide_eq_true_2 by done. exists None, s.2.1. split; [by destruct s as (? & ? & ?)|]. split; [by apply Hm|done]. }
  assert (∀ h n, handles_ok s.1 h base → handles_ok s.1 (h <| mmap := Some (i, n) |>) base) as Hset.
  { intros h n [O1 O2 O3 O4]. split; cbn; [exact O1|exact O2|exact O3|by intros ? ? [= <- <-]]. }
  case_bool_decide as Hz.
  { exists None, s.2.1. split; [by destruct s as (? & ? & ?)|]. split; [by apply Hm|done]. }
  destruct (mmap s.2.1) as [[j n]|] eqn:Em.
  - pose proof (ho_map _ _ _ Ho _ _ Em) as Hj. rewrite Hn in Hj. injection Hj as <-. case_bool_decide as Hne.
    + eexists _, _. split; [cbn [fst snd]; rewrite ?Hp, ?Hn; reflexivity|]. split; [by apply Hm, Hset|]. by intros ? ? [= <- <-].
    + eexists _, s.2.1. split; [by destruct s as (? & ? & ?)|]. split; [by apply Hm|]. rewrite Em. intros ? ? [= <- <-].
      split; [done|]. destruct (decide (n = length (content s.1 i))); [done|]. by destruct Hne.
  - eexists _, _. split; [cbn [fst snd]; rewrite ?Hp, ?Hn; reflexivity|]. split; [by apply Hm, Hset|]. by intros ? ? [= <- <-].
Qed.

Lemma mirrors_read o : mirrors false false (Segment_read_h readahead o) (Segment_read o).
Proof.
  apply mirrors_fields. intros g Hg. destruct (_ || _); [apply mirrors_ret|]. cbv zeta. unfold log_path. rewrite Hg.
  destruct (index_start (index g) (o - base)) as [rel p]. intros s s' Hs. destruct (mmap_handle_run _ _ Hs) as (m & h1 & E & Hs1 & Hm).
  eapply mirrors_at_left; [exact E|]. eapply mirrors_at_left; [reflexivity|].
  pose proof (mirrors_read_from p (λ f, scan_record (S (length f)) f o) _ _ Hs1) as Hr.
  destruct m as [[i n]|]; [|exact Hr]. destruct (p <=? Z.of_nat n); [|exact Hr].
  destruct (Hm i n eq_refl) as [Hn ->]. cbn [fst]. eapply mirrors_at_right; [unfold read_file; unfold_run|].
  - rewrite (mirror_lookup _ _ _ _ _ Hs Hn). reflexivity.
  - rewrite take_ge by done. by apply mirrors_ret.
Qed.

Lemma mirrors_position_of o : mirrors false false (Segment_position_of_h readahead o) (Segment_position_of o).
Proof.
  apply mirrors_fields. intros g Hg. destruct (_ || _); [apply mirrors_ret|]. cbv zeta. unfold log_path. rewrite Hg.
  destruct (index_start (index g) (o - base)) as [rel p]. apply (mirrors_read_from p (λ f, scan_position (S (length f)) f p o)).
Qed.

(** *** Cutting and removing *)

Lemma mirrors_open_log {A} q (k : HandleM A) k' :
  mirrors true q k k' → mirrors true q (_ ← opened (open_write (log_name base)); k) (_ ← on_fs (fs_write (log_name base) []); k').
Proof.
  intros Hk s s' Hs. destruct (open_write (log_name base) s.1) as [i d1] eqn:E1.
  destruct (mirror_open_write _ (log_name base) _ _ _ _ Hs ltac:(right; split; [done|by apply Hs]) E1) as [_ Hs1].
  eapply mirrors_at_left; [unfold opened; by rewrite E1|]. eapply mirrors_at_right; [reflexivity|]. by apply Hk.
Qed.

Lemma mirrors_truncate_then {A} q n (k : HandleM A) k' :
  mirrors true q k k' →
  mirrors true q (_ ← truncate_path (log_name base) n; k)
    (f ← read_file (log_name base); _ ← on_fs (fs_write (log_name base) (truncate_to n f)); k').
Proof.
  intros Hk s s' Hs. pose proof (mirrors_bind _ _ _ _ _ _ _ (mirrors_truncate n) (λ _ : (), Hk) s s' Hs) as H.
  unfold mirrors_at in *. unfold mbind, M_bind in *. by destruct (read_file (log_name base) s') as [[?|?] ?].
Qed.

Lemma mirrors_truncate_from o : mirrors false false (Segment_truncate_from_h readahead o) (Segment_truncate_from o).
Proof.
  apply mirrors_fields. intros g Hg. unfold log_path. rewrite Hg. destruct (o <=? base).
  - eapply mirrors_then_ret; [apply mirrors_close|]. apply (mirrors_end true true).
    apply mirrors_open_log, mirrors_fields_then; [done|].
    eapply mirrors_bind; [apply mirrors_rewrite_index|]. intros _. apply mirrors_ret.
  - eapply mirrors_bind; [apply mirrors_position_of|]. intros [p|]; [|apply mirrors_ret].
    eapply mirrors_then_ret; [apply mirrors_close|]. apply (mirrors_end true true).
    apply mirrors_truncate_then. do 4 (apply mirrors_fields_then; [done|]).
    eapply mirrors_bind; [apply mirrors_rewrite_index|]. intros _. apply mirrors_ret.
Qed.

Lemma remove_elsewhere p d : elsewhere p d (remove p d).
Proof. intros q Hq. cbn. by rewrite lookup_delete_ne. Qed.

Lemma mirrors_delete : mirrors false true Segment_delete_h Segment_delete.
Proof.
  intros s s' Hs. destruct (Hs) as [Hd Hf Hg Hb Ho Ht _].
  assert (log_path s.2.2 = log_name base ∧ index_path s.2.2 = index_name base) as [Hl Hx]
    by (unfold log_path, index_path; by rewrite Hg, Hb).
  destruct (remove_ok (log_name base) _ Hd) as [Hd1 Hf1]. destruct (remove_ok (index_name base) _ Hd1) as [Hd2 Hf2].
  assert (Segment_delete_h s = (inr (), (remove (index_name base) (remove (log_name base) s.1),
    (mkHandles (close (log_fh s.2.1)) (close (index_fh s.2.1)) (close (read_fh s.2.1)) None, s.2.2)))) as E
    by (unfold Segment_delete_h, Segment_close_handles; unfold_run; by rewrite Hl, Hx).
  assert (Segment_delete s' = (inr (), (fs_remove (index_name base) (fs_remove (log_name base) s'.1), s'.2))) as E'.
  { unfold Segment_delete, log_path, index_path. unfold_run. by rewrite Hb. }
  unfold mirrors_at. rewrite E, E'. split; [done|]. split; cbn [fst snd]; try done.
  - by rewrite Hf2, Hf1, Hf.
  - apply closed_ok.
  - intros b h Hin. destruct (Hothers _ _ Hin) as [H1 H2]. pose proof (log_index_ne b base) as H3. pose proof (log_index_ne base b) as H4.
    eapply handles_ok_apart; [apply remove_elsewhere|done|done|]. eapply handles_ok_apart; [apply remove_elsewhere|done|by apply not_eq_sym|].
    by apply Ht.
  - intros _ f. apply close_not_open.
Qed.
End mirror.

(** ** A directory *)

Section directory.
Context (readahead : Z → bytes → nat * nat).

Record dir_mirror (bs : list Z) (s : Disk * list (Handles * Segment)) (s' : FS * list Segment) : Prop := {
  dm_disk : disk_ok s.1;
  dm_files : files s.1 = s'.1;
  dm_fields : s.2.*2 = s'.2;
  dm_bases : base_offset <$> s'.2 = bs;
  dm_distinct : NoDup bs;
  dm_bound : Forall (λ b, 0 <= b) bs;
  dm_handles i h g : s.2 !! i = Some (h, g) → handles_ok s.1 h (base_offset g);
}.

Lemma mirrors_call base others c :
  (∀ b h, (b, h) ∈ others → log_name b ≠ log_name base ∧ index_name b ≠ index_name base) →
  mirrors base others false false (seg_call_h readahead c) (seg_call c).
Proof.
  intros Ho. destruct c; cbn [seg_call_h seg_call].
  7: { eapply mirrors_then_ret; [apply mirrors_close|]. apply (mirrors_end _ _ true true), mirrors_ret. }
  all: eapply mirrors_bind; [|intros x; apply mirrors_ret].
  - by apply mirrors_recover.
  - by apply mirrors_append.
  - by apply mirrors_write_batch.
  - by apply mirrors_read.
  - by apply mirrors_position_of.
  - by apply mirrors_truncate_from.
Qed.

Lemma names_apart bs i j b b' :
  NoDup bs → Forall (λ b, 0 <= b) bs → bs !! i = Some b → bs !! j = Some b' → i ≠ j →
  log_name b ≠ log_name b' ∧ index_name b ≠ index_name b'.
Proof.
  intros Hnd Hpos Hi Hj Hne. pose proof (Forall_lookup_1 _ _ _ _ Hpos Hi). pose proof (Forall_lookup_1 _ _ _ _ Hpos Hj).
  assert (b ≠ b') by (intros ->; apply Hne; by eapply NoDup_lookup).
  by split; intros E; [apply log_name_inj in E|apply index_name_inj in E].
Qed.

(** A method of one object, with the others' handles out of its way. *)
Lemma on_object_mirror {A} q (m : HandleM A) (m' : SegM A) i bs s s' :
  dir_mirror bs s s' →
  (∀ base others, (∀ b h, (b, h) ∈ others → log_name b ≠ log_name base ∧ index_name b ≠ index_name base) →
    mirrors base others false q m m') →
  (on_object i m s).1 = (on_object i m' s').1 ∧ dir_mirror bs (on_object i m s).2 (on_object i m' s').2.
Proof.
  intros Hs Hm. destruct (Hs) as [Hd Hf Hg Hb Hnd Hpos Hh]. unfold on_object. rewrite <-Hg, list_lookup_fmap.
  destruct (s.2 !! i) as [[h g]|] eqn:Hi; cbn [fmap option_fmap option_map snd].
  2: { split; [done|]. exact Hs. }
  assert (s'.2 !! i = Some g) as Hi' by (by rewrite <-Hg, list_lookup_fmap, Hi).
  set (others := (λ '(j, (h, g)), (base_offset g, h)) <$> filter (λ '(j, _), j ≠ i) (imap pair s.2)).
  assert (∀ b k, (b, k) ∈ others ↔ ∃ j g', j ≠ i ∧ s.2 !! j = Some (k, g') ∧ b = base_offset g') as Hin.
  { intros b k. unfold others. rewrite list_elem_of_fmap. split.
    - intros ([j [k' g']] & [= -> ->] & [Hj (j' & o & [= <- <-] & Ho)%elem_of_lookup_imap]%list_elem_of_filter). by exists j, g'.
    - intros (j & g' & Hj & Ho & ->). exists (j, (k, g')). split; [done|]. apply list_elem_of_filter. split; [done|].
      apply elem_of_lookup_imap. by exists j, (k, g'). }
  assert (∀ j k g', s.2 !! j = Some (k, g') → bs !! j = Some (base_offset g')) as Hbs.
  { intros j k g' Hj. by rewrite <-Hb, list_lookup_fmap, <-Hg, list_lookup_fmap, Hj. }
  specialize (Hm (base_offset g) others).
  destruct (Hm) with (s := (s.1, (h, g))) (s' := (s'.1, g)) as [E Hw].
  { intros b k (j & g' & Hj & Ho & ->)%Hin. by eapply (names_apart bs j i); eauto. }
  { split; cbn; try done. - by eapply Hh. - intros b k (j & g' & Hj & Ho & ->)%Hin. by eapply Hh. }
  destruct (m (s.1, (h, g))) as [r [d1 [h1 g1]]], (m' (s'.1, g)) as [r' [fs1 g1']]. cbn in E, Hw. subst r'.
  split; [done|]. destruct Hw as [Wd Wf Wg Wb Wo Wt _]. cbn in *. subst g1'. split; cbn; try done.
  - by rewrite list_fmap_insert, Hg.
  - rewrite list_fmap_insert, Wb, list_insert_id, Hg; [done|]. by rewrite Hg, list_lookup_fmap, Hi'.
  - intros j k g'. destruct (decide (j = i)) as [->|Hj].
    + rewrite list_lookup_insert_eq by by eapply lookup_lt_Some. intros [= <- <-]. by rewrite Wb.
    + rewrite list_lookup_insert_ne by done. intros Hjk. apply Wt, Hin. by exists j, g'.
Qed.
End directory.
