(* ===== verification/Retention.v ===== *)
(** * Dropping old segments (pylog/log.py, [CommitLog.truncate_segments_before])

    The sweep removes whole segments from the front; what it keeps is a well-formed
    log whose first offset is the base of the first kept segment. *)
From S2P Require Import Prelude Bytes LogRecord FileSystem Bisect Segment SegmentFacts CommitLog CommitLogFacts.
Local Open Scope Z_scope.

(** Removing the files of one segment. *)
Definition drop_files (g : Segment) (fs : FS) : FS :=
  fs_remove (index_path g) (fs_remove (log_path g) fs).

Lemma drop_files_frame g fs : frame (base_offset g) fs (drop_files g fs).
Proof. intros name H1 H2. unfold drop_files, fs_remove. by rewrite !lookup_delete_ne by done. Qed.

(** A well-formed log without its first segment. *)
Lemma log_wf_tail fs l first q ps p g gs :
  log_wf fs l first (q :: ps) p → segments l = g :: gs →
  log_wf (drop_files g fs) (set_segments gs l) (first + len q) ps p.
Proof.
  intros wf E. pose proof (starts_sorted first (q :: ps) p (lw_full _ _ _ _ _ wf)) as Hso.
  destruct wf as [Hmax Hfirst Hsegs Hbases Hfull Hnext Hint Hdir].
  rewrite E in Hsegs, Hbases, Hint. cbn [app starts fmap list_fmap concat] in *.
  apply Forall2_cons in Hsegs as [Hg Hgs]. injection Hbases as Hb Hbs.
  apply Forall_cons in Hfull as [Hq Hfull]. apply Forall_cons in Hint as [_ Hint].
  apply StronglySorted_inv in Hso as [Hso Hlt]. rewrite Forall_forall in Hlt.
  pose proof (len_nonneg q).
  constructor; cbn; try done; try lia.
  - eapply (segs_frame (base_offset g) fs); [by rewrite Hb| |apply drop_files_frame|done].
    change (list_fmap _ _ base_offset gs) with (base_offset <$> gs) in Hbs. rewrite Hbs.
    intros Hin%Hlt. lia.
  - rewrite Hnext, len_app. lia.
  - intros name b Hin Hseg.
    destruct (decide (name = log_name b)) as [->|Hn].
    2:{ destruct (Hdir name b) as [-> _]; [|done|done].
        destruct (drop_files g fs !! name) eqn:Ed; [|by destruct Hin].
        unfold drop_files, fs_remove in Ed. rewrite !lookup_delete_Some in Ed.
        destruct Ed as (_ & _ & ->). eauto. }
    split; [done|]. destruct (decide (b = first)) as [->|Hne].
    + destruct Hin as [x Hx]. unfold drop_files, fs_remove in Hx.
      rewrite !lookup_delete_Some in Hx. unfold log_path in Hx. rewrite Hb in Hx. tauto.
    + destruct (Hdir (log_name b) b) as [_ Hin']; [|done|].
      * destruct Hin as [x Hx]. unfold drop_files, fs_remove in Hx.
        rewrite !lookup_delete_Some in Hx. exists x. tauto.
      * apply elem_of_cons in Hin' as [->|Hin']; done.
Qed.

(** The non-active segments are not empty. *)
Lemma full_not_empty fs q g : seg_wf fs q g → q ≠ [] → Segment_is_empty g = false.
Proof.
  intros Hg Hq. unfold Segment_is_empty. rewrite (wf_size _ _ _ Hg). apply Z.eqb_neq.
  destruct q as [|r q]; [done|]. rewrite enc_all_cons, len_app.
  pose proof (enc_len_pos r). pose proof (len_nonneg (enc_all q)). lia.
Qed.

(** What the sweep leaves: the first [k] segments are gone, exactly those below
    [min_base]; the active segment always stays. *)
Definition swept (min_base : Z) (l : CommitLog) (first : Z) (ps : list (list LogRec))
    (p : list LogRec) (k : nat) (s' : FS * CommitLog) : Prop :=
  (k ≤ length ps)%nat ∧
  log_wf s'.1 s'.2 (first + len (concat (take k ps))) (drop k ps) p ∧
  log_next_offset s'.2 = log_next_offset l ∧
  (∀ j b, starts first ps !! j = Some b → (j < k)%nat ↔ b < min_base).

(** Segments at or above [min_base] stay, and so does the active one. *)
Lemma sweep_keeps min_base n gs g : ∀ i fs,
  n = (i + length gs + 1)%nat →
  Forall (λ h, Segment_is_empty h = false ∧ min_base <= base_offset h) gs →
  sweep_segments min_base n i (gs ++ [g]) fs = (fs, gs ++ [g], 0).
Proof.
  induction gs as [|h gs IH]; intros i fs -> Hk; cbn [app sweep_segments length].
  - replace (i <? i + 0 + 1 - 1)%nat with false by (symmetry; apply Nat.ltb_ge; lia).
    by rewrite !andb_false_r.
  - apply Forall_cons in Hk as [[-> Hb] Hk]. cbn [andb orb].
    destruct (Z.ltb_spec (base_offset h) min_base); [lia|]. cbn [andb].
    rewrite IH; [done|simpl; lia|done].
Qed.

Lemma sweep_segments_spec min_base p ps : ∀ first fs l n i,
  log_wf fs l first ps p → n = (i + length ps + 1)%nat →
  ∃ k fs' kept, sweep_segments min_base n i (segments l) fs = (fs', kept, Z.of_nat k) ∧
    swept min_base l first ps p k (fs', set_segments kept l).
Proof.
  induction ps as [|q ps IH]; intros first fs l n i wf ->;
    destruct (log_wf_last _ _ _ _ _ wf) as (gs & g & E & Hgs & Hg & Hbs & Hb & _).
  { apply Forall2_nil_inv_l in Hgs as ->. rewrite E.
    exists O, fs, ([] ++ [g]). split; [by apply sweep_keeps|].
    split_and!; [done| |done|done]. cbn. rewrite Z.add_0_r, <-(app_nil_l [g]), <-E. by destruct l. }
  apply Forall2_cons_inv_l in Hgs as (h & gs' & Hh & Hgs & ->). cbn in Hbs. injection Hbs as Hbh Hbs.
  pose proof (lw_full _ _ _ _ _ wf) as Hfull. pose proof Hfull as [Hq Hps]%Forall_cons.
  pose proof (starts_sorted first (q :: ps) p Hfull) as Hso.
  rewrite starts_snoc in Hso. apply StronglySorted_app_1_l in Hso.
  cbn [starts] in Hso. apply StronglySorted_inv in Hso as [_ Hlt]. rewrite Forall_forall in Hlt.
  destruct (decide (base_offset h < min_base)) as [Hcut|Hstay].
  - assert (segments l = h :: (gs' ++ [g])) as E' by done.
    pose proof (log_wf_tail _ _ _ _ _ _ _ _ wf E') as wf'.
    destruct (IH _ _ _ (i + length (q :: ps) + 1)%nat (S i) wf') as (k & fs' & kept & Hs & Hk & Hwf & Hn & Hj);
      [simpl; lia|].
    exists (S k), fs', kept. split.
    + rewrite E'. cbn [sweep_segments]. rewrite (full_not_empty _ _ _ Hh Hq).
      replace (base_offset h <? min_base) with true by (symmetry; by apply Z.ltb_lt).
      replace (i <? i + length (q :: ps) + 1 - 1)%nat with true by (symmetry; apply Nat.ltb_lt; simpl; lia).
      cbn [andb orb]. fold (drop_files h fs). cbn [segments set_segments] in Hs. rewrite Hs. f_equal. lia.
    + split_and!; [simpl; lia| |done|].
      * cbn [take drop concat]. rewrite len_app, Z.add_assoc. exact Hwf.
      * intros [|j] b Hjb; cbn in Hjb; [injection Hjb as <-; lia|]. rewrite <-(Hj j b Hjb). lia.
  - exists O, fs, (segments l). split.
    + rewrite E. apply sweep_keeps; [cbn; by rewrite (Forall2_length _ _ _ Hgs)|].
      apply Forall_forall. intros x Hx.
      assert (min_base <= base_offset x) as Hmx.
      { apply elem_of_cons in Hx as [->|Hx]; [lia|].
        assert (first < base_offset x); [|lia]. apply Hlt. rewrite <-Hbs. apply list_elem_of_fmap. eauto. }
      split; [|done].
      assert (Forall2 (seg_wf fs) (q :: ps) (h :: gs')) as Hall by by constructor.
      apply list_elem_of_lookup in Hx as [j Hx].
      destruct (Forall2_lookup_r _ _ _ _ _ Hall Hx) as (q' & Hq' & Hw).
      eapply full_not_empty; [done|]. rewrite Forall_forall in Hfull. apply Hfull.
      by eapply list_elem_of_lookup_2.
    + split_and!; [lia| |done|].
      * cbn. rewrite Z.add_0_r. by destruct l.
      * intros j b Hjb. split; [lia|]. intros Hb'. exfalso.
        destruct j as [|j]; cbn in Hjb; [injection Hjb as <-; lia|].
        assert (first < b) by (apply Hlt; by eapply list_elem_of_lookup_2). lia.
Qed.

Lemma truncate_segments_before_spec fs l first ps p min_base :
  log_wf fs l first ps p →
  returns (CommitLog_truncate_segments_before min_base) (fs, l)
    (λ removed s', ∃ k, removed = Z.of_nat k ∧ swept min_base l first ps p k s').
Proof.
  intros wf. unfold returns, CommitLog_truncate_segments_before. cbn [fst snd].
  destruct (sweep_segments_spec min_base p ps first fs l (length (segments l)) 0 wf) as (k & fs' & kept & -> & H).
  { rewrite <-(Forall2_length _ _ _ (lw_segs _ _ _ _ _ wf)), length_app. done. }
  eauto.
Qed.
