(* ===== verification/LogSpec.v ===== *)
(** * The contract of the commit log

    What [CommitLog] promises its clients (the durable Raft log, the broker's
    partitions): it is an append-only list of records with consecutive offsets,
    from a first retained one on, that survives a restart.  Clients are verified
    against the class; the instance for the segmented log follows. *)
From S2P Require Import Prelude Bytes LogRecord FileSystem Segment SegmentFacts CommitLog CommitLogFacts Retention.
Local Open Scope Z_scope.

Abbreviation LogState := (FS * CommitLog)%type.

(** All positions of the log fit the index file's 64-bit fields. *)
Definition log_fits (rs : list LogRec) : Prop := len (enc_all rs) < 2 ^ 64.

Class CommitLogSpec (repr : LogState → Z → list LogRec → Prop) : Prop := {
  cl_facts s first rs :
    repr s first rs → 0 <= first ∧ Forall rec_ok rs ∧ contiguous first rs;
  cl_next s first rs : repr s first rs → log_next_offset s.2 = first + len rs;
  cl_append s first rs payload timestamp now :
    repr s first rs →
    let r := mkRec (first + len rs) (default now timestamp) payload in
    rec_ok r → log_fits (rs ++ [r]) →
    returns (CommitLog_append payload timestamp now) s
      (λ o s', o = first + len rs ∧ repr s' first (rs ++ [r]));
  cl_append_many s first rs payloads timestamps now :
    repr s first rs →
    let ts := default (replicate (length payloads) now) timestamps in
    let news := batch_records (first + len rs) payloads ts in
    (length payloads ≤ length ts)%nat → Forall rec_ok news → log_fits (rs ++ news) →
    returns (CommitLog_append_many payloads timestamps now) s
      (λ offsets s', offsets = rec_offset <$> news ∧ repr s' first (rs ++ news));
  cl_read s first rs o :
    repr s first rs →
    CommitLog_read o s =
      (inr (if bool_decide (first <= o) then rs !! Z.to_nat (o - first) else None), s);
  cl_read_range s first rs start limit :
    repr s first rs → first <= start →
    CommitLog_read_range start limit s =
      (inr (take (Z.to_nat limit) (drop (Z.to_nat (start - first)) rs)), s);
  cl_truncate s first rs o :
    repr s first rs →
    returns (CommitLog_truncate_from o) s
      (λ b s', if o <? first then b = false ∧ s' = s
               else b = (o <? first + len rs) ∧ repr s' first (take (Z.to_nat (o - first)) rs));
  cl_sweep s first rs min_base :
    repr s first rs →
    returns (CommitLog_truncate_segments_before min_base) s
      (λ removed s', 0 <= removed ∧
         ∃ n, repr s' (first + Z.of_nat n) (drop n rs) ∧ (n ≤ length rs)%nat ∧
           (removed = 0 → n = O) ∧ (0 < removed → (0 < n)%nat ∧ first < min_base));
  cl_reopen s first rs max_bytes interval :
    repr s first rs → log_fits rs →
    returns CommitLog_init (s.1, mkLog (Z.max 1 max_bytes) interval [] 0)
      (λ _ s', repr s' first rs);
  cl_create fs max_bytes interval :
    list_bases fs = [] →
    returns CommitLog_init (fs, mkLog (Z.max 1 max_bytes) interval [] 0)
      (λ _ s', repr s' 0 []);
}.

(** ** The segmented log meets it *)

Definition seg_log_repr (s : LogState) : Z → list LogRec → Prop := log_repr s.1 s.2.

(** A directory without segment files: the first one is created. *)
Lemma create_spec fs max_bytes interval :
  list_bases fs = [] →
  returns CommitLog_init (fs, mkLog (Z.max 1 max_bytes) interval [] 0)
    (λ _ s', log_wf s'.1 s'.2 0 [] []).
Proof.
  intros Hnone.
  assert (∀ name b, is_Some (fs !! name) → segment_base name = Some b → False) as Hno.
  { intros name b Hn Hb. assert (b ∈ list_bases fs) as Hin; [|by rewrite Hnone in Hin; apply not_elem_of_nil in Hin].
    unfold list_bases. rewrite merge_sort_Permutation. apply list_elem_of_omap.
    exists name. split; [|done]. by apply elem_of_elements, elem_of_dom. }
  assert (fs !! log_name 0 = None) as Hfree.
  { destruct (fs !! log_name 0) eqn:E; [|done]. exfalso.
    apply (Hno (log_name 0) 0); [by rewrite E|by apply segment_base_log_name]. }
  unfold CommitLog_init, CommitLog_recover, this.
  apply returns_bind, returns_bind. eapply returns_intro; [reflexivity|]. cbn [fst snd].
  apply returns_bind. eapply returns_intro; [reflexivity|]. cbn [fst snd].
  apply returns_bind. eapply returns_intro; [reflexivity|]. cbn [fst snd]. rewrite Hnone.
  rewrite bool_decide_eq_true_2 by done. cbn [fmap list_fmap].
  set (l0 := set_segments [] _).
  assert (∃ fs' g', CommitLog_new_segment 0 (fs, l0) = (inr (), (fs', set_segments [g'] l0)) ∧
    seg_post fs (Segment_init 0 interval) [] (fs', g')) as (fs' & g' & E & Hwf & Hb & Hi & Hfr).
  { unfold CommitLog_new_segment. cbn [fst snd].
    destruct (returns_inv _ _ _ (Segment_recover_fresh fs (Segment_init 0 interval)
      ltac:(simpl; lia) ltac:(simpl; lia) Hfree)) as (n & [fs' g'] & E & _ & Hp).
    exists fs', g'. split; [|done]. cbn [log_index_interval l0 set_segments]. by rewrite E. }
  apply returns_bind. eapply returns_intro; [exact E|]. cbv beta.
  apply returns_ret. eapply returns_intro; [reflexivity|]. cbn [fst snd].
  cbn [fst snd base_offset index_interval_bytes Segment_init] in Hwf, Hb, Hi, Hfr.
  constructor; cbn; try done; try lia.
  - by constructor.
  - by rewrite Hb.
  - by constructor.
  - intros name b Hin Hseg. destruct (decide (name = log_name 0)) as [->|Hn].
    { rewrite segment_base_log_name in Hseg by done. injection Hseg as <-. set_solver. }
    destruct (decide (name = index_name 0)) as [->|Hn2]; [by rewrite segment_base_index_name in Hseg|].
    rewrite Hfr in Hin by done. by destruct (Hno name b).
Qed.

Lemma log_repr_next fs l first rs : log_repr fs l first rs → log_next_offset l = first + len rs.
Proof. intros (ps & p & wf & <-). apply wf. Qed.

(** The undamaged directory is the crash image with an empty torn tail. *)
Lemma log_wf_dir fs l first ps p :
  log_wf fs l first ps p → len (enc_all (concat (ps ++ [p]))) < 2 ^ 64 → dir_wf fs first ps p [].
Proof.
  intros wf Hfit. eapply crash_dir_wf; [exact wf|done|].
  destruct (log_wf_last _ _ _ _ _ wf) as (gs & g & E & Hgs & Hg & Hbs & Hb & _).
  split; [|done]. rewrite app_nil_r, <-Hb. apply (wf_log _ _ _ Hg).
Qed.

Lemma swept_repr min_base l first ps p k s' :
  swept min_base l first ps p k s' →
  let n := length (concat (take k ps)) in
  log_repr s'.1 s'.2 (first + Z.of_nat n) (drop n (concat (ps ++ [p]))) ∧
  (n ≤ length (concat (ps ++ [p])))%nat.
Proof.
  intros (Hk & wf & _) n.
  assert (concat (ps ++ [p]) = concat (take k ps) ++ concat (drop k ps ++ [p])) as ->
    by (by rewrite <-concat_app, app_assoc, take_drop).
  unfold n. rewrite drop_app_length, length_app. split; [|lia]. by exists (drop k ps), p.
Qed.

Lemma full_concat_pos (ps : list (list LogRec)) k :
  Forall (λ q, q ≠ []) ps → (k ≤ length ps)%nat → (0 < k)%nat → (0 < length (concat (take k ps)))%nat.
Proof.
  intros Hf Hk Hpos. destruct ps as [|q ps]; [simpl in Hk; lia|]. destruct k as [|k]; [lia|].
  apply Forall_cons in Hf as [Hq _]. cbn. rewrite length_app. destruct q; [done|]. simpl. lia.
Qed.

#[export] Instance seg_log_spec : CommitLogSpec seg_log_repr.
Proof.
  constructor; unfold seg_log_repr.
  - intros s first rs (ps & p & wf & <-). split; [apply wf|]. by eapply log_wf_facts.
  - intros s first rs H. by apply log_repr_next in H.
  - intros [fs l] first rs payload timestamp now H Hr Hfit. pose proof (log_repr_next _ _ _ _ H) as Hn.
    destruct H as (ps & p & wf & <-). cbn [fst snd] in *.
    eapply returns_mono; [apply (append_spec fs l first ps p); [done|by rewrite Hn|by rewrite Hn]|].
    intros o s' (-> & ps' & p' & wf' & E). split; [done|]. exists ps', p'. split; [done|]. by rewrite E, Hn.
  - intros [fs l] first rs payloads timestamps now H Hlen Hok Hfit.
    pose proof (log_repr_next _ _ _ _ H) as Hn. destruct H as (ps & p & wf & <-). cbn [fst snd] in *.
    rewrite <-Hn in *.
    eapply returns_mono; [by apply (append_many_spec fs l first ps p)|].
    intros o s' (-> & ps' & p' & wf' & E). split; [done|]. by exists ps', p'.
  - intros [fs l] first rs o (ps & p & wf & <-). by apply read_spec.
  - intros [fs l] first rs start limit (ps & p & wf & <-) Hs. by apply read_range_loop_spec.
  - intros [fs l] first rs o H. pose proof (log_repr_next _ _ _ _ H) as Hn.
    destruct H as (ps & p & wf & <-). cbn [fst snd] in *.
    eapply returns_mono; [by apply (truncate_spec fs l first ps p)|].
    intros b s' H. destruct (o <? first); [done|]. rewrite <-Hn.
    destruct H as (-> & ps' & p' & wf' & E). split; [done|]. by exists ps', p'.
  - intros [fs l] first rs min_base (ps & p & wf & <-).
    eapply returns_mono; [by apply (truncate_segments_before_spec fs l first ps p)|].
    intros removed s' (k & -> & Hs). split; [lia|].
    exists (length (concat (take k ps))). destruct (swept_repr _ _ _ _ _ _ _ Hs) as [H1 H2].
    pose proof Hs as (Hk & wf' & _ & Hj). split_and!; [done|done| |].
    + intros Hz. replace k with O by lia. done.
    + intros Hpos. split; [apply full_concat_pos; [apply wf|done|lia]|].
      destruct ps as [|q ps]; [simpl in Hk; lia|]. apply (Hj O); [done|lia].
  - intros [fs l] first rs max_bytes interval (ps & p & wf & <-) Hfit. cbn [fst].
    eapply returns_mono; [apply (open_spec fs first ps p []); [by eapply log_wf_dir|apply unreadable_nil]|].
    intros _ s' (wf' & _). by exists ps, p.
  - intros fs0 max_bytes interval Hnone. eapply returns_mono; [by apply create_spec|].
    intros x s' wf. by exists [], [].
Qed.
