(* ===== verification/RaftLog.v ===== *)
(** * The in-memory Raft log (pylog/raft.py, class [RaftLog])

    Entries [{"index", "term", "payload"}] with contiguous 1-based indexes; the
    entries at or below a snapshot point may have been dropped. *)
From S2P Require Import Prelude Bytes.
Local Open Scope Z_scope.

Record Entry := mkEntry {
  e_index : Z;
  e_term : Z;
  e_payload : bytes;
}.

#[export] Instance Entry_eq_dec : EqDecision Entry.
Proof. solve_decision. Defined.

Record RaftLog := mkRaftLog {
  entries : list Entry;
  first_index : Z;
  snapshot_last_index : Z;
  snapshot_last_term : Z;
}.

Definition RaftLog_init : RaftLog := mkRaftLog [] 1 0 0.

Definition set_entries (x : list Entry) (l : RaftLog) : RaftLog :=
  mkRaftLog x (first_index l) (snapshot_last_index l) (snapshot_last_term l).

(** A Python slice bound: negative bounds count from the end. *)
Definition slice_bound {A} (xs : list A) (i : Z) : nat :=
  Z.to_nat (if i <? 0 then len xs + i else i).

Definition last_index (l : RaftLog) : Z :=
  match last (entries l) with Some e => e_index e | None => 0 end.

Definition last_term (l : RaftLog) : Z :=
  match last (entries l) with Some e => e_term e | None => 0 end.

(** The entry at list position [index - first_index], guarded as in [term_at] and
    [get]. *)
Definition RaftLog_get (index : Z) (l : RaftLog) : option Entry :=
  let pos := index - first_index l in
  if (0 <=? pos) && (pos <? len (entries l)) then entries l !! Z.to_nat pos else None.

Definition term_at (index : Z) (l : RaftLog) : Z :=
  if index =? 0 then 0
  else
    let pos := index - first_index l in
    if (0 <=? pos) && (pos <? len (entries l)) then
      match entries l !! Z.to_nat pos with Some e => e_term e | None => -1 end
    else -1.

Definition entries_from (index : Z) (limit : option Z) (l : RaftLog) : list Entry :=
  let out := drop (Z.to_nat (Z.max 0 (index - first_index l))) (entries l) in
  match limit with
  | None => out
  | Some n => if n =? 0 then out else take (slice_bound out n) out
  end.

Definition RaftLog_append_entry (term : Z) (payload : bytes) (l : RaftLog) : Entry * RaftLog :=
  let entry := mkEntry (last_index l + 1) term payload in
  (entry, set_entries (entries l ++ [entry]) l).

Definition compact (last_included_index last_included_term : Z) (l : RaftLog) : bool * RaftLog :=
  if last_included_index <? first_index l - 1 then (false, l)
  else if (last_index l <=? last_included_index) && negb (bool_decide (entries l = [])) then (false, l)
  else if bool_decide (entries l = []) && (last_included_index <? first_index l - 1) then (false, l)
  else
    (true, mkRaftLog (filter (λ e, last_included_index < e_index e) (entries l))
             (last_included_index + 1) last_included_index last_included_term).

(** [while i > first_index - 1 and term_at(i) != term: i -= 1] *)
Fixpoint back_to_term (fuel : nat) (term i : Z) (l : RaftLog) : Z :=
  match fuel with
  | O => i
  | S fuel' =>
      if (first_index l - 1 <? i) && negb (term_at i l =? term)
      then back_to_term fuel' term (i - 1) l else i
  end.

(** [while i > 1 and term_at(i - 1) == term: i -= 1] *)
Fixpoint back_over_term (fuel : nat) (term i : Z) (l : RaftLog) : Z :=
  match fuel with
  | O => i
  | S fuel' =>
      if (1 <? i) && (term_at (i - 1) l =? term)
      then back_over_term fuel' term (i - 1) l else i
  end.

(** Both loops decrease [i] and stop by [first_index - 1] and by 1. *)
Definition conflict_term_first_index (term from_index : Z) (l : RaftLog) : Z :=
  let i := back_to_term (Z.to_nat (from_index - (first_index l - 1))) term from_index l in
  let i := back_over_term (Z.to_nat i) term i l in
  Z.max 1 i.

(** The first loop of [merge]: the position of the first incoming entry to store,
    and the log after the conflicting suffix was deleted. *)
Fixpoint merge_scan (prev_index : Z) (k : nat) (incoming : list Entry) (l : RaftLog)
    : option nat * RaftLog :=
  match incoming with
  | [] => (None, l)
  | inc :: incoming' =>
      let idx := prev_index + 1 + Z.of_nat k in
      let local := term_at idx l in
      if local =? -1 then (Some k, l)
      else if negb (local =? e_term inc) then
        (Some k, set_entries (take (slice_bound (entries l) (idx - first_index l)) (entries l)) l)
      else merge_scan prev_index (S k) incoming' l
  end.

(** The entries stored for [incoming[k:]], renumbered. *)
Definition renumber (prev_index : Z) (k : nat) (incoming : list Entry) : list Entry :=
  imap (λ j inc, mkEntry (prev_index + 1 + Z.of_nat (k + j)) (e_term inc) (e_payload inc))
       (drop k incoming).

(** The result [(ok, match_index, conflict_hint)]. *)
Abbreviation MergeResult := (bool * Z * Z)%type.

Definition RaftLog_merge (prev_index prev_term : Z) (incoming : list Entry) (l : RaftLog)
    : MergeResult * RaftLog :=
  if last_index l <? prev_index then ((false, 0, last_index l + 1), l)
  else if negb (term_at prev_index l =? prev_term) then
    ((false, 0, conflict_term_first_index (term_at prev_index l) prev_index l), l)
  else
    let '(insert_at, l') := merge_scan prev_index 0 incoming l in
    let l'' :=
      match insert_at with
      | Some k => set_entries (entries l' ++ renumber prev_index k incoming) l'
      | None => l'
      end in
    ((true, prev_index + len incoming, 0), l'').

(** A follower with a stale suffix: the conflicting entry and everything after it
    go, the leader's entries come in. *)
Example merge_conflict :
  let e i t := mkEntry i t [] in
  RaftLog_merge 1 1 [e 2 3; e 3 3] (mkRaftLog [e 1 1; e 2 2; e 3 2; e 4 2] 1 0 0)
  = ((true, 3, 0), mkRaftLog [e 1 1; e 2 3; e 3 3] 1 0 0).
Proof. reflexivity. Qed.

(** A heartbeat does not cut a longer log. *)
Example merge_heartbeat :
  let e i t := mkEntry i t [] in
  RaftLog_merge 1 1 [] (mkRaftLog [e 1 1; e 2 2] 1 0 0) = ((true, 1, 0), mkRaftLog [e 1 1; e 2 2] 1 0 0).
Proof. reflexivity. Qed.
