(* ===== verification/RaftLogFacts.v ===== *)
(** * The Raft log: invariant and the AppendEntries core

    [RaftLog.merge] against a reference merge of two entry lists, and the
    consequences Raft needs of it: agreement with the leader, no truncation
    without a conflict, idempotence, Log Matching. *)
From S2P Require Import Prelude Bytes RaftLog.
Local Open Scope Z_scope.

(** ** Invariant *)

Record raft_log_wf (l : RaftLog) : Prop := {
  rl_first : 1 <= first_index l;
  rl_index : ∀ i e, entries l !! i = Some e → e_index e = first_index l + Z.of_nat i;
  rl_terms : Forall (λ e, 0 <= e_term e) (entries l);
}.

(** Nothing was compacted away. *)
Definition uncompacted (l : RaftLog) : Prop := first_index l = 1.

(** Entries numbered consecutively from [i]. *)
Definition numbered (i : Z) (es : list Entry) : Prop :=
  ∀ k e, es !! k = Some e → e_index e = i + Z.of_nat k.

Lemma numbered_app i a b : numbered i (a ++ b) ↔ numbered i a ∧ numbered (i + len a) b.
Proof.
  unfold numbered, len. split.
  - intros H. split; intros k e Hk.
    + apply H. by apply lookup_app_l_Some.
    + rewrite (H (length a + k)%nat e); [lia|]. rewrite lookup_app_r by lia. rewrite <-Hk. f_equal. lia.
  - intros [H1 H2] k e [Hk|[Hle Hk]]%lookup_app_Some; [by apply H1|]. rewrite (H2 _ _ Hk). lia.
Qed.

Lemma numbered_take i es n : numbered i es → numbered i (take n es).
Proof. intros H k e [Hk _]%lookup_take_Some. by apply H. Qed.

Lemma numbered_drop i es n : numbered i es → numbered (i + Z.of_nat n) (drop n es).
Proof. intros H k e Hk. rewrite lookup_drop in Hk. rewrite (H _ _ Hk). lia. Qed.

Lemma RaftLog_init_wf : raft_log_wf RaftLog_init.
Proof. split; cbn; [lia|done|constructor]. Qed.

Lemma last_index_nonempty l :
  raft_log_wf l → entries l ≠ [] → last_index l = first_index l + len (entries l) - 1.
Proof.
  intros wf Hne. unfold last_index. destruct (last (entries l)) as [e|] eqn:E; [|by apply last_None in E].
  apply last_snoc_lookup in E. rewrite (rl_index _ wf _ _ E).
  destruct (entries l); [done|]. unfold len. simpl. lia.
Qed.

Lemma last_index_uncompacted l :
  raft_log_wf l → uncompacted l → last_index l = len (entries l).
Proof.
  intros wf Hu. destruct (decide (entries l = [])) as [E|E]; [by unfold last_index; rewrite E|].
  rewrite last_index_nonempty by done. rewrite Hu. lia.
Qed.

Lemma term_at_lookup l i :
  term_at (first_index l + Z.of_nat i) l =
    if first_index l + Z.of_nat i =? 0 then 0
    else match entries l !! i with Some e => e_term e | None => -1 end.
Proof.
  unfold term_at. destruct (_ =? 0); [done|].
  replace (first_index l + Z.of_nat i - first_index l) with (Z.of_nat i) by lia. rewrite Nat2Z.id.
  destruct (entries l !! i) as [e|] eqn:E.
  - pose proof (lookup_lt_Some _ _ _ E).
    replace (_ && _) with true; [done|]. symmetry. unfold len. rewrite andb_true_iff, Z.leb_le, Z.ltb_lt. lia.
  - apply lookup_ge_None in E. replace (_ && _) with false; [done|].
    symmetry. unfold len. rewrite andb_false_iff, Z.leb_gt, Z.ltb_ge. lia.
Qed.

(** An index with a term is the sentinel or is in the log. *)
Lemma term_at_inv l i t :
  term_at i l = t → 0 <= t → i ≠ 0 →
  ∃ k e, i = first_index l + Z.of_nat k ∧ entries l !! k = Some e ∧ e_term e = t.
Proof.
  unfold term_at. intros H Ht Hi. destruct (Z.eqb_spec i 0); [done|].
  destruct (_ && _) eqn:E; [|lia]. rewrite andb_true_iff, Z.leb_le, Z.ltb_lt in E.
  destruct (entries l !! Z.to_nat (i - first_index l)) as [e|] eqn:El; [|lia].
  exists (Z.to_nat (i - first_index l)), e. split; [lia|done].
Qed.

(** ** Appending *)

Lemma append_entry_wf term payload l e l' :
  raft_log_wf l → uncompacted l ∨ entries l ≠ [] → 0 <= term →
  RaftLog_append_entry term payload l = (e, l') →
  raft_log_wf l' ∧ entries l' = entries l ++ [e] ∧ first_index l' = first_index l ∧
  e_index e = last_index l + 1 ∧ last_index l' = e_index e ∧ e_term e = term ∧ e_payload e = payload.
Proof.
  intros wf Hne Ht H. unfold RaftLog_append_entry in H. injection H as <- <-.
  split; [|split_and!; try done; unfold last_index; cbn; by rewrite last_snoc].
  split; cbn; [apply wf| |apply Forall_app; split; [apply wf|by constructor]].
  apply (numbered_app (first_index l)). split; [exact (rl_index _ wf)|].
  intros [|k] e He; [|done]. injection He as <-. cbn.
  destruct Hne as [Hu|Hne].
  - rewrite last_index_uncompacted, Hu by done. lia.
  - rewrite last_index_nonempty by done. lia.
Qed.

(** ** The conflict hint *)

Lemma back_to_term_stop fuel term i l : term_at i l = term → back_to_term fuel term i l = i.
Proof. intros <-. destruct fuel; cbn; [done|]. by rewrite Z.eqb_refl, andb_false_r. Qed.

(** The loop ends at the first index of the run of [term] that ends at [i]. *)
Lemma back_over_term_spec fuel term l : ∀ i,
  1 <= i <= Z.of_nat fuel → term_at i l = term →
  let h := back_over_term fuel term i l in
  1 <= h <= i ∧ (∀ j, h <= j <= i → term_at j l = term) ∧ (h = 1 ∨ term_at (h - 1) l ≠ term).
Proof.
  induction fuel as [|fuel IH]; intros i Hi Hterm; [lia|]. cbn.
  destruct (Z.ltb_spec 1 i) as [Hgt|Hle]; cbn [andb].
  - destruct (Z.eqb_spec (term_at (i - 1) l) term) as [Heq|Hne].
    + destruct (IH (i - 1) ltac:(lia) Heq) as (Hr & Hrun & Hend).
      split; [lia|]. split; [|done]. intros j Hj. destruct (decide (j = i)) as [->|]; [done|]. apply Hrun. lia.
    + split; [lia|]. split; [|by right]. intros j Hj. by replace j with i by lia.
  - split; [lia|]. split; [|left; lia]. intros j Hj. by replace j with i by lia.
Qed.

Lemma conflict_term_first_index_spec i l :
  1 <= i →
  let h := conflict_term_first_index (term_at i l) i l in
  1 <= h <= i ∧ (∀ j, h <= j <= i → term_at j l = term_at i l) ∧
  (h = 1 ∨ term_at (h - 1) l ≠ term_at i l).
Proof.
  intros Hi. unfold conflict_term_first_index. rewrite back_to_term_stop by done.
  pose proof (back_over_term_spec (Z.to_nat i) (term_at i l) l i ltac:(lia) eq_refl) as H. cbn in H.
  rewrite Z.max_r by lia. exact H.
Qed.

(** ** The reference merge *)

(** The local suffix after the match point against the (renumbered) incoming entries:
    equal terms keep the local entry, the first difference replaces the rest. *)
Fixpoint merge_suffix (local incoming : list Entry) : list Entry :=
  match incoming, local with
  | [], _ => local
  | _, [] => incoming
  | inc :: incoming', e :: local' =>
      if e_term e =? e_term inc then e :: merge_suffix local' incoming' else incoming
  end.

(** [merge] renumbers what it stores. *)
Definition renumbered (i : Z) (es : list Entry) : list Entry :=
  imap (λ j e, mkEntry (i + Z.of_nat j) (e_term e) (e_payload e)) es.

Lemma renumbered_cons i e es :
  renumbered i (e :: es) = mkEntry i (e_term e) (e_payload e) :: renumbered (i + 1) es.
Proof.
  unfold renumbered. cbn. rewrite Z.add_0_r. f_equal. apply imap_ext. intros j x _. cbn. f_equal. lia.
Qed.

Lemma renumbered_numbered i es : numbered i (renumbered i es).
Proof.
  intros k e Hk. unfold renumbered in Hk. rewrite list_lookup_imap in Hk.
  destruct (es !! k); [|done]. by injection Hk as <-.
Qed.

Lemma renumbered_id i es : numbered i es → renumbered i es = es.
Proof.
  intros H. apply list_eq. intros k. unfold renumbered. rewrite list_lookup_imap.
  destruct (es !! k) as [e|] eqn:E; [|done]. cbn. rewrite <-(H _ _ E). by destruct e.
Qed.

Lemma renumber_drop prev k es :
  renumber prev k es = renumbered (prev + 1 + Z.of_nat k) (drop k es).
Proof. unfold renumber, renumbered. apply imap_ext. intros j x _. f_equal. lia. Qed.

Lemma length_renumbered i es : length (renumbered i es) = length es.
Proof. apply length_imap. Qed.

(** The scan of [merge], from position [k] of the incoming entries. *)
Lemma merge_scan_spec prev l inc0 : ∀ incoming k,
  raft_log_wf l → first_index l - 1 <= prev → Forall (λ e, 0 <= e_term e) incoming →
  drop k inc0 = incoming →
  let n := Z.to_nat (prev + 1 + Z.of_nat k - first_index l) in
  (n ≤ length (entries l))%nat →
  let '(at_, l') := merge_scan prev k incoming l in
  (match at_ with Some j => entries l' ++ renumber prev j inc0 | None => entries l' end)
    = take n (entries l) ++ merge_suffix (drop n (entries l)) (renumbered (prev + 1 + Z.of_nat k) incoming)
  ∧ l' = set_entries (entries l') l.
Proof.
  induction incoming as [|inc incoming IH]; intros k wf Hprev Hts Hd n Hn.
  { cbn [merge_scan]. unfold renumbered. cbn [imap].
    assert (∀ a, merge_suffix a [] = a) as -> by by intros [].
    rewrite take_drop. by destruct l. }
  cbn [merge_scan]. apply Forall_cons in Hts as [Ht Hts]. pose proof (rl_first _ wf) as Hf1.
  assert (prev + 1 + Z.of_nat k = first_index l + Z.of_nat n) as Eidx by (unfold n; lia).
  rewrite Eidx, term_at_lookup. destruct (Z.eqb_spec (first_index l + Z.of_nat n) 0); [lia|].
  rewrite renumbered_cons.
  destruct (entries l !! n) as [e|] eqn:E.
  - pose proof (rl_terms _ wf) as Htm. rewrite Forall_forall in Htm.
    assert (0 <= e_term e) by (apply Htm; by eapply list_elem_of_lookup_2).
    destruct (Z.eqb_spec (e_term e) (-1)); [lia|].
    rewrite (drop_S _ _ _ E). cbn [merge_suffix].
    destruct (Z.eqb_spec (e_term e) (e_term inc)) as [Heq|Hne]; cbn [negb e_term].
    + destruct (Z.eqb_spec (e_term e) (e_term inc)); [|done]. pose proof (lookup_lt_Some _ _ _ E).
      specialize (IH (S k) wf Hprev Hts ltac:(by rewrite <-Nat.add_1_r, <-drop_drop, Hd)).
      cbv zeta in IH. replace (Z.to_nat (prev + 1 + Z.of_nat (S k) - first_index l)) with (S n) in IH by lia.
      replace (prev + 1 + Z.of_nat (S k)) with (first_index l + Z.of_nat n + 1) in IH by lia.
      specialize (IH ltac:(lia)). destruct (merge_scan prev (S k) incoming l) as [at_ l'].
      rewrite (take_S_r _ _ _ E), <-app_assoc in IH. exact IH.
    + destruct (Z.eqb_spec (e_term e) (e_term inc)); [done|]. cbn [entries set_entries].
      split; [|by destruct l]. rewrite renumber_drop, Hd, Eidx, renumbered_cons. f_equal.
      f_equal. unfold slice_bound. destruct (Z.ltb_spec (first_index l + Z.of_nat n - first_index l) 0); lia.
  - apply lookup_ge_None in E. rewrite Z.eqb_refl.
    split; [|by destruct l].
    rewrite take_ge, drop_ge by lia. cbn [merge_suffix].
    by rewrite renumber_drop, Hd, Eidx, renumbered_cons.
Qed.

Lemma merge_point l prev :
  raft_log_wf l → first_index l - 1 <= prev <= last_index l →
  (Z.to_nat (prev + 1 - first_index l) ≤ length (entries l))%nat.
Proof.
  intros wf Hp. destruct (decide (entries l = [])) as [E|E].
  - unfold last_index in Hp. rewrite E in Hp. cbn in Hp. pose proof (rl_first _ wf). lia.
  - rewrite last_index_nonempty in Hp by done. unfold len in Hp. lia.
Qed.

(** An accepted [merge] computes the reference merge after the match point. *)
Lemma merge_accept l prev incoming :
  raft_log_wf l → first_index l - 1 <= prev <= last_index l →
  Forall (λ e, 0 <= e_term e) incoming →
  let n := Z.to_nat (prev + 1 - first_index l) in
  RaftLog_merge prev (term_at prev l) incoming l =
    ((true, prev + len incoming, 0),
     set_entries (take n (entries l)
                  ++ merge_suffix (drop n (entries l)) (renumbered (prev + 1) incoming)) l).
Proof.
  intros wf Hp Hts n. unfold RaftLog_merge.
  destruct (Z.ltb_spec (last_index l) prev); [lia|]. rewrite Z.eqb_refl. cbn [negb].
  pose proof (merge_scan_spec prev l incoming incoming 0 wf ltac:(lia) Hts eq_refl) as H0. cbv zeta in H0.
  rewrite Z.add_0_r in H0. specialize (H0 (merge_point l prev wf Hp)). fold n in H0.
  destruct (merge_scan prev 0 incoming l) as [at_ l']. destruct H0 as [H0 El]. f_equal.
  rewrite <-H0, El. by destruct at_; destruct l.
Qed.

(** Otherwise the log is untouched. *)
Lemma merge_reject l prev prev_term incoming :
  last_index l < prev ∨ term_at prev l ≠ prev_term →
  RaftLog_merge prev prev_term incoming l =
    ((false, 0, if last_index l <? prev then last_index l + 1
                else conflict_term_first_index (term_at prev l) prev l), l).
Proof.
  intros Hr. unfold RaftLog_merge. destruct (Z.ltb_spec (last_index l) prev); [done|].
  destruct Hr as [|Hr]; [lia|]. by destruct (Z.eqb_spec (term_at prev l) prev_term).
Qed.

(** ** The reference merge *)

Lemma merge_suffix_nil a : merge_suffix a [] = a.
Proof. by destruct a. Qed.

Lemma merge_suffix_numbered i a : ∀ b, numbered i a → numbered i b → numbered i (merge_suffix a b).
Proof.
  revert i. induction a as [|x a IH]; intros i b Ha Hb; [by destruct b|].
  destruct b as [|y b]; [done|]. cbn. destruct (_ =? _); [|done].
  apply (numbered_app i [x]) in Ha as [Hx Ha]. apply (numbered_app i [y]) in Hb as [_ Hb].
  apply (numbered_app i [x]). split; [done|]. by apply IH.
Qed.

Lemma merge_suffix_terms P a : ∀ b, Forall P a → Forall P b → Forall P (merge_suffix a b).
Proof.
  induction a as [|x a IH]; intros [|y b] Ha Hb; cbn; try done.
  destruct (_ =? _); [|done]. apply Forall_cons in Ha as [Hx Ha]. apply Forall_cons in Hb as [_ Hb].
  constructor; [done|]. by apply IH.
Qed.

(** The result carries the incoming entries' terms at their positions. *)
Lemma merge_suffix_agrees a : ∀ b k y,
  b !! k = Some y → ∃ x, merge_suffix a b !! k = Some x ∧ e_term x = e_term y.
Proof.
  induction a as [|x a IH]; intros b k y Hy; [destruct b; [done|eauto]|].
  destruct b as [|y0 b]; [done|]. cbn. destruct (Z.eqb_spec (e_term x) (e_term y0)) as [E|]; [|eauto].
  destruct k as [|k]; cbn in *; [injection Hy as <-; eauto|]. by apply IH.
Qed.

Definition same_terms (a b : list Entry) : Prop :=
  ∀ k x y, a !! k = Some x → b !! k = Some y → e_term x = e_term y.

Lemma same_terms_cons x y a b : same_terms (x :: a) (y :: b) ↔ e_term x = e_term y ∧ same_terms a b.
Proof.
  unfold same_terms. split; [|intros [E H] [|k] x' y' Hx Hy; cbn in *; [congruence|by eapply H]].
  intros H. split; [by apply (H O)|]. intros k. apply (H (S k)).
Qed.

(** Without a conflict nothing local is lost. *)
Lemma merge_suffix_no_conflict a : ∀ b,
  same_terms a b → merge_suffix a b = a ++ drop (length a) b.
Proof.
  induction a as [|x a IH]; intros [|y b] H; cbn; try done; [by rewrite app_nil_r|].
  apply same_terms_cons in H as [E H]. rewrite E, Z.eqb_refl. f_equal. by apply IH.
Qed.

Lemma merge_suffix_same_terms a b : same_terms (merge_suffix a b) b.
Proof.
  intros k x y Hx Hy. destruct (merge_suffix_agrees a b k y Hy) as (x' & Hx' & E). congruence.
Qed.

Lemma merge_suffix_length a b : (length b ≤ length (merge_suffix a b))%nat.
Proof.
  destruct (decide (length b = 0)%nat) as [|Hn]; [lia|].
  destruct (b !! (length b - 1)%nat) as [y|] eqn:E; [|apply lookup_ge_None in E; lia].
  destruct (merge_suffix_agrees a b _ y E) as (x & Hx%lookup_lt_Some & _). lia.
Qed.

Lemma merge_suffix_idem a b : merge_suffix (merge_suffix a b) b = merge_suffix a b.
Proof.
  rewrite merge_suffix_no_conflict by apply merge_suffix_same_terms.
  rewrite drop_ge by apply merge_suffix_length. by rewrite app_nil_r.
Qed.

(** ** Log Matching *)

(** Two logs with an entry of the same term at the same position agree up to there. *)
Definition matching (a b : list Entry) : Prop :=
  ∀ k x y, a !! k = Some x → b !! k = Some y → e_term x = e_term y → take (S k) a = take (S k) b.

Lemma matching_tail x a b : matching (x :: a) (x :: b) → matching a b.
Proof. intros H k u v Hu Hv E. specialize (H (S k) u v Hu Hv E). by injection H. Qed.

Lemma matching_head x y a b : matching (x :: a) (y :: b) → e_term x = e_term y → x = y.
Proof. intros H E. specialize (H O x y eq_refl eq_refl E). by injection H. Qed.

Lemma matching_prefix n b : matching (take n b) b.
Proof.
  intros k x y Hx _ _. apply lookup_take_Some in Hx as [_ Hk]. rewrite take_take. f_equal. lia.
Qed.

Lemma matching_drop n a b : take n a = take n b → matching a b → matching (drop n a) (drop n b).
Proof.
  intros Ht H k x y Hx Hy E. rewrite lookup_drop in Hx, Hy. specialize (H _ _ _ Hx Hy E).
  rewrite !firstn_skipn_comm, Nat.add_succ_r. by f_equal.
Qed.

(** Against a log it matches, the merge keeps the local suffix or takes over the
    incoming slice. *)
Lemma merge_suffix_matching a : ∀ b m,
  matching a b →
  let c := merge_suffix a (take m b) in
  take (length (take m b)) c = take m b ∧ (c = a ∨ c = take m b).
Proof.
  induction a as [|x a IH]; intros b m H; cbn zeta.
  { destruct (take m b) eqn:E; cbn; [auto|]. split; [|auto]. by rewrite firstn_all. }
  destruct b as [|y b]; [rewrite take_nil; auto|]. destruct m as [|m]; [auto|]. cbn.
  destruct (Z.eqb_spec (e_term x) (e_term y)) as [E|E].
  - pose proof (matching_head _ _ _ _ H E) as <-. apply matching_tail in H.
    destruct (IH b m H) as [H1 H2]. split; [by cbn; rewrite H1|]. destruct H2 as [->| ->]; auto.
  - split; [|auto]. by rewrite take_ge by (cbn; lia).
Qed.

(** Merging a slice of [L] into a list of entries that matches it. *)
Definition merge_entries (n : nat) (local incoming : list Entry) : list Entry :=
  take n local ++ merge_suffix (drop n local) incoming.

Lemma merge_entries_matching local L n m :
  matching local L → (n ≤ length local)%nat → take n local = take n L →
  let incoming := take m (drop n L) in
  let upto := (n + length incoming)%nat in
  take upto (merge_entries n local incoming) = take upto L ∧
  (merge_entries n local incoming = local ∨ merge_entries n local incoming = take upto L).
Proof.
  intros Hm Hn Hpre incoming upto. unfold merge_entries.
  destruct (merge_suffix_matching (drop n local) (drop n L) m) as [Hup Hc]; [by apply matching_drop|].
  fold incoming in Hup, Hc.
  assert (take upto L = take n L ++ incoming) as EL.
  { rewrite <-(take_drop n L) at 1. rewrite take_app, take_take. unfold upto.
    destruct (decide (length L ≤ n)%nat).
    - unfold incoming. rewrite !(drop_ge L) by lia. rewrite !take_nil, !app_nil_r. f_equal. cbn. lia.
    - rewrite length_take. f_equal; [f_equal; lia|].
      replace (n + length incoming - n `min` length L)%nat with (length incoming) by lia.
      unfold incoming. by rewrite length_take, <-take_take, firstn_all. }
  split.
  - rewrite EL, <-Hpre. unfold upto. by rewrite take_app_add', Hup by (rewrite length_take; lia).
  - destruct Hc as [-> | ->]; [left; by rewrite take_drop|right]. by rewrite EL, Hpre.
Qed.

(** Merging a slice of a leader's log [L]: the follower ends up with the leader's
    entries up to the match index, and still matches the leader. *)
Lemma merge_matching l L n m :
  raft_log_wf l → uncompacted l → numbered 1 L → Forall (λ e, 0 <= e_term e) L →
  matching (entries l) L → (n ≤ length (entries l))%nat → take n (entries l) = take n L →
  let incoming := take m (drop n L) in
  ∃ l', RaftLog_merge (Z.of_nat n) (term_at (Z.of_nat n) l) incoming l
          = ((true, Z.of_nat n + len incoming, 0), l') ∧
    let upto := (n + length incoming)%nat in
    take upto (entries l') = take upto L ∧ matching (entries l') L ∧
    (l' = l ∨ entries l' = take upto L).
Proof.
  intros wf Hu HL Hts Hm Hn Hpre incoming.
  assert (numbered (Z.of_nat n + 1) incoming) as Hinc.
  { apply numbered_take. rewrite Z.add_comm. by apply numbered_drop. }
  assert (Forall (λ e, 0 <= e_term e) incoming) as Htinc by by apply Forall_take, Forall_drop.
  eexists. split.
  { apply merge_accept; [done| |done]. rewrite last_index_uncompacted, Hu by done. unfold len. lia. }
  rewrite Hu, renumbered_id by done. replace (Z.to_nat (Z.of_nat n + 1 - 1)) with n by lia. cbn [entries set_entries].
  fold (merge_entries n (entries l) incoming).
  destruct (merge_entries_matching (entries l) L n m) as [Hup Hc]; [done..|]. fold incoming in Hup, Hc.
  split; [done|]. split; [by destruct Hc as [-> | ->]; [|apply matching_prefix]|].
  destruct Hc as [-> | ->]; [left; by destruct l|by right].
Qed.

(** ** Compaction *)

Lemma compact_spec l idx term :
  raft_log_wf l →
  let '(ok, l') := compact idx term l in
  if ok then
    raft_log_wf l' ∧ first_index l - 1 <= idx ∧ (entries l = [] ∨ idx < last_index l) ∧
    first_index l' = idx + 1 ∧ entries l' = drop (Z.to_nat (idx + 1 - first_index l)) (entries l) ∧
    snapshot_last_index l' = idx ∧ snapshot_last_term l' = term
  else l' = l ∧ (idx < first_index l - 1 ∨ entries l ≠ [] ∧ last_index l <= idx).
Proof.
  intros wf. unfold compact.
  destruct (Z.ltb_spec idx (first_index l - 1)); [auto|].
  destruct (Z.leb_spec (last_index l) idx) as [Hle|Hgt]; cbn [andb].
  - case_bool_decide as Hnil; cbn [negb andb]; [|auto].
    split_and!; cbn; try done; try lia; [|by left|by rewrite Hnil, drop_nil].
    split; cbn; [pose proof (rl_first _ wf); lia|by rewrite Hnil|rewrite Hnil; constructor].
  - replace (bool_decide (entries l = []) && false) with false by by rewrite andb_false_r.
    assert (filter (λ e, idx < e_index e) (entries l)
            = drop (Z.to_nat (idx + 1 - first_index l)) (entries l)) as Ef.
    { set (n := Z.to_nat (idx + 1 - first_index l)). rewrite <-(take_drop n (entries l)) at 1.
      rewrite filter_app, list_filter_none, list_filter_all; [done|..].
      - intros e [k Hk]%list_elem_of_lookup. rewrite lookup_drop in Hk. rewrite (rl_index _ wf _ _ Hk). lia.
      - intros e [k Hk]%list_elem_of_lookup. apply lookup_take_Some in Hk as [Hk Hlt].
        rewrite (rl_index _ wf _ _ Hk). lia. }
    split_and!; cbn; try done; try lia.
    pose proof (rl_first _ wf). split; cbn; [lia| |rewrite Ef; apply Forall_drop, wf].
    intros i e Hi. rewrite Ef, lookup_drop in Hi. rewrite (rl_index _ wf _ _ Hi). lia.
Qed.
