(* ===== verification/DurableLog.v ===== *)
(** * The durable Raft log (pylog/durable_log.py, class [DurableRaftLog])

    An in-memory [RaftLog] mirrored in a [CommitLog]: entry [i] is record [i - 1],
    whose payload is the term as 8 big-endian bytes and then the entry's payload. *)
From S2P Require Import Prelude Bytes LogRecord FileSystem Segment CommitLog RaftLog.
Local Open Scope Z_scope.

(** [_TERM.pack(term) + bytes(payload)] *)
Definition encode_entry_payload (term : Z) (payload : bytes) : Exn + bytes :=
  if in_range 0 (2 ^ 64) term then inr (be_encode 8 term ++ payload) else inl StructError.

(** [unpack_from] needs 8 bytes. *)
Definition decode_entry_payload (blob : bytes) : Exn + (Z * bytes) :=
  if len blob <? 8 then inl StructError else inr (be_decode (take 8 blob), drop 8 blob).

(** The directory and its [CommitLog], and the cache. *)
Record DurableRaftLog := mkDurable {
  dl_disk : FS * CommitLog;
  dl_mem : RaftLog;
}.

Abbreviation DurM := (M DurableRaftLog).

Definition on_disk {A} (m : LogM A) : DurM A := λ s,
  let '(r, d) := m (dl_disk s) in (r, mkDurable d (dl_mem s)).

Definition on_mem (f : RaftLog → RaftLog) : DurM () := modify (λ s, mkDurable (dl_disk s) (f (dl_mem s))).

(** The loop of [__init__] over the records read back. *)
Fixpoint load_entries (recs : list LogRec) : DurM () :=
  match recs with
  | [] => mret ()
  | r :: recs' =>
      '(term, payload) ← lift (decode_entry_payload (rec_payload r));
      _ ← on_mem (λ l, set_entries (entries l ++ [mkEntry (rec_offset r + 1) term payload]) l);
      load_entries recs'
  end.

(** [DurableRaftLog(dir_path, max_segment_bytes)]; [CommitLog]'s index interval is its
    default. *)
Definition DurableRaftLog_init : DurM () :=
  _ ← on_disk CommitLog_init;
  _ ← on_mem (λ _, RaftLog_init);
  s ← get;
  recs ← on_disk (CommitLog_read_range 0 (log_next_offset (dl_disk s).2));
  load_entries recs.

Definition DurableRaftLog_open (max_bytes : Z) (fs : FS) : (Exn + ()) * DurableRaftLog :=
  DurableRaftLog_init (mkDurable (fs, mkLog (Z.max 1 max_bytes) 4096 [] 0) RaftLog_init).

(** [now] is the time [append_many] stamps its records with. *)
Definition DurableRaftLog_append_entry (term : Z) (payload : bytes) (now : Z) : DurM Entry :=
  s ← get;
  let entry := mkEntry (last_index (dl_mem s) + 1) term payload in
  _ ← on_mem (λ l, set_entries (entries l ++ [entry]) l);
  blob ← lift (encode_entry_payload term payload);
  _ ← on_disk (CommitLog_append_many [blob] None now);
  mret entry.

Definition truncate_disk_through (raft_index : Z) : DurM () :=
  _ ← on_disk (CommitLog_truncate_from raft_index); mret ().

(** The first index where the incoming entries leave the local log. *)
Fixpoint find_cut (prev_index : Z) (k : nat) (incoming : list Entry) (l : RaftLog) : option Z :=
  match incoming with
  | [] => None
  | inc :: incoming' =>
      let idx := prev_index + 1 + Z.of_nat k in
      let local := term_at idx l in
      if (local =? -1) || negb (local =? e_term inc) then Some idx
      else find_cut prev_index (S k) incoming' l
  end.

(** [to_add]: the incoming entries above [existing_last], renumbered. *)
Definition fresh_entries (existing_last : Z) (incoming : list Entry) : list Entry :=
  imap (λ j inc, mkEntry (existing_last + 1 + Z.of_nat j) (e_term inc) (e_payload inc))
       (filter (λ inc, existing_last < e_index inc) incoming).

(** [[encode_entry_payload(e["term"], e["payload"]) for e in to_add]] *)
Fixpoint encode_entries (es : list Entry) : Exn + list bytes :=
  match es with
  | [] => inr []
  | e :: es' =>
      match encode_entry_payload (e_term e) (e_payload e) with
      | inl x => inl x
      | inr b => match encode_entries es' with inl x => inl x | inr bs => inr (b :: bs) end
      end
  end.

Definition DurableRaftLog_merge (prev_index prev_term : Z) (incoming : list Entry) (now : Z)
    : DurM MergeResult :=
  s ← get;
  let l := dl_mem s in
  if last_index l <? prev_index then mret (false, 0, last_index l + 1)
  else if negb (term_at prev_index l =? prev_term) then
    mret (false, 0, conflict_term_first_index (term_at prev_index l) prev_index l)
  else
    _ ← match find_cut prev_index 0 incoming l with
        | None => mret ()
        | Some cut =>
            _ ← on_mem (λ l, set_entries (filter (λ e, e_index e < cut) (entries l)) l);
            _ ← on_disk (CommitLog_truncate_from (cut - 1));
            mret ()
        end;
    s ← get;
    let to_add := fresh_entries (last_index (dl_mem s)) incoming in
    _ ← on_mem (λ l, set_entries (entries l ++ to_add) l);
    _ ← when (negb (bool_decide (to_add = [])))
          (blobs ← lift (encode_entries to_add);
           _ ← on_disk (CommitLog_append_many blobs None now); mret ());
    mret (true, prev_index + len incoming, 0).

Record DurableStats := mkDurableStats {
  raft_last_index : Z; disk_records : Z; disk_bytes : Z; disk_segments : Z }.

Definition DurableRaftLog_stats (s : DurableRaftLog) : DurableStats :=
  let d := (dl_disk s).2 in
  mkDurableStats (last_index (dl_mem s)) (log_next_offset d) (st_size_bytes (CommitLog_stats d)) (len (segments d)).

(** A follower's conflicting suffix is replaced on disk too, and found again by a
    restart. *)
Definition demo_durable : (Exn + MergeResult) * DurableRaftLog :=
  (_ ← DurableRaftLog_append_entry 1 [x61] 0;
   _ ← DurableRaftLog_append_entry 1 [x62] 0;
   _ ← DurableRaftLog_append_entry 1 [x63] 0;
   DurableRaftLog_merge 1 1 [mkEntry 2 2 [x64]] 0) (DurableRaftLog_open 40 ∅).2.

Example demo_durable_runs :
  demo_durable.1 = inr (true, 2, 0)
  ∧ dl_mem demo_durable.2 = mkRaftLog [mkEntry 1 1 [x61]; mkEntry 2 2 [x64]] 1 0 0
  ∧ (DurableRaftLog_open 40 (dl_disk demo_durable.2).1).1 = inr ()
  ∧ dl_mem (DurableRaftLog_open 40 (dl_disk demo_durable.2).1).2 = dl_mem demo_durable.2.
Proof. vm_compute. repeat split. Qed.
