(* ===== verification/DurableLogFacts.v ===== *)
(** * The durable Raft log: disk and cache agree

    Proved against the contract of the commit log ([CommitLogSpec]), for any
    implementation of it. *)
From S2P Require Import Prelude Bytes LogRecord FileSystem Segment SegmentFacts CommitLog CommitLogFacts LogSpec RaftLog RaftLogFacts DurableLog.
Local Open Scope Z_scope.

(** ** The payload encoding *)

Lemma encode_entry_payload_ok t p :
  0 <= t < 2 ^ 64 → encode_entry_payload t p = inr (be_encode 8 t ++ p).
Proof. intros H. unfold encode_entry_payload. by rewrite (proj2 (in_range_true _ _ _) H). Qed.

Lemma encode_entry_payload_error t p :
  ¬ 0 <= t < 2 ^ 64 → encode_entry_payload t p = inl StructError.
Proof.
  intros H. unfold encode_entry_payload. destruct (in_range _ _ _) eqn:E; [|done].
  by apply in_range_true in E.
Qed.

Lemma decode_encode_payload t p :
  0 <= t < 2 ^ 64 → decode_entry_payload (be_encode 8 t ++ p) = inr (t, p).
Proof.
  intros Ht. unfold decode_entry_payload. rewrite len_app, len_be_encode.
  pose proof (len_nonneg p). destruct (Z.ltb_spec (Z.of_nat 8 + len p) 8); [lia|].
  rewrite take_app_len, drop_app_len by by rewrite be_encode_length.
  by rewrite be_decode_encode_id.
Qed.

(** ** What the disk stores for an entry *)

(** The entries the format can hold. *)
Definition entry_ok (e : Entry) : Prop :=
  0 <= e_term e < 2 ^ 64 ∧ len (e_payload e) + 8 <= MAX_RECORD_BYTES.

Definition stored (r : LogRec) (e : Entry) : Prop :=
  rec_payload r = be_encode 8 (e_term e) ++ e_payload e ∧ entry_ok e.

(** Bytes on disk for a list of entries. *)
Definition disk_size (es : list Entry) : Z := foldr (λ e acc, 36 + len (e_payload e) + acc) 0 es.

Lemma disk_size_app a b : disk_size (a ++ b) = disk_size a + disk_size b.
Proof. unfold disk_size. induction a as [|e a IH]; cbn; [done|]. rewrite IH. lia. Qed.

Lemma disk_size_nonneg es : 0 <= disk_size es.
Proof. induction es as [|e es IH]; cbn; [done|]. pose proof (len_nonneg (e_payload e)). unfold disk_size in IH. lia. Qed.

Lemma disk_size_len es : len es <= disk_size es.
Proof.
  induction es as [|e es IH]; [done|]. rewrite len_cons. cbn. pose proof (len_nonneg (e_payload e)).
  unfold disk_size in IH. lia.
Qed.

Lemma stored_size rs es : Forall2 stored rs es → len (enc_all rs) = disk_size es.
Proof.
  induction 1 as [|r e rs es [Hp _] _ IH]; [done|].
  rewrite enc_all_cons, len_app, enc_length, Hp, len_app, len_be_encode, IH. cbn. unfold HEADER_SIZE, disk_size. lia.
Qed.

Lemma stored_rec_ok rs es o k :
  Forall2 stored rs es → contiguous o rs → 0 <= o → o + len rs <= k → k < 2 ^ 64 →
  Forall (λ r, - 2 ^ 63 <= rec_timestamp r < 2 ^ 63) rs → Forall rec_ok rs.
Proof.
  intros H Hc Ho Hk Hfit Hts. apply Forall_forall. intros r [i Hi]%list_elem_of_lookup.
  destruct (Forall2_lookup_l _ _ _ _ _ H Hi) as (e & He & [Hp [_ Hm]]).
  pose proof (lookup_lt_Some _ _ _ Hi). rewrite Forall_forall in Hts.
  split_and!; [rewrite (Hc _ _ Hi); unfold len in *; lia..|apply Hts; by eapply list_elem_of_lookup_2| |].
  - apply Hts. by eapply list_elem_of_lookup_2.
  - rewrite Hp, len_app, len_be_encode. lia.
Qed.

Lemma encode_entries_ok es :
  Forall entry_ok es → encode_entries es = inr ((λ e, be_encode 8 (e_term e) ++ e_payload e) <$> es).
Proof.
  induction 1 as [|e es [Ht _] _ IH]; [done|]. cbn [encode_entries].
  by rewrite encode_entry_payload_ok, IH.
Qed.

(** The records of a batch written from entries, all stamped [now]. *)
Lemma batch_stored next es now :
  Forall entry_ok es →
  let bs := (λ e, be_encode 8 (e_term e) ++ e_payload e) <$> es in
  let rs := batch_records next bs (replicate (length bs) now) in
  Forall2 stored rs es ∧ Forall (λ r, rec_timestamp r = now) rs.
Proof.
  intros H. revert next. induction H as [|e es He _ IH]; intros next; cbn; [by split|].
  destruct (IH (next + 1)) as [H1 H2]. split; constructor; done.
Qed.

(** ** The conflict search *)

(** [find_cut] finds where the reference merge leaves the local suffix. *)
Lemma find_cut_spec prev l : ∀ incoming k,
  raft_log_wf l → uncompacted l → Forall (λ e, 0 <= e_term e) incoming → 0 <= prev →
  let n := Z.to_nat (prev + Z.of_nat k) in
  (n ≤ length (entries l))%nat →
  match find_cut prev k incoming l with
  | None => merge_suffix (drop n (entries l)) incoming = drop n (entries l) ∧
            (length incoming ≤ length (drop n (entries l)))%nat
  | Some cut => ∃ j, cut = prev + 1 + Z.of_nat (k + j) ∧ (j < length incoming)%nat ∧
      (n + j ≤ length (entries l))%nat ∧
      merge_suffix (drop n (entries l)) incoming = take j (drop n (entries l)) ++ drop j incoming
  end.
Proof.
  induction incoming as [|inc incoming IH]; intros k wf Hu Hts Hp n Hn.
  { cbn. rewrite merge_suffix_nil. split; [done|lia]. }
  apply Forall_cons in Hts as [Ht Hts]. cbn [find_cut].
  replace (prev + 1 + Z.of_nat k) with (first_index l + Z.of_nat n) by (rewrite Hu; lia).
  rewrite term_at_lookup. destruct (Z.eqb_spec (first_index l + Z.of_nat n) 0); [rewrite Hu in *; lia|].
  destruct (entries l !! n) as [e|] eqn:E.
  2:{ apply lookup_ge_None in E. exists O. rewrite Hu, drop_ge by lia. cbn. split_and!; try lia. done. }
  pose proof (rl_terms _ wf) as Htm. rewrite Forall_forall in Htm.
  assert (0 <= e_term e) by (apply Htm; by eapply list_elem_of_lookup_2).
  destruct (Z.eqb_spec (e_term e) (-1)); [lia|]. cbn [orb].
  rewrite (drop_S _ _ _ E). cbn [merge_suffix].
  destruct (Z.eqb_spec (e_term e) (e_term inc)) as [Heq|Hne]; cbn [negb].
  2:{ exists O. rewrite Hu. cbn. split_and!; try lia. done. }
  pose proof (lookup_lt_Some _ _ _ E).
  specialize (IH (S k) wf Hu Hts Hp). cbv zeta in IH.
  replace (Z.to_nat (prev + Z.of_nat (S k))) with (S n) in IH by lia. specialize (IH ltac:(lia)).
  destruct (find_cut prev (S k) incoming l) as [cut|].
  - destruct IH as (j & -> & Hj & Hnj & ->). exists (S j). cbn. split_and!; try lia. done.
  - destruct IH as [-> Hl]. split; [done|]. cbn. lia.
Qed.

(** The incoming entries above the end of what was kept. *)
Lemma fresh_entries_drop i j incoming :
  numbered i incoming → (j ≤ length incoming)%nat →
  fresh_entries (i + Z.of_nat j - 1) incoming = drop j incoming.
Proof.
  intros Hnum Hj. unfold fresh_entries.
  assert (filter (λ inc, i + Z.of_nat j - 1 < e_index inc) incoming = drop j incoming) as ->.
  { rewrite <-(take_drop j incoming) at 1. rewrite filter_app, list_filter_none, list_filter_all; [done|..].
    - intros e [k Hk]%list_elem_of_lookup. rewrite lookup_drop in Hk. rewrite (Hnum _ _ Hk). lia.
    - intros e [k Hk]%list_elem_of_lookup. apply lookup_take_Some in Hk as [Hk Hlt].
      rewrite (Hnum _ _ Hk). lia. }
  change (renumbered (i + Z.of_nat j - 1 + 1) (drop j incoming) = drop j incoming).
  apply renumbered_id. replace (i + Z.of_nat j - 1 + 1) with (i + Z.of_nat j) by lia. by apply numbered_drop.
Qed.

(** What is kept below the cut. *)
Lemma filter_below l cut :
  raft_log_wf l → uncompacted l → 1 <= cut →
  filter (λ e, e_index e < cut) (entries l) = take (Z.to_nat (cut - 1)) (entries l).
Proof.
  intros wf Hu Hc. set (n := Z.to_nat (cut - 1)).
  rewrite <-(take_drop n (entries l)) at 1. rewrite filter_app, list_filter_all, list_filter_none, app_nil_r; [done|..].
  - intros e [k Hk]%list_elem_of_lookup. rewrite lookup_drop in Hk. rewrite (rl_index _ wf _ _ Hk), Hu. lia.
  - intros e [k Hk]%list_elem_of_lookup. apply lookup_take_Some in Hk as [Hk Hlt].
    rewrite (rl_index _ wf _ _ Hk), Hu. lia.
Qed.

Lemma wf_set_entries l es :
  uncompacted l → numbered 1 es → Forall (λ e, 0 <= e_term e) es →
  raft_log_wf (set_entries es l) ∧ uncompacted (set_entries es l).
Proof. intros Hu Hn Ht. split; [|done]. split; cbn; [rewrite Hu; lia|by rewrite Hu|done]. Qed.

Lemma wf_take l n : raft_log_wf l → uncompacted l → raft_log_wf (set_entries (take n (entries l)) l).
Proof.
  intros wf Hu. apply wf_set_entries; [done| |apply Forall_take, wf].
  apply numbered_take. rewrite <-Hu. exact (rl_index _ wf).
Qed.

Section durable.
Context (repr : LogState → Z → list LogRec → Prop) `{!CommitLogSpec repr}.

(** The disk holds exactly the cached entries, all of them. *)
Definition durable (s : DurableRaftLog) : Prop :=
  raft_log_wf (dl_mem s) ∧ uncompacted (dl_mem s) ∧
  ∃ rs, repr (dl_disk s) 0 rs ∧ Forall2 stored rs (entries (dl_mem s)).

Lemma durable_next s : durable s → log_next_offset (dl_disk s).2 = last_index (dl_mem s).
Proof.
  intros (wf & Hu & rs & Hr & Hst). rewrite (cl_next _ _ _ Hr), last_index_uncompacted by done.
  unfold len. by rewrite (Forall2_length _ _ _ Hst).
Qed.

(** Appending a batch of entries to the disk. *)
Lemma append_stored d rs es news now :
  repr d 0 rs → Forall2 stored rs es → Forall entry_ok news →
  - 2 ^ 63 <= now < 2 ^ 63 → disk_size (es ++ news) < 2 ^ 64 →
  returns (CommitLog_append_many ((λ e, be_encode 8 (e_term e) ++ e_payload e) <$> news) None now) d
    (λ _ d', ∃ rs', repr d' 0 rs' ∧ Forall2 stored rs' (es ++ news)).
Proof.
  intros Hr Hst Hok Hnow Hfit. destruct (cl_facts _ _ _ Hr) as (_ & Hrs & Hc).
  set (bs := _ <$> news). pose proof (batch_stored (len rs) news now Hok) as [Hst' Hts]. fold bs in Hst', Hts.
  assert (Forall2 stored (rs ++ batch_records (len rs) bs (replicate (length bs) now)) (es ++ news)) as Hall
    by by apply Forall2_app.
  eapply returns_mono; [eapply (cl_append_many d 0 rs bs None now Hr)|]; cbn [default from_option]; rewrite ?Z.add_0_l.
  - by rewrite length_replicate.
  - eapply (stored_rec_ok _ news (len rs) (disk_size (es ++ news)) Hst'); [apply batch_records_contiguous|apply len_nonneg| |exact Hfit|].
    + pose proof (disk_size_len (es ++ news)). pose proof (Forall2_length _ _ _ Hall) as Hl.
      rewrite !length_app in Hl. unfold len in *. rewrite length_app in *. lia.
    + eapply Forall_impl; [exact Hts|]. intros r ->. done.
  - unfold log_fits. by rewrite (stored_size _ _ Hall).
  - intros x d' [_ H]. eauto.
Qed.

Lemma append_entry_spec s term payload now :
  durable s → - 2 ^ 63 <= now < 2 ^ 63 →
  let e := mkEntry (last_index (dl_mem s) + 1) term payload in
  entry_ok e → disk_size (entries (dl_mem s) ++ [e]) < 2 ^ 64 →
  returns (DurableRaftLog_append_entry term payload now) s
    (λ e' s', (e', dl_mem s') = RaftLog_append_entry term payload (dl_mem s) ∧ durable s').
Proof.
  intros (wf & Hu & rs & Hr & Hst) Hnow e He Hfit. destruct s as [d l]. cbn in *.
  unfold DurableRaftLog_append_entry.
  apply returns_bind. eapply returns_intro; [reflexivity|]. cbn [dl_mem]. fold e.
  apply returns_bind. eapply returns_intro; [reflexivity|]. cbn [dl_mem dl_disk].
  apply returns_bind. eapply returns_intro; [unfold lift; by rewrite encode_entry_payload_ok by apply He|].
  cbv beta. apply returns_bind.
  pose proof (append_stored d rs (entries l) [e] now Hr Hst ltac:(by constructor) Hnow Hfit) as H.
  apply returns_inv in H as (x & d' & E & rs' & Hr' & Hst'). eapply returns_intro.
  { unfold on_disk. cbn [dl_disk]. cbn [fmap list_fmap e e_term e_payload] in E. by rewrite E. }
  apply returns_ret. cbn [dl_mem]. split; [done|]. unfold durable. cbn [dl_mem dl_disk].
  destruct (append_entry_wf term payload l _ _ wf ltac:(by left) ltac:(apply He) eq_refl) as (wf' & _).
  split_and!; [exact wf'|exact Hu|eauto].
Qed.

(** The two ways [merge] goes on after the log-matching check. *)
Lemma store_fresh d l rs news now :
  repr d 0 rs → Forall2 stored rs (entries l) → Forall entry_ok news →
  - 2 ^ 63 <= now < 2 ^ 63 → disk_size (entries l ++ news) < 2 ^ 64 →
  returns (_ ← on_mem (λ l, set_entries (entries l ++ news) l);
           when (negb (bool_decide (news = [])))
             (blobs ← lift (encode_entries news); _ ← on_disk (CommitLog_append_many blobs None now); mret ()))
    (mkDurable d l)
    (λ _ s', dl_mem s' = set_entries (entries l ++ news) l ∧
       ∃ rs', repr (dl_disk s') 0 rs' ∧ Forall2 stored rs' (entries l ++ news)).
Proof.
  intros Hr Hst Hok Hnow Hfit. apply returns_bind. eapply returns_intro; [reflexivity|]. cbn [dl_mem dl_disk].
  case_bool_decide as Hnil; cbn [negb when].
  - apply returns_ret. cbn [dl_mem dl_disk]. split; [done|]. subst news. rewrite app_nil_r. eauto.
  - apply returns_bind. eapply returns_intro; [unfold lift; by rewrite encode_entries_ok|]. cbv beta.
    pose proof (append_stored d rs (entries l) news now Hr Hst Hok Hnow Hfit) as H.
    apply returns_inv in H as (x & d' & E & rs' & Hr' & Hst').
    apply returns_bind. eapply returns_intro; [unfold on_disk; cbn [dl_disk]; by rewrite E|].
    apply returns_ret. cbn [dl_mem dl_disk]. eauto.
Qed.

(** The part of [merge] that drops a conflicting suffix. *)
Definition cut_suffix (cut : option Z) : DurM () :=
  match cut with
  | None => mret ()
  | Some cut =>
      _ ← on_mem (λ l, set_entries (filter (λ e, e_index e < cut) (entries l)) l);
      _ ← on_disk (CommitLog_truncate_from (cut - 1));
      mret ()
  end.

Lemma cut_suffix_spec d l rs cut :
  raft_log_wf l → uncompacted l → repr d 0 rs → Forall2 stored rs (entries l) → 1 <= cut →
  returns (cut_suffix (Some cut)) (mkDurable d l)
    (λ _ s', dl_mem s' = set_entries (take (Z.to_nat (cut - 1)) (entries l)) l ∧
       ∃ rs', repr (dl_disk s') 0 rs' ∧ Forall2 stored rs' (take (Z.to_nat (cut - 1)) (entries l))).
Proof.
  intros wf Hu Hr Hst Hc. unfold cut_suffix.
  apply returns_bind. eapply returns_intro; [reflexivity|]. cbn [dl_mem dl_disk].
  rewrite filter_below by done. pose proof (cl_truncate d 0 rs (cut - 1) Hr) as H.
  destruct (Z.ltb_spec (cut - 1) 0); [lia|].
  apply returns_inv in H as (b & d' & E & _ & Hr'). rewrite Z.sub_0_r in Hr'.
  apply returns_bind. eapply returns_intro; [unfold on_disk; cbn [dl_disk]; by rewrite E|].
  apply returns_ret. cbn [dl_mem dl_disk]. split; [done|].
  exists (take (Z.to_nat (cut - 1)) rs). split; [done|]. by apply Forall2_take.
Qed.

(** The entries on disk and in the cache that an accepted [merge] ends with. *)
Lemma merge_result_split l prev incoming :
  raft_log_wf l → uncompacted l → 0 <= prev <= last_index l →
  Forall (λ e, 0 <= e_term e) incoming → numbered (prev + 1) incoming →
  let n := Z.to_nat prev in
  let result := take n (entries l) ++ merge_suffix (drop n (entries l)) incoming in
  match find_cut prev 0 incoming l with
  | None => result = entries l ∧ fresh_entries (last_index l) incoming = []
  | Some cut =>
      1 <= cut ∧ let kept := take (Z.to_nat (cut - 1)) (entries l) in
      result = kept ++ fresh_entries (last_index (set_entries kept l)) incoming ∧
      fresh_entries (last_index (set_entries kept l)) incoming ⊆ incoming
  end.
Proof.
  intros wf Hu Hp Hts Hnum n. rewrite (last_index_uncompacted l) in * by done.
  pose proof (find_cut_spec prev l incoming 0 wf Hu Hts ltac:(lia)) as H. cbv zeta in H.
  rewrite Z.add_0_r in H. fold n in H. unfold len in Hp. specialize (H ltac:(lia)).
  destruct (find_cut prev 0 incoming l) as [cut|].
  - destruct H as (j & -> & Hj & Hnj & ->). split; [lia|]. cbv zeta.
    replace (Z.to_nat (prev + 1 + Z.of_nat (0 + j) - 1)) with (n + j)%nat by lia.
    rewrite last_index_uncompacted; [|by apply wf_take|done]. cbn [entries set_entries].
    replace (len (take (n + j) (entries l))) with (prev + 1 + Z.of_nat j - 1)
      by (unfold len; rewrite length_take; lia).
    rewrite fresh_entries_drop by (done || lia). split.
    + by rewrite app_assoc, take_take_drop.
    + intros x [k Hk]%list_elem_of_lookup. rewrite lookup_drop in Hk. by eapply list_elem_of_lookup_2.
  - destruct H as [-> Hl]. rewrite take_drop. split; [done|]. rewrite length_drop in Hl.
    unfold fresh_entries. rewrite list_filter_none; [done|].
    intros e [k Hk]%list_elem_of_lookup. pose proof (lookup_lt_Some _ _ _ Hk).
    rewrite (Hnum _ _ Hk). unfold len. lia.
Qed.

Lemma durable_store d l rs incoming now :
  uncompacted l → raft_log_wf l → repr d 0 rs → Forall2 stored rs (entries l) →
  let news := fresh_entries (last_index l) incoming in
  Forall entry_ok news → raft_log_wf (set_entries (entries l ++ news) l) →
  - 2 ^ 63 <= now < 2 ^ 63 → disk_size (entries l ++ news) < 2 ^ 64 →
  ∀ res : MergeResult,
  returns (s ← get;
           let to_add := fresh_entries (last_index (dl_mem s)) incoming in
           _ ← on_mem (λ l, set_entries (entries l ++ to_add) l);
           _ ← when (negb (bool_decide (to_add = [])))
                 (blobs ← lift (encode_entries to_add);
                  _ ← on_disk (CommitLog_append_many blobs None now); mret ());
           mret res) (mkDurable d l)
    (λ res' s', res' = res ∧ dl_mem s' = set_entries (entries l ++ news) l ∧ durable s').
Proof.
  intros Hu wf Hr Hst news Hok wf' Hnow Hfit res.
  apply returns_bind. eapply returns_intro; [reflexivity|]. cbn [dl_mem]. fold news.
  pose proof (store_fresh d l rs news now Hr Hst Hok Hnow Hfit) as H.
  apply returns_inv in H as (u & s' & E & Em & rs' & Hr' & Hst').
  unfold mbind, M_bind in E. unfold returns, mbind, M_bind. cbn [on_mem modify] in E |- *.
  rewrite E. cbn. split_and!; [done|done|].
  unfold durable. rewrite Em. split_and!; [exact wf'|exact Hu|eauto].
Qed.

(** What fits on disk: terms, payloads and the total size. *)
Definition storable (l : RaftLog) : Prop := Forall entry_ok (entries l) ∧ disk_size (entries l) < 2 ^ 64.

(** [DurableRaftLog.merge] computes [RaftLog.merge], and its disk follows. *)
Lemma durable_merge_computes s prev prev_term incoming now :
  durable s → 0 <= prev → numbered (prev + 1) incoming → Forall (λ e, 0 <= e_term e) incoming →
  - 2 ^ 63 <= now < 2 ^ 63 → storable (RaftLog_merge prev prev_term incoming (dl_mem s)).2 →
  returns (DurableRaftLog_merge prev prev_term incoming now) s
    (λ res s', (res, dl_mem s') = RaftLog_merge prev prev_term incoming (dl_mem s) ∧ durable s').
Proof.
  intros Hs Hp Hnum Hts Hnow [Hok Hfit]. pose proof Hs as (wf & Hu & rs & Hr & Hst).
  destruct s as [d l]. cbn [dl_mem dl_disk] in *. unfold DurableRaftLog_merge.
  apply returns_bind. eapply returns_intro; [reflexivity|]. cbn [dl_mem].
  destruct (Z.ltb_spec (last_index l) prev) as [Hgap|Hle].
  { apply returns_ret. rewrite merge_reject by by left. by rewrite (proj2 (Z.ltb_lt _ _) Hgap). }
  destruct (Z.eqb_spec (term_at prev l) prev_term) as [<-|Hne]; cbn [negb].
  2:{ apply returns_ret. rewrite merge_reject by by right. by rewrite (proj2 (Z.ltb_ge _ _) Hle). }
  pose proof (merge_accept l prev incoming wf ltac:(rewrite Hu; lia) Hts) as Hmerge. cbv zeta in Hmerge.
  rewrite renumbered_id, Hu in Hmerge by done. replace (prev + 1 - 1) with prev in Hmerge by lia.
  rewrite Hmerge in Hok, Hfit |- *. cbn [snd entries set_entries] in Hok, Hfit.
  pose proof (merge_result_split l prev incoming wf Hu ltac:(lia) Hts Hnum) as Hsplit. cbv zeta in Hsplit.
  set (result := take (Z.to_nat prev) (entries l) ++ _) in *.
  assert (raft_log_wf (set_entries result l)) as wfr.
  { apply wf_set_entries; [done|..].
    - apply numbered_app. pose proof (rl_index _ wf) as Hn. rewrite Hu in Hn.
      assert (1 + len (take (Z.to_nat prev) (entries l)) = prev + 1) as ->.
      { rewrite last_index_uncompacted in Hle by done. unfold len in *. rewrite length_take. lia. }
      split; [by apply numbered_take|]. apply merge_suffix_numbered; [|done].
      replace (prev + 1) with (1 + Z.of_nat (Z.to_nat prev)) by lia. by apply numbered_drop.
    - apply Forall_app. split; [apply Forall_take, wf|].
      apply merge_suffix_terms; [apply Forall_drop, wf|done]. }
  change (match find_cut prev 0 incoming l with None => mret () | Some cut => _ end)
    with (cut_suffix (find_cut prev 0 incoming l)).
  destruct (find_cut prev 0 incoming l) as [cut|].
  - destruct Hsplit as (Hcut & Eres & Hsub).
    apply returns_bind. eapply returns_mono; [by apply (cut_suffix_spec d l rs cut)|].
    intros _ [d1 l1] (El & rs1 & Hr1 & Hst1). cbn [dl_mem dl_disk] in *. rewrite Eres in *. subst l1.
    eapply returns_mono.
    { apply (durable_store d1 _ rs1 incoming now); try done; [by apply wf_take|]. by apply Forall_app in Hok as [_ Hok]. }
    intros res s' (-> & -> & Hd). done.
  - destruct Hsplit as [Eres Efresh]. cbn [cut_suffix]. apply returns_bind, returns_ret.
    eapply returns_mono.
    { apply (durable_store d l rs incoming now); try done; rewrite Efresh, ?app_nil_r; [constructor|by destruct l|].
      by rewrite <-Eres. }
    intros res s' (-> & -> & Hd). rewrite Efresh, app_nil_r in *. by rewrite Eres.
Qed.

Lemma stored_ok rs es : Forall2 stored rs es → Forall entry_ok es.
Proof. induction 1 as [|r e rs es [_ Hok] _ IH]; by constructor. Qed.

(** Merging entries that can be stored. *)
Lemma durable_merge_spec s prev prev_term incoming now :
  durable s → 0 <= prev → numbered (prev + 1) incoming → Forall entry_ok incoming →
  - 2 ^ 63 <= now < 2 ^ 63 →
  disk_size (entries (RaftLog_merge prev prev_term incoming (dl_mem s)).2) < 2 ^ 64 →
  returns (DurableRaftLog_merge prev prev_term incoming now) s
    (λ res s', (res, dl_mem s') = RaftLog_merge prev prev_term incoming (dl_mem s) ∧ durable s').
Proof.
  intros Hs Hp Hnum Hok Hnow Hfit. pose proof Hs as (wf & Hu & rs & Hr & Hst).
  assert (Forall (λ e, 0 <= e_term e) incoming) as Hts by (eapply Forall_impl; [exact Hok|]; unfold entry_ok; lia).
  apply durable_merge_computes; try done. split; [|done]. pose proof (stored_ok _ _ Hst) as Hall.
  destruct (decide (last_index (dl_mem s) < prev ∨ term_at prev (dl_mem s) ≠ prev_term)) as [Hrej|Hacc].
  { by rewrite merge_reject. }
  assert (prev <= last_index (dl_mem s) ∧ term_at prev (dl_mem s) = prev_term) as [Hle <-] by lia.
  rewrite (merge_accept (dl_mem s)) by (done || rewrite Hu; lia). rewrite renumbered_id by done. cbn [snd set_entries entries].
  apply Forall_app. split; [by apply Forall_take|]. apply merge_suffix_terms; [by apply Forall_drop|done].
Qed.

(** ** Restart *)

Lemma load_entries_spec rs es : ∀ d l,
  Forall2 stored rs es → contiguous (len (entries l)) rs → numbered (len (entries l) + 1) es →
  load_entries rs (mkDurable d l) = (inr (), mkDurable d (set_entries (entries l ++ es) l)).
Proof.
  intros d l H. revert l. induction H as [|r e rs es [Hp Hok] _ IH]; intros l Hc Hn; cbn [load_entries].
  { rewrite app_nil_r. by destruct l. }
  erewrite bind_ok; [|by unfold lift; rewrite Hp, decode_encode_payload by apply Hok]. cbv beta iota.
  erewrite bind_ok; [|reflexivity]. cbn [dl_mem dl_disk].
  pose proof (Hc O r eq_refl) as Ho. pose proof (Hn O e eq_refl) as Hi.
  assert (mkEntry (rec_offset r + 1) (e_term e) (e_payload e) = e) as -> by (destruct e; cbn in *; f_equal; lia).
  rewrite IH; cbn [entries set_entries]; rewrite ?len_app, ?len_cons, ?len_nil.
  - by rewrite <-app_assoc.
  - intros k r' Hk. rewrite (Hc (S k) r' Hk). lia.
  - intros k e' Hk. rewrite (Hn (S k) e' Hk). lia.
Qed.

(** Reopening the directory of a durable log gives the same log. *)
Lemma durable_reopen_log s max_bytes :
  durable s → disk_size (entries (dl_mem s)) < 2 ^ 64 →
  returns DurableRaftLog_init (mkDurable ((dl_disk s).1, mkLog (Z.max 1 max_bytes) 4096 [] 0) RaftLog_init)
    (λ _ s', dl_mem s' = set_entries (entries (dl_mem s)) RaftLog_init ∧ durable s').
Proof.
  intros (wf & Hu & rs & Hr & Hst) Hfit. destruct s as [d l]. cbn [dl_mem dl_disk] in *.
  unfold DurableRaftLog_init. pose proof (cl_reopen d 0 rs max_bytes 4096 Hr) as H.
  unfold log_fits in H. rewrite (stored_size _ _ Hst) in H. specialize (H Hfit).
  apply returns_inv in H as (u & d' & E & Hr').
  apply returns_bind. eapply returns_intro; [unfold on_disk; cbn [dl_disk]; by rewrite E|].
  cbn [dl_mem]. apply returns_bind. eapply returns_intro; [reflexivity|]. cbn [dl_mem dl_disk].
  apply returns_bind. eapply returns_intro; [reflexivity|]. cbn [dl_mem dl_disk].
  destruct (cl_facts _ _ _ Hr') as (_ & _ & Hc). rewrite (cl_next _ _ _ Hr'). cbn [Z.add].
  apply returns_bind. eapply returns_intro.
  { unfold on_disk. cbn [dl_disk]. by rewrite (cl_read_range _ _ _ _ _ Hr') by done. }
  cbn [dl_mem]. rewrite Z.sub_diag, drop_0, take_ge by (unfold len; lia).
  eapply returns_intro; [apply (load_entries_spec rs (entries l)); [done|exact Hc|]|].
  { pose proof (rl_index _ wf) as Hn. rewrite Hu in Hn. exact Hn. }
  cbn [dl_mem entries set_entries RaftLog_init app]. split; [done|].
  unfold durable. cbn [dl_mem dl_disk]. split_and!; [|done|eauto].
  apply (wf_set_entries RaftLog_init); [done| |apply wf].
  pose proof (rl_index _ wf) as Hn. rewrite Hu in Hn. exact Hn.
Qed.

Lemma durable_reopen s max_bytes :
  durable s → disk_size (entries (dl_mem s)) < 2 ^ 64 →
  returns DurableRaftLog_init (mkDurable ((dl_disk s).1, mkLog (Z.max 1 max_bytes) 4096 [] 0) RaftLog_init)
    (λ _ s', entries (dl_mem s') = entries (dl_mem s) ∧ durable s').
Proof.
  intros Hs Hfit. eapply returns_mono; [by apply durable_reopen_log|]. intros _ s' [-> Hd]. done.
Qed.

(** A new directory gives the empty log. *)
Lemma durable_create fs max_bytes :
  list_bases fs = [] →
  returns DurableRaftLog_init (mkDurable (fs, mkLog (Z.max 1 max_bytes) 4096 [] 0) RaftLog_init)
    (λ _ s', entries (dl_mem s') = [] ∧ durable s').
Proof.
  intros Hn. unfold DurableRaftLog_init.
  pose proof (cl_create fs max_bytes 4096 Hn) as H. apply returns_inv in H as (u & d' & E & Hr').
  apply returns_bind. eapply returns_intro; [unfold on_disk; cbn [dl_disk]; by rewrite E|].
  cbn [dl_mem]. apply returns_bind. eapply returns_intro; [reflexivity|]. cbn [dl_mem dl_disk].
  apply returns_bind. eapply returns_intro; [reflexivity|]. cbn [dl_mem dl_disk].
  apply returns_bind. eapply returns_intro.
  { unfold on_disk. cbn [dl_disk]. by rewrite (cl_read_range _ _ _ _ _ Hr') by done. }
  rewrite drop_nil, take_nil. apply returns_ret. cbn [dl_mem entries RaftLog_init]. split; [done|].
  split_and!; [apply RaftLog_init_wf|done|]. exists []. by split; [|constructor].
Qed.
End durable.
