(* ===== verification/Unicode.v ===== *)
(** * UTF-8 and the representation of Python strings

    A Python [str] is represented by its UTF-8 bytes, as a [string].  A lone
    surrogate U+DC80..U+DCFF is represented by the single byte it stands for under
    the [surrogateescape] convention, so every byte string represents a [str]; it is
    valid UTF-8 exactly when the [str] can be encoded. *)
From stdpp Require Export strings.
From Stdlib Require Import Ascii.
From S2P Require Import Prelude Bytes.
Local Open Scope Z_scope.

Definition str_of_bytes (b : bytes) : string := String.string_of_list_byte b.
Definition bytes_of_str (s : string) : bytes := String.list_byte_of_string s.

Lemma str_of_bytes_of_str s : str_of_bytes (bytes_of_str s) = s.
Proof. apply String.string_of_list_byte_of_string. Qed.

Lemma bytes_of_str_of_bytes b : bytes_of_str (str_of_bytes b) = b.
Proof. apply String.list_byte_of_string_of_list_byte. Qed.

Lemma bytes_of_str_inj s t : bytes_of_str s = bytes_of_str t → s = t.
Proof. intros E. by rewrite <-(str_of_bytes_of_str s), E, str_of_bytes_of_str. Qed.

(** ** One character

    What a decoder finds at the front of a byte string: a code point, or the bytes
    of an ill-formed sequence (the longest that begins a well-formed one). *)
Inductive Char : Type := Cp (u : Z) | Bad (b : bytes).

Definition byte_in (lo hi : Z) (b : byte) : bool := (lo <=? byte_to_Z b) && (byte_to_Z b <=? hi).
Definition cont_byte : byte → bool := byte_in 128 191.

(** The range of the second byte, the number of continuation bytes after the
    second, and the payload bits of the lead byte: shortest forms only, no
    surrogates, at most U+10FFFF. *)
Definition lead (z : Z) : option (Z * Z * nat * Z) :=
  if (194 <=? z) && (z <=? 223) then Some (128, 191, 0%nat, z - 192)
  else if z =? 224 then Some (160, 191, 1%nat, 0)
  else if z =? 237 then Some (128, 159, 1%nat, 13)
  else if (225 <=? z) && (z <=? 239) then Some (128, 191, 1%nat, z - 224)
  else if z =? 240 then Some (144, 191, 2%nat, 0)
  else if (241 <=? z) && (z <=? 243) then Some (128, 191, 2%nat, z - 240)
  else if z =? 244 then Some (128, 143, 2%nat, 4)
  else None.

Fixpoint utf8_more (k : nat) (u : Z) (got s : bytes) : Char * bytes :=
  match k, s with
  | O, _ => (Cp u, s)
  | S k', b :: s' =>
      if cont_byte b then utf8_more k' (u * 64 + (byte_to_Z b - 128)) (got ++ [b]) s'
      else (Bad got, s)
  | S _, [] => (Bad got, s)
  end.

(** The character at the front of [a :: s] and what follows it. *)
Definition utf8_next (a : byte) (s : bytes) : Char * bytes :=
  let z := byte_to_Z a in
  if z <? 128 then (Cp z, s)
  else match lead z, s with
  | Some (lo, hi, k, u), b :: s' =>
      if byte_in lo hi b then utf8_more k (u * 64 + (byte_to_Z b - 128)) [a; b] s' else (Bad [a], s)
  | _, _ => (Bad [a], s)
  end.

Fixpoint utf8_loop (fuel : nat) (s : bytes) : list Char :=
  match fuel, s with
  | S fuel', a :: s' => let '(c, s'') := utf8_next a s' in c :: utf8_loop fuel' s''
  | _, _ => []
  end.

(** Each character takes at least one byte. *)
Definition utf8_chars (s : bytes) : list Char := utf8_loop (length s) s.

(** ** [bytes.decode("utf-8")] *)

Definition is_cp (c : Char) : bool := match c with Cp _ => true | Bad _ => false end.

Definition utf8_valid (s : bytes) : bool := forallb is_cp (utf8_chars s).

Definition utf8_decode (b : bytes) : Exn + string :=
  if utf8_valid b then inr (str_of_bytes b) else inl UnicodeDecodeError.

(** The UTF-8 form of a code point. *)
Definition utf8_encode (u : Z) : bytes :=
  Z_to_byte <$>
    (if u <? 128 then [u]
     else if u <? 2048 then [192 + u / 64; 128 + u mod 64]
     else if u <? 65536 then [224 + u / 4096; 128 + u / 64 mod 64; 128 + u mod 64]
     else [240 + u / 262144; 128 + u / 4096 mod 64; 128 + u / 64 mod 64; 128 + u mod 64]).

Definition char_bytes (c : Char) : bytes := match c with Cp u => utf8_encode u | Bad b => b end.

(** [bytes.decode("utf-8", "replace")]: each ill-formed sequence becomes U+FFFD. *)
Definition utf8_replace (s : bytes) : string :=
  str_of_bytes (concat ((λ c, utf8_encode match c with Cp u => u | Bad _ => 65533 end) <$> utf8_chars s)).

Example utf8_euro : utf8_chars [x41; xe2; x82; xac; xf0; x9f; x98; x80] = [Cp 65; Cp 8364; Cp 128512].
Proof. vm_compute. reflexivity. Qed.

Example utf8_bad : utf8_chars [xe2; x82; x41; xc0; xed; xa0] = [Bad [xe2; x82]; Cp 65; Bad [xc0]; Bad [xed]; Bad [xa0]].
Proof. vm_compute. reflexivity. Qed.

(** ** Splitting into characters loses nothing *)

(** The code points a decoder yields, and the bytes of an ill-formed sequence. *)
Definition scalar (u : Z) : Prop := 0 <= u < 55296 ∨ 57344 <= u < 1114112.

Definition char_ok (c : Char) : Prop :=
  match c with Cp u => scalar u | Bad b => b ≠ [] ∧ Forall (λ x, 128 <= byte_to_Z x) b end.

Lemma byte_in_true lo hi b : byte_in lo hi b = true ↔ lo <= byte_to_Z b <= hi.
Proof. unfold byte_in. rewrite andb_true_iff, !Z.leb_le. lia. Qed.

Lemma Z_to_byte_eq z b : z = byte_to_Z b → Z_to_byte z = b.
Proof. intros ->. apply Z_to_byte_to_Z. Qed.

(** A lead byte announces a well-formed sequence of two to four bytes. *)
Lemma lead_spec z lo hi k u :
  lead z = Some (lo, hi, k, u) → 194 <= z ∧ 128 <= lo ∧ hi <= 191 ∧
  ((k = 0%nat ∧ u = z - 192 ∧ 2 <= u <= 31) ∨
   (k = 1%nat ∧ u = z - 224 ∧ 0 <= u <= 15 ∧ (u = 0 → 160 <= lo) ∧ (u = 13 → hi <= 159)) ∨
   (k = 2%nat ∧ u = z - 240 ∧ 0 <= u <= 4 ∧ (u = 0 → 144 <= lo) ∧ (u = 4 → hi <= 143))).
Proof.
  unfold lead. intros H.
  repeat (case_match; [simplify_eq; rewrite ?andb_true_iff, ?Z.leb_le, ?Z.eqb_eq in *; lia|]). done.
Qed.

Lemma utf8_encode_2 x y :
  2 <= x <= 31 → 0 <= y < 64 →
  utf8_encode (x * 64 + y) = [Z_to_byte (192 + x); Z_to_byte (128 + y)].
Proof.
  intros Hx Hy. unfold utf8_encode.
  destruct (Z.ltb_spec (x * 64 + y) 128); [lia|]. destruct (Z.ltb_spec (x * 64 + y) 2048); [|lia].
  cbn. repeat (f_equal; try div_lia).
Qed.

Lemma utf8_encode_3 x y z :
  0 <= x <= 15 → 0 <= y < 64 → 0 <= z < 64 → (x = 0 → 32 <= y) →
  utf8_encode ((x * 64 + y) * 64 + z) = [Z_to_byte (224 + x); Z_to_byte (128 + y); Z_to_byte (128 + z)].
Proof.
  intros Hx Hy Hz H0. unfold utf8_encode. set (u := _ + z).
  assert (u / 64 = x * 64 + y) as E1 by (unfold u; div_lia).
  assert (u / 4096 = x) as E2 by (unfold u; div_lia).
  assert (u mod 64 = z) as E3 by (unfold u; div_lia).
  destruct (Z.ltb_spec u 128); [lia|]. destruct (Z.ltb_spec u 2048); [lia|].
  destruct (Z.ltb_spec u 65536); [|lia]. rewrite E1, E2, E3. cbn. repeat (f_equal; try div_lia).
Qed.

Lemma utf8_encode_4 x y z t :
  0 <= x <= 4 → 0 <= y < 64 → 0 <= z < 64 → 0 <= t < 64 → (x = 0 → 16 <= y) →
  utf8_encode (((x * 64 + y) * 64 + z) * 64 + t) =
    [Z_to_byte (240 + x); Z_to_byte (128 + y); Z_to_byte (128 + z); Z_to_byte (128 + t)].
Proof.
  intros Hx Hy Hz Ht H0. unfold utf8_encode. set (u := _ + t).
  assert (u / 64 = (x * 64 + y) * 64 + z) as E1 by (unfold u; div_lia).
  assert (u / 4096 = x * 64 + y) as E2 by (unfold u; div_lia).
  assert (u / 262144 = x) as E3 by (unfold u; div_lia).
  assert (u mod 64 = t) as E4 by (unfold u; div_lia).
  destruct (Z.ltb_spec u 128); [lia|]. destruct (Z.ltb_spec u 2048); [lia|].
  destruct (Z.ltb_spec u 65536); [lia|]. rewrite E1, E2, E3, E4. cbn. repeat (f_equal; try div_lia).
Qed.

(** What [utf8_more] leaves: the ill-formed prefix, or the code point of [k] more
    continuation bytes. *)
Lemma utf8_more_spec k : ∀ u got s c s',
  utf8_more k u got s = (c, s') →
  (∃ bs, c = Bad (got ++ bs) ∧ s = bs ++ s' ∧ Forall (λ x, 128 <= byte_to_Z x) bs) ∨
  (∃ bs, length bs = k ∧ s = bs ++ s' ∧ Forall (λ x, 128 <= byte_to_Z x <= 191) bs ∧
     c = Cp (foldl (λ a x, a * 64 + (byte_to_Z x - 128)) u bs)).
Proof.
  induction k as [|k IH]; intros u got s c s'.
  { intros [= <- <-]. right. by exists []. }
  destruct s as [|b s]; cbn [utf8_more].
  { intros [= <- <-]. left. exists []. by rewrite app_nil_r. }
  destruct (cont_byte b) eqn:E.
  2:{ intros [= <- <-]. left. exists []. by rewrite app_nil_r. }
  unfold cont_byte in E. apply byte_in_true in E.
  intros [(bs & -> & -> & Hbs)|(bs & Hl & -> & Hbs & ->)]%IH.
  - left. exists (b :: bs). rewrite <-app_assoc. split_and!; [done..|]. constructor; [lia|done].
  - right. exists (b :: bs). cbn. split_and!; [by rewrite Hl|done| |done]. by constructor.
Qed.

Lemma utf8_next_split a s c s' :
  utf8_next a s = (c, s') → a :: s = char_bytes c ++ s' ∧ char_ok c.
Proof.
  pose proof (byte_to_Z_bound a) as Ha. unfold utf8_next. destruct (Z.ltb_spec (byte_to_Z a) 128) as [?|Hge].
  { intros [= <- <-]. cbn. unfold utf8_encode. destruct (Z.ltb_spec (byte_to_Z a) 128); [|lia].
    cbn. rewrite Z_to_byte_to_Z. split; [done|]. unfold scalar. lia. }
  assert (∀ r, (Bad [a], r) = (c, s') → r = s → a :: s = char_bytes c ++ s' ∧ char_ok c) as Hbad.
  { intros r [= <- <-] ->. split; [done|]. cbn. split; [done|]. by repeat constructor. }
  destruct (lead (byte_to_Z a)) as [[[[lo hi] k] u]|] eqn:E; [|by eauto].
  destruct s as [|b s]; [by eauto|]. destruct (byte_in lo hi b) eqn:Eb; [|by eauto].
  apply byte_in_true in Eb. apply lead_spec in E as (Hz & Hlo & Hhi & Hk).
  intros [(bs & -> & -> & Hbs)|(bs & Hl & -> & Hbs & ->)]%utf8_more_spec.
  { split; [done|]. cbn. split; [done|]. repeat constructor; [lia..|done]. }
  destruct Hk as [(-> & -> & Hu)|[(-> & -> & Hu & H0 & H1)|(-> & -> & Hu & H0 & H1)]].
  - destruct bs; [|done]. cbn [foldl char_bytes]. rewrite utf8_encode_2 by lia.
    rewrite !(Z_to_byte_eq _ a), !(Z_to_byte_eq _ b) by lia. split; [done|]. cbn. unfold scalar. lia.
  - destruct bs as [|x [|]]; try done. apply Forall_cons in Hbs as [Hx _].
    cbn [foldl char_bytes]. rewrite utf8_encode_3 by lia.
    rewrite !(Z_to_byte_eq _ a), !(Z_to_byte_eq _ b), !(Z_to_byte_eq _ x) by lia.
    split; [done|]. cbn. unfold scalar. lia.
  - destruct bs as [|x [|y [|]]]; try done. apply Forall_cons in Hbs as [Hx [Hy _]%Forall_cons].
    cbn [foldl char_bytes]. rewrite utf8_encode_4 by lia.
    rewrite !(Z_to_byte_eq _ a), !(Z_to_byte_eq _ b), !(Z_to_byte_eq _ x), !(Z_to_byte_eq _ y) by lia.
    split; [done|]. cbn. unfold scalar. lia.
Qed.

Lemma char_bytes_pos c : char_ok c → (0 < length (char_bytes c))%nat.
Proof.
  destruct c as [u|b]; cbn; [|destruct b; [by intros []|simpl; lia]].
  intros _. unfold utf8_encode. rewrite length_fmap. repeat case_match; simpl; lia.
Qed.

Lemma utf8_loop_split fuel : ∀ s, (length s ≤ fuel)%nat →
  concat (char_bytes <$> utf8_loop fuel s) = s ∧ Forall char_ok (utf8_loop fuel s).
Proof.
  induction fuel as [|fuel IH]; intros [|a s] Hl; cbn in Hl; try (done || lia).
  cbn [utf8_loop]. destruct (utf8_next a s) as [c s'] eqn:E.
  apply utf8_next_split in E as [E Hc]. pose proof (char_bytes_pos _ Hc).
  assert (length (a :: s) = length (char_bytes c ++ s')) as Hlen by (by rewrite E).
  rewrite length_app in Hlen. cbn in Hlen. destruct (IH s') as [IH1 IH2]; [lia|].
  cbn. rewrite IH1. split; [done|]. by constructor.
Qed.

Lemma utf8_chars_split s : concat (char_bytes <$> utf8_chars s) = s ∧ Forall char_ok (utf8_chars s).
Proof. by apply utf8_loop_split. Qed.
