(* ===== verification/Json.v ===== *)
(** * The [json] module

    [json.dumps] and [json.loads] on the values the code stores: [None], booleans,
    integers, strings, lists and dictionaries with string keys.  A dictionary is the
    list of its items in insertion order.  Floating-point literals and lone
    surrogates outside U+DC80..U+DCFF, which [json.loads] would accept, are refused
    here: the code writes neither. *)
From stdpp Require Export strings.
From Stdlib Require Import Ascii.
From S2P Require Import Prelude Bytes FileSystem Unicode.
Local Open Scope Z_scope.

Unset Elimination Schemes.
Inductive Json : Type :=
  | JNull
  | JBool (b : bool)
  | JInt (n : Z)
  | JStr (s : string)
  | JArr (l : list Json)
  | JObj (d : list (string * Json)).
Set Elimination Schemes.

(** ** [json.dumps] with [ensure_ascii] *)

Definition hex_digit (d : Z) : byte := Z_to_byte (if d <? 10 then 48 + d else 87 + d).

(** [\uXXXX] *)
Definition unicode_escape (u : Z) : bytes :=
  x5c :: x75 :: (hex_digit <$> [u / 4096 mod 16; u / 256 mod 16; u / 16 mod 16; u mod 16]).

Definition escape_cp (u : Z) : bytes :=
  if u =? 34 then [x5c; x22]
  else if u =? 92 then [x5c; x5c]
  else if u =? 10 then [x5c; x6e]
  else if u =? 13 then [x5c; x72]
  else if u =? 9 then [x5c; x74]
  else if u =? 12 then [x5c; x66]
  else if u =? 8 then [x5c; x62]
  else if (32 <=? u) && (u <=? 126) then [Z_to_byte u]
  else if u <? 65536 then unicode_escape u
  else unicode_escape (55296 + (u - 65536) / 1024) ++ unicode_escape (56320 + (u - 65536) mod 1024).

(** A byte of an ill-formed sequence is the lone surrogate it stands for. *)
Definition escape_char (c : Char) : bytes :=
  match c with
  | Cp u => escape_cp u
  | Bad b => concat ((λ x, unicode_escape (56320 + byte_to_Z x)) <$> b)
  end.

Definition json_quote (s : string) : bytes :=
  x22 :: concat (escape_char <$> utf8_chars (bytes_of_str s)) ++ [x22].

Definition json_int (n : Z) : bytes :=
  if n <? 0 then x2d :: bytes_of_str (dec (- n)) else bytes_of_str (dec n).

(** [sep.join(l)] *)
Fixpoint join (sep : bytes) (l : list bytes) : bytes :=
  match l with
  | [] => []
  | [x] => x
  | x :: l' => x ++ sep ++ join sep l'
  end.

Section dumps.
(** [separators=(",", ":")], or the default with a space after each. *)
Context (compact : bool).

Definition item_sep : bytes := if compact then [x2c] else [x2c; x20].
Definition key_sep : bytes := if compact then [x3a] else [x3a; x20].

Fixpoint json_dumps (v : Json) : bytes :=
  match v with
  | JNull => bytes_of_str "null"
  | JBool b => bytes_of_str (if b then "true" else "false")
  | JInt n => json_int n
  | JStr s => json_quote s
  | JArr l => x5b :: join item_sep (json_dumps <$> l) ++ [x5d]
  | JObj d => x7b :: join item_sep ((λ kv, json_quote kv.1 ++ key_sep ++ json_dumps kv.2) <$> d) ++ [x7d]
  end.
End dumps.

(** ** [json.loads] *)

Definition is_ws (c : byte) : bool :=
  bool_decide (c = x20) || bool_decide (c = x0a) || bool_decide (c = x0d) || bool_decide (c = x09).

Fixpoint skip_ws (s : bytes) : bytes :=
  match s with c :: s' => if is_ws c then skip_ws s' else s | [] => [] end.

Definition hex_val (c : byte) : option Z :=
  let z := byte_to_Z c in
  if byte_in 48 57 c then Some (z - 48)
  else if byte_in 97 102 c then Some (z - 87)
  else if byte_in 65 70 c then Some (z - 55)
  else None.

Definition hex4 (a b c d : byte) : option Z :=
  x ← hex_val a; y ← hex_val b; z ← hex_val c; t ← hex_val d;
  Some (((x * 16 + y) * 16 + z) * 16 + t).

(** The character a two-character escape stands for. *)
Definition escapes : list (byte * byte) :=
  [(x22, x22); (x5c, x5c); (x2f, x2f); (x62, x08); (x66, x0c); (x6e, x0a); (x72, x0d); (x74, x09)].

Definition simple_escape (c : byte) : option byte :=
  snd <$> head (filter (λ p, p.1 = c) escapes).

Definition is_high (u : Z) : bool := (55296 <=? u) && (u <=? 56319).
Definition is_low (u : Z) : bool := (56320 <=? u) && (u <=? 57343).

(** The bytes that represent a single [\uXXXX]. *)
Definition escaped_bytes (u : Z) : option bytes :=
  if (56448 <=? u) && (u <=? 56575) then Some [Z_to_byte (u - 56320)]
  else if is_high u || is_low u then None
  else Some (utf8_encode u).

Definition prepend (b : bytes) (r : option (bytes * bytes)) : option (bytes * bytes) :=
  '(out, rest) ← r; Some (b ++ out, rest).

(** The characters up to the closing quote, and what follows it. *)
Fixpoint scan_string (s : bytes) : option (bytes * bytes) :=
  match s with
  | [] => None
  | c :: s1 =>
      if bool_decide (c = x22) then Some ([], s1)
      else if negb (bool_decide (c = x5c)) then
        if byte_to_Z c <? 32 then None else prepend [c] (scan_string s1)
      else match s1 with
      | [] => None
      | e :: s2 =>
          if negb (bool_decide (e = x75)) then
            b ← simple_escape e; prepend [b] (scan_string s2)
          else match s2 with
          | h1 :: h2 :: h3 :: h4 :: s3 =>
              u ← hex4 h1 h2 h3 h4;
              if is_high u then
                match s3 with
                | p :: q :: g1 :: g2 :: g3 :: g4 :: s4 =>
                    if bool_decide (p = x5c) && bool_decide (q = x75) then
                      v ← hex4 g1 g2 g3 g4;
                      if is_low v
                      then prepend (utf8_encode (65536 + (u - 55296) * 1024 + (v - 56320))) (scan_string s4)
                      else None
                    else None
                | _ => None
                end
              else b ← escaped_bytes u; prepend b (scan_string s3)
          | _ => None
          end
      end
  end.

Definition is_digit_byte (c : byte) : bool := byte_in 48 57 c.

Fixpoint span_digits (s : bytes) : bytes * bytes :=
  match s with
  | c :: s' => if is_digit_byte c then let '(d, r) := span_digits s' in (c :: d, r) else ([], s)
  | [] => ([], [])
  end.

(** [s] after the prefix [p]. *)
Fixpoint eat (p s : bytes) : option bytes :=
  match p, s with
  | [], _ => Some s
  | c :: p', d :: s' => if bool_decide (c = d) then eat p' s' else None
  | _ :: _, [] => None
  end.

(** Digits without a leading zero. *)
Definition scan_digits (s : bytes) : option (bytes * bytes) :=
  match eat [x30] s with
  | Some s' => Some ([x30], s')
  | None => let '(ds, rest) := span_digits s in if bool_decide (ds = []) then None else Some (ds, rest)
  end.

(** A number without sign; a fraction or an exponent is refused. *)
Definition is_float_mark (c : byte) : bool := bool_decide (c ∈ [x2e; x65; x45]).

Definition scan_nat (s : bytes) : option (Z * bytes) :=
  '(ds, rest) ← scan_digits s;
  if default false (is_float_mark <$> head rest) then None
  else Some (int_of_string (str_of_bytes ds), rest).

Definition scan_int (s : bytes) : option (Z * bytes) :=
  match eat [x2d] s with
  | Some s' => '(n, rest) ← scan_nat s'; Some (- n, rest)
  | None => scan_nat s
  end.

Definition scan_const (s : bytes) : option (Json * bytes) :=
  match eat (bytes_of_str "null") s with
  | Some r => Some (JNull, r)
  | None =>
      match eat (bytes_of_str "true") s with
      | Some r => Some (JBool true, r)
      | None =>
          match eat (bytes_of_str "false") s with
          | Some r => Some (JBool false, r)
          | None => '(n, r) ← scan_int s; Some (JInt n, r)
          end
      end
  end.

(** [d[k] = v] on the items of a dictionary. *)
Fixpoint dict_set {V} (k : string) (v : V) (d : list (string * V)) : list (string * V) :=
  match d with
  | [] => [(k, v)]
  | (k', v') :: d' => if bool_decide (k' = k) then (k, v) :: d' else (k', v') :: dict_set k v d'
  end.

(** [d.get(k)] *)
Fixpoint dict_get {V} (k : string) (d : list (string * V)) : option V :=
  match d with
  | [] => None
  | (k', v) :: d' => if bool_decide (k' = k) then Some v else dict_get k d'
  end.

Fixpoint scan_value (fuel : nat) (s : bytes) : option (Json * bytes) :=
  match fuel, s with
  | O, _ | _, [] => None
  | S fuel', c :: s' =>
      if bool_decide (c = x22) then
        '(b, r) ← scan_string s'; Some (JStr (str_of_bytes b), r)
      else if bool_decide (c = x5b) then
        match eat [x5d] (skip_ws s') with
        | Some r => Some (JArr [], r)
        | None => '(l, r) ← scan_elements fuel' (skip_ws s'); Some (JArr l, r)
        end
      else if bool_decide (c = x7b) then
        match eat [x7d] (skip_ws s') with
        | Some r => Some (JObj [], r)
        | None => '(d, r) ← scan_members fuel' [] (skip_ws s'); Some (JObj d, r)
        end
      else scan_const s
  end
with scan_elements (fuel : nat) (s : bytes) : option (list Json * bytes) :=
  match fuel with
  | O => None
  | S fuel' =>
      '(v, r) ← scan_value fuel' s;
      match eat [x5d] (skip_ws r) with
      | Some r' => Some ([v], r')
      | None =>
          r' ← eat [x2c] (skip_ws r);
          '(l, r'') ← scan_elements fuel' (skip_ws r');
          Some (v :: l, r'')
      end
  end
with scan_members (fuel : nat) (d : list (string * Json)) (s : bytes)
    : option (list (string * Json) * bytes) :=
  match fuel with
  | O => None
  | S fuel' =>
      s' ← eat [x22] s;
      '(k, r) ← scan_string s';
      r' ← eat [x3a] (skip_ws r);
      '(v, r) ← scan_value fuel' (skip_ws r');
      match eat [x7d] (skip_ws r) with
      | Some r' => Some (dict_set (str_of_bytes k) v d, r')
      | None => r' ← eat [x2c] (skip_ws r); scan_members fuel' (dict_set (str_of_bytes k) v d) (skip_ws r')
      end
  end.

(** Two calls at most per byte. *)
Definition json_fuel (s : bytes) : nat := 2 * length s + 2.

(** [json.loads(b.decode("utf-8"))]; [ValueError] covers [JSONDecodeError]. *)
Definition json_loads (b : bytes) : Exn + Json :=
  if utf8_valid b then
    match scan_value (json_fuel b) (skip_ws b) with
    | Some (v, r) => if bool_decide (skip_ws r = []) then inr v else inl ValueError
    | None => inl ValueError
    end
  else inl UnicodeDecodeError.

Definition demo_json : Json :=
  JObj [("term"%string, JInt 12);
        ("voted_for"%string, JStr (str_of_bytes [x6e; x22; xc3; xa9; xf0; x9f; x98; x80; xff; x0a]));
        ("servers"%string, JArr [JStr "n1"; JNull; JBool true; JInt (-7); JArr []; JObj []])].

Example demo_json_loads :
  json_loads (json_dumps false demo_json) = inr demo_json ∧ json_loads (json_dumps true demo_json) = inr demo_json.
Proof. vm_compute. repeat split. Qed.

(** The texts [{"k": 4}], [[1,]], [01] and [ {"a":1,"a":2}]. *)
Example demo_json_text :
  json_dumps false (JObj [("k"%string, JInt 4)]) = [x7b; x22; x6b; x22; x3a; x20; x34; x7d]
  ∧ json_loads (bytes_of_str "[1,]") = inl ValueError
  ∧ json_loads (bytes_of_str "01") = inl ValueError
  ∧ json_loads [x20; x7b; x22; x61; x22; x3a; x31; x2c; x22; x61; x22; x3a; x32; x7d] =
      inr (JObj [("a"%string, JInt 2)]).
Proof. vm_compute. repeat split. Qed.
