(* ===== verification/JsonFacts.v ===== *)
(** * [json.loads] inverts [json.dumps]

    On every value with distinct dictionary keys, for both separator styles and any
    strings, those with control characters, characters outside the basic plane and
    ill-formed bytes included. *)
From Stdlib Require Import Ascii.
From S2P Require Import Prelude Bytes FileSystem Unicode Json.
Local Open Scope Z_scope.

Lemma Json_ind (P : Json → Prop) :
  P JNull → (∀ b, P (JBool b)) → (∀ n, P (JInt n)) → (∀ s, P (JStr s)) →
  (∀ l, Forall P l → P (JArr l)) → (∀ d, Forall (λ kv, P kv.2) d → P (JObj d)) → ∀ v, P v.
Proof.
  intros Hn Hb Hi Hs Ha Ho. fix IH 1.
  intros [|b|n|s|l|d]; [exact Hn|exact (Hb b)|exact (Hi n)|exact (Hs s)|apply Ha|apply Ho].
  - revert l. fix IHl 1. intros [|v l]; constructor; [apply IH|apply IHl].
  - revert d. fix IHd 1. intros [|[k v] d]; constructor; [apply IH|apply IHd].
Qed.

(** ** Strings *)

Lemma hex_val_digit d : 0 <= d < 16 → hex_val (hex_digit d) = Some d.
Proof.
  intros Hd. unfold hex_val, hex_digit, byte_in. rewrite !byte_to_Z_to_byte.
  destruct (Z.ltb_spec d 10); rewrite Z.mod_small by lia; repeat case_match;
    rewrite ?andb_true_iff, ?andb_false_iff, ?Z.leb_le, ?Z.leb_gt in *; f_equal; lia.
Qed.

Lemma hex4_digits u : 0 <= u < 65536 →
  hex4 (hex_digit (u / 4096 mod 16)) (hex_digit (u / 256 mod 16)) (hex_digit (u / 16 mod 16))
    (hex_digit (u mod 16)) = Some u.
Proof.
  intros Hu. unfold hex4.
  rewrite !hex_val_digit by (apply Z.mod_pos_bound; lia). cbn. f_equal. div_lia.
Qed.

Lemma is_high_true u : is_high u = true ↔ 55296 <= u <= 56319.
Proof. unfold is_high. rewrite andb_true_iff, !Z.leb_le. lia. Qed.

Lemma is_low_true u : is_low u = true ↔ 56320 <= u <= 57343.
Proof. unfold is_low. rewrite andb_true_iff, !Z.leb_le. lia. Qed.

(** A [\uXXXX] escape: alone, or the first half of a surrogate pair. *)
Lemma scan_single a b c d u r :
  hex4 a b c d = Some u → is_high u = false →
  scan_string (x5c :: x75 :: a :: b :: c :: d :: r) = x ← escaped_bytes u; prepend x (scan_string r).
Proof.
  intros E Hh. transitivity (u ← hex4 a b c d; if is_high u then
    match r with
    | p :: q :: g1 :: g2 :: g3 :: g4 :: s4 =>
        if bool_decide (p = x5c) && bool_decide (q = x75) then
          v ← hex4 g1 g2 g3 g4;
          if is_low v
          then prepend (utf8_encode (65536 + (u - 55296) * 1024 + (v - 56320))) (scan_string s4)
          else None
        else None
    | _ => None
    end else x ← escaped_bytes u; prepend x (scan_string r)); [reflexivity|].
  rewrite E. cbn. by rewrite Hh.
Qed.

Lemma scan_double a b c d u a' b' c' d' v r :
  hex4 a b c d = Some u → is_high u = true → hex4 a' b' c' d' = Some v → is_low v = true →
  scan_string (x5c :: x75 :: a :: b :: c :: d :: x5c :: x75 :: a' :: b' :: c' :: d' :: r) =
    prepend (utf8_encode (65536 + (u - 55296) * 1024 + (v - 56320))) (scan_string r).
Proof.
  intros E Hh E' Hl. transitivity (u ← hex4 a b c d; if is_high u then
    v ← hex4 a' b' c' d';
    if is_low v
    then prepend (utf8_encode (65536 + (u - 55296) * 1024 + (v - 56320))) (scan_string r)
    else None
    else x ← escaped_bytes u; prepend x (scan_string (x5c :: x75 :: a' :: b' :: c' :: d' :: r))); [reflexivity|].
  rewrite E. cbn. rewrite Hh, E'. cbn. by rewrite Hl.
Qed.

Lemma scan_escape u b r :
  0 <= u < 65536 → escaped_bytes u = Some b →
  scan_string (unicode_escape u ++ r) = prepend b (scan_string r).
Proof.
  intros Hu Hb. assert (is_high u = false) as Hh.
  { apply not_true_is_false. intros H. unfold escaped_bytes in Hb. rewrite H in Hb.
    apply is_high_true in H. destruct (Z.leb_spec 56448 u); [lia|]. done. }
  unfold unicode_escape. cbn [fmap list_fmap app].
  by rewrite (scan_single _ _ _ _ u), Hb by (done || by apply hex4_digits).
Qed.

Lemma scan_pair u r :
  65536 <= u < 1114112 →
  scan_string (unicode_escape (55296 + (u - 65536) / 1024) ++
    unicode_escape (56320 + (u - 65536) mod 1024) ++ r) = prepend (utf8_encode u) (scan_string r).
Proof.
  intros Hu. set (h := 55296 + _). set (l := 56320 + _).
  assert (55296 <= h <= 56319) by (unfold h; div_lia).
  assert (56320 <= l <= 57343) by (unfold l; div_lia).
  assert (65536 + (h - 55296) * 1024 + (l - 56320) = u) as E by (unfold h, l; div_lia).
  unfold unicode_escape. cbn [fmap list_fmap app].
  rewrite (scan_double _ _ _ _ h _ _ _ _ l), E; [done| | | |];
    [apply hex4_digits; lia|by apply is_high_true|apply hex4_digits; lia|by apply is_low_true].
Qed.

Lemma escaped_scalar u : scalar u → u < 65536 → escaped_bytes u = Some (utf8_encode u).
Proof.
  intros Hs Hu. unfold escaped_bytes, is_high, is_low.
  destruct (_ && _) eqn:E1; [apply andb_true_iff in E1; rewrite !Z.leb_le in E1; destruct Hs; lia|].
  destruct (_ || _) eqn:E2; [|done].
  apply orb_true_iff in E2. rewrite !andb_true_iff, !Z.leb_le in E2. destruct Hs; lia.
Qed.

Lemma scan_plain u r :
  32 <= u <= 126 → u ≠ 34 → u ≠ 92 →
  scan_string (Z_to_byte u :: r) = prepend (utf8_encode u) (scan_string r).
Proof.
  intros Hu H34 H92. assert (byte_to_Z (Z_to_byte u) = u) as E.
  { rewrite byte_to_Z_to_byte. apply Z.mod_small. lia. }
  cbn [scan_string]. rewrite !bool_decide_eq_false_2; [|intros Hc; by rewrite Hc in E..].
  cbn [negb]. rewrite E. destruct (Z.ltb_spec u 32); [lia|].
  unfold utf8_encode. destruct (Z.ltb_spec u 128); [done|lia].
Qed.

Lemma scan_escape_cp u r :
  scalar u → scan_string (escape_cp u ++ r) = prepend (utf8_encode u) (scan_string r).
Proof.
  intros Hs. unfold escape_cp.
  destruct (Z.eqb_spec u 34) as [->|?]; [done|]. destruct (Z.eqb_spec u 92) as [->|?]; [done|].
  destruct (Z.eqb_spec u 10) as [->|?]; [done|]. destruct (Z.eqb_spec u 13) as [->|?]; [done|].
  destruct (Z.eqb_spec u 9) as [->|?]; [done|]. destruct (Z.eqb_spec u 12) as [->|?]; [done|].
  destruct (Z.eqb_spec u 8) as [->|?]; [done|].
  destruct (_ && _) eqn:E.
  { apply andb_true_iff in E. rewrite !Z.leb_le in E. by apply scan_plain. }
  destruct (Z.ltb_spec u 65536).
  - apply scan_escape; [destruct Hs; lia|]. by apply escaped_scalar.
  - rewrite <-app_assoc. apply scan_pair. destruct Hs; lia.
Qed.

Lemma prepend_prepend a b r : prepend a (prepend b r) = prepend (a ++ b) r.
Proof. destruct r as [[x y]|]; [|done]. cbn. by rewrite app_assoc. Qed.

Lemma prepend_nil r : prepend [] r = r.
Proof. by destruct r as [[x y]|]. Qed.

Lemma scan_bad b r :
  Forall (λ x, 128 <= byte_to_Z x) b →
  scan_string (concat ((λ x, unicode_escape (56320 + byte_to_Z x)) <$> b) ++ r) = prepend b (scan_string r).
Proof.
  induction 1 as [|x b Hx _ IH]; [by rewrite prepend_nil|].
  pose proof (byte_to_Z_bound x). rewrite fmap_cons. cbn [concat]. rewrite <-app_assoc.
  rewrite (scan_escape _ [x]), IH, prepend_prepend; [done|lia|].
  unfold escaped_bytes. destruct (_ && _) eqn:E.
  - by rewrite (Z_to_byte_eq _ x) by lia.
  - apply andb_false_iff in E. rewrite !Z.leb_gt in E. lia.
Qed.

Lemma scan_char c r :
  char_ok c → scan_string (escape_char c ++ r) = prepend (char_bytes c) (scan_string r).
Proof. destruct c as [u|b]; [apply scan_escape_cp|]. intros [_ H]. by apply scan_bad. Qed.

Lemma scan_chars cs r :
  Forall char_ok cs →
  scan_string (concat (escape_char <$> cs) ++ x22 :: r) = Some (concat (char_bytes <$> cs), r).
Proof.
  induction 1 as [|c cs Hc _ IH]; [done|]. cbn [fmap list_fmap concat].
  rewrite <-app_assoc, scan_char by done. by rewrite IH.
Qed.

Lemma json_quote_eq s : ∃ t, json_quote s = x22 :: t ∧
  ∀ r, scan_string (t ++ r) = Some (bytes_of_str s, r).
Proof.
  eexists. split; [done|]. intros r. rewrite <-app_assoc. cbn [app].
  destruct (utf8_chars_split (bytes_of_str s)) as [E H]. by rewrite scan_chars, E.
Qed.

(** ** Numbers *)

(** What may follow a number without becoming part of it. *)
Definition ends_number (r : bytes) : Prop :=
  ∀ c, head r = Some c → is_digit_byte c = false ∧ is_float_mark c = false.

Lemma digit_of_byte c : is_digit_char (ascii_of_byte c) = is_digit_byte c.
Proof. by destruct c. Qed.

Lemma span_digits_app s r :
  all_digits (str_of_bytes s) = true → ends_number r → span_digits (s ++ r) = (s, r).
Proof.
  intros Hs Hr. induction s as [|c s IH].
  - destruct r as [|c r]; [done|]. cbn. by rewrite (proj1 (Hr c eq_refl)).
  - cbn in Hs. rewrite digit_of_byte in Hs. apply andb_true_iff in Hs as [Hc Hs].
    cbn. by rewrite Hc, IH.
Qed.

Lemma dec_aux_head fuel n s :
  0 < n < 10 ^ Z.of_nat fuel → ∃ c t, dec_aux fuel n s = String c t ∧ is_digit_char c = true ∧ c ≠ "0"%char.
Proof.
  revert n s. induction fuel as [|fuel IH]; intros n s Hn; [simpl in Hn; lia|].
  rewrite Nat2Z.inj_succ, Z.pow_succ_r in Hn by lia. cbn [dec_aux].
  destruct (Z.ltb_spec n 10).
  - rewrite Z.mod_small by lia. eexists _, _. split_and!; [done|apply is_digit_digit; lia|].
    intros E. apply (f_equal digit_val) in E. rewrite digit_val_digit in E by lia.
    change (digit_val "0") with 0 in E. lia.
  - apply IH. split; [apply Z.div_str_pos; lia|]. apply Z.div_lt_upper_bound; lia.
Qed.

Lemma dec_bound n : 0 < n → 0 < n < 10 ^ Z.of_nat (S (Z.to_nat (Z.log2 n))).
Proof.
  intros Hn. split; [done|]. rewrite Nat2Z.inj_succ, Z2Nat.id by apply Z.log2_nonneg.
  eapply Z.lt_le_trans; [apply Z.log2_spec; lia|]. apply Z.pow_le_mono_l. lia.
Qed.

Lemma eat_head p c s : head p ≠ Some c → p ≠ [] → eat p (c :: s) = None.
Proof.
  destruct p as [|d p]; [done|]. intros H _. cbn. rewrite bool_decide_eq_false_2; [done|]. by intros ->.
Qed.

Lemma eat_app p s : eat p (p ++ s) = Some s.
Proof. induction p as [|c p IH]; [done|]. cbn. by rewrite bool_decide_eq_true_2. Qed.

Lemma bytes_of_str_cons c s : bytes_of_str (String c s) = byte_of_ascii c :: bytes_of_str s.
Proof. done. Qed.

Lemma scan_nat_dec n r :
  0 <= n → ends_number r → scan_nat (bytes_of_str (dec n) ++ r) = Some (n, r).
Proof.
  intros Hn Hr.
  assert (default false (is_float_mark <$> head r) = false) as Hf.
  { destruct r as [|c r]; [done|]. apply (Hr c eq_refl). }
  assert (scan_digits (bytes_of_str (dec n) ++ r) = Some (bytes_of_str (dec n), r)) as E.
  { destruct (decide (n = 0)) as [->|]; [done|].
    destruct (dec_aux_head _ n EmptyString (dec_bound n ltac:(lia))) as (c & t & Ec & _ & Hc).
    fold (dec n) in Ec. unfold scan_digits.
    rewrite (span_digits_app (bytes_of_str (dec n)) r); [|rewrite str_of_bytes_of_str; by apply all_digits_dec_aux|done].
    rewrite Ec, bytes_of_str_cons. cbn [app]. rewrite eat_head; [done| |done].
    intros [= E]. apply Hc. by rewrite <-(ascii_of_byte_of_ascii c), <-E. }
  unfold scan_nat. rewrite E. cbn [mbind option_bind]. rewrite Hf, str_of_bytes_of_str, int_dec by done. done.
Qed.

Lemma json_int_head n : ∃ c t, json_int n = c :: t ∧ byte_in 45 57 c = true.
Proof.
  unfold json_int. destruct (Z.ltb_spec n 0); [by eexists _, _|].
  destruct (decide (n = 0)) as [->|]; [by eexists _, _|].
  destruct (dec_aux_head _ n EmptyString (dec_bound n ltac:(lia))) as (c & t & Ec & Hc & _).
  fold (dec n) in Ec. rewrite Ec. eexists _, _. split; [done|].
  rewrite <-(ascii_of_byte_of_ascii c), digit_of_byte in Hc.
  apply byte_in_true in Hc. apply byte_in_true. lia.
Qed.

Lemma scan_const_int n r : ends_number r → scan_const (json_int n ++ r) = Some (JInt n, r).
Proof.
  intros Hr. destruct (json_int_head n) as (c & t & E & Hc). apply byte_in_true in Hc.
  assert (scan_int (json_int n ++ r) = Some (n, r)) as Ei.
  { unfold scan_int, json_int in *. destruct (Z.ltb_spec n 0).
    - change ((x2d :: bytes_of_str (dec (- n))) ++ r) with ([x2d] ++ bytes_of_str (dec (- n)) ++ r).
      rewrite eat_app, scan_nat_dec by (done || lia).
      cbn. by rewrite Z.opp_involutive.
    - rewrite scan_nat_dec by done. rewrite E. cbn [app]. rewrite eat_head; [done| |done].
      intros [= <-]. destruct (decide (n = 0)) as [->|]; [done|].
      destruct (dec_aux_head _ n EmptyString (dec_bound n ltac:(lia))) as (c & t' & Ec & Hd & _).
      fold (dec n) in Ec. rewrite Ec in E. injection E as Eb _.
      by rewrite <-(ascii_of_byte_of_ascii c), Eb in Hd. }
  unfold scan_const. rewrite Ei. rewrite E. cbn [app].
  by rewrite !eat_head by (done || (cbn; intros [= <-]; cbn in Hc; lia)).
Qed.

(** ** Values *)

Fixpoint json_wf (v : Json) : bool :=
  match v with
  | JArr l => forallb json_wf l
  | JObj d => bool_decide (NoDup (fst <$> d)) && forallb (λ kv, json_wf kv.2) d
  | _ => true
  end.

(** The calls a parse makes. *)
Fixpoint json_weight (v : Json) : nat :=
  match v with
  | JArr l => S (sum_list_with (λ v, S (json_weight v)) l)
  | JObj d => S (sum_list_with (λ kv, S (json_weight kv.2)) d)
  | _ => 1
  end.

Lemma skip_ws_id c s : is_ws c = false → skip_ws (c :: s) = c :: s.
Proof. intros H. cbn. by rewrite H. Qed.

(** The first byte of a value: no space, no closing bracket. *)
Lemma json_dumps_head compact v :
  ∃ c t, json_dumps compact v = c :: t ∧ is_ws c = false ∧ c ≠ x5d.
Proof.
  destruct v as [|[]|n| | |]; [by eexists _, _..| | | |]; [|by eexists _, _..].
  destruct (json_int_head n) as (c & t & E & Hc). exists c, t. split; [done|].
  apply byte_in_true in Hc. split; [|intros ->; cbn in Hc; lia].
  unfold is_ws. rewrite !bool_decide_eq_false_2; [done|intros ->; cbn in Hc; lia..].
Qed.

Lemma skip_ws_dumps compact v r : skip_ws (json_dumps compact v ++ r) = json_dumps compact v ++ r.
Proof. destruct (json_dumps_head compact v) as (c & t & -> & Hc & _). by apply skip_ws_id. Qed.

Lemma eat_dumps compact v r : eat [x5d] (json_dumps compact v ++ r) = None.
Proof.
  destruct (json_dumps_head compact v) as (c & t & -> & _ & Hc). apply eat_head; [|done].
  cbn. congruence.
Qed.

(** What follows a value inside a list or a dictionary ends a number. *)
Lemma ends_sep compact r : ends_number (item_sep compact ++ r).
Proof. destruct compact; intros c [= <-]; by split. Qed.

Lemma ends_bracket b r : b = x5d ∨ b = x7d → ends_number (b :: r).
Proof. intros [-> | ->] c [= <-]; by split. Qed.

Lemma skip_item_sep compact c r :
  is_ws c = false →
  ∃ s, skip_ws (item_sep compact ++ c :: r) = x2c :: s ∧ skip_ws s = c :: r.
Proof. intros Hc. destruct compact; eexists; (split; [done|]); cbn; by rewrite Hc. Qed.

Lemma skip_key_sep compact c r :
  is_ws c = false →
  ∃ s, skip_ws (key_sep compact ++ c :: r) = x3a :: s ∧ skip_ws s = c :: r.
Proof. intros Hc. destruct compact; eexists; (split; [done|]); cbn; by rewrite Hc. Qed.

Definition scans (compact : bool) (v : Json) : Prop :=
  ∀ fuel r, (json_weight v ≤ fuel)%nat → ends_number r →
    scan_value fuel (json_dumps compact v ++ r) = Some (v, r).

Lemma join_cons sep x y l : join sep (x :: y :: l) = x ++ sep ++ join sep (y :: l).
Proof. done. Qed.

Lemma eat_one c r : eat [c] (c :: r) = Some r.
Proof. apply (eat_app [c]). Qed.

Lemma scan_elements_dumps compact l : ∀ v fuel r,
  Forall (scans compact) (v :: l) →
  (sum_list_with (λ v, S (json_weight v)) (v :: l) ≤ fuel)%nat →
  scan_elements fuel (join (item_sep compact) (json_dumps compact <$> v :: l) ++ x5d :: r) = Some (v :: l, r).
Proof.
  induction l as [|v' l IH]; intros v fuel r [Hv Hl]%Forall_cons Hf; (destruct fuel as [|fuel]; [cbn in Hf; lia|]);
    cbn [sum_list_with] in Hf; cbn [scan_elements fmap list_fmap].
  - cbn [join]. rewrite Hv; [|lia|apply ends_bracket; by left]. cbn [mbind option_bind].
    by rewrite skip_ws_id, eat_one by done.
  - rewrite join_cons, <-!app_assoc. rewrite Hv; [|lia|apply ends_sep]. cbn [mbind option_bind].
    specialize (IH v' fuel r Hl ltac:(cbn [sum_list_with]; lia)). cbn [fmap list_fmap] in IH.
    destruct (json_dumps_head compact v') as (c & t & Ec & Hc & _).
    assert (∃ t', join (item_sep compact) (json_dumps compact v' :: (json_dumps compact <$> l)) ++ x5d :: r = c :: t')
      as [t' Et].
    { destruct l; [|rewrite fmap_cons, join_cons]; cbn [fmap list_fmap join]; rewrite Ec; by eexists. }
    rewrite Et in *. destruct (skip_item_sep compact c t' Hc) as (s & -> & Es).
    rewrite eat_head, eat_one by done. cbn [mbind option_bind]. by rewrite Es, IH.
Qed.

Lemma dict_set_fresh {V} k (v : V) d : k ∉ (fst <$> d) → dict_set k v d = d ++ [(k, v)].
Proof.
  induction d as [|[k' v'] d IH]; intros Hk; [done|]. rewrite fmap_cons in Hk. apply not_elem_of_cons in Hk as [Hne Hk].
  cbn. rewrite bool_decide_eq_false_2 by done. by rewrite IH.
Qed.

Definition dump_item (compact : bool) (kv : string * Json) : bytes :=
  json_quote kv.1 ++ key_sep compact ++ json_dumps compact kv.2.

(** One item of a dictionary. *)
Lemma scan_item compact k v fuel acc r :
  scans compact v → (json_weight v ≤ fuel)%nat → ends_number r →
  scan_members (S fuel) acc (dump_item compact (k, v) ++ r) =
    match eat [x7d] (skip_ws r) with
    | Some r' => Some (dict_set k v acc, r')
    | None => r' ← eat [x2c] (skip_ws r); scan_members fuel (dict_set k v acc) (skip_ws r')
    end.
Proof.
  intros Hv Hf Hr. unfold dump_item. cbn [fst snd scan_members].
  destruct (json_quote_eq k) as (t & -> & Hk). rewrite <-!app_assoc. cbn [app].
  rewrite eat_one. cbn [mbind option_bind]. rewrite Hk. cbn [mbind option_bind].
  destruct (json_dumps_head compact v) as (c & t' & Ec & Hc & _).
  destruct (skip_key_sep compact c (t' ++ r) Hc) as (s & Es & Es').
  assert (key_sep compact ++ json_dumps compact v ++ r = key_sep compact ++ c :: t' ++ r) as -> by by rewrite Ec.
  rewrite Es, eat_one. cbn [mbind option_bind]. rewrite Es'.
  replace (c :: t' ++ r) with (json_dumps compact v ++ r) by by rewrite Ec.
  rewrite Hv by done. cbn [mbind option_bind]. by rewrite str_of_bytes_of_str.
Qed.

Lemma scan_members_dumps compact d : ∀ kv acc fuel r,
  Forall (λ kv, scans compact kv.2) (kv :: d) →
  NoDup (fst <$> acc ++ kv :: d) →
  (sum_list_with (λ kv, S (json_weight kv.2)) (kv :: d) ≤ fuel)%nat →
  scan_members fuel acc (join (item_sep compact) (dump_item compact <$> kv :: d) ++ x7d :: r) =
    Some (acc ++ kv :: d, r).
Proof.
  induction d as [|kv' d IH]; intros [k v] acc fuel r [Hv Hd]%Forall_cons Hnd Hf;
    (destruct fuel as [|fuel]; [cbn in Hf; lia|]); cbn [sum_list_with snd] in Hf, Hv.
  all: assert (k ∉ (fst <$> acc)) as Hk by
    (rewrite fmap_app, fmap_cons in Hnd; apply NoDup_app in Hnd as (_ & Hnd & _);
     intros Hin; apply (Hnd _ Hin); left).
  - cbn [fmap list_fmap join]. rewrite scan_item; [|done|lia|apply ends_bracket; by right].
    by rewrite skip_ws_id, eat_one, dict_set_fresh by done.
  - rewrite !fmap_cons, join_cons, <-!app_assoc. rewrite scan_item; [|done|lia|apply ends_sep].
    specialize (IH kv' (acc ++ [(k, v)]) fuel r Hd). rewrite <-!app_assoc in IH. cbn [app] in IH.
    specialize (IH Hnd ltac:(cbn [sum_list_with]; lia)). rewrite fmap_cons in IH.
    assert (∃ t, join (item_sep compact) (dump_item compact kv' :: (dump_item compact <$> d)) ++ x7d :: r = x22 :: t)
      as [t Et] by (destruct d; [|rewrite fmap_cons, join_cons]; by eexists).
    rewrite Et in *. destruct (skip_item_sep compact x22 t eq_refl) as (s & -> & Es).
    rewrite eat_head, eat_one by done. cbn [mbind option_bind]. by rewrite Es, dict_set_fresh, IH.
Qed.

Lemma forallb_Forall_impl {A} (f : A → bool) (Q : A → Prop) l :
  Forall (λ x, f x = true → Q x) l → forallb f l = true → Forall Q l.
Proof.
  induction 1 as [|x l Hx _ IH]; cbn; [constructor|]. intros [? ?]%andb_true_iff. constructor; auto.
Qed.

(** Values that are neither strings, lists nor dictionaries. *)
Lemma scan_value_const fuel s c t :
  s = c :: t → c ≠ x22 → c ≠ x5b → c ≠ x7b → scan_value (S fuel) s = scan_const s.
Proof. intros -> H1 H2 H3. cbn [scan_value]. by rewrite !bool_decide_eq_false_2. Qed.

Lemma scan_value_dumps compact v : json_wf v = true → scans compact v.
Proof.
  induction v as [|[]|n|s|l IH|d IH] using Json_ind; intros Hwf [|fuel] r Hf Hr; cbn [json_weight] in Hf; try lia.
  1-3: by erewrite scan_value_const; [|reflexivity|done..].
  - destruct (json_int_head n) as (c & t & E & Hc). apply byte_in_true in Hc.
    erewrite scan_value_const; [by apply scan_const_int|cbn [json_dumps]; by rewrite E|..];
      intros ->; cbn in Hc; lia.
  - cbn [json_dumps]. destruct (json_quote_eq s) as (t & -> & Ht). cbn [app scan_value].
    rewrite bool_decide_eq_true_2, Ht by done. cbn. by rewrite str_of_bytes_of_str.
  - cbn [json_dumps app scan_value]. rewrite bool_decide_eq_false_2, bool_decide_eq_true_2, <-app_assoc by done.
    destruct l as [|v l]; [done|].
    assert (Forall (scans compact) (v :: l)) as Hl by (eapply forallb_Forall_impl; [exact IH|exact Hwf]).
    destruct (json_dumps_head compact v) as (c & t & Ec & Hc & Hne).
    assert (∃ t', join (item_sep compact) (json_dumps compact <$> v :: l) ++ x5d :: r = c :: t') as [t' Et].
    { destruct l; [|rewrite !fmap_cons, join_cons]; cbn [fmap list_fmap join]; rewrite Ec; by eexists. }
    pose proof (scan_elements_dumps compact l v fuel r Hl ltac:(lia)) as E.
    cbn [app]. rewrite Et in *. rewrite skip_ws_id, eat_head, E by (done || (cbn; congruence)). done.
  - cbn [json_dumps app scan_value].
    rewrite !(bool_decide_eq_false_2 (x7b = _)), bool_decide_eq_true_2, <-app_assoc by done.
    destruct d as [|[k v] d]; [done|].
    cbn [json_wf] in Hwf. apply andb_true_iff in Hwf as [Hnd%bool_decide_eq_true Hwf].
    assert (Forall (λ kv, scans compact kv.2) ((k, v) :: d)) as Hd by (eapply forallb_Forall_impl; [exact IH|exact Hwf]).
    pose proof (scan_members_dumps compact d (k, v) [] fuel r Hd Hnd ltac:(lia)) as E.
    change (λ kv, json_quote kv.1 ++ _) with (dump_item compact).
    assert (∃ t, join (item_sep compact) (dump_item compact <$> (k, v) :: d) ++ x7d :: r = x22 :: t)
      as [t Et] by (destruct d; [|rewrite !fmap_cons, join_cons]; by eexists).
    cbn [app]. rewrite Et in *. rewrite skip_ws_id, eat_head, E by done. done.
Qed.

(** ** The text is ASCII *)

Definition ascii_text (s : bytes) : Prop := Forall (λ c, byte_to_Z c < 128) s.

Lemma ascii_utf8 s : ascii_text s → utf8_valid s = true.
Proof.
  unfold utf8_valid, utf8_chars. generalize (length s). intros fuel Hs. revert fuel.
  induction Hs as [|c s Hc _ IH]; intros [|fuel]; try done. cbn [utf8_loop]. unfold utf8_next.
  apply Z.ltb_lt in Hc. rewrite Hc. apply IH.
Qed.

Lemma ascii_app a b : ascii_text a → ascii_text b → ascii_text (a ++ b).
Proof. apply Forall_app_2. Qed.

Lemma ascii_concat l : Forall ascii_text l → ascii_text (concat l).
Proof. induction 1; [constructor|]. by apply ascii_app. Qed.

Lemma ascii_join sep l : ascii_text sep → Forall ascii_text l → ascii_text (join sep l).
Proof.
  intros Hs. induction 1 as [|x l Hx Hl IH]; [constructor|]. destruct l as [|y l]; [done|].
  rewrite join_cons. auto using ascii_app.
Qed.

Lemma hex_digit_ascii d : 0 <= d < 16 → byte_to_Z (hex_digit d) < 128.
Proof.
  intros H. unfold hex_digit. rewrite byte_to_Z_to_byte.
  destruct (Z.ltb_spec d 10); rewrite Z.mod_small; lia.
Qed.

Lemma unicode_escape_ascii u : ascii_text (unicode_escape u).
Proof.
  unfold unicode_escape. repeat apply Forall_cons_2; try done;
    apply hex_digit_ascii, Z.mod_pos_bound; lia.
Qed.

Lemma escape_cp_ascii u : ascii_text (escape_cp u).
Proof.
  unfold escape_cp.
  do 7 (destruct (_ =? _); [by repeat apply Forall_cons_2|]).
  destruct (_ && _) eqn:E.
  { apply andb_true_iff in E. rewrite !Z.leb_le in E. apply Forall_singleton.
    rewrite byte_to_Z_to_byte, Z.mod_small; lia. }
  destruct (_ <? _); auto using ascii_app, unicode_escape_ascii.
Qed.

Lemma json_quote_ascii s : ascii_text (json_quote s).
Proof.
  unfold json_quote. apply Forall_cons_2; [done|]. apply ascii_app; [|by repeat apply Forall_cons_2].
  apply ascii_concat, Forall_fmap, Forall_true. intros [u|b]; [apply escape_cp_ascii|].
  apply ascii_concat, Forall_fmap, Forall_true. intros x. apply unicode_escape_ascii.
Qed.

Lemma digits_ascii s : all_digits s = true → ascii_text (bytes_of_str s).
Proof.
  induction s as [|c s IH]; [constructor|]. cbn [all_digits]. intros [Hc Hs]%andb_true_iff.
  rewrite bytes_of_str_cons. apply Forall_cons_2; [|by apply IH].
  rewrite <-(ascii_of_byte_of_ascii c), digit_of_byte in Hc. apply byte_in_true in Hc. lia.
Qed.

Lemma json_int_ascii n : ascii_text (json_int n).
Proof.
  unfold json_int. destruct (Z.ltb_spec n 0).
  - apply Forall_cons_2; [done|]. apply digits_ascii, all_digits_dec_aux; [lia|done].
  - apply digits_ascii, all_digits_dec_aux; [lia|done].
Qed.

Lemma json_dumps_ascii compact v : ascii_text (json_dumps compact v).
Proof.
  assert (ascii_text (item_sep compact)) by (destruct compact; by repeat apply Forall_cons_2).
  assert (ascii_text (key_sep compact)) by (destruct compact; by repeat apply Forall_cons_2).
  induction v as [|[]|n|s|l IH|d IH] using Json_ind; cbn [json_dumps];
    auto using json_int_ascii, json_quote_ascii; try by repeat apply Forall_cons_2.
  - apply Forall_cons_2; [done|]. apply ascii_app; [|by repeat apply Forall_cons_2].
    apply ascii_join; [done|]. by apply Forall_fmap.
  - apply Forall_cons_2; [done|]. apply ascii_app; [|by repeat apply Forall_cons_2].
    apply ascii_join; [done|]. apply Forall_fmap. eapply Forall_impl; [exact IH|].
    intros [k v] Hv. auto using ascii_app, json_quote_ascii.
Qed.

(** ** Enough fuel *)

Lemma join_length sep l : (sum_list_with length l ≤ length (join sep l))%nat.
Proof.
  induction l as [|x l IH]; [done|]. destruct l as [|y l]; [cbn; lia|].
  rewrite join_cons. cbn [sum_list_with] in *. rewrite !length_app. lia.
Qed.

Lemma join_length_sep sep l : sep ≠ [] →
  (sum_list_with length l + length l ≤ S (length (join sep l)))%nat.
Proof.
  intros Hs. induction l as [|x l IH]; [cbn; lia|]. destruct l as [|y l]; [cbn; lia|].
  rewrite join_cons. cbn [sum_list_with length] in *. rewrite !length_app. destruct sep; [done|]. cbn [length]. lia.
Qed.

Lemma sum_weight_le {A} (w : A → nat) (t : A → bytes) l :
  Forall (λ x, (w x ≤ 2 * length (t x))%nat) l →
  (sum_list_with (λ x, S (w x)) l ≤ 2 * sum_list_with length (t <$> l) + length l)%nat.
Proof. induction 1; cbn [sum_list_with fmap list_fmap length] in *; lia. Qed.

Lemma json_weight_le compact v : (json_weight v ≤ 2 * length (json_dumps compact v))%nat.
Proof.
  assert (item_sep compact ≠ []) as Hsep by by destruct compact.
  induction v as [|[]|n|s|l IH|d IH] using Json_ind; cbn [json_dumps json_weight]; try (cbn; lia).
  - destruct (json_int_head n) as (c & t & -> & _). cbn [length]. lia.
  - apply sum_weight_le in IH. pose proof (join_length_sep _ (json_dumps compact <$> l) Hsep).
    rewrite length_fmap in *. cbn [length]. rewrite length_app. cbn [length]. lia.
  - change (λ kv, json_quote kv.1 ++ _) with (dump_item compact).
    assert (Forall (λ kv, (json_weight kv.2 ≤ 2 * length (dump_item compact kv))%nat) d) as IH'.
    { eapply Forall_impl; [exact IH|]. intros [k v] Hv. unfold dump_item. rewrite !length_app. cbn in *. lia. }
    apply sum_weight_le in IH'. pose proof (join_length_sep _ (dump_item compact <$> d) Hsep).
    rewrite length_fmap in *. cbn [length]. rewrite length_app. cbn [length]. lia.
Qed.

Lemma loads_dumps compact v : json_wf v = true → json_loads (json_dumps compact v) = inr v.
Proof.
  intros Hwf. unfold json_loads. rewrite (ascii_utf8 _ (json_dumps_ascii compact v)).
  pose proof (skip_ws_dumps compact v []) as E. rewrite app_nil_r in E. rewrite E.
  pose proof (scan_value_dumps compact v Hwf (json_fuel (json_dumps compact v)) []) as Es.
  rewrite app_nil_r in Es. rewrite Es; [done| |intros c [=]].
  pose proof (json_weight_le compact v). unfold json_fuel. lia.
Qed.
