(* ===== verification/KVStore.v ===== *)
(** * The key/value state machine (pylog/statemachine.py) *)
From stdpp Require Export strings.
From Stdlib Require Import Ascii.
From S2P Require Import Prelude Bytes Unicode.
Local Open Scope Z_scope.

(** ** [s.split("=", 1)] *)

Fixpoint split_eq (s : string) : option (string * string) :=
  match s with
  | EmptyString => None
  | String c s' =>
      if Ascii.eqb c "="%char then Some (EmptyString, s')
      else match split_eq s' with
           | Some (k, v) => Some (String c k, v)
           | None => None
           end
  end.

(** ** The store *)

Record KVStore := mkKV { kv_data : gmap string string; kv_ops : Z }.

Definition KVStore_init : KVStore := mkKV ∅ 0.

(** The dictionary [apply] returns. *)
Inductive ApplyResult : Type :=
  | OpSet (key : string)
  | OpGet (key : string) (value : option string).

Definition KVStore_apply (payload : bytes) : M KVStore ApplyResult :=
  _ ← modify (λ s, mkKV (kv_data s) (kv_ops s + 1));
  text ← lift (utf8_decode payload);
  match split_eq text with
  | Some (k, v) => _ ← modify (λ s, mkKV (<[k := v]> (kv_data s)) (kv_ops s)); mret (OpSet k)
  | None => s ← get; mret (OpGet text (kv_data s !! text))
  end.

Definition KVStore_get (key : string) (s : KVStore) : option string := kv_data s !! key.

(** The snapshot dictionary [{"keys", "ops"}]; the empty dictionary restores as
    [mkSnap ∅ 0]. *)
Record KVSnapshot := mkSnap { snap_keys : gmap string string; snap_ops : Z }.

Definition KVStore_snapshot (s : KVStore) : KVSnapshot := mkSnap (kv_data s) (kv_ops s).
Definition KVStore_restore (st : KVSnapshot) (_ : KVStore) : KVStore := mkKV (snap_keys st) (snap_ops st).

Example kv_set : KVStore_apply (bytes_of_str "a=b=c") KVStore_init =
  (inr (OpSet "a"), mkKV {["a" := "b=c"]} 1).
Proof. vm_compute. reflexivity. Qed.

Example kv_not_utf8 : (KVStore_apply [xff] KVStore_init).1 = inl UnicodeDecodeError.
Proof. reflexivity. Qed.

(** ** Facts *)

Lemma split_eq_join k v : (∀ i, String.get i k ≠ Some "="%char) → split_eq (k +:+ String "=" v) = Some (k, v).
Proof.
  induction k as [|c k IH]; intros Hk; [done|].
  change (String c k +:+ String "=" v) with (String c (k +:+ String "=" v)). cbn [split_eq].
  destruct (Ascii.eqb_spec c "="%char) as [->|]; [by destruct (Hk O)|].
  rewrite IH; [done|]. intros i. apply (Hk (S i)).
Qed.

Lemma restore_snapshot s s0 : KVStore_restore (KVStore_snapshot s) s0 = s.
Proof. by destruct s. Qed.
