(* ===== verification/RaftInterfaces.v ===== *)
(** * What a Raft node is built from

    The node is given its log and its random source.  Each is an interface here. *)
From stdpp Require Export strings.
From S2P Require Import Prelude Bytes RaftLog DurableLog.
Local Open Scope Z_scope.

Abbreviation NodeId := string.

(** ** The log

    [RaftNode] takes a [RaftLog] or an object of a subclass.  It reads and assigns
    the attributes [RaftLog] declares, calls [append_entry] and [merge], and calls
    [truncate_disk_through] where the class has it ([getattr(..., None)]).  [wall] is
    the wall-clock time a durable log stamps its records with. *)
Class RaftLogOps (L : Type) := {
  log_view : L → RaftLog;
  log_assign : (RaftLog → RaftLog) → L → L;
  log_append_entry : Z → bytes → Z → M L Entry;
  log_merge : Z → Z → list Entry → Z → M L MergeResult;
  log_truncate_disk_through : option (Z → M L ());
}.

#[export] Instance RaftLog_ops : RaftLogOps RaftLog := {|
  log_view l := l;
  log_assign f l := f l;
  log_append_entry term payload _ := λ l,
    let '(e, l') := RaftLog_append_entry term payload l in (inr e, l');
  log_merge prev_index prev_term incoming _ := λ l,
    let '(r, l') := RaftLog_merge prev_index prev_term incoming l in (inr r, l');
  log_truncate_disk_through := None;
|}.

#[export] Instance DurableRaftLog_ops : RaftLogOps DurableRaftLog := {|
  log_view := dl_mem;
  log_assign f s := mkDurable (dl_disk s) (f (dl_mem s));
  log_append_entry := DurableRaftLog_append_entry;
  log_merge := DurableRaftLog_merge;
  log_truncate_disk_through := Some truncate_disk_through;
|}.

(** ** [random.Random.uniform] *)

Class Random (Rng : Type) := uniform : Z → Z → Rng → Z * Rng.

(** [uniform(a, b)] lies between its bounds. *)
Class RandomLaws (Rng : Type) `{Random Rng} : Prop :=
  uniform_bounds lo hi (r : Rng) : lo <= hi → lo <= (uniform lo hi r).1 <= hi.

(** A source that replays a list of fractions, in thousandths. *)
Definition ListRng : Type := list Z.
#[export] Instance ListRng_random : Random ListRng := λ lo hi r,
  match r with
  | [] => (lo, [])
  | x :: r' => (lo + (hi - lo) * (x mod 1000) / 1000, r')
  end.

#[export] Instance ListRng_laws : RandomLaws ListRng.
Proof.
  intros lo hi [|x r] Hle; cbn; [lia|]. pose proof (Z.mod_pos_bound x 1000 ltac:(lia)).
  assert (0 <= (hi - lo) * (x mod 1000)) by nia.
  assert ((hi - lo) * (x mod 1000) / 1000 <= hi - lo); [|div_lia].
  apply Z.div_le_upper_bound; nia.
Qed.
