(* ===== verification/RaftNode.v ===== *)
(** * The Raft node (pylog/raft.py, classes [DurableState] and [RaftNode])

    A handler is a computation over the node, the messages it has sent and the
    [on_apply] callbacks it has made.  [clock] is the reading of the node's clock
    while the handler runs and [wall] the wall-clock time of its disk writes.
    Times are integers in one unit.  A [str] that is tested for truth is tested for
    being non-empty. *)
From stdpp Require Export sorting.
From S2P Require Import Prelude Bytes FileSystem Unicode Json RaftLog KVStore RaftInterfaces.
Local Open Scope Z_scope.

Definition NOOP : bytes := bytes_of_str "__raft_noop__".
Definition CFG : bytes := bytes_of_str "__cfg:".

Inductive Role : Set := FOLLOWER | CANDIDATE | LEADER.

#[export] Instance Role_eq_dec : EqDecision Role.
Proof. solve_decision. Defined.

(** ** Configuration entries *)

(** [json.dumps({"servers": ids}).encode()] *)
Definition cfg_dumps (ids : list NodeId) : bytes :=
  json_dumps false (JObj [("servers"%string, JArr (JStr <$> ids))]).

(** The strings of a list, if it holds nothing else. *)
Fixpoint json_strings (l : list Json) : option (list string) :=
  match l with
  | [] => Some []
  | JStr s :: l' => ss ← json_strings l'; Some (s :: ss)
  | _ :: _ => None
  end.

(** [json.loads(text.decode()).get("servers", [])]; [None] when this raises, which the
    caller ignores, and for a list of anything but strings, which the code does not
    write. *)
Definition cfg_loads (text : bytes) : option (list NodeId) :=
  match json_loads text with
  | inr (JObj d) =>
      match dict_get "servers" d with
      | None => Some []
      | Some (JArr l) => json_strings l
      | Some _ => None
      end
  | _ => None
  end.

(** ** Persistent term and vote

    [ds_file] is the text of the state file, once it was written; the write to a
    temporary file and [os.replace] make its replacement atomic. *)
Record DurableState := mkDS {
  ds_path : bool;
  ds_file : option bytes;
  current_term : Z;
  voted_for : option NodeId;
}.

(** [None] or a string. *)
Definition json_opt_str (s : option string) : Json := match s with Some x => JStr x | None => JNull end.

Definition state_text (term : Z) (voted : option NodeId) : bytes :=
  json_dumps false (JObj [("term"%string, JInt term); ("voted_for"%string, json_opt_str voted)]).

(** The fields of a state file; one with a term or a vote of another type, which the
    code does not write, is refused here. *)
Definition parse_state (text : bytes) : Exn + Z * option NodeId :=
  match json_loads text with
  | inl e => inl e
  | inr (JObj d) =>
      match dict_get "term" d, dict_get "voted_for" d with
      | None, _ => inl KeyError
      | Some (JInt t), None | Some (JInt t), Some JNull => inr (t, None)
      | Some (JInt t), Some (JStr v) => inr (t, Some v)
      | Some _, _ => inl TypeError
      end
  | inr _ => inl TypeError
  end.

Definition DurableState_load (s : DurableState) : Exn + DurableState :=
  match ds_path s, ds_file s with
  | true, Some text =>
      match parse_state text with
      | inl e => inl e
      | inr (t, v) => inr (mkDS (ds_path s) (ds_file s) t v)
      end
  | _, _ => inr s
  end.

(** [DurableState(path)], where the file has text [file] or does not exist. *)
Definition DurableState_init (path : bool) (file : option bytes) : Exn + DurableState :=
  DurableState_load (mkDS path file 0 None).

Definition DurableState_save (term : Z) (voted : option NodeId) (s : DurableState) : DurableState :=
  mkDS (ds_path s) (if ds_path s then Some (state_text term voted) else ds_file s) term voted.

(** ** Messages *)

Inductive Msg : Type :=
  | PreVote (term : Z) (candidate : NodeId) (m_last_index m_last_term : Z)
  | PreVoteResp (term : Z) (from : NodeId) (granted : bool)
  | Vote (term : Z) (candidate : NodeId) (m_last_index m_last_term : Z)
  | VoteResp (term : Z) (from : NodeId) (granted : bool)
  | Append (term : Z) (leader : NodeId) (prev_index prev_term : Z) (ents : list Entry) (commit : Z)
  | AppendResp (term : Z) (from : NodeId) (success : bool) (match_ : Z) (conflict : option Z)
  | InstallSnapshot (term : Z) (leader : NodeId) (last_included_index last_included_term : Z)
      (data : KVSnapshot)
  | TimeoutNow (term : Z).

Record Snapshot := mkSnapshot {
  snap_index : Z; snap_term : Z; snap_data : KVSnapshot }.

(** *** The snapshot file

    The items of the dictionary under ["keys"] are listed in some order: it does not
    survive loading. *)
Definition state_json (st : KVSnapshot) : Json :=
  JObj [("keys"%string, JObj ((λ kv, (kv.1, JStr kv.2)) <$> map_to_list (snap_keys st)));
        ("ops"%string, JInt (snap_ops st))].

Definition snapshot_text (idx term : Z) (st : KVSnapshot) : bytes :=
  json_dumps false (JObj [("last_included_index"%string, JInt idx); ("last_included_term"%string, JInt term);
                          ("state_machine"%string, state_json st)]).

(** A dictionary of strings. *)
Fixpoint json_keys (d : list (string * Json)) : option (gmap string string) :=
  match d with
  | [] => Some ∅
  | (k, JStr v) :: d' => m ← json_keys d'; Some (<[k := v]> m)
  | _ :: _ => None
  end.

(** What [KVStore.restore] reads: [st.get("keys", {})], [st.get("ops", 0)]; other
    types, which the code does not write, are refused. *)
Definition parse_kv (v : Json) : Exn + KVSnapshot :=
  match v with
  | JObj d =>
      match (match dict_get "keys" d with None => Some ∅ | Some (JObj k) => json_keys k | Some _ => None end),
            (match dict_get "ops" d with None => Some 0 | Some (JInt n) => Some n | Some _ => None end) with
      | Some k, Some n => inr (mkSnap k n)
      | _, _ => inl TypeError
      end
  | _ => inl AttributeError
  end.

Definition parse_snapshot (text : bytes) : Exn + Snapshot :=
  match json_loads text with
  | inl e => inl e
  | inr (JObj d) =>
      match dict_get "last_included_index" d, dict_get "last_included_term" d, dict_get "state_machine" d with
      | Some (JInt idx), Some (JInt term), Some st =>
          match parse_kv st with inl e => inl e | inr k => inr (mkSnapshot idx term k) end
      | Some _, Some _, Some _ => inl TypeError
      | _, _, _ => inl KeyError
      end
  | inr _ => inl TypeError
  end.

(** [_snapshot_path] and the test of [_load_snapshot_file] on a name. *)
Definition snapshot_name (idx : Z) : string := ("snapshot-" +:+ fmt_020d idx +:+ ".json")%string.

Definition is_snapshot_name (name : string) : bool :=
  String.prefix "snapshot-" name && bool_decide (is_Some (FileSystem.strip_suffix ".json" name)).

(** An [on_apply] callback: node, index, payload, result. *)
Record ApplyEvent := mkApplied {
  ap_node : NodeId; ap_index : Z; ap_payload : bytes; ap_result : option ApplyResult }.

Definition truthy (s : option NodeId) : bool :=
  match s with Some x => negb (bool_decide (x = ""%string)) | None => false end.

Definition sorted_ids (X : gset NodeId) : list NodeId := merge_sort String.le (elements X).

(** ** The node *)

Record RaftNode {L Rng : Type} := mkNode {
  id : NodeId;
  peers : list NodeId;
  config : gset NodeId;
  old_config : option (gset NodeId);
  joint_index : Z;
  rng : Rng;
  persister : DurableState;
  state_machine : option KVStore;
  on_apply : bool;
  election_min : Z;
  election_max : Z;
  heartbeat_interval : Z;
  quorum_check_interval : Z;
  max_batch : Z;
  use_prevote : bool;
  log : L;
  snapshot_dir : option FS;
  auto_snapshot_every : option Z;
  last_snapshot : option Snapshot;
  role : Role;
  leader_id : option NodeId;
  pre_candidate : bool;
  commit_index : Z;
  applied_index : Z;
  election_deadline : Z;
  votes : gset NodeId;
  next_index : gmap NodeId Z;
  match_index : gmap NodeId Z;
  last_peer_ack : gmap NodeId Z;
  last_leader_contact : Z;
  next_heartbeat : Z;
  next_quorum_check : Z;
  transfer_target : option NodeId;
  transfer_deadline : Z;
  prevote_term : Z;
}.
Arguments RaftNode : clear implicits.

#[export] Instance RaftNode_eta {L Rng} : Eta (RaftNode L Rng) := λ n,
  mkNode _ _ (id n) (peers n) (config n) (old_config n) (joint_index n) (rng n) (persister n)
    (state_machine n) (on_apply n) (election_min n) (election_max n) (heartbeat_interval n)
    (quorum_check_interval n) (max_batch n) (use_prevote n) (log n) (snapshot_dir n)
    (auto_snapshot_every n) (last_snapshot n) (role n) (leader_id n) (pre_candidate n)
    (commit_index n) (applied_index n) (election_deadline n) (votes n) (next_index n)
    (match_index n) (last_peer_ack n) (last_leader_contact n) (next_heartbeat n)
    (next_quorum_check n) (transfer_target n) (transfer_deadline n) (prevote_term n).

(** A node with the messages it sent and the callbacks it made, oldest first. *)
Record World {L Rng : Type} := mkWorld {
  nd : RaftNode L Rng;
  sent : list (NodeId * Msg);
  applied : list ApplyEvent;
}.
Arguments World : clear implicits.

#[export] Instance World_eta {L Rng} : Eta (World L Rng) := λ w, mkWorld _ _ (nd w) (sent w) (applied w).

Section node.
Context {L Rng : Type} `{RaftLogOps L} `{Random Rng}.
Context (clock wall : Z).

Abbreviation Node := (RaftNode L Rng).
Abbreviation NodeM := (M (World L Rng)).

Definition self : NodeM Node := gets nd.
Definition on_node (f : Node → Node) : NodeM () := modify (λ w, w <| nd := f (nd w) |>).

(** [self.transport.send(dest, msg)] *)
Definition send (dest : NodeId) (msg : Msg) : NodeM () :=
  modify (λ w, w <| sent := sent w ++ [(dest, msg)] |>).

(** A method of [self.log]. *)
Definition on_log {A} (m : M L A) : NodeM A := λ w,
  let '(r, l) := m (log (nd w)) in (r, w <| nd := (nd w) <| log := l |> |>).

Definition rlog (n : Node) : RaftLog := log_view (log n).
Definition term_of (n : Node) : Z := current_term (persister n).

(** [self.rng.uniform(lo, hi)] *)
Definition draw (lo hi : Z) : NodeM Z := λ w,
  let '(v, r) := uniform lo hi (rng (nd w)) in (inr v, w <| nd := (nd w) <| rng := r |> |>).

(** [self.persister.save(term, voted)] *)
Definition save (term : Z) (voted : option NodeId) : NodeM () :=
  on_node (λ n, n <| persister := DurableState_save term voted (persister n) |>).

(** *** Timers *)

Definition RaftNode_reset_election_deadline (initial : bool) : NodeM Z :=
  n ← self;
  base ← draw (election_min n) (election_max n);
  base ← (if initial then extra ← draw 0 50; mret (base + extra) else mret base);
  _ ← on_node (λ n, n <| election_deadline := clock + base |>);
  mret (clock + base).

Definition RaftNode_has_majority (voters : gset NodeId) (n : Node) : bool :=
  let count (X : gset NodeId) := Z.of_nat (size X) in
  match old_config n with
  | Some old =>
      (count old / 2 + 1 <=? count (voters ∩ old))
      && (count (config n) / 2 + 1 <=? count (voters ∩ config n))
  | None => count (config n) / 2 <? count voters
  end.

Definition RaftNode_next_event_due (n : Node) : Z :=
  match role n with
  | LEADER =>
      let due := Z.min (next_heartbeat n) (next_quorum_check n) in
      if truthy (transfer_target n) then Z.min due (transfer_deadline n) else due
  | _ => election_deadline n
  end.

(** [(last_term, last_index)] *)
Definition RaftNode_progress (n : Node) : Z * Z :=
  let li := last_index (rlog n) in
  let lt := last_term (rlog n) in
  if (li =? 0) && (0 <? snapshot_last_index (rlog n))
  then (snapshot_last_term (rlog n), snapshot_last_index (rlog n))
  else (lt, li).

(** [a >= b] on pairs. *)
Definition pair_ge (a b : Z * Z) : bool := (b.1 <? a.1) || ((a.1 =? b.1) && (b.2 <=? a.2)).

Definition RaftNode_step_down (term : Z) : NodeM () :=
  n ← self;
  _ ← when (term_of n <? term) (save term None);
  _ ← on_node (λ n, n <| role := FOLLOWER |> <| pre_candidate := false |>
                      <| transfer_target := None |> <| transfer_deadline := 0 |>);
  _ ← RaftNode_reset_election_deadline false;
  mret ().

(** *** Snapshots *)

(** The data is the snapshot of a state machine, which always has [keys] and [ops]; for a
    message with the data [{}], which no node sends, the code would write [{}]. *)
Definition RaftNode_write_snapshot_file (idx term : Z) (st : KVSnapshot) : NodeM () :=
  on_node (λ n,
    match snapshot_dir n with
    | None => n
    | Some files => n <| snapshot_dir := Some (fs_write (snapshot_name idx) (snapshot_text idx term st) files) |>
    end).

Definition RaftNode_take_snapshot : NodeM (option Snapshot) :=
  n ← self;
  match state_machine n with
  | None => mret None
  | Some sm =>
      if applied_index n =? 0 then mret None
      else
        let idx := applied_index n in
        let term := term_at idx (rlog n) in
        let term := if (term <? 0) && (snapshot_last_index (rlog n) =? idx)
                    then snapshot_last_term (rlog n) else term in
        let st := KVStore_snapshot sm in
        _ ← RaftNode_write_snapshot_file idx term st;
        _ ← on_node (λ n, n <| last_snapshot := Some (mkSnapshot idx term st) |>);
        _ ← on_node (λ n, n <| log := log_assign (λ l, (compact idx term l).2) (log n) |>);
        n ← self;
        mret (last_snapshot n)
  end.

(** The text of the snapshot file whose name sorts last. *)
Definition latest_snapshot (files : FS) : option bytes :=
  last (filter is_snapshot_name (merge_sort String.le (elements (dom files : gset string))))
    ≫= λ name, files !! name.

Definition RaftNode_resync (idx : Z) : NodeM () :=
  match log_truncate_disk_through with
  | Some resync => on_log (resync idx)
  | None => mret ()
  end.

Definition RaftNode_load_snapshot_file : NodeM () :=
  n ← self;
  match snapshot_dir n, state_machine n with
  | Some files, Some sm =>
      match latest_snapshot files with
      | None => mret ()
      | Some text =>
          s ← lift (parse_snapshot text);
          _ ← on_node (λ n, n <| state_machine := Some (KVStore_restore (snap_data s) sm) |>);
          _ ← on_node (λ n, n <| log := log_assign (λ l, (compact (snap_index s) (snap_term s) l).2) (log n) |>);
          _ ← RaftNode_resync (snap_index s);
          on_node (λ n, n <| commit_index := Z.max (commit_index n) (snap_index s) |>
                          <| applied_index := Z.max (applied_index n) (snap_index s) |>
                          <| last_snapshot := Some s |>)
      end
  | _, _ => mret ()
  end.

(** *** Applying committed entries *)

(** [bytes.startswith] *)
Definition starts_with (p b : bytes) : bool := bool_decide (take (length p) b = p).

(** Replication state for servers that have none yet. *)
Definition track_peers (servers : list NodeId) : NodeM () :=
  for_each servers (λ p,
    n ← self;
    when (negb (bool_decide (p = id n)) && bool_decide (next_index n !! p = None))
      (on_node (λ n, n <| next_index := <[p := last_index (rlog n) + 1]> (next_index n) |>
                       <| match_index := <[p := 0]> (match_index n) |>
                       <| last_peer_ack := <[p := clock]> (last_peer_ack n) |>))).

Definition set_peers : NodeM () :=
  on_node (λ n, n <| peers := filter (λ p, p ≠ id n) (sorted_ids (config n)) |>).

(** [pop] of a removed peer from the three tables. *)
Definition forget_peers : NodeM () :=
  n ← self;
  for_each (elements (dom (next_index n) ∖ config n)) (λ p,
    on_node (λ n, n <| next_index := delete p (next_index n) |>
                    <| match_index := delete p (match_index n) |>
                    <| last_peer_ack := delete p (last_peer_ack n) |>)).

(** The configuration branch of [_apply_committed]. *)
Definition apply_config (payload : bytes) : NodeM () :=
  match cfg_loads (drop 6 payload) with
  | None | Some [] => mret ()
  | Some servers =>
      _ ← on_node (λ n, n <| config := list_to_set servers |>);
      _ ← set_peers;
      n ← self;
      _ ← track_peers (elements (config n));
      _ ← forget_peers;
      on_node (λ n, n <| old_config := None |> <| joint_index := 0 |>)
  end.

(** [self.state_machine.apply(payload)] *)
Definition sm_apply (payload : bytes) : NodeM (option ApplyResult) := λ w,
  match state_machine (nd w) with
  | None => (inl AttributeError, w)
  | Some sm =>
      let '(r, sm') := KVStore_apply payload sm in
      let w' := w <| nd := (nd w) <| state_machine := Some sm' |> |> in
      match r with inl e => (inl e, w') | inr x => (inr (Some x), w') end
  end.

(** One turn of the loop of [_apply_committed] on the entry after the applied ones. *)
Definition apply_entry (nxt : Z) (entry : Entry) : NodeM () :=
  let payload := e_payload entry in
  n ← self;
  if negb (bool_decide (payload = [])) && starts_with CFG payload then
    _ ← apply_config payload;
    on_node (λ n, n <| applied_index := nxt |>)
  else
    match state_machine n with
    | None => on_node (λ n, n <| applied_index := nxt |>)
    | Some _ =>
        result ← (if negb (bool_decide (payload = [])) && negb (starts_with NOOP payload)
                  then sm_apply payload else mret None);
        _ ← on_node (λ n, n <| applied_index := nxt |>);
        n ← self;
        when (on_apply n)
          (modify (λ w, w <| applied := applied w ++ [mkApplied (id n) (e_index entry) payload result] |>))
    end.

(** The loop; [false] when it leaves by [return]. *)
Fixpoint apply_loop (fuel : nat) : NodeM bool :=
  match fuel with
  | O => mret true
  | S fuel' =>
      n ← self;
      if applied_index n <? commit_index n then
        let nxt := applied_index n + 1 in
        match RaftLog_get nxt (rlog n) with
        | None =>
            match state_machine n with
            | None => _ ← on_node (λ n, n <| applied_index := commit_index n |>); mret false
            | Some _ => mret true
            end
        | Some entry => _ ← apply_entry nxt entry; apply_loop fuel'
        end
      else mret true
  end.

(** Each turn raises [applied_index] by one, up to [commit_index]. *)
Definition RaftNode_apply_committed : NodeM () :=
  n ← self;
  through ← apply_loop (Z.to_nat (commit_index n - applied_index n));
  when through
    (n ← self;
     match auto_snapshot_every n, snapshot_dir n with
     | Some every, Some _ =>
         when (negb (every =? 0)
               && (every <=? applied_index n - default 0 (snap_index <$> last_snapshot n)))
           (_ ← RaftNode_take_snapshot; mret ())
     | _, _ => mret ()
     end).

(** *** Replication *)

Definition RaftNode_send_append (peer : NodeId) : NodeM () :=
  n ← self;
  let ni := default (last_index (rlog n) + 1) (next_index n !! peer) in
  if ni <? first_index (rlog n) then
    let lii := default (snapshot_last_index (rlog n)) (snap_index <$> last_snapshot n) in
    let lit := default (snapshot_last_term (rlog n)) (snap_term <$> last_snapshot n) in
    let data := default (mkSnap ∅ 0) (snap_data <$> last_snapshot n) in
    send peer (InstallSnapshot (term_of n) (id n) lii lit data)
  else
    let prev := ni - 1 in
    send peer (Append (term_of n) (id n) prev (term_at prev (rlog n))
                 (entries_from ni (Some (max_batch n)) (rlog n)) (commit_index n)).

Definition RaftNode_send_all_appends : NodeM () :=
  n ← self; for_each (peers n) RaftNode_send_append.

(** The servers among [servers] whose match index reached [candidate]. *)
Definition replicated (candidate : Z) (servers : gset NodeId) (n : Node) : Z :=
  Z.of_nat (size (filter (λ '(p, mi), candidate <= mi ∧ p ∈ servers) (match_index n))).

(** The count of [_advance_commit].  As in the code it starts from one for the leader
    when there is a single configuration, and for the new one of two, whether or not
    the leader belongs to it. *)
Definition commit_quorum (candidate : Z) (n : Node) : bool :=
  let count (X : gset NodeId) := Z.of_nat (size X) in
  match old_config n with
  | Some old =>
      let old_have := (if bool_decide (id n ∈ old) then 1 else 0) + replicated candidate old n in
      let new_have := 1 + replicated candidate (config n) n in
      (count old / 2 + 1 <=? old_have) && (count (config n) / 2 + 1 <=? new_have)
  | None => count (config n) / 2 + 1 <=? 1 + replicated candidate (config n) n
  end.

(** [for candidate in range(last_index, commit_index, -1)], [k] values left. *)
Fixpoint advance_commit_loop (k : nat) (candidate : Z) : NodeM () :=
  match k with
  | O => mret ()
  | S k' =>
      n ← self;
      if negb (term_at candidate (rlog n) =? term_of n) then advance_commit_loop k' (candidate - 1)
      else if commit_quorum candidate n then
        _ ← on_node (λ n, n <| commit_index := candidate |>);
        RaftNode_apply_committed
      else advance_commit_loop k' (candidate - 1)
  end.

Definition RaftNode_advance_commit : NodeM () :=
  n ← self;
  advance_commit_loop (Z.to_nat (last_index (rlog n) - commit_index n)) (last_index (rlog n)).

(** *** Client operations *)

Definition is_leader (n : Node) : bool := bool_decide (role n = LEADER).

Definition RaftNode_propose (payload : bytes) : NodeM (option Z) :=
  n ← self;
  if negb (is_leader n) || bool_decide (transfer_target n ≠ None) then mret None
  else
    entry ← on_log (log_append_entry (term_of n) payload wall);
    _ ← RaftNode_advance_commit;
    _ ← RaftNode_send_all_appends;
    mret (Some (e_index entry)).

Definition RaftNode_transfer_leadership (target : NodeId) : NodeM bool :=
  n ← self;
  if negb (is_leader n) || bool_decide (target ∉ peers n) then mret false
  else
    _ ← on_node (λ n, n <| transfer_target := Some target |>
                        <| transfer_deadline := clock + election_max n * 2 |>);
    _ ← send target (TimeoutNow (term_of n));
    mret true.

Definition RaftNode_propose_config (new_servers : gset NodeId) : NodeM (option Z) :=
  n ← self;
  let old := config n in
  _ ← when (bool_decide (old_config n = None))
        (_ ← on_node (λ n, n <| old_config := Some old |> <| config := old ∪ new_servers |>
                             <| joint_index := last_index (rlog n) + 1 |>);
         _ ← track_peers (elements new_servers);
         set_peers);
  entry ← on_log (log_append_entry (term_of n) (CFG ++ cfg_dumps (sorted_ids new_servers)) wall);
  _ ← RaftNode_advance_commit;
  _ ← RaftNode_send_all_appends;
  mret (Some (e_index entry)).

Definition RaftNode_propose_add_server (new_id : NodeId) : NodeM (option Z) :=
  n ← self;
  if negb (is_leader n) || bool_decide (new_id ∈ config n) || bool_decide (old_config n ≠ None)
  then mret None
  else RaftNode_propose_config (config n ∪ {[new_id]}).

Definition RaftNode_propose_remove_server (rm_id : NodeId) : NodeM (option Z) :=
  n ← self;
  if negb (is_leader n) || bool_decide (rm_id ∉ config n) || bool_decide (rm_id = id n)
     || bool_decide (old_config n ≠ None) then mret None
  else if bool_decide (size (config n) ≤ 2)%nat then mret None
  else RaftNode_propose_config (config n ∖ {[rm_id]}).

(** *** Elections *)

Definition RaftNode_become_leader : NodeM () :=
  _ ← on_node (λ n, n <| role := LEADER |> <| leader_id := Some (id n) |> <| pre_candidate := false |>
                      <| transfer_target := None |> <| transfer_deadline := 0 |>
                      <| match_index := ∅ |> <| next_index := ∅ |>);
  n ← self;
  _ ← for_each (peers n) (λ p,
        on_node (λ n, n <| match_index := <[p := 0]> (match_index n) |>
                        <| next_index := <[p := last_index (rlog n) + 1]> (next_index n) |>
                        <| last_peer_ack := <[p := clock]> (last_peer_ack n) |>));
  _ ← when (bool_decide (state_machine n ≠ None)) (_ ← RaftNode_propose NOOP; mret ());
  _ ← RaftNode_send_all_appends;
  on_node (λ n, n <| next_heartbeat := clock + heartbeat_interval n |>
                  <| next_quorum_check := clock + quorum_check_interval n |>).

Definition RaftNode_maybe_win : NodeM () :=
  n ← self;
  when (bool_decide (role n = CANDIDATE) && RaftNode_has_majority (votes n) n) RaftNode_become_leader.

Definition RaftNode_start_election : NodeM () :=
  n ← self;
  _ ← save (term_of n + 1) (Some (id n));
  _ ← on_node (λ n, n <| role := CANDIDATE |> <| leader_id := None |> <| votes := {[id n]} |>);
  _ ← RaftNode_reset_election_deadline false;
  n ← self;
  let '(lt, li) := RaftNode_progress n in
  _ ← for_each (peers n) (λ p, send p (Vote (term_of n) (id n) li lt));
  when (bool_decide (peers n = []) || ((len (peers n) + 1) / 2 <? Z.of_nat (size (votes n))))
    RaftNode_become_leader.

Definition RaftNode_start_prevote_or_election : NodeM () :=
  n ← self;
  if use_prevote n && negb (pre_candidate n) then
    _ ← on_node (λ n, n <| pre_candidate := true |> <| prevote_term := term_of n + 1 |>
                        <| votes := {[id n]} |>);
    n ← self;
    let '(lt, li) := RaftNode_progress n in
    _ ← for_each (peers n) (λ p, send p (PreVote (prevote_term n) (id n) li lt));
    _ ← RaftNode_reset_election_deadline false;
    mret ()
  else
    _ ← on_node (λ n, n <| pre_candidate := false |>);
    RaftNode_start_election.

(** The peers of [servers] heard from within [window]. *)
Definition heard (now window : Z) (servers : gset NodeId) (n : Node) : Z :=
  Z.of_nat (size (filter (λ p, p ≠ id n ∧ now - default (- 10 ^ 18) (last_peer_ack n !! p) <= window)
                         servers)).

Definition RaftNode_check_quorum (now : Z) : NodeM () :=
  n ← self;
  let count (X : gset NodeId) := Z.of_nat (size X) in
  let ack_window := election_max n * 2 in
  match old_config n with
  | Some old =>
      let old_alive := (if bool_decide (id n ∈ old) then 1 else 0) + heard now ack_window old n in
      let new_alive := 1 + heard now ack_window (config n) n in
      when ((old_alive <=? count old / 2) || (new_alive <=? count (config n) / 2))
        (RaftNode_step_down (term_of n))
  | None =>
      when (1 + heard now ack_window (config n) n <=? count (config n) / 2)
        (RaftNode_step_down (term_of n))
  end.

(** [tick(now)]; without an argument [now] is the clock. *)
Definition RaftNode_tick (now : option Z) : NodeM () :=
  let now := default clock now in
  n ← self;
  if is_leader n then
    _ ← when (truthy (transfer_target n) && (transfer_deadline n <=? now))
          (_ ← on_node (λ n, n <| transfer_target := None |> <| transfer_deadline := 0 |>);
           RaftNode_send_all_appends);
    n ← self;
    _ ← when (next_heartbeat n <=? now)
          (_ ← RaftNode_send_all_appends;
           on_node (λ n, n <| next_heartbeat := now + heartbeat_interval n |>));
    n ← self;
    when (next_quorum_check n <=? now)
      (_ ← RaftNode_check_quorum now;
       on_node (λ n, n <| next_quorum_check := now + quorum_check_interval n |>))
  else
    when (election_deadline n <=? now) RaftNode_start_prevote_or_election.

(** *** Message handlers *)

Definition RaftNode_on_prevote (term : Z) (candidate : NodeId) (m_li m_lt : Z) : NodeM () :=
  n ← self;
  let up_to_date := pair_ge (m_lt, m_li) (RaftNode_progress n) in
  let leader_alive := clock - last_leader_contact n <? election_max n * 2 in
  let grant := (term_of n <? term) && up_to_date
               && negb (bool_decide (role n = FOLLOWER) && bool_decide (leader_id n ≠ None) && leader_alive) in
  send candidate (PreVoteResp term (id n) grant).

Definition RaftNode_on_prevote_resp (term : Z) (from : NodeId) (granted : bool) : NodeM () :=
  n ← self;
  if negb (pre_candidate n) || negb (term =? prevote_term n) then mret ()
  else
    _ ← when granted (on_node (λ n, n <| votes := votes n ∪ {[from]} |>));
    n ← self;
    if RaftNode_has_majority (votes n) n then
      _ ← on_node (λ n, n <| pre_candidate := false |>);
      RaftNode_start_election
    else when (negb granted) (_ ← RaftNode_reset_election_deadline false; mret ()).

Definition RaftNode_on_vote (term : Z) (candidate : NodeId) (m_li m_lt : Z) : NodeM () :=
  n ← self;
  if term <? term_of n then send candidate (VoteResp (term_of n) (id n) false)
  else
    _ ← when (term_of n <? term) (RaftNode_step_down term);
    n ← self;
    let up_to_date := pair_ge (m_lt, m_li) (RaftNode_progress n) in
    let can_vote := bool_decide (voted_for (persister n) = None)
                    || bool_decide (voted_for (persister n) = Some candidate) in
    let grant := can_vote && up_to_date in
    _ ← when grant
          (_ ← save (term_of n) (Some candidate);
           _ ← RaftNode_reset_election_deadline false; mret ());
    n ← self;
    send candidate (VoteResp (term_of n) (id n) grant).

Definition RaftNode_on_vote_resp (term : Z) (from : NodeId) (granted : bool) : NodeM () :=
  n ← self;
  if negb (bool_decide (role n = CANDIDATE)) || negb (term =? term_of n) then mret ()
  else
    when granted
      (_ ← on_node (λ n, n <| votes := votes n ∪ {[from]} |>);
       RaftNode_maybe_win).

Definition RaftNode_on_append (term : Z) (leader : NodeId) (prev_index prev_term : Z)
    (ents : list Entry) (commit : Z) : NodeM () :=
  n ← self;
  if term <? term_of n then send leader (AppendResp (term_of n) (id n) false 0 None)
  else
    _ ← when ((term_of n <? term) || negb (bool_decide (role n = FOLLOWER))) (RaftNode_step_down term);
    _ ← on_node (λ n, n <| role := FOLLOWER |> <| leader_id := Some leader |>
                        <| last_leader_contact := clock |>);
    _ ← RaftNode_reset_election_deadline false;
    '(ok, match_, conflict) ← on_log (log_merge prev_index prev_term ents wall);
    n ← self;
    _ ← when (ok && (commit_index n <? commit))
          (_ ← on_node (λ n, n <| commit_index := Z.min commit (last_index (rlog n)) |>);
           RaftNode_apply_committed);
    n ← self;
    send leader (AppendResp (term_of n) (id n) ok (if ok then match_ else 0) (Some conflict)).

(** A key error when the table has no such peer. *)
Definition get_key (m : gmap NodeId Z) (p : NodeId) : NodeM Z :=
  match m !! p with Some x => mret x | None => raise KeyError end.

Definition RaftNode_on_append_resp (term : Z) (from : NodeId) (success : bool) (match_ : Z)
    (conflict : option Z) : NodeM () :=
  n ← self;
  if negb (is_leader n) || negb (term =? term_of n) then
    when (term_of n <? term) (RaftNode_step_down term)
  else
    _ ← on_node (λ n, n <| last_peer_ack := <[from := clock]> (last_peer_ack n) |>);
    if success then
      mi ← get_key (match_index n) from;
      _ ← on_node (λ n, n <| match_index := <[from := Z.max mi match_]> (match_index n) |>
                          <| next_index := <[from := Z.max mi match_ + 1]> (next_index n) |>);
      RaftNode_advance_commit
    else
      ni ← get_key (next_index n) from;
      let hint := match conflict with
                  | Some c => if c =? 0 then ni - 1 else c
                  | None => ni - 1
                  end in
      _ ← on_node (λ n, n <| next_index := <[from := Z.max 1 (Z.min (ni - 1) hint)]> (next_index n) |>);
      RaftNode_send_append from.

Definition RaftNode_on_timeout_now (term : Z) : NodeM () :=
  n ← self;
  when ((term_of n <=? term) && negb (is_leader n)) RaftNode_start_election.

Definition RaftNode_on_install_snapshot (term : Z) (leader : NodeId) (idx idx_term : Z)
    (data : KVSnapshot) : NodeM () :=
  n ← self;
  if term <? term_of n then send leader (AppendResp (term_of n) (id n) false 0 None)
  else
    _ ← when ((term_of n <? term) || negb (bool_decide (role n = FOLLOWER))) (RaftNode_step_down term);
    _ ← on_node (λ n, n <| leader_id := Some leader |> <| last_leader_contact := clock |>);
    _ ← RaftNode_reset_election_deadline false;
    n ← self;
    let already_have := (term_at idx (rlog n) =? idx_term) || (idx <=? snapshot_last_index (rlog n)) in
    _ ← when (negb already_have)
          (_ ← on_node (λ n, n <| state_machine := KVStore_restore data <$> state_machine n |>);
           _ ← on_node (λ n, n <| log := log_assign (λ l,
                 mkRaftLog (filter (λ e, idx < e_index e) (entries l)) (idx + 1) idx idx_term) (log n) |>);
           _ ← RaftNode_write_snapshot_file idx idx_term data;
           _ ← on_node (λ n, n <| last_snapshot := Some (mkSnapshot idx idx_term data) |>);
           RaftNode_resync idx);
    _ ← on_node (λ n, n <| commit_index := Z.max (commit_index n) idx |>);
    _ ← when (negb already_have) (on_node (λ n, n <| applied_index := Z.max (applied_index n) idx |>));
    n ← self;
    send leader (AppendResp (term_of n) (id n) true idx None).

(** [getattr(self, "_on_" + msg["type"])(msg)] *)
Definition RaftNode_handle (msg : Msg) : NodeM () :=
  match msg with
  | PreVote t c li lt => RaftNode_on_prevote t c li lt
  | PreVoteResp t f g => RaftNode_on_prevote_resp t f g
  | Vote t c li lt => RaftNode_on_vote t c li lt
  | VoteResp t f g => RaftNode_on_vote_resp t f g
  | Append t l pi pt es c => RaftNode_on_append t l pi pt es c
  | AppendResp t f s m c => RaftNode_on_append_resp t f s m c
  | InstallSnapshot t l i it d => RaftNode_on_install_snapshot t l i it d
  | TimeoutNow t => RaftNode_on_timeout_now t
  end.

(** *** Reads and introspection *)

Definition RaftNode_can_serve_linearizable_read (n : Node) : bool :=
  if negb (is_leader n) then false
  else
    let count (X : gset NodeId) := Z.of_nat (size X) in
    let window := election_min n in
    match old_config n with
    | Some old =>
        let old_fresh := heard clock window old n + (if bool_decide (id n ∈ old) then 1 else 0) in
        let new_fresh := heard clock window (config n) n + 1 in
        (count old / 2 <? old_fresh) && (count (config n) / 2 <? new_fresh)
    | None => count (config n) / 2 <? 1 + heard clock window (config n) n
    end.

(** [info()]: id, role, term, leader, last index, commit, applied. *)
Definition RaftNode_info (n : Node) : NodeId * Role * Z * option NodeId * Z * Z * Z :=
  (id n, role n, term_of n, leader_id n, last_index (rlog n), commit_index n, applied_index n).

(** *** Construction *)

(** The arguments of the constructor; the election timeout is a pair, the quorum
    check interval defaults to twice its upper bound. *)
Definition RaftNode_new (node_id : NodeId) (peer_ids : list NodeId) (r : Rng) (p : DurableState)
    (sm : option KVStore) (timeout : Z * Z) (heartbeat : Z) (quorum_check : option Z) (batch : Z)
    (prevote callback : bool) (l : L) (dir : option FS) (auto : option Z) : Node :=
  let ps := filter (λ p, p ≠ node_id) peer_ids in
  mkNode _ _ node_id ps ({[node_id]} ∪ list_to_set ps) None 0 r p sm callback timeout.1 timeout.2
    heartbeat (default (timeout.2 * 2) quorum_check) batch prevote l dir auto None FOLLOWER None false
    0 0 0 ∅ ∅ ∅ ∅ 0 0 0 None 0 0.

Definition RaftNode_init : NodeM () :=
  _ ← RaftNode_reset_election_deadline true;
  RaftNode_load_snapshot_file.
End node.

(** Whether an entry reaches the state machine, and what it does to it. *)
Definition is_command (e : Entry) : bool :=
  negb (bool_decide (e_payload e = [])) && negb (starts_with NOOP (e_payload e)).

Definition sm_step (sm : KVStore) (e : Entry) : KVStore :=
  if is_command e then (KVStore_apply (e_payload e) sm).2 else sm.
