(* ===== verification/Sim.v ===== *)
(** * The simulated cluster (pylog/sim.py)

    Nodes on a virtual clock: a queue of messages in flight, partitions, crashes and
    restarts.  Times are integers in one unit.  The log object of a node survives its
    restarts ([self.logs]), so it is the log of the node that is replaced. *)
From S2P Require Import Prelude Bytes Unicode RaftLog KVStore RaftInterfaces RaftNode.
Local Open Scope Z_scope.

(** [random.Random(self.rng.getrandbits(32))]: a new generator and the old one after
    the draw. *)
Class RandomFork (Rng : Type) := fork : Rng → Rng * Rng.

#[export] Instance ListRng_fork : RandomFork ListRng := λ r,
  match r with [] => ([], []) | x :: r' => (replicate 64 x, r') end.

Section sim.
Context {Rng : Type} `{Random Rng} `{RandomFork Rng}.
Abbreviation Node := (RaftNode RaftLog Rng).

(** An entry of the queue: due time, sequence number, destination, message. *)
Record Flight := mkFlight { fl_due : Z; fl_seq : Z; fl_dest : NodeId; fl_msg : Msg }.

(** The state files live in [state_dir], if there is one; each is held by the
    [DurableState] of its node.  The entry of a node in [self.state_machines] is the
    object the node holds, except after a [_build_node] that raised: then it is the
    state machine of the node that was not installed, kept in [half_built]. *)
Record SimCluster := mkSim {
  node_ids : list NodeId;
  sim_rng : Rng;
  sim_clock : Z;
  queue : list Flight;
  sim_seq : Z;
  latency_ms : Z;
  partitioned : gset (gset NodeId);
  crashed : gset NodeId;
  state_dir : bool;
  sim_prevote : bool;
  election_timeout_ms : Z * Z;
  heartbeat_interval_ms : Z;
  sim_nodes : gmap NodeId Node;
  half_built : gmap NodeId KVStore;
  sim_applied : list ApplyEvent;
}.

#[export] Instance SimCluster_eta : Eta SimCluster := λ s,
  mkSim (node_ids s) (sim_rng s) (sim_clock s) (queue s) (sim_seq s) (latency_ms s) (partitioned s) (crashed s)
    (state_dir s) (sim_prevote s) (election_timeout_ms s) (heartbeat_interval_ms s) (sim_nodes s)
    (half_built s) (sim_applied s).

Abbreviation SimM := (M SimCluster).

Definition sim : SimM SimCluster := get.
Definition on_sim (f : SimCluster → SimCluster) : SimM () := modify f.

(** ** The queue *)

Definition before (a b : Flight) : bool :=
  (fl_due a <? fl_due b) || ((fl_due a =? fl_due b) && (fl_seq a <? fl_seq b)).

(** [heapq.heappush], on the queue in the order in which it is popped. *)
Fixpoint heappush (f : Flight) (q : list Flight) : list Flight :=
  match q with
  | [] => [f]
  | g :: q' => if before f g then f :: q else g :: heappush f q'
  end.

(** [SimTransport.send] *)
Definition SimTransport_send (dest : NodeId) (msg : Msg) : SimM () :=
  on_sim (λ s, s <| sim_seq := sim_seq s + 1 |>
                 <| queue := heappush (mkFlight (sim_clock s + latency_ms s) (sim_seq s + 1) dest msg) (queue s) |>).

(** A method of the node [i]: the messages it sends are queued, the callbacks it makes
    are recorded. *)
Definition on_sim_node {A} (i : NodeId) (op : Z → M (World RaftLog Rng) A) : SimM A := λ s,
  match sim_nodes s !! i with
  | None => (inl KeyError, s)
  | Some n =>
      let '(r, w) := op (sim_clock s) (mkWorld _ _ n [] []) in
      (_ ← for_each (sent w) (λ dm, SimTransport_send dm.1 dm.2);
       lift r) (s <| sim_nodes := <[i := nd w]> (sim_nodes s) |>
                  <| sim_applied := sim_applied s ++ applied w |>)
  end.

(** ** Building nodes *)

(** A node over the log [saved] and the state file [file], as built at [clock]: it
    takes the whole log as committed and applies it. *)
Definition build_node (s : SimCluster) (i : NodeId) (r : Rng) (p : DurableState) : Node :=
  RaftNode_new i (node_ids s) r p (Some KVStore_init) (election_timeout_ms s) (heartbeat_interval_ms s) None 256
    (sim_prevote s) true RaftLog_init None None.

Definition state_machine_entry (i : NodeId) (n : Node) (m : gmap NodeId KVStore) : gmap NodeId KVStore :=
  partial_alter (λ _, state_machine n) i m.

Definition adopt_log (saved : RaftLog) (clock : Z) : M (World RaftLog Rng) () :=
  _ ← RaftNode_init clock;
  _ ← on_node (λ n, n <| log := saved |>);
  _ ← on_node (λ n, n <| commit_index := last_index saved |>);
  _ ← on_node (λ n, n <| applied_index := 0 |>);
  RaftNode_apply_committed clock.

(** [_build_node]: the new node, made and run on [adopt_log]; what it sends is queued
    and what it applies is recorded even when it raises. *)
Definition SimCluster_build_node (i : NodeId) (saved : RaftLog) (file : option bytes) : SimM Node := λ s,
  let '(r, r') := fork (sim_rng s) in
  let s := s <| sim_rng := r' |> <| half_built := <[i := KVStore_init]> (half_built s) |> in
  match DurableState_init (state_dir s) file with
  | inl e => (inl e, s)
  | inr p =>
      let '(res, w) := adopt_log saved (sim_clock s) (mkWorld _ _ (build_node s i r p) [] []) in
      (_ ← for_each (sent w) (λ dm, SimTransport_send dm.1 dm.2);
       _ ← on_sim (λ s, s <| sim_applied := sim_applied s ++ applied w |>);
       _ ← on_sim (λ s, s <| half_built := state_machine_entry i (nd w) (half_built s) |>);
       _ ← lift res;
       mret (nd w)) s
  end.

(** [self.nodes[i] = node] *)
Definition install (i : NodeId) (n : Node) : SimM () :=
  on_sim (λ s, s <| sim_nodes := <[i := n]> (sim_nodes s) |> <| half_built := delete i (half_built s) |>).

Definition SimCluster_new (ids : list NodeId) (r : Rng) (timeout : Z * Z) (heartbeat latency : Z)
    (dir prevote : bool) : SimCluster :=
  mkSim ids r 0 [] 0 latency ∅ ∅ dir prevote timeout heartbeat ∅ ∅ [].

(** [SimCluster(node_ids, ...)] over an empty [state_dir]. *)
Definition SimCluster_init : SimM () :=
  s ← sim;
  for_each (node_ids s) (λ i, n ← SimCluster_build_node i RaftLog_init None; install i n).

(** ** Faults *)

Definition SimCluster_crash (i : NodeId) : SimM () := on_sim (λ s, s <| crashed := {[i]} ∪ crashed s |>).

Definition SimCluster_restart (i : NodeId) : SimM () :=
  _ ← on_sim (λ s, s <| crashed := crashed s ∖ {[i]} |>);
  s ← sim;
  match sim_nodes s !! i with
  | None => raise KeyError
  | Some old =>
      n ← SimCluster_build_node i (log old) (ds_file (persister old));
      install i (n <| persister := mkDS (ds_path (persister n)) (ds_file (persister n))
        (current_term (persister old)) (voted_for (persister old)) |>)
  end.

Definition SimCluster_partition (a b : NodeId) : SimM () :=
  on_sim (λ s, s <| partitioned := {[ {[a; b]} ]} ∪ partitioned s |>).
Definition SimCluster_heal (a b : NodeId) : SimM () :=
  on_sim (λ s, s <| partitioned := partitioned s ∖ {[ {[a; b]} ]} |>).

Definition SimCluster_isolate (i : NodeId) : SimM () :=
  s ← sim; for_each (node_ids s) (λ o, when (negb (bool_decide (o = i))) (SimCluster_partition i o)).
Definition SimCluster_heal_all (i : NodeId) : SimM () :=
  s ← sim; for_each (node_ids s) (λ o, when (negb (bool_decide (o = i))) (SimCluster_heal i o)).

(** ** The event loop *)

Definition live_nodes (s : SimCluster) : list NodeId := filter (λ i, i ∉ crashed s) (node_ids s).

Definition node_due (s : SimCluster) (i : NodeId) : option Z := RaftNode_next_event_due <$> (sim_nodes s !! i).

(** [min(live, key=...)]: the first of the least due. *)
Fixpoint earliest (s : SimCluster) (ids : list NodeId) : option (NodeId * Z) :=
  match ids with
  | [] => None
  | i :: ids' =>
      match node_due s i, earliest s ids' with
      | None, r => r
      | Some d, None => Some (i, d)
      | Some d, Some (j, e) => if d <=? e then Some (i, d) else Some (j, e)
      end
  end.

(** [msg.get("candidate") or msg.get("leader") or msg.get("from")] *)
Definition msg_src (m : Msg) : option NodeId :=
  match m with
  | PreVote _ c _ _ | Vote _ c _ _ => Some c
  | PreVoteResp _ f _ | VoteResp _ f _ | AppendResp _ f _ _ _ => Some f
  | Append _ l _ _ _ _ | InstallSnapshot _ l _ _ _ => Some l
  | TimeoutNow _ => None
  end.

Definition cut_off (s : SimCluster) (m : Msg) (dest : NodeId) : bool :=
  match msg_src m with
  | Some src => truthy (Some src) && bool_decide ({[src; dest]} ∈ partitioned s)
  | None => false
  end.

(** The timer of the node that is due first. *)
Definition fire (i : NodeId) (due : Z) : SimM bool :=
  _ ← on_sim (λ s, s <| sim_clock := Z.max (sim_clock s) due |>);
  _ ← on_sim_node i (λ clock, RaftNode_tick clock 0 None);
  mret true.

(** The first message of the queue. *)
Definition deliver (f : Flight) (q : list Flight) : SimM bool :=
  _ ← on_sim (λ s, s <| queue := q |> <| sim_clock := Z.max (sim_clock s) (fl_due f) |>);
  s ← sim;
  if bool_decide (fl_dest f ∈ crashed s) then mret true
  else if bool_decide (sim_nodes s !! fl_dest f = None) then mret true
  else if cut_off s (fl_msg f) (fl_dest f) then mret true
  else
    _ ← on_sim_node (fl_dest f) (λ clock, RaftNode_handle clock 0 (fl_msg f));
    mret true.

Definition SimCluster_step : SimM bool :=
  s ← sim;
  match earliest s (live_nodes s), queue s with
  | None, [] => mret false
  | Some (i, due), [] => fire i due
  | None, f :: q => deliver f q
  | Some (i, due), f :: q => if due <=? fl_due f then fire i due else deliver f q
  end.

(** [run_until]: [Some b] is what the method returns; [None] stands for a run longer
    than [fuel] steps. *)
Fixpoint run_until_from (fuel : nat) (start : Z) (predicate : SimCluster → bool) (max_ms : Z) : SimM (option bool) :=
  s ← sim;
  if predicate s then mret (Some true)
  else
    match fuel with
    | O => mret None
    | S fuel' =>
        b ← SimCluster_step;
        s ← sim;
        if negb b then mret (Some false)
        else if max_ms <? (sim_clock s - start) then raise TimeoutError
        else run_until_from fuel' start predicate max_ms
    end.

Definition run_until (fuel : nat) (predicate : SimCluster → bool) (max_ms : Z) : SimM (option bool) :=
  s ← sim; run_until_from fuel (sim_clock s) predicate max_ms.

(** [run_for], up to the time [stop]; [false] stands for a run longer than [fuel]
    steps. *)
Fixpoint run_for_until (fuel : nat) (stop : Z) : SimM bool :=
  s ← sim;
  if sim_clock s <? stop then
    match fuel with
    | O => mret false
    | S fuel' => b ← SimCluster_step; if negb b then mret true else run_for_until fuel' stop
    end
  else mret true.

Definition run_for (fuel : nat) (ms : Z) : SimM bool :=
  s ← sim; run_for_until fuel (sim_clock s + ms).

Fixpoint run_steps (k : nat) : SimM () :=
  match k with O => mret () | S k' => _ ← SimCluster_step; run_steps k' end.

(** ** Observations *)

Definition is_role (r : Role) (n : Node) : bool := bool_decide (role n = r).

(** The only live leader, if there is just one. *)
Definition SimCluster_leader (s : SimCluster) : option NodeId :=
  match filter (λ i, (i ∉ crashed s) ∧ (default false (is_role LEADER <$> (sim_nodes s !! i))) = true) (node_ids s) with
  | [i] => Some i
  | _ => None
  end.

Definition SimCluster_majority_reached (index : Z) (s : SimCluster) : bool :=
  ((len (node_ids s)) / 2 + 1) <=?
    (len (filter (λ i, (i ∉ crashed s) ∧ index <= (default (-1) (commit_index <$> (sim_nodes s !! i)))) (node_ids s))).

(** [self.state_machines[i]] *)
Definition SimCluster_state_machine (s : SimCluster) (i : NodeId) : option KVStore :=
  match half_built s !! i with Some sm => Some sm | None => n ← sim_nodes s !! i; state_machine n end.

Definition SimCluster_quorum_committed_value (k : string) (s : SimCluster) : option string :=
  let values := omap (λ i,
    if bool_decide (i ∈ crashed s) then None
    else sm ← SimCluster_state_machine s i; KVStore_get k sm) (node_ids s) in
  if ((len (node_ids s)) / 2 + 1) <=? (len values) then head values else None.

(** [self.nodes[i].propose(payload)] *)
Definition SimCluster_propose (i : NodeId) (payload : bytes) : SimM (option Z) :=
  on_sim_node i (λ clock, RaftNode_propose clock 0 payload).

(** [None] stands for a run out of fuel. *)
Definition wait_for_leader (fuel : nat) (max_ms : Z) : SimM (option NodeId) :=
  r ← run_until fuel (λ s, bool_decide (is_Some (SimCluster_leader s))) max_ms;
  s ← sim;
  match r, SimCluster_leader s with
  | None, _ => mret None
  | Some _, None => raise AssertionError
  | Some _, Some i => mret (Some i)
  end.

Definition propose_via_leader (fuel : nat) (payload : bytes) (max_ms : Z) : SimM (option bool) :=
  s ← sim;
  match SimCluster_leader s with
  | None => mret (Some false)
  | Some i =>
      idx ← SimCluster_propose i payload;
      match idx with
      | None => mret (Some false)
      | Some idx =>
          r ← run_until fuel (SimCluster_majority_reached idx) max_ms;
          s ← sim;
          mret ((λ _, SimCluster_majority_reached idx s) <$> r)
      end
  end.

Definition noop_marker_count (s : SimCluster) : Z :=
  foldr Z.add 0 ((λ n, len (filter (λ e, e_payload e = NOOP) (entries (log n)))) <$> (map_to_list (sim_nodes s)).*2).
End sim.
Arguments SimCluster : clear implicits.

(** Three nodes elect a leader, which commits a value. *)
Definition demo_cluster : (Exn + ()) * SimCluster ListRng :=
  (_ ← SimCluster_init; run_steps 12)
    (SimCluster_new ["A"; "B"; "C"]%string [0; 500; 900] (150, 300) 50 1 true false).

Example demo_cluster_leader :
  SimCluster_leader demo_cluster.2 = Some "A"%string ∧
  SimCluster_quorum_committed_value "x"
    ((_ ← SimCluster_propose "A" (bytes_of_str "x=1"); run_steps 12) demo_cluster.2).2 = Some "1"%string.
Proof. vm_compute. repeat split. Qed.
