(* ===== verification/Net.v ===== *)
(** * Frames over a socket (pylog/net.py)

    A frame is a JSON text after its length in four bytes.  A connection is what the
    peer sends, in the pieces in which [recv] hands it out, and what was sent; the
    end of the list of pieces is the end of the stream.  The operating system's errors
    are not modelled; FrameServer has the threads of a server. *)
From S2P Require Import Prelude Bytes Unicode Json.
Local Open Scope Z_scope.

Definition MAX_FRAME_BYTES : Z := 64 * 1024 * 1024.

Record Conn := mkConn {
  c_in : list bytes;
  c_out : bytes;
}.

(** [_HEADER.pack(n)] *)
Definition frame_header (n : Z) : Exn + bytes :=
  if in_range 0 (2 ^ 32) n then inr (le_encode 4 n) else inl StructError.

Definition send_frame (obj : Json) : M Conn () :=
  let data := json_dumps true obj in
  header ← lift (frame_header (len data));
  modify (λ c, mkConn (c_in c) (c_out c ++ header ++ data)).

(** [sock.recv(n)]: at most [n] bytes of the next piece. *)
Definition sock_recv (n : Z) : M Conn bytes := λ c,
  match c_in c with
  | [] => (inr [], c)
  | x :: xs =>
      if len x <=? n then (inr x, mkConn xs (c_out c))
      else (inr (take (Z.to_nat n) x), mkConn (drop (Z.to_nat n) x :: xs) (c_out c))
  end.

(** Each round adds a byte, so [n] rounds are enough. *)
Fixpoint recv_loop (fuel : nat) (n : Z) (buf : bytes) : M Conn bytes :=
  if len buf <? n then
    match fuel with
    | O => mret buf
    | S fuel' =>
        chunk ← sock_recv (n - len buf);
        if bool_decide (chunk = []) then raise Disconnected else recv_loop fuel' n (buf ++ chunk)
    end
  else mret buf.

Definition recv_exact (n : Z) : M Conn bytes := recv_loop (Z.to_nat n) n [].

Definition recv_frame : M Conn Json :=
  header ← recv_exact 4;
  let length := le_decode header in
  if MAX_FRAME_BYTES <? length then raise ValueError
  else
    data ← recv_exact length;
    lift (json_loads data).

Section server.
(** [f"{type(exc).__name__}: {exc}"] of an exception, and the handler, which works on
    a state of its own. *)
Context {St : Type} (describe : Exn → string) (handler : Json → M St Json).

Definition error_frame (e : Exn) : Json :=
  JObj [("type"%string, JStr "error"); ("error"%string, JStr (describe e))].

(** What the client is answered: the handler's exceptions become error frames. *)
Definition respond (req : Json) (st : St) : Json * St :=
  match handler req st with (inl e, st') => (error_frame e, st') | (inr v, st') => (v, st') end.

(** [Disconnected], [ValueError] and its subclasses end the connection. *)
Definition ends_connection (e : Exn) : bool :=
  match e with Disconnected | ValueError | UnicodeDecodeError => true | _ => false end.

Fixpoint serve_loop (fuel : nat) : M (Conn * St) () := λ '(c, st),
  match fuel with
  | O => (inr (), (c, st))
  | S fuel' =>
      match recv_frame c with
      | (inl e, c') => (if ends_connection e then inr () else inl e, (c', st))
      | (inr req, c') =>
          let '(resp, st') := respond req st in
          match send_frame resp c' with
          | (inl e, c'') => (inl e, (c'', st'))
          | (inr _, c'') => serve_loop fuel' (c'', st')
          end
      end
  end.

(** [_serve_conn]: a frame takes four bytes at least. *)
Definition serve_conn : M (Conn * St) () := λ '(c, st),
  serve_loop (S (length (concat (c_in c)))) (c, st).

(** [frame_call] against the server: what the client sends on a new connection is
    what the server receives, and the other way round. *)
Definition frame_call (request : Json) : M St Json := λ st,
  match send_frame request (mkConn [] []) with
  | (inl e, _) => (inl e, st)
  | (inr _, client) =>
      let '(_, (server, st')) := serve_conn (mkConn [c_out client] [], st) in
      ((recv_frame (mkConn [c_out server] [])).1, st')
  end.
End server.

(** [FrameClient.call] on the connection it keeps. *)
Definition FrameClient_call (request : Json) : M Conn Json :=
  _ ← send_frame request;
  recv_frame.

(** Two requests in pieces that do not respect frames, and a torn third one. *)
Example demo_serve :
  let handler (req : Json) : M Z Json := λ n, (match req with JNull => inl KeyError | _ => inr (JArr [req; JInt n]) end, n + 1) in
  let frame v := le_encode 4 (len (json_dumps true v)) ++ json_dumps true v in
  let error := error_frame (λ _, "KeyError"%string) KeyError in
  serve_conn (λ _, "KeyError"%string) handler
    (mkConn [[x02]; [x00; x00; x00; x34]; [x32; x04; x00; x00]; [x00; x6e; x75; x6c; x6c; x09; x00]] [], 7)
  = (inr (), (mkConn [] (frame (JArr [JInt 42; JInt 7]) ++ frame error), 9)).
Proof. vm_compute. reflexivity. Qed.
