(* ===== verification/Wire.v ===== *)
(** * What nodes say over the wire (pylog/server.py)

    Messages are dictionaries; on the wire their byte strings are dictionaries with
    the one key ["__b64__"].  The codec is that of [_encode_wire] and [_decode_wire];
    the dictionaries are those the handlers of [RaftNode] send and read. *)
From S2P Require Import Prelude Bytes Unicode Json RaftLog KVStore RaftInterfaces RaftNode.
Local Open Scope Z_scope.

(** ** Values *)

(** A value of the code: JSON with byte strings. *)
Unset Elimination Schemes.
Inductive Val : Type :=
  | VNone
  | VBool (b : bool)
  | VInt (n : Z)
  | VStr (s : string)
  | VBytes (b : bytes)
  | VList (l : list Val)
  | VDict (d : list (string * Val)).
Set Elimination Schemes.

(** Of a list of results, the first exception or the list of values. *)
Fixpoint collect {A} (l : list (Exn + A)) : Exn + list A :=
  match l with
  | [] => inr []
  | inl e :: _ => inl e
  | inr x :: l' => match collect l' with inl e => inl e | inr xs => inr (x :: xs) end
  end.

Definition on_ok {A B} (f : A → B) (r : Exn + A) : Exn + B :=
  match r with inl e => inl e | inr x => inr (f x) end.

(** [json.dumps] refuses byte strings. *)
Fixpoint json_of_val (v : Val) : Exn + Json :=
  match v with
  | VNone => inr JNull
  | VBool b => inr (JBool b)
  | VInt n => inr (JInt n)
  | VStr s => inr (JStr s)
  | VBytes _ => inl TypeError
  | VList l => on_ok JArr (collect (json_of_val <$> l))
  | VDict d => on_ok JObj (collect ((λ kv, on_ok (pair kv.1) (json_of_val kv.2)) <$> d))
  end.

Fixpoint val_of_json (v : Json) : Val :=
  match v with
  | JNull => VNone
  | JBool b => VBool b
  | JInt n => VInt n
  | JStr s => VStr s
  | JArr l => VList (val_of_json <$> l)
  | JObj d => VDict ((λ kv, (kv.1, val_of_json kv.2)) <$> d)
  end.

(** ** [base64] *)

Definition b64_char (n : Z) : byte :=
  Z_to_byte (if n <? 26 then 65 + n else if n <? 52 then 71 + n else if n <? 62 then n - 4
             else if n =? 62 then 43 else 47).

Definition b64_val (c : byte) : option Z :=
  let z := byte_to_Z c in
  if byte_in 65 90 c then Some (z - 65)
  else if byte_in 97 122 c then Some (z - 71)
  else if byte_in 48 57 c then Some (z + 4)
  else if z =? 43 then Some 62
  else if z =? 47 then Some 63
  else None.

(** [base64.b64encode] *)
Fixpoint b64encode (s : bytes) : bytes :=
  match s with
  | [] => []
  | [a] =>
      let a := byte_to_Z a in
      [b64_char (a / 4); b64_char (a mod 4 * 16); x3d; x3d]
  | [a; b] =>
      let a := byte_to_Z a in let b := byte_to_Z b in
      [b64_char (a / 4); b64_char (a mod 4 * 16 + b / 16); b64_char (b mod 16 * 4); x3d]
  | a :: b :: c :: s' =>
      let a := byte_to_Z a in let b := byte_to_Z b in let c := byte_to_Z c in
      b64_char (a / 4) :: b64_char (a mod 4 * 16 + b / 16)
        :: b64_char (b mod 16 * 4 + c / 64) :: b64_char (c mod 64) :: b64encode s'
  end.

(** [binascii.a2b_base64], not strict: characters outside the alphabet are skipped
    and the first complete padding ends the text.  [quad] is the position in the
    current group of four, [left] the bits left over, [pads] the padding seen. *)
Fixpoint a2b (s : bytes) (quad left pads : Z) : Exn + bytes :=
  match s with
  | [] => if quad =? 0 then inr [] else inl ValueError
  | c :: s' =>
      if bool_decide (c = x3d) then
        if 2 <=? quad then
          if 4 <=? quad + (pads + 1) then inr [] else a2b s' quad left (pads + 1)
        else a2b s' quad left pads
      else
        match b64_val c with
        | None => a2b s' quad left pads
        | Some n =>
            if quad =? 0 then a2b s' 1 n 0
            else if quad =? 1 then on_ok (cons (Z_to_byte (left * 4 + n / 16))) (a2b s' 2 (n mod 16) 0)
            else if quad =? 2 then on_ok (cons (Z_to_byte (left * 16 + n / 4))) (a2b s' 3 (n mod 4) 0)
            else on_ok (cons (Z_to_byte (left * 64 + n))) (a2b s' 0 0 0)
        end
  end.

(** [base64.b64decode] of a value. *)
Definition b64decode (v : Val) : Exn + bytes :=
  match v with
  | VStr s => if forallb (λ c, byte_to_Z c <? 128) (bytes_of_str s) then a2b (bytes_of_str s) 0 0 0 else inl ValueError
  | VBytes b => a2b b 0 0 0
  | _ => inl TypeError
  end.

(** ** [_encode_wire] and [_decode_wire] *)

Definition B64_KEY : string := "__b64__".

Fixpoint encode_wire (v : Val) : Val :=
  match v with
  | VBytes b => VDict [(B64_KEY, VStr (str_of_bytes (b64encode b)))]
  | VDict d => VDict ((λ kv, (kv.1, encode_wire kv.2)) <$> d)
  | VList l => VList (encode_wire <$> l)
  | _ => v
  end.

Fixpoint decode_wire (v : Val) : Exn + Val :=
  match v with
  | VDict d =>
      match d with
      | [(k, x)] =>
          if bool_decide (k = B64_KEY) then on_ok VBytes (b64decode x)
          else on_ok (λ x', VDict [(k, x')]) (decode_wire x)
      | _ => on_ok VDict (collect ((λ kv, on_ok (pair kv.1) (decode_wire kv.2)) <$> d))
      end
  | VList l => on_ok VList (collect (decode_wire <$> l))
  | _ => inr v
  end.

(** ** Messages *)

Definition entry_val (e : Entry) : Val :=
  VDict [("index"%string, VInt (e_index e)); ("term"%string, VInt (e_term e)); ("payload"%string, VBytes (e_payload e))].

Definition state_val (st : KVSnapshot) : Val :=
  VDict [("keys"%string, VDict ((λ kv, (kv.1, VStr kv.2)) <$> map_to_list (snap_keys st)));
         ("ops"%string, VInt (snap_ops st))].

(** The dictionaries given to [transport.send]. *)
Definition msg_val (m : Msg) : Val :=
  let type := (λ s, ("type"%string, VStr s)) in
  VDict match m with
  | PreVote t c li lt =>
      [type "prevote"%string; ("term"%string, VInt t); ("candidate"%string, VStr c);
       ("last_index"%string, VInt li); ("last_term"%string, VInt lt)]
  | PreVoteResp t f g =>
      [type "prevote_resp"%string; ("term"%string, VInt t); ("from"%string, VStr f); ("granted"%string, VBool g)]
  | Vote t c li lt =>
      [type "vote"%string; ("term"%string, VInt t); ("candidate"%string, VStr c);
       ("last_index"%string, VInt li); ("last_term"%string, VInt lt)]
  | VoteResp t f g =>
      [type "vote_resp"%string; ("term"%string, VInt t); ("from"%string, VStr f); ("granted"%string, VBool g)]
  | Append t l pi pt es c =>
      [type "append"%string; ("term"%string, VInt t); ("leader"%string, VStr l); ("prev_index"%string, VInt pi);
       ("prev_term"%string, VInt pt); ("entries"%string, VList (entry_val <$> es)); ("commit"%string, VInt c)]
  | AppendResp t f s m c =>
      [type "append_resp"%string; ("term"%string, VInt t); ("from"%string, VStr f); ("success"%string, VBool s);
       ("match"%string, VInt m)]
      ++ match c with None => [] | Some c => [("conflict"%string, VInt c)] end
  | InstallSnapshot t l i it st =>
      [type "install_snapshot"%string; ("term"%string, VInt t); ("leader"%string, VStr l);
       ("last_included_index"%string, VInt i); ("last_included_term"%string, VInt it); ("data"%string, state_val st)]
  | TimeoutNow t => [type "timeout_now"%string; ("term"%string, VInt t)]
  end.

(** Reading them back: [m["key"]] at the type the handlers expect.  A dictionary of
    another shape, which no node sends, is refused as a whole. *)
Definition get_int (k : string) (d : list (string * Val)) : option Z :=
  match dict_get k d with Some (VInt n) => Some n | _ => None end.
Definition get_str (k : string) (d : list (string * Val)) : option string :=
  match dict_get k d with Some (VStr s) => Some s | _ => None end.
Definition get_bool (k : string) (d : list (string * Val)) : option bool :=
  match dict_get k d with Some (VBool b) => Some b | _ => None end.

Definition entry_of_val (v : Val) : option Entry :=
  match v with
  | VDict d =>
      i ← get_int "index" d; t ← get_int "term" d;
      match dict_get "payload" d with Some (VBytes p) => Some (mkEntry i t p) | _ => None end
  | _ => None
  end.

Fixpoint keys_of_val (d : list (string * Val)) : option (gmap string string) :=
  match d with
  | [] => Some ∅
  | (k, VStr v) :: d' => m ← keys_of_val d'; Some (<[k := v]> m)
  | _ :: _ => None
  end.

(** [st.get("keys", {})], [st.get("ops", 0)] *)
Definition state_of_val (v : Val) : option KVSnapshot :=
  match v with
  | VDict d =>
      k ← match dict_get "keys" d with None => Some ∅ | Some (VDict k) => keys_of_val k | Some _ => None end;
      n ← match dict_get "ops" d with None => Some 0 | Some (VInt n) => Some n | Some _ => None end;
      Some (mkSnap k n)
  | _ => None
  end.

Definition msg_of_val (d : list (string * Val)) : option Msg :=
  type ← get_str "type" d;
  t ← get_int "term" d;
  if bool_decide (type = "prevote"%string) then
    c ← get_str "candidate" d; li ← get_int "last_index" d; lt ← get_int "last_term" d; Some (PreVote t c li lt)
  else if bool_decide (type = "prevote_resp"%string) then
    f ← get_str "from" d; g ← get_bool "granted" d; Some (PreVoteResp t f g)
  else if bool_decide (type = "vote"%string) then
    c ← get_str "candidate" d; li ← get_int "last_index" d; lt ← get_int "last_term" d; Some (Vote t c li lt)
  else if bool_decide (type = "vote_resp"%string) then
    f ← get_str "from" d; g ← get_bool "granted" d; Some (VoteResp t f g)
  else if bool_decide (type = "append"%string) then
    l ← get_str "leader" d; pi ← get_int "prev_index" d; pt ← get_int "prev_term" d;
    es ← match dict_get "entries" d with Some (VList l) => mapM entry_of_val l | _ => None end;
    c ← get_int "commit" d; Some (Append t l pi pt es c)
  else if bool_decide (type = "append_resp"%string) then
    f ← get_str "from" d; s ← get_bool "success" d; m ← get_int "match" d;
    Some (AppendResp t f s m (get_int "conflict" d))
  else if bool_decide (type = "install_snapshot"%string) then
    l ← get_str "leader" d; i ← get_int "last_included_index" d; it ← get_int "last_included_term" d;
    st ← dict_get "data" d ≫= state_of_val; Some (InstallSnapshot t l i it st)
  else if bool_decide (type = "timeout_now"%string) then Some (TimeoutNow t)
  else None.

Example demo_b64 :
  (λ s, str_of_bytes (b64encode (bytes_of_str s))) <$> ["Man"; "Ma"; "M"; ""]%string = ["TWFu"; "TWE="; "TQ=="; ""]%string
  ∧ b64decode (VStr "TW==Fu") = inr (bytes_of_str "M") ∧ b64decode (VStr "T-W.E=") = inr (bytes_of_str "Ma")
  ∧ b64decode (VStr "TWE") = inl ValueError.
Proof. vm_compute. repeat split. Qed.

Example demo_msg :
  let m := Append 3 "n1" 7 2 [mkEntry 8 3 [x00; xff]; mkEntry 9 3 []] 7 in
  (v ← Some (encode_wire (msg_val m));
   match decode_wire v with inr (VDict d) => msg_of_val d | _ => None end) = Some m.
Proof. vm_compute. reflexivity. Qed.
