(* ===== verification/Server.v ===== *)
(** * A node behind its socket (pylog/server.py)

    [RaftServerNode._on_wire_message]: requests of clients, and the messages of other
    nodes, which go to the node's handlers. *)
From S2P Require Import Prelude Bytes FileSystem Unicode CommitLog Json RaftLog DurableLog KVStore RaftInterfaces RaftNode Net Wire.
Local Open Scope Z_scope.

(** [getattr(self.node.log, "stats", None)], as the items of its dictionary. *)
Class StatsSource (L : Type) := log_stats : option (L → list (string * Json)).

#[export] Instance RaftLog_stats : StatsSource RaftLog := None.

#[export] Instance DurableRaftLog_log_stats : StatsSource DurableRaftLog := Some (λ l,
  let st := DurableRaftLog_stats l in
  [("raft_last_index"%string, JInt (raft_last_index st)); ("disk_records"%string, JInt (disk_records st));
   ("disk_bytes"%string, JInt (disk_bytes st)); ("segments"%string, JInt (disk_segments st))]).

Section server.
Context {L Rng : Type} `{RaftLogOps L} `{StatsSource L} `{Random Rng}.
Context (clock wall : Z).
(** [self.addresses], of which the port is used. *)
Context (addresses : gmap NodeId Z).
Abbreviation Node := (RaftNode L Rng).
Abbreviation NodeM := (M (World L Rng)).

Definition role_value (r : Role) : string :=
  match r with FOLLOWER => "follower" | CANDIDATE => "candidate" | LEADER => "leader" end.

Definition opt_json {A} (f : A → Json) (x : option A) : Json := match x with Some x => f x | None => JNull end.

(** [self.node.info()] as the items of a dictionary. *)
Definition info_items (n : Node) : list (string * Json) :=
  let '(i, r, t, l, li, c, a) := RaftNode_info n in
  [("id"%string, JStr i); ("role"%string, JStr (role_value r)); ("term"%string, JInt t);
   ("leader"%string, opt_json JStr l); ("log_len"%string, JInt li); ("commit"%string, JInt c);
   ("applied"%string, JInt a)].

(** [msg["payload"]] *)
Definition get_payload (d : list (string * Val)) : Exn + Val :=
  match dict_get "payload" d with None => inl KeyError | Some v => inr v end.

(** [bytes(v)]: an integer is a length, a list has the bytes as numbers. *)
Definition byte_of_val (v : Val) : Exn + byte :=
  match v with
  | VInt n => if (0 <=? n) && (n <? 256) then inr (Z_to_byte n) else inl ValueError
  | VBool b => inr (if b then x01 else x00)
  | _ => inl TypeError
  end.

Definition bytes_of_val (v : Val) : Exn + bytes :=
  match v with
  | VBytes b => inr b
  | VInt n => if n <? 0 then inl ValueError else inr (replicate (Z.to_nat n) x00)
  | VBool b => inr (if b then [x00] else [])
  | VList l => collect (byte_of_val <$> l)
  | VDict [] => inr []
  | VDict _ | VStr _ | VNone => inl TypeError
  end.

(** The payloads of the model's logs are byte strings: a proposal of another value,
    which [propose] would put into the log as it is, is refused here. *)
Definition on_propose (d : list (string * Val)) : NodeM Json :=
  v ← lift (get_payload d);
  payload ← (match v with VBytes p => mret p | _ => raise TypeError end);
  index ← RaftNode_propose clock wall payload;
  n ← self;
  mret (JObj (("index"%string, opt_json JInt index) :: info_items n)).

Definition on_read (d : list (string * Val)) : NodeM Json :=
  v ← lift (get_payload d);
  payload ← lift (bytes_of_val v);
  if negb (utf8_valid payload) then raise UnicodeDecodeError
  else
    n ← self;
    if RaftNode_can_serve_linearizable_read clock n then
      let value := sm ← state_machine n; KVStore_get (str_of_bytes payload) sm in
      mret (JObj [("value"%string, opt_json JStr value); ("linearizable"%string, JBool true); ("leader"%string, JStr (id n))])
    else
      let redirect := leader ← leader_id n; port ← addresses !! leader;
                      Some (leader +:+ ":" +:+ str_of_bytes (json_int port))%string in
      mret (JObj [("value"%string, JNull); ("linearizable"%string, JBool false);
                  ("redirect"%string, opt_json JStr redirect)]).

Definition on_snapshot : NodeM Json :=
  snap ← RaftNode_take_snapshot;
  n ← self;
  mret (JObj (("snapshot"%string, JBool (bool_decide (is_Some snap))) :: info_items n)).

Definition on_info : NodeM Json :=
  n ← self;
  mret (JObj (info_items n ++
    match log_stats with Some f => [("log"%string, JObj (f (log n)))] | None => [] end)).

(** What the node answers to the message of another. *)
Definition ack (n : Node) : Json := JObj (("ok"%string, JBool true) :: info_items n).

Definition is_kind (k : string) (d : list (string * Val)) : bool :=
  match dict_get "type" d with Some (VStr s) => bool_decide (s = k) | _ => false end.

Definition on_wire_message (wire : Json) : NodeM Json :=
  msg ← lift (decode_wire (val_of_json wire));
  match msg with
  | VDict d =>
      if is_kind "propose" d then on_propose d
      else if is_kind "read" d then on_read d
      else if is_kind "snapshot" d then on_snapshot
      else if is_kind "info" d then on_info
      else
        match msg_of_val d with
        | None => raise KeyError
        | Some m =>
            _ ← RaftNode_handle clock wall m;
            n ← self;
            mret (ack n)
        end
  | _ => raise AttributeError
  end.

(** One round of [_timer_loop]. *)
Definition timer_round : NodeM () :=
  n ← self;
  when (RaftNode_next_event_due n <=? clock) (RaftNode_tick clock wall (Some clock)).
End server.

(** ** [RaftServerNode.__init__]

    What is under [state_dir]: the state file, the write-ahead log and the snapshots
    of the node. *)
Record ServerFiles := mkFiles {
  sf_state : option bytes;
  sf_wal : FS;
  sf_snapshots : FS;
}.

Section construction.
Context {Rng : Type} `{Random Rng} (clock : Z) (node_id : NodeId) (addresses : list NodeId) (r : Rng).
Context (timeout : Z * Z) (heartbeat : Z) (prevote : bool).

(** The node over a persister, a log and a snapshot directory. *)
Definition RaftServerNode_node {L} `{RaftLogOps L} (p : DurableState) (l : L) (dir : option FS) : Exn + RaftNode L Rng :=
  let '(res, w) := RaftNode_init clock (mkWorld _ _
    (RaftNode_new node_id addresses r p (Some KVStore_init) timeout heartbeat None 256 prevote false l dir None) [] []) in
  on_ok (λ _, nd w) res.

(** Without a [state_dir]. *)
Definition RaftServerNode_volatile : Exn + RaftNode RaftLog Rng :=
  RaftServerNode_node (mkDS false None 0 None) RaftLog_init None.

(** With a [state_dir] and a durable log. *)
Definition RaftServerNode_durable (d : ServerFiles) : Exn + RaftNode DurableRaftLog Rng :=
  match DurableState_init true (sf_state d) with
  | inl e => inl e
  | inr p =>
      match DurableRaftLog_open (64 * 1024 * 1024) (sf_wal d) with
      | (inl e, _) => inl e
      | (inr _, l) => RaftServerNode_node p l (Some (sf_snapshots d))
      end
  end.
End construction.

(** What a node leaves there. *)
Definition files_of {Rng} (n : RaftNode DurableRaftLog Rng) : ServerFiles :=
  mkFiles (ds_file (persister n)) (dl_disk (log n)).1 (default ∅ (snapshot_dir n)).

(** [wire = _encode_wire(msg)], as the value that is dumped. *)
Definition wire_message (m : Msg) : Exn + Json := json_of_val (encode_wire (msg_val m)).

(** A client proposes to a node alone, reads, and is refused with bytes that are not
    a message. *)
Definition demo_server : World RaftLog ListRng :=
  (RaftNode_tick 200 0 None
    (mkWorld _ _ (RaftNode_new "n1" ["n1"]%string [] (mkDS false None 0 None) (Some KVStore_init) (150, 300) 50 None 256
       false false RaftLog_init None None) [] [])).2.

Definition demo_request (kind payload : string) : Json :=
  JObj [("type"%string, JStr kind);
        ("payload"%string, JObj [(B64_KEY, JStr (str_of_bytes (b64encode (bytes_of_str payload))))])].

Example demo_server_answers :
  let run req := on_wire_message 210 0 ∅ req in
  let proposed := run (demo_request "propose" "x=1") demo_server in
  (match proposed.1 with inr (JObj d) => dict_get "index" d | _ => None end) = Some (JInt 2) ∧
  (match (run (demo_request "read" "x") proposed.2).1 with inr (JObj d) => dict_get "value" d | _ => None end)
    = Some (JStr "1") ∧
  (run (JArr []) demo_server).1 = inl AttributeError.
Proof. vm_compute. repeat split. Qed.
