(* ===== verification/Transport.v ===== *)
(** * Sending to peers over TCP (pylog/server.py, [TcpTransport])

    A transport keeps one connection per peer.  The network is an interface: a state,
    the opening of a connection, a call on one, and closing it. *)
From S2P Require Import Prelude Bytes Unicode Json RaftLog RaftInterfaces RaftNode Wire Server.
Local Open Scope Z_scope.

(** The operating system's errors: [OSError] and its subclasses. *)
Definition os_error (e : Exn) : bool :=
  match e with OSError | FileNotFoundError | TimeoutError => true | _ => false end.

Definition value_error (e : Exn) : bool :=
  match e with ValueError | UnicodeDecodeError => true | _ => false end.

Definition disconnected (e : Exn) : bool := match e with Disconnected => true | _ => false end.

(** [FrameClient(host, port)], [client.call] and [client.close], which raises
    nothing. *)
Class TcpNet (Net Client : Type) := {
  net_connect : NodeId → M Net Client;
  net_call : Client → Json → M Net Json;
  net_close : Client → Net → Net;
}.

Section transport.
Context {Net Client : Type} `{TcpNet Net Client}.
(** The peers [self.addresses] knows. *)
Context (addresses : gset NodeId).
(** [self._conns], and the network. *)
Abbreviation Transport := (gmap NodeId Client * Net)%type.

Definition on_net {A} (m : M Net A) : M Transport A := λ '(conns, net),
  let '(r, net') := m net in (r, (conns, net')).

Definition TcpTransport_conn (peer : NodeId) : M Transport Client :=
  s ← get;
  match s.1 !! peer with
  | Some client => mret client
  | None =>
      if bool_decide (peer ∈ addresses) then
        client ← on_net (net_connect peer);
        _ ← modify (λ s, (<[peer := client]> s.1, s.2));
        mret client
      else raise KeyError
  end.

(** [self._conn(peer).call(wire)] *)
Definition call_peer (peer : NodeId) (wire : Json) : M Transport () :=
  client ← TcpTransport_conn peer;
  _ ← on_net (net_call client wire);
  mret ().

(** [try: m; except ...: handler] for the exceptions [caught]. *)
Definition try_except {S} (m : M S ()) (caught : Exn → bool) (handler : M S ()) : M S () := λ s,
  match m s with
  | (inl e, s') => if caught e then handler s' else (inl e, s')
  | r => r
  end.

(** After a failure the connection is dropped and the message sent once more. *)
Definition reconnect (peer : NodeId) (wire : Json) : M Transport () :=
  s ← get;
  match s.1 !! peer with
  | None => mret ()
  | Some old =>
      _ ← modify (λ s, (delete peer s.1, net_close old s.2));
      try_except (call_peer peer wire) (λ e, os_error e || disconnected e) (mret ())
  end.

Definition TcpTransport_send (peer : NodeId) (msg : Msg) : M Transport () :=
  wire ← lift (wire_message msg);
  try_except (call_peer peer wire) (λ e, os_error e || disconnected e || value_error e) (reconnect peer wire).
End transport.
