(* ===== verification/StateFiles.v ===== *)
(** * The node's JSON files (pylog/raft.py)

    The state file, configuration entries and snapshot files read back as what was
    written, and the snapshot found after a restart is the latest one. *)
From stdpp Require Import sorting.
From Stdlib Require Import Ascii.
From S2P Require Import Prelude Bytes FileSystem Unicode Json JsonFacts RaftLog KVStore RaftInterfaces RaftNode.
Local Open Scope Z_scope.

(** ** Texts *)

Lemma parse_state_text t v : parse_state (state_text t v) = inr (t, v).
Proof. unfold parse_state, state_text. rewrite loads_dumps by by destruct v. by destruct v. Qed.

Lemma json_strings_fmap ids : json_strings (JStr <$> ids) = Some ids.
Proof. induction ids as [|i ids IH]; [done|]. cbn. by rewrite IH. Qed.

Lemma cfg_loads_dumps ids : cfg_loads (cfg_dumps ids) = Some ids.
Proof.
  unfold cfg_loads, cfg_dumps. rewrite loads_dumps; [apply json_strings_fmap|].
  cbn. by rewrite forallb_fmap_true.
Qed.

Lemma json_keys_fmap l : NoDup l.*1 → json_keys ((λ kv, (kv.1, JStr kv.2)) <$> l) = Some (list_to_map l).
Proof.
  induction l as [|[k v] l IH]; intros Hnd; [done|]. rewrite fmap_cons in Hnd. apply NoDup_cons in Hnd as [_ Hnd].
  cbn. by rewrite IH.
Qed.

Lemma keys_json_wf (l : list (string * string)) :
  NoDup l.*1 → json_wf (JObj ((λ kv, (kv.1, JStr kv.2)) <$> l)) = true.
Proof.
  intros Hnd. unfold json_wf. fold json_wf. apply andb_true_iff. split.
  - apply bool_decide_eq_true. by rewrite <-list_fmap_compose.
  - by apply forallb_fmap_true.
Qed.

Lemma state_json_wf st : json_wf (state_json st) = true.
Proof.
  unfold state_json. pose proof (keys_json_wf _ (NoDup_fst_map_to_list (snap_keys st))) as Hk.
  cbn [json_wf forallb snd] in *. by rewrite Hk.
Qed.

Lemma parse_kv_json st : parse_kv (state_json st) = inr st.
Proof.
  unfold parse_kv, state_json. cbn [dict_get]. rewrite bool_decide_eq_true_2 by done.
  rewrite json_keys_fmap by apply NoDup_fst_map_to_list.
  rewrite list_to_map_to_list. by destruct st.
Qed.

Lemma parse_snapshot_text idx term st : parse_snapshot (snapshot_text idx term st) = inr (mkSnapshot idx term st).
Proof.
  unfold parse_snapshot, snapshot_text. rewrite loads_dumps.
  - transitivity (match parse_kv (state_json st) with inl e => inl e | inr k => inr (mkSnapshot idx term k) end);
      [reflexivity|]. by rewrite parse_kv_json.
  - cbn -[state_json]. by rewrite state_json_wf.
Qed.

(** ** The order of snapshot names *)

Lemma int_aux_bound s a :
  all_digits s = true → a * 10 ^ Z.of_nat (String.length s) <= int_aux s a < (a + 1) * 10 ^ Z.of_nat (String.length s).
Proof.
  revert a. induction s as [|c s IH]; intros a; [cbn; lia|]. cbn [all_digits String.length int_aux].
  intros [Hc Hs]%andb_true_iff. unfold is_digit_char in Hc. apply andb_true_iff in Hc. rewrite !Z.leb_le in Hc.
  specialize (IH (a * 10 + digit_val c) Hs). rewrite Nat2Z.inj_succ, Z.pow_succ_r by lia.
  assert (0 < 10 ^ Z.of_nat (String.length s)) by (apply Z.pow_pos_nonneg; lia). nia.
Qed.

Lemma ascii_compare_digits c d : Ascii.compare c d = (digit_val c ?= digit_val d).
Proof.
  unfold Ascii.compare, digit_val, nat_of_ascii. rewrite !N_nat_Z, <-(N2Z.inj_compare (N_of_ascii c)).
  destruct (Z.compare_spec (Z.of_N (N_of_ascii c) - 48) (Z.of_N (N_of_ascii d) - 48)).
  - apply Z.compare_eq_iff. lia.
  - apply Z.compare_lt_iff. lia.
  - apply Z.compare_gt_iff. lia.
Qed.

(** On digit strings of one length, the lexicographic order is the numeric one. *)
Lemma compare_digits s : ∀ t a,
  all_digits s = true → all_digits t = true → String.length s = String.length t →
  String.compare s t = (int_aux s a ?= int_aux t a).
Proof.
  induction s as [|c s IH]; intros [|d t] a Hs Ht Hl; try done; [cbn; by rewrite Z.compare_refl|].
  cbn [String.compare int_aux]. rewrite ascii_compare_digits.
  cbn [all_digits] in Hs, Ht. apply andb_true_iff in Hs as [_ Hs]. apply andb_true_iff in Ht as [_ Ht].
  injection Hl as Hl. pose proof (int_aux_bound s (a * 10 + digit_val c) Hs).
  pose proof (int_aux_bound t (a * 10 + digit_val d) Ht). rewrite <-Hl in *.
  assert (0 < 10 ^ Z.of_nat (String.length s)) by (apply Z.pow_pos_nonneg; lia).
  destruct (Z.compare_spec (digit_val c) (digit_val d)) as [->|Hlt|Hgt].
  - by apply IH.
  - symmetry. apply Z.compare_lt_iff. nia.
  - symmetry. apply Z.compare_gt_iff. nia.
Qed.

Lemma compare_prefix p s t : String.compare (p +:+ s)%string (p +:+ t)%string = String.compare s t.
Proof.
  induction p as [|c p IH]; [done|].
  change (match Ascii.compare c c with Eq => String.compare (p +:+ s) (p +:+ t) | r => r end = String.compare s t)%string.
  by rewrite ascii_compare_digits, Z.compare_refl.
Qed.

Lemma compare_refl s : String.compare s s = Eq.
Proof. induction s as [|c s IH]; [done|]. cbn [String.compare]. by rewrite ascii_compare_digits, Z.compare_refl. Qed.

Lemma compare_suffix s : ∀ t u, String.length s = String.length t →
  String.compare (s +:+ u)%string (t +:+ u)%string = String.compare s t.
Proof.
  induction s as [|c s IH]; intros [|d t] u Hl; try done.
  - apply compare_refl.
  - change (match Ascii.compare c d with Eq => String.compare (s +:+ u) (t +:+ u) | r => r end =
            match Ascii.compare c d with Eq => String.compare s t | r => r end)%string.
    injection Hl as Hl. by rewrite IH.
Qed.

Lemma length_dec_aux fuel : ∀ n s k, 0 <= n < 10 ^ Z.of_nat (S k) →
  (String.length (dec_aux fuel n s) ≤ S k + String.length s)%nat.
Proof.
  induction fuel as [|fuel IH]; intros n s k Hn; cbn [dec_aux]; [lia|].
  destruct (Z.ltb_spec n 10); [cbn; lia|]. destruct k as [|k]; [cbn in Hn; lia|].
  etrans; [apply (IH _ _ k)|cbn; lia].
  rewrite (Nat2Z.inj_succ (S k)), Z.pow_succ_r in Hn by lia.
  split; [apply Z.div_pos; lia|]. apply Z.div_lt_upper_bound; lia.
Qed.

(** Indexes that fill the 20 digits of a name without overflowing them. *)
Definition name_index (i : Z) : Prop := 0 <= i < 10 ^ 20.

Lemma length_fmt_020d n : name_index n → String.length (fmt_020d n) = 20%nat.
Proof.
  intros Hn. unfold fmt_020d, zfill. destruct (Z.ltb_spec n 0); [unfold name_index in Hn; lia|].
  assert (String.length (dec n) ≤ 20 + 0)%nat by exact (length_dec_aux _ n "" 19 Hn).
  rewrite length_zeros. lia.
Qed.

Lemma isdigit_all s : isdigit s = true → all_digits s = true.
Proof. by destruct s. Qed.

Lemma snapshot_name_le a b : name_index a → name_index b →
  String.le (snapshot_name a) (snapshot_name b) ↔ a <= b.
Proof.
  intros Ha Hb. unfold String.le, snapshot_name, String.leb.
  rewrite compare_prefix, compare_suffix by by rewrite !length_fmt_020d.
  unfold name_index in *. rewrite (compare_digits _ _ 0) by
    (rewrite ?length_fmt_020d by done; try done; apply isdigit_all, isdigit_fmt_020d; lia).
  change (int_aux ?s 0) with (int_of_string s). rewrite !int_fmt_020d by lia.
  destruct (Z.compare_spec a b); split; try done; lia.
Qed.

(** ** The latest snapshot *)

Lemma is_snapshot_name_of i : is_snapshot_name (snapshot_name i) = true.
Proof.
  unfold is_snapshot_name, snapshot_name. apply andb_true_iff. split.
  - apply string_prefix_app.
  - apply bool_decide_eq_true. rewrite string_append_assoc, strip_suffix_app. by eexists.
Qed.

(** The snapshot files of a directory, by index. *)
Definition snapshot_dir_ok (files : FS) : Prop :=
  ∀ name, is_Some (files !! name) → is_snapshot_name name = true →
    ∃ i, name_index i ∧ name = snapshot_name i.

Lemma sorted_last {A} (R : A → A → Prop) `{!Reflexive R} l x y :
  StronglySorted R l → last l = Some y → x ∈ l → R x y.
Proof.
  induction 1 as [|z l Hs IH Hz]; [done|]. destruct l as [|z' l].
  - intros [= ->] ->%list_elem_of_singleton. done.
  - intros Hl [->|Hx]%elem_of_cons; [|by apply IH].
    rewrite Forall_forall in Hz. apply Hz. by apply last_Some_elem_of.
Qed.

Lemma StronglySorted_filter {A} (R : A → A → Prop) (P : A → Prop) `{∀ x, Decision (P x)} l :
  StronglySorted R l → StronglySorted R (filter P l).
Proof.
  induction 1 as [|x l Hs IH Hx]; [constructor|]. rewrite filter_cons. case_decide; [|done].
  constructor; [done|]. by apply Forall_list_filter.
Qed.

Lemma latest_snapshot_spec files i text :
  snapshot_dir_ok files → name_index i → files !! snapshot_name i = Some text →
  (∀ j, name_index j → is_Some (files !! snapshot_name j) → j <= i) →
  latest_snapshot files = Some text.
Proof.
  intros Hok Hi Hf Hmax. unfold latest_snapshot.
  set (names := merge_sort String.le (elements (dom files : gset string))).
  assert (∀ x, x ∈ filter is_snapshot_name names ↔ is_snapshot_name x = true ∧ is_Some (files !! x)) as Hin.
  { intros x. rewrite list_elem_of_filter. unfold names. rewrite merge_sort_Permutation, elem_of_elements, elem_of_dom.
    by rewrite Is_true_true. }
  assert (snapshot_name i ∈ filter is_snapshot_name names) as Hmem.
  { apply Hin. split; [apply is_snapshot_name_of|by eexists]. }
  destruct (last (filter is_snapshot_name names)) as [y|] eqn:El.
  2:{ apply last_None in El. rewrite El in Hmem. by apply elem_of_nil in Hmem. }
  assert (String.le (snapshot_name i) y) as Hle.
  { eapply (sorted_last String.le); [|exact El|exact Hmem].
    apply StronglySorted_filter, StronglySorted_merge_sort; apply _. }
  assert (y ∈ filter is_snapshot_name names) as [Hy Hfy]%Hin by by apply last_Some_elem_of.
  destruct (Hok y Hfy Hy) as (j & Hj & ->). apply snapshot_name_le in Hle; [|done..].
  assert (j = i) as -> by (specialize (Hmax j Hj Hfy); lia). by cbn.
Qed.

(** Writing a snapshot at the highest index keeps the directory in order. *)
Lemma snapshot_dir_write files i text :
  snapshot_dir_ok files → name_index i → snapshot_dir_ok (fs_write (snapshot_name i) text files).
Proof.
  intros Hok Hi name Hf Hn. destruct (decide (name = snapshot_name i)) as [->|Hne]; [by exists i|].
  unfold fs_write in Hf. rewrite lookup_insert_ne in Hf by done. by apply Hok.
Qed.

Lemma latest_written files i text :
  snapshot_dir_ok files → name_index i →
  (∀ j, name_index j → is_Some (files !! snapshot_name j) → j <= i) →
  latest_snapshot (fs_write (snapshot_name i) text files) = Some text.
Proof.
  intros Hok Hi Hmax. apply (latest_snapshot_spec _ i); [by apply snapshot_dir_write|done|apply lookup_insert_eq|].
  intros j Hj Hf. destruct (decide (snapshot_name j = snapshot_name i)) as [E|Hne].
  - apply snapshot_name_le; [done..|]. by rewrite E.
  - apply Hmax; [done|]. unfold fs_write in Hf. by rewrite lookup_insert_ne in Hf.
Qed.

(** ** Taking and loading a snapshot *)

Lemma write_snapshot_run {L Rng} `{RaftLogOps L} (w : World L Rng) files idx term st :
  snapshot_dir (nd w) = Some files →
  RaftNode_write_snapshot_file idx term st w = (inr (), w <| nd := (nd w) <| snapshot_dir :=
    Some (fs_write (snapshot_name idx) (snapshot_text idx term st) files) |> |>).
Proof. intros E. unfold RaftNode_write_snapshot_file, on_node, modify. by rewrite E. Qed.

Lemma take_snapshot_run {L Rng} `{RaftLogOps L} (w : World L Rng) sm files :
  state_machine (nd w) = Some sm → applied_index (nd w) ≠ 0 → snapshot_dir (nd w) = Some files →
  let idx := applied_index (nd w) in
  returns RaftNode_take_snapshot w (λ r w', ∃ term,
    r = Some (mkSnapshot idx term (KVStore_snapshot sm)) ∧ last_snapshot (nd w') = r ∧
    state_machine (nd w') = Some sm ∧ applied_index (nd w') = idx ∧
    snapshot_dir (nd w') =
      Some (fs_write (snapshot_name idx) (snapshot_text idx term (KVStore_snapshot sm)) files)).
Proof.
  intros Hsm Hidx Hdir idx. unfold RaftNode_take_snapshot.
  apply returns_bind. eapply returns_intro; [reflexivity|]. rewrite Hsm.
  destruct (Z.eqb_spec (applied_index (nd w)) 0); [done|].
  apply returns_bind. eapply returns_intro; [by apply write_snapshot_run|].
  do 3 (apply returns_bind; eapply returns_intro; [reflexivity|]). apply returns_ret.
  eexists. split_and!; [reflexivity|reflexivity|exact Hsm|reflexivity|reflexivity].
Qed.

Lemma load_snapshot_run {Rng} (w : World RaftLog Rng) sm files idx term st :
  state_machine (nd w) = Some sm → snapshot_dir (nd w) = Some files →
  latest_snapshot files = Some (snapshot_text idx term st) →
  returns RaftNode_load_snapshot_file w (λ _ w',
    state_machine (nd w') = Some (KVStore_restore st sm) ∧
    last_snapshot (nd w') = Some (mkSnapshot idx term st) ∧
    commit_index (nd w') = Z.max (commit_index (nd w)) idx ∧
    applied_index (nd w') = Z.max (applied_index (nd w)) idx ∧
    log (nd w') = (compact idx term (log (nd w))).2).
Proof.
  intros Hsm Hdir Hlast. unfold RaftNode_load_snapshot_file.
  apply returns_bind. eapply returns_intro; [reflexivity|]. rewrite Hdir, Hsm, Hlast.
  apply returns_bind. eapply returns_intro; [unfold lift; by rewrite parse_snapshot_text|].
  do 3 (apply returns_bind; eapply returns_intro; [reflexivity|]).
  eapply returns_intro; [reflexivity|]. split_and!; reflexivity.
Qed.

(** ** Restart *)

(** Resetting the deadline draws from the random source and sets the deadline. *)
Lemma reset_exact {L Rng} `{RaftLogOps L} `{Random Rng} clock b (w : World L Rng) :
  ∃ x d r, RaftNode_reset_election_deadline clock b w
    = (inr x, w <| nd := (nd w) <| rng := r |> <| election_deadline := d |> |>).
Proof.
  assert (∀ lo hi (v : World L Rng), ∃ x r, draw lo hi v = (inr x, v <| nd := (nd v) <| rng := r |> |>)) as Hd.
  { intros lo hi v. unfold draw. destruct (uniform _ _ _) as [x r]. by exists x, r. }
  unfold RaftNode_reset_election_deadline. erewrite bind_ok; [|reflexivity].
  destruct (Hd (election_min (nd w)) (election_max (nd w)) w) as (x & r & E). erewrite bind_ok; [|exact E].
  destruct b.
  - destruct (Hd 0 50 (w <| nd := (nd w) <| rng := r |> |>)) as (y & r2 & E2).
    erewrite bind_ok; [|erewrite bind_ok; [reflexivity|exact E2]].
    erewrite bind_ok; [|reflexivity]. do 3 eexists. reflexivity.
  - erewrite bind_ok; [|reflexivity]. erewrite bind_ok; [|reflexivity]. do 3 eexists. reflexivity.
Qed.

(** A node over the snapshot directory a node left behind starts from that node's
    state machine and applied index. *)
Lemma snapshot_restart_run {Rng} `{Random Rng} (w : World RaftLog Rng) sm files :
  state_machine (nd w) = Some sm → applied_index (nd w) ≠ 0 → snapshot_dir (nd w) = Some files →
  name_index (applied_index (nd w)) → snapshot_dir_ok files →
  (∀ j, name_index j → is_Some (files !! snapshot_name j) → j <= applied_index (nd w)) →
  returns RaftNode_take_snapshot w (λ snap w', ∀ clock (f : RaftNode RaftLog Rng) sm0,
    snapshot_dir f = snapshot_dir (nd w') → state_machine f = Some sm0 →
    commit_index f = 0 → applied_index f = 0 →
    returns (RaftNode_init clock) (mkWorld _ _ f [] []) (λ _ w2,
      state_machine (nd w2) = Some sm ∧ last_snapshot (nd w2) = snap ∧
      commit_index (nd w2) = applied_index (nd w) ∧ applied_index (nd w2) = applied_index (nd w))).
Proof.
  intros Hsm Ha Hd Hn Hok Hmax. eapply returns_mono; [by apply (take_snapshot_run w sm files)|].
  intros snap w' (term & -> & _ & _ & _ & Hd') clock f sm0 Hf Hsm0 Hc0 Ha0. rewrite Hd' in Hf.
  destruct (reset_exact clock true (mkWorld _ _ f [] [])) as (x & d & r & E).
  unfold RaftNode_init. apply returns_bind. eapply returns_intro; [exact E|].
  set (w1 := (mkWorld _ _ f [] []) <| nd := _ |>).
  assert (0 <= applied_index (nd w)) by (unfold name_index in Hn; lia).
  eapply returns_mono; [apply (load_snapshot_run w1 sm0 _ (applied_index (nd w)) term (KVStore_snapshot sm) Hsm0 Hf);
    by apply latest_written|].
  intros [] w2 (H1 & H2 & H3 & H4 & _). change (commit_index (nd w1)) with (commit_index f) in H3.
  change (applied_index (nd w1)) with (applied_index f) in H4. rewrite Hc0 in H3. rewrite Ha0 in H4.
  rewrite H1, H2, H3, H4. split_and!; [by destruct sm|done|lia..].
Qed.
