(* ===== verification/NetFacts.v ===== *)
(** * Frames: what is received does not depend on how the stream was cut

    Reading is described on the bytes still to come, whatever pieces they arrive
    in. *)
From S2P Require Import Prelude Bytes Unicode Json JsonFacts Net.
Local Open Scope Z_scope.

(** The bytes still to come are [s]: no piece is empty, since [recv] returns an empty
    string at the end only. *)
Definition pending (c : Conn) (s : bytes) : Prop := Forall (λ x, x ≠ []) (c_in c) ∧ concat (c_in c) = s.

(** [c'] is [c] after reading, with [s] left. *)
Definition left_with (c c' : Conn) (s : bytes) : Prop := pending c' s ∧ c_out c' = c_out c.

(** One call of [recv] takes a non-empty prefix, or finds the end. *)
Lemma sock_recv_spec n (c : Conn) s :
  pending c s → 0 < n →
  ∃ chunk c', sock_recv n c = (inr chunk, c') ∧ len chunk <= n ∧ (chunk = [] → s = []) ∧
    ∃ rest, s = chunk ++ rest ∧ left_with c c' rest.
Proof.
  intros [Hne <-] Hn. unfold sock_recv. destruct (c_in c) as [|x xs] eqn:Ec.
  { exists [], c. split_and!; [done|rewrite len_nil; lia|done|]. exists []. split; [done|]. split; [|done]. split; [by rewrite Ec|by rewrite Ec]. }
  apply Forall_cons in Hne as [Hx Hxs]. destruct (Z.leb_spec (len x) n) as [Hle|Hgt].
  - exists x, (mkConn xs (c_out c)). split_and!; [done|done|by intros ->|]. exists (concat xs). by split.
  - exists (take (Z.to_nat n) x), (mkConn (drop (Z.to_nat n) x :: xs) (c_out c)).
    unfold len in *. split_and!; [done|rewrite length_take; lia| |].
    + intros E. apply (f_equal length) in E. rewrite length_take in E. cbn in E. lia.
    + exists (drop (Z.to_nat n) x ++ concat xs). split; [by rewrite app_assoc, take_drop|]. split; [|done].
      split; [|done]. constructor; [|done]. intros E. apply (f_equal length) in E. rewrite length_drop in E. cbn in E. lia.
Qed.

Lemma recv_loop_spec fuel : ∀ n buf (c : Conn) s,
  pending c s → n - len buf <= Z.of_nat fuel → len buf <= n →
  ∃ c', recv_loop fuel n buf c
      = (if n <=? len buf + len s then inr (buf ++ take (Z.to_nat (n - len buf)) s) else inl Disconnected, c') ∧
    left_with c c' (drop (Z.to_nat (n - len buf)) s).
Proof.
  induction fuel as [|fuel IH]; intros n buf c s Hp Hf Hb; cbn [recv_loop];
    destruct (Z.ltb_spec (len buf) n) as [Hlt|Hge]; try lia.
  1,3: exists c; pose proof (len_nonneg s); replace (n - len buf) with 0 by lia;
    rewrite (proj2 (Z.leb_le _ _)) by lia; rewrite app_nil_r; by split.
  destruct (sock_recv_spec (n - len buf) c s Hp) as (x & c1 & E & Hx & Hend & rest & -> & [Hp1 Ho1]); [lia|].
  erewrite bind_ok; [|exact E]. case_bool_decide as Hxe.
  - subst x. cbn [app] in *. rewrite (Hend eq_refl) in *. exists c1. rewrite len_nil, (proj2 (Z.leb_gt _ _)) by lia.
    split; [done|]. by rewrite drop_nil.
  - assert (0 < len x) as Hx0 by (destruct x; [done|rewrite len_cons; pose proof (len_nonneg x); lia]).
    destruct (IH n (buf ++ x) c1 rest Hp1) as (c2 & E2 & [Hp2 Ho2]); [rewrite len_app; lia..|].
    exists c2. rewrite E2. rewrite !len_app, Z.add_assoc. split; [|split; [|congruence]].
    + rewrite (take_app_ge x) by (unfold len in *; lia). rewrite app_assoc.
      by replace (Z.to_nat (n - len buf) - length x)%nat with (Z.to_nat (n - (len buf + len x)))
        by (unfold len in *; lia).
    + rewrite len_app in Hp2. rewrite drop_app_ge by (unfold len in *; lia). replace (Z.to_nat (n - len buf) - length x)%nat
        with (Z.to_nat (n - (len buf + len x))) by (unfold len in *; lia). done.
Qed.

(** [_recv_exact] returns the next [n] bytes, or finds the stream too short. *)
Lemma recv_exact_spec n (c : Conn) s :
  pending c s → 0 <= n →
  ∃ c', recv_exact n c = (if n <=? len s then inr (take (Z.to_nat n) s) else inl Disconnected, c') ∧
    left_with c c' (drop (Z.to_nat n) s).
Proof.
  intros Hp Hn. destruct (recv_loop_spec (Z.to_nat n) n [] c s Hp) as (c' & E & Hl); [rewrite len_nil; lia..|].
  exists c'. cbn [app] in E. rewrite len_nil, Z.add_0_l, Z.sub_0_r in *. by split.
Qed.

(** What [recv_frame] makes of the bytes to come. *)
Definition next_frame (s : bytes) : (Exn + Json) * bytes :=
  if len s <? 4 then (inl Disconnected, [])
  else
    let n := le_decode (take 4 s) in
    let s' := drop 4 s in
    if MAX_FRAME_BYTES <? n then (inl ValueError, s')
    else if len s' <? n then (inl Disconnected, [])
    else (json_loads (take (Z.to_nat n) s'), drop (Z.to_nat n) s').

Lemma recv_frame_spec (c : Conn) s :
  pending c s →
  ∃ c', recv_frame c = ((next_frame s).1, c') ∧ left_with c c' (next_frame s).2.
Proof.
  intros Hp. unfold recv_frame, next_frame.
  destruct (recv_exact_spec 4 c s Hp) as (c1 & E1 & [Hp1 Ho1]); [lia|]. change (Z.to_nat 4) with 4%nat in *.
  rewrite Z.leb_antisym in E1. destruct (Z.ltb_spec (len s) 4) as [Hs|Hs]; cbn [negb] in E1.
  { erewrite bind_exn; [|exact E1]. exists c1. split; [done|]. split; [|done]. cbn.
    replace (drop 4 s) with (@nil byte) in Hp1; [done|]. symmetry. apply drop_ge. unfold len in Hs. lia. }
  erewrite bind_ok; [|exact E1]. cbv zeta. set (n := le_decode (take 4 s)) in *.
  assert (0 <= n) as Hn by apply le_decode_bound.
  destruct (_ <? n); [exists c1; by split|].
  destruct (recv_exact_spec n c1 (drop 4 s) Hp1 Hn) as (c2 & E2 & [Hp2 Ho2]).
  rewrite Z.leb_antisym in E2. destruct (Z.ltb_spec (len (drop 4 s)) n) as [Hd|Hd]; cbn [negb] in E2.
  - erewrite bind_exn; [|exact E2]. exists c2. split; [done|]. split; [|cbn; congruence]. cbn.
    replace (drop (Z.to_nat n) (drop 4 s)) with (@nil byte) in Hp2; [done|]. symmetry. apply drop_ge. unfold len in Hd. lia.
  - erewrite bind_ok; [|exact E2]. exists c2. split; [done|]. split; [done|cbn; congruence].
Qed.

(** ** Frames of values *)

Definition frame (v : Json) : bytes := le_encode 4 (len (json_dumps true v)) ++ json_dumps true v.

(** A frame the receiver accepts. *)
Definition framable (v : Json) : Prop := json_wf v = true ∧ len (json_dumps true v) <= MAX_FRAME_BYTES.

Lemma send_frame_run v (c : Conn) :
  len (json_dumps true v) < 2 ^ 32 → send_frame v c = (inr (), mkConn (c_in c) (c_out c ++ frame v)).
Proof.
  intros Hl. unfold send_frame. cbv zeta. unfold frame_header.
  pose proof (len_nonneg (json_dumps true v)). rewrite (proj2 (in_range_true _ _ _)) by lia. done.
Qed.

Lemma next_frame_frame v s : framable v → next_frame (frame v ++ s) = (inr v, s).
Proof.
  intros [Hwf Hl]. unfold next_frame, frame. set (data := json_dumps true v) in *.
  pose proof (len_nonneg data) as H0. unfold MAX_FRAME_BYTES in *.
  assert (length (le_encode 4 (len data)) = 4%nat) as H4 by apply le_encode_length.
  rewrite <-!app_assoc. rewrite take_app_len, drop_app_len by done.
  rewrite le_decode_encode_id by (cbn; lia).
  assert (len (le_encode 4 (len data)) = 4) as E4 by (unfold len at 1; rewrite H4; done).
  pose proof (len_nonneg s). rewrite !len_app, E4.
  rewrite !(proj2 (Z.ltb_ge _ _)) by lia.
  unfold len. rewrite Nat2Z.id, take_app_len, drop_app_len by done. unfold data. by rewrite loads_dumps.
Qed.

(** ** Serving a connection *)

Section serving.
Context {St : Type} (describe : Exn → string) (handler : Json → M St Json).
Abbreviation respond := (respond describe handler).

Fixpoint responses (reqs : list Json) (st : St) : list Json * St :=
  match reqs with
  | [] => ([], st)
  | req :: reqs' =>
      let '(resp, st1) := respond req st in
      let '(resps, st2) := responses reqs' st1 in
      (resp :: resps, st2)
  end.

Lemma serve_loop_spec reqs tail e rest : ∀ fuel (c : Conn) st,
  pending c (concat (frame <$> reqs) ++ tail) →
  next_frame tail = (inl e, rest) → ends_connection e = true →
  Forall framable reqs → Forall (λ v, len (json_dumps true v) < 2 ^ 32) (responses reqs st).1 →
  (length reqs < fuel)%nat →
  ∃ c', serve_loop describe handler fuel (c, st) = (inr (), (c', (responses reqs st).2)) ∧
    c_out c' = c_out c ++ concat (frame <$> (responses reqs st).1).
Proof.
  induction reqs as [|req reqs IH]; intros [|fuel] c st Hp Ht He Hreqs Hresp Hf; cbn in Hf; try lia; cbn [serve_loop].
  - destruct (recv_frame_spec c _ Hp) as (c' & E & [_ Ho]). cbn [fmap list_fmap concat app] in E. rewrite E, Ht. cbn.
    rewrite He. exists c'. by rewrite Ho, app_nil_r.
  - apply Forall_cons in Hreqs as [Hreq Hreqs]. cbn [fmap list_fmap concat] in Hp. rewrite <-app_assoc in Hp.
    destruct (recv_frame_spec c _ Hp) as (c1 & E & [Hp1 Ho1]). rewrite next_frame_frame in E, Hp1 by done. cbn in E, Hp1.
    rewrite E. cbn [responses] in *. destruct (respond req st) as [resp st1].
    destruct (responses reqs st1) as [resps st2] eqn:Er. cbn in Hresp. apply Forall_cons in Hresp as [H1 Hresp].
    rewrite send_frame_run by done.
    destruct (IH fuel (mkConn (c_in c1) (c_out c1 ++ frame resp)) st1) as (c2 & E2 & Ho2); [done..|by rewrite Er|lia|].
    rewrite Er in *. exists c2. rewrite E2. split; [done|]. rewrite Ho2. cbn. by rewrite Ho1, <-app_assoc.
Qed.

Lemma frames_length reqs : (length reqs ≤ length (concat (frame <$> reqs)))%nat.
Proof.
  induction reqs as [|v reqs IH]; cbn; [lia|]. rewrite length_app. unfold frame at 1. rewrite length_app, le_encode_length. lia.
Qed.

(** A request and an answer that fit in frames: the client is given the handler's
    answer. *)
Lemma frame_call_spec req st :
  framable req → framable (respond req st).1 →
  frame_call describe handler req st = (inr (respond req st).1, (respond req st).2).
Proof.
  intros Hreq Hresp. pose proof Hreq as [_ Hl]. pose proof Hresp as [_ Hl']. unfold MAX_FRAME_BYTES in *.
  unfold frame_call. rewrite send_frame_run by lia. cbn [c_in c_out app].
  assert (∀ v, framable v → pending (mkConn [frame v] []) (frame v ++ [])) as Hp.
  { intros v _. split; [repeat constructor; unfold frame; by destruct (le_encode 4 _) eqn:E; [apply (f_equal length) in E; rewrite le_encode_length in E|]|by cbn]. }
  assert ((responses [req] st) = ([(respond req st).1], (respond req st).2)) as Er.
  { cbn [responses]. by destruct (respond req st). }
  unfold serve_conn.
  destruct (serve_loop_spec [req] [] Disconnected [] (S (length (concat [frame req]))) (mkConn [frame req] []) st)
    as (c' & E & Ho); [|done|done|by constructor| |cbn; rewrite app_nil_r; unfold frame; rewrite length_app, le_encode_length; lia|].
  - cbn [fmap list_fmap concat]. rewrite app_nil_r. apply Hp. exact Hreq.
  - rewrite Er. constructor; [cbn; lia|constructor].
  - rewrite Er in E, Ho. cbn [c_in]. rewrite E. f_equal. rewrite Ho. cbn [c_out app fst fmap list_fmap concat].
    rewrite app_nil_r. destruct (recv_frame_spec _ _ (Hp _ Hresp)) as (c2 & E2 & _).
    rewrite E2, next_frame_frame by done. done.
Qed.
End serving.
