(* ===== verification/Programs.v ===== *)
(** * Programs with thread switches

    A piece of code as a program of atomic steps on an object, so that the steps of
    several threads on it can interleave.  FrameServer runs the handlers of its
    connections so, Threads has methods as such programs. *)
From S2P Require Import Prelude.
Local Open Scope Z_scope.

(** ** Programs *)

(** The threads can switch between two [Atom]s. *)
Inductive Prog (S A : Type) : Type :=
  | Done (x : A)
  | Atom (B : Type) (m : M S B) (k : B → Prog S A).
Arguments Done {S A}.
Arguments Atom {S A B}.

#[export] Instance Prog_ret S : MRet (Prog S) := λ A, Done.
#[export] Instance Prog_bind S : MBind (Prog S) := λ A B f,
  fix go p := match p with Done x => f x | Atom m k => Atom m (λ y, go (k y)) end.

Definition atom {S A} (m : M S A) : Prog S A := Atom m Done.

Section threads.
Context {S A : Type}.
Implicit Types (p : Prog S A) (s : S).

(** Without switches. *)
Fixpoint run_alone p : M S A :=
  match p with Done x => mret x | Atom m k => y ← m; run_alone (k y) end.

(** A thread that has raised is gone. *)
Abbreviation Thread := (Exn + Prog S A)%type.

Definition thread_step (t : Thread) (s : S) : Thread * S :=
  match t with
  | inr (Atom m k) => match m s with (inl e, s') => (inl e, s') | (inr y, s') => (inr (k y), s') end
  | _ => (t, s)
  end.

(** The schedule names the thread that makes the next step. *)
Fixpoint interleave (schedule : list nat) (ts : list Thread) (s : S) : list Thread * S :=
  match schedule with
  | [] => (ts, s)
  | i :: schedule' =>
      match ts !! i with
      | None => interleave schedule' ts s
      | Some t => let '(t', s') := thread_step t s in interleave schedule' (<[i := t']> ts) s'
      end
  end.

(** What is left of a thread, run alone. *)
Definition run_thread (t : Thread) : M S A := match t with inl e => raise e | inr p => run_alone p end.

Lemma thread_step_alone t s : run_thread (thread_step t s).1 (thread_step t s).2 = run_thread t s.
Proof. destruct t as [e|[x|B m k]]; [done..|]. cbn. unfold mbind, M_bind. by destruct (m s) as [[e|y] s']. Qed.

(** A thread with no other beside it does what the method does. *)
Lemma interleave_alone k : ∀ t s, ∃ t' s',
  interleave (replicate k 0%nat) [t] s = ([t'], s') ∧ run_thread t' s' = run_thread t s.
Proof.
  induction k as [|k IH]; intros t s; cbn [interleave replicate lookup list_lookup]; [by exists t, s|].
  pose proof (thread_step_alone t s) as E. destruct (thread_step t s) as [t1 s1]. cbn [fst snd] in E.
  destruct (IH t1 s1) as (t' & s' & Ei & Er). exists t', s'. split; [exact Ei|congruence].
Qed.
End threads.

(** ** Schedules *)

Section schedules.
Context {S A : Type}.
Implicit Types (ts us : list (Exn + Prog S A)) (s : S).

Lemma interleave_app x y : ∀ ts s,
  interleave (x ++ y) ts s = interleave y (interleave x ts s).1 (interleave x ts s).2.
Proof.
  induction x as [|i x IH]; intros ts s; cbn [app interleave]; [done|].
  destruct (ts !! i) as [t|]; [|apply IH]. destruct (thread_step t s) as [t' s']. apply IH.
Qed.

Lemma interleave_length x : ∀ ts s, length (interleave x ts s).1 = length ts.
Proof.
  induction x as [|i x IH]; intros ts s; cbn [interleave]; [done|].
  destruct (ts !! i) as [t|]; [|apply IH]. destruct (thread_step t s) as [t' s']. by rewrite IH, length_insert.
Qed.

(** Threads that are started later do not matter to what ran before. *)
Lemma interleave_grow us x : ∀ ts s, Forall (λ i, i < length ts)%nat x →
  interleave x (ts ++ us) s = ((interleave x ts s).1 ++ us, (interleave x ts s).2).
Proof.
  induction x as [|i x IH]; intros ts s Hx; cbn [interleave]; [done|]. apply Forall_cons in Hx as [Hi Hx].
  rewrite lookup_app_l by done. destruct (lookup_lt_is_Some_2 ts i Hi) as [t ->]. destruct (thread_step t s) as [t' s'].
  rewrite insert_app_l by done. apply IH. by rewrite length_insert.
Qed.
End schedules.

(** ** Alone *)

Lemma run_alone_bind {S A B} (p : Prog S A) (f : A → Prog S B) s :
  run_alone (p ≫= f) s = (run_alone p ≫= λ x, run_alone (f x)) s.
Proof.
  revert s. induction p as [x|C m k IH]; intros s; [done|]. cbn. unfold mbind, M_bind in *.
  destruct (m s) as [[e|y] s']; [done|]. apply IH.
Qed.

Lemma run_alone_atom {S A} (m : M S A) s : run_alone (atom m) s = m s.
Proof. cbn. unfold mbind, M_bind. by destruct (m s) as [[e|y] s']. Qed.

Lemma run_alone_step {S A B} (m : M S A) (f : A → Prog S B) s :
  run_alone (atom m ≫= f) s = (m ≫= λ x, run_alone (f x)) s.
Proof. done. Qed.

Lemma bind_ext {S A B} (m m' : M S A) (f g : A → M S B) s :
  m s = m' s → (∀ x s, f x s = g x s) → (m ≫= f) s = (m' ≫= g) s.
Proof. intros Hm Hf. unfold mbind, M_bind. rewrite Hm. by destruct (m' s) as [[e|x] s']. Qed.

Lemma bind_assoc {S A B C} (m : M S A) (f : A → M S B) (g : B → M S C) s :
  ((m ≫= f) ≫= g) s = (m ≫= λ x, f x ≫= g) s.
Proof. unfold mbind, M_bind. by destruct (m s) as [[e|x] s']. Qed.

Lemma gets_bind {S A B} (f : S → A) (g : A → M S B) s : (gets f ≫= g) s = g (f s) s.
Proof. done. Qed.

(** Threads whose methods are one step each, as if under a lock, run one after the
    other in the order of the schedule. *)
Lemma locked_step {S A} (m : M S A) s :
  thread_step (inr (atom m)) s = (match (m s).1 with inl e => inl e | inr x => inr (Done x) end, (m s).2).
Proof. cbn. by destruct (m s) as [[e|y] s']. Qed.
