(* ===== verification/FrameServer.v ===== *)
(** * A frame server and its connections (pylog/net.py, class [FrameServer])

    The object, its accept thread and the threads of its connections as a state that
    events move: what the operating system does (a connection is accepted or not, bytes
    arrive, a peer closes, a call on a socket fails), a turn of a connection's thread,
    and [stop].  The threads share the object the handler works on and take no lock:
    the handler is a program of atomic steps, a thread makes one of them in a turn, and
    the turns of the threads come in any order.  To receive a frame and to send one is
    a single turn, since a connection has only its own thread. *)
From S2P Require Import Prelude Bytes Unicode Json Net NetFacts Programs.
Local Open Scope Z_scope.

(** Where the thread of a connection is in [_serve_conn]: in [recv_frame]; in the handler,
    with what is left of it, or the exception it has raised, until the answer is sent;
    or at its end. *)
Inductive Phase (St : Type) : Type :=
  | Receiving
  | Handling (t : Exn + Prog St Json)
  | Ended.
Arguments Receiving {St}.
Arguments Handling {St}.
Arguments Ended {St}.

(** An accepted connection with its thread: what has arrived and was sent, whether the
    peer has closed its side, and where the thread is. *)
Record Connection (St : Type) := mkConnection {
  cn_conn : Conn;
  cn_eof : bool;
  cn_phase : Phase St;
}.
Arguments mkConnection {St}.
Arguments cn_conn {St}.
Arguments cn_eof {St}.
Arguments cn_phase {St}.
#[export] Instance Connection_eta St : Eta (Connection St) := λ c, mkConnection (cn_conn c) (cn_eof c) (cn_phase c).

(** [_sock]: a socket with its port, 0 before it is bound, or one that was closed. *)
Inductive Listener : Type :=
  | Bound (port : Z)
  | ClosedListener.

Record FrameServer (St : Type) := mkFrameServer {
  fs_host : string;
  fs_port : Z;
  fs_sock : option Listener;
  fs_accepting : bool;
  fs_running : bool;
  fs_threads : list (Connection St);
}.
Arguments mkFrameServer {St}.
Arguments fs_host {St}.
Arguments fs_port {St}.
Arguments fs_sock {St}.
Arguments fs_accepting {St}.
Arguments fs_running {St}.
Arguments fs_threads {St}.
#[export] Instance FrameServer_eta St : Eta (FrameServer St) := λ s,
  mkFrameServer (fs_host s) (fs_port s) (fs_sock s) (fs_accepting s) (fs_running s) (fs_threads s).

Inductive ServerEvent : Type :=
  | Accepted
  | AcceptFails
  | Arrives (k : nat) (data : bytes)
  | PeerCloses (k : nat)
  | Turn (k : nat)
  | Breaks (k : nat) (n : nat)
  | Stops.

(** What is seen of a connection: bytes arrived, the handler was called, its answer was
    sent. *)
Inductive Happening : Type :=
  | Got (data : bytes)
  | Called (req : Json)
  | Answered (resp : Json).
Abbreviation History := (list (nat * Happening)%type).

Section serving.
Context {St : Type} (describe : Exn → string) (handler : Json → Prog St Json).

Definition FrameServer_init (host : string) (port : Z) : FrameServer St := mkFrameServer host port None false false [].

(** [bound] is what binding to the address gives. *)
Definition FrameServer_start (bound : Exn + Z) : M (FrameServer St) () :=
  _ ← modify (λ s, s <| fs_sock := Some (Bound 0) |>);
  port ← lift bound;
  modify (λ s, s <| fs_sock := Some (Bound port) |> <| fs_running := true |> <| fs_accepting := true |>).

Definition FrameServer_bound_port : M (FrameServer St) Z :=
  s ← get;
  match fs_sock s with
  | None => raise AssertionError
  | Some (Bound port) => mret port
  | Some ClosedListener => raise OSError
  end.

(** A round of [_accept_loop], with a connection or an [OSError]. *)
Definition accept_round (accepted : bool) (s : FrameServer St) : FrameServer St :=
  if fs_accepting s then
    if accepted
    then s <| fs_threads := fs_threads s ++ [mkConnection (mkConn [] []) false Receiving] |> <| fs_accepting := fs_running s |>
    else s <| fs_accepting := false |>
  else s.

Definition FrameServer_stop (s : FrameServer St) : FrameServer St :=
  s <| fs_running := false |> <| fs_sock := match fs_sock s with Some _ => Some ClosedListener | None => None end |>.

(** The frame to send when the handler is through: its result, or an error frame for
    what it raised. *)
Definition answer_of (t : Exn + Prog St Json) : option Json :=
  match t with
  | inl e => Some (error_frame describe e)
  | inr (Done resp) => Some resp
  | inr (Atom _ _) => None
  end.

(** A turn of [_serve_conn].  Without a whole frame the thread stays in [recv] as long as
    the peer has not closed; with one it calls the handler; a handler that is not
    through makes its next step; and when it is through the answer is sent. *)
Definition serve_turn (c : Connection St) (st : St) : Connection St * St * option Happening :=
  match cn_phase c with
  | Receiving =>
      match recv_frame (cn_conn c) with
      | (inl Disconnected, conn) => (if cn_eof c then c <| cn_conn := conn |> <| cn_phase := Ended |> else c, st, None)
      | (inl _, conn) => (c <| cn_conn := conn |> <| cn_phase := Ended |>, st, None)
      | (inr req, conn) => (c <| cn_conn := conn |> <| cn_phase := Handling (inr (handler req)) |>, st, Some (Called req))
      end
  | Handling t =>
      match answer_of t with
      | None => let '(t', st') := thread_step t st in (c <| cn_phase := Handling t' |>, st', None)
      | Some resp =>
          match send_frame resp (cn_conn c) with
          | (inl _, conn) => (c <| cn_conn := conn |> <| cn_phase := Ended |>, st, None)
          | (inr _, conn) => (c <| cn_conn := conn |> <| cn_phase := Receiving |>, st, Some (Answered resp))
          end
      end
  | Ended => (c, st, None)
  end.

(** The thread's [recv], or its [sendall] after [n] bytes of the frame, raises
    [OSError]. *)
Definition serve_breaks (n : nat) (c : Connection St) : Connection St :=
  match cn_phase c with
  | Receiving => c <| cn_phase := Ended |>
  | Handling t =>
      match answer_of t with
      | None => c
      | Some resp =>
          let out := c_out (send_frame resp (cn_conn c)).2 in
          c <| cn_conn := mkConn (c_in (cn_conn c)) (take (length (c_out (cn_conn c)) + n) out) |> <| cn_phase := Ended |>
      end
  | Ended => c
  end.

Definition on_connection (k : nat) (f : Connection St → Connection St) (s : FrameServer St) : FrameServer St :=
  s <| fs_threads := alter f k (fs_threads s) |>.

(** No bytes come after the end, and none in an empty piece. *)
Definition server_event (e : ServerEvent) (s : FrameServer St) (st : St) : FrameServer St * St * History :=
  match e with
  | Accepted => (accept_round true s, st, [])
  | AcceptFails => (accept_round false s, st, [])
  | PeerCloses k => (on_connection k (λ c, c <| cn_eof := true |>) s, st, [])
  | Breaks k n => (on_connection k (serve_breaks n) s, st, [])
  | Stops => (FrameServer_stop s, st, [])
  | Arrives k data =>
      match fs_threads s !! k with
      | None => (s, st, [])
      | Some c =>
          if cn_eof c || bool_decide (data = []) then (s, st, [])
          else (on_connection k (λ c, c <| cn_conn := mkConn (c_in (cn_conn c) ++ [data]) (c_out (cn_conn c)) |>) s, st,
                [(k, Got data)])
      end
  | Turn k =>
      match fs_threads s !! k with
      | None => (s, st, [])
      | Some c =>
          let '(c', st', x) := serve_turn c st in
          (on_connection k (λ _, c') s, st', match x with Some x => [(k, x)] | None => [] end)
      end
  end.

Fixpoint server_run (es : list ServerEvent) (s : FrameServer St) (st : St) : FrameServer St * St * History :=
  match es with
  | [] => (s, st, [])
  | e :: es' =>
      let '(s1, st1, h) := server_event e s st in
      let '(s2, st2, h') := server_run es' s1 st1 in
      (s2, st2, h ++ h')
  end.

(** A handler that runs without switches is [Net.respond]. *)
Lemma respond_alone req t st st' v :
  run_thread t st' = run_thread (inr (handler req)) st → answer_of t = Some v →
  respond describe (λ r, run_alone (handler r)) req st = (v, st').
Proof.
  intros E Hv. unfold respond. change (run_alone (handler req)) with (run_thread (inr (handler req))). rewrite <-E.
  by destruct t as [e|[x|B m f]]; [injection Hv as <-|injection Hv as <-|].
Qed.

(** ** What each connection sees *)

(** The bytes that arrived on the connection [k], its requests and its answers. *)
Definition arrived (k : nat) (h : History) : bytes :=
  h ≫= λ x, match x with (i, Got data) => if bool_decide (i = k) then data else [] | _ => [] end.
Definition requests (k : nat) (h : History) : list Json :=
  h ≫= λ x, match x with (i, Called v) => if bool_decide (i = k) then [v] else [] | _ => [] end.
Definition replies (k : nat) (h : History) : list Json :=
  h ≫= λ x, match x with (i, Answered v) => if bool_decide (i = k) then [v] else [] | _ => [] end.

(** The calls of the handler on all connections, and a thread for each. *)
Definition calls (h : History) : list (nat * Json) :=
  h ≫= λ x, match x with (k, Called v) => [(k, v)] | _ => [] end.
Definition handlers (h : History) : list (Exn + Prog St Json) := (λ c, inr (handler c.2)) <$> calls h.

(** What came of the calls on the connection [k], one after the other. *)
Definition outcomes (k : nat) (cs : list (nat * Json)) (ts : list (Exn + Prog St Json)) : list (option Json) :=
  zip cs ts ≫= λ x, if bool_decide (x.1.1 = k) then [answer_of x.2] else [].

(** [vs] are the first frames of [s], and [rest] is after them. *)
Inductive consumes : bytes → list Json → bytes → Prop :=
  | consumes_none s : consumes s [] s
  | consumes_frame s v s' vs rest : next_frame s = (inr v, s') → consumes s' vs rest → consumes s (v :: vs) rest.

Lemma next_frame_app s v s' t : next_frame s = (inr v, s') → next_frame (s ++ t) = (inr v, s' ++ t).
Proof.
  unfold next_frame. cbv zeta. destruct (Z.ltb_spec (len s) 4) as [|H4]; [done|]. pose proof (len_nonneg t).
  assert (4 ≤ length s)%nat by (unfold len in H4; lia).
  assert ((len (s ++ t) <? 4) = false) as -> by (apply Z.ltb_ge; rewrite len_app; lia).
  rewrite take_app_le, drop_app_le by lia. destruct (_ <? le_decode _); [done|]. pose proof (le_decode_bound (take 4 s)).
  destruct (Z.ltb_spec (len (drop 4 s)) (le_decode (take 4 s))) as [|Hn]; [done|].
  assert ((len (drop 4 s ++ t) <? le_decode (take 4 s)) = false) as -> by (apply Z.ltb_ge; rewrite len_app; lia).
  unfold len in Hn. rewrite take_app_le, drop_app_le by lia. by intros [= -> ->].
Qed.

Lemma consumes_app s vs rest t : consumes s vs rest → consumes (s ++ t) vs (rest ++ t).
Proof. induction 1; [constructor|]. eapply consumes_frame; [by apply next_frame_app|done]. Qed.

Lemma consumes_snoc s vs rest v rest' : consumes s vs rest → next_frame rest = (inr v, rest') → consumes s (vs ++ [v]) rest'.
Proof. induction 1; intros Hv; cbn; (eapply consumes_frame; [done|]); [constructor|by apply IHconsumes]. Qed.

(** *** The outcomes of a connection *)

Lemma outcomes_app k cs ts cs' ts' :
  length cs = length ts → outcomes k (cs ++ cs') (ts ++ ts') = outcomes k cs ts ++ outcomes k cs' ts'.
Proof. intros Hl. unfold outcomes. by rewrite zip_with_app, bind_app. Qed.

Lemma outcomes_none k cs : ∀ ts, (∀ i c, cs !! i = Some c → c.1 ≠ k) → outcomes k cs ts = [].
Proof.
  induction cs as [|c cs IH]; intros [|t ts] Hc; try done. unfold outcomes. cbn.
  rewrite bool_decide_eq_false_2 by (by apply (Hc 0%nat)). apply IH. intros i. apply (Hc (S i)).
Qed.

(** A step of the thread in a slot of another connection. *)
Lemma outcomes_insert k cs j c t : ∀ ts, cs !! j = Some c → c.1 ≠ k → outcomes k cs (<[j:=t]> ts) = outcomes k cs ts.
Proof.
  revert j. induction cs as [|c' cs IH]; intros j ts Hj Hc; [done|]. destruct ts as [|t' ts]; [by destruct j|].
  destruct j as [|j]; cbn in Hj; unfold outcomes; cbn.
  - injection Hj as ->. by rewrite !bool_decide_eq_false_2.
  - f_equal. by apply IH.
Qed.

(** The slot [j] is the last of the connection [k]. *)
Definition last_slot (k j : nat) (cs : list (nat * Json)) : Prop :=
  (∃ v, cs !! j = Some (k, v)) ∧ ∀ i c, cs !! i = Some c → c.1 = k → (i ≤ j)%nat.

Lemma outcomes_last k j cs ts :
  last_slot k j cs → length cs = length ts → ∃ before, ∀ t, outcomes k cs (<[j:=t]> ts) = before ++ [answer_of t].
Proof.
  intros [[v Hj] Hlast] Hl. pose proof (lookup_lt_Some _ _ _ Hj) as Hlt. exists (outcomes k (take j cs) (take j ts)). intros t.
  rewrite <-(take_drop_middle cs j (k, v)) at 1 by done. rewrite insert_take_drop by lia.
  rewrite outcomes_app by (rewrite !length_take; lia). f_equal.
  change (outcomes k ((k, v) :: drop (S j) cs) (t :: drop (S j) ts)) with
    ((if bool_decide (k = k) then [answer_of t] else []) ++ outcomes k (drop (S j) cs) (drop (S j) ts)).
  rewrite bool_decide_eq_true_2, outcomes_none by (done || intros i c Hi <-; rewrite lookup_drop in Hi; specialize (Hlast _ _ Hi eq_refl); lia).
  done.
Qed.

Lemma last_slot_snoc k v cs : last_slot k (length cs) (cs ++ [(k, v)]).
Proof.
  split; [exists v; by rewrite list_lookup_middle|]. intros i c Hi%lookup_lt_Some _. rewrite length_app in Hi. cbn in Hi. lia.
Qed.

Lemma last_slot_other k j cs c : last_slot k j cs → c.1 ≠ k → last_slot k j (cs ++ [c]).
Proof.
  intros [[v Hj] Hlast] Hc. split; [exists v; by apply lookup_app_l_Some|].
  intros i c' [Hi|[Hge Hi]]%lookup_app_Some Hk; [by eapply Hlast|].
  destruct (i - length cs)%nat; [|done]. by injection Hi as <-.
Qed.

(** ** The invariant of a run *)

(** A connection after its part of the history, with the threads of all calls: what it
    was sent, what it was sent of an answer at its end, and what it took. *)
Definition phase_ok (k : nat) (cs : list (nat * Json)) (ts : list (Exn + Prog St Json)) (resps : list Json) (c : Connection St) : Prop :=
  match cn_phase c with
  | Receiving => outcomes k cs ts = Some <$> resps ∧ c_out (cn_conn c) = concat (frame <$> resps)
  | Handling t =>
      outcomes k cs ts = (Some <$> resps) ++ [answer_of t] ∧ c_out (cn_conn c) = concat (frame <$> resps) ∧
      ∃ j, last_slot k j cs ∧ ts !! j = Some t
  | Ended => ∃ unsent part, outcomes k cs ts = Some <$> resps ++ unsent ∧ (length unsent ≤ 1)%nat ∧
      c_out (cn_conn c) = concat (frame <$> resps) ++ part ∧ part `prefix_of` concat (frame <$> unsent)
  end.

Definition taken (arr : bytes) (reqs : list Json) (c : Connection St) : Prop :=
  ∃ p rest, pending (cn_conn c) p ∧ consumes arr reqs rest ∧ (cn_phase c ≠ Ended → p = rest).

Definition served (k : nat) (h : History) (ts : list (Exn + Prog St Json)) (c : Connection St) : Prop :=
  phase_ok k (calls h) ts (replies k h) c ∧ taken (arrived k h) (requests k h) c.

(** No such connection so far. *)
Definition quiet (k : nat) (h : History) : Prop :=
  arrived k h = [] ∧ requests k h = [] ∧ replies k h = [] ∧ ∀ i c, calls h !! i = Some c → c.1 ≠ k.

Definition server_inv (st0 : St) (s : FrameServer St) (st : St) (h : History) : Prop :=
  ∃ schedule ts, Forall (λ i, i < length (calls h))%nat schedule ∧ interleave schedule (handlers h) st0 = (ts, st) ∧
    ∀ k, match fs_threads s !! k with Some c => served k h ts c | None => quiet k h end.

Lemma history_app {A} k (f : nat * Happening → list A) h x : (h ++ [(k, x)]) ≫= f = (h ≫= f) ++ f (k, x).
Proof. rewrite bind_app. cbn. by rewrite app_nil_r. Qed.

(** *** The other connections *)

Lemma seen_other j k x h : k ≠ j →
  arrived j (h ++ [(k, x)]) = arrived j h ∧ requests j (h ++ [(k, x)]) = requests j h ∧
  replies j (h ++ [(k, x)]) = replies j h.
Proof.
  intros Hk. unfold arrived, requests, replies. rewrite !history_app.
  destruct x; cbn; rewrite ?bool_decide_eq_false_2 by done; by rewrite !app_nil_r.
Qed.

Lemma calls_app h k x : calls (h ++ [(k, x)]) = calls h ++ (match x with Called v => [(k, v)] | _ => [] end).
Proof. unfold calls. by rewrite history_app. Qed.

(** A call starts a thread. *)
Definition started (x : Happening) : list (Exn + Prog St Json) :=
  match x with Called v => [inr (handler v)] | _ => [] end.

Lemma served_other j k x h ts (c : Connection St) :
  k ≠ j → length (calls h) = length ts → served j h ts c → served j (h ++ [(k, x)]) (ts ++ started x) c.
Proof.
  intros Hk Hl [Hp Ht]. unfold served. destruct (seen_other j k x h Hk) as (-> & -> & ->). split; [|done].
  rewrite calls_app. destruct x as [data|v|resp]; cbn [started]; rewrite ?app_nil_r; [done| |done].
  assert (outcomes j (calls h ++ [(k, v)]) (ts ++ [inr (handler v)]) = outcomes j (calls h) ts) as E.
  { rewrite outcomes_app, (outcomes_none j [(k, v)]), app_nil_r; [done| |done].
    intros [|i] c' Hi; [by injection Hi as <-|done]. }
  unfold phase_ok in *. rewrite E. destruct (cn_phase c); [done| |done].
  destruct Hp as (Ho & Hs & i & Hi & Hti). split_and!; [done..|]. exists i.
  split; [by apply last_slot_other|by apply lookup_app_l_Some].
Qed.

Lemma quiet_other j k x h : k ≠ j → quiet j h → quiet j (h ++ [(k, x)]).
Proof.
  intros Hk (Ha & Hq & Hr & Hc). unfold quiet. destruct (seen_other j k x h Hk) as (-> & -> & ->). split_and!; [done..|].
  rewrite calls_app. intros i c [Hi|[_ Hi]]%lookup_app_Some; [by eapply Hc|].
  destruct x; [done| |done]. destruct (i - length (calls h))%nat; [|done]. by injection Hi as <-.
Qed.

Lemma served_step j h ts i c0 t (c : Connection St) :
  calls h !! i = Some c0 → c0.1 ≠ j → served j h ts c → served j h (<[i:=t]> ts) c.
Proof.
  intros Hi Hj [Hp Ht]. split; [|done]. unfold phase_ok in *. rewrite (outcomes_insert _ _ _ c0) by done.
  destruct (cn_phase c); [done| |done]. destruct Hp as (Ho & Hs & i' & Hl & Hti). split_and!; [done..|].
  exists i'. split; [done|]. rewrite list_lookup_insert_ne; [done|]. intros ->. destruct Hl as [[v Hv] _]. by simplify_eq.
Qed.

(** The connections when one of them has changed. *)
Lemma connections_change h ts h' ts' (s : FrameServer St) k f c :
  (∀ j, match fs_threads s !! j with Some c => served j h ts c | None => quiet j h end) →
  fs_threads s !! k = Some c → served k h' ts' (f c) →
  (∀ j c, k ≠ j → served j h ts c → served j h' ts' c) → (∀ j, k ≠ j → quiet j h → quiet j h') →
  ∀ j, match fs_threads (on_connection k f s) !! j with Some c => served j h' ts' c | None => quiet j h' end.
Proof.
  intros Hall Hk Hf Ho Hq j. cbn. destruct (decide (k = j)) as [<-|Hj].
  - by rewrite list_lookup_alter_eq, Hk.
  - rewrite list_lookup_alter_ne by done. specialize (Hall j). destruct (fs_threads s !! j); by auto.
Qed.

(** *** The turns of a connection *)

Lemma taken_frame arr reqs (c c' : Connection St) :
  c_in (cn_conn c') = c_in (cn_conn c) → (cn_phase c' ≠ Ended → cn_phase c ≠ Ended) → taken arr reqs c → taken arr reqs c'.
Proof.
  intros E Ho (p & rest & Hp & Hc & Hr). exists p, rest. unfold pending in *. rewrite E. split; [exact Hp|]. split; [exact Hc|by auto].
Qed.

Lemma taken_arrives arr reqs (c : Connection St) data :
  data ≠ [] → taken arr reqs c →
  taken (arr ++ data) reqs (c <| cn_conn := mkConn (c_in (cn_conn c) ++ [data]) (c_out (cn_conn c)) |>).
Proof.
  intros Hd (p & rest & [Hne Hp] & Hc & Hr). exists (p ++ data), (rest ++ data). split_and!.
  - split; cbn; [apply Forall_app; split; [done|by repeat constructor]|]. by rewrite concat_app, Hp; cbn; rewrite app_nil_r.
  - by apply consumes_app.
  - intros Ho. by rewrite Hr.
Qed.

(** The end of a thread that was receiving. *)
Lemma phase_ended k cs ts resps (c c' : Connection St) :
  cn_phase c = Receiving → cn_phase c' = Ended → c_out (cn_conn c') = c_out (cn_conn c) →
  phase_ok k cs ts resps c → phase_ok k cs ts resps c'.
Proof.
  unfold phase_ok. intros -> -> -> [Ho Hs]. exists [], []. rewrite !app_nil_r. split_and!; [done|cbn; lia|done|done].
Qed.

(** The end of one with an answer, of which [part] was sent. *)
Lemma phase_unsent k cs ts resps t v part (c c' : Connection St) :
  cn_phase c = Handling t → answer_of t = Some v → cn_phase c' = Ended →
  c_out (cn_conn c') = c_out (cn_conn c) ++ part → part `prefix_of` frame v →
  phase_ok k cs ts resps c → phase_ok k cs ts resps c'.
Proof.
  unfold phase_ok. intros -> Hv -> -> Hpart (Ho & Hs & _). exists [v], part. rewrite Ho, Hs, Hv, fmap_app.
  split_and!; [done|cbn; lia|done|]. cbn. by rewrite app_nil_r.
Qed.

(** Sending an answer that is too long does nothing. *)
Lemma send_frame_cases v (c : Conn) :
  send_frame v c = (inr (), mkConn (c_in c) (c_out c ++ frame v)) ∨ send_frame v c = (inl StructError, c).
Proof.
  unfold send_frame, frame_header. cbv zeta. destruct (in_range _ _ _); [by left|by right].
Qed.

Lemma served_breaks k h ts n (c : Connection St) : served k h ts c → served k h ts (serve_breaks n c).
Proof.
  intros [Hp Ht]. unfold serve_breaks. destruct (cn_phase c) as [|t|] eqn:Ephase; [| |done].
  - split; [by eapply phase_ended|]. eapply taken_frame; [..|exact Ht]; [done|by rewrite Ephase].
  - destruct (answer_of t) as [v|] eqn:Hv; [|done]. split.
    + assert (∃ part, take (length (c_out (cn_conn c)) + n) (c_out (send_frame v (cn_conn c)).2) = c_out (cn_conn c) ++ part ∧
        part `prefix_of` frame v) as (part & E & Hpart).
      { destruct (send_frame_cases v (cn_conn c)) as [->| ->]; cbn.
        - exists (take n (frame v)). split; [by rewrite take_app_add|]. exists (drop n (frame v)). by rewrite take_drop.
        - exists []. rewrite take_ge, app_nil_r by lia. split; [done|apply prefix_nil]. }
      by eapply (phase_unsent _ _ _ _ t v part).
    + eapply taken_frame; [..|exact Ht]; [done|by rewrite Ephase].
Qed.

Lemma history_here k (h : History) x :
  arrived k (h ++ [(k, x)]) = arrived k h ++ (match x with Got data => data | _ => [] end) ∧
  requests k (h ++ [(k, x)]) = requests k h ++ (match x with Called v => [v] | _ => [] end) ∧
  replies k (h ++ [(k, x)]) = replies k h ++ (match x with Answered v => [v] | _ => [] end).
Proof.
  unfold arrived, requests, replies. rewrite !history_app. by destruct x; cbn; rewrite ?bool_decide_eq_true_2.
Qed.

(** Bytes arrive. *)
Lemma served_arrives k h ts data (c : Connection St) :
  data ≠ [] → served k h ts c →
  served k (h ++ [(k, Got data)]) ts (c <| cn_conn := mkConn (c_in (cn_conn c) ++ [data]) (c_out (cn_conn c)) |>).
Proof.
  intros Hd [Hp Ht]. unfold served. destruct (history_here k h (Got data)) as (-> & -> & ->). rewrite calls_app, !app_nil_r.
  split; [exact Hp|by apply taken_arrives].
Qed.

(** A frame is taken and the handler called. *)
Lemma served_call k h ts p v rest conn (c : Connection St) :
  length (calls h) = length ts → cn_phase c = Receiving → pending (cn_conn c) p → next_frame p = (inr v, rest) →
  left_with (cn_conn c) conn rest → served k h ts c →
  served k (h ++ [(k, Called v)]) (ts ++ [inr (handler v)]) (c <| cn_conn := conn |> <| cn_phase := Handling (inr (handler v)) |>).
Proof.
  intros Hl Ephase [_ Hp] Hn [Hp' Hout] [Hph (p1 & rest1 & [_ Hp1] & Hc & Hr)]. unfold phase_ok in Hph. rewrite Ephase in Hph.
  assert (p1 = p) as -> by congruence. rewrite Ephase in Hr. rewrite <-(Hr ltac:(done)) in Hc.
  unfold served. destruct (history_here k h (Called v)) as (-> & -> & ->). rewrite calls_app, !app_nil_r. split.
  - destruct Hph as [Ho Hs]. unfold phase_ok. cbn [cn_phase cn_conn]. rewrite outcomes_app, Ho by done.
    assert (outcomes k [(k, v)] [inr (handler v)] = [answer_of (inr (handler v))]) as ->.
    { unfold outcomes. cbn. by rewrite bool_decide_eq_true_2. }
    cbn. split; [done|]. split; [congruence|]. exists (length (calls h)). split; [apply last_slot_snoc|].
    rewrite Hl. by rewrite list_lookup_middle.
  - exists rest, rest. split; [exact Hp'|]. split; [by eapply consumes_snoc|done].
Qed.

(** The answer is sent. *)
Lemma served_answer k h ts t v (c : Connection St) :
  cn_phase c = Handling t → answer_of t = Some v → served k h ts c →
  served k (h ++ [(k, Answered v)]) ts
    (c <| cn_conn := mkConn (c_in (cn_conn c)) (c_out (cn_conn c) ++ frame v) |> <| cn_phase := Receiving |>).
Proof.
  intros Ephase Hv [Hp Ht]. unfold served. destruct (history_here k h (Answered v)) as (-> & -> & ->).
  rewrite calls_app, !app_nil_r. split.
  - unfold phase_ok in *. rewrite Ephase, Hv in Hp. destruct Hp as (Ho & Hs & _). cbn.
    rewrite Ho, Hs, !fmap_app, concat_app. cbn. by rewrite app_nil_r.
  - eapply taken_frame; [..|exact Ht]; [done|by rewrite Ephase].
Qed.

(** *** The events *)

(** One thread for each call. *)
Lemma slots_length schedule h st0 ts st :
  interleave schedule (handlers h) st0 = (ts, st) → length (calls h) = length ts.
Proof.
  intros E. pose proof (interleave_length schedule (handlers h) st0) as Hl. rewrite E in Hl. cbn in Hl.
  unfold handlers in Hl. by rewrite length_fmap in Hl.
Qed.

(** Nothing happens that is seen, and no handler makes a step. *)
Lemma inv_unseen st0 (s : FrameServer St) st h k f :
  (∀ ts c, fs_threads s !! k = Some c → served k h ts c → served k h ts (f c)) →
  server_inv st0 s st h → server_inv st0 (on_connection k f s) st h.
Proof.
  intros Hf (schedule & ts & Hb & E & Hall). exists schedule, ts. split; [done|]. split; [done|].
  destruct (fs_threads s !! k) as [c|] eqn:Hk.
  - eapply connections_change; [done|done| |done|done]. apply Hf; [done|]. specialize (Hall k). by rewrite Hk in Hall.
  - intros j. specialize (Hall j). cbn. destruct (decide (k = j)) as [<-|Hj].
    + by rewrite list_lookup_alter_eq, Hk in *.
    + by rewrite list_lookup_alter_ne.
Qed.

Lemma inv_happens st0 (s : FrameServer St) st h k f c x :
  fs_threads s !! k = Some c →
  (∀ ts, length (calls h) = length ts → served k h ts c → served k (h ++ [(k, x)]) (ts ++ started x) (f c)) →
  server_inv st0 s st h → server_inv st0 (on_connection k f s) st (h ++ [(k, x)]).
Proof.
  intros Hk Hf (schedule & ts & Hb & E & Hall). exists schedule, (ts ++ started x).
  assert (length (handlers h) = length (calls h)) as Hl by apply length_fmap.
  pose proof (slots_length _ _ _ _ _ E) as Hl'.
  assert (handlers (h ++ [(k, x)]) = handlers h ++ started x) as Eh.
  { unfold handlers. rewrite calls_app, fmap_app. by destruct x. }
  split; [|split].
  - eapply Forall_impl; [exact Hb|]. intros i Hi. rewrite calls_app, length_app. cbn in *. lia.
  - rewrite Eh, interleave_grow by by rewrite Hl. by rewrite E.
  - eapply connections_change; [done|done| | |].
    + specialize (Hall k). rewrite Hk in Hall. by apply Hf.
    + intros j c' Hj. by apply served_other.
    + intros j Hj. by apply quiet_other.
Qed.

Lemma inv_steps st0 (s : FrameServer St) st h k c t :
  fs_threads s !! k = Some c → cn_phase c = Handling t →
  server_inv st0 s st h →
  server_inv st0 (on_connection k (λ _, c <| cn_phase := Handling (thread_step t st).1 |>) s) (thread_step t st).2 h.
Proof.
  intros Hk Ephase (schedule & ts & Hb & E & Hall). pose proof (Hall k) as Hc. rewrite Hk in Hc.
  destruct Hc as [Hp Ht].
  unfold phase_ok in Hp. rewrite Ephase in Hp. destruct Hp as (Ho & Hs & j & Hj & Htj).
  pose proof Hj as [[v Hv] _]. pose proof (slots_length _ _ _ _ _ E) as Hl.
  pose proof (lookup_lt_Some _ _ _ Hv) as Hlt. destruct (thread_step t st) as [t' st'] eqn:Es. cbn [fst snd].
  exists (schedule ++ [j]), (<[j:=t']> ts). split; [|split].
  - apply Forall_app. split; [done|by repeat constructor].
  - rewrite interleave_app, E. cbn. by rewrite Htj, Es.
  - eapply connections_change; [done|done| | |done].
    + split.
      * unfold phase_ok. cbn [cn_phase cn_conn]. destruct (outcomes_last k j (calls h) ts Hj Hl) as [before Hbefore].
        rewrite Hbefore. pose proof (Hbefore t) as Et. rewrite list_insert_id, Ho in Et by done.
        apply app_inj_tail in Et as [<- _]. split; [done|]. split; [done|]. exists j. split; [done|].
        apply list_lookup_insert_eq. lia.
      * eapply taken_frame; [..|exact Ht]; [done|by rewrite Ephase].
    + intros j' c' Hj'. by apply (served_step _ _ _ _ (k, v)).
Qed.

(** A turn of a thread. *)
Lemma inv_turn st0 (s : FrameServer St) st h k c :
  fs_threads s !! k = Some c → server_inv st0 s st h →
  let '(c', st', x) := serve_turn c st in
  server_inv st0 (on_connection k (λ _, c') s) st' (h ++ match x with Some x => [(k, x)] | None => [] end).
Proof.
  intros Hk Hinv. pose proof Hinv as (_ & ts0 & _ & _ & Hall). specialize (Hall k). rewrite Hk in Hall.
  destruct Hall as [_ (p & rest & Hp & _)]. unfold serve_turn. destruct (cn_phase c) as [|t|] eqn:Ephase.
  - destruct (recv_frame_spec _ _ Hp) as (conn & E & Hleft). rewrite E.
    destruct (next_frame p) as [[e|v] p'] eqn:En; cbn [fst snd] in *.
    + assert (server_inv st0 (on_connection k (λ _, c <| cn_conn := conn |> <| cn_phase := Ended |>) s) st h) as Hend.
      { apply inv_unseen; [|done]. intros ts c' Hk' [Hph (p1 & rest1 & _ & Hc & _)]. assert (c' = c) as -> by congruence. split.
        - eapply (phase_ended k _ _ _ c); [done|done|apply Hleft|done].
        - exists p', rest1. split; [apply Hleft|done]. }
      destruct e; rewrite ?app_nil_r; try exact Hend. destruct (cn_eof c); [exact Hend|].
      apply inv_unseen; [|done]. intros ts c' Hk'. assert (c' = c) as -> by congruence. done.
    + eapply inv_happens; [exact Hk| |done]. intros ts Hl Hs. by eapply served_call.
  - destruct (answer_of t) as [v|] eqn:Hv.
    + destruct (send_frame_cases v (cn_conn c)) as [->| ->].
      * eapply inv_happens; [exact Hk| |done]. intros ts _ Hs. cbn [started]. rewrite app_nil_r. by eapply served_answer.
      * rewrite app_nil_r. apply inv_unseen; [|done]. intros ts c' Hk' [Hph Ht]. assert (c' = c) as -> by congruence. split.
        -- eapply (phase_unsent k _ _ _ t v []); [done|done|done|cbn; by rewrite app_nil_r|apply prefix_nil|done].
        -- eapply taken_frame; [..|exact Ht]; [done|by rewrite Ephase].
    + pose proof (inv_steps st0 s st h k c t Hk Ephase Hinv) as H. destruct (thread_step t st) as [t' st'].
      rewrite app_nil_r. exact H.
  - rewrite app_nil_r. apply inv_unseen; [|done]. intros ts c' Hk'. assert (c' = c) as -> by congruence. done.
Qed.

Lemma inv_accept st0 (s : FrameServer St) st h b : server_inv st0 s st h → server_inv st0 (accept_round b s) st h.
Proof.
  intros (schedule & ts & Hb & E & Hall). exists schedule, ts. split; [done|]. split; [done|]. intros k. specialize (Hall k).
  unfold accept_round. destruct (fs_accepting s); [|done]. destruct b; [|done]. cbn.
  destruct (decide (k < length (fs_threads s))%nat) as [Hk|Hk]; [by rewrite lookup_app_l|].
  rewrite lookup_app_r by lia. rewrite lookup_ge_None_2 in Hall by lia.
  destruct (k - length (fs_threads s))%nat; [|done]. destruct Hall as (Ha & Hq & Hr & Hc). unfold served.
  rewrite Ha, Hq, Hr. split.
  - unfold phase_ok. cbn. split; [by apply outcomes_none|done].
  - exists [], []. split; [by split|]. split; [constructor|done].
Qed.

Lemma server_event_inv st0 e (s : FrameServer St) st h :
  server_inv st0 s st h →
  let '(s', st', h') := server_event e s st in server_inv st0 s' st' (h ++ h').
Proof.
  intros Hinv. destruct e as [| |k data|k|k|k n|]; cbn [server_event]; rewrite ?app_nil_r.
  - by apply inv_accept.
  - by apply inv_accept.
  - destruct (fs_threads s !! k) as [c|] eqn:Hk; [|by rewrite app_nil_r]. destruct (_ || _) eqn:Ed; [by rewrite app_nil_r|].
    apply orb_false_iff in Ed as [_ Hd%bool_decide_eq_false].
    eapply inv_happens; [exact Hk| |done]. intros ts _ Hs. cbn [started]. rewrite app_nil_r. by apply served_arrives.
  - apply inv_unseen; [|done]. intros ts c _ [Hp Ht]. split; [exact Hp|]. by eapply taken_frame.
  - destruct (fs_threads s !! k) as [c|] eqn:Hk; [|by rewrite app_nil_r].
    pose proof (inv_turn st0 s st h k c Hk Hinv) as H. destruct (serve_turn c st) as [[c' st'] x]. exact H.
  - apply inv_unseen; [|done]. intros ts c _. apply served_breaks.
  - exact Hinv.
Qed.

Lemma server_run_inv st0 es : ∀ (s : FrameServer St) st h,
  server_inv st0 s st h →
  let '(s', st', h') := server_run es s st in server_inv st0 s' st' (h ++ h').
Proof.
  induction es as [|e es IH]; intros s st h Hinv; cbn [server_run]; [by rewrite app_nil_r|].
  pose proof (server_event_inv st0 e s st h Hinv) as He. destruct (server_event e s st) as [[s1 st1] h1].
  specialize (IH s1 st1 (h ++ h1) He). destruct (server_run es s1 st1) as [[s2 st2] h2]. by rewrite <-app_assoc in IH.
Qed.

Lemma server_start_inv st0 host port :
  server_inv st0 (FrameServer_start (inr port) (FrameServer_init host 0)).2 st0 [].
Proof. exists [], []. split_and!; [done|done|]. intros k. cbn. by split_and!. Qed.

(** *** What a thread does next *)

(** A thread that is receiving takes the next frame once it is there. *)
Lemma turn_receives (c : Connection St) st v rest :
  Forall (λ x, x ≠ []) (c_in (cn_conn c)) → cn_phase c = Receiving →
  next_frame (concat (c_in (cn_conn c))) = (inr v, rest) → (serve_turn c st).2 = Some (Called v).
Proof.
  intros Hne Ephase Hn. unfold serve_turn. rewrite Ephase.
  assert (pending (cn_conn c) (concat (c_in (cn_conn c)))) as Hp by done.
  destruct (recv_frame_spec _ _ Hp) as (conn & -> & _). by rewrite Hn.
Qed.

Lemma turn_answers (c : Connection St) st t v :
  cn_phase c = Handling t → answer_of t = Some v → len (json_dumps true v) < 2 ^ 32 →
  (serve_turn c st).2 = Some (Answered v).
Proof. intros Ephase Hv Hl. unfold serve_turn. by rewrite Ephase, Hv, send_frame_run. Qed.
End serving.
