(* ===== verification/WireFacts.v ===== *)
(** * Wire values: the codec loses nothing but one shape *)
From S2P Require Import Prelude Bytes Unicode Json JsonFacts RaftLog KVStore RaftInterfaces RaftNode Wire.
Local Open Scope Z_scope.

Lemma Val_ind (P : Val → Prop) :
  P VNone → (∀ b, P (VBool b)) → (∀ n, P (VInt n)) → (∀ s, P (VStr s)) → (∀ b, P (VBytes b)) →
  (∀ l, Forall P l → P (VList l)) → (∀ d, Forall (λ kv, P kv.2) d → P (VDict d)) → ∀ v, P v.
Proof.
  intros Hn Hb Hi Hs Hy Ha Ho. fix IH 1.
  intros [|b|n|s|b|l|d]; [exact Hn|exact (Hb b)|exact (Hi n)|exact (Hs s)|exact (Hy b)|apply Ha|apply Ho].
  - revert l. fix IHl 1. intros [|v l]; constructor; [apply IH|apply IHl].
  - revert d. fix IHd 1. intros [|[k v] d]; constructor; [apply IH|apply IHd].
Qed.

(** Mapping a function that succeeds on each element. *)
Lemma collect_map {A B} (f : A → Exn + B) (g : A → B) l :
  Forall (λ x, f x = inr (g x)) l → collect (f <$> l) = inr (g <$> l).
Proof. induction 1 as [|x l Hx _ IH]; cbn; [done|]. by rewrite Hx, IH. Qed.

Lemma collect_id {A} (f : A → Exn + A) l : Forall (λ x, f x = inr x) l → collect (f <$> l) = inr l.
Proof. induction 1 as [|x l Hx _ IH]; cbn; [done|]. by rewrite Hx, IH. Qed.

(** ** Base64 *)

Lemma b64_val_char n : 0 <= n < 64 → b64_val (b64_char n) = Some n ∧ b64_char n ≠ x3d.
Proof.
  intros Hn. assert (byte_to_Z (b64_char n)
    = if n <? 26 then 65 + n else if n <? 52 then 71 + n else if n <? 62 then n - 4 else if n =? 62 then 43 else 47) as E.
  { unfold b64_char. rewrite byte_to_Z_to_byte. apply Z.mod_small.
    repeat case_match; lia. }
  split.
  - unfold b64_val, byte_in. rewrite E. clear E.
    destruct (Z.ltb_spec n 26), (Z.ltb_spec n 52), (Z.ltb_spec n 62), (Z.eqb_spec n 62); try lia;
      repeat match goal with |- context [?a <=? ?b] => destruct (Z.leb_spec a b); try lia end; cbn [andb];
      repeat match goal with |- context [?a =? ?b] => destruct (Z.eqb_spec a b); try lia end; f_equal; lia.
  - intros Ec. rewrite Ec in E. change (byte_to_Z x3d) with 61 in E. repeat case_match; lia.
Qed.

(** One character of the alphabet. *)
Lemma a2b_char n s quad left pads :
  0 <= n < 64 →
  a2b (b64_char n :: s) quad left pads =
    if quad =? 0 then a2b s 1 n 0
    else if quad =? 1 then on_ok (cons (Z_to_byte (left * 4 + n / 16))) (a2b s 2 (n mod 16) 0)
    else if quad =? 2 then on_ok (cons (Z_to_byte (left * 16 + n / 4))) (a2b s 3 (n mod 4) 0)
    else on_ok (cons (Z_to_byte (left * 64 + n))) (a2b s 0 0 0).
Proof.
  intros Hn. destruct (b64_val_char n Hn) as [Ev Ec]. cbn [a2b]. by rewrite bool_decide_eq_false_2, Ev.
Qed.

Lemma byte_again z b : z = byte_to_Z b → Z_to_byte z = b.
Proof. intros ->. apply Z_to_byte_to_Z. Qed.

Lemma a2b_b64encode s : a2b (b64encode s) 0 0 0 = inr s.
Proof.
  induction s as [s IH] using (induction_ltof1 _ length); unfold ltof in IH.
  destruct s as [|a [|b [|c s]]]; [done| | |]; cbn [b64encode];
    pose proof (byte_to_Z_bound a); try pose proof (byte_to_Z_bound b); try pose proof (byte_to_Z_bound c);
    rewrite !a2b_char by div_lia; cbn [Z.eqb Pos.eqb].
  - cbn. by rewrite (byte_again _ a) by div_lia.
  - cbn. rewrite (byte_again _ a), (byte_again _ b) by div_lia. done.
  - rewrite IH by (cbn; lia). cbn [on_ok].
    by rewrite (byte_again _ a), (byte_again _ b), (byte_again _ c) by div_lia.
Qed.

Lemma b64_char_ascii n : 0 <= n < 64 → byte_to_Z (b64_char n) < 128.
Proof.
  intros Hn. unfold b64_char. rewrite byte_to_Z_to_byte. repeat case_match; rewrite Z.mod_small; lia.
Qed.

Lemma b64encode_ascii s : forallb (λ c, byte_to_Z c <? 128) (b64encode s) = true.
Proof.
  induction s as [s IH] using (induction_ltof1 _ length); unfold ltof in IH.
  destruct s as [|a [|b [|c s]]]; [done| | |]; cbn [b64encode forallb];
    pose proof (byte_to_Z_bound a); try pose proof (byte_to_Z_bound b); try pose proof (byte_to_Z_bound c);
    rewrite !(proj2 (Z.ltb_lt _ _)) by (apply b64_char_ascii; div_lia); [done..|]. apply IH. cbn. lia.
Qed.

Lemma b64_roundtrip b : b64decode (VStr (str_of_bytes (b64encode b))) = inr b.
Proof. unfold b64decode. by rewrite bytes_of_str_of_bytes, b64encode_ascii, a2b_b64encode. Qed.

(** ** Values on the wire *)

(** No dictionary has [B64_KEY] as its only key. *)
Fixpoint wire_safe (v : Val) : bool :=
  match v with
  | VList l => forallb wire_safe l
  | VDict d => negb (bool_decide ((fst <$> d) = [B64_KEY])) && forallb (λ kv, wire_safe kv.2) d
  | _ => true
  end.

Lemma decode_dict d :
  length d ≠ 1%nat →
  decode_wire (VDict d) = on_ok VDict (collect ((λ kv, on_ok (pair kv.1) (decode_wire kv.2)) <$> d)).
Proof. by destruct d as [|[k x] [|kv d]]. Qed.

Lemma decode_encode_wire v : wire_safe v = true → decode_wire (encode_wire v) = inr v.
Proof.
  induction v as [|b|n|s|b|l IH|d IH] using Val_ind; intros Hs; try done.
  - cbn [encode_wire decode_wire]. rewrite bool_decide_eq_true_2 by done. by rewrite b64_roundtrip.
  - cbn [encode_wire decode_wire]. rewrite <-list_fmap_compose.
    rewrite collect_id; [done|]. eapply forallb_Forall_impl; [exact IH|exact Hs].
  - cbn [wire_safe] in Hs. apply andb_true_iff in Hs as [Hk Hs]. apply negb_true_iff, bool_decide_eq_false in Hk.
    assert (Forall (λ kv, decode_wire (encode_wire kv.2) = inr kv.2) d) as Hd
      by (eapply forallb_Forall_impl; [exact IH|exact Hs]). clear IH Hs.
    destruct d as [|[k x] [|kv d]]; [done| |].
    + apply Forall_inv in Hd. cbn in Hd, Hk. cbn [encode_wire decode_wire fmap list_fmap fst snd].
      rewrite bool_decide_eq_false_2 by congruence. by rewrite Hd.
    + cbn [encode_wire]. rewrite decode_dict, <-list_fmap_compose by done.
      rewrite collect_id; [done|].
      eapply Forall_impl; [exact Hd|]. intros [k' x'] E. cbn in *. by rewrite E.
Qed.

(** What [json.dumps] makes of a value without byte strings. *)
Fixpoint plain_json (v : Val) : Json :=
  match v with
  | VNone => JNull
  | VBool b => JBool b
  | VInt n => JInt n
  | VStr s => JStr s
  | VBytes b => JObj [(B64_KEY, JStr (str_of_bytes (b64encode b)))]
  | VList l => JArr (plain_json <$> l)
  | VDict d => JObj ((λ kv, (kv.1, plain_json kv.2)) <$> d)
  end.

(** Whatever is encoded can be dumped. *)
Lemma json_of_encoded v : json_of_val (encode_wire v) = inr (plain_json v).
Proof.
  induction v as [|b|n|s|b|l IH|d IH] using Val_ind; try done; cbn [encode_wire json_of_val plain_json].
  - rewrite <-list_fmap_compose. by rewrite (collect_map _ plain_json).
  - rewrite <-list_fmap_compose. rewrite (collect_map _ (λ kv, (kv.1, plain_json kv.2))); [done|].
    eapply Forall_impl; [exact IH|]. intros [k x] E. cbn in *. by rewrite E.
Qed.

Lemma val_of_plain v : val_of_json (plain_json v) = encode_wire v.
Proof.
  induction v as [|b|n|s|b|l IH|d IH] using Val_ind; try done; cbn [encode_wire val_of_json plain_json].
  - f_equal. rewrite <-list_fmap_compose. by apply Forall_fmap_ext.
  - f_equal. rewrite <-list_fmap_compose. apply Forall_fmap_ext. eapply Forall_impl; [exact IH|].
    intros [k x] E. cbn in *. by rewrite E.
Qed.

(** Dictionaries have distinct keys. *)
Fixpoint val_wf (v : Val) : bool :=
  match v with
  | VList l => forallb val_wf l
  | VDict d => bool_decide (NoDup (fst <$> d)) && forallb (λ kv, val_wf kv.2) d
  | _ => true
  end.

Lemma forallb_fmap {A B} (f : A → B) (p : B → bool) l : forallb p (f <$> l) = forallb (λ x, p (f x)) l.
Proof. induction l as [|x l IH]; cbn; [done|]. by rewrite <-IH. Qed.

Lemma forallb_ext_Forall {A} (p q : A → bool) l : Forall (λ x, p x = q x) l → forallb p l = forallb q l.
Proof. induction 1 as [|x l E _ IH]; cbn; [done|]. by rewrite E, IH. Qed.

Lemma plain_json_wf v : json_wf (plain_json v) = val_wf v.
Proof.
  induction v as [|b|n|s|b|l IH|d IH] using Val_ind; try done; cbn [json_wf plain_json val_wf].
  - rewrite forallb_fmap. by apply forallb_ext_Forall.
  - rewrite forallb_fmap, <-list_fmap_compose. f_equal. by apply forallb_ext_Forall.
Qed.

(** ** Messages *)

Lemma keys_of_val_map (d : list (string * string)) :
  NoDup (fst <$> d) → keys_of_val ((λ kv, (kv.1, VStr kv.2)) <$> d) = Some (list_to_map d).
Proof.
  induction d as [|[k v] d IH]; intros Hnd; cbn [fmap list_fmap keys_of_val fst snd]; [done|].
  apply NoDup_cons in Hnd as [_ Hnd]. rewrite IH by done. done.
Qed.

Lemma state_of_state_val st : state_of_val (state_val st) = Some st.
Proof.
  unfold state_val. cbn [state_of_val]. change (dict_get "keys" _) with (Some (VDict ((λ kv, (kv.1, VStr kv.2)) <$> map_to_list (snap_keys st)))).
  cbn [mbind option_bind]. rewrite keys_of_val_map by apply NoDup_fst_map_to_list.
  rewrite list_to_map_to_list. by destruct st.
Qed.

Lemma entries_of_val es : mapM entry_of_val (entry_val <$> es) = Some es.
Proof. apply mapM_fmap_Some_inv || (induction es as [|e es IH]; cbn; [done|]; rewrite IH; by destruct e). Qed.

Lemma msg_of_msg_val m : match msg_val m with VDict d => msg_of_val d | _ => None end = Some m.
Proof.
  destruct m; try reflexivity; unfold msg_val.
  - transitivity (es ← mapM entry_of_val (entry_val <$> ents); Some (Append term leader prev_index prev_term es commit)); [reflexivity|].
    by rewrite entries_of_val.
  - by destruct conflict.
  - transitivity (st ← state_of_val (state_val data);
      Some (InstallSnapshot term leader last_included_index last_included_term st)); [reflexivity|].
    by rewrite state_of_state_val.
Qed.

(** A message survives the wire unless it carries a snapshot whose only key is
    [B64_KEY]. *)
Definition msg_safe (m : Msg) : Prop :=
  match m with InstallSnapshot _ _ _ _ st => dom (snap_keys st) ≠ {[B64_KEY]} | _ => True end.

Lemma strings_forallb (p : Val → bool) (l : list (string * string)) :
  (∀ s, p (VStr s) = true) → forallb (λ kv, p kv.2) ((λ kv, (kv.1, VStr kv.2)) <$> l) = true.
Proof. intros Hp. induction l as [|kv l IH]; cbn; [done|]. by rewrite Hp, IH. Qed.

Lemma msg_val_safe m : msg_safe m → wire_safe (msg_val m) = true.
Proof.
  intros Hm. destruct m; try reflexivity; unfold msg_val.
  - transitivity (forallb wire_safe (entry_val <$> ents) && true); [reflexivity|]. rewrite forallb_fmap. clear Hm.
    induction ents as [|e es IH]; [done|exact IH].
  - by destruct conflict.
  - cbn in Hm. transitivity (wire_safe (state_val data) && true); [reflexivity|].
    unfold state_val. set (ks := (λ kv, (kv.1, VStr kv.2)) <$> map_to_list (snap_keys data)).
    transitivity ((negb (bool_decide ((fst <$> ks) = [B64_KEY])) && forallb (λ kv, wire_safe kv.2) ks && true) && true);
      [reflexivity|].
    assert ((fst <$> ks) = (map_to_list (snap_keys data)).*1) as Ek by (unfold ks; by rewrite <-list_fmap_compose).
    rewrite bool_decide_eq_false_2; cbn [negb andb].
    + rewrite !andb_true_r. by apply strings_forallb.
    + rewrite Ek. intros E. apply Hm.
      rewrite <-(list_to_map_to_list (snap_keys data)), dom_list_to_map_L, E. cbn. by rewrite union_empty_r_L.
Qed.

Lemma msg_val_wf m : val_wf (msg_val m) = true.
Proof.
  destruct m; try (vm_compute; reflexivity); unfold msg_val.
  - transitivity (forallb val_wf (entry_val <$> ents) && true); [reflexivity|]. rewrite forallb_fmap.
    induction ents as [|e es IH]; [done|exact IH].
  - by destruct conflict.
  - transitivity (val_wf (state_val data) && true); [reflexivity|]. unfold state_val.
    set (ks := (λ kv, (kv.1, VStr kv.2)) <$> map_to_list (snap_keys data)).
    transitivity ((bool_decide (NoDup (fst <$> ks)) && forallb (λ kv, val_wf kv.2) ks && true) && true); [reflexivity|].
    rewrite bool_decide_eq_true_2; cbn [andb].
    + rewrite !andb_true_r. by apply strings_forallb.
    + unfold ks. rewrite <-list_fmap_compose. apply NoDup_fst_map_to_list.
Qed.
