(* ===== verification/ServerFacts.v ===== *)
(** * A node behind its socket: messages arrive as they were sent *)
From S2P Require Import Prelude Bytes FileSystem Unicode Json JsonFacts RaftLog DurableLog KVStore RaftInterfaces RaftNode StateFiles Net NetFacts Wire WireFacts Server.
Local Open Scope Z_scope.

Section server_facts.
Context {L Rng : Type} `{RaftLogOps L} `{StatsSource L} `{Random Rng}.
Context (clock wall : Z) (addresses : gmap NodeId Z) (describe : Exn → string).
Abbreviation W := (World L Rng).
Abbreviation handler := (on_wire_message (L:=L) (Rng:=Rng) clock wall addresses).

Lemma wire_message_spec m : wire_message m = inr (plain_json (msg_val m)).
Proof. apply json_of_encoded. Qed.

Lemma msg_not_request m :
  match msg_val m with
  | VDict d => (is_kind "propose" d || is_kind "read" d || is_kind "snapshot" d || is_kind "info" d) = false
  | _ => False
  end.
Proof. destruct m; vm_compute; try reflexivity. Qed.

(** A message that arrives is handled, and acknowledged. *)
Lemma handler_message m (w : W) :
  msg_safe m →
  handler (plain_json (msg_val m)) w =
    match RaftNode_handle clock wall m w with
    | (inl e, w') => (inl e, w')
    | (inr _, w') => (inr (ack (nd w')), w')
    end.
Proof.
  intros Hm. unfold on_wire_message. rewrite val_of_plain, decode_encode_wire by by apply msg_val_safe.
  pose proof (msg_of_msg_val m) as E. pose proof (msg_not_request m) as Hk.
  destruct (msg_val m) as [| | | | | |d]; try done. erewrite bind_ok; [|reflexivity]. cbn beta.
  apply orb_false_iff in Hk as [Hk ->]. apply orb_false_iff in Hk as [Hk ->]. apply orb_false_iff in Hk as [-> ->].
  rewrite E. unfold mbind at 1, M_bind at 1. by destruct (RaftNode_handle clock wall m w) as [[e|[]] w'].
Qed.

(** The answer to a message, and the node after it. *)
Definition answer (m : Msg) (w : W) : Json :=
  match RaftNode_handle clock wall m w with
  | (inl e, _) => error_frame describe e
  | (inr _, w') => ack (nd w')
  end.

Definition handled (m : Msg) (w : W) : W := (RaftNode_handle clock wall m w).2.

Fixpoint answers (ms : list Msg) (w : W) : list Json :=
  match ms with [] => [] | m :: ms' => answer m w :: answers ms' (handled m w) end.

Lemma responses_messages ms : ∀ w : W,
  Forall msg_safe ms →
  responses describe handler ((λ m, plain_json (msg_val m)) <$> ms) w
    = (answers ms w, foldl (λ w m, handled m w) w ms).
Proof.
  induction ms as [|m ms IH]; intros w Hs; [done|]. apply Forall_cons in Hs as [Hm Hs].
  cbn [fmap list_fmap responses answers foldl]. unfold respond. rewrite handler_message by done.
  unfold answer, handled. destruct (RaftNode_handle clock wall m w) as [[e|[]] w']; cbn [fst snd]; by rewrite IH.
Qed.
End server_facts.

(** ** Starting a server node again *)

(** The state file holds the term and the vote, or nothing has been saved yet. *)
Definition state_saved (p : DurableState) : Prop :=
  ds_file p = Some (state_text (current_term p) (voted_for p)) ∨
  ds_file p = None ∧ current_term p = 0 ∧ voted_for p = None.

Lemma state_saved_load p : state_saved p →
  DurableState_init true (ds_file p) = inr (mkDS true (ds_file p) (current_term p) (voted_for p)).
Proof.
  intros [-> | (-> & -> & ->)]; [|done]. unfold DurableState_init, DurableState_load. cbn [ds_path ds_file].
  by rewrite parse_state_text.
Qed.

Lemma save_saved t v p : ds_path p = true → state_saved (DurableState_save t v p).
Proof. intros Hp. left. cbn. by rewrite Hp. Qed.

(** A new node over a directory without snapshots. *)
Lemma init_without_snapshot {L Rng} `{RaftLogOps L} `{Random Rng} clock (n : RaftNode L Rng) files :
  snapshot_dir n = Some files → latest_snapshot files = None →
  ∃ r d, RaftNode_init clock (mkWorld _ _ n [] [])
    = (inr (), mkWorld _ _ (n <| rng := r |> <| election_deadline := d |>) [] []).
Proof.
  intros Hd Hl. destruct (reset_exact clock true (mkWorld _ _ n [] [])) as (x & d & r & E). exists r, d.
  unfold RaftNode_init. erewrite bind_ok; [|exact E]. unfold RaftNode_load_snapshot_file.
  erewrite bind_ok; [|reflexivity]. cbn. rewrite Hd, Hl. by destruct (state_machine n).
Qed.
