(* ===== verification/TransportFacts.v ===== *)
(** * Sending to peers: one connection at a time, and what can be raised *)
From S2P Require Import Prelude Bytes Unicode Json RaftLog RaftInterfaces RaftNode Wire WireFacts Server ServerFacts Transport.
Local Open Scope Z_scope.

(** ** Exceptions of a computation *)

Definition raises_only {S A} (P : Exn → bool) (m : M S A) : Prop := ∀ s e s', m s = (inl e, s') → P e = true.

Lemma raises_bind {S A B} P (m : M S A) (f : A → M S B) :
  raises_only P m → (∀ x, raises_only P (f x)) → raises_only P (m ≫= f).
Proof.
  intros Hm Hf s e s'. unfold mbind, M_bind. destruct (m s) as [[e1|x] s1] eqn:E.
  - intros [= <- _]. by eapply Hm.
  - apply Hf.
Qed.

Lemma raises_mret {S A} P (x : A) : raises_only P (mret (M:=M S) x).
Proof. done. Qed.

Lemma raises_except {S} (P Q caught : Exn → bool) (m handler : M S ()) :
  raises_only P m → raises_only Q handler → (∀ e, P e = true → caught e = false → Q e = true) →
  raises_only Q (try_except m caught handler).
Proof.
  intros Hm Hh HQ s e s'. unfold try_except. destruct (m s) as [[e1|x] s1] eqn:E; [|done].
  destruct (caught e1) eqn:Ec; [apply Hh|]. intros [= <- _]. apply HQ; [by eapply Hm|done].
Qed.

Lemma preserves_except {S} (R : S → S → Prop) `{!PreOrder R} (caught : Exn → bool) (m handler : M S ()) :
  preserves R m → preserves R handler → preserves R (try_except m caught handler).
Proof.
  intros Hm Hh s. specialize (Hm s). unfold respects, try_except in *. destruct (m s) as [[e1|x] s1]; [|done].
  destruct (caught e1); [|done]. etrans; [exact Hm|apply Hh].
Qed.

(** ** The transport *)

Section sending.
Context {Net Client : Type} `{TcpNet Net Client} (addresses : gset NodeId) (peer : NodeId).
Abbreviation Transport := (gmap NodeId Client * Net)%type.

(** The connections of other peers stay as they are. *)
Definition others_kept (s s' : Transport) : Prop := ∀ q, q ≠ peer → s'.1 !! q = s.1 !! q.

#[export] Instance others_kept_preorder : PreOrder others_kept.
Proof. split; [done|]. intros x y z Hxy Hyz q Hq. by rewrite Hyz, Hxy. Qed.

Lemma on_net_others {A} (m : M Net A) : preserves others_kept (on_net (Client:=Client) m).
Proof. intros [conns net] q Hq. unfold on_net. by destruct (m net). Qed.

Lemma conn_others : preserves others_kept (TcpTransport_conn addresses peer).
Proof.
  apply preserves_bind; [apply _|by intros s|]. intros s. destruct (s.1 !! peer); [by apply preserves_ret, _|].
  case_bool_decide; [|by apply preserves_raise, _]. apply preserves_bind; [apply _|apply on_net_others|]. intros c.
  apply preserves_bind; [apply _| |intros _; by apply preserves_ret, _].
  intros s1 q Hq. cbn. by rewrite lookup_insert_ne.
Qed.

Lemma call_others wire : preserves others_kept (call_peer addresses peer wire).
Proof.
  apply preserves_bind; [apply _|apply conn_others|]. intros c.
  apply preserves_bind; [apply _|apply on_net_others|]. intros _. by apply preserves_ret, _.
Qed.

Lemma reconnect_others wire : preserves others_kept (reconnect addresses peer wire).
Proof.
  apply preserves_bind; [apply _|by intros s|]. intros s. destruct (s.1 !! peer); [|by apply preserves_ret, _].
  apply preserves_bind; [apply _| |intros _].
  - intros s1 q Hq. cbn. by rewrite lookup_delete_ne.
  - apply preserves_except; [apply _|apply call_others|by apply preserves_ret, _].
Qed.

Lemma send_run msg : TcpTransport_send addresses peer msg =
  try_except (call_peer addresses peer (plain_json (msg_val msg)))
    (λ e, os_error e || disconnected e || value_error e) (reconnect addresses peer (plain_json (msg_val msg))).
Proof. unfold TcpTransport_send. by rewrite wire_message_spec. Qed.

(** What the network raises. *)
Hypothesis connect_raises : ∀ p, raises_only os_error (net_connect (Net:=Net) (Client:=Client) p).
Hypothesis call_raises : ∀ c j,
  raises_only (λ e, os_error e || disconnected e || value_error e) (net_call (Net:=Net) (Client:=Client) c j).
Hypothesis known : peer ∈ addresses.

Lemma on_net_raises {A} P (m : M Net A) : raises_only P m → raises_only P (on_net (Client:=Client) m).
Proof.
  intros Hm [conns net] e s'. unfold on_net. destruct (m net) as [[e1|x] n1] eqn:E; [|done].
  intros [= <- _]. by eapply Hm.
Qed.

Lemma conn_raises : raises_only os_error (TcpTransport_conn addresses peer).
Proof.
  apply raises_bind; [done|]. intros s. destruct (s.1 !! peer); [apply raises_mret|].
  rewrite bool_decide_eq_true_2 by done. apply raises_bind; [apply on_net_raises, connect_raises|].
  intros c. by apply raises_bind.
Qed.

Lemma call_peer_raises wire :
  raises_only (λ e, os_error e || disconnected e || value_error e) (call_peer addresses peer wire).
Proof.
  apply raises_bind; [intros s e s' E; by rewrite (conn_raises _ _ _ E)|]. intros c.
  apply raises_bind; [apply on_net_raises, call_raises|]. intros v. apply raises_mret.
Qed.

Lemma reconnect_raises wire : raises_only value_error (reconnect addresses peer wire).
Proof.
  apply raises_bind; [done|]. intros s. destruct (s.1 !! peer); [|apply raises_mret]. apply raises_bind; [done|].
  intros _. eapply raises_except; [apply call_peer_raises|apply raises_mret|].
  intros e He Hc. cbv beta in He. by rewrite Hc in He.
Qed.

Lemma send_raises msg : raises_only value_error (TcpTransport_send addresses peer msg).
Proof.
  rewrite send_run. eapply raises_except; [apply call_peer_raises|apply reconnect_raises|].
  intros e He Hc. by rewrite He in Hc.
Qed.
End sending.
