(* ===== verification/Broker.v ===== *)
(** * The broker (pylog/broker.py)

    Topics are lists of partitions, each a commit log over a directory of its own;
    consumer groups keep their committed offsets in a JSON file.  A method is a
    computation over the data directory and the broker object.  Names of topics are
    taken to be single path components. *)
From stdpp Require Import sorting.
From Stdlib Require Import Ascii.
From S2P Require Import Prelude Bytes Crc32 LogRecord FileSystem Segment CommitLog Unicode Json.
Local Open Scope Z_scope.

(** ** Partitions *)

Definition Partition_high_watermark (l : CommitLog) : Z := log_next_offset l.
Definition Partition_size_bytes (l : CommitLog) : Z := st_size_bytes (CommitLog_stats l).

(** The loop is that of [CommitLog.read_range]. *)
Definition Partition_read_after (offset limit : Z) : LogM (list LogRec) :=
  read_range_loop (Z.to_nat limit) (if 0 <=? offset then offset + 1 else 0).

(** The leading segments, the active one excepted, whose newest record is too old. *)
Fixpoint expired_count (now max_age : Z) (segs : list Segment) : nat :=
  match segs with
  | g :: (_ :: _) as segs' => if max_age <? now - max_timestamp g then S (expired_count now max_age segs') else O
  | _ => O
  end.

Definition sweep_by_age (now : Z) (max_age : option Z) : LogM Z :=
  l ← this;
  match max_age with
  | None => mret 0
  | Some age =>
      match expired_count now age (segments l) with
      | O => mret 0
      | S k =>
          match segments l !! k with
          | None => raise IndexError
          | Some g => CommitLog_truncate_segments_before (base_offset g + 1)
          end
      end
  end.

(** The byte-budget loop; each round drops a segment, so their number is fuel
    enough. *)
Fixpoint sweep_by_size (fuel : nat) (max_total : Z) : LogM Z :=
  match fuel with
  | O => mret 0
  | S fuel' =>
      l ← this;
      match segments l with
      | _ :: g1 :: _ =>
          if size_bytes l <=? max_total then mret 0
          else
            _ ← CommitLog_truncate_segments_before (base_offset g1 + 1);
            removed ← sweep_by_size fuel' max_total;
            mret (removed + 1)
      | _ => mret 0
      end
  end.

Definition Partition_retention_sweep (now : Z) (max_age max_total : option Z) : LogM Z :=
  removed ← sweep_by_age now max_age;
  match max_total with
  | None => mret removed
  | Some total =>
      l ← this;
      more ← sweep_by_size (length (segments l)) total;
      mret (removed + more)
  end.

(** ** Consumer groups *)

Record ConsumerGroup := mkGroup {
  g_name : string;
  g_offsets : list (string * Z);
}.

Definition group_file (name : string) : string := (name +:+ ".json")%string.

(** [str(n)] *)
Definition str_of_int (n : Z) : string := str_of_bytes (json_int n).

(** [f"{topic}/{partition}"] *)
Definition offset_key (topic : string) (partition : Z) : string :=
  (topic +:+ "/" +:+ str_of_int partition)%string.

(** [int(s)] of an ASCII string: surrounding white space, a sign, and digits that
    single underscores may separate. *)
Definition is_space (c : Ascii.ascii) : bool :=
  let n := Z.of_nat (Ascii.nat_of_ascii c) in (n =? 32) || ((9 <=? n) && (n <=? 13)) || ((28 <=? n) && (n <=? 31)).

Fixpoint lstrip (s : string) : string :=
  match s with String c s' => if is_space c then lstrip s' else s | EmptyString => s end.

Definition strip (s : string) : string := String.rev (lstrip (String.rev (lstrip s))).

Fixpoint int_digits (s : string) (acc : Z) (after_digit : bool) : option Z :=
  match s with
  | EmptyString => if after_digit then Some acc else None
  | String c s' =>
      if is_digit_char c then int_digits s' (acc * 10 + digit_val c) true
      else if bool_decide (c = "_"%char) && after_digit then int_digits s' acc false
      else None
  end.

Definition int_of_text (s : string) : Exn + Z :=
  let r := match strip s with
           | String "-" s' => Z.opp <$> int_digits s' 0 false
           | String "+" s' => int_digits s' 0 false
           | s' => int_digits s' 0 false
           end in
  match r with Some n => inr n | None => inl ValueError end.

(** [int(v)] of a loaded value. *)
Definition int_of_json (v : Json) : Exn + Z :=
  match v with
  | JInt n => inr n
  | JBool b => inr (if b then 1 else 0)
  | JStr s => int_of_text s
  | _ => inl TypeError
  end.

Fixpoint offsets_of_json (d : list (string * Json)) : Exn + list (string * Z) :=
  match d with
  | [] => inr []
  | (k, v) :: d' =>
      match int_of_json v with
      | inl e => inl e
      | inr n => match offsets_of_json d' with inl e => inl e | inr o => inr ((k, n) :: o) end
      end
  end.

Definition offsets_text (offsets : list (string * Z)) : bytes :=
  json_dumps false (JObj ((λ kn, (kn.1, JInt kn.2)) <$> offsets)).

Definition parse_offsets (text : bytes) : Exn + list (string * Z) :=
  match json_loads text with
  | inl e => inl e
  | inr (JObj d) => offsets_of_json d
  | inr _ => inl AttributeError
  end.

(** [ConsumerGroup(name, path)] where the group files are [files]. *)
Definition ConsumerGroup_init (name : string) (files : FS) : Exn + ConsumerGroup :=
  match files !! group_file name with
  | None => inr (mkGroup name [])
  | Some text =>
      match parse_offsets text with inl e => inl e | inr o => inr (mkGroup name o) end
  end.

Definition ConsumerGroup_committed (topic : string) (partition : Z) (g : ConsumerGroup) : Z :=
  default (-1) (dict_get (offset_key topic partition) (g_offsets g)).

(** The file is replaced as a whole, by [os.replace]. *)
Definition ConsumerGroup_commit (topic : string) (partition offset : Z) : M (FS * ConsumerGroup) () :=
  modify (λ '(files, g),
    if offset <? ConsumerGroup_committed topic partition g then (files, g)
    else
      let offsets := dict_set (offset_key topic partition) offset (g_offsets g) in
      (fs_write (group_file (g_name g)) (offsets_text offsets) files, mkGroup (g_name g) offsets)).

(** ** The broker *)

(** The data directory: [topics/<name>/<entry>/...] and [groups/...]. *)
Record DataDir := mkData {
  dd_topics : gmap string (gmap string FS);
  dd_groups : FS;
}.
#[export] Instance DataDir_eta : Eta DataDir := λ d, mkData (dd_topics d) (dd_groups d).

Record Broker := mkBroker {
  default_partitions : Z;
  seg_bytes : Z;
  index_bytes_interval : Z;
  retention_max_age_ms : option Z;
  retention_max_partition_bytes : option Z;
  topics : list (string * list CommitLog);
  groups : list (string * ConsumerGroup);
  rr : Z;
}.
#[export] Instance Broker_eta : Eta Broker := λ b,
  mkBroker (default_partitions b) (seg_bytes b) (index_bytes_interval b) (retention_max_age_ms b)
    (retention_max_partition_bytes b) (topics b) (groups b) (rr b).

Abbreviation BrokerM := (M (DataDir * Broker)).

Definition broker : BrokerM Broker := gets snd.
Definition on_broker (f : Broker → Broker) : BrokerM () := modify (λ s, (s.1, f s.2)).

(** [f"p{i}"] *)
Definition partition_dir (i : nat) : string := ("p" +:+ dec (Z.of_nat i))%string.

Definition partition_files (topic : string) (i : nat) (d : DataDir) : FS :=
  default ∅ (dd_topics d !! topic ≫= λ t, t !! partition_dir i).

Definition set_partition_files (topic : string) (i : nat) (files : FS) (d : DataDir) : DataDir :=
  d <| dd_topics := <[topic := <[partition_dir i := files]> (default ∅ (dd_topics d !! topic))]> (dd_topics d) |>.

(** [parts[i]] of the topic [topic] runs [op] on its directory. *)
Definition on_partition {A} (topic : string) (i : nat) (op : LogM A) : BrokerM A := λ '(d, b),
  match dict_get topic (topics b) ≫= λ parts, parts !! i with
  | None => (inl IndexError, (d, b))
  | Some l =>
      let '(r, (files, l')) := op (partition_files topic i d, l) in
      let parts := <[i := l']> (default [] (dict_get topic (topics b))) in
      (r, (set_partition_files topic i files d, b <| topics := dict_set topic parts (topics b) |>))
  end.

(** Opening the log of one partition. *)
Definition open_partition (topic : string) (i : nat) : BrokerM CommitLog := λ '(d, b),
  let '(r, (files, l)) := CommitLog_open (seg_bytes b) (index_bytes_interval b) (partition_files topic i d) in
  (match r with inl e => inl e | inr _ => inr l end, (set_partition_files topic i files d, b)).

Fixpoint open_partitions (topic : string) (ids : list nat) : BrokerM (list CommitLog) :=
  match ids with
  | [] => mret []
  | i :: ids' =>
      l ← open_partition topic i;
      ls ← open_partitions topic ids';
      mret (l :: ls)
  end.

Definition Broker_open_topic (name : string) (n : nat) : BrokerM () :=
  parts ← open_partitions name (seq 0 n);
  on_broker (λ b, b <| topics := dict_set name parts (topics b) |>).

Definition Broker_create_topic (name : string) (num_partitions : option Z) : BrokerM () :=
  b ← broker;
  match dict_get name (topics b) with
  | Some _ => raise ValueError
  | None =>
      let n := match num_partitions with
               | None => default_partitions b
               | Some k => if k =? 0 then default_partitions b else k
               end in
      if n <? 1 then raise ValueError else Broker_open_topic name (Z.to_nat n)
  end.

(** A keyed message goes to [crc32(key) % n]; [key.encode("utf-8")] may raise a
    [ValueError].  Others go round. *)
Definition choose_partition (key : option string) (n : Z) : BrokerM Z :=
  match key with
  | Some k =>
      if utf8_valid (bytes_of_str k) then mret (crc32 (bytes_of_str k) mod n) else raise ValueError
  | None =>
      b ← broker;
      _ ← on_broker (λ b, b <| rr := rr b + 1 |>);
      mret (rr b mod n)
  end.

Record Produced := mkProduced { pr_topic : string; pr_partition : Z; pr_offset : Z }.

(** [now] is [int(time.time() * 1000)]. *)
Definition Broker_produce (topic : string) (payload : bytes) (key : option string)
    (timestamp : option Z) (now : Z) : BrokerM Produced :=
  b ← broker;
  _ ← match dict_get topic (topics b) with
      | None => Broker_create_topic topic None
      | Some _ => mret ()
      end;
  b ← broker;
  match dict_get topic (topics b) with
  | None => raise KeyError
  | Some parts =>
      idx ← choose_partition key (len parts);
      offset ← on_partition topic (Z.to_nat idx) (CommitLog_append payload (Some (default now timestamp)) now);
      mret (mkProduced topic idx offset)
  end.

Record Fetched := mkFetched { f_offset : Z; f_timestamp : Z; f_payload : string }.

Definition fetched (r : LogRec) : Fetched :=
  mkFetched (rec_offset r) (rec_timestamp r) (utf8_replace (rec_payload r)).

Definition Broker_fetch (topic : string) (partition after limit : Z) : BrokerM (list Fetched) :=
  b ← broker;
  match dict_get topic (topics b) with
  | None => raise KeyError
  | Some parts =>
      if (0 <=? partition) && (partition <? len parts) then
        recs ← on_partition topic (Z.to_nat partition) (Partition_read_after after limit);
        mret (fetched <$> recs)
      else raise KeyError
  end.

Definition Broker_group (name : string) : BrokerM ConsumerGroup := λ '(d, b),
  match dict_get name (groups b) with
  | Some g => (inr g, (d, b))
  | None =>
      match ConsumerGroup_init name (dd_groups d) with
      | inl e => (inl e, (d, b))
      | inr g => (inr g, (d, b <| groups := dict_set name g (groups b) |>))
      end
  end.

(** A method of the group [g], the object under [name] in [self.groups]. *)
Definition on_group {A} (name : string) (g : ConsumerGroup) (op : M (FS * ConsumerGroup) A) : BrokerM A :=
  λ '(d, b),
    let '(r, (files, g')) := op (dd_groups d, g) in
    (r, (d <| dd_groups := files |>, b <| groups := dict_set name g' (groups b) |>)).

Definition Broker_commit (group_name topic : string) (partition offset : Z) : BrokerM () :=
  g ← Broker_group group_name;
  on_group group_name g (ConsumerGroup_commit topic partition offset).

(** [l[i]]: a negative index counts from the end. *)
Definition py_lookup {A} (i : Z) (l : list A) : option A :=
  if 0 <=? i then l !! Z.to_nat i
  else if 0 <=? i + len l then l !! Z.to_nat (i + len l) else None.

Definition Broker_lag (group_name topic : string) (partition : Z) : BrokerM Z :=
  b ← broker;
  match dict_get topic (topics b) with
  | None => mret 0
  | Some parts =>
      match py_lookup partition parts with
      | None => raise IndexError
      | Some l =>
          let hw := Partition_high_watermark l in
          g ← Broker_group group_name;
          mret (Z.max 0 (hw - 1 - ConsumerGroup_committed topic partition g))
      end
  end.

(** The partitions of every topic, in the order of the loops. *)
Definition all_partitions (b : Broker) : list (string * nat) :=
  concat ((λ tp, (λ i, (tp.1, i)) <$> seq 0 (length tp.2)) <$> topics b).

Fixpoint sweep_partitions (now : Z) (ps : list (string * nat)) : BrokerM Z :=
  match ps with
  | [] => mret 0
  | (topic, i) :: ps' =>
      b ← broker;
      removed ← on_partition topic i
        (Partition_retention_sweep now (retention_max_age_ms b) (retention_max_partition_bytes b));
      more ← sweep_partitions now ps';
      mret (removed + more)
  end.

Definition Broker_retention_sweep (now : Z) : BrokerM Z :=
  b ← broker;
  sweep_partitions now (all_partitions b).

(** [stats()] of a topic: partitions, high watermarks, bytes. *)
Record TopicStats := mkTopicStats { ts_partitions : Z; ts_high_watermarks : list Z; ts_size_bytes : Z }.

Definition sum_Z (l : list Z) : Z := foldr Z.add 0 l.

Definition topic_stats (parts : list CommitLog) : TopicStats :=
  mkTopicStats (len parts) (Partition_high_watermark <$> parts) (sum_Z (Partition_size_bytes <$> parts)).

(** Topics, sorted group names, total bytes. *)
Definition Broker_stats (b : Broker) : list (string * TopicStats) * list string * Z :=
  let ts := (λ tp, (tp.1, topic_stats tp.2)) <$> topics b in
  (ts, merge_sort String.le (fst <$> groups b), sum_Z ((λ t, ts_size_bytes t.2) <$> ts)).

(** The entries of a topic directory that count as partitions. *)
Definition partition_count (entries : gset string) : nat :=
  length (filter (λ e, String.prefix "p" e = true) (elements entries)).

(** [Broker(data_dir, ...)]: the directories found are opened in name order. *)
Definition reopen_topic (d : DataDir) (name : string) : BrokerM () :=
  let count := partition_count (dom (default ∅ (dd_topics d !! name))) in
  when (negb (count =? 0)%nat) (Broker_open_topic name count).

Definition Broker_init : BrokerM () :=
  d ← gets fst;
  for_each (merge_sort String.le (elements (dom (dd_topics d) : gset string))) (reopen_topic d).

Definition Broker_new (partitions segment_bytes interval : Z) (max_age max_bytes : option Z) : Broker :=
  mkBroker partitions segment_bytes interval max_age max_bytes [] [] 0.

(** Three messages over two partitions, a commit and the lag it leaves. *)
Definition demo_broker : (Exn + (list Produced * list Fetched * Z)) * (DataDir * Broker) :=
  (a ← Broker_produce "t" [x61] None (Some 1) 0;
   b ← Broker_produce "t" [xff] None (Some 2) 0;
   c ← Broker_produce "t" [x63] None None 3;
   m ← Broker_fetch "t" 0 (-1) 100;
   _ ← Broker_commit "g" "t" 0 0;
   k ← Broker_lag "g" "t" (-2);
   mret ([a; b; c], m, k)) (mkData ∅ ∅, Broker_new 2 100 16 None None).

Example demo_broker_runs :
  demo_broker.1 = inr ([mkProduced "t" 0 0; mkProduced "t" 1 0; mkProduced "t" 0 1],
    [mkFetched 0 1 "a"; mkFetched 1 3 "c"], 2).
Proof. vm_compute. reflexivity. Qed.
