(* ===== verification/BrokerFacts.v ===== *)
(** * The broker keeps every partition's log

    Proved against the contract of the commit log.  The abstract state maps each
    topic to the first retained offset and the records of each partition. *)
From stdpp Require Import sorting.
From S2P Require Import Prelude Bytes Crc32 LogRecord FileSystem Segment SegmentFacts CommitLog CommitLogFacts LogSpec Unicode Json JsonFacts Broker.
Local Open Scope Z_scope.

(** ** Dictionaries *)

Lemma dict_get_set {V} k (v : V) d : dict_get k (dict_set k v d) = Some v.
Proof.
  induction d as [|[k' v'] d IH]; cbn; [by rewrite bool_decide_eq_true_2|].
  case_bool_decide as E; cbn; [by rewrite bool_decide_eq_true_2|by rewrite bool_decide_eq_false_2].
Qed.

Lemma dict_get_set_ne {V} k k' (v : V) d : k' ≠ k → dict_get k' (dict_set k v d) = dict_get k' d.
Proof.
  intros Hne. induction d as [|[k0 v0] d IH]; cbn; [by rewrite bool_decide_eq_false_2|].
  case_bool_decide as E; cbn.
  - subst. by rewrite !bool_decide_eq_false_2.
  - by rewrite IH.
Qed.

Lemma dict_set_keys {V} k (v : V) d :
  fst <$> dict_set k v d = if decide (k ∈ d.*1) then d.*1 else d.*1 ++ [k].
Proof.
  induction d as [|[k' v'] d IH]; [done|]. cbn [dict_set]. case_bool_decide as E.
  - subst. rewrite decide_True by left. done.
  - rewrite !fmap_cons, IH. cbn [fst]. destruct (decide (k ∈ d.*1)) as [Hk|Hk].
    + rewrite decide_True by by right. done.
    + rewrite decide_False; [done|]. intros [Heq|Hin]%elem_of_cons; [by apply E|done].
Qed.

Lemma dict_set_nodup {V} k (v : V) d : NoDup d.*1 → NoDup (dict_set k v d).*1.
Proof.
  intros Hnd. rewrite dict_set_keys. case_decide as E; [done|].
  apply NoDup_app. split_and!; [done| |apply NoDup_singleton].
  intros x Hx ->%list_elem_of_singleton. done.
Qed.

Lemma dict_get_keys {V} k (d : list (string * V)) : is_Some (dict_get k d) ↔ k ∈ d.*1.
Proof.
  induction d as [|[k' v'] d IH]; cbn.
  - split; [by intros []|by intros ?%elem_of_nil].
  - rewrite elem_of_cons. case_bool_decide as E; [subst; split; eauto|]. rewrite IH. split; [by right|].
    intros [->|]; [done|done].
Qed.

(** ** Directories of partitions *)

Lemma dec_inj a b : 0 <= a → 0 <= b → dec a = dec b → a = b.
Proof. intros Ha Hb E. rewrite <-(int_dec a), <-(int_dec b) by done. by rewrite E. Qed.

Lemma partition_dir_inj i j : partition_dir i = partition_dir j → i = j.
Proof. intros [= E]. apply dec_inj in E; lia. Qed.

Lemma partition_files_set t i files d : partition_files t i (set_partition_files t i files d) = files.
Proof.
  unfold partition_files, set_partition_files. cbn. rewrite lookup_insert_eq. cbn. by rewrite lookup_insert_eq.
Qed.

Lemma partition_files_set_ne t i t' j files d :
  (t, i) ≠ (t', j) → partition_files t' j (set_partition_files t i files d) = partition_files t' j d.
Proof.
  intros Hne. unfold partition_files, set_partition_files. cbn. destruct (decide (t' = t)) as [->|Ht].
  - rewrite lookup_insert_eq. cbn. rewrite lookup_insert_ne; [by destruct (dd_topics d !! t)|].
    intros E%partition_dir_inj. congruence.
  - by rewrite lookup_insert_ne.
Qed.

(** The directory entries of a topic with [n] partitions. *)
Definition topic_entries (n : nat) : gset string := list_to_set (partition_dir <$> seq 0 n).

Lemma topic_entries_elem n i : partition_dir i ∈ topic_entries n ↔ (i < n)%nat.
Proof.
  unfold topic_entries. rewrite elem_of_list_to_set, list_elem_of_fmap. split.
  - intros (j & E & Hj). apply partition_dir_inj in E as ->. rewrite elem_of_seq in Hj. lia.
  - intros Hi. exists i. split; [done|]. rewrite elem_of_seq. lia.
Qed.

Lemma topic_entries_size n : size (topic_entries n) = n.
Proof.
  unfold topic_entries. rewrite size_list_to_set; [by rewrite length_fmap, length_seq|].
  apply NoDup_fmap; [intros i j; apply partition_dir_inj|apply NoDup_seq].
Qed.

(** Each of them counts as a partition. *)
Lemma topic_entries_count n : partition_count (topic_entries n) = n.
Proof.
  unfold partition_count. rewrite list_filter_all.
  - rewrite <-(topic_entries_size n) at 2. done.
  - intros x Hx%elem_of_elements. unfold topic_entries in Hx.
    rewrite elem_of_list_to_set, list_elem_of_fmap in Hx. destruct Hx as (i & -> & _).
    apply string_prefix_app.
Qed.

(** ** The invariant *)

(** Per partition: the first retained offset and the records. *)
Abbreviation Contents := (gmap string (list (Z * list LogRec))).

Section repr.
Context {repr : LogState → Z → list LogRec → Prop} `{!CommitLogSpec repr}.

(** The open partitions of a topic hold the logs [ks], and its directory holds those
    partitions and nothing else. *)
Record topic_repr (d : DataDir) (t : string) (parts : list CommitLog) (ks : list (Z * list LogRec)) : Prop := {
  tr_length : length parts = length ks;
  tr_pos : (0 < length ks)%nat;
  tr_logs i l k : parts !! i = Some l → ks !! i = Some k → repr (partition_files t i d, l) k.1 k.2;
  tr_dir : dom (default ∅ (dd_topics d !! t)) = topic_entries (length ks);
}.

Record broker_repr (s : DataDir * Broker) (K : Contents) : Prop := {
  br_nodup : NoDup (topics s.2).*1;
  br_open t : is_Some (dict_get t (topics s.2)) ↔ is_Some (K !! t);
  br_topics t parts ks : dict_get t (topics s.2) = Some parts → K !! t = Some ks → topic_repr s.1 t parts ks;
  br_dirs : dom (dd_topics s.1) = dom K;
  br_default : 1 <= default_partitions s.2;
}.

(** What the operations on one partition leave alone. *)
Definition same_rest (s s' : DataDir * Broker) : Prop :=
  dd_groups s'.1 = dd_groups s.1 ∧
  s'.2 = s.2 <| topics := topics s'.2 |>.

Lemma topic_repr_frame d t i files t' parts ks :
  t' ≠ t → topic_repr d t' parts ks → topic_repr (set_partition_files t i files d) t' parts ks.
Proof.
  intros Hne [H1 H2 H3 H4]. constructor; [done|done| |].
  - intros j l k Hl Hk. rewrite partition_files_set_ne by congruence. by apply H3.
  - unfold set_partition_files. cbn. by rewrite lookup_insert_ne.
Qed.

Lemma topic_repr_set d t parts ks i files l k :
  topic_repr d t parts ks → (i < length ks)%nat → repr (files, l) k.1 k.2 →
  topic_repr (set_partition_files t i files d) t (<[i := l]> parts) (<[i := k]> ks).
Proof.
  intros [H1 H2 H3 H4] Hi Hr. constructor.
  - by rewrite !length_insert.
  - by rewrite length_insert.
  - intros j l' k' Hl Hk. destruct (decide (j = i)) as [->|Hne].
    + rewrite list_lookup_insert_eq in Hl by lia. rewrite list_lookup_insert_eq in Hk by lia.
      injection Hl as <-. injection Hk as <-. by rewrite partition_files_set.
    + rewrite list_lookup_insert_ne in Hl by done. rewrite list_lookup_insert_ne in Hk by done.
      rewrite partition_files_set_ne by congruence. by apply H3.
  - unfold set_partition_files. cbn. rewrite lookup_insert_eq, length_insert. cbn.
    rewrite dom_insert_L, H4. apply set_eq. intros x. rewrite elem_of_union, elem_of_singleton.
    split; [|by right]. intros [->|?]; [by apply topic_entries_elem|done].
Qed.

Lemma br_lookup s K t ks i k :
  broker_repr s K → K !! t = Some ks → ks !! i = Some k →
  ∃ parts l, dict_get t (topics s.2) = Some parts ∧ parts !! i = Some l ∧
    topic_repr s.1 t parts ks ∧ repr (partition_files t i s.1, l) k.1 k.2.
Proof.
  intros Hbr HK Hk. destruct (proj2 (br_open _ _ Hbr t) (mk_is_Some _ _ HK)) as [parts Hp].
  pose proof (br_topics _ _ Hbr _ _ _ Hp HK) as Ht.
  destruct (lookup_lt_is_Some_2 parts i) as [l Hl].
  { rewrite (tr_length _ _ _ _ Ht). by eapply lookup_lt_Some. }
  exists parts, l. split_and!; [done..|]. by apply (tr_logs _ _ _ _ Ht).
Qed.

(** An operation on one partition that keeps its log well formed. *)
Lemma on_partition_spec {A} s K t ks i k (op : LogM A) (Q : A → Z * list LogRec → Prop) :
  broker_repr s K → K !! t = Some ks → ks !! i = Some k →
  (∀ st, repr st k.1 k.2 → returns op st (λ x st', ∃ k', repr st' k'.1 k'.2 ∧ Q x k')) →
  returns (on_partition t i op) s (λ x s', ∃ k',
    broker_repr s' (<[t := <[i := k']> ks]> K) ∧ same_rest s s' ∧ Q x k').
Proof.
  destruct s as [d b]. intros Hbr HK Hk Hop.
  destruct (br_lookup _ _ _ _ _ _ Hbr HK Hk) as (parts & l & Hp & Hl & Ht & Hr). cbn [fst snd] in *.
  destruct (returns_inv _ _ _ (Hop _ Hr)) as (x & [files l'] & E & k' & Hr' & HQ).
  unfold on_partition, returns. rewrite Hp. cbn [mbind option_bind]. rewrite Hl, E. cbn [default].
  exists k'. split; [|by split_and!]. destruct Hbr as [Hnd Ho Htr Hd Hdef]. cbn [fst snd] in *.
  assert (i < length ks)%nat as Hi by by eapply lookup_lt_Some.
  constructor; cbn.
  - by apply dict_set_nodup.
  - intros t'. destruct (decide (t' = t)) as [->|Hne].
    + rewrite dict_get_set, lookup_insert_eq. split; eauto.
    + by rewrite dict_get_set_ne, lookup_insert_ne.
  - intros t' parts' ks' Hp' HK'. destruct (decide (t' = t)) as [->|Hne].
    + rewrite dict_get_set in Hp'. rewrite lookup_insert_eq in HK'. injection Hp' as <-. injection HK' as <-.
      by apply topic_repr_set.
    + rewrite dict_get_set_ne in Hp' by done. rewrite lookup_insert_ne in HK' by done.
      apply topic_repr_frame; [done|]. by apply Htr.
  - unfold set_partition_files. cbn. by rewrite !dom_insert_L, Hd.
  - done.
Qed.

(** ** Opening topics *)

(** Opening a log over the files [fs] with the settings of [b] finds [k]. *)
Definition opens (b : Broker) (fs : FS) (k : Z * list LogRec) : Prop :=
  returns CommitLog_init (fs, mkLog (Z.max 1 (seg_bytes b)) (index_bytes_interval b) [] 0)
    (λ _ st, repr st k.1 k.2).

Lemma open_partition_spec t i d b k :
  opens b (partition_files t i d) k →
  returns (open_partition t i) (d, b) (λ l s', ∃ files,
    s' = (set_partition_files t i files d, b) ∧ repr (files, l) k.1 k.2).
Proof.
  intros Hopen. destruct (returns_inv _ _ _ Hopen) as (x & [files l] & E & Hr).
  unfold open_partition, returns, CommitLog_open. rewrite E. by exists files.
Qed.

(** The effect of opening the partitions [ids] of topic [t]. *)
Record opened (t : string) (ids : list nat) (d d' : DataDir) : Prop := {
  op_other t' : t' ≠ t → dd_topics d' !! t' = dd_topics d !! t';
  op_files i : i ∉ ids → partition_files t i d' = partition_files t i d;
  op_groups : dd_groups d' = dd_groups d;
  op_entries : dom (default ∅ (dd_topics d' !! t)) =
    dom (default ∅ (dd_topics d !! t)) ∪ list_to_set (partition_dir <$> ids);
  op_topics : dom (dd_topics d') = dom (dd_topics d) ∪ (if decide (ids = []) then ∅ else {[t]});
}.

Lemma opened_cons t i ids files d d' :
  i ∉ ids → opened t ids (set_partition_files t i files d) d' → opened t (i :: ids) d d'.
Proof.
  intros Hi [H1 H2 H3 H4 H5]. constructor.
  - intros t' Hne. rewrite H1 by done. unfold set_partition_files. cbn. by rewrite lookup_insert_ne.
  - intros j [Hne Hj]%not_elem_of_cons. rewrite H2 by done. apply partition_files_set_ne. congruence.
  - by rewrite H3.
  - rewrite H4. unfold set_partition_files. cbn. rewrite lookup_insert_eq. cbn. rewrite dom_insert_L.
    by rewrite (union_comm_L {[_]}), <-union_assoc_L.
  - rewrite H5. unfold set_partition_files. cbn [dd_topics update]. rewrite dom_insert_L.
    rewrite (decide_False (P:=_ :: _ = [])) by done. apply set_eq. intros x.
    rewrite !elem_of_union, elem_of_singleton. case_decide; [rewrite elem_of_empty|rewrite elem_of_singleton]; tauto.
Qed.

Lemma open_partitions_spec t (kf : nat → Z * list LogRec) ids : ∀ d b,
  NoDup ids → (∀ i, i ∈ ids → opens b (partition_files t i d) (kf i)) →
  returns (open_partitions t ids) (d, b) (λ ls s', s'.2 = b ∧ opened t ids d s'.1 ∧ length ls = length ids ∧
    ∀ j i l, ids !! j = Some i → ls !! j = Some l → repr (partition_files t i s'.1, l) (kf i).1 (kf i).2).
Proof.
  induction ids as [|i ids IH]; intros d b Hnd Hop; cbn [open_partitions].
  { apply returns_ret. split_and!; [done| |done|done]. constructor; [done..| |].
    - cbn. by rewrite union_empty_r_L.
    - by rewrite decide_True, union_empty_r_L. }
  apply NoDup_cons in Hnd as [Hi Hnd]. apply returns_bind.
  eapply returns_mono; [apply open_partition_spec, (Hop i); left|].
  intros l s' (files & -> & Hr). apply returns_bind. eapply returns_mono; [apply IH; [done|]|].
  { intros j Hj. rewrite partition_files_set_ne; [apply Hop; by right|]. intros [= ->]. done. }
  intros ls [d' b'] (Hb & Ho & Hlen & Hls). cbn [fst snd] in *. subst b'. apply returns_ret. cbn [fst snd].
  split_and!; [done|by eapply opened_cons|cbn; by rewrite Hlen|].
  intros [|j] i' l' Hi' Hl'; cbn in Hi', Hl'; [|by eapply Hls].
  injection Hi' as <-. injection Hl' as <-. rewrite (op_files _ _ _ _ Ho) by done. by rewrite partition_files_set.
Qed.

(** Opening a topic: the partitions that are there, or fresh ones. *)
Lemma open_topic_spec t n kf d b :
  (0 < n)%nat → (∀ i, (i < n)%nat → opens b (partition_files t i d) (kf i)) →
  dom (default ∅ (dd_topics d !! t)) ⊆ topic_entries n →
  returns (Broker_open_topic t n) (d, b) (λ _ s', ∃ parts,
    s'.2 = b <| topics := dict_set t parts (topics b) |> ∧ topic_repr s'.1 t parts (kf <$> seq 0 n) ∧
    opened t (seq 0 n) d s'.1).
Proof.
  intros Hn Hop Hsub. unfold Broker_open_topic. apply returns_bind.
  eapply returns_mono; [apply (open_partitions_spec t kf); [apply NoDup_seq|]|].
  { intros i Hi. rewrite elem_of_seq in Hi. apply Hop. lia. }
  intros ls [d' b'] (Hb & Ho & Hlen & Hls). cbn [fst snd] in *. subst b'.
  eapply returns_intro; [reflexivity|]. exists ls. split; [done|]. split; [|done].
  rewrite length_seq in Hlen. constructor; cbn [fst].
  - by rewrite length_fmap, length_seq.
  - by rewrite length_fmap, length_seq.
  - intros i l k Hl Hk. rewrite list_lookup_fmap in Hk.
    destruct (seq 0 n !! i) as [j|] eqn:E; [|done]. injection Hk as <-.
    pose proof E as Ej. apply lookup_seq in Ej as [-> _]. by eapply Hls.
  - rewrite (op_entries _ _ _ _ Ho), length_fmap, length_seq. by apply subseteq_union_1_L.
Qed.

(** A topic opened from nothing joins the others. *)
Lemma broker_add_topic d b d' K t ids parts ks :
  broker_repr (d, b) K → K !! t = None → ids ≠ [] → opened t ids d d' → topic_repr d' t parts ks →
  broker_repr (d', b <| topics := dict_set t parts (topics b) |>) (<[t := ks]> K).
Proof.
  intros [Hnd Ho Htr Hd Hdef] HK Hids Hop Ht. cbn [fst snd] in *. constructor; cbn [fst snd].
  - by apply dict_set_nodup.
  - intros t'. cbn. destruct (decide (t' = t)) as [->|Hne].
    + rewrite dict_get_set, lookup_insert_eq. split; eauto.
    + by rewrite dict_get_set_ne, lookup_insert_ne.
  - cbn. intros t' parts' ks' Hp' HK'. destruct (decide (t' = t)) as [->|Hne].
    + rewrite dict_get_set in Hp'. rewrite lookup_insert_eq in HK'. by simplify_eq.
    + rewrite dict_get_set_ne in Hp' by done. rewrite lookup_insert_ne in HK' by done.
      destruct (Htr _ _ _ Hp' HK') as [H1 H2 H3 H4].
      assert (∀ i, partition_files t' i d' = partition_files t' i d) as Hf.
      { intros i. unfold partition_files. by rewrite (op_other _ _ _ _ Hop). }
      constructor; [done|done| |by rewrite (op_other _ _ _ _ Hop)].
      intros i l k Hl Hk. rewrite Hf. by apply H3.
  - rewrite (op_topics _ _ _ _ Hop), decide_False, Hd, dom_insert_L by done. apply union_comm_L.
  - done.
Qed.

Definition fresh_topic (n : Z) : list (Z * list LogRec) := replicate (Z.to_nat n) (0, []).

Lemma fmap_const_seq {A} (x : A) n : ∀ j, (λ _, x) <$> seq j n = replicate n x.
Proof. induction n as [|n IH]; intros j; [done|]. cbn. by rewrite IH. Qed.

Lemma create_topic_spec s K t :
  broker_repr s K → K !! t = None →
  returns (Broker_create_topic t None) s (λ _ s',
    broker_repr s' (<[t := fresh_topic (default_partitions s.2)]> K) ∧ same_rest s s').
Proof.
  destruct s as [d b]. intros Hbr HK. pose proof (br_default _ _ Hbr) as Hdef. cbn [snd] in *.
  assert (dict_get t (topics b) = None) as Ht.
  { destruct (dict_get t (topics b)) eqn:E; [|done].
    destruct (proj1 (br_open _ _ Hbr t) (mk_is_Some _ _ E)). congruence. }
  assert (dd_topics d !! t = None) as Hd.
  { apply not_elem_of_dom. change (dd_topics d) with (dd_topics (d, b).1). rewrite (br_dirs _ _ Hbr).
    by apply not_elem_of_dom. }
  unfold Broker_create_topic. apply returns_bind. eapply returns_intro; [reflexivity|]. cbn [snd]. rewrite Ht.
  destruct (Z.ltb_spec (default_partitions b) 1); [lia|].
  eapply returns_mono; [apply (open_topic_spec t _ (λ _, (0, []))); [lia| |]|].
  - intros i _. unfold partition_files. rewrite Hd. by apply cl_create.
  - rewrite Hd. cbn. rewrite dom_empty_L. apply empty_subseteq.
  - intros _ [d' b'] (parts & Hb & Htr & Hop). cbn [fst snd] in *. subst b'. split.
    + unfold fresh_topic. eapply broker_add_topic; [done..| |exact Hop|].
      { intros E%(f_equal length). rewrite length_seq in E. cbn in E. lia. }
      by rewrite <-fmap_const_seq with (j := 0%nat).
    + split; cbn; [apply (op_groups _ _ _ _ Hop)|done].
Qed.

(** The partitions of a topic, created when it is first produced to. *)
Definition topic_contents (s : DataDir * Broker) (K : Contents) (t : string) : list (Z * list LogRec) :=
  default (fresh_topic (default_partitions s.2)) (K !! t).

Definition route (key : option string) (round n : Z) : Z :=
  match key with Some k => crc32 (bytes_of_str k) mod n | None => round mod n end.

Definition key_ok (key : option string) : Prop :=
  match key with Some k => utf8_valid (bytes_of_str k) = true | None => True end.

Lemma ensure_topic_spec s K t :
  broker_repr s K →
  returns (match dict_get t (topics s.2) with None => Broker_create_topic t None | Some _ => mret () end) s
    (λ _ s', broker_repr s' (<[t := topic_contents s K t]> K) ∧ same_rest s s').
Proof.
  intros Hbr. unfold topic_contents. destruct (K !! t) as [ks|] eqn:HK; cbn [default].
  - destruct (proj2 (br_open _ _ Hbr t) (mk_is_Some _ _ HK)) as [parts ->].
    apply returns_ret. rewrite insert_id by done. split; [done|]. split; [done|]. by destruct s as [? []].
  - destruct (dict_get t (topics s.2)) eqn:E; [|by apply create_topic_spec].
    destruct (proj1 (br_open _ _ Hbr t) (mk_is_Some _ _ E)). congruence.
Qed.

Lemma same_rest_trans s1 s2 s3 : same_rest s1 s2 → same_rest s2 s3 → same_rest s1 s3.
Proof.
  intros [H1 H2] [H3 H4]. split; [by rewrite H3|]. rewrite H4, H2. done.
Qed.

Lemma choose_partition_spec key n d b :
  key_ok key →
  choose_partition key n (d, b) = (inr (route key (rr b) n),
    (d, match key with Some _ => b | None => b <| rr := rr b + 1 |> end)).
Proof. destruct key as [k|]; [|done]. intros Hk. unfold choose_partition. cbn in Hk. by rewrite Hk. Qed.

Lemma broker_repr_rr d b K x : broker_repr (d, b) K → broker_repr (d, b <| rr := x |>) K.
Proof. intros [H1 H2 H3 H4 H5]. by constructor. Qed.

(** ** Produce and fetch *)

Lemma route_bound key x n : 0 < n → 0 <= route key x n < n.
Proof. intros Hn. destruct key; apply Z.mod_pos_bound; lia. Qed.

Lemma route_lookup (ks : list (Z * list LogRec)) key x :
  (0 < length ks)%nat → is_Some (ks !! Z.to_nat (route key x (len ks))).
Proof.
  intros Hk. apply lookup_lt_is_Some_2. pose proof (route_bound key x (len ks)). unfold len in *. lia.
Qed.

Lemma produce_spec s K t payload key timestamp now first rs :
  broker_repr s K → key_ok key →
  let ks := topic_contents s K t in
  let i := route key (rr s.2) (len ks) in
  ks !! Z.to_nat i = Some (first, rs) →
  let r := mkRec (first + len rs) (default now timestamp) payload in
  rec_ok r → log_fits (rs ++ [r]) →
  returns (Broker_produce t payload key timestamp now) s (λ p s',
    p = mkProduced t i (first + len rs) ∧
    broker_repr s' (<[t := <[Z.to_nat i := (first, rs ++ [r])]> ks]> K) ∧
    rr s'.2 = (match key with None => rr s.2 + 1 | Some _ => rr s.2 end) ∧
    dd_groups s'.1 = dd_groups s.1 ∧ groups s'.2 = groups s.2).
Proof.
  intros Hbr Hkey ks i Hi r Hr Hfit. unfold Broker_produce.
  apply returns_bind. eapply returns_intro; [reflexivity|]. apply returns_bind.
  eapply returns_mono; [by apply (ensure_topic_spec s K t)|]. intros _ [d b] [Hbr1 [Hg Hb]].
  apply returns_bind. eapply returns_intro; [reflexivity|]. cbn [snd fst] in *. fold ks in Hbr1.
  assert (rr b = rr s.2) as Hrr by by rewrite Hb.
  assert (groups b = groups s.2) as Hgs by by rewrite Hb.
  destruct (br_lookup _ _ t ks _ _ Hbr1 (lookup_insert_eq _ _ _) Hi) as (parts & l & Hp & Hl & Ht & _).
  cbn [snd] in Hp. rewrite Hp. clear Hb Hp.
  assert (len parts = len ks) as Hlen by (unfold len; by rewrite (tr_length _ _ _ _ Ht)).
  rewrite Hlen. apply returns_bind.
  eapply returns_intro; [by apply choose_partition_spec|]. rewrite Hrr. fold i. apply returns_bind.
  set (b1 := match key with Some _ => _ | None => _ end).
  assert (broker_repr (d, b1) (<[t := ks]> K)) as Hbr2 by (destruct key; [done|by apply broker_repr_rr]).
  eapply returns_mono.
  { apply (on_partition_spec (d, b1) _ t ks _ (first, rs) _
      (λ o k', o = first + len rs ∧ k' = (first, rs ++ [r])) Hbr2 (lookup_insert_eq _ _ _) Hi).
    intros st Hst. eapply returns_mono; [by apply (cl_append st first rs)|].
    intros o st' [-> Hst']. by exists (first, rs ++ [r]). }
  intros o s' (k' & Hbr' & [Hg' Hb'] & -> & ->). apply returns_ret. cbn [fst snd] in *.
  rewrite insert_insert_eq in Hbr'. split_and!; [done|done| |by rewrite Hg'|].
  - rewrite Hb'. by destruct key.
  - rewrite Hb'. by destruct key.
Qed.

(** The records [read_after] returns: nothing when it starts below the first
    retained offset. *)
Definition after_records (after limit first : Z) (rs : list LogRec) : list LogRec :=
  let start := if 0 <=? after then after + 1 else 0 in
  if start <? first then [] else take (Z.to_nat limit) (drop (Z.to_nat (start - first)) rs).

Lemma read_after_spec st first rs after limit :
  repr st first rs → Partition_read_after after limit st = (inr (after_records after limit first rs), st).
Proof.
  intros Hst. unfold Partition_read_after, after_records. set (start := if 0 <=? after then after + 1 else 0).
  destruct (Z.ltb_spec start first) as [Hlt|Hge].
  - destruct (Z.to_nat limit) as [|k]; [done|]. cbn [read_range_loop].
    erewrite bind_ok; [|by eapply cl_read]. by rewrite bool_decide_eq_false_2 by lia.
  - by apply (cl_read_range st).
Qed.

Lemma fetch_spec s K t p ks first rs after limit :
  broker_repr s K → K !! t = Some ks → 0 <= p < len ks → ks !! Z.to_nat p = Some (first, rs) →
  returns (Broker_fetch t p after limit) s (λ out s',
    out = fetched <$> after_records after limit first rs ∧ broker_repr s' K ∧ same_rest s s').
Proof.
  intros Hbr HK Hp Hk. unfold Broker_fetch. apply returns_bind. eapply returns_intro; [reflexivity|].
  destruct (br_lookup _ _ _ _ _ _ Hbr HK Hk) as (parts & l & Hparts & Hl & Ht & _). rewrite Hparts.
  assert (len parts = len ks) as -> by (unfold len; by rewrite (tr_length _ _ _ _ Ht)).
  destruct (Z.leb_spec 0 p); [|lia]. destruct (Z.ltb_spec p (len ks)); [|lia]. cbn [andb].
  apply returns_bind. eapply returns_mono.
  { apply (on_partition_spec s _ t ks _ (first, rs) _
      (λ x k', x = after_records after limit first rs ∧ k' = (first, rs)) Hbr HK Hk).
    intros st Hst. eapply returns_intro; [by apply read_after_spec|]. by exists (first, rs). }
  intros out s' (k' & Hbr' & Hs & -> & ->). apply returns_ret. split_and!; [done| |done].
  by rewrite (list_insert_id ks), insert_id in Hbr'.
Qed.

(** In a numbered list, dropping below an offset is filtering by it. *)
Lemma drop_filter_offsets first rs o :
  contiguous first rs → first <= o + 1 → drop (Z.to_nat (o + 1 - first)) rs = filter (λ r, o < rec_offset r) rs.
Proof.
  revert first. induction rs as [|r rs IH]; intros first Hc Ho; [by rewrite drop_nil|].
  pose proof (Hc O r eq_refl) as Hr. cbn in Hr. rewrite Z.add_0_r in Hr.
  assert (contiguous (first + 1) rs) as Hc'.
  { intros i x Hi. rewrite (Hc (S i) x Hi). lia. }
  destruct (decide (first = o + 1)) as [->|Hne].
  - rewrite Z.sub_diag. cbn [Z.to_nat drop]. symmetry. apply list_filter_all.
    intros x [i Hi]%list_elem_of_lookup. rewrite (Hc _ _ Hi). lia.
  - rewrite filter_cons_False by lia. rewrite <-(IH (first + 1)) by (done || lia).
    replace (Z.to_nat (o + 1 - first)) with (S (Z.to_nat (o + 1 - (first + 1)))) by lia. done.
Qed.

(** The first offset a fetch looks for. *)
Lemma start_after after : (if 0 <=? after then after + 1 else 0) = Z.max 0 (after + 1).
Proof. destruct (Z.leb_spec 0 after); lia. Qed.

Lemma after_records_filter after limit first rs :
  0 <= first → contiguous first rs →
  after_records after limit first rs =
    if Z.max 0 (after + 1) <? first then [] else take (Z.to_nat limit) (filter (λ r, after < rec_offset r) rs).
Proof.
  intros Hf Hc. unfold after_records. rewrite start_after. destruct (Z.ltb_spec (Z.max 0 (after + 1)) first) as [|Hge]; [done|].
  f_equal. destruct (decide (0 <= after + 1)).
  - rewrite Z.max_r in * by lia. by apply drop_filter_offsets.
  - rewrite Z.max_l in * by lia. assert (first = 0) as -> by lia. rewrite list_filter_all; [done|].
    intros x [i Hi]%list_elem_of_lookup. rewrite (Hc _ _ Hi). lia.
Qed.

(** What [want] records from offset [o] on are, in a partition that starts at [first]. *)
Definition next_records (o : Z) (want : nat) (first : Z) (rs : list LogRec) : list LogRec :=
  if o <? first then [] else take want (drop (Z.to_nat (o - first)) rs).

Lemma after_next o limit first rs :
  0 <= o → after_records (o - 1) limit first rs = next_records o (Z.to_nat limit) first rs.
Proof.
  intros Ho. unfold after_records, next_records. rewrite start_after. replace (Z.max 0 (o - 1 + 1)) with o by lia. done.
Qed.

(** The last of them is the one before the next offset. *)
Lemma last_next o want first rs r :
  contiguous first rs → last (next_records o want first rs) = Some r →
  rec_offset r = o + len (next_records o want first rs) - 1.
Proof.
  intros Hc Hl. rewrite last_lookup in Hl. pose proof (lookup_lt_Some _ _ _ Hl) as Hlt.
  unfold len. revert Hl Hlt. unfold next_records. destruct (Z.ltb_spec o first); [done|].
  intros [Hr _]%lookup_take_Some Hlt. rewrite lookup_drop in Hr. rewrite (Hc _ _ Hr). lia.
Qed.

(** The first [m], then the next [n]. *)
Lemma next_records_app o m n first rs :
  let recs := next_records o m first rs in
  next_records o (m + n) first rs = recs ++ next_records (o + len recs) n first rs.
Proof.
  cbv zeta. unfold next_records. destruct (Z.ltb_spec o first) as [Hlt|Hge].
  { cbn. rewrite len_nil. by destruct (Z.ltb_spec (o + 0) first); [|lia]. }
  pose proof (len_nonneg (take m (drop (Z.to_nat (o - first)) rs))).
  destruct (Z.ltb_spec (o + len (take m (drop (Z.to_nat (o - first)) rs))) first); [lia|].
  rewrite <-take_take_drop. f_equal. unfold len. rewrite length_take.
  set (l := drop (Z.to_nat (o - first)) rs).
  replace (Z.to_nat (o + _ - first)) with (Z.to_nat (o - first) + m `min` length l)%nat by lia.
  rewrite <-drop_drop. fold l. destruct (decide (m ≤ length l)%nat); [by rewrite Nat.min_l|].
  rewrite Nat.min_r, !drop_ge by lia. by rewrite take_nil.
Qed.

(** ** Retention *)

Definition trimmed (k k' : Z * list LogRec) : Prop :=
  ∃ n, (n ≤ length k.2)%nat ∧ k' = (k.1 + Z.of_nat n, drop n k.2).

#[global] Instance trimmed_preorder : PreOrder trimmed.
Proof.
  split.
  - intros [f rs]. exists O. cbn. split; [lia|]. by rewrite Z.add_0_r.
  - intros [f rs] k2 k3 (n & Hn & ->) (m & Hm & ->). cbn in *. rewrite length_drop in Hm.
    exists (n + m)%nat. cbn. split; [lia|]. rewrite drop_drop. f_equal. lia.
Qed.

Lemma sweep_before_spec st k m :
  repr st k.1 k.2 →
  returns (CommitLog_truncate_segments_before m) st (λ removed st',
    ∃ k', repr st' k'.1 k'.2 ∧ trimmed k k' ∧ 0 <= removed).
Proof.
  intros Hst. eapply returns_mono; [by apply (cl_sweep st k.1 k.2 m)|].
  intros removed st' (Hr & n & Hst' & Hn & _). exists (k.1 + Z.of_nat n, drop n k.2).
  split_and!; [done|by exists n|done].
Qed.

Lemma expired_count_lt now age segs : expired_count now age segs = O ∨ (expired_count now age segs < length segs)%nat.
Proof.
  induction segs as [|g segs IH]; [by left|]. cbn. destruct segs as [|g' segs]; [by left|].
  case_match; [|by left]. right. destruct IH as [-> | IH]; cbn in *; lia.
Qed.

Lemma sweep_by_age_spec st k now age :
  repr st k.1 k.2 →
  returns (sweep_by_age now age) st (λ removed st', ∃ k', repr st' k'.1 k'.2 ∧ trimmed k k' ∧ 0 <= removed).
Proof.
  intros Hst. unfold sweep_by_age. apply returns_bind. eapply returns_intro; [reflexivity|].
  assert (∃ k', repr st k'.1 k'.2 ∧ trimmed k k' ∧ 0 <= 0) as Hid by (exists k; split_and!; [done|done|lia]).
  destruct age as [age|]; [|by apply returns_ret].
  destruct (expired_count_lt now age (segments st.2)) as [->|Hlt]; [by apply returns_ret|].
  destruct (expired_count _ _ _) as [|n]; [by apply returns_ret|].
  destruct (lookup_lt_is_Some_2 (segments st.2) n) as [g ->]; [lia|]. by apply sweep_before_spec.
Qed.

Lemma sweep_by_size_spec fuel total : ∀ st k,
  repr st k.1 k.2 →
  returns (sweep_by_size fuel total) st (λ removed st', ∃ k', repr st' k'.1 k'.2 ∧ trimmed k k' ∧ 0 <= removed).
Proof.
  induction fuel as [|fuel IH]; intros st k Hst; cbn [sweep_by_size].
  { apply returns_ret. exists k. split_and!; [done|done|lia]. }
  apply returns_bind. eapply returns_intro; [reflexivity|].
  assert (∃ k', repr st k'.1 k'.2 ∧ trimmed k k' ∧ 0 <= 0) as Hid by (exists k; split_and!; [done|done|lia]).
  destruct (segments st.2) as [|g0 [|g1 gs]]; [by apply returns_ret..|].
  destruct (_ <=? _); [by apply returns_ret|].
  apply returns_bind. eapply returns_mono; [by apply sweep_before_spec|]. intros _ st1 (k1 & Hst1 & H1 & _).
  apply returns_bind. eapply returns_mono; [by apply IH|]. intros r st2 (k2 & Hst2 & H2 & Hr).
  apply returns_ret. exists k2. split_and!; [done|by etrans|lia].
Qed.

Lemma retention_sweep_spec st k now age total :
  repr st k.1 k.2 →
  returns (Partition_retention_sweep now age total) st (λ removed st',
    ∃ k', repr st' k'.1 k'.2 ∧ trimmed k k' ∧ 0 <= removed).
Proof.
  intros Hst. unfold Partition_retention_sweep. apply returns_bind.
  eapply returns_mono; [by apply sweep_by_age_spec|]. intros r1 st1 (k1 & Hst1 & H1 & Hr1).
  destruct total as [total|]; [|apply returns_ret; by exists k1].
  apply returns_bind. eapply returns_intro; [reflexivity|]. apply returns_bind.
  eapply returns_mono; [by apply sweep_by_size_spec|]. intros r2 st2 (k2 & Hst2 & H2 & Hr2).
  apply returns_ret. exists k2. split_and!; [done|by etrans|lia].
Qed.

(** Each partition keeps a suffix of its records. *)
Definition contents_trimmed (K K' : Contents) : Prop :=
  ∀ t, option_Forall2 (Forall2 trimmed) (K !! t) (K' !! t).

#[global] Instance contents_trimmed_preorder : PreOrder contents_trimmed.
Proof. split; [intros K t; reflexivity|intros K1 K2 K3 H1 H2 t; etrans; [apply H1|apply H2]]. Qed.

Lemma contents_trimmed_insert K t ks i k k' :
  K !! t = Some ks → ks !! i = Some k → trimmed k k' → contents_trimmed K (<[t := <[i := k']> ks]> K).
Proof.
  intros HK Hk Ht t'. destruct (decide (t' = t)) as [->|Hne].
  - rewrite HK, lookup_insert_eq. constructor. rewrite <-(list_insert_id ks i k Hk) at 1.
    by apply Forall2_insert.
  - rewrite lookup_insert_ne by done. reflexivity.
Qed.

Definition has_partition (K : Contents) (ti : string * nat) : Prop :=
  ∃ ks k, K !! ti.1 = Some ks ∧ ks !! ti.2 = Some k.

Lemma has_partition_trimmed K K' ti : contents_trimmed K K' → has_partition K ti → has_partition K' ti.
Proof.
  intros Ht (ks & k & HK & Hk). specialize (Ht ti.1). rewrite HK in Ht.
  inversion Ht as [? ks' Hks HK1 HK2|]; subst.
  destruct (Forall2_lookup_l _ _ _ _ _ Hks Hk) as (k' & Hk' & _). by exists ks', k'.
Qed.

Lemma sweep_partitions_spec now ps : ∀ s K,
  broker_repr s K → Forall (has_partition K) ps →
  returns (sweep_partitions now ps) s (λ removed s', ∃ K',
    broker_repr s' K' ∧ contents_trimmed K K' ∧ same_rest s s' ∧ 0 <= removed).
Proof.
  induction ps as [|[t i] ps IH]; intros s K Hbr Hps; cbn [sweep_partitions].
  { apply returns_ret. exists K. split_and!; [done|done| |lia]. split; [done|by destruct s as [? []]]. }
  apply Forall_cons in Hps as [(ks & k & HK & Hk) Hps]. cbn [fst snd] in *.
  apply returns_bind. eapply returns_intro; [reflexivity|]. apply returns_bind.
  eapply returns_mono.
  { eapply (on_partition_spec s K t ks i k _ (λ r k', trimmed k k' ∧ 0 <= r)); [done..|].
    intros st Hst. eapply returns_mono; [by apply retention_sweep_spec|]. naive_solver. }
  intros r1 s1 (k' & Hbr1 & Hs1 & Ht & Hr1). pose proof (contents_trimmed_insert _ _ _ _ _ _ HK Hk Ht) as HK1.
  apply returns_bind. eapply returns_mono.
  { apply IH; [exact Hbr1|]. eapply Forall_impl; [exact Hps|]. intros ti. by apply has_partition_trimmed. }
  intros r2 s2 (K2 & Hbr2 & HK2 & Hs2 & Hr2). apply returns_ret. exists K2.
  split_and!; [done|by etrans|by eapply same_rest_trans|lia].
Qed.

Lemma dict_get_in {V} (d : list (string * V)) k v : NoDup d.*1 → (k, v) ∈ d → dict_get k d = Some v.
Proof.
  induction d as [|[k' v'] d IH]; intros Hnd Hin; [by apply elem_of_nil in Hin|].
  rewrite fmap_cons in Hnd. apply NoDup_cons in Hnd as [Hk Hnd]. cbn.
  apply elem_of_cons in Hin as [[= -> ->]|Hin]; [by rewrite bool_decide_eq_true_2|].
  rewrite bool_decide_eq_false_2; [by apply IH|]. intros ->. apply Hk.
  apply (list_elem_of_fmap_2 fst _ _ Hin).
Qed.

Lemma all_partitions_spec s K : broker_repr s K → Forall (has_partition K) (all_partitions s.2).
Proof.
  intros Hbr. unfold all_partitions. apply Forall_forall. intros [t i] Hin.
  rewrite list_elem_of_In, in_concat in Hin.
  destruct Hin as (l & Hl%list_elem_of_In & Hin%list_elem_of_In). apply list_elem_of_fmap in Hl as ([t' parts] & -> & Hl).
  apply list_elem_of_fmap in Hin as (j & [= -> ->] & Hj). rewrite elem_of_seq in Hj. cbn [fst snd] in *.
  pose proof (dict_get_in _ _ _ (br_nodup _ _ Hbr) Hl) as Hp.
  destruct (proj1 (br_open _ _ Hbr t') (mk_is_Some _ _ Hp)) as [ks HK].
  destruct (lookup_lt_is_Some_2 ks j) as [k Hk].
  { rewrite <-(tr_length _ _ _ _ (br_topics _ _ Hbr _ _ _ Hp HK)). lia. }
  by exists ks, k.
Qed.

Lemma broker_sweep_spec s K now :
  broker_repr s K →
  returns (Broker_retention_sweep now) s (λ removed s', ∃ K',
    broker_repr s' K' ∧ contents_trimmed K K' ∧ same_rest s s' ∧ 0 <= removed).
Proof.
  intros Hbr. unfold Broker_retention_sweep. apply returns_bind. eapply returns_intro; [reflexivity|].
  apply sweep_partitions_spec; [done|by apply all_partitions_spec].
Qed.

(** ** Restart *)

(** A data directory that holds [K]: the logs that opening it will find. *)
Record data_repr (b : Broker) (d : DataDir) (K : Contents) : Prop := {
  da_topics : dom (dd_topics d) = dom K;
  da_dir t ks : K !! t = Some ks → dom (default ∅ (dd_topics d !! t)) = topic_entries (length ks);
  da_pos t ks : K !! t = Some ks → (0 < length ks)%nat;
  da_logs t ks i k : K !! t = Some ks → ks !! i = Some k → opens b (partition_files t i d) k;
}.

Lemma broker_data s K b :
  broker_repr s K → (∀ t ks k, K !! t = Some ks → k ∈ ks → log_fits k.2) → data_repr b s.1 K.
Proof.
  intros Hbr Hfit.
  assert (∀ t ks, K !! t = Some ks → ∃ parts, topic_repr s.1 t parts ks) as Ht.
  { intros t ks HK. destruct (proj2 (br_open _ _ Hbr t) (mk_is_Some _ _ HK)) as [parts Hp].
    exists parts. by apply (br_topics _ _ Hbr). }
  constructor.
  - apply Hbr.
  - intros t ks [parts Htr]%Ht. apply Htr.
  - intros t ks [parts Htr]%Ht. apply Htr.
  - intros t ks i k HK Hk. destruct (br_lookup _ _ _ _ _ _ Hbr HK Hk) as (parts & l & _ & _ & _ & Hr).
    unfold opens. apply (cl_reopen _ _ _ _ _ Hr). eapply Hfit; [exact HK|]. by eapply list_elem_of_lookup_2.
Qed.

(** The topics opened so far. *)
Record loading (b0 : Broker) (d0 : DataDir) (K : Contents) (todo : list string) (s : DataDir * Broker) : Prop := {
  ld_nodup : NoDup (topics s.2).*1;
  ld_open t : is_Some (dict_get t (topics s.2)) ↔ is_Some (K !! t) ∧ t ∉ todo;
  ld_topics t parts ks : dict_get t (topics s.2) = Some parts → K !! t = Some ks → topic_repr s.1 t parts ks;
  ld_todo t : t ∈ todo → dd_topics s.1 !! t = dd_topics d0 !! t;
  ld_dirs : dom (dd_topics s.1) = dom K;
  ld_groups : dd_groups s.1 = dd_groups d0;
  ld_rest : s.2 = b0 <| topics := topics s.2 |>;
}.

Lemma partition_files_eq t i d d' :
  dd_topics d !! t = dd_topics d' !! t → partition_files t i d = partition_files t i d'.
Proof. intros E. unfold partition_files. by rewrite E. Qed.

(** One topic directory is opened. *)
Lemma loading_step b0 d0 K t todo ks s :
  data_repr b0 d0 K → loading b0 d0 K (t :: todo) s → t ∉ todo → K !! t = Some ks →
  returns (Broker_open_topic t (length ks)) s (λ _ s', loading b0 d0 K todo s').
Proof.
  destruct s as [d b]. intros Hd [Hnd Ho Htr Htodo Hdirs Hg Hrest] Ht HK. cbn [fst snd] in *.
  assert (dd_topics d !! t = dd_topics d0 !! t) as Et by (apply Htodo; left).
  eapply returns_mono; [apply (open_topic_spec t (length ks) (λ i, default (0, []) (ks !! i)))|].
  - by eapply da_pos.
  - intros i Hi. destruct (lookup_lt_is_Some_2 ks i Hi) as [k Hk]. rewrite Hk. cbn [default].
    rewrite (partition_files_eq t i d d0 Et). rewrite Hrest. by eapply (da_logs _ _ _ Hd).
  - rewrite Et, (da_dir _ _ _ Hd _ _ HK). done.
  - intros _ [d' b'] (parts & Hb & Htp & Hop). cbn [fst snd] in *.
    assert ((λ i, default (0, []) (ks !! i)) <$> seq 0 (length ks) = ks) as Eks.
    { apply list_eq. intros i. rewrite list_lookup_fmap. destruct (decide (i < length ks)%nat) as [Hi|Hi].
      - rewrite lookup_seq_lt by done. cbn. by destruct (lookup_lt_is_Some_2 ks i Hi) as [k ->].
      - rewrite lookup_seq_ge, lookup_ge_None_2 by lia. done. }
    rewrite Eks in Htp. assert (seq 0 (length ks) ≠ []) as Hne.
    { intros E%(f_equal length). rewrite length_seq in E. pose proof (da_pos _ _ _ Hd _ _ HK). cbn in E. lia. }
    assert (∀ t', t' ≠ t → dd_topics d' !! t' = dd_topics d !! t') as Hother by apply Hop.
    constructor; cbn [fst snd].
    + rewrite Hb. by apply dict_set_nodup.
    + intros t'. rewrite Hb. cbn. destruct (decide (t' = t)) as [->|Hnt].
      * rewrite dict_get_set. split; [by eauto|by eexists].
      * rewrite dict_get_set_ne, Ho, not_elem_of_cons by done. tauto.
    + intros t' parts' ks'. rewrite Hb. cbn. destruct (decide (t' = t)) as [->|Hnt].
      * rewrite dict_get_set. by intros; simplify_eq.
      * rewrite dict_get_set_ne by done. intros Hp HK'. destruct (Htr _ _ _ Hp HK') as [H1 H2 H3 H4].
        constructor; [done|done| |by rewrite Hother].
        intros i l k Hl Hk. rewrite (partition_files_eq _ _ d' d) by by apply Hother. by apply H3.
    + intros t' Hin. rewrite Hother by (intros ->; done). apply Htodo. by right.
    + rewrite (op_topics _ _ _ _ Hop), decide_False, Hdirs by done.
      apply set_eq. intros x. rewrite elem_of_union, elem_of_singleton. split; [|by left].
      intros [?| ->]; [done|]. apply elem_of_dom. by eexists.
    + by rewrite (op_groups _ _ _ _ Hop).
    + rewrite Hb. by rewrite Hrest.
Qed.

Lemma reopen_topics b0 d K names : ∀ s,
  data_repr b0 d K → NoDup names → (∀ t, t ∈ names → is_Some (K !! t)) → loading b0 d K names s →
  returns (for_each names (reopen_topic d)) s (λ _ s', loading b0 d K [] s').
Proof.
  induction names as [|t names IH]; intros s Hd Hnd Hin Hl; cbn [for_each]; [by apply returns_ret|].
  apply NoDup_cons in Hnd as [Ht Hnd]. destruct (Hin t) as [ks HK]; [left|].
  assert (reopen_topic d t = Broker_open_topic t (length ks)) as ->.
  { unfold reopen_topic. rewrite (da_dir _ _ _ Hd _ _ HK), topic_entries_count.
    pose proof (da_pos _ _ _ Hd _ _ HK). by destruct (Nat.eqb_spec (length ks) 0); [lia|]. }
  apply returns_bind. eapply returns_mono; [by eapply loading_step|]. intros [] s' Hl'.
  apply IH; [done|done| |done]. intros t' Ht'. apply Hin. by right.
Qed.

(** A new broker over the directory of an old one finds every log as it was. *)
Lemma broker_restart_spec b0 d K :
  data_repr b0 d K → topics b0 = [] → 1 <= default_partitions b0 →
  returns Broker_init (d, b0) (λ _ s', broker_repr s' K ∧ same_rest (d, b0) s').
Proof.
  intros Hd Htop Hdef. unfold Broker_init. apply returns_bind. eapply returns_intro; [reflexivity|]. cbn [fst].
  set (names := merge_sort String.le (elements (dom (dd_topics d) : gset string))).
  assert (∀ t, t ∈ names ↔ is_Some (K !! t)) as Hnames.
  { intros t. unfold names. by rewrite merge_sort_Permutation, elem_of_elements, (da_topics _ _ _ Hd), elem_of_dom. }
  eapply returns_mono; [apply (reopen_topics b0 d K); [done| |by intros t ?%Hnames|]|].
  - unfold names. rewrite merge_sort_Permutation. apply NoDup_elements.
  - constructor; cbn [fst snd]; rewrite ?Htop; [constructor| |done|done|apply Hd|done|by destruct b0; cbn in *; subst].
    intros t. rewrite Hnames. cbn. split; [by intros []|tauto].
  - intros _ s' [H1 H2 H3 _ H4 H5 H6]. split; [|done]. constructor; [done| |done|done|by rewrite H6].
    intros t. rewrite H2. split; [tauto|]. intros ?; split; [done|]. apply not_elem_of_nil.
Qed.
End repr.
