(* ===== verification/Api.v ===== *)
(** * The HTTP gateway (pylog/api.py)

    The routes of the handler, as computations over the broker.  A request has its
    path and query already parsed ([urlparse], [parse_qs]); the reply is a status and
    the value that is dumped, or the page, or says which text of the metrics registry is
    shown.  Sockets and headers are left out. *)
From stdpp Require Import sorting.
From Stdlib Require Import Ascii.
From S2P Require Import Prelude Bytes FileSystem Unicode CommitLog Json Broker.
Local Open Scope Z_scope.

Inductive Reply : Type :=
  | RJson (status : Z) (body : Json)
  | RPage (html : bytes)
  | RMetrics
  | RMetricsJson.

(** [[p for p in path.split("/") if p]] *)
Fixpoint split_path (cur s : string) : list string :=
  match s with
  | EmptyString => if bool_decide (cur = EmptyString) then [] else [String.rev cur]
  | String c s' =>
      if bool_decide (c = "/"%char)
      then (if bool_decide (cur = EmptyString) then [] else [String.rev cur]) ++ split_path EmptyString s'
      else split_path (String c cur) s'
  end.

Definition path_parts (path : string) : list string := split_path EmptyString path.

(** ** The dashboard

    The page as it is in the source, with ['] for its double quotes. *)
Definition double_quotes (s : string) : bytes := (λ c, if bool_decide (c = x27) then x22 else c) <$> bytes_of_str s.

Definition DASHBOARD_HTML : bytes := join [x0a] (double_quotes <$>
  ["<!doctype html>";
   "<html><head><title>pylog — dashboard</title>";
   "<meta charset='utf-8'><meta http-equiv='refresh' content='2'>";
   "<style>";
   " body{font-family:Consolas,monospace;background:#0d1117;color:#c9d1d9;margin:2rem}";
   " h1{color:#58a6ff} h2{color:#8b949e;margin-top:2rem} table{border-collapse:collapse;margin-top:1rem;width:100%}";
   " td,th{border:1px solid #30363d;padding:.4rem .8rem;text-align:left}";
   " th{background:#161b22}.ok{color:#3fb950}.num{text-align:right} a{color:#58a6ff}";
   " .badge{display:inline-block;padding:2px 8px;border-radius:999px;background:#21262d;border:1px solid #30363d;font-size:12px;margin-right:6px}";
   " .grid{display:grid;grid-template-columns:repeat(auto-fit,minmax(280px,1fr));gap:1rem}";
   " .card{border:1px solid #30363d;border-radius:8px;padding:1rem;background:#161b22}";
   "</style></head><body>";
   "<h1>pylog broker <span class='badge'>live</span> <span class='badge'>raft: durable</span> <span class='badge'>100/100</span></h1>";
   "<p><a href='/stats'>/stats JSON</a> · <a href='/metrics'>/metrics Prometheus</a> · <a href='/metrics/json'>/metrics/json</a> · <a href='/health'>/health</a></p>";
   "<div class='grid'>";
   " <div class='card'><h2>Topics</h2><table><tr><th>topic</th><th>partitions</th><th>high watermarks</th><th>bytes</th></tr>{rows}</table></div>";
   " <div class='card'><h2>Quick start</h2><pre>python cli.py produce orders 'pizza' --key u1";
   "python cli.py consume orders --follow";
   "curl http://127.0.0.1:8787/stats | jq</pre></div>";
   "</div>";
   "<p style='margin-top:2rem;color:#8b949e'>pylog v0.1.0 — Kafka-style log + Raft — stdlib only — <a href='https://github.com/rahulrajsinghwork15072005-a11y/pylog'>GitHub</a></p>";
   "</body></html>"]%string).

(** [s.replace(old, new)]: the occurrences of [old] from the left, apart from each other;
    [skip] bytes of one are still to be passed. *)
Fixpoint replace_from (old new : bytes) (skip : nat) (s : bytes) : bytes :=
  match s with
  | [] => []
  | c :: s' =>
      match skip with
      | S k => replace_from old new k s'
      | O =>
          if bool_decide (take (length old) s = old)
          then new ++ replace_from old new (length old - 1) s'
          else c :: replace_from old new 0 s'
      end
  end.

Definition bytes_replace (old new s : bytes) : bytes := replace_from old new 0 s.

(** [str(l)] of a list of integers. *)
Definition text_of_ints (l : list Z) : bytes := x5b :: join [x2c; x20] (json_int <$> l) ++ [x5d].

Definition dashboard_row (t : string * TopicStats) : bytes :=
  bytes_of_str "<tr><td>" ++ bytes_of_str t.1 ++ bytes_of_str "</td><td>" ++ json_int (ts_partitions t.2)
  ++ bytes_of_str "</td><td>" ++ text_of_ints (ts_high_watermarks t.2) ++ bytes_of_str "</td><td>"
  ++ json_int (ts_size_bytes t.2) ++ bytes_of_str "</td></tr>".

(** [_dashboard], with the topics in the order of their names. *)
Definition dashboard (b : Broker) : bytes :=
  let rows := dashboard_row <$> merge_sort (λ x y, String.le x.1 y.1) (Broker_stats b).1.1 in
  bytes_replace (bytes_of_str "{rows}") (join [x0a] rows) DASHBOARD_HTML.

Section api.
(** [str(exc)], and whether [global_metrics] could be imported. *)
Context (describe : Exn → string) (metrics : bool).

Definition json_ints (l : list Z) : Json := JArr (JInt <$> l).

Definition topic_items (t : TopicStats) : list (string * Json) :=
  [("partitions"%string, JInt (ts_partitions t)); ("high_watermarks"%string, json_ints (ts_high_watermarks t));
   ("size_bytes"%string, JInt (ts_size_bytes t))].

(** [broker.stats()] as JSON. *)
Definition stats_json (b : Broker) : Json :=
  let '(ts, gs, total) := Broker_stats b in
  JObj [("topics"%string, JObj ((λ t, (t.1, JObj (topic_items t.2))) <$> ts)); ("groups"%string, JArr (JStr <$> gs));
        ("total_size_bytes"%string, JInt total)].

Definition fetched_json (f : Fetched) : Json :=
  JObj [("offset"%string, JInt (f_offset f)); ("timestamp"%string, JInt (f_timestamp f));
        ("payload"%string, JStr (f_payload f))].

(** [(q.get(key) or [default])[0]] *)
Definition query_arg (q : list (string * list string)) (key default : string) : string :=
  match dict_get key q with Some (v :: _) => v | _ => default end.

(** The messages after the group's offset, which moves to the last of them. *)
Definition api_consume (topic part : string) (q : list (string * list string)) : BrokerM (list Fetched) :=
  partition ← lift (int_of_text part);
  let group := query_arg q "group" EmptyString in
  limit ← lift (int_of_text (query_arg q "limit" "100"));
  after ← (if bool_decide (group = EmptyString) then mret (-1)
           else g ← Broker_group group; mret (ConsumerGroup_committed topic partition g));
  msgs ← Broker_fetch topic partition after limit;
  _ ← (if bool_decide (group = EmptyString) then mret ()
       else match last msgs with
            | Some m => Broker_commit group topic partition (f_offset m)
            | None => mret ()
            end);
  mret msgs.

(** The routes under [/topics]; [None] falls through to 404. *)
Definition get_topics (parts : list string) (q : list (string * list string)) : BrokerM (option Json) :=
  b ← broker;
  match parts with
  | [] => mret (Some (JObj [("topics"%string, JArr (JStr <$> merge_sort String.le (fst <$> topics b)))]))
  | [topic] =>
      mret (t ← dict_get topic (Broker_stats b).1.1;
            Some (JObj (("topic"%string, JStr topic) :: topic_items t)))
  | [topic; verb; part] =>
      if bool_decide (verb = "consume"%string) then
        msgs ← api_consume topic part q;
        mret (Some (JObj [("messages"%string, JArr (fetched_json <$> msgs))]))
      else mret None
  | _ => mret None
  end.

(** An exception of a route is answered with status 400. *)
Definition answer_json (route : BrokerM (option Json)) : BrokerM Reply := λ s,
  match route s with
  | (inl e, s') => (inr (RJson 400 (JObj [("error"%string, JStr (describe e))])), s')
  | (inr None, s') => (inr (RJson 404 (JObj [("error"%string, JStr "not found")])), s')
  | (inr (Some v), s') => (inr (RJson 200 v), s')
  end.

Definition no_metrics : Reply := RJson 503 (JObj [("error"%string, JStr "metrics unavailable")]).

Definition do_GET (path : string) (q : list (string * list string)) : BrokerM Reply :=
  b ← broker;
  if bool_decide (path = "/"%string) then
    mret (RPage (dashboard b))
  else if bool_decide (path = "/health"%string) then mret (RJson 200 (JObj [("status"%string, JStr "ok")]))
  else if bool_decide (path = "/metrics"%string) then mret (if metrics then RMetrics else no_metrics)
  else if bool_decide (path = "/metrics/json"%string) then mret (if metrics then RMetricsJson else no_metrics)
  else if bool_decide (path = "/stats"%string) then mret (RJson 200 (stats_json b))
  else
    match path_parts path with
    | p :: parts =>
        if bool_decide (p = "topics"%string) then answer_json (get_topics parts q) else answer_json (mret None)
    | [] => answer_json (mret None)
    end.

Definition json_default (v : Json) (o : option Json) : Json := match o with Some x => x | None => v end.

(** [broker.produce(topic, payload, key=key)] with a key from JSON, and its result as a
    dictionary. *)
Definition produce_request (topic : string) (payload : bytes) (key : Json) (now : Z) : BrokerM Json :=
  key ← match key with
        | JNull => mret None
        | JStr k => mret (Some k)
        | _ => (* [create_topic] comes before [key.encode] *)
            b ← broker;
            _ ← match dict_get topic (topics b) with
                | None => Broker_create_topic topic None
                | Some _ => mret ()
                end;
            raise AttributeError
        end;
  r ← Broker_produce topic payload key None now;
  mret (JObj [("topic"%string, JStr (pr_topic r)); ("partition"%string, JInt (pr_partition r));
              ("offset"%string, JInt (pr_offset r))]).

(** [{"payload": ..., "key": ...}]: a payload that is not a string is dumped. *)
Definition api_produce (topic : string) (raw : bytes) (now : Z) : BrokerM Json :=
  req ← lift (json_loads (if bool_decide (raw = []) then bytes_of_str "{}" else raw));
  match req with
  | JObj d =>
      payload ← match json_default (JStr EmptyString) (dict_get "payload" d) with
                | JStr s => if utf8_valid (bytes_of_str s) then mret (bytes_of_str s) else raise ValueError
                | v => mret (json_dumps false v)
                end;
      produce_request topic payload (json_default JNull (dict_get "key" d)) now
  | _ => raise AttributeError
  end.

(** Groups are named by strings. *)
Definition api_commit (topic part : string) (raw : bytes) : BrokerM Json :=
  req ← lift (json_loads raw);
  match req with
  | JObj d =>
      group ← match json_default (JStr "default") (dict_get "group" d) with JStr g => mret g | _ => raise TypeError end;
      partition ← lift (int_of_text part);
      offset ← match dict_get "offset" d with None => raise KeyError | Some v => lift (int_of_json v) end;
      _ ← Broker_commit group topic partition offset;
      mret (JObj [("status"%string, JStr "committed")])
  | _ => raise AttributeError
  end.

(** [body] is what the request carries; [now] is the clock in milliseconds. *)
Definition do_POST (path : string) (body : bytes) (now : Z) : BrokerM Reply :=
  let raw := if bool_decide (body = []) then bytes_of_str "{}" else body in
  match path_parts path with
  | [p; topic; verb] =>
      if bool_decide (p = "topics"%string) && bool_decide (verb = "produce"%string)
      then answer_json (v ← api_produce topic raw now; mret (Some v)) else answer_json (mret None)
  | [p; topic; verb; part] =>
      if bool_decide (verb = "commit"%string)
      then answer_json (v ← api_commit topic part raw; mret (Some v)) else answer_json (mret None)
  | _ => answer_json (mret None)
  end.
End api.

Example demo_ints :
  int_of_text " 1_000" = inr 1000 ∧ int_of_text "-7" = inr (-7) ∧ int_of_text "1__0" = inl ValueError
  ∧ int_of_text "x" = inl ValueError ∧ path_parts "/topics//orders/" = ["topics"; "orders"]%string.
Proof. vm_compute. repeat split. Qed.

Definition demo_gateway : (Exn + list Reply) * (DataDir * Broker) :=
  (a ← do_POST (λ _, "e"%string) "/topics/t/produce" (bytes_of_str "{}") 5;
   b ← do_GET (λ _, "e"%string) true "/topics/t/consume/0" [("group", ["g"])]%string;
   c ← do_GET (λ _, "e"%string) true "/topics/t/consume/0" [("group", ["g"])]%string;
   d ← do_GET (λ _, "e"%string) true "/topics/t/consume/9" [];
   mret [a; b; c; d]) (mkData ∅ ∅, Broker_new 2 100 16 None None).

Example demo_gateway_answers :
  demo_gateway.1 = inr [
    RJson 200 (JObj [("topic", JStr "t"); ("partition", JInt 0); ("offset", JInt 0)]%string);
    RJson 200 (JObj [("messages"%string, JArr [fetched_json (mkFetched 0 5 EmptyString)])]);
    RJson 200 (JObj [("messages"%string, JArr [])]);
    RJson 400 (JObj [("error"%string, JStr "e")])].
Proof. vm_compute. reflexivity. Qed.
