(* ===== verification/Cli.v ===== *)
(** * The broker's TCP commands (cli.py)

    The dispatcher of the broker's frame server, and the client commands that talk to
    it.  What a command prints is a list of lines.  With [frame_call] each request has
    a connection of its own; [cmd_consume] keeps one open, on which the same frames
    go. *)
From Stdlib Require Import Ascii.
From S2P Require Import Prelude Bytes Unicode Json Broker Net Api.
Local Open Scope Z_scope.

(** ** [_tcp_dispatch] *)

Section dispatch.
(** [f"unknown op {op!r}"], and the clock. *)
Context (unknown_op : Json → string) (now : Z).

(** [req[key]] *)
Definition required (key : string) (d : list (string * Json)) : Exn + Json :=
  match dict_get key d with None => inl KeyError | Some v => inr v end.

(** [v.encode()] *)
Definition encode_str (v : Json) : Exn + bytes :=
  match v with
  | JStr s => if utf8_valid (bytes_of_str s) then inr (bytes_of_str s) else inl ValueError
  | _ => inl AttributeError
  end.

(** A value used as a number. *)
Definition number (v : Json) : Exn + Z :=
  match v with JInt n => inr n | JBool b => inr (if b then 1 else 0) | _ => inl TypeError end.

(** Lists and dictionaries are not hashable; no topic has another name than a string. *)
Definition no_topic (v : Json) : Exn := match v with JArr _ | JObj _ => TypeError | _ => KeyError end.

Definition tcp_produce (d : list (string * Json)) : BrokerM Json :=
  topic ← lift (required "topic" d);
  text ← lift (required "payload" d);
  payload ← lift (encode_str text);
  let key := json_default JNull (dict_get "key" d) in
  match topic with
  | JStr t => produce_request t payload key now
  | _ =>
      (* [create_topic] tests its bounds before it joins the name to a path *)
      b ← broker;
      raise (match no_topic topic with
             | KeyError => if default_partitions b <? 1 then ValueError else TypeError
             | e => e
             end)
  end.

Definition tcp_fetch (d : list (string * Json)) : BrokerM Json :=
  topic ← lift (required "topic" d);
  let partition := json_default (JInt 0) (dict_get "partition" d) in
  let after := json_default (JInt (-1)) (dict_get "after" d) in
  match topic with
  | JStr t =>
      b ← broker;
      match dict_get t (topics b) with
      | None => raise KeyError
      | Some parts =>
          p ← lift (number partition);
          if (0 <=? p) && (p <? len parts) then
            a ← lift (number after);
            msgs ← Broker_fetch t p a 100;
            mret (JObj [("messages"%string, JArr (fetched_json <$> msgs))])
          else raise KeyError
      end
  | _ => raise (no_topic topic)
  end.

(** [op == name] *)
Definition is_op (name : string) (op : Json) : bool :=
  match op with JStr s => bool_decide (s = name) | _ => false end.

Definition tcp_dispatch (req : Json) : BrokerM Json :=
  match req with
  | JObj d =>
      let op := json_default JNull (dict_get "op" d) in
      if is_op "produce" op then tcp_produce d
      else if is_op "fetch" op then tcp_fetch d
      else if is_op "stats" op then b ← broker; mret (stats_json b)
      else mret (JObj [("error"%string, JStr (unknown_op op))])
  | _ => raise AttributeError
  end.
End dispatch.

(** ** [cmd_consume] *)

(** A line of the command's output: its number and text are those of the message. *)
Inductive Printed : Type :=
  | NoNewMessages
  | Message (offset payload : Json).

Section consume.
(** [client.call], over the state of the server. *)
Context {St : Type} (call : Json → M St Json).
(** The arguments of the command line. *)
Context (topic : string) (partition limit : Z) (follow : bool).
Abbreviation CmdM := (M (list Printed * St)).

Definition on_server {A} (m : M St A) : CmdM A := λ '(out, st),
  let '(r, st') := m st in (r, (out, st')).

Definition print_line (p : Printed) : CmdM () := modify (λ s, (s.1 ++ [p], s.2)).

Definition fetch_request (after : Json) : Json :=
  JObj [("op"%string, JStr "fetch"); ("topic"%string, JStr topic); ("partition"%string, JInt partition);
        ("after"%string, after)].

(** [res.get("messages", [])], as the list that is tested and iterated. *)
Definition messages_of (d : list (string * Json)) : Exn + list Json :=
  match dict_get "messages" d with
  | None | Some JNull | Some (JBool false) | Some (JInt 0) | Some (JStr EmptyString) | Some (JObj []) => inr []
  | Some (JArr l) => inr l
  | Some _ => inl TypeError
  end.

(** [m[key]] *)
Definition item (key : string) (m : Json) : Exn + Json :=
  match m with JObj d => required key d | _ => inl TypeError end.

Definition print_message (m : Json) : CmdM () :=
  offset ← lift (item "offset" m);
  payload ← lift (item "payload" m);
  print_line (Message offset payload).

(** [true] when the loop ends.  Each round that goes on shows a message unless the
    command follows the topic, so [limit] rounds are enough if it does not. *)
Fixpoint consume_loop (fuel : nat) (after : Json) (shown : Z) : CmdM bool :=
  if shown <? limit then
    match fuel with
    | O => mret false
    | S fuel' =>
        res ← on_server (call (fetch_request after));
        match res with
        | JObj d =>
            msgs ← lift (messages_of d);
            match last msgs with
            | None =>
                _ ← when ((shown =? 0) && negb follow) (print_line NoNewMessages);
                if follow then consume_loop fuel' after shown else mret true
            | Some m =>
                _ ← for_each msgs print_message;
                after' ← lift (item "offset" m);
                consume_loop fuel' after' (shown + len msgs)
            end
        | _ => raise AttributeError
        end
    end
  else mret true.

(** A command that follows may go on for ever: the model watches it for [limit] rounds. *)
Definition cmd_consume : CmdM bool := consume_loop (Z.to_nat limit) (JInt (-1)) 0.
End consume.

(** ** [cmd_produce], [cmd_status] and the arguments of [cmd_raft_node] *)

(** The request; the reply is printed as it is. *)
Definition produce_line (topic payload : string) (key : option string) : Json :=
  JObj [("op"%string, JStr "produce"); ("topic"%string, JStr topic); ("payload"%string, JStr payload);
        ("key"%string, match key with Some k => JStr k | None => JNull end)].

Definition cmd_produce {St} (call : Json → M St Json) (topic payload : string) (key : option string) : M St Json :=
  call (produce_line topic payload key).

Definition cmd_status {St} (call : Json → M St Json) : M St Json := call (JObj [("op"%string, JStr "stats")]).

(** [s.split(c, 1)] and [s.rsplit(c, 1)], which must give two parts. *)
Fixpoint split_once (c : ascii) (s : string) : option (string * string) :=
  match s with
  | EmptyString => None
  | String x s' =>
      if bool_decide (x = c) then Some (EmptyString, s')
      else '(a, b) ← split_once c s'; Some (String x a, b)
  end.

Fixpoint rsplit_once (c : ascii) (s : string) : option (string * string) :=
  match s with
  | EmptyString => None
  | String x s' =>
      match rsplit_once c s' with
      | Some (a, b) => Some (String x a, b)
      | None => if bool_decide (x = c) then Some (EmptyString, s') else None
      end
  end.

(** One [--peer id=host:port]. *)
Definition parse_peer (spec : string) : Exn + (string * (string * Z)) :=
  match split_once "=" spec with
  | None => inl ValueError
  | Some (nid, addr) =>
      match rsplit_once ":" addr with
      | None => inl ValueError
      | Some (host, port) => match int_of_text port with inl e => inl e | inr n => inr (nid, (host, n)) end
      end
  end.

Fixpoint parse_peers (specs : list string) (peers : list (string * (string * Z))) : Exn + list (string * (string * Z)) :=
  match specs with
  | [] => inr peers
  | spec :: specs' =>
      match parse_peer spec with
      | inl e => inl e
      | inr (nid, addr) => parse_peers specs' (dict_set nid addr peers)
      end
  end.

(** The peers of [cmd_raft_node], or the exit status 2. *)
Definition raft_node_peers (node_id : string) (specs : list string) : Exn + (Z + list (string * (string * Z))) :=
  match parse_peers specs [] with
  | inl e => inl e
  | inr peers => inr (if bool_decide (is_Some (dict_get node_id peers)) then inr peers else inl 2)
  end.

Example demo_peers :
  raft_node_peers "b" ["a=h:1"; "b=::1:2"; "a=k=1:3"]%string
    = inr (inr [("a", ("k=1", 3)); ("b", ("::1", 2))]%string)
  ∧ raft_node_peers "c" ["a=h:1"]%string = inr (inl 2) ∧ raft_node_peers "a" ["a=h"]%string = inl ValueError.
Proof. vm_compute. repeat split. Qed.

(** A client and a broker: two messages, read back over frames. *)
Example demo_commands :
  let call := frame_call (λ _, "error"%string) (tcp_dispatch (λ _, "unknown op"%string) 5) in
  let s0 := (mkData ∅ ∅, Broker_new 1 100 16 None None) in
  let '(a, s1) := cmd_produce call "t" "hello" None s0 in
  let '(b, s2) := cmd_produce call "t" "world" (Some "k"%string) s1 in
  let '(c, (out, _)) := cmd_consume call "t" 0 10 false ([], s2) in
  let '(e, (none, _)) := cmd_consume call "t" 7 10 false ([], s2) in
  (b, c, out, none)
  = (inr (JObj [("topic", JStr "t"); ("partition", JInt 0); ("offset", JInt 1)]%string), inr true,
     [Message (JInt 0) (JStr "hello"); Message (JInt 1) (JStr "world")], [NoNewMessages]).
Proof. vm_compute. reflexivity. Qed.
