(* ===== verification/Runner.v ===== *)
(** * Clusters of server nodes (pylog/server.py, cli.py)

    [RaftServerNode] with its socket and its dictionary of addresses,
    [RaftClusterRunner], and what [cmd_replicate] and [cmd_raft_node] do with them.

    The dictionaries of addresses are objects: a node and its transport share one, and
    the runner writes to the dictionaries of the nodes it has started.  They live in a
    store, and a [Ref] names one. *)
From S2P Require Import Prelude Bytes FileSystem Unicode Json RaftLog DurableLog KVStore RaftInterfaces RaftNode Wire Server Cli.
Local Open Scope Z_scope.

Abbreviation Ref := nat.
(** Host and port of each node, in the order of insertion. *)
Abbreviation Addresses := (list (string * (string * Z))%type).

(** The operating system's sockets: binding to a host and a port, where port 0 lets the
    system choose, gives the port; closing raises nothing. *)
Class Sockets (Os : Type) := {
  sock_bind : string → Z → M Os Z;
  sock_close : string → Z → Os → Os;
}.

(** [RaftServerNode].  [sv_transport] is the dictionary the transport reads, [sv_bound]
    the port of the listening socket, [sv_stopped] the mark of [cmd_replicate]. *)
Record ServerNode {L Rng : Type} := mkServerNode {
  sv_id : NodeId;
  sv_addresses : Ref;
  sv_transport : Ref;
  sv_node : RaftNode L Rng;
  sv_host : string;
  sv_port : Z;
  sv_bound : option Z;
  sv_running : bool;
  sv_stopped : bool;
}.
Arguments ServerNode : clear implicits.
#[export] Instance ServerNode_eta {L Rng} : Eta (ServerNode L Rng) := λ n,
  mkServerNode _ _ (sv_id n) (sv_addresses n) (sv_transport n) (sv_node n) (sv_host n) (sv_port n) (sv_bound n)
    (sv_running n) (sv_stopped n).

(** What [cmd_replicate] prints: a heading with the table of the nodes, and single lines.
    The texts are fixed but for these values. *)
Inductive NodeRow : Type :=
  | CrashedRow (node_id : NodeId)
  | LiveRow (node_id : NodeId) (role : string) (term commit log_len : Z) (disk : option Json) (kv : gmap string string).

Inductive Report : Type :=
  | NoStableLeader
  | ClusterFormed (leader : NodeId) (rows : list NodeRow)
  | WriteWarning (i : Z)
  | ReplicatedWrites (rows : list NodeRow)
  | SnapshotTaken (node_id : NodeId) (included : option Z)
  | CrashingLeader (node_id : NodeId)
  | ReElected (leader : option NodeId) (rows : list NodeRow)
  | StoppingCluster.

(** The process: the store, the runner's own dictionary, its nodes, what they sent
    (sender first), the sockets, how often the threads of the nodes have run, and what
    has been printed. *)
Record Process {L Rng Os : Type} := mkProcess {
  ps_heap : list Addresses;
  ps_addresses : Ref;
  ps_nodes : list (ServerNode L Rng);
  ps_sent : list (NodeId * (NodeId * Msg));
  ps_os : Os;
  ps_time : nat;
  ps_out : list Report;
}.
Arguments Process : clear implicits.
#[export] Instance Process_eta {L Rng Os} : Eta (Process L Rng Os) := λ p,
  mkProcess _ _ _ (ps_heap p) (ps_addresses p) (ps_nodes p) (ps_sent p) (ps_os p) (ps_time p) (ps_out p).

Section runner.
Context {L Rng Os : Type} `{RaftLogOps L} `{StatsSource L} `{Random Rng} `{Sockets Os}.
(** The [RaftNode] of a server node, from its id and [list(addresses)]. *)
Context (make : NodeId → list NodeId → Exn + RaftNode L Rng).
(** What the threads of a node make of it the [k]-th time they run: they go on while
    nodes are added, and whenever the main thread sleeps. *)
Context (threads : nat → NodeId → RaftNode L Rng → RaftNode L Rng).
(** The clocks, by the same count. *)
Context (clock wall : nat → Z).
Abbreviation Server := (ServerNode L Rng).
Abbreviation ProcessM := (M (Process L Rng Os)).

(** ** The store *)

Definition deref (s : Process L Rng Os) (a : Ref) : Addresses := default [] (ps_heap s !! a).

Definition alloc (d : Addresses) : ProcessM Ref := λ s,
  (inr (length (ps_heap s)), s <| ps_heap := ps_heap s ++ [d] |>).

(** [d[n] = addr] for the dictionary at [a]. *)
Definition set_address (a : Ref) (n : NodeId) (addr : string * Z) : ProcessM () :=
  modify (λ s, s <| ps_heap := <[a := dict_set n addr (deref s a)]> (ps_heap s) |>).

Definition on_os {A} (m : M Os A) : ProcessM A := λ s,
  let '(r, os) := m (ps_os s) in (r, s <| ps_os := os |>).

(** The threads of the runner's nodes run. *)
Definition threads_run : ProcessM () :=
  modify (λ s, s <| ps_nodes := (λ n : Server, n <| sv_node := threads (ps_time s) (sv_id n) (sv_node n) |>) <$> ps_nodes s |>
                 <| ps_time := S (ps_time s) |>).

(** ** [RaftServerNode] *)

Definition RaftServerNode_init (node_id : NodeId) (addresses : Ref) : ProcessM Server :=
  d ← gets (λ s, deref s addresses);
  node ← lift (make node_id d.*1);
  addr ← lift (match dict_get node_id d with Some addr => inr addr | None => inl KeyError end);
  mret (mkServerNode _ _ node_id addresses addresses node addr.1 addr.2 None false false).

(** [FrameServer.bound_port] *)
Definition bound_port (n : Server) : Exn + Z :=
  match sv_bound n with Some p => inr p | None => inl AssertionError end.

Definition RaftServerNode_start (n : Server) : ProcessM Server :=
  port ← on_os (sock_bind (sv_host n) (sv_port n));
  _ ← set_address (sv_addresses n) (sv_id n) ("127.0.0.1"%string, port);
  mret (n <| sv_bound := Some port |> <| sv_running := true |>).

(** The timer thread ends and the listening socket is closed. *)
Definition RaftServerNode_stop (n : Server) : ProcessM Server :=
  _ ← match sv_bound n with
      | Some p => modify (λ s, s <| ps_os := sock_close (sv_host n) p (ps_os s) |>)
      | None => mret ()
      end;
  mret (n <| sv_running := false |>).

(** It looks at the [i]-th node until the deadline, [polls] times at most. *)
Fixpoint RaftServerNode_wait_for_role (i : nat) (wanted : string) (polls : nat) : ProcessM bool :=
  match polls with
  | O => mret false
  | S polls' =>
      ns ← gets ps_nodes;
      match ns !! i with
      | None => raise IndexError
      | Some n =>
          if bool_decide (role_value (role (sv_node n)) = wanted) then mret true
          else _ ← threads_run; RaftServerNode_wait_for_role i wanted polls'
      end
  end.

(** ** [RaftClusterRunner] *)

(** [f"node{i}"] for [i] from 1 to [count] *)
Definition runner_ids (count : Z) : list NodeId :=
  (λ i, "node" +:+ dec (Z.of_nat i))%string <$> seq 1 (Z.to_nat count).

Definition placeholder : string * Z := ("127.0.0.1"%string, 0).

(** One round of the constructor's loop. *)
Definition runner_add (n : NodeId) : ProcessM () :=
  d ← gets (λ s, deref s (ps_addresses s));
  a ← alloc d;
  node ← RaftServerNode_init n a;
  node ← RaftServerNode_start node;
  port ← lift (bound_port node);
  mine ← gets ps_addresses;
  _ ← set_address mine n ("127.0.0.1"%string, port);
  others ← gets ps_nodes;
  _ ← for_each others (λ other, set_address (sv_addresses other) n ("127.0.0.1"%string, port));
  modify (λ s, s <| ps_nodes := ps_nodes s ++ [node] |>).

(** The threads of the nodes that have been started run meanwhile. *)
Fixpoint runner_loop (ids : list NodeId) : ProcessM () :=
  match ids with
  | [] => mret ()
  | n :: ids' => _ ← runner_add n; _ ← threads_run; runner_loop ids'
  end.

(** [base_port] is not used by the code. *)
Definition RaftClusterRunner_init (count : Z) : ProcessM () :=
  let ids := runner_ids count in
  a ← alloc (foldl (λ d n, dict_set n placeholder d) [] ids);
  _ ← modify (λ s, s <| ps_addresses := a |> <| ps_nodes := [] |>);
  runner_loop ids.

(** [n.node.role.value == "leader"] *)
Definition leads (n : Server) : bool := bool_decide (role (sv_node n) = LEADER).

(** The first node that leads, with its place among the nodes. *)
Definition RaftClusterRunner_leader (ns : list Server) : option (nat * Server) := list_find leads ns.

Fixpoint stop_nodes (ns : list Server) : ProcessM (list Server) :=
  match ns with
  | [] => mret []
  | n :: ns' => n' ← RaftServerNode_stop n; ns'' ← stop_nodes ns'; mret (n' :: ns'')
  end.

Definition RaftClusterRunner_stop : ProcessM () :=
  ns ← gets ps_nodes;
  ns' ← stop_nodes ns;
  modify (λ s, s <| ps_nodes := ns' |>).

(** ** [cmd_replicate] *)

(** The number of nodes: odd, and three at least. *)
Definition replicate_count (nodes : Z) : Z := Z.max 3 (if nodes mod 2 =? 1 then nodes else nodes + 1).

(** A method of the [RaftNode] of [n], which is the [i]-th node. *)
Definition on_raft {A} (i : nat) (n : Server) (m : M (World L Rng) A) : ProcessM A := λ s,
  let '(r, w) := m (mkWorld _ _ (sv_node n) [] []) in
  (r, s <| ps_nodes := <[i := n <| sv_node := nd w |>]> (ps_nodes s) |>
        <| ps_sent := ps_sent s ++ ((λ m, (sv_id n, m)) <$> sent w) |>).

Fixpoint propose_stable (payload : bytes) (attempts : nat) : ProcessM bool :=
  match attempts with
  | O => mret false
  | S attempts' =>
      s ← get;
      index ← match RaftClusterRunner_leader (ps_nodes s) with
              | None => mret None
              | Some (i, n) => on_raft i n (RaftNode_propose (clock (ps_time s)) (wall (ps_time s)) payload)
              end;
      match index with
      | Some _ => mret true
      | None => _ ← threads_run; propose_stable payload attempts'
      end
  end.

Definition live_nodes (ns : list Server) : list Server := filter (λ n, sv_stopped n = false) ns.

(** One look of [cluster_stable] at the nodes. *)
Definition stable_leader (ns : list Server) : option NodeId :=
  let live := live_nodes ns in
  let live_ids : gset NodeId := list_to_set (sv_id <$> live) in
  let claimed : gset (option NodeId) := list_to_set ((λ n, leader_id (sv_node n)) <$> live) in
  if bool_decide (size claimed = 1%nat) then
    match elements claimed with
    | Some l :: _ =>
        if bool_decide (l ∈ live_ids) && existsb (λ n, bool_decide (sv_id n = l) && leads n) live then Some l else None
    | _ => None
    end
  else None.

(** It looks until the deadline, [polls] times at most. *)
Fixpoint cluster_stable (polls : nat) : ProcessM (option NodeId) :=
  match polls with
  | O => mret None
  | S polls' =>
      ns ← gets ps_nodes;
      match stable_leader ns with
      | Some l => mret (Some l)
      | None => _ ← threads_run; cluster_stable polls'
      end
  end.

(** [old_leader.stop(); old_leader.stopped = True] *)
Definition crash_node (i : nat) (n : Server) : ProcessM () :=
  n' ← RaftServerNode_stop n;
  modify (λ s, s <| ps_nodes := <[i := n' <| sv_stopped := true |>]> (ps_nodes s) |>).

Definition report (r : Report) : ProcessM () := modify (λ s, s <| ps_out := ps_out s ++ [r] |>).

(** The row of a node: a log without [stats] has no count of disk records. *)
Definition show_node (n : Server) : Exn + NodeRow :=
  if sv_stopped n then inr (CrashedRow (sv_id n))
  else
    match state_machine (sv_node n) with
    | None => inl AttributeError
    | Some sm =>
        let '(_, r, t, _, li, c, _) := RaftNode_info (sv_node n) in
        match log_stats with
        | None => inr (LiveRow (sv_id n) (role_value r) t c li None (kv_data sm))
        | Some stats =>
            match dict_get "disk_records" (stats (log (sv_node n))) with
            | None => inl KeyError
            | Some disk => inr (LiveRow (sv_id n) (role_value r) t c li (Some disk) (kv_data sm))
            end
        end
    end.

(** The heading and the rows; when a row raises, those before it are left out here. *)
Definition show (heading : list NodeRow → Report) : ProcessM () :=
  ns ← gets ps_nodes;
  rows ← lift (collect (show_node <$> ns));
  report (heading rows).

Definition write_key (i : Z) : ProcessM () :=
  ok ← propose_stable (bytes_of_str ("key" +:+ dec i +:+ "=value" +:+ dec i)) 60;
  when (negb ok) (report (WriteWarning i)).

(** [for n in runner.nodes: if not stopped: n.stop()] *)
Fixpoint stop_live (ns : list Server) : ProcessM (list Server) :=
  match ns with
  | [] => mret []
  | n :: ns' =>
      n' ← (if sv_stopped n then mret n else RaftServerNode_stop n);
      ns'' ← stop_live ns';
      mret (n' :: ns'')
  end.

(** From the started cluster on, with the number of looks a time-out of 15 and of 20
    seconds leaves; the exit status. *)
Definition cmd_replicate (nodes : Z) (polls polls' : nat) : ProcessM Z :=
  _ ← RaftClusterRunner_init (replicate_count nodes);
  formed ← cluster_stable polls;
  match formed with
  | None => _ ← report NoStableLeader; mret 1
  | Some leader =>
      _ ← show (ClusterFormed leader);
      _ ← for_each (seqZ 0 5) write_key;
      _ ← cluster_stable polls;
      _ ← show ReplicatedWrites;
      ns ← gets ps_nodes;
      match RaftClusterRunner_leader ns with
      | None => raise AttributeError
      | Some (i, old) =>
          res ← on_raft i old RaftNode_take_snapshot;
          _ ← report (SnapshotTaken (sv_id old) (snap_index <$> res));
          _ ← report (CrashingLeader (sv_id old));
          ns ← gets ps_nodes;
          _ ← match ns !! i with Some old' => crash_node i old' | None => mret () end;
          _ ← threads_run;
          new ← cluster_stable polls';
          _ ← propose_stable (bytes_of_str "after-crash=yes") 60;
          _ ← threads_run;
          _ ← show (ReElected new);
          _ ← report StoppingCluster;
          ns ← gets ps_nodes;
          ns' ← stop_live ns;
          _ ← modify (λ s, s <| ps_nodes := ns' |>);
          mret 0
      end
  end.

(** ** [cmd_raft_node]

    The started node and the ports that are printed, or the exit status 2.  The printed
    dictionary is the node's own, so it has the port the node is bound to. *)
Definition cmd_raft_node (node_id : NodeId) (specs : list string) : ProcessM (Z + Server * list (NodeId * Z)) :=
  r ← lift (raft_node_peers node_id specs);
  match r with
  | inl status => mret (inl status)
  | inr peers =>
      a ← alloc peers;
      node ← RaftServerNode_init node_id a;
      node ← RaftServerNode_start node;
      d ← gets (λ s, deref s a);
      mret (inr (node, (λ '(nid, addr), (nid, addr.2)) <$> d))
  end.
End runner.
