(* ===== verification/Metrics.v ===== *)
(** * The metrics registry (pylog/metrics.py)

    Values are numbers of some type with an addition; dictionaries keep the order of
    first insertion.  The lock makes each method atomic.  The text format prints the
    numbers with a function that is given; the position of the 99th percentile is
    computed in double precision, as the code does it.  The uptime is an argument. *)
From stdpp Require Import sorting.
From Stdlib Require Import Floats.SpecFloat.
From S2P Require Import Prelude Bytes Unicode Json.
Local Open Scope nat_scope.

Section metrics.
Context {V : Type} (zero : V) (add : V → V → V).

Record Metrics := mkMetrics {
  counters : list (string * V);
  hist : list (string * list V);
  gauges : list (string * V);
}.

Definition Metrics_init : Metrics := mkMetrics [] [] [].

(** A [Counter] gives zero for a missing key. *)
Definition Metrics_inc (name : string) (value : V) (m : Metrics) : Metrics :=
  mkMetrics (dict_set name (add (default zero (dict_get name (counters m))) value) (counters m)) (hist m) (gauges m).

(** [lst[-n:]] *)
Definition last_n {A} (n : nat) (l : list A) : list A := drop (length l - n) l.

(** Past 2048 values, the newest 1024 are kept. *)
Definition trim {A} (l : list A) : list A := if 2048 <? length l then last_n 1024 l else l.

Definition Metrics_observe (name : string) (value : V) (m : Metrics) : Metrics :=
  mkMetrics (counters m)
    (dict_set name (trim (default [] (dict_get name (hist m)) ++ [value])) (hist m)) (gauges m).

Definition Metrics_set (name : string) (value : V) (m : Metrics) : Metrics :=
  mkMetrics (counters m) (hist m) (dict_set name value (gauges m)).

(** [snapshot()], without the uptime. *)
Definition Metrics_snapshot (m : Metrics) : list (string * V) * list (string * V) * list (string * list V) :=
  (counters m, gauges m, hist m).

(** ** The text format *)

(** The double [0.99], and [int(n * 0.99)] for an index [n]. *)
Definition double_099 : spec_float := S754_finite false 8917127262193582 (-53).

Definition double_of_nat (n : nat) : spec_float := binary_normalize 53 1024 (Z.of_nat n) 0 false.

Definition int_of_double (f : spec_float) : Exn + Z :=
  match f with
  | S754_zero _ => inr 0%Z
  | S754_finite s m e =>
      let v := if (0 <=? e)%Z then Z.shiftl (Z.pos m) e else Z.shiftr (Z.pos m) (- e) in
      inr (if s then (- v)%Z else v)
  | S754_infinity _ | S754_nan => inl ValueError
  end.

Definition p99_index (n : nat) : Exn + Z := int_of_double (SFmul 53 1024 (double_of_nat n) double_099).

(** [l[i]] *)
Definition list_get {A} (l : list A) (i : Z) : Exn + A :=
  let i' := if (i <? 0)%Z then (i + Z.of_nat (length l))%Z else i in
  if (i' <? 0)%Z then inl IndexError
  else match l !! Z.to_nat i' with Some x => inr x | None => inl IndexError end.

(** [print] is [str], [le] the order of the numbers, [div v n] is [v / n]. *)
Context (print : V → bytes) (le : relation V) `{!RelDecision le} (div : V → nat → V).

(** [p50], [p99] and [avg] of a histogram that is not empty. *)
Definition summary (vals : list V) : M Metrics (V * V * V) :=
  let vals_sorted := merge_sort le vals in
  let n := length vals_sorted in
  p50 ← lift (list_get vals_sorted (Z.of_nat (n / 2)));
  p99 ← (if 1 <? n then i ← lift (p99_index n); lift (list_get vals_sorted i) else lift (list_get vals_sorted 0));
  mret (p50, p99, div (foldl add zero vals_sorted) n).

(** A comment with the type, and the value. *)
Definition typed_lines (kind : string) (name : bytes) (v : V) : list bytes :=
  [bytes_of_str "# TYPE " ++ name ++ [x20] ++ bytes_of_str kind; name ++ [x20] ++ print v].

Definition hist_lines (k : string) (vals : list V) : M Metrics (list bytes) :=
  if bool_decide (length vals = 0) then mret []
  else
    '(p50, p99, avg) ← summary vals;
    mret (typed_lines "gauge" (bytes_of_str k ++ bytes_of_str "_avg") avg
         ++ typed_lines "gauge" (bytes_of_str k ++ bytes_of_str "_p50") p50
         ++ typed_lines "gauge" (bytes_of_str k ++ bytes_of_str "_p99") p99).

Fixpoint hists_lines (hs : list (string * list V)) : M Metrics (list bytes) :=
  match hs with
  | [] => mret []
  | (k, vals) :: hs' => ls ← hist_lines k vals; rest ← hists_lines hs'; mret (ls ++ rest)
  end.

Definition Metrics_prometheus (uptime_sec : V) : M Metrics bytes :=
  '(cs, gs, hs) ← gets Metrics_snapshot;
  hists ← hists_lines hs;
  let lines :=
    (cs ≫= λ c, typed_lines "counter" (bytes_of_str c.1) c.2)
    ++ (gs ≫= λ g, typed_lines "gauge" (bytes_of_str g.1) g.2)
    ++ hists ++ [bytes_of_str "pylog_uptime_sec " ++ print uptime_sec] in
  mret (join [x0a] lines ++ [x0a]).

(** ** The window of a histogram *)

Definition samples (name : string) (m : Metrics) : list V := default [] (dict_get name (hist m)).

(** The last values observed, all of them if there are at most 2048 and 1024 at
    least otherwise. *)
Definition window (all l : list V) : Prop :=
  ∃ k, l = drop k all ∧ length l <= 2048 ∧ (k = 0 ∨ 1024 <= length l).

Lemma window_snoc all l x : window all l → window (all ++ [x]) (trim (l ++ [x])).
Proof.
  intros (k & -> & Hl & Hk). assert (k <= length all ∨ drop k all = []) as Hka.
  { destruct (decide (k <= length all)); [by left|right; apply drop_ge; lia]. }
  unfold trim. destruct (Nat.ltb_spec 2048 (length (drop k all ++ [x]))) as [Hgt|Hle];
    rewrite length_app, length_drop in *; cbn [length] in *.
  - assert (k <= length all) by lia. rewrite <-(drop_app_le all [x]) by done. unfold last_n. rewrite drop_drop.
    eexists. split; [reflexivity|]. rewrite !length_drop, !length_app in *. cbn [length] in *. lia.
  - destruct Hka as [Hka|Hka].
    + exists k. rewrite drop_app_le by done. split; [done|]. rewrite length_app, length_drop. cbn [length]. lia.
    + destruct Hk as [->|Hk]; [|apply (f_equal length) in Hka; rewrite length_drop in Hka; cbn in Hka; lia].
      exists 0. rewrite drop_0 in *. split; [done|]. rewrite length_app. cbn [length]. lia.
Qed.

(** Calls of the registry, and the values given to the histogram [name] by them. *)
Inductive MetricOp : Type :=
  | Inc (name : string) (value : V)
  | Observe (name : string) (value : V)
  | Set_ (name : string) (value : V).

Definition run_metric (m : Metrics) (o : MetricOp) : Metrics :=
  match o with
  | Inc name v => Metrics_inc name v m
  | Observe name v => Metrics_observe name v m
  | Set_ name v => Metrics_set name v m
  end.

Definition observed (name : string) (ops : list MetricOp) : list V :=
  omap (λ o, match o with Observe n v => if bool_decide (n = name) then Some v else None | _ => None end) ops.
End metrics.
Arguments Metrics : clear implicits.

(** The index of the percentile, for all lengths a window can have. *)
Lemma p99_index_spec n : n ≤ 2048 → p99_index n = inr (Z.of_nat n * 99 / 100)%Z.
Proof.
  intros Hn. assert (forallb (λ k, bool_decide (p99_index k = inr (Z.of_nat k * 99 / 100)%Z)) (seq 0 2049) = true) as H by (by vm_compute).
  rewrite forallb_forall in H. apply (bool_decide_eq_true_1 _), H, in_seq. lia.
Qed.

(** ** What the quantiles say *)

(** How many values have a property. *)
Definition count {A} (P : A → Prop) `{∀ x, Decision (P x)} (l : list A) : nat := length (filter P l).

Lemma count_perm {A} (P : A → Prop) `{∀ x, Decision (P x)} (l l' : list A) : l ≡ₚ l' → count P l = count P l'.
Proof. intros Hl. unfold count. by rewrite Hl. Qed.

Lemma count_all {A} (P : A → Prop) `{∀ x, Decision (P x)} (l k : list A) : Forall P l → length l ≤ count P (l ++ k).
Proof. intros Hl. unfold count. rewrite filter_app, length_app, list_filter_all by (by apply Forall_forall). lia. Qed.

Section order.
Context {V : Type} (le : relation V) `{!RelDecision le, !Transitive le, !Total le}.

(** The element at a position of the sorted list, among all. *)
Lemma rank_sorted (l : list V) i x : merge_sort le l !! i = Some x → S i ≤ count (λ y, le y x) l ∧ length l - i ≤ count (le x) l.
Proof.
  intros Hi. pose proof (merge_sort_Permutation le l) as Hp. pose proof (StronglySorted_merge_sort le l) as Hs.
  rewrite <-!(count_perm _ _ _ Hp), <-(Permutation_length Hp). set (s := merge_sort le l) in *.
  rewrite <-(take_drop_middle _ _ _ Hi) in Hs. apply StronglySorted_app in Hs as (Hto & _ & Hs). inversion_clear Hs as [|? ? _ Hx].
  assert (le x x) as Hxx by (by destruct (total le x x)).
  pose proof (lookup_lt_Some _ _ _ Hi). split.
  - rewrite <-(take_drop (S i) s), (take_S_r _ _ _ Hi). etransitivity; [|apply count_all].
    + rewrite length_app, length_take. cbn. lia.
    + apply Forall_app. split; [|by constructor]. apply Forall_forall. intros y Hy. apply Hto; [done|by left].
  - rewrite <-(take_drop i s), (count_perm _ _ (drop i s ++ take i s)) by apply Permutation_app_comm.
    etransitivity; [|apply count_all]; [rewrite length_app, length_take, length_drop; lia|]. rewrite (drop_S _ _ _ Hi). by constructor.
Qed.
End order.

(** ** The text can be made *)

Lemma list_get_lookup {A} (l : list A) (i : nat) x : l !! i = Some x → list_get l (Z.of_nat i) = inr x.
Proof.
  intros Hi. unfold list_get. destruct (Z.ltb_spec (Z.of_nat i) 0); [lia|].
  destruct (Z.ltb_spec (Z.of_nat i) 0); [lia|]. by rewrite Nat2Z.id, Hi.
Qed.

Lemma Forall_dict_set {V} (P : string * V → Prop) k v d : P (k, v) → Forall P d → Forall P (dict_set k v d).
Proof. intros Hv. induction 1 as [|[k' v'] d Hx Hd IH]; cbn; [by constructor|]. case_bool_decide; by constructor. Qed.

Section text.
Context {V : Type} (zero : V) (add : V → V → V) (print : V → bytes) (le : relation V) `{!RelDecision le} (div : V → nat → V).

(** Histograms are never longer than their window. *)
Definition bounded (m : Metrics V) : Prop := Forall (λ kv, length kv.2 ≤ 2048) (hist m).

Lemma trim_length {A} (l : list A) : length (trim l) ≤ 2048.
Proof. unfold trim, last_n. destruct (Nat.ltb_spec 2048 (length l)); rewrite ?length_drop; lia. Qed.

Lemma run_metric_bounded m o : bounded m → bounded (run_metric zero add m o).
Proof. intros Hm. destruct o as [n v|n v|n v]; [done| |done]. apply Forall_dict_set; [apply trim_length|done]. Qed.

Lemma run_metrics_bounded ops : bounded (foldl (run_metric zero add) Metrics_init ops).
Proof. induction ops as [|o ops IH] using rev_ind; [by constructor|]. rewrite foldl_app. by apply run_metric_bounded. Qed.

Lemma summary_spec vals (m : Metrics V) :
  vals ≠ [] → length vals ≤ 2048 →
  returns (summary zero add le div vals) m (λ '(p50, p99, avg) m',
    m' = m ∧ avg = div (foldl add zero (merge_sort le vals)) (length vals) ∧
    merge_sort le vals !! (length vals / 2) = Some p50 ∧ merge_sort le vals !! (length vals * 99 / 100) = Some p99).
Proof.
  intros Hv Hn. unfold summary. pose proof (Permutation_length (merge_sort_Permutation le vals)) as El.
  set (s := merge_sort le vals) in *. rewrite El. set (n := length vals) in *.
  assert (0 < n) as Hpos by (destruct vals; [done|cbn in n; lia]).
  assert (n / 2 < n ∧ n * 99 / 100 < n) as [H50 H99] by (split; apply Nat.Div0.div_lt_upper_bound; lia).
  rewrite <-El in H50, H99. apply lookup_lt_is_Some in H50 as [p50 H50], H99 as [p99 H99]. rewrite El in *.
  apply returns_bind. eapply returns_intro; [unfold lift; by rewrite (list_get_lookup _ _ _ H50)|]. cbv beta.
  apply returns_bind. eapply returns_intro; [|by apply returns_ret].
  destruct (Nat.ltb_spec 1 n).
  - unfold mbind, M_bind, lift. rewrite p99_index_spec by done.
    replace (Z.of_nat n * 99 / 100)%Z with (Z.of_nat (n * 99 / 100)) by (rewrite Nat2Z.inj_div, Nat2Z.inj_mul; done).
    by rewrite (list_get_lookup _ _ _ H99).
  - assert (n = 1) as E by lia. rewrite E in H99. pose proof (list_get_lookup s 0 _ H99) as E0. unfold lift. change 0%Z with (Z.of_nat 0). by rewrite E0.
Qed.

Lemma hists_lines_returns hs (m : Metrics V) :
  Forall (λ kv, length kv.2 ≤ 2048) hs → returns (hists_lines zero add print le div hs) m (λ _ m', m' = m).
Proof.
  induction 1 as [|[k vals] hs Hk Hhs IH]; cbn [hists_lines]; [by apply returns_ret|].
  apply returns_bind, returns_mono with (λ _ m', m' = m).
  - unfold hist_lines. case_bool_decide as E; [by apply returns_ret|]. apply returns_bind.
    eapply returns_mono; [apply summary_spec; [by intros ->|done]|]. intros [[p50 p99] avg] m' (-> & _). by apply returns_ret.
  - intros ls m' ->. apply returns_bind. eapply returns_mono; [exact IH|]. intros rest m' ->. by apply returns_ret.
Qed.

Lemma prometheus_returns uptime (m : Metrics V) :
  bounded m → returns (Metrics_prometheus zero add print le div uptime) m (λ _ m', m' = m).
Proof.
  intros Hm. unfold Metrics_prometheus. apply returns_bind. eapply returns_intro; [done|]. unfold Metrics_snapshot.
  apply returns_bind. eapply returns_mono; [by apply hists_lines_returns|]. intros ls m' ->. by apply returns_ret.
Qed.
End text.

(** A histogram after 2100 observations. *)
Example demo_metrics :
  let m := foldl (run_metric 0 Nat.add) Metrics_init (Observe "h" <$> seq 0 2100) in
  length (samples "h" m) = 1075 ∧ head (samples "h" m) = Some 1025
  ∧ counters (Metrics_inc 0 Nat.add "c" 2 (Metrics_inc 0 Nat.add "c" 3 m)) = [("c"%string, 5)].
Proof. vm_compute. repeat split. Qed.
