(* ===== verification/PartitionFacts.v ===== *)
(** * Retention of a partition (pylog/broker.py, [Partition.retention_sweep])

    On the segmented log: what the age limit and the byte budget remove. *)
From S2P Require Import Prelude Bytes LogRecord FileSystem Bisect Segment SegmentFacts CommitLog CommitLogFacts Retention LogSpec Broker.
Local Open Scope Z_scope.

Section partition.
Context (l : CommitLog) (first : Z) (ps : list (list LogRec)) (p : list LogRec) (fs : FS).
Hypothesis wf : log_wf fs l first ps p.

Lemma sorted_lookup_le bs i j a b :
  StronglySorted Z.lt bs → bs !! i = Some a → bs !! j = Some b → (i ≤ j)%nat ↔ a <= b.
Proof.
  intros Hs Hi Hj.
  assert (∀ i j a b, bs !! i = Some a → bs !! j = Some b → (i < j)%nat → a < b) as Hlt.
  { clear -Hs. intros i j a b Hi Hj Hij. by eapply (sorted_lookup bs Hs). }
  destruct (lt_eq_lt_dec i j) as [[H| ->]|H].
  - pose proof (Hlt _ _ _ _ Hi Hj H). lia.
  - simplify_eq. lia.
  - pose proof (Hlt _ _ _ _ Hj Hi H). lia.
Qed.

(** Cutting just above the base of segment [j] removes the segments up to [j], but
    never the active one. *)
Lemma swept_at j g k s' :
  segments l !! j = Some g → swept (base_offset g + 1) l first ps p k s' → k = Nat.min (S j) (length ps).
Proof.
  intros Hg (Hk & _ & _ & Hj).
  pose proof (starts_sorted first ps p (lw_full _ _ _ _ _ wf)) as Hso.
  assert (starts first (ps ++ [p]) !! j = Some (base_offset g)) as Hb.
  { rewrite <-(lw_bases _ _ _ _ _ wf), list_lookup_fmap, Hg. done. }
  assert (∀ i, (i < length ps)%nat → (i < k)%nat ↔ (i ≤ j)%nat) as Hi.
  { intros i Hi. destruct (lookup_lt_is_Some_2 (starts first ps) i) as [b Hbi]; [by rewrite length_starts|].
    rewrite (Hj i b Hbi). assert (starts first (ps ++ [p]) !! i = Some b) as Hbi'.
    { rewrite starts_snoc. by apply lookup_app_l_Some. }
    rewrite (sorted_lookup_le _ i j _ _ Hso Hbi' Hb). lia. }
  destruct (decide (S j ≤ length ps)%nat).
  - rewrite Nat.min_l by done. destruct (lt_eq_lt_dec k (S j)) as [[H|]|H]; [|done|].
    + exfalso. pose proof (Hi k ltac:(lia)). lia.
    + exfalso. pose proof (Hi (S j) ltac:(lia)). lia.
  - rewrite Nat.min_r by lia. destruct (decide (k = length ps)); [done|].
    exfalso. pose proof (Hi k ltac:(lia)). lia.
Qed.

Lemma expired_count_spec now age segs :
  (expired_count now age segs ≤ pred (length segs))%nat ∧
  ∀ i g, (i < expired_count now age segs)%nat → segs !! i = Some g → age < now - max_timestamp g.
Proof.
  induction segs as [|g segs [IHl IH]]; [split; [done|intros; cbn in *; lia]|].
  cbn [expired_count]. destruct segs as [|g' segs]; [split; [done|intros; lia]|].
  destruct (Z.ltb_spec age (now - max_timestamp g)) as [Hlt|]; [|split; [lia|intros; lia]].
  split; [cbn [length pred] in *; lia|]. intros [|i] h Hi Hh; cbn in Hh; [by simplify_eq|].
  apply (IH i); [lia|done].
Qed.

(** Every record of the expired segments is too old. *)
Lemma expired_records now age k :
  (k ≤ expired_count now age (segments l))%nat →
  Forall (λ r, age < now - rec_timestamp r) (concat (take k ps)).
Proof.
  intros Hk. destruct (expired_count_spec now age (segments l)) as [_ Hexp].
  apply Forall_forall. intros r Hr. rewrite list_elem_of_In, in_concat in Hr.
  destruct Hr as (q & [i Hi]%list_elem_of_In%list_elem_of_lookup & Hrq%list_elem_of_In).
  apply lookup_take_Some in Hi as [Hi Hik].
  destruct (Forall2_lookup_l _ _ _ _ _ (lw_segs _ _ _ _ _ wf) (lookup_app_l_Some _ _ _ _ Hi)) as (g & Hg & Hseg).
  pose proof (Hexp i g ltac:(lia) Hg). pose proof (wf_max_ts _ _ _ Hseg) as Hts.
  rewrite Forall_forall in Hts. specialize (Hts r Hrq). lia.
Qed.

Lemma log_wf_all : log_wf fs l (first + len (concat (take 0 ps))) (drop 0 ps) p.
Proof. change (len _) with 0. by rewrite Z.add_0_r. Qed.

Lemma length_segments : length (segments l) = S (length ps).
Proof. rewrite <-(Forall2_length _ _ _ (lw_segs _ _ _ _ _ wf)), length_app. cbn. lia. Qed.

(** The age limit removes the expired segments and nothing else. *)
Lemma sweep_by_age_run now age :
  let k := expired_count now age (segments l) in
  returns (sweep_by_age now (Some age)) (fs, l) (λ removed s',
    removed = Z.of_nat k ∧ (k ≤ length ps)%nat ∧
    log_wf s'.1 s'.2 (first + len (concat (take k ps))) (drop k ps) p ∧
    log_next_offset s'.2 = log_next_offset l).
Proof.
  intros k. destruct (expired_count_spec now age (segments l)) as [Hk _]. fold k in Hk.
  rewrite length_segments in Hk. cbn [pred] in Hk.
  unfold sweep_by_age. apply returns_bind. eapply returns_intro; [reflexivity|]. cbn [snd]. fold k.
  destruct k as [|j] eqn:Ek.
  { apply returns_ret. split_and!; [done|lia|exact log_wf_all|done]. }
  destruct (lookup_lt_is_Some_2 (segments l) j) as [g Hg]; [rewrite length_segments; lia|]. rewrite Hg.
  eapply returns_mono; [by eapply truncate_segments_before_spec|].
  intros removed s' (k' & -> & Hs). pose proof (swept_at _ _ _ _ Hg Hs) as ->.
  rewrite Nat.min_l in * by lia. destruct Hs as (_ & Hwf & Hn & _). split_and!; [done|lia|exact Hwf|exact Hn].
Qed.

(** One round of the byte budget: the two oldest segments go, unless only one may. *)
Lemma budget_round g0 g1 gs :
  segments l = g0 :: g1 :: gs →
  returns (CommitLog_truncate_segments_before (base_offset g1 + 1)) (fs, l) (λ _ s',
    let k := Nat.min 2 (length ps) in
    (0 < k)%nat ∧ log_wf s'.1 s'.2 (first + len (concat (take k ps))) (drop k ps) p).
Proof.
  intros E. eapply returns_mono; [by eapply truncate_segments_before_spec|].
  intros removed s' (k' & _ & Hs). pose proof length_segments as Hl. rewrite E in Hl. cbn in Hl.
  assert (segments l !! 1%nat = Some g1) as Hg by by rewrite E.
  pose proof (swept_at _ _ _ _ Hg Hs) as ->. destruct Hs as (_ & Hwf & _). split; [lia|exact Hwf].
Qed.
End partition.

(** The byte budget is met when the loop ends, or the active segment is alone. *)
Lemma sweep_by_size_run total fuel : ∀ fs l first ps p,
  log_wf fs l first ps p → (length ps < fuel)%nat →
  returns (sweep_by_size fuel total) (fs, l) (λ _ s', ∃ k, (k ≤ length ps)%nat ∧
    log_wf s'.1 s'.2 (first + len (concat (take k ps))) (drop k ps) p ∧
    (length (segments s'.2) = 1%nat ∨ size_bytes s'.2 <= total)).
Proof.
  induction fuel as [|fuel IH]; intros fs l first ps p wf Hf; [lia|]. cbn [sweep_by_size].
  apply returns_bind. eapply returns_intro; [reflexivity|]. cbn [snd].
  pose proof (log_wf_all _ _ _ _ _ wf) as wf0.
  pose proof (length_segments _ _ _ _ _ wf) as Hl.
  destruct (segments l) as [|g0 [|g1 gs]] eqn:E; [done| |].
  { apply returns_ret. exists O. split_and!; [lia|done|]. left. cbn [snd]. by rewrite E. }
  destruct (Z.leb_spec (size_bytes l) total).
  { apply returns_ret. exists O. split_and!; [lia|done|]. by right. }
  apply returns_bind. eapply returns_mono; [by eapply (budget_round l first ps p fs wf)|].
  intros _ [fs1 l1] [Hk wf1]. cbn [fst snd] in *. set (k := Nat.min 2 (length ps)) in *.
  assert (k ≤ length ps)%nat as Hkl by (unfold k; lia).
  apply returns_bind. eapply returns_mono; [apply (IH _ _ _ _ _ wf1); rewrite length_drop; lia|].
  intros r s2 (j & Hj & wf2 & Hend). apply returns_ret. rewrite length_drop in Hj. exists (k + j)%nat.
  split; [lia|]. split; [|exact Hend]. rewrite drop_drop in wf2.
  rewrite <-(take_take_drop ps k j), concat_app, len_app, Z.add_assoc. exact wf2.
Qed.
