(* ===== verification/GroupFacts.v ===== *)
(** * Consumer groups: committed offsets (pylog/broker.py)

    An offset is never moved back, and the group's file always holds the offsets in
    memory. *)
From Stdlib Require Import Ascii.
From S2P Require Import Prelude Bytes FileSystem Unicode Json JsonFacts StateFiles CommitLog Broker BrokerFacts.
Local Open Scope Z_scope.

(** ** Keys *)

Lemma all_digits_get s : all_digits s = true → ∀ i, String.get i s ≠ Some "/"%char.
Proof.
  induction s as [|c s IH]; intros Hs [|i]; cbn in *; try done; apply andb_true_iff in Hs as [Hc Hs].
  - intros [= ->]. done.
  - by apply IH.
Qed.

Lemma str_of_int_eq n : str_of_int n = if n <? 0 then String "-" (dec (- n)) else dec n.
Proof. unfold str_of_int, json_int. destruct (n <? 0); [|by rewrite str_of_bytes_of_str].
  change (x2d :: bytes_of_str (dec (- n))) with (bytes_of_str (String "-" (dec (- n)))). by rewrite str_of_bytes_of_str.
Qed.

Lemma str_of_int_no_slash n : ∀ i, String.get i (str_of_int n) ≠ Some "/"%char.
Proof.
  rewrite str_of_int_eq. destruct (Z.ltb_spec n 0).
  - intros [|i]; [done|]. apply (all_digits_get (dec (- n))), all_digits_dec. lia.
  - apply all_digits_get, all_digits_dec. lia.
Qed.

Lemma str_of_int_inj a b : str_of_int a = str_of_int b → a = b.
Proof.
  assert (∀ n t, 0 <= n → dec n ≠ String "-" t) as Hno.
  { intros n t Hn E. pose proof (all_digits_dec n Hn) as H.
    by rewrite E in H. }
  rewrite !str_of_int_eq. destruct (Z.ltb_spec a 0), (Z.ltb_spec b 0); intros E.
  - injection E as E. apply dec_inj in E; lia.
  - symmetry in E. by apply Hno in E.
  - by apply Hno in E.
  - apply dec_inj in E; lia.
Qed.

(** The last slash separates the topic from the partition. *)
Lemma app_slash_inj a b s t :
  (∀ i, String.get i s ≠ Some "/"%char) → (∀ i, String.get i t ≠ Some "/"%char) →
  (a +:+ String "/" s)%string = (b +:+ String "/" t)%string → a = b ∧ s = t.
Proof.
  assert (∀ b s t, (∀ i, String.get i s ≠ Some "/"%char) → s ≠ (b +:+ String "/" t)%string) as Hno.
  { clear. induction b as [|c b IH]; intros s t Hs E; subst.
    - by apply (Hs O).
    - apply (IH (b +:+ String "/" t)%string t); [|done]. intros i. apply (Hs (S i)). }
  intros Hs Ht. revert b. induction a as [|c a IH]; intros [|d b] E.
  - by injection E as ->.
  - injection E as _ E. by apply Hno in E.
  - injection E as _ E. symmetry in E. by apply Hno in E.
  - change (String c (a +:+ String "/" s) = String d (b +:+ String "/" t))%string in E.
    injection E as -> E. apply IH in E as [-> ->]. done.
Qed.

Lemma offset_key_inj t p t' p' : offset_key t p = offset_key t' p' → t = t' ∧ p = p'.
Proof.
  intros [-> E]%app_slash_inj; [|apply str_of_int_no_slash..]. split; [done|]. by apply str_of_int_inj.
Qed.

(** ** The file *)

Lemma offsets_of_json_fmap o : offsets_of_json ((λ kn, (kn.1, JInt kn.2)) <$> o) = inr o.
Proof. induction o as [|[k n] o IH]; [done|]. cbn. by rewrite IH. Qed.

Lemma parse_offsets_text o : NoDup o.*1 → parse_offsets (offsets_text o) = inr o.
Proof.
  intros Hnd. unfold parse_offsets, offsets_text. rewrite loads_dumps; [apply offsets_of_json_fmap|].
  unfold json_wf. fold json_wf. apply andb_true_iff. split; [|by apply forallb_fmap_true].
  apply bool_decide_eq_true. by rewrite <-list_fmap_compose.
Qed.

(** ** The groups of a broker *)

(** The group the broker has or would load; what is in memory is what the file
    holds. *)
Definition group_of (s : DataDir * Broker) (name : string) : Exn + ConsumerGroup :=
  ConsumerGroup_init name (dd_groups s.1).

Record groups_ok (s : DataDir * Broker) : Prop := {
  go_memory name g : dict_get name (groups s.2) = Some g → group_of s name = inr g;
  go_files name g : group_of s name = inr g → NoDup (g_offsets g).*1;
}.

Lemma group_name s name g : group_of s name = inr g → g_name g = name.
Proof. unfold group_of, ConsumerGroup_init. intros E. repeat case_match; by simplify_eq. Qed.

Lemma group_spec s name g :
  groups_ok s → group_of s name = inr g →
  returns (Broker_group name) s (λ g' s', g' = g ∧ s'.1 = s.1 ∧ groups_ok s' ∧
    s'.2 = s.2 <| groups := groups s'.2 |>).
Proof.
  destruct s as [d b]. intros [Hm Hf] Hg. unfold Broker_group, returns. cbn [fst snd] in *.
  destruct (dict_get name (groups b)) as [g'|] eqn:E.
  - rewrite (Hm _ _ E) in Hg. injection Hg as ->. split_and!; [done..|by destruct b].
  - unfold group_of in Hg. cbn [fst] in Hg. rewrite Hg. split_and!; [done|done| |done].
    constructor; [|exact Hf]. intros name' g'. cbn [snd fst]. destruct (decide (name' = name)) as [->|Hne].
    + cbn. rewrite dict_get_set. by intros [= <-].
    + cbn. rewrite dict_get_set_ne by done. apply Hm.
Qed.

Lemma group_file_inj a b : group_file a = group_file b → a = b.
Proof.
  unfold group_file. intros E. apply (f_equal (FileSystem.strip_suffix ".json")) in E.
  rewrite !strip_suffix_app in E. by injection E.
Qed.

(** The offsets after a commit. *)
Definition committed_after (t : string) (p o : Z) (g : ConsumerGroup) : list (string * Z) :=
  if o <? ConsumerGroup_committed t p g then g_offsets g else dict_set (offset_key t p) o (g_offsets g).

Lemma commit_spec s name t p o g :
  groups_ok s → group_of s name = inr g →
  let g' := mkGroup name (committed_after t p o g) in
  returns (Broker_commit name t p o) s (λ _ s',
    groups_ok s' ∧ group_of s' name = inr g' ∧ dict_get name (groups s'.2) = Some g' ∧
    (∀ name', name' ≠ name → group_of s' name' = group_of s name') ∧
    dd_topics s'.1 = dd_topics s.1 ∧ s'.2 = s.2 <| groups := groups s'.2 |>).
Proof.
  intros Hok Hg g'. pose proof (group_name _ _ _ Hg) as Hn. pose proof (go_files _ Hok _ _ Hg) as Hnd.
  unfold Broker_commit. apply returns_bind. eapply returns_mono; [by apply group_spec|].
  intros g1 [d1 b1] (-> & Hd1 & Hok1 & Hb1). cbn [fst snd] in *. subst d1.
  assert (group_of (s.1, b1) name = inr g) as Hg1 by exact Hg.
  unfold on_group, ConsumerGroup_commit, returns, modify. cbn [fst snd].
  unfold g', committed_after. destruct (o <? ConsumerGroup_committed t p g).
  - cbn [fst snd update]. assert (mkGroup name (g_offsets g) = g) as -> by (destruct g; cbn in *; by subst).
    split_and!; [|done|by cbn; rewrite dict_get_set|done|done|by rewrite Hb1].
    destruct Hok1 as [Hm Hf]. constructor; [|exact Hf]. intros name' h. cbn.
    destruct (decide (name' = name)) as [->|Hne]; [rewrite dict_get_set; by intros [= <-]|].
    rewrite dict_get_set_ne by done. apply Hm.
  - set (offsets := dict_set _ _ _). assert (NoDup offsets.*1) as Hnd' by by apply dict_set_nodup.
    cbn [fst snd]. rewrite Hn.
    set (s' := (_, _)). assert (∀ nm, group_of s' nm = if decide (nm = name) then inr (mkGroup name offsets) else group_of s nm) as Hgs.
    { intros nm. change (group_of s' nm) with
        (ConsumerGroup_init nm (fs_write (group_file name) (offsets_text offsets) (dd_groups s.1))).
      unfold ConsumerGroup_init, fs_write. case_decide as E.
      - subst. by rewrite lookup_insert_eq, parse_offsets_text.
      - rewrite lookup_insert_ne; [done|]. intros E'%group_file_inj. congruence. }
    split_and!.
    + destruct Hok1 as [Hm Hf]. constructor.
      * intros nm h. cbn. rewrite Hgs. case_decide as E; [subst; rewrite dict_get_set; by intros [= <-]|].
        rewrite dict_get_set_ne by done. apply Hm.
      * intros nm h. rewrite Hgs. case_decide as E; [by intros [= <-]|]. apply Hf.
    + rewrite Hgs. by rewrite decide_True.
    + cbn. by rewrite dict_get_set.
    + intros nm Hne. rewrite Hgs. by rewrite decide_False.
    + done.
    + cbn. by rewrite Hb1.
Qed.

Lemma committed_after_spec t p o g t' p' :
  -1 <= o →
  default (-1) (dict_get (offset_key t' p') (committed_after t p o g)) =
    if decide ((t', p') = (t, p)) then Z.max (ConsumerGroup_committed t p g) o
    else ConsumerGroup_committed t' p' g.
Proof.
  intros Ho. unfold committed_after. destruct (Z.ltb_spec o (ConsumerGroup_committed t p g)) as [Hlt|Hge].
  - case_decide as E; [injection E as -> ->|done]. fold (ConsumerGroup_committed t p g). lia.
  - case_decide as E.
    + injection E as -> ->. rewrite dict_get_set. cbn. lia.
    + rewrite dict_get_set_ne; [done|]. intros [-> ->]%offset_key_inj. done.
Qed.
