(* ===== verification/ElectionSpec.v ===== *)
(** * Leader election: the abstract protocol

    What an election promises, without timers, logs or handlers: servers raise
    terms, grant at most one vote per term, count the votes granted to them and
    claim leadership with a majority.  Every message is kept forever, so that loss,
    duplication and reordering are delivery choices.  The theorem is that a term
    has at most one leader; [RaftNode] is shown to implement this protocol in
    [Network]. *)
From stdpp Require Import relations.
From S2P Require Import Prelude Bytes RaftLog KVStore RaftInterfaces RaftNode.
Local Open Scope Z_scope.

Record Server := mkServer {
  s_term : Z;
  s_voted : option NodeId;
  s_role : Role;
  s_votes : gset NodeId;
}.

(** A leader's message for a term. *)
Definition claims (m : Msg) (t : Z) (l : NodeId) : Prop :=
  match m with
  | Append t' l' _ _ _ _ | InstallSnapshot t' l' _ _ _ => t' = t ∧ l' = l
  | _ => False
  end.

(** What a server may send in a state; [d] is the destination. *)
Definition may_send (me : NodeId) (s : Server) (d : NodeId) (m : Msg) : Prop :=
  match m with
  | VoteResp t v true => v = me ∧ t = s_term s ∧ s_voted s = Some d
  | Append t l _ _ _ _ | InstallSnapshot t l _ _ _ => l = me ∧ t = s_term s ∧ s_role s = LEADER
  | _ => True
  end.

Definition majority (C votes : gset NodeId) : Prop :=
  Z.of_nat (size C) / 2 < Z.of_nat (size votes).

(** One action of server [me] among the servers [C]; [heard t v] says that a vote
    of [v] for [me] in term [t] has been received. *)
Inductive action (C : gset NodeId) (me : NodeId) (heard : Z → NodeId → Prop)
    : Server * list (NodeId * Msg) → Server * list (NodeId * Msg) → Prop :=
  | act_send s out d m :
      may_send me s d m → action C me heard (s, out) (s, out ++ [(d, m)])
  | act_step_down s out t :
      s_term s <= t →
      action C me heard (s, out)
        (mkServer t (if s_term s <? t then None else s_voted s) FOLLOWER (s_votes s), out)
  | act_restart s out :
      action C me heard (s, out) (mkServer (s_term s) (s_voted s) FOLLOWER ∅, out)
  | act_grant s out c :
      s_voted s = None ∨ s_voted s = Some c →
      action C me heard (s, out) (mkServer (s_term s) (Some c) (s_role s) (s_votes s), out)
  | act_campaign s out :
      action C me heard (s, out) (mkServer (s_term s + 1) (Some me) CANDIDATE {[me]}, out)
  | act_count s out v :
      s_role s = CANDIDATE → heard (s_term s) v →
      action C me heard (s, out)
        (mkServer (s_term s) (s_voted s) (s_role s) (s_votes s ∪ {[v]}), out)
  | act_win s out :
      s_role s = CANDIDATE → majority C (s_votes s) →
      action C me heard (s, out) (mkServer (s_term s) (s_voted s) LEADER (s_votes s), out).

(** The cluster: the servers and every message ever sent, with its destination. *)
Record Cluster := mkCluster {
  servers : gmap NodeId Server;
  wire : list (NodeId * Msg);
}.

Definition vote_heard (wire : list (NodeId * Msg)) (me : NodeId) (t : Z) (v : NodeId) : Prop :=
  (me, VoteResp t v true) ∈ wire.

Inductive cluster_step (C : gset NodeId) : Cluster → Cluster → Prop :=
  | cluster_action c i s s' out :
      servers c !! i = Some s →
      action C i (vote_heard (wire c) i) (s, []) (s', out) →
      cluster_step C c (mkCluster (<[i := s']> (servers c)) (wire c ++ out)).

(** Servers start as followers that have not voted in their term. *)
Definition cluster_init (C : gset NodeId) (c : Cluster) : Prop :=
  dom (servers c) = C ∧ wire c = [] ∧
  ∀ i s, servers c !! i = Some s → s_role s = FOLLOWER ∧ s_voted s = None.

Definition cluster_reachable (C : gset NodeId) (c : Cluster) : Prop :=
  ∃ c0, cluster_init C c0 ∧ rtc (cluster_step C) c0 c.

(** ** Quorums *)

Lemma majorities_meet (C X Y : gset NodeId) :
  X ⊆ C → Y ⊆ C → majority C X → majority C Y → ∃ v, v ∈ X ∧ v ∈ Y.
Proof.
  intros HX HY MX MY. unfold majority in *.
  destruct (decide (X ∩ Y = ∅)) as [E|E].
  - assert (size (X ∪ Y) = size X + size Y)%nat as Hs by (by apply size_union, disjoint_intersection_L).
    assert (size (X ∪ Y) ≤ size C)%nat by (by apply subseteq_size, union_least). div_lia.
  - apply set_choose_L in E as [v Hv]. exists v. by apply elem_of_intersection in Hv.
Qed.

(** ** The invariant

    [cast] records every ballot: voter, term, candidate. *)
Abbreviation Ballots := (gset (NodeId * Z * NodeId)).

Definition elected (C : gset NodeId) (cast : Ballots) (t : Z) (l : NodeId) : Prop :=
  ∃ Q : gset NodeId, Q ⊆ C ∧ majority C Q ∧ ∀ v, v ∈ Q → (v, t, l) ∈ cast.

Record server_ok (C : gset NodeId) (cast : Ballots) (i : NodeId) (s : Server) : Prop := {
  so_cast t c : (i, t, c) ∈ cast → t <= s_term s ∧ (t = s_term s → s_voted s = Some c);
  so_voted c : s_voted s = Some c → (i, s_term s, c) ∈ cast;
  so_votes : s_role s ≠ FOLLOWER →
    s_votes s ⊆ C ∧ ∀ v, v ∈ s_votes s → (v, s_term s, i) ∈ cast;
  so_leader : s_role s = LEADER → majority C (s_votes s);
}.

Record election_inv (C : gset NodeId) (cast : Ballots) (c : Cluster) : Prop := {
  ei_dom : dom (servers c) = C;
  ei_servers i s : servers c !! i = Some s → server_ok C cast i s;
  ei_once v t a b : (v, t, a) ∈ cast → (v, t, b) ∈ cast → a = b;
  ei_voter v t a : (v, t, a) ∈ cast → v ∈ C;
  ei_granted d t v : (d, VoteResp t v true) ∈ wire c → (v, t, d) ∈ cast;
  ei_claims d m t l : (d, m) ∈ wire c → claims m t l → elected C cast t l;
}.

Lemma elected_mono C cast cast' t l : cast ⊆ cast' → elected C cast t l → elected C cast' t l.
Proof. intros Hsub (Q & HC & HM & HQ). exists Q. split_and!; [done..|]. intros v Hv. by apply Hsub, HQ. Qed.

Lemma elected_unique C cast t a b :
  (∀ v t a b, (v, t, a) ∈ cast → (v, t, b) ∈ cast → a = b) →
  elected C cast t a → elected C cast t b → a = b.
Proof.
  intros Honce (X & HX & MX & VX) (Y & HY & MY & VY).
  destruct (majorities_meet C X Y) as (v & Hx & Hy); [done..|]. eapply Honce; eauto.
Qed.

Lemma leader_elected C cast i s :
  server_ok C cast i s → s_role s = LEADER → elected C cast (s_term s) i.
Proof.
  intros ok Hl. destruct (so_votes _ _ _ _ ok) as [HC HV]; [by rewrite Hl|].
  exists (s_votes s). split_and!; [done|by apply ok|done].
Qed.

(** A step of server [i] preserves the invariant when its new state is fine for the
    enlarged ballots and its new messages are justified. *)
Lemma election_inv_update C cast cast' c i s' out :
  election_inv C cast c → i ∈ C → cast ⊆ cast' →
  (∀ v t a, (v, t, a) ∈ cast' → (v, t, a) ∈ cast ∨ (v = i ∧ ∀ b, (v, t, b) ∈ cast' → b = a)) →
  server_ok C cast' i s' →
  (∀ d t v, (d, VoteResp t v true) ∈ out → (v, t, d) ∈ cast') →
  (∀ d m t l, (d, m) ∈ out → claims m t l → elected C cast' t l) →
  election_inv C cast' (mkCluster (<[i := s']> (servers c)) (wire c ++ out)).
Proof.
  intros inv Hi Hsub Hnew Hok Hgr Hcl. destruct inv as [Hd Hs Ho Hv Hg Hc].
  constructor; cbn [servers wire].
  - rewrite dom_insert_L, Hd. by apply subseteq_union_1_L, singleton_subseteq_l.
  - intros j s Hj. destruct (decide (j = i)) as [->|Hne]; [rewrite lookup_insert_eq in Hj; by injection Hj as <-|].
    rewrite lookup_insert_ne in Hj by done. destruct (Hs j s Hj) as [H1 H2 H3 H4]. constructor.
    + intros t c0 Hin. destruct (Hnew _ _ _ Hin) as [|[-> _]]; [by apply H1|done].
    + intros c0 Hc0. by apply Hsub, H2.
    + intros Hr. destruct (H3 Hr) as [HC HV]. split; [done|]. intros v Hin. by apply Hsub, HV.
    + done.
  - intros v t a b Ha Hb. destruct (Hnew _ _ _ Ha) as [Ha'|[-> Hu]]; [|symmetry; by apply Hu].
    destruct (Hnew _ _ _ Hb) as [Hb'|[-> Hu]]; [by eapply Ho|by apply Hu].
  - intros v t a Ha. destruct (Hnew _ _ _ Ha) as [Ha'|[-> _]]; [by eapply Hv|done].
  - intros d t v [Hin|Hin]%elem_of_app; [by apply Hsub, Hg|by apply Hgr].
  - intros d m t l [Hin|Hin]%elem_of_app Hm; [|by eapply Hcl].
    eapply elected_mono; [exact Hsub|by eapply Hc].
Qed.

(** Nothing sent, nothing to justify. *)
Lemma no_grant (cast : Ballots) d t v : (d, VoteResp t v true) ∈ @nil (NodeId * Msg) → (v, t, d) ∈ cast.
Proof. by intros ?%not_elem_of_nil. Qed.

Lemma no_claim C cast d m t l : (d, m) ∈ @nil (NodeId * Msg) → claims m t l → elected C cast t l.
Proof. by intros ?%not_elem_of_nil. Qed.

(** A new ballot of [i] for the server's own current term, not used so far. *)
Lemma fresh_ballot C cast c i t a :
  election_inv C cast c → (∀ b, (i, t, b) ∈ cast → b = a) →
  ∀ v t' b, (v, t', b) ∈ cast ∪ {[(i, t, a)]} →
    (v, t', b) ∈ cast ∨ (v = i ∧ ∀ b', (v, t', b') ∈ cast ∪ {[(i, t, a)]} → b' = b).
Proof.
  intros inv Hf v t' b [Hin|Hin]%elem_of_union; [by left|]. right.
  apply elem_of_singleton in Hin as [= -> -> ->]. split; [done|].
  intros b' [Hb|Hb]%elem_of_union; [by apply Hf|]. by apply elem_of_singleton in Hb as [= ->].
Qed.

Lemma election_inv_step C cast c c' :
  election_inv C cast c → cluster_step C c c' → ∃ cast', cast ⊆ cast' ∧ election_inv C cast' c'.
Proof.
  intros inv Hstep. destruct Hstep as [c i s s' out Hi Hact].
  assert (i ∈ C) as HiC by (rewrite <-(ei_dom _ _ _ inv); by eapply elem_of_dom_2).
  pose proof (ei_servers _ _ _ inv i s Hi) as ok. pose proof ok as [Hcast Hvoted Hvotes Hlead].
  remember (s, @nil (NodeId * Msg)) as x eqn:Ex. remember (s', out) as y eqn:Ey.
  destruct Hact as [s0 o d m Hm|s0 o t Ht|s0 o|s0 o a Ha|s0 o|s0 o v Hr Hh|s0 o Hr Hm];
    injection Ex as -> ->; injection Ey as <- <-.
  - exists cast. split; [done|]. eapply election_inv_update; [done..|by left|done| |].
    + intros d' t v [= <- <-]%list_elem_of_singleton. cbn in Hm. destruct Hm as (-> & -> & Hd). by apply Hvoted.
    + intros d' m' t l [= -> ->]%list_elem_of_singleton Hcl.
      destruct m; try done; destruct Hcl as [-> ->]; destruct Hm as (-> & -> & Hr); by apply leader_elected.
  - exists cast. split; [done|]. eapply election_inv_update; [done..|by left| |apply no_grant|apply no_claim].
    constructor; cbn; try done.
    + intros t' a Hin. destruct (Hcast _ _ Hin) as [Hle Hv]. split; [lia|]. intros ->.
      destruct (Z.ltb_spec (s_term s) t); [lia|]. apply Hv. lia.
    + intros a. destruct (Z.ltb_spec (s_term s) t); [done|]. replace t with (s_term s) by lia. apply Hvoted.
  - exists cast. split; [done|]. eapply election_inv_update; [done..|by left| |apply no_grant|apply no_claim]. by constructor.
  - exists (cast ∪ {[(i, s_term s, a)]}). split; [apply union_subseteq_l|]. eapply election_inv_update; [done..|apply union_subseteq_l| | |apply no_grant|apply no_claim].
    + eapply fresh_ballot; [done|]. intros b Hb. destruct (Hcast _ _ Hb) as [_ Hv]. specialize (Hv eq_refl).
      destruct Ha as [Ha|Ha]; congruence.
    + constructor; cbn; try done.
      * intros t b [Hin|Hin]%elem_of_union.
        -- destruct (Hcast _ _ Hin) as [Hle Hv]. split; [done|]. intros E. specialize (Hv E).
           destruct Ha as [Ha|Ha]; congruence.
        -- by apply elem_of_singleton in Hin as [= -> ->].
      * intros b [= ->]. apply elem_of_union. right. by apply elem_of_singleton.
      * intros Hr. destruct (Hvotes Hr) as [HC HV]. split; [done|]. intros v Hv. apply elem_of_union. left. by apply HV.
  - exists (cast ∪ {[(i, s_term s + 1, i)]}). split; [apply union_subseteq_l|]. eapply election_inv_update; [done..|apply union_subseteq_l| | |apply no_grant|apply no_claim].
    + eapply fresh_ballot; [done|]. intros b Hb. destruct (Hcast _ _ Hb). lia.
    + constructor; cbn; try done.
      * intros t b [Hin|Hin]%elem_of_union; [destruct (Hcast _ _ Hin); lia|].
        by apply elem_of_singleton in Hin as [= -> ->].
      * intros b [= ->]. apply elem_of_union. right. by apply elem_of_singleton.
      * intros _. split; [by apply singleton_subseteq_l|]. intros v ->%elem_of_singleton. apply elem_of_union. right. by apply elem_of_singleton.
  - exists cast. split; [done|]. eapply election_inv_update; [done..|by left| |apply no_grant|apply no_claim].
    apply (ei_granted _ _ _ inv) in Hh. constructor; cbn; try done; [|by rewrite Hr].
    intros Hnf. destruct (Hvotes Hnf) as [HC HV]. split.
    + apply (ei_voter _ _ _ inv) in Hh. apply union_least; [done|]. by apply singleton_subseteq_l.
    + intros u [Hu|Hu]%elem_of_union; [by apply HV|]. by apply elem_of_singleton in Hu as ->.
  - exists cast. split; [done|]. eapply election_inv_update; [done..|by left| |apply no_grant|apply no_claim].
    constructor; cbn; try done. intros _. apply Hvotes. by rewrite Hr.
Qed.

Lemma election_inv_init C c : cluster_init C c → election_inv C ∅ c.
Proof.
  intros (Hd & Hw & Hs). constructor; rewrite ?Hw; [done|..].
  - intros i s Hi. destruct (Hs i s Hi) as [Hr Hv]. constructor; rewrite ?Hr, ?Hv; try done.
  - by intros v t a b Hin%elem_of_empty.
  - by intros v t a Hin%elem_of_empty.
  - by intros d t v Hin%not_elem_of_nil.
  - by intros d m t l Hin%not_elem_of_nil.
Qed.

Lemma election_inv_reachable C c : cluster_reachable C c → ∃ cast, election_inv C cast c.
Proof.
  intros (c0 & H0 & Hsteps). assert (∃ cast, election_inv C cast c0) as Hinv
    by (exists ∅; by apply election_inv_init).
  clear H0. induction Hsteps as [|x y z Hxy _ IH]; [done|].
  destruct Hinv as [cast inv]. apply IH. destruct (election_inv_step _ _ _ _ inv Hxy) as (cast' & _ & inv'). by exists cast'.
Qed.

Lemma election_inv_steps C cast c c' :
  election_inv C cast c → rtc (cluster_step C) c c' → ∃ cast', cast ⊆ cast' ∧ election_inv C cast' c'.
Proof.
  intros inv Hsteps. revert cast inv. induction Hsteps as [c|x y z Hxy _ IH]; intros cast inv; [by exists cast|].
  destruct (election_inv_step _ _ _ _ inv Hxy) as (cast1 & H1 & inv1). destruct (IH _ inv1) as (cast2 & H2 & inv2).
  exists cast2. split; [by etrans|done].
Qed.

(** Within a term a server only goes from candidate to leader to follower. *)
Definition rank (r : Role) : nat := match r with FOLLOWER => 0 | LEADER => 1 | CANDIDATE => 2 end.

Definition aged (s s' : Server) : Prop :=
  s_term s <= s_term s' ∧ (s_term s' = s_term s → rank (s_role s') ≤ rank (s_role s))%nat.

#[export] Instance aged_preorder : PreOrder aged.
Proof. split; [by intros s|]. intros a b c [T1 R1] [T2 R2]. split; [lia|]. intros E. etrans; [apply R2|apply R1]; lia. Qed.

Lemma action_aged C me heard x y : action C me heard x y → aged x.1 y.1.
Proof.
  intros Ha. destruct Ha as [s o d m Hm|s o t Ht|s o|s o a Ha|s o|s o v Hr Hh|s o Hr Hm]; unfold aged; cbn;
    rewrite ?Hr; cbn; try (split; [lia|intros _; lia]). split; [lia|lia].
Qed.

Lemma cluster_aged C c c' i s :
  rtc (cluster_step C) c c' → servers c !! i = Some s → ∃ s', servers c' !! i = Some s' ∧ aged s s'.
Proof.
  intros Hsteps. revert s. induction Hsteps as [c|x y z Hxy _ IH]; intros s Hi; [by exists s|].
  assert (∃ s1, servers y !! i = Some s1 ∧ aged s s1) as (s1 & H1 & A1).
  { destruct Hxy as [c j s0 s1 out Hj Hact]. cbn. destruct (decide (i = j)) as [->|Hne].
    - rewrite lookup_insert_eq. exists s1. split; [done|]. rewrite Hj in Hi. injection Hi as ->.
      exact (action_aged _ _ _ _ _ Hact).
    - rewrite lookup_insert_ne by done. by exists s. }
  destruct (IH s1 H1) as (s2 & H2 & A2). exists s2. split; [done|by etrans].
Qed.

(** At most one leader per term, now and ever: leaders in office, and the leaders
    messages were sent by. *)
Definition leads (c : Cluster) (t : Z) (l : NodeId) : Prop :=
  (∃ s, servers c !! l = Some s ∧ s_role s = LEADER ∧ s_term s = t)
  ∨ (∃ d m, (d, m) ∈ wire c ∧ claims m t l).

Lemma one_leader_per_term C c t a b :
  cluster_reachable C c → leads c t a → leads c t b → a = b.
Proof.
  intros [cast inv]%election_inv_reachable Ha Hb.
  assert (∀ l, leads c t l → elected C cast t l) as Hel.
  { intros l [(s & Hl & Hr & <-)|(d & m & Hin & Hm)].
    - eapply leader_elected; [by eapply ei_servers|done].
    - by eapply ei_claims. }
  eapply elected_unique; [apply (ei_once _ _ _ inv)|by apply Hel|by apply Hel].
Qed.
