(* ===== verification/RaftSpec.v ===== *)
(** * The Raft protocol, abstractly

    The election protocol of [ElectionSpec] with logs: servers that replicate a list
    of entries, commit and apply it, and what a server may do and say.  As in the code,
    a follower that has what a message carries takes over its commit index up to the
    end of its own log.  The history of a run, which
    ballots were cast with which log and which logs each leader had, gives the two
    safety properties of the log: two logs with an entry of the same index and term
    agree up to it, and what a leader has on a majority in its own term is in the
    log of every later leader. *)
From stdpp Require Import relations.
From S2P Require Import Prelude Bytes RaftLog RaftLogFacts KVStore RaftInterfaces RaftNode ElectionSpec.
Local Open Scope Z_scope.

(** ** Logs *)

(** The log has an entry of term [t] at position [j]. *)
Definition has (log : list Entry) (j : nat) (t : Z) : Prop := ∃ e, log !! j = Some e ∧ e_term e = t.

(** The term before index [pi] + 1, as [RaftLog.term_at]. *)
Definition term_before (log : list Entry) (pi : Z) : Z :=
  if pi =? 0 then 0 else match log !! Z.to_nat (pi - 1) with Some e => e_term e | None => -1 end.

(** What an append message after index [pi] carries of a log. *)
Definition slice_of (log : list Entry) (pi pt : Z) (es : list Entry) : Prop :=
  0 <= pi ∧ pt = term_before log pi ∧ ∃ m, es = take m (drop (Z.to_nat pi) log).

Definition fits (log : list Entry) (pi pt : Z) : Prop := 0 <= pi <= len log ∧ term_before log pi = pt.

(** The log has what such a message carries. *)
Definition holds (log : list Entry) (pi pt : Z) (es : list Entry) : Prop :=
  fits log pi pt ∧ ∀ k e, es !! k = Some e → has log (Z.to_nat pi + k) (e_term e).

(** The last term and the last index, by which logs are compared. *)
Definition freshness (log : list Entry) : Z * Z := (default 0 (e_term <$> last log), len log).

(** ** The state machine

    What an entry does to the data of the store, and the data after a log. *)
Definition kv_step (d : gmap string string) (e : Entry) : gmap string string := kv_data (sm_step (mkKV d 0) e).

Definition replay (log : list Entry) : gmap string string := foldl kv_step ∅ log.

(** ** The protocol *)

Record Replica := mkReplica {
  r_server : Server;
  r_log : list Entry;
  r_match : gmap NodeId Z;
  r_commit : Z;
  r_machine : Z * gmap string string;
}.

Abbreviation r_term r := (s_term (r_server r)).
Abbreviation r_role r := (s_role (r_server r)).

(** The commit rule: with the leader itself, a majority has its log up to index [k]. *)
Definition quorum (C : gset NodeId) (M : gmap NodeId Z) (k : Z) : bool :=
  Z.of_nat (size C) / 2 + 1 <=? 1 + Z.of_nat (size (filter (λ '(p, mi), k <= mi ∧ p ∈ C) M)).

(** What a server may say; [heard] are the messages sent to it. *)
Definition may_say (me : NodeId) (heard : Msg → Prop) (r : Replica) (d : NodeId) (m : Msg) : Prop :=
  match m with
  | Vote t c li lt => c = me ∧ t = r_term r ∧ r_role r = CANDIDATE ∧ (lt, li) = freshness (r_log r)
  | VoteResp t v true => v = me ∧ t = r_term r ∧ s_voted (r_server r) = Some d
  | Append t l pi pt es c =>
      l = me ∧ d ≠ me ∧ t = r_term r ∧ r_role r = LEADER ∧ c = r_commit r ∧ slice_of (r_log r) pi pt es
  | AppendResp t v success x _ =>
      v = me ∧ d ≠ me ∧ (success = true → t = r_term r ∧ r_role r = FOLLOWER ∧
        ∃ l pi pt es c, heard (Append t l pi pt es c) ∧ x = pi + len es ∧ holds (r_log r) pi pt es)
  | InstallSnapshot _ _ _ _ _ => False
  | _ => True
  end.

Inductive raft_action (C : gset NodeId) (me : NodeId) (heard : Msg → Prop)
    : Replica * list (NodeId * Msg) → Replica * list (NodeId * Msg) → Prop :=
  | ra_say r out d m :
      may_say me heard r d m → raft_action C me heard (r, out) (r, out ++ [(d, m)])
  | ra_step_down s log M ci mc out t :
      s_term s <= t →
      raft_action C me heard (mkReplica s log M ci mc, out)
        (mkReplica (mkServer t (if s_term s <? t then None else s_voted s) FOLLOWER (s_votes s)) log ∅ ci mc, out)
  | ra_restart s log M ci mc out :
      raft_action C me heard (mkReplica s log M ci mc, out)
        (mkReplica (mkServer (s_term s) (s_voted s) FOLLOWER ∅) log ∅ 0 (0, ∅), out)
  | ra_grant s log M ci mc out c li lt :
      s_voted s = None ∨ s_voted s = Some c →
      heard (Vote (s_term s) c li lt) → pair_ge (lt, li) (freshness log) = true →
      raft_action C me heard (mkReplica s log M ci mc, out)
        (mkReplica (mkServer (s_term s) (Some c) (s_role s) (s_votes s)) log M ci mc, out)
  | ra_campaign s log M ci mc out :
      raft_action C me heard (mkReplica s log M ci mc, out)
        (mkReplica (mkServer (s_term s + 1) (Some me) CANDIDATE {[me]}) log ∅ ci mc, out)
  | ra_count s log M ci mc out v :
      s_role s = CANDIDATE → heard (VoteResp (s_term s) v true) →
      raft_action C me heard (mkReplica s log M ci mc, out)
        (mkReplica (mkServer (s_term s) (s_voted s) (s_role s) (s_votes s ∪ {[v]})) log M ci mc, out)
  | ra_win s log M ci mc out :
      s_role s = CANDIDATE → majority C (s_votes s) →
      raft_action C me heard (mkReplica s log M ci mc, out)
        (mkReplica (mkServer (s_term s) (s_voted s) LEADER (s_votes s)) log ∅ ci mc, out)
  | ra_table s log M ci mc out M' :
      (∀ p x, M' !! p = Some x →
         x <= 0 ∨ M !! p = Some x ∨ ∃ c, heard (AppendResp (s_term s) p true x c)) →
      raft_action C me heard (mkReplica s log M ci mc, out) (mkReplica s log M' ci mc, out)
  | ra_append s log M ci mc out payload :
      s_role s = LEADER →
      raft_action C me heard (mkReplica s log M ci mc, out)
        (mkReplica s (log ++ [mkEntry (len log + 1) (s_term s) payload]) M ci mc, out)
  | ra_merge s log M ci mc out l pi pt es c :
      s_role s = FOLLOWER → heard (Append (s_term s) l pi pt es c) → fits log pi pt →
      raft_action C me heard (mkReplica s log M ci mc, out)
        (mkReplica s (merge_entries (Z.to_nat pi) log es) M ci mc, out)
  | ra_commit s log M ci mc out j :
      s_role s = LEADER → has log j (s_term s) → quorum C M (Z.of_nat j + 1) = true →
      raft_action C me heard (mkReplica s log M ci mc, out) (mkReplica s log M (Z.of_nat j + 1) mc, out)
  | ra_follow s log M ci mc out l pi pt es c :
      s_role s = FOLLOWER → heard (Append (s_term s) l pi pt es c) → holds log pi pt es →
      raft_action C me heard (mkReplica s log M ci mc, out) (mkReplica s log M (Z.min c (len log)) mc, out)
  | ra_apply s log M ci k d out e :
      k < ci → log !! Z.to_nat k = Some e →
      raft_action C me heard (mkReplica s log M ci (k, d), out) (mkReplica s log M ci (k + 1, kv_step d e), out).

(** The cluster: the servers and every message ever sent, with its destination. *)
Record Raft := mkRaft {
  replicas : gmap NodeId Replica;
  wired : list (NodeId * Msg);
}.

Inductive raft_step (C : gset NodeId) : Raft → Raft → Prop :=
  | raft_do c i r r' out :
      replicas c !! i = Some r →
      raft_action C i (λ m, (i, m) ∈ wired c) (r, []) (r', out) →
      raft_step C c (mkRaft (<[i := r']> (replicas c)) (wired c ++ out)).

(** Servers start as followers with empty logs that have not voted in their term. *)
Definition raft_init (C : gset NodeId) (c : Raft) : Prop :=
  dom (replicas c) = C ∧ wired c = [] ∧
  ∀ i r, replicas c !! i = Some r →
    r_log r = [] ∧ r_role r = FOLLOWER ∧ s_voted (r_server r) = None ∧ 0 <= r_term r ∧ r_commit r = 0 ∧ r_machine r = (0, ∅).

(** *** Elections *)

Definition erase (c : Raft) : Cluster := mkCluster (r_server <$> replicas c) (wired c).

Lemma raft_action_erased C me heard x y :
  raft_action C me heard x y →
  action C me (λ t v, heard (VoteResp t v true)) (r_server x.1, x.2) (r_server y.1, y.2) ∨
  (r_server y.1, y.2) = (r_server x.1, x.2).
Proof.
  intros Ha. destruct Ha; cbn [fst snd r_server].
  1: { left. apply act_send. destruct m; cbn in *; tauto. }
  all: try (by right); left; by constructor.
Qed.

Lemma raft_step_erased C c c' : raft_step C c c' → rtc (cluster_step C) (erase c) (erase c').
Proof.
  intros [c0 i r r' out Hi Ha]. unfold erase. cbn. rewrite fmap_insert.
  apply raft_action_erased in Ha as [Ha|[= -> ->]]; cbn in *.
  - apply rtc_once.
    refine (cluster_action C (mkCluster (r_server <$> replicas c0) (wired c0)) i (r_server r) (r_server r') out _ Ha).
    cbn. by rewrite lookup_fmap, Hi.
  - rewrite insert_id, app_nil_r; [apply rtc_refl|]. by rewrite lookup_fmap, Hi.
Qed.

(** ** Histories

    What a run leaves behind: the ballots, with the voter's log; the logs a leader had
    in its term; the messages. *)
Record History := mkHistory {
  cast : Ballots;
  ballot : NodeId → Z → NodeId → list Entry → Prop;
  reign : Z → NodeId → list Entry → Prop;
  said : list (NodeId * Msg);
}.

Definition reigned (H : History) (t : Z) : Prop := ∃ l log, reign H t l log.

(** Term [t] has an entry at position [j]. *)
Definition created (H : History) (t : Z) (j : nat) : Prop := ∃ l log, reign H t l log ∧ has log j t.

(** Server [v] has said, or as a leader knows, that it has the log of term [t] up to
    index [x]. *)
Definition acked (H : History) (v : NodeId) (t x : Z) : Prop :=
  (∃ d c, (d, AppendResp t v true x c) ∈ said H) ∨ (∃ log, reign H t v log ∧ x <= len log).

(** The leaders of the terms between [t] and [u] have the entry. *)
Definition upheld (H : History) (t : Z) (j : nat) (u : Z) : Prop :=
  ∀ t' l log, t < t' <= u → reign H t' l log → has log j t.

(** Every entry is part of the log of a leader of its term. *)
Definition origin (H : History) (log : list Entry) : Prop :=
  ∀ k e, log !! k = Some e → ∃ l log', reign H (e_term e) l log' ∧ take (S k) log = take (S k) log'.

Definition sane (log : list Entry) (t : Z) : Prop := numbered 1 log ∧ Forall (λ e, 0 <= e_term e <= t) log.

(** A server and the history. *)
Record replica_ok (H : History) (i : NodeId) (r : Replica) : Prop := {
  ro_sane : 0 <= r_term r ∧ sane (r_log r) (r_term r);
  ro_origin : origin H (r_log r);
  ro_leader : r_role r = LEADER → reign H (r_term r) i (r_log r);
  ro_reign t log : reign H t i log →
    t < r_term r ∨ t = r_term r ∧ r_role r ≠ CANDIDATE ∧ (r_role r = LEADER → log `prefix_of` r_log r);
  ro_asked d t li lt : (d, Vote t i li lt) ∈ said H →
    t <= r_term r ∧ (t = r_term r → r_role r = CANDIDATE → (lt, li) = freshness (r_log r));
  ro_acked t x : acked H i t x → t <= r_term r ∧
    ∀ j, Z.of_nat j < x → created H t j → upheld H t j (r_term r) → has (r_log r) j t;
  ro_voted c : s_voted (r_server r) = Some c → ¬ reigned H (r_term r) → ∃ log, ballot H i (r_term r) c log;
  ro_votes v : r_role r = CANDIDATE → v ∈ s_votes (r_server r) →
    ¬ reigned H (r_term r) → ∃ log, ballot H v (r_term r) i log;
  ro_voter t c log : ballot H i t c log → t <= r_term r;
  ro_candidate v t log : ballot H v t i log → t <= r_term r ∧
    (t = r_term r → r_role r = CANDIDATE → pair_ge (freshness (r_log r)) (freshness log) = true);
  ro_match p x : r_role r = LEADER → r_match r !! p = Some x →
    x <= 0 ∨ ∃ c, (i, AppendResp (r_term r) p true x c) ∈ said H;
}.

(** What is true of every message. *)
Definition message_ok (H : History) (d : NodeId) (m : Msg) : Prop :=
  match m with
  | VoteResp t v true => ¬ reigned H t → ∃ log, ballot H v t d log
  | Append t l pi pt es _ => d ≠ l ∧ ∃ log, reign H t l log ∧ slice_of log pi pt es
  | AppendResp t v success x _ => d ≠ v ∧ (success = true → ∃ l log, reign H t l log ∧ x <= len log)
  | InstallSnapshot _ _ _ _ _ => False
  | _ => True
  end.

(** The election of a leader: the log it began with, and the logs of its voters. *)
Definition mandate (C : gset NodeId) (H : History) (t : Z) (l : NodeId) (log : list Entry) : Prop :=
  ∃ n, (n ≤ length log)%nat ∧ Forall (λ e, e_term e < t) (take n log) ∧ Forall (λ e, e_term e = t) (drop n log) ∧
  ∃ Q, Q ⊆ C ∧ majority C Q ∧ ∀ v, v ∈ Q →
    ∃ log', ballot H v t l log' ∧ pair_ge (freshness (take n log)) (freshness log') = true.

Record history_ok (C : gset NodeId) (H : History) : Prop := {
  ho_once v t a b : (v, t, a) ∈ cast H → (v, t, b) ∈ cast H → a = b;
  ho_elected t l log : reign H t l log → elected C (cast H) t l;
  ho_sane t l log : reign H t l log → sane log t;
  ho_origin t l log : reign H t l log → origin H log;
  ho_grows t l a b : reign H t l a → reign H t l b → a `prefix_of` b ∨ b `prefix_of` a;
  ho_mandate t l log : reign H t l log → mandate C H t l log;
  ho_voters v t c log : ballot H v t c log → origin H log ∧
    ∀ u x j, acked H v u x → u < t → Z.of_nat j < x → created H u j → upheld H u j (t - 1) → has log j u;
  ho_said d m : (d, m) ∈ said H → message_ok H d m;
}.

Definition raft_inv (C : gset NodeId) (H : History) (c : Raft) : Prop :=
  said H = wired c ∧ election_inv C (cast H) (erase c) ∧ history_ok C H ∧
  ∀ i r, replicas c !! i = Some r → replica_ok H i r.

(** ** What the history implies *)

Section history.
Context (C : gset NodeId) (H : History).
Hypothesis ok : history_ok C H.

Lemma one_reign t a b la lb : reign H t a la → reign H t b lb → a = b.
Proof.
  intros Ha Hb. eapply elected_unique; [apply (ho_once _ _ ok)|by eapply ho_elected..].
Qed.

(** Logs of one term agree as far as both go. *)
Lemma reigns_agree t a b la lb k :
  reign H t a la → reign H t b lb → (k ≤ length la)%nat → (k ≤ length lb)%nat → take k la = take k lb.
Proof.
  intros Ha Hb Hka Hkb. assert (a = b) as <- by by eapply one_reign.
  destruct (ho_grows _ _ ok _ _ _ _ Ha Hb) as [[x ->]|[x ->]]; by rewrite take_app_le.
Qed.

Lemma take_length_le {A} k (a b : list A) : take k a = take k b → (k ≤ length a)%nat → (k ≤ length b)%nat.
Proof. intros E Hk. apply (f_equal length) in E. rewrite !length_take in E. lia. Qed.

Lemma has_length log j t : has log j t → (j < length log)%nat.
Proof. intros (e & He & _). by eapply lookup_lt_Some. Qed.

Lemma has_take a b k j t : take k a = take k b → (j < k)%nat → has a j t → has b j t.
Proof.
  intros E Hj (e & He & Ht). exists e. split; [|done]. rewrite <-He.
  rewrite <-(lookup_take_lt a k j), <-(lookup_take_lt b k j) by done. by rewrite E.
Qed.

Lemma has_prefix a b j t : a `prefix_of` b → has a j t → has b j t.
Proof. intros [x ->] (e & He & Ht). exists e. by rewrite (lookup_app_l_Some _ _ _ _ He). Qed.

(** The log up to an entry is that of any leader of its term. *)
Lemma origin_take log j t l log' :
  origin H log → has log j t → reign H t l log' → (j < length log')%nat → take (S j) log = take (S j) log'.
Proof.
  intros Ho (e & He & <-) Hr Hj. destruct (Ho _ _ He) as (l1 & log1 & Hr1 & E). rewrite E.
  eapply reigns_agree; [done|done| |lia]. apply (take_length_le _ _ _ E). apply lookup_lt_Some in He. lia.
Qed.

(** Log matching. *)
Lemma origins_match a b : origin H a → origin H b → matching a b.
Proof.
  intros Ha Hb k x y Hx Hy E. destruct (Hb _ _ Hy) as (l & log & Hr & Eb).
  rewrite Eb. eapply (origin_take a k (e_term x)); [done|by exists x|by rewrite E|].
  assert (S k ≤ length b)%nat as Hk by (apply lookup_lt_Some in Hy; lia). apply (take_length_le _ _ _ Eb) in Hk. lia.
Qed.

Lemma origin_terms log t : origin H log → (∀ k e, log !! k = Some e → e_term e <= t) → sane log t.
Proof.
  intros Ho Ht. split.
  - intros k e He. destruct (Ho _ _ He) as (l & log' & Hr & E).
    destruct (ho_sane _ _ ok _ _ _ Hr) as [Hn _]. apply Hn.
    rewrite <-(lookup_take_lt log' (S k) k) by lia. rewrite <-E. by rewrite lookup_take_lt by lia.
  - apply Forall_lookup. intros k e He. split; [|by eapply Ht]. destruct (Ho _ _ He) as (l & log' & Hr & E).
    destruct (ho_sane _ _ ok _ _ _ Hr) as [_ Hs]. rewrite Forall_lookup in Hs. apply (Hs k).
    rewrite <-(lookup_take_lt log' (S k) k) by lia. rewrite <-E. by rewrite lookup_take_lt by lia.
Qed.

Lemma fresh_last log : log ≠ [] → ∃ e, log !! (length log - 1)%nat = Some e ∧ freshness log = (e_term e, len log).
Proof.
  intros Hne. destruct (last log) as [e|] eqn:E; [|by apply last_None in E]. exists e.
  split; [by apply last_snoc_lookup|]. unfold freshness. by rewrite E.
Qed.

(** A log that is at least as fresh as one with the entry [j] of term [t] has it too,
    if the leaders in between have it. *)
Lemma fresher_has a b j t u :
  origin H a → origin H b → Forall (λ e, e_term e < u) a → has b j t → upheld H t j (u - 1) →
  pair_ge (freshness a) (freshness b) = true → has a j t.
Proof.
  intros Ha Hb Hau Hj Hup Hge. pose proof (has_length _ _ _ Hj) as Hjb.
  destruct (fresh_last b) as (y & Hy & Fb); [intros ->; cbn in Hjb; lia|].
  destruct (Hb _ _ Hy) as (lb & logb & Rb & Eb). replace (S (length b - 1)) with (length b) in Eb by lia.
  rewrite firstn_all in Eb.
  assert (length b ≤ length logb)%nat as Hlb by (rewrite Eb, length_take; lia).
  assert (t <= e_term y) as Hty.
  { destruct (ho_sane _ _ ok _ _ _ Rb) as [_ Hs]. assert (has logb j t) as (x & Hx & <-).
    { apply (has_take b logb (length b)); [by rewrite firstn_all|done..]. }
    rewrite Forall_lookup in Hs. by apply (Hs j). }
  unfold pair_ge in Hge. rewrite Fb in Hge. cbn [fst snd] in Hge.
  destruct (decide (a = [])) as [->|Hne].
  { exfalso. cbn in Hge. change (len (@nil Entry)) with 0 in Hge.
    destruct (ho_sane _ _ ok _ _ _ Rb) as [_ Hs]. rewrite Forall_lookup in Hs.
    assert (logb !! (length b - 1)%nat = Some y) as Hy' by (by rewrite <-(lookup_take_lt logb (length b)), <-Eb by lia).
    specialize (Hs _ _ Hy'). unfold len in Hge. apply orb_true_iff in Hge as [Hge%Z.ltb_lt|[_ Hge%Z.leb_le]%andb_true_iff]; lia. }
  destruct (fresh_last a Hne) as (x & Hx & Fa). rewrite Fa in Hge. cbn [fst snd] in Hge.
  destruct (Ha _ _ Hx) as (la & loga & Ra & Ea).
  assert (0 < length a)%nat by (destruct a; [done|cbn; lia]).
  replace (S (length a - 1)) with (length a) in Ea by lia. rewrite firstn_all in Ea.
  assert (length a ≤ length loga)%nat as Hla by (rewrite Ea, length_take; lia).
  apply orb_true_iff in Hge as [Hge%Z.ltb_lt|[Ht%Z.eqb_eq Hlen%Z.leb_le]%andb_true_iff].
  - assert (e_term x < u) as Hxu by (rewrite Forall_lookup in Hau; by eapply Hau).
    assert (has loga j t) as Hja by (eapply (Hup (e_term x)); [lia|done]).
    destruct (ho_mandate _ _ ok _ _ _ Ra) as (n & _ & Hn & Hd & _).
    assert (j < n)%nat as Hjn.
    { destruct (decide (j < n)%nat) as [|Hge']; [done|]. destruct Hja as (z & Hz & Htz).
      rewrite Forall_lookup in Hd. specialize (Hd (j - n)%nat z). rewrite lookup_drop in Hd.
      replace (n + (j - n))%nat with j in Hd by lia. specialize (Hd Hz). lia. }
    assert (n < length a)%nat as Hna.
    { destruct (decide (n < length a)%nat) as [|Hge']; [done|]. rewrite Forall_lookup in Hn.
      assert (loga !! (length a - 1)%nat = Some x) as Hx' by (by rewrite <-(lookup_take_lt loga (length a)), <-Ea by lia).
      specialize (Hn (length a - 1)%nat x). rewrite lookup_take_lt in Hn by lia. specialize (Hn Hx'). lia. }
    apply (has_take loga a (length a)); [by rewrite firstn_all|lia|done].
  - rewrite Ht in Ra. unfold len in Hlen.
    assert (take (length b) loga = take (length b) logb) as E by (eapply reigns_agree; [done|done|lia|lia]).
    apply (has_take b a (length b)); [|done|done].
    rewrite Ea, take_take, Nat.min_l, E by lia. by rewrite firstn_all.
Qed.

(** Leader completeness: what a majority has acknowledged in a term is in the log of
    every later leader. *)
Lemma chosen_upheld t j (Q : gset NodeId) :
  created H t j → Q ⊆ C → majority C Q → (∀ v, v ∈ Q → ∃ x, acked H v t x ∧ Z.of_nat j < x) →
  ∀ u, upheld H t j u.
Proof.
  intros Hcr HQ HM Hack.
  assert (∀ n : nat, upheld H t j (t + Z.of_nat n)) as Hind.
  { induction n as [|n IH]; [intros t' l log Ht; lia|]. intros t' l log Ht Hr.
    destruct (decide (t' = t + Z.of_nat (S n))) as [->|]; [|apply (IH t' l log); [lia|done]].
    replace (t + Z.of_nat n) with (t + Z.of_nat (S n) - 1) in IH by lia. set (u := t + Z.of_nat (S n)) in *.
    destruct (ho_mandate _ _ ok _ _ _ Hr) as (k & _ & Hk & _ & Q' & HQ' & HM' & HV).
    destruct (majorities_meet C Q Q') as (v & Hv & Hv'); [done..|].
    destruct (HV v Hv') as (log' & Hb & Hge). destruct (Hack v Hv) as (x & Hx & Hjx).
    destruct (ho_voters _ _ ok _ _ _ _ Hb) as [Ho Hkeep].
    apply (has_prefix (take k log)); [apply prefix_take|].
    apply (fresher_has _ log' j t u); [|done|done| |done|done].
    - intros m e [He Hm]%lookup_take_Some. destruct (ho_origin _ _ ok _ _ _ Hr _ _ He) as (l1 & log1 & Hr1 & E).
      exists l1, log1. split; [done|]. rewrite <-E, take_take. f_equal. lia.
    - apply (Hkeep t x j); [done|lia|done..]. }
  intros u t' l log Ht Hr. apply (Hind (Z.to_nat (t' - t)) t' l log); [lia|done].
Qed.
End history.

(** ** Growing histories *)

(** The history after a step of server [i]. *)
Record extends (i : NodeId) (H H' : History) : Prop := {
  ex_ballot v t c log : ballot H v t c log → ballot H' v t c log;
  ex_reign t l log : reign H t l log → reign H' t l log;
  ex_said d m : (d, m) ∈ said H → (d, m) ∈ said H';
  ex_new_ballot v t c log : ballot H' v t c log → ballot H v t c log ∨ v = i;
  ex_new_reign t l log : reign H' t l log → reign H t l log ∨
    l = i ∧ ∀ l0 log0, reign H t l0 log0 → log0 `prefix_of` log;
  ex_new_said d m : (d, m) ∈ said H' → (d, m) ∈ said H ∨
    match m with Vote _ c _ _ => c = i | AppendResp _ v _ _ _ => v = i | _ => True end;
}.

Section extension.
Context (C : gset NodeId) (H H' : History) (i : NodeId).
Hypothesis ok : history_ok C H.
Hypothesis ext : extends i H H'.

Lemma unreigned t : ¬ reigned H' t → ¬ reigned H t.
Proof. intros Hn (l & log & Hr). apply Hn. exists l, log. by apply (ex_reign _ _ _ ext). Qed.

Lemma origin_grows log : origin H log → origin H' log.
Proof.
  intros Ho k e He. destruct (Ho _ _ He) as (l & log' & Hr & E). exists l, log'. split; [|done].
  by apply (ex_reign _ _ _ ext).
Qed.

Lemma upheld_before t j u : upheld H' t j u → upheld H t j u.
Proof. intros Hu t' l log Ht Hr. apply (Hu t' l log Ht). by apply (ex_reign _ _ _ ext). Qed.

Lemma acked_reign v t x : acked H v t x → ∃ l log, reign H t l log ∧ x <= len log.
Proof.
  intros [(d & c & Hm)|(log & Hr & Hx)]; [|by exists v, log].
  destruct (ho_said _ _ ok _ _ Hm) as [_ Hl]. by apply Hl.
Qed.

(** What was acknowledged before was created before. *)
Lemma created_before v t x j : acked H v t x → Z.of_nat j < x → created H' t j → created H t j.
Proof.
  intros Ha Hj (l & log & Hr & Hh). destruct (ex_new_reign _ _ _ ext _ _ _ Hr) as [Hr'|[_ Hp]]; [by exists l, log|].
  destruct (acked_reign _ _ _ Ha) as (l0 & log0 & Hr0 & Hx). exists l0, log0. split; [done|].
  destruct (Hp _ _ Hr0) as [y ->]. destruct Hh as (e & He & Et). exists e. split; [|done].
  unfold len in Hx. by rewrite lookup_app_l in He by lia.
Qed.

Lemma acked_before v t x : v ≠ i → acked H' v t x → acked H v t x.
Proof.
  intros Hv [(d & c & Hm)|(log & Hr & Hx)].
  - left. exists d, c. by destruct (ex_new_said _ _ _ ext _ _ Hm) as [|E].
  - right. exists log. split; [|done]. by destruct (ex_new_reign _ _ _ ext _ _ _ Hr) as [|[E _]].
Qed.

(** The other servers. *)
Lemma replica_ok_other j r :
  j ≠ i → replica_ok H j r →
  (∀ v t log, ballot H' v t j log → ballot H v t j log ∨
     t <= r_term r ∧ (t = r_term r → r_role r = CANDIDATE → pair_ge (freshness (r_log r)) (freshness log) = true)) →
  replica_ok H' j r.
Proof.
  intros Hj ro Hb. constructor.
  - apply ro.
  - by apply origin_grows, ro.
  - intros Hl. by apply (ex_reign _ _ _ ext), (ro_leader _ _ _ ro).
  - intros t log Hr. destruct (ex_new_reign _ _ _ ext _ _ _ Hr) as [Hr'|[E _]]; [|done]. by apply (ro_reign _ _ _ ro).
  - intros d t li lt Hm. destruct (ex_new_said _ _ _ ext _ _ Hm) as [Hm'|E]; [|done]. by eapply (ro_asked _ _ _ ro).
  - intros t x Ha. apply acked_before in Ha; [|done]. destruct (ro_acked _ _ _ ro _ _ Ha) as [Ht Hh]. split; [done|].
    intros k Hk Hc Hu. apply Hh; [done|by eapply created_before|by apply upheld_before].
  - intros c Hc Hn. apply unreigned in Hn. destruct (ro_voted _ _ _ ro c Hc Hn) as [log Hl]. exists log. by apply (ex_ballot _ _ _ ext).
  - intros v Hr Hv Hn. apply unreigned in Hn. destruct (ro_votes _ _ _ ro v Hr Hv Hn) as [log Hl]. exists log. by apply (ex_ballot _ _ _ ext).
  - intros t c log Hl. destruct (ex_new_ballot _ _ _ ext _ _ _ _ Hl) as [Hl'|E]; [|done]. by eapply (ro_voter _ _ _ ro).
  - intros v t log Hl. destruct (Hb _ _ _ Hl) as [Hl'|Hl']; [by eapply (ro_candidate _ _ _ ro)|done].
  - intros p x Hr Hm. destruct (ro_match _ _ _ ro p x Hr Hm) as [|[c Hc]]; [by left|right]. exists c. by apply (ex_said _ _ _ ext).
Qed.

(** Messages stay true. *)
Lemma message_ok_grows d m : message_ok H d m → message_ok H' d m.
Proof.
  destruct m; try done; cbn.
  - destruct granted; [|done]. intros Hb Hn. apply unreigned in Hn. destruct (Hb Hn) as [log Hl]. exists log. by apply (ex_ballot _ _ _ ext).
  - intros [Hd (log & Hr & Hs)]. split; [done|]. exists log. split; [by apply (ex_reign _ _ _ ext)|done].
  - intros [Hd Hs]. split; [done|]. intros E. destruct (Hs E) as (l & log & Hr & Hx). exists l, log. split; [by apply (ex_reign _ _ _ ext)|done].
Qed.

Lemma mandate_grows t l log : mandate C H t l log → mandate C H' t l log.
Proof.
  intros (n & Hn & H1 & H2 & Q & HQ & HM & HV). exists n. split_and!; [done..|]. exists Q. split_and!; [done..|].
  intros v Hv. destruct (HV v Hv) as (log' & Hb & Hge). exists log'. split; [by apply (ex_ballot _ _ _ ext)|done].
Qed.

Lemma history_ok_extends :
  cast H ⊆ cast H' → (∀ v t a b, (v, t, a) ∈ cast H' → (v, t, b) ∈ cast H' → a = b) →
  (∀ t log, reign H' t i log → reign H t i log ∨
     elected C (cast H') t i ∧ sane log t ∧ origin H' log ∧ mandate C H' t i log) →
  (∀ t l a b, reign H' t l a → reign H' t l b → a `prefix_of` b ∨ b `prefix_of` a) →
  (∀ u x, acked H' i u x → acked H i u x ∨ ∀ t c log, ballot H' i t c log → t <= u) →
  (∀ t c log, ballot H' i t c log → ballot H i t c log ∨
     origin H log ∧ ∀ u x j, acked H i u x → u < t → Z.of_nat j < x → created H u j → upheld H u j (t - 1) → has log j u) →
  (∀ d m, (d, m) ∈ said H' → (d, m) ∈ said H ∨ message_ok H' d m) →
  history_ok C H'.
Proof.
  intros Hcast Honce Hreign Hgrows Hack Hbal Hsaid.
  assert (∀ t l log, reign H' t l log → reign H t l log ∨
    elected C (cast H') t l ∧ sane log t ∧ origin H' log ∧ mandate C H' t l log) as Hr.
  { intros t l log Hr. destruct (ex_new_reign _ _ _ ext _ _ _ Hr) as [|[-> _]]; [by left|by apply Hreign]. }
  constructor; [done|..|done| | |].
  - intros t l log Hl. destruct (Hr _ _ _ Hl) as [Hl'|(He & _)]; [|done].
    by eapply elected_mono, (ho_elected _ _ ok).
  - intros t l log Hl. destruct (Hr _ _ _ Hl) as [Hl'|(_ & Hs & _)]; [|done]. by eapply (ho_sane _ _ ok).
  - intros t l log Hl. destruct (Hr _ _ _ Hl) as [Hl'|(_ & _ & Ho & _)]; [|done]. by eapply origin_grows, (ho_origin _ _ ok).
  - intros t l log Hl. destruct (Hr _ _ _ Hl) as [Hl'|(_ & _ & _ & Hm)]; [|done]. by eapply mandate_grows, (ho_mandate _ _ ok).
  - intros v t c log Hb.
    assert (ballot H v t c log ∨ v = i ∧ origin H log ∧ ∀ u x j, acked H i u x → u < t → Z.of_nat j < x → created H u j →
      upheld H u j (t - 1) → has log j u) as Hold.
    { destruct (ex_new_ballot _ _ _ ext _ _ _ _ Hb) as [|E]; [by left|]. subst v.
      destruct (Hbal _ _ _ Hb) as [|[Ho Hh]]; [by left|by right]. }
    assert (origin H log ∧ ∀ u x j, acked H v u x → u < t → Z.of_nat j < x → created H u j → upheld H u j (t - 1) → has log j u)
      as [Ho Hh] by (destruct Hold as [Hold|(-> & Hold)]; [by eapply (ho_voters _ _ ok)|done]).
    split; [by apply origin_grows|]. intros u x j Ha Hu Hj Hc Hup.
    assert (acked H v u x) as Ha'.
    { destruct (decide (v = i)) as [->|Hv]; [|by apply acked_before]. destruct (Hack u x Ha) as [|Hlt]; [done|].
      specialize (Hlt _ _ _ Hb). lia. }
    apply (Hh u x); [done..|by eapply created_before|by apply upheld_before].
  - intros d m Hm. destruct (Hsaid _ _ Hm) as [Hm'|]; [|done]. by apply message_ok_grows, (ho_said _ _ ok).
Qed.
End extension.

(** ** Actions *)

Section actions.
Context (C : gset NodeId) (H : History) (i : NodeId).
Hypothesis ok : history_ok C H.

(** A follower, in the same term or a later one. *)
Lemma ok_follower s log M ci mc t voted votes :
  replica_ok H i (mkReplica s log M ci mc) → s_term s <= t →
  (∀ c, voted = Some c → t = s_term s ∧ s_voted s = Some c) →
  replica_ok H i (mkReplica (mkServer t voted FOLLOWER votes) log ∅ ci mc).
Proof.
  intros ro Ht Hv. destruct ro as [[Hp Hs] Ho Hl Hr Ha Hk Hvo Hvs Hbt Hca Hma]. cbn in *. constructor; cbn; try done.
  - split; [lia|]. destruct Hs as [Hn Hs]. split; [done|]. eapply Forall_impl; [exact Hs|]. intros e He; cbn in *; lia.
  - intros u log' Hu. destruct (Hr _ _ Hu) as [?|(-> & _)]; [left; lia|].
    destruct (decide (t = s_term s)) as [->|]; [right|left; lia]. done.
  - intros d u li lt Hm. destruct (Ha _ _ _ _ Hm) as [Hle _]. split; [lia|done].
  - intros u x Hack. destruct (Hk _ _ Hack) as [Hle Hh]. split; [lia|]. intros j Hj Hc Hu. apply Hh; [done..|].
    intros t' l log' Ht' Hr'. apply (Hu t' l log'); [lia|done].
  - intros c Hc. destruct (Hv c Hc) as [-> Hc']. by apply Hvo.
  - intros u c log' Hb. specialize (Hbt _ _ _ Hb). lia.
  - intros v u log' Hb. destruct (Hca _ _ _ Hb) as [Hle _]. split; [lia|done].
Qed.

(** The commit index and the state machine do not matter to the history. *)
Lemma ok_commit s log M ci ci' mc mc' : replica_ok H i (mkReplica s log M ci mc) → replica_ok H i (mkReplica s log M ci' mc').
Proof. intros [? ? ? ? ? ? ? ? ? ? ?]. by constructor. Qed.

(** A vote received. *)
Lemma ok_count s log M ci mc v :
  replica_ok H i (mkReplica s log M ci mc) → s_role s = CANDIDATE → (i, VoteResp (s_term s) v true) ∈ said H →
  replica_ok H i (mkReplica (mkServer (s_term s) (s_voted s) (s_role s) (s_votes s ∪ {[v]})) log M ci mc).
Proof.
  intros ro Hc Hm. destruct ro as [Hs Ho Hl Hr Ha Hk Hvo Hvs Hbt Hca Hma]. cbn in *. constructor; cbn; try done.
  intros u _ [Hu|Hu]%elem_of_union Hn; [by apply Hvs|]. apply elem_of_singleton in Hu as ->.
  exact (ho_said _ _ ok _ _ Hm Hn).
Qed.

Lemma ok_table s log M ci mc M' :
  replica_ok H i (mkReplica s log M ci mc) →
  (∀ p x, M' !! p = Some x → x <= 0 ∨ M !! p = Some x ∨ ∃ c, (i, AppendResp (s_term s) p true x c) ∈ said H) →
  replica_ok H i (mkReplica s log M' ci mc).
Proof.
  intros ro Ht. destruct ro as [Hs Ho Hl Hr Ha Hk Hvo Hvs Hbt Hca Hma]. cbn in *. constructor; cbn; try done.
  intros p x Hlead Hp. destruct (Ht p x Hp) as [|[Hm|Hc]]; [by left|by apply Hma|by right].
Qed.

(** *** Merging *)

(** What the log shares with a log it takes entries from stays. *)
Lemma merge_suffix_keeps a : ∀ b k,
  (k ≤ length a)%nat →
  (∀ p x y, (p < k)%nat → a !! p = Some x → b !! p = Some y → e_term x = e_term y) →
  take k (merge_suffix a b) = take k a.
Proof.
  induction a as [|x a IH]; intros [|y b] k Hk Hag; [done|cbn in Hk; by replace k with 0%nat by lia|done|].
  destruct k as [|k]; [done|]. cbn. rewrite (proj2 (Z.eqb_eq _ _)) by (by apply (Hag 0%nat x y); [lia|..]).
  cbn. f_equal. apply IH; [cbn in Hk; lia|]. intros p u v Hp Hu Hv. apply (Hag (S p) u v); [lia|done..].
Qed.

Lemma merge_entries_keeps n m log L k :
  (k ≤ length log)%nat →
  (∀ p x y, (p < k)%nat → log !! p = Some x → L !! p = Some y → e_term x = e_term y) →
  take k (merge_entries n log (take m (drop n L))) = take k log.
Proof.
  intros Hk Hag. unfold merge_entries. destruct (decide (k ≤ n)%nat) as [Hle|Hgt].
  - rewrite take_app_le by (rewrite length_take; lia). rewrite take_take. f_equal. lia.
  - rewrite take_app, length_take, Nat.min_l, take_take, Nat.min_r by lia.
    rewrite merge_suffix_keeps; [|rewrite length_drop; lia|].
    + rewrite <-(take_drop n log) at 3. rewrite take_app, length_take, Nat.min_l, take_take, Nat.min_r by lia. done.
    + intros p x y Hp Hx [Hy _]%lookup_take_Some. rewrite lookup_drop in Hx, Hy. apply (Hag (n + p)%nat); [lia|done..].
Qed.

(** A log that fits a slice is the slice's log before it. *)
Lemma fits_before log L pi t :
  origin H log → origin H L → sane log t → fits log pi (term_before L pi) → take (Z.to_nat pi) log = take (Z.to_nat pi) L.
Proof.
  intros Ho HL [_ Hs] [Hpi E]. unfold term_before in E. destruct (Z.eqb_spec pi 0) as [->|]; [done|].
  destruct (log !! Z.to_nat (pi - 1)) as [x|] eqn:Ex; [|apply lookup_ge_None in Ex; unfold len in Hpi; lia].
  rewrite Forall_lookup in Hs. pose proof (Hs _ _ Ex).
  destruct (L !! Z.to_nat (pi - 1)) as [y|] eqn:Ey; [|lia].
  replace (Z.to_nat pi) with (S (Z.to_nat (pi - 1))) by lia. by eapply (origins_match C H ok).
Qed.

Lemma ok_merge s log M ci mc l pi pt es c :
  replica_ok H i (mkReplica s log M ci mc) → s_role s = FOLLOWER →
  (i, Append (s_term s) l pi pt es c) ∈ said H → fits log pi pt →
  replica_ok H i (mkReplica s (merge_entries (Z.to_nat pi) log es) M ci mc).
Proof.
  intros ro Hf Hm Hfit. destruct (ho_said _ _ ok _ _ Hm) as [_ (L & HL & Hpi & -> & m & ->)].
  pose proof (ho_origin _ _ ok _ _ _ HL) as HoL. pose proof (ho_sane _ _ ok _ _ _ HL) as [HnL HsL].
  destruct ro as [[Hp Hs] Ho Hl Hr Ha Hk Hvo Hvs Hbt Hca Hma]. cbn in *.
  set (n := Z.to_nat pi) in *.
  assert (matching log L) as Hmat by by eapply (origins_match C H ok).
  assert (take n log = take n L) as Hpre by by eapply fits_before.
  assert (n ≤ length log)%nat as Hn by (destruct Hfit as [Hfit _]; unfold len in Hfit; lia).
  destruct (merge_entries_matching log L n m Hmat Hn Hpre) as [_ Hres].
  constructor; cbn; try done; try (by rewrite Hf).
  - split; [done|]. destruct Hres as [->| ->]; [done|]. split; [by apply numbered_take|by apply Forall_take].
  - destruct Hres as [->| ->]; [done|]. intros k e [He Hlt]%lookup_take_Some. destruct (HoL _ _ He) as (l' & L' & Hr' & E).
    exists l', L'. split; [done|]. rewrite take_take, Nat.min_l by lia. done.
  - intros t log' Hlog'. destruct (Hr _ _ Hlog') as [|(-> & _)]; [by left|right]. by rewrite Hf.
  - intros d t li lt Hq. destruct (Ha _ _ _ _ Hq) as [Hle _]. split; [done|]. by rewrite Hf.
  - intros t x Hack. destruct (Hk _ _ Hack) as [Hle Hh]. split; [done|]. intros j Hj Hc Hu.
    pose proof (Hh j Hj Hc Hu) as Hhas. pose proof (has_length _ _ _ Hhas) as Hlen.
    apply (has_take log _ (S j)); [|lia|done]. symmetry. apply merge_entries_keeps; [lia|].
    intros p u v Hp' Hu' Hv'. assert (take (S p) log = take (S p) L) as E; [|].
    2:{ rewrite <-(lookup_take_lt log (S p)), E, lookup_take_lt, Hv' in Hu' by lia. by injection Hu' as ->. }
    assert (∃ L', take (S j) log = take (S j) L' ∧ take (S p) L' = take (S p) L) as (L' & E1 & E2).
    { destruct (decide (t = s_term s)) as [->|Hne].
      - destruct Hc as (l' & L' & HL' & Hj'). pose proof (has_length _ _ _ Hj') as Hj2. exists L'. split.
        + by eapply (origin_take C H ok).
        + eapply (reigns_agree C H ok); [done|done|lia|]. by apply lookup_lt_Some in Hv'.
      - exists L. split; [|done]. assert (has L j t) as Hj2 by (eapply (Hu (s_term s)); [lia|done]).
        destruct Hhas as (e & He & Et). destruct Hj2 as (e' & He' & Et'). eapply Hmat; [done|done|congruence]. }
    rewrite <-E2. replace (S p) with (S p `min` S j)%nat by lia. by rewrite <-!take_take, E1.
  - intros v t log' Hb. destruct (Hca _ _ _ Hb) as [Hle _]. split; [done|]. by rewrite Hf.
Qed.
End actions.

(** *** Actions that extend the history *)

Definition say (H : History) (d : NodeId) (m : Msg) : History :=
  mkHistory (cast H) (ballot H) (reign H) (said H ++ [(d, m)]).

Definition vote (H : History) (P : Prop) (v : NodeId) (t : Z) (c : NodeId) (log : list Entry) : History :=
  mkHistory (cast H) (λ v' t' c' log', ballot H v' t' c' log' ∨ P ∧ (v', t', c', log') = (v, t, c, log)) (reign H) (said H).

Definition crown (H : History) (t : Z) (l : NodeId) (log : list Entry) : History :=
  mkHistory (cast H) (ballot H) (λ t' l' log', reign H t' l' log' ∨ (t', l', log') = (t, l, log)) (said H).

Section extending.
Context (C : gset NodeId) (H : History) (i : NodeId).
Hypothesis ok : history_ok C H.

(** Who has what a leader sent has the leader's log that far. *)
Lemma holds_agrees r l pi pt es c :
  replica_ok H i r → (i, Append (r_term r) l pi pt es c) ∈ said H → holds (r_log r) pi pt es →
  ∃ L, reign H (r_term r) l L ∧ pi + len es <= len L ∧
    take (Z.to_nat (pi + len es)) (r_log r) = take (Z.to_nat (pi + len es)) L.
Proof.
  intros ro Hm [Hfit Hes]. destruct (ho_said _ _ ok _ _ Hm) as [_ (L & HL & Hpi & Ept & m & Em)]. rewrite Ept in Hfit.
  pose proof (ho_origin _ _ ok _ _ _ HL) as HoL. pose proof (ro_origin _ _ _ ro) as Ho.
  destruct (ro_sane _ _ _ ro) as [_ Hs]. set (n := Z.to_nat pi) in *.
  pose proof (fits_before C H ok _ _ _ _ Ho HoL Hs Hfit) as Hpre. fold n in Hpre.
  assert (pi = Z.of_nat n) as En by lia. destruct Hfit as [[_ Hfit] _].
  assert (n ≤ length L)%nat as HnL by (apply (take_length_le _ _ _ Hpre); unfold len in Hfit; lia).
  assert (n + length es ≤ length L)%nat as Hlen by (rewrite Em, length_take, length_drop; lia).
  exists L. split; [done|]. split; [unfold len; lia|]. replace (Z.to_nat (pi + len es)) with (n + length es)%nat by (unfold len; lia).
  destruct es as [|e es'] eqn:Ees; [by rewrite Nat.add_0_r|]. rewrite <-Ees in *.
  assert (0 < length es)%nat as H0 by (rewrite Ees; cbn; lia).
  destruct (lookup_lt_is_Some_2 es (length es - 1)) as [x Hx]; [lia|].
  destruct (Hes _ _ Hx) as (y & Hy & Ey).
  assert (L !! (n + (length es - 1))%nat = Some x) as Hx'.
  { rewrite Em in Hx. apply lookup_take_Some in Hx as [Hx _]. by rewrite lookup_drop, <-Em in Hx. }
  replace (n + length es)%nat with (S (n + (length es - 1))) by lia.
  by apply (origins_match C H ok (r_log r) L Ho HoL _ y x).
Qed.

(** What is acknowledged is in the log. *)
Lemma ack_holds r l pi pt es c j t :
  replica_ok H i r → (i, Append t l pi pt es c) ∈ said H → t = r_term r → holds (r_log r) pi pt es →
  (∃ l log, reign H t l log ∧ pi + len es <= len log) ∧
  (Z.of_nat j < pi + len es → created H t j → has (r_log r) j t).
Proof.
  intros ro Hm -> Hh. destruct (holds_agrees r l pi pt es c ro Hm Hh) as (L & HL & Hlen & E).
  split; [by exists l, L|]. intros Hj (l' & L' & HL' & Hj'). pose proof (has_length _ _ _ Hj') as HjL'. unfold len in *.
  apply (has_take L _ (Z.to_nat (pi + Z.of_nat (length es)))); [done|lia|].
  apply (has_take L' _ (S j)); [|lia|done]. eapply (reigns_agree C H ok); [done|done|lia|lia].
Qed.

Lemma say_extends d m :
  match m with Vote _ c _ _ => c = i | AppendResp _ v _ _ _ => v = i | _ => True end → extends i H (say H d m).
Proof.
  intros Hm. constructor; cbn; auto.
  - intros d' m' Hin. apply elem_of_app. by left.
  - intros d' m' [Hin|[= -> ->]%list_elem_of_singleton]%elem_of_app; [by left|by right].
Qed.

Lemma may_say_by r d m :
  may_say i (λ m, (i, m) ∈ said H) r d m →
  match m with Vote _ c _ _ => c = i | AppendResp _ v _ _ _ => v = i | _ => True end.
Proof. destruct m; cbn; try done; tauto. Qed.

Lemma said_message_ok r d m :
  replica_ok H i r → may_say i (λ m, (i, m) ∈ said H) r d m → message_ok H d m.
Proof.
  intros ro Hm. destruct m; try done; cbn in *.
  - destruct granted; [|done]. destruct Hm as (-> & -> & Hv). intros Hn. by apply (ro_voted _ _ _ ro).
  - destruct Hm as (-> & Hd & -> & Hr & _ & Hs). split; [done|]. exists (r_log r). split; [by apply ro|done].
  - destruct Hm as (-> & Hd & Hs). split; [done|]. intros E. destruct (Hs E) as (-> & _ & l & pi & pt & es & c & Hh & -> & Hes).
    by eapply (ack_holds r l pi pt es c 0).
Qed.

Lemma ok_say r d m :
  replica_ok H i r → may_say i (λ m, (i, m) ∈ said H) r d m → replica_ok (say H d m) i r.
Proof.
  intros ro Hm. destruct ro as [Hs Ho Hl Hr Ha Hk Hvo Hvs Hbt Hca Hma] eqn:Ero. constructor; try done.
  - intros d' t li lt [Hin|[= <- <-]%list_elem_of_singleton]%elem_of_app; [by eapply Ha|].
    destruct Hm as (_ & -> & _ & E). done.
  - intros t x [(d' & c & [Hin|[= <- <-]%list_elem_of_singleton]%elem_of_app)|Hself].
    + apply Hk. left. by exists d', c.
    + destruct Hm as (_ & _ & Hm). destruct (Hm eq_refl) as (-> & _ & l & pi & pt & es & c' & Hh & -> & Hes).
      split; [done|]. intros j Hj Hc _. by eapply (ack_holds r l pi pt es c' j).
    + apply Hk. by right.
  - intros p x Hlead Hp. destruct (Hma p x Hlead Hp) as [|[c Hc]]; [by left|right]. exists c. apply elem_of_app. by left.
Qed.

Lemma history_ok_say r d m :
  replica_ok H i r → may_say i (λ m, (i, m) ∈ said H) r d m → history_ok C (say H d m).
Proof.
  intros ro Hm. pose proof (say_extends d m (may_say_by _ _ _ Hm)) as ext.
  apply (history_ok_extends C H _ i ok ext); [done|apply ok|by left|intros t l a b; apply ok| |by left|].
  - intros u x [(d' & c & [Hin|[= <- <-]%list_elem_of_singleton]%elem_of_app)|Hself].
    + left. left. by exists d', c.
    + right. intros t c' log Hb. destruct Hm as (_ & _ & Hm). destruct (Hm eq_refl) as (-> & _). by eapply (ro_voter _ _ _ ro).
    + left. by right.
  - intros d' m' [Hin|[= -> ->]%list_elem_of_singleton]%elem_of_app; [by left|right].
    apply (message_ok_grows H _ i ext). by eapply said_message_ok.
Qed.

(** A ballot of the server's own. *)
Lemma vote_extends P t c log : extends i H (vote H P i t c log).
Proof. constructor; cbn; auto. intros v t' c' log' [Hb|[_ [= -> _ _ _]]]; auto. Qed.

Lemma history_ok_vote P t c log :
  (P → origin H log ∧ ∀ u x j, acked H i u x → u < t → Z.of_nat j < x → created H u j → upheld H u j (t - 1) → has log j u) →
  history_ok C (vote H P i t c log).
Proof.
  intros Hb. apply (history_ok_extends C H _ i ok (vote_extends P t c log)); [done|apply ok|by left|intros t' l a b; apply ok|by left| |by left].
  intros t' c' log' [Hb'|[HP [= -> _ ->]]]; [by left|right]. by apply Hb.
Qed.

Lemma pair_ge_refl a : pair_ge a a = true.
Proof. unfold pair_ge. by rewrite Z.eqb_refl, Z.leb_refl, orb_true_r. Qed.

Lemma ok_campaign s log M ci mc :
  replica_ok H i (mkReplica s log M ci mc) →
  replica_ok (vote H True i (s_term s + 1) i log) i (mkReplica (mkServer (s_term s + 1) (Some i) CANDIDATE {[i]}) log ∅ ci mc).
Proof.
  intros ro. destruct ro as [[Hp [Hn Hs]] Ho Hl Hr Ha Hk Hvo Hvs Hbt Hca Hma]. cbn in *. constructor; cbn; try done.
  - split; [lia|]. split; [done|]. eapply Forall_impl; [exact Hs|]. intros e He; cbn in *; lia.
  - intros t log' Hlog. destruct (Hr _ _ Hlog) as [|[-> _]]; left; lia.
  - intros d t li lt Hm. destruct (Ha _ _ _ _ Hm). split; lia.
  - intros t x Hack. destruct (Hk _ _ Hack) as [Hle Hh]. split; [lia|]. intros j Hj Hc Hu. apply Hh; [done..|].
    intros t' l log' Ht'. apply Hu. lia.
  - intros c [= <-] _. exists log. by right.
  - intros v _ ->%elem_of_singleton _. exists log. by right.
  - intros t c log' [Hb|[_ [= -> _ _]]]; [specialize (Hbt _ _ _ Hb); lia|lia].
  - intros v t log' [Hb|[_ [= -> -> ->]]]; [destruct (Hca _ _ _ Hb); split; lia|]. split; [lia|]. intros _ _. apply pair_ge_refl.
Qed.

(** The voter's side of a grant. *)
Lemma ok_grant s log M ci mc c :
  replica_ok H i (mkReplica s log M ci mc) →
  replica_ok (vote H (¬ reigned H (s_term s)) i (s_term s) c log) i
    (mkReplica (mkServer (s_term s) (Some c) (s_role s) (s_votes s)) log M ci mc).
Proof.
  intros ro. destruct ro as [Hs Ho Hl Hr Ha Hk Hvo Hvs Hbt Hca Hma]. cbn in *. constructor; cbn; try done.
  - intros c' [= <-] Hn. exists log. by right.
  - intros v Hc Hv Hn. destruct (Hvs v Hc Hv Hn) as [log' Hb]. exists log'. by left.
  - intros t c' log' [Hb|[_ [= -> _ _]]]; [by eapply Hbt|done].
  - intros v t log' [Hb|[_ [= -> -> -> ->]]]; [by eapply Hca|]. split; [done|]. intros _ _. apply pair_ge_refl.
Qed.
End extending.

(** A new log of a leader: the one it is elected with, or the last one and an entry. *)
Section crowning.
Context (C : gset NodeId) (H : History) (i : NodeId) (t : Z) (log : list Entry).
Hypothesis ok : history_ok C H.
Hypothesis newest : ∀ l0 log0, reign H t l0 log0 → l0 = i ∧ log0 `prefix_of` log.

Lemma crown_extends : extends i H (crown H t i log).
Proof.
  constructor; cbn; auto. intros t' l' log' [Hr|[= -> -> ->]]; [by left|right]. split; [done|].
  intros l0 log0 H0. by apply newest in H0 as [_ H0].
Qed.

Lemma history_ok_crown :
  elected C (cast H) t i → sane log t → origin (crown H t i log) log → mandate C H t i log →
  (∀ u c log', ballot H i u c log' → u <= t) →
  history_ok C (crown H t i log).
Proof.
  intros He Hs Ho Hm Hb. apply (history_ok_extends C H _ i ok crown_extends); [done|apply ok|..|by left].
  - intros t' log' [Hr|[= -> ->]]; [by left|right]. split_and!; [done..|]. by apply (mandate_grows C H _ i crown_extends).
  - intros t' l a b [Ha|Ea] [Hb'|Eb]; simplify_eq.
    + by eapply (ho_grows _ _ ok).
    + left. by apply newest in Ha as [_ Ha].
    + right. by apply newest in Hb' as [_ Hb'].
    + by left.
  - intros u x [Hsaid|(log' & [Hr|[= -> ->]] & Hx)]; [left; by left|left; right; by exists log'|right]. intros u' c log' Hu. by eapply Hb.
  - by left.
Qed.
End crowning.

Section offices.
Context (C : gset NodeId) (H : History) (i : NodeId) (s : Server) (log : list Entry) (M : gmap NodeId Z) (ci : Z) (mc : Z * gmap string string).
Hypothesis ok : history_ok C H.
Hypothesis ro : replica_ok H i (mkReplica s log M ci mc).

(** *** Winning an election *)

Section winning.
Hypothesis candidate : s_role s = CANDIDATE.
Hypothesis chosen : elected C (cast H) (s_term s) i.
Hypothesis voters : s_votes s ⊆ C.
Hypothesis most : majority C (s_votes s).

Lemma candidate_unreigned : ¬ reigned H (s_term s).
Proof.
  intros (l & log' & Hr). assert (l = i) as ->.
  { eapply elected_unique; [apply (ho_once _ _ ok)|by eapply ho_elected|done]. }
  destruct (ro_reign _ _ _ ro _ _ Hr) as [Hlt|(_ & Hn & _)]; cbn in *; [lia|done].
Qed.

Lemma candidate_terms : Forall (λ e, e_term e < s_term s) log.
Proof.
  destruct (ro_sane _ _ _ ro) as [_ [_ Hs]]. cbn in Hs. apply Forall_lookup. intros k e He.
  rewrite Forall_lookup in Hs. destruct (Hs _ _ He). destruct (decide (e_term e = s_term s)) as [E|]; [|lia].
  destruct (ro_origin _ _ _ ro _ _ He) as (l & log' & Hr & _). destruct candidate_unreigned. rewrite <-E. by exists l, log'.
Qed.

Lemma win_newest l0 log0 : reign H (s_term s) l0 log0 → l0 = i ∧ log0 `prefix_of` log.
Proof. intros Hr. destruct candidate_unreigned. by exists l0, log0. Qed.

Lemma win_mandate : mandate C H (s_term s) i log.
Proof.
  exists (length log). split; [done|]. rewrite firstn_all, drop_ge by done.
  split; [apply candidate_terms|]. split; [constructor|]. exists (s_votes s). split_and!; [done..|].
  intros v Hv. destruct (ro_votes _ _ _ ro v candidate Hv candidate_unreigned) as [log' Hb].
  exists log'. split; [done|]. by apply (ro_candidate _ _ _ ro v _ _ Hb).
Qed.

Lemma history_ok_win : history_ok C (crown H (s_term s) i log).
Proof.
  apply (history_ok_crown C H i (s_term s) log ok win_newest); [done|apply ro| |apply win_mandate|].
  - apply (origin_grows H _ i (crown_extends H i (s_term s) log win_newest)), ro.
  - intros u c log'. apply (ro_voter _ _ _ ro).
Qed.

Lemma ok_win :
  replica_ok (crown H (s_term s) i log) i (mkReplica (mkServer (s_term s) (s_voted s) LEADER (s_votes s)) log ∅ ci mc).
Proof.
  pose proof (crown_extends H i (s_term s) log win_newest) as ext.
  destruct ro as [Hs Ho Hl Hr Ha Hk Hvo Hvs Hbt Hca Hma]. cbn in *. constructor; cbn; try done.
  - by eapply origin_grows.
  - intros _. by right.
  - intros t log' [Hlog|[= -> ->]]; [|right; by split_and!].
    destruct (Hr _ _ Hlog) as [|(-> & Hn & _)]; [by left|done].
  - intros d t li lt Hm. destruct (Ha _ _ _ _ Hm) as [Hle _]. split; [done|]. done.
  - intros t x Hack. assert (acked H i t x ∨ t = s_term s) as [Hack'| ->].
    { destruct Hack as [Hm|(log' & [Hlog|[= -> ->]] & Hx)]; [left; by left|left; right; by exists log'|by right]. }
    + destruct (Hk _ _ Hack') as [Hle Hh]. split; [done|]. intros j Hj Hc Hu.
      apply Hh; [done|by eapply (created_before C H _ i ok ext)|by eapply upheld_before].
    + split; [done|]. intros j _ (l & log' & [Hlog|[= -> ->]] & Hh) _; [|done].
      destruct candidate_unreigned. by exists l, log'.
  - intros c Hc Hn. destruct Hn. exists i, log. by right.
  - intros v t log' Hb. destruct (Hca _ _ _ Hb) as [Hle _]. split; [done|]. done.
Qed.
End winning.

(** *** Appending as a leader *)

Section appending.
Hypothesis leader : s_role s = LEADER.
Context (payload : bytes).
Let e := mkEntry (len log + 1) (s_term s) payload.

Lemma append_newest l0 log0 : reign H (s_term s) l0 log0 → l0 = i ∧ log0 `prefix_of` log ++ [e].
Proof.
  intros Hr. assert (l0 = i) as -> by by (eapply (one_reign C H ok); [done|apply (ro_leader _ _ _ ro)]).
  split; [done|]. destruct (ro_reign _ _ _ ro _ _ Hr) as [Hlt|(_ & _ & Hp)]; [cbn in Hlt; lia|].
  etrans; [by apply Hp|]. by exists [e].
Qed.

Lemma append_sane : sane (log ++ [e]) (s_term s).
Proof.
  destruct (ro_sane _ _ _ ro) as [H0 [Hn Hs]]. cbn in *. split.
  - apply numbered_app. split; [done|]. intros [|k] x Hx; [|done]. injection Hx as <-. cbn. lia.
  - apply Forall_app. split; [done|]. constructor; [cbn; lia|constructor].
Qed.

Lemma append_origin : origin (crown H (s_term s) i (log ++ [e])) (log ++ [e]).
Proof.
  intros k x [Hx|[Hk Hx]]%lookup_app_Some.
  - destruct (ro_origin _ _ _ ro _ _ Hx) as (l & log' & Hr & E). exists l, log'. split; [by left|]. cbn in *.
    rewrite <-E. apply take_app_le. apply lookup_lt_Some in Hx. lia.
  - destruct (k - length log)%nat as [|]; [|done]. injection Hx as <-. exists i, (log ++ [e]). split; [by right|done].
Qed.

Lemma append_mandate : mandate C H (s_term s) i (log ++ [e]).
Proof.
  destruct (ho_mandate _ _ ok _ _ _ (ro_leader _ _ _ ro leader)) as (n & Hn & H1 & H2 & HQ). cbn in *.
  exists n. rewrite length_app, take_app_le, drop_app_le by done. split_and!; [lia|done| |done].
  apply Forall_app. split; [done|]. by constructor.
Qed.

Lemma history_ok_append : history_ok C (crown H (s_term s) i (log ++ [e])).
Proof.
  apply (history_ok_crown C H i (s_term s) (log ++ [e]) ok append_newest); [|apply append_sane|apply append_origin|apply append_mandate|].
  - by eapply (ho_elected _ _ ok), (ro_leader _ _ _ ro).
  - intros u c log'. apply (ro_voter _ _ _ ro).
Qed.

Lemma ok_append : replica_ok (crown H (s_term s) i (log ++ [e])) i (mkReplica s (log ++ [e]) M ci mc).
Proof.
  pose proof (crown_extends H i (s_term s) (log ++ [e]) append_newest) as ext. pose proof append_sane as Hsane. pose proof append_newest as Hnew.
  destruct ro as [[H0 Hs] Ho Hl Hr Ha Hk Hvo Hvs Hbt Hca Hma]. cbn in *. constructor; cbn; try done; try (by rewrite leader).
  - apply append_origin.
  - intros _. by right.
  - intros t log' [Hlog|[= -> ->]]; [|right; by rewrite leader].
    destruct (Hr _ _ Hlog) as [|(-> & Hn & Hp)]; [by left|right]. split_and!; [done..|]. intros _. by apply (Hnew i).
  - intros d t li lt Hm. destruct (Ha _ _ _ _ Hm) as [Hle _]. split; [done|]. by rewrite leader.
  - intros t x Hack. assert (acked H i t x ∨ t = s_term s) as [Hack'| ->].
    { destruct Hack as [Hm|(log' & [Hlog|[= -> ->]] & Hx)]; [left; by left|left; right; by exists log'|by right]. }
    + destruct (Hk _ _ Hack') as [Hle Hh]. split; [done|]. intros j Hj Hc Hu. eapply has_prefix; [by exists [e]|].
      apply Hh; [done|by eapply (created_before C H _ i ok ext)|by eapply upheld_before].
    + split; [done|]. intros j _ (l & log' & [Hlog|[= -> ->]] & Hh) _; [|done]. eapply has_prefix; [|exact Hh]. by apply (Hnew l).
  - intros c Hc Hn. destruct Hn. exists i, (log ++ [e]). by right.
  - intros v t log' Hb. destruct (Hca _ _ _ Hb) as [Hle _]. split; [done|]. by rewrite leader.
Qed.
End appending.
End offices.

(** ** The invariant *)

Definition recast (H : History) (cast' : Ballots) : History := mkHistory cast' (ballot H) (reign H) (said H).

Lemma replica_ok_recast H cast' i r : replica_ok H i r → replica_ok (recast H cast') i r.
Proof. intros [? ? ? ? ? ? ? ? ? ? ?]. by constructor. Qed.

Lemma history_ok_recast C H cast' :
  history_ok C H → cast H ⊆ cast' → (∀ v t a b, (v, t, a) ∈ cast' → (v, t, b) ∈ cast' → a = b) →
  history_ok C (recast H cast').
Proof. intros [? He ? ? ? ? ? ?] Hsub Honce. constructor; try done. intros t l log Hr. by eapply elected_mono, He. Qed.

(** What a step leaves of the history. *)
Definition later (H H' : History) : Prop :=
  (∀ t l log, reign H t l log → reign H' t l log) ∧ (∀ dm, dm ∈ said H → dm ∈ said H').

#[export] Instance later_preorder : PreOrder later.
Proof. split; [by intros H|]. intros a b c [R1 S1] [R2 S2]. split; auto. Qed.

(** The history after an action of server [i], of which the others need only know
    that they are candidates fresh enough for its ballots. *)
Definition extended (C : gset NodeId) (H : History) (c : Raft) (i : NodeId) (r' : Replica) (out : list (NodeId * Msg)) : Prop :=
  ∃ H', cast H' = cast H ∧ extends i H H' ∧ said H' = said H ++ out ∧ history_ok C H' ∧ replica_ok H' i r' ∧
    ∀ v t j log, j ≠ i → ballot H' v t j log → ballot H v t j log ∨
      ∀ rj, replicas c !! j = Some rj → t <= r_term rj ∧
        (t = r_term rj → r_role rj = CANDIDATE → pair_ge (freshness (r_log rj)) (freshness log) = true).

Section action_inv.
Context (C : gset NodeId) (H : History) (c : Raft) (i : NodeId).
Hypothesis ok : history_ok C H.
Hypothesis Hrs : ∀ j rj, replicas c !! j = Some rj → replica_ok H j rj.

(** No ballots. *)
Lemma extended_plain H' r' out :
  cast H' = cast H → extends i H H' → said H' = said H ++ out → ballot H' = ballot H →
  history_ok C H' → replica_ok H' i r' → extended C H c i r' out.
Proof. intros Ec Ext Es Eb Hok Hro. exists H'. split_and!; [done..|]. rewrite Eb. auto. Qed.

Lemma extended_same r' : replica_ok H i r' → extended C H c i r' [].
Proof. intros Hro. apply (extended_plain H); try done; [by constructor; auto|by rewrite app_nil_r]. Qed.

Lemma grant_extended s log M ci mc d li lt :
  replica_ok H i (mkReplica s log M ci mc) → (i, Vote (s_term s) d li lt) ∈ said H →
  pair_ge (lt, li) (freshness log) = true →
  extended C H c i (mkReplica (mkServer (s_term s) (Some d) (s_role s) (s_votes s)) log M ci mc) [].
Proof.
  intros ro Hh Hge. exists (vote H (¬ reigned H (s_term s)) i (s_term s) d log). split; [done|].
  split; [apply vote_extends|]. split_and!; [cbn; by rewrite app_nil_r| |by apply ok_grant|].
  - apply history_ok_vote; [done|]. intros Hn. split; [apply (ro_origin _ _ _ ro)|].
    intros u x j Hack Hu Hj Hcr Hup. apply (ro_acked _ _ _ ro u x); [done..|]. intros t' l log' Ht' Hr'. cbn in Ht'.
    destruct (decide (t' = s_term s)) as [->|]; [destruct Hn; by exists l, log'|]. apply (Hup t' l log'); [lia|done].
  - intros v t j log' Hj [Hb|[_ [= -> -> -> ->]]]; [by left|right]. intros rj Hrj.
    destruct (ro_asked _ _ _ (Hrs _ _ Hrj) _ _ _ _ Hh) as [Hle Hfr]. split; [done|].
    intros Et Hcand. by rewrite <-(Hfr Et Hcand).
Qed.

Lemma campaign_extended s log M ci mc :
  replica_ok H i (mkReplica s log M ci mc) →
  extended C H c i (mkReplica (mkServer (s_term s + 1) (Some i) CANDIDATE {[i]}) log ∅ ci mc) [].
Proof.
  intros ro. exists (vote H True i (s_term s + 1) i log). split; [done|].
  split; [apply vote_extends|]. split_and!; [cbn; by rewrite app_nil_r| |by eapply ok_campaign|].
  - apply history_ok_vote; [done|]. intros _. split; [apply (ro_origin _ _ _ ro)|].
    intros u x j Hack Hu Hj Hcr Hup. apply (ro_acked _ _ _ ro u x); [done..|]. cbn.
    replace (s_term s) with (s_term s + 1 - 1) by lia. exact Hup.
  - intros v t j log' Hj [Hb|[_ [= -> -> -> ->]]]; [by left|done].
Qed.

Lemma raft_action_inv r r' out :
  replica_ok H i r → raft_action C i (λ m, (i, m) ∈ said H) (r, []) (r', out) →
  (r_role r' ≠ FOLLOWER → s_votes (r_server r') ⊆ C) →
  (r_role r' = LEADER → elected C (cast H) (r_term r') i) →
  extended C H c i r' out.
Proof.
  intros ro Hact Hsub Hel. remember (r, @nil (NodeId * Msg)) as x eqn:Ex. remember (r', out) as y eqn:Ey.
  destruct Hact as [r0 o d m Hm|s log M ci mc o t Ht|s log M ci mc o|s log M ci mc o c0 li lt Hv Hh Hge|s log M ci mc o|s log M ci mc o v Hc Hh
    |s log M ci mc o Hc HM|s log M ci mc o M' HM|s log M ci mc o payload Hl|s log M ci mc o l pi pt es c0 Hf Hh Hfit|s log M ci mc o j Hl Hj HM|s log M ci mc o l pi pt es c0 Hf Hh Hes
    |s log M ci k d o e Hk He];
    injection Ex as <- ->; injection Ey as <- <-; cbn [r_server s_role s_term s_votes] in *.
  - apply (extended_plain (say H d m)); try done; [by eapply say_extends, may_say_by|by eapply history_ok_say|by eapply (ok_say C)].
  - apply extended_same. eapply (ok_follower H i); [done|done|].
    intros c0. destruct (Z.ltb_spec (s_term s) t); [done|]. intros ->. split; [lia|done].
  - apply extended_same. eapply ok_commit. by eapply (ok_follower H i s log M ci mc).
  - by eapply grant_extended.
  - by eapply campaign_extended.
  - apply extended_same. by eapply (ok_count C).
  - specialize (Hel eq_refl). specialize (Hsub ltac:(done)). apply (extended_plain (crown H (s_term s) i log)); try done.
    + eapply crown_extends, (win_newest C H i s log M ci mc); done.
    + cbn. by rewrite app_nil_r.
    + by eapply (history_ok_win C H i s log M ci mc).
    + by eapply (ok_win C H i s log M ci mc).
  - apply extended_same. by eapply ok_table.
  - apply (extended_plain (crown H (s_term s) i (log ++ [mkEntry (len log + 1) (s_term s) payload]))); try done.
    + eapply crown_extends, (append_newest C H i s log M ci mc); done.
    + cbn. by rewrite app_nil_r.
    + by eapply (history_ok_append C H i s log M ci mc).
    + by eapply (ok_append C H i s log M ci mc).
  - apply extended_same. by eapply (ok_merge C).
  - apply extended_same. by eapply ok_commit.
  - apply extended_same. by eapply ok_commit.
  - apply extended_same. by eapply ok_commit.
Qed.
End action_inv.

Lemma raft_inv_step C H c c' :
  raft_inv C H c → raft_step C c c' → ∃ H', later H H' ∧ raft_inv C H' c'.
Proof.
  intros (Hsaid & einv & ok & Hrs) Hstep. pose proof (raft_step_erased _ _ _ Hstep) as Hsteps.
  destruct (election_inv_steps _ _ _ _ einv Hsteps) as (cast' & Hsub & einv').
  destruct Hstep as [c i r r' out Hi Hact]. set (H1 := recast H cast').
  assert (history_ok C H1) as ok1 by (apply history_ok_recast; [done|done|apply (ei_once _ _ _ einv')]).
  assert (∀ j rj, replicas c !! j = Some rj → replica_ok H1 j rj) as Hrs1 by (intros; by apply replica_ok_recast, Hrs).
  assert (server_ok C cast' i (r_server r')) as Hserver.
  { apply (ei_servers _ _ _ einv'). cbn. by rewrite lookup_fmap, lookup_insert_eq. }
  destruct (raft_action_inv C H1 c i ok1 Hrs1 r r' out) as (H' & Ec & ext & Es & ok' & Hr' & Hothers); [by apply Hrs1|by rewrite <-Hsaid in Hact|..].
  { intros Hr. by apply (so_votes _ _ _ _ Hserver). }
  { intros Hr. by eapply leader_elected. }
  exists H'. split.
  - split; [apply (ex_reign _ _ _ ext)|]. intros [d m]. apply (ex_said _ _ _ ext).
  - split_and!; [cbn in *; congruence|by rewrite Ec|done|]. cbn. intros j rj [[<- <-]|[Hj Hrj]]%lookup_insert_Some; [done|].
    eapply (replica_ok_other C H1 H' i ok1 ext); [done|by apply Hrs1|]. intros v t log Hb.
    destruct (Hothers v t j log) as [|Hh]; [done|done|by left|right]. by apply Hh.
Qed.

Lemma raft_inv_steps C H c c' :
  raft_inv C H c → rtc (raft_step C) c c' → ∃ H', later H H' ∧ raft_inv C H' c'.
Proof.
  intros inv Hsteps. revert H inv. induction Hsteps as [c|x y z Hxy _ IH]; intros H inv; [by exists H|].
  destruct (raft_inv_step _ _ _ _ inv Hxy) as (H1 & L1 & inv1). destruct (IH _ inv1) as (H2 & L2 & inv2).
  exists H2. split; [by etrans|done].
Qed.

Lemma raft_inv_init C c : raft_init C c → ∃ H, raft_inv C H c.
Proof.
  intros (Hd & Hw & Hs). exists (mkHistory ∅ (λ _ _ _ _, False) (λ _ _ _, False) []). split; [done|]. split; [|split].
  - apply election_inv_init. split_and!; [by cbn; rewrite dom_fmap_L|done|]. intros i s Hi. cbn in Hi.
    rewrite lookup_fmap in Hi. destruct (replicas c !! i) as [r|] eqn:E; [|done]. injection Hi as <-.
    by destruct (Hs i r E) as (_ & Hr & Hv & _).
  - constructor; try done. by intros d m ?%not_elem_of_nil.
  - intros i r Hi. destruct (Hs i r Hi) as (El & Er & Ev & Hp & _).
    assert (∀ v t x, ¬ acked (mkHistory ∅ (λ _ _ _ _, False) (λ _ _ _, False) []) v t x) as Hno.
    { intros v t x [(d & c' & Hm)|(log & Hf & _)]; [by apply not_elem_of_nil in Hm|done]. }
    constructor; rewrite ?El, ?Er, ?Ev; try done.
    + intros d t li lt Hm. by apply not_elem_of_nil in Hm.
    + intros t x Hack. by apply Hno in Hack.
Qed.

(** ** Safety *)

Definition raft_reachable (C : gset NodeId) (c : Raft) : Prop := ∃ c0, raft_init C c0 ∧ rtc (raft_step C) c0 c.

Lemma raft_inv_reachable C c : raft_reachable C c → ∃ H, raft_inv C H c.
Proof.
  intros (c0 & [H0 inv]%raft_inv_init & Hsteps). destruct (raft_inv_steps _ _ _ _ inv Hsteps) as (H & _ & inv'). by exists H.
Qed.

Lemma raft_logs_match C H c a b ra rb :
  raft_inv C H c → replicas c !! a = Some ra → replicas c !! b = Some rb → matching (r_log ra) (r_log rb).
Proof.
  intros (_ & _ & ok & Hrs) Ha Hb. eapply (origins_match C H ok); by eapply ro_origin, Hrs.
Qed.

(** The servers a leader knows to have its log up to position [j]. *)
Definition backers (C : gset NodeId) (i : NodeId) (r : Replica) (j : nat) : gset NodeId :=
  {[i]} ∪ filter (λ p, Z.of_nat j < default 0 (r_match r !! p)) C.

Lemma later_acked H H' v t x : later H H' → acked H v t x → acked H' v t x.
Proof.
  intros [R S] [(d & c & Hm)|(log & Hr & Hx)]; [left; exists d, c; by apply S|right; exists log; split; [by apply R|done]].
Qed.

Lemma backers_acked C H c i r j :
  raft_inv C H c → replicas c !! i = Some r → r_role r = LEADER → has (r_log r) j (r_term r) →
  backers C i r j ⊆ C ∧ ∀ v, v ∈ backers C i r j → ∃ x, acked H v (r_term r) x ∧ Z.of_nat j < x.
Proof.
  intros (_ & einv & _ & Hrs) Hi Hr Hj. pose proof (Hrs _ _ Hi) as ro. split.
  - apply union_subseteq. split; [|by intros v [_ ?]%elem_of_filter].
    apply singleton_subseteq_l. rewrite <-(ei_dom _ _ _ einv). cbn. rewrite dom_fmap_L. by eapply elem_of_dom_2.
  - unfold backers. intros v [->%elem_of_singleton|[Hv HC]%elem_of_filter]%elem_of_union.
    + exists (len (r_log r)). split; [right; exists (r_log r); split; [by apply ro|done]|].
      apply has_length in Hj. unfold len. lia.
    + destruct (r_match r !! v) as [x|] eqn:E; cbn in Hv; [|lia]. exists x. split; [|done].
      destruct (ro_match _ _ _ ro _ _ Hr E) as [|[c' Hm]]; [lia|]. left. by exists i, c'.
Qed.

(** The commit rule counts them. *)
Lemma quorum_majority C H c i r j :
  raft_inv C H c → replicas c !! i = Some r → r_role r = LEADER →
  quorum C (r_match r) (Z.of_nat j + 1) = true → majority C (backers C i r j).
Proof.
  intros (_ & _ & ok & Hrs) Hi Hr Hq%Z.leb_le. pose proof (Hrs _ _ Hi) as ro. set (F := filter _ (r_match r)) in Hq.
  assert ({[i]} ∪ dom F ⊆ backers C i r j) as Hsub.
  { apply union_mono_l. intros p [x Hx]%elem_of_dom. apply map_lookup_filter_Some in Hx as [Hx [Hkx HpC]].
    apply elem_of_filter. split; [|done]. rewrite Hx. cbn. lia. }
  assert (i ∉ dom F) as Hni.
  { intros [x Hx]%elem_of_dom. apply map_lookup_filter_Some in Hx as [Hx [Hkx _]].
    destruct (ro_match _ _ _ ro i x) as [|[c' Hm]]; [done..|lia|]. by destruct (ho_said _ _ ok _ _ Hm) as [[] _]. }
  apply subseteq_size in Hsub. rewrite size_union, size_singleton, size_dom in Hsub by (by apply disjoint_singleton_l).
  unfold majority. lia.
Qed.

(** Leader completeness: what a leader knows to be on a majority, up to an entry of its
    own term, is in the log of every leader of that term or a later one, from then on. *)
Lemma leaders_complete C H c H' c' i r i' r' j :
  raft_inv C H c → later H H' → raft_inv C H' c' →
  replicas c !! i = Some r → r_role r = LEADER → has (r_log r) j (r_term r) → majority C (backers C i r j) →
  replicas c' !! i' = Some r' → r_role r' = LEADER → r_term r <= r_term r' →
  take (S j) (r_log r') = take (S j) (r_log r).
Proof.
  intros inv Hlater inv' Hi Hr Hj HM Hi' Hr' Hle. destruct (backers_acked _ _ _ _ _ _ inv Hi Hr Hj) as [HC Hack].
  destruct inv as (_ & _ & ok & Hrs), inv' as (_ & _ & ok' & Hrs'). pose proof (Hrs _ _ Hi) as ro. pose proof (Hrs' _ _ Hi') as ro'.
  assert (reign H' (r_term r) i (r_log r)) as Hreign by (apply Hlater; by apply ro).
  assert (created H' (r_term r) j) as Hcr by by exists i, (r_log r).
  assert (has (r_log r') j (r_term r)) as Hj'.
  { destruct (decide (r_term r = r_term r')) as [E|].
    - assert (reign H' (r_term r) i' (r_log r')) as Hreign' by (rewrite E; by apply ro').
      assert (i' = i) as -> by by eapply (one_reign C H' ok').
      destruct (ro_reign _ _ _ ro' _ _ Hreign) as [|(_ & _ & Hp)]; [lia|]. eapply has_prefix; [by apply Hp|done].
    - assert (upheld H' (r_term r) j (r_term r')) as Hup.
      { apply (chosen_upheld C H' ok' _ j _ Hcr HC HM).
        intros v Hv. destruct (Hack v Hv) as (x & Hx & Hlt). exists x. split; [by eapply later_acked|done]. }
      apply (Hup (r_term r') i' (r_log r')); [lia|by apply ro']. }
  eapply (origin_take C H' ok'); [apply ro'|done|exact Hreign|by apply has_length in Hj].
Qed.
