(* ===== verification/CommitSpec.v ===== *)
(** * The Raft protocol: what is committed

    A server's commit index vouches for its log up to it: a leader of its term or an
    earlier one had that much of the log on a majority, with an entry of its own term.
    As long as no append message carries a commit index beyond its own entries, this
    holds of every server, so that committed prefixes agree, at any two moments. *)
From stdpp Require Import relations.
From S2P Require Import Prelude Bytes RaftLog RaftLogFacts KVStore RaftInterfaces RaftNode ElectionSpec RaftSpec.
Local Open Scope Z_scope.

(** ** Chosen entries *)

(** In term [t] a majority has acknowledged the leader's log up to its entry [j]. *)
Definition chosen (C : gset NodeId) (H : History) (t : Z) (j : nat) : Prop :=
  ∃ Q, Q ⊆ C ∧ majority C Q ∧ ∀ v, v ∈ Q → ∃ x, acked H v t x ∧ Z.of_nat j < x.

(** The log up to index [c] was chosen in a term up to [t]. *)
Definition certified (C : gset NodeId) (H : History) (t : Z) (log : list Entry) (c : Z) : Prop :=
  c <= 0 ∨ ∃ u j l L, u <= t ∧ reign H u l L ∧ has L j u ∧ chosen C H u j ∧
    c <= Z.of_nat j + 1 ∧ take (Z.to_nat c) log = take (Z.to_nat c) L.

Section certificates.
Context (C : gset NodeId) (H : History).
Hypothesis ok : history_ok C H.

(** Leaders of that term and later ones have what was chosen. *)
Lemma chosen_agrees u j l L t l' L' k :
  chosen C H u j → reign H u l L → has L j u → reign H t l' L' → u <= t → (k ≤ S j)%nat → (k ≤ length L')%nat →
  take k L = take k L'.
Proof.
  intros (Q & HQ & HM & Hack) HL Hj HL' Hut Hk Hk'. pose proof (has_length _ _ _ Hj) as Hlen.
  destruct (decide (u = t)) as [->|Hne]; [eapply (reigns_agree C H ok); [done|done|lia|done]|].
  assert (created H u j) as Hcr by by exists l, L.
  assert (has L' j u) as Hj'.
  { apply (chosen_upheld C H ok u j Q Hcr HQ HM Hack t t l' L'); [lia|done]. }
  pose proof (origin_take C H ok L' j u l L (ho_origin _ _ ok _ _ _ HL') Hj' HL Hlen) as E.
  replace k with (k `min` S j)%nat by lia. by rewrite <-!take_take, E.
Qed.

(** Certified logs agree. *)
Lemma certified_agree t1 t2 log1 log2 c1 c2 c :
  certified C H t1 log1 c1 → certified C H t2 log2 c2 → c <= c1 → c <= c2 →
  take (Z.to_nat c) log1 = take (Z.to_nat c) log2.
Proof.
  assert (∀ c' (a b : list Entry), c <= c' → take (Z.to_nat c') a = take (Z.to_nat c') b → take (Z.to_nat c) a = take (Z.to_nat c) b) as Hsub.
  { intros c' a b Hc E. replace (Z.to_nat c) with (Z.to_nat c `min` Z.to_nat c')%nat by lia. by rewrite <-!take_take, E. }
  intros H1 H2 Hc1 Hc2. destruct (decide (c <= 0)); [by replace (Z.to_nat c) with 0%nat by lia|].
  destruct H1 as [|(u1 & j1 & l1 & L1 & _ & R1 & J1 & Q1 & K1 & E1)]; [lia|].
  destruct H2 as [|(u2 & j2 & l2 & L2 & _ & R2 & J2 & Q2 & K2 & E2)]; [lia|].
  rewrite (Hsub c1 _ _ Hc1 E1), (Hsub c2 _ _ Hc2 E2). pose proof (has_length _ _ _ J1). pose proof (has_length _ _ _ J2).
  destruct (decide (u1 <= u2)).
  - eapply chosen_agrees; [exact Q1|done..|lia|lia].
  - symmetry. eapply chosen_agrees; [exact Q2|done..|lia|lia|lia].
Qed.

Lemma certified_length t log c : certified C H t log c → c <= len log ∨ c <= 0.
Proof.
  intros [|(u & j & l & L & _ & _ & J & _ & K & E)]; [by right|left]. pose proof (has_length _ _ _ J) as HL.
  apply (f_equal length) in E. rewrite !length_take in E. unfold len. lia.
Qed.

(** A log that shares the prefix is certified as well. *)
Lemma certified_prefix t t' log log' c c' :
  certified C H t log c → t <= t' → c' <= c → take (Z.to_nat c') log' = take (Z.to_nat c') log → certified C H t' log' c'.
Proof.
  intros [|(u & j & l & L & Hu & R & J & Q & K & E)] Ht Hc E'; [left; lia|right]. exists u, j, l, L. split_and!; [lia|done..|lia|].
  rewrite E'. replace (Z.to_nat c') with (Z.to_nat c' `min` Z.to_nat c)%nat by lia. by rewrite <-!take_take, E.
Qed.

(** Merging a slice of a leader's log keeps what is certified. *)
Lemma merge_keeps_certified t log c l L pi m :
  certified C H t log c → reign H t l L →
  take (Z.to_nat c) (merge_entries (Z.to_nat pi) log (take m (drop (Z.to_nat pi) L))) = take (Z.to_nat c) log.
Proof.
  intros Hc HL. destruct (certified_length _ _ _ Hc) as [Hlen|]; [|by replace (Z.to_nat c) with 0%nat by lia].
  destruct Hc as [|(u & j & l' & L' & Hu & R & J & Q & K & E)]; [by replace (Z.to_nat c) with 0%nat by lia|].
  apply merge_entries_keeps; [unfold len in Hlen; lia|]. intros p x y Hp Hx Hy.
  assert (take (S p) L' = take (S p) L) as E'.
  { eapply chosen_agrees; [exact Q|done..|lia|]. by apply lookup_lt_Some in Hy. }
  rewrite <-(lookup_take_lt log (Z.to_nat c)), E, lookup_take_lt in Hx by done.
  rewrite <-(lookup_take_lt L' (S p)), E', lookup_take_lt, Hy in Hx by lia. by injection Hx as ->.
Qed.
End certificates.

Lemma certified_later C H H' t t' log c : later H H' → t <= t' → certified C H t log c → certified C H' t' log c.
Proof.
  intros HL Ht [|(u & j & l & L & Hu & R & J & (Q & HQ & HM & Hack) & K & E)]; [by left|right].
  exists u, j, l, L. split_and!; [lia|by apply HL|done| |done..]. exists Q. split_and!; [done..|].
  intros v Hv. destruct (Hack v Hv) as (x & Hx & Hj). exists x. split; [by eapply later_acked|done].
Qed.

(** ** The invariant *)

(** No message commits more than it carries. *)
Definition covers (m : Msg) : bool :=
  match m with Append _ _ pi _ es k => k <=? pi + len es | _ => true end.

Definition covered (ms : list (NodeId * Msg)) : Prop := Forall (λ dm, covers dm.2 = true) ms.

Lemma covered_check ms : forallb (λ dm, covers dm.2) ms = true → covered ms.
Proof. intros E. apply Forall_forall. intros dm Hd. rewrite forallb_forall in E. apply E. by apply list_elem_of_In. Qed.

Lemma covered_append ms d t l pi pt es k : covered ms → (d, Append t l pi pt es k) ∈ ms → k <= pi + len es.
Proof. intros Hc Hm. eapply Forall_forall in Hc; [|exact Hm]. by apply Z.leb_le. Qed.

Definition vouched (C : gset NodeId) (H : History) (m : Msg) : Prop :=
  match m with
  | Append t l _ _ _ k => ∃ L, reign H t l L ∧ certified C H t L k
  | _ => True
  end.

(** The state machine has applied a certified prefix of the log. *)
Definition machine_ok (C : gset NodeId) (H : History) (r : Replica) : Prop :=
  0 <= (r_machine r).1 ∧ certified C H (r_term r) (r_log r) (r_machine r).1 ∧
  (r_machine r).2 = replay (take (Z.to_nat (r_machine r).1) (r_log r)).

Record commits_ok (C : gset NodeId) (H : History) (c : Raft) : Prop := {
  co_replicas i r : replicas c !! i = Some r → certified C H (r_term r) (r_log r) (r_commit r);
  co_machines i r : replicas c !! i = Some r → machine_ok C H r;
  co_wired d m : (d, m) ∈ wired c → vouched C H m;
}.

Lemma vouched_later C H H' m : later H H' → vouched C H m → vouched C H' m.
Proof.
  intros HL. destruct m; try done. intros (L & HR & Hc). exists L. split; [by apply HL|].
  by eapply certified_later.
Qed.

Lemma machine_later C H H' r : later H H' → machine_ok C H r → machine_ok C H' r.
Proof. intros HL (H0 & Hc & Hd). split_and!; [done|by eapply certified_later|done]. Qed.

Section steps.
Context (C : gset NodeId) (H : History) (c : Raft).
Hypothesis inv : raft_inv C H c.

Lemma commit_certified i r j :
  replicas c !! i = Some r → r_role r = LEADER → has (r_log r) j (r_term r) →
  quorum C (r_match r) (Z.of_nat j + 1) = true → certified C H (r_term r) (r_log r) (Z.of_nat j + 1).
Proof.
  intros Hi Hr Hj Hq. destruct (backers_acked _ _ _ _ _ _ inv Hi Hr Hj) as [HC Hack].
  pose proof (quorum_majority _ _ _ _ _ _ inv Hi Hr Hq) as HM. destruct inv as (_ & _ & _ & Hrs).
  right. exists (r_term r), j, i, (r_log r). split_and!; [done|by apply Hrs|done|by exists (backers C i r j)|done|done].
Qed.

Lemma follow_certified i r l pi pt es k :
  commits_ok C H c → covered (wired c) → replicas c !! i = Some r →
  (i, Append (r_term r) l pi pt es k) ∈ wired c → holds (r_log r) pi pt es →
  certified C H (r_term r) (r_log r) (Z.min k (len (r_log r))).
Proof.
  intros co Hcov Hi Hm Hh. destruct (co_wired _ _ _ co _ _ Hm) as (L & HL & Hc). pose proof (covered_append _ _ _ _ _ _ _ _ Hcov Hm) as Hk.
  destruct inv as (Hsaid & _ & ok & Hrs). rewrite <-Hsaid in Hm.
  destruct (holds_agrees C H i ok r l pi pt es k) as (L' & HL' & Hlen & E); [by apply Hrs|done..|].
  eapply certified_prefix; [exact Hc|done|lia|].
  destruct (certified_length _ _ _ _ _ Hc) as [HkL|]; [|by replace (Z.to_nat _) with 0%nat by lia].
  set (a := Z.min k _). assert (take (Z.to_nat a) L' = take (Z.to_nat a) L) as <-.
  { unfold len in *. eapply (reigns_agree C H ok); [done|done|lia|lia]. }
  replace (Z.to_nat a) with (Z.to_nat a `min` Z.to_nat (pi + len es))%nat by lia. by rewrite <-!take_take, E.
Qed.

(** An action keeps what is certified. *)
Lemma action_keeps i r r' out k :
  replicas c !! i = Some r → raft_action C i (λ m, (i, m) ∈ wired c) (r, []) (r', out) →
  certified C H (r_term r) (r_log r) k →
  r_term r <= r_term r' ∧ take (Z.to_nat k) (r_log r') = take (Z.to_nat k) (r_log r).
Proof.
  intros Hi Ha Hc. pose proof inv as (Hsaid & _ & ok & _). inversion Ha; subst; cbn in *; try (split; [lia|done]).
  - split; [done|]. destruct (certified_length _ _ _ _ _ Hc) as [Hlen|]; [|by replace (Z.to_nat k) with 0%nat by lia].
    apply take_app_le. unfold len in Hlen. lia.
  - split; [done|]. match goal with Hh : (i, Append _ _ _ _ _ _) ∈ _ |- _ => rewrite <-Hsaid in Hh; destruct (ho_said _ _ ok _ _ Hh) as [_ (L & HL & _ & _ & m & ->)] end.
    by eapply merge_keeps_certified.
Qed.

Section action.
Context (i : NodeId) (r r' : Replica) (out : list (NodeId * Msg)).
Hypothesis co : commits_ok C H c.
Hypothesis cov : covered (wired c).
Hypothesis at_i : replicas c !! i = Some r.
Hypothesis act : raft_action C i (λ m, (i, m) ∈ wired c) (r, []) (r', out).

(** What is certified of the server is so of its next state. *)
Lemma next_certified k : certified C H (r_term r) (r_log r) k → certified C H (r_term r') (r_log r') k.
Proof. intros Hc. destruct (action_keeps i r r' out k at_i act Hc) as [Ht E]. by eapply certified_prefix. Qed.

Lemma action_certified : certified C H (r_term r') (r_log r') (r_commit r').
Proof.
  assert (r_commit r' = r_commit r → certified C H (r_term r') (r_log r') (r_commit r')) as Hsame.
  { intros ->. apply next_certified. by apply (co_replicas _ _ _ co i). }
  remember (r, @nil (NodeId * Msg)) as x eqn:Ex. remember (r', out) as y eqn:Ey.
  destruct act as [| |s log M ci mc o| | | | | | | |s log M ci mc o j Hr Hj HM|s log M ci mc o l pi pt es k Hr Hh Hes|];
    injection Ex as <- ->; injection Ey as <- <-; try by apply Hsame.
  - by left.
  - exact (commit_certified i _ j at_i Hr Hj HM).
  - exact (follow_certified i _ l pi pt es k co cov at_i Hh Hes).
Qed.

Lemma action_machine : machine_ok C H r'.
Proof.
  pose proof (co_machines _ _ _ co _ _ at_i) as (H0 & Hc & Hd). pose proof (co_replicas _ _ _ co _ _ at_i) as Hcommit.
  assert (r_machine r' = r_machine r → machine_ok C H r') as Hsame.
  { intros E. unfold machine_ok. rewrite E. split_and!; [done|by apply next_certified|].
    destruct (action_keeps i r r' out _ at_i act Hc) as [_ ->]. done. }
  remember (r, @nil (NodeId * Msg)) as x eqn:Ex. remember (r', out) as y eqn:Ey.
  destruct act as [| |s log M ci mc o| | | | | | | | | |s log M ci k d o e Hk He];
    injection Ex as <- ->; injection Ey as <- <-; try by apply Hsame.
  - split_and!; [done|by left|done].
  - unfold machine_ok. cbn in *. split_and!; [lia| |].
    + eapply certified_prefix; [exact Hcommit|done|lia|done].
    + cbn. replace (Z.to_nat (k + 1)) with (S (Z.to_nat k)) by lia.
      rewrite (take_S_r _ _ e) by done. unfold replay. rewrite foldl_app. cbn. by rewrite Hd.
Qed.
End action.
End steps.

(** An action says one thing at most. *)
Lemma action_says C me heard r r' out :
  raft_action C me heard (r, []) (r', out) →
  out = [] ∨ ∃ d m, out = [(d, m)] ∧ r' = r ∧ may_say me heard r d m.
Proof. intros Ha. inversion Ha; subst; [right; by exists d, m|by left..]. Qed.

Lemma covered_before C c c' : rtc (raft_step C) c c' → covered (wired c') → covered (wired c).
Proof.
  induction 1 as [|c c1 c2 Hstep _ IH]; [done|]. intros Hcov. apply IH in Hcov. destruct Hstep. by apply Forall_app in Hcov as [Hcov _].
Qed.

Lemma commits_step C H c c' :
  raft_inv C H c → raft_step C c c' → commits_ok C H c → covered (wired c') →
  ∃ H', later H H' ∧ raft_inv C H' c' ∧ commits_ok C H' c'.
Proof.
  intros inv Hstep co Hcov. destruct (raft_inv_step _ _ _ _ inv Hstep) as (H' & HL & inv'). exists H'. split_and!; [done..|].
  pose proof (covered_before _ _ _ (rtc_once _ _ Hstep) Hcov) as Hcov0. destruct Hstep as [c i r r' out Hi Ha].
  constructor; cbn.
  - intros j rj [[<- <-]|[_ Hj]]%lookup_insert_Some; (eapply certified_later; [done|reflexivity|]).
    + by eapply action_certified.
    + by apply (co_replicas _ _ _ co j).
  - intros j rj [[<- <-]|[_ Hj]]%lookup_insert_Some; (eapply machine_later; [done|]).
    + by eapply action_machine.
    + by apply (co_machines _ _ _ co j).
  - intros d m [Hm|Hm]%elem_of_app; [by eapply vouched_later, (co_wired _ _ _ co)|].
    destruct (action_says _ _ _ _ _ _ Ha) as [->|(d' & m' & -> & -> & Hsay)]; [by apply not_elem_of_nil in Hm|].
    apply list_elem_of_singleton in Hm as [= -> ->]. destruct m'; try done. destruct Hsay as (-> & _ & -> & Hr & -> & _).
    eapply (vouched_later C H); [done|]. exists (r_log r). split; [|by apply (co_replicas _ _ _ co i)].
    destruct inv as (_ & _ & _ & Hrs). by apply Hrs.
Qed.

Lemma commits_steps C H c c' :
  raft_inv C H c → rtc (raft_step C) c c' → commits_ok C H c → covered (wired c') →
  ∃ H', later H H' ∧ raft_inv C H' c' ∧ commits_ok C H' c'.
Proof.
  intros inv Hsteps co. revert c' Hsteps. apply (rtc_ind_r (λ c', covered (wired c') → _)); [by intros _; exists H|].
  intros c1 c2 Hs Hstep IH Hcov. destruct IH as (H1 & HL1 & inv1 & co1).
  { eapply covered_before; [by apply rtc_once|done]. }
  destruct (commits_step C H1 c1 c2 inv1 Hstep co1 Hcov) as (H2 & HL2 & inv2 & co2). exists H2. split; [by etrans|done].
Qed.

Lemma commits_init C H c : raft_init C c → commits_ok C H c.
Proof.
  intros (_ & Hw & Hs). constructor; [..|by rewrite Hw; intros d m ?%not_elem_of_nil].
  - intros i r Hi. destruct (Hs i r Hi) as (_ & _ & _ & _ & Hc & _). left. lia.
  - intros i r Hi. destruct (Hs i r Hi) as (_ & _ & _ & _ & _ & Em). unfold machine_ok. rewrite Em. split_and!; [done|by left|done].
Qed.

(** ** State machine safety *)

Section safety.
Context (C : gset NodeId) (c0 c c' : Raft) (a b : NodeId) (ra rb : Replica).
Hypothesis init : raft_init C c0.
Hypothesis before : rtc (raft_step C) c0 c.
Hypothesis after : rtc (raft_step C) c c'.
Hypothesis cov : covered (wired c').
Hypothesis at_a : replicas c !! a = Some ra.
Hypothesis at_b : replicas c' !! b = Some rb.

Lemma both_certified : ∃ H, history_ok C H ∧
  certified C H (r_term ra) (r_log ra) (r_commit ra) ∧ machine_ok C H ra ∧
  certified C H (r_term rb) (r_log rb) (r_commit rb) ∧ machine_ok C H rb.
Proof.
  destruct (raft_inv_init _ _ init) as [H0 inv0]. pose proof (commits_init C H0 _ init) as co0.
  destruct (commits_steps _ _ _ _ inv0 before co0) as (H1 & _ & inv1 & co1); [by eapply covered_before|].
  destruct (commits_steps _ _ _ _ inv1 after co1 cov) as (H2 & HL & (_ & _ & ok & _) & co2).
  exists H2. split_and!; [done|..].
  - eapply certified_later; [exact HL|reflexivity|]. by apply (co_replicas _ _ _ co1 a).
  - eapply machine_later; [exact HL|]. by apply (co_machines _ _ _ co1 a).
  - by apply (co_replicas _ _ _ co2 b).
  - by apply (co_machines _ _ _ co2 b).
Qed.

(** What two servers have committed agrees, also when one is observed later. *)
Lemma committed_agree k : k <= r_commit ra → k <= r_commit rb → take (Z.to_nat k) (r_log ra) = take (Z.to_nat k) (r_log rb).
Proof. destruct both_certified as (H & ok & Ha & _ & Hb & _). by apply (certified_agree C H ok _ _ _ _ _ _ k Ha Hb). Qed.

(** What one has applied is in the log the other has applied. *)
Lemma applied_agree :
  (r_machine ra).1 <= (r_machine rb).1 → (r_machine ra).2 = replay (take (Z.to_nat (r_machine ra).1) (r_log rb)).
Proof.
  destruct both_certified as (H & ok & _ & (_ & Ca & ->) & _ & (_ & Cb & _)). intros Hle. f_equal.
  by apply (certified_agree C H ok _ _ _ _ _ _ _ Ca Cb).
Qed.
End safety.
