(* ===== verification/NodeFacts.v ===== *)
(** * Raft node: frames, and the election protocol it implements

    Most operations of a node leave its term, vote, role and votes alone and send
    nothing; some also send leader's messages.  With these two frames each handler
    is shown to be a sequence of actions of the abstract election protocol, whatever
    it raises, for a node that does not use pre-votes and whose membership does not
    change. *)
From stdpp Require Import relations.
From S2P Require Import Prelude Bytes RaftLog RaftLogFacts DurableLog KVStore RaftInterfaces RaftNode ElectionSpec.
Local Open Scope Z_scope.

(** A payload that is not a configuration entry. *)
Definition plain (b : bytes) : Prop := starts_with CFG b = false.
Abbreviation plain_entries := (Forall (λ e, plain (e_payload e))).

(** ** Laws of the log interface *)

Class RaftLogLaws (L : Type) `{RaftLogOps L} : Prop := {
  log_view_assign f (l : L) : log_view (log_assign f l) = f (log_view l);
  log_append_payloads (P : bytes → Prop) term payload wall (l : L) :
    P payload → Forall (λ e, P (e_payload e)) (entries (log_view l)) →
    Forall (λ e, P (e_payload e)) (entries (log_view (log_append_entry term payload wall l).2));
  log_merge_payloads (P : bytes → Prop) prev_index prev_term incoming wall (l : L) :
    Forall (λ e, P (e_payload e)) incoming → Forall (λ e, P (e_payload e)) (entries (log_view l)) →
    Forall (λ e, P (e_payload e)) (entries (log_view (log_merge prev_index prev_term incoming wall l).2));
  log_resync_view resync idx (l : L) :
    log_truncate_disk_through = Some resync → log_view (resync idx l).2 = log_view l;
}.

Lemma renumber_payloads (P : bytes → Prop) prev k incoming :
  Forall (λ e, P (e_payload e)) incoming → Forall (λ e, P (e_payload e)) (renumber prev k incoming).
Proof.
  intros H. apply (Forall_drop _ k) in H. unfold renumber. apply Forall_lookup. intros i e Hi.
  rewrite list_lookup_imap in Hi. destruct (drop k incoming !! i) as [x|] eqn:E; [|done].
  injection Hi as <-. cbn. rewrite Forall_lookup in H. by eapply H.
Qed.

Lemma merge_scan_payloads (P : Entry → Prop) prev incoming : ∀ k l,
  Forall P (entries l) → Forall P (entries (merge_scan prev k incoming l).2).
Proof.
  induction incoming as [|inc incoming IH]; intros k l Hl; cbn; [done|].
  destruct (_ =? -1); [done|]. destruct (negb _); [by apply Forall_take|]. by apply IH.
Qed.

#[export] Instance RaftLog_laws : RaftLogLaws RaftLog.
Proof.
  constructor; cbn; try done.
  - intros P term payload _ l Hp Hl. apply Forall_app. split; [done|]. by constructor.
  - intros P prev pt incoming _ l Hi Hl. destruct (RaftLog_merge prev pt incoming l) as [r l'] eqn:E.
    cbn. unfold RaftLog_merge in E. destruct (_ <? _); [by injection E as _ <-|].
    destruct (negb _); [by injection E as _ <-|].
    pose proof (merge_scan_payloads (λ e, P (e_payload e)) prev incoming 0 l Hl) as Hs.
    destruct (merge_scan prev 0 incoming l) as [[k|] l1]; injection E as _ <-; [|done].
    cbn. apply Forall_app. split; [done|]. by apply renumber_payloads.
Qed.

(** The payloads of a durable log's cache under an operation on its disk. *)
Lemma on_disk_mem {A} (m : CommitLog.LogM A) (s : DurableRaftLog) : dl_mem (on_disk m s).2 = dl_mem s.
Proof. unfold on_disk. by destruct (m (dl_disk s)). Qed.

Lemma fresh_payloads (P : bytes → Prop) n incoming :
  Forall (λ e, P (e_payload e)) incoming → Forall (λ e, P (e_payload e)) (fresh_entries n incoming).
Proof.
  intros H. unfold fresh_entries. apply Forall_lookup. intros i e Hi.
  rewrite list_lookup_imap in Hi. destruct (filter _ incoming !! i) as [x|] eqn:E; [|done].
  injection Hi as <-. cbn. apply list_elem_of_lookup_2, list_elem_of_filter in E as [_ E].
  rewrite Forall_forall in H. by apply H.
Qed.

Section durable_payloads.
Context (P : bytes → Prop).

Definition payloads_kept (s s' : DurableRaftLog) : Prop :=
  Forall (λ e, P (e_payload e)) (entries (dl_mem s)) → Forall (λ e, P (e_payload e)) (entries (dl_mem s')).

#[local] Instance payloads_kept_preorder : PreOrder payloads_kept.
Proof. split; unfold payloads_kept; [intros s; auto|intros a b c; auto]. Qed.

Lemma kept_on_disk {A} (m : CommitLog.LogM A) : preserves payloads_kept (on_disk m).
Proof. intros s. unfold respects, payloads_kept. by rewrite on_disk_mem. Qed.

Lemma kept_on_mem f :
  (∀ l, Forall (λ e, P (e_payload e)) (entries l) → Forall (λ e, P (e_payload e)) (entries (f l))) →
  preserves payloads_kept (on_mem f).
Proof. intros Hf s. unfold respects, payloads_kept. apply Hf. Qed.

Lemma durable_append_payloads term payload wall :
  P payload → preserves payloads_kept (DurableRaftLog_append_entry term payload wall).
Proof.
  intros Hp. unfold DurableRaftLog_append_entry. apply (preserves_gets _ (λ s, s)). intros s.
  apply (preserves_bind _ _ _); [|intros _; apply (preserves_bind _ _ _); [apply preserves_lift, _|intros b]].
  - apply kept_on_mem. intros l Hl. cbn. apply Forall_app. split; [done|]. by constructor.
  - apply (preserves_bind _ _ _); [apply kept_on_disk|intros _; apply preserves_ret, _].
Qed.

Lemma durable_merge_payloads prev pt incoming wall :
  Forall (λ e, P (e_payload e)) incoming →
  preserves payloads_kept (DurableRaftLog_merge prev pt incoming wall).
Proof.
  intros Hi. unfold DurableRaftLog_merge. apply (preserves_gets _ (λ s, s)). intros s.
  destruct (_ <? _); [apply (preserves_ret _)|]. destruct (negb _); [apply (preserves_ret _)|].
  apply (preserves_bind _ _ _).
  - destruct (find_cut _ _ _ _) as [cut|]; [|apply preserves_ret, _].
    apply (preserves_bind _ _ _); [|intros _; apply (preserves_bind _ _ _); [apply kept_on_disk|intros _; apply preserves_ret, _]].
    apply kept_on_mem. intros l Hl. cbn. by apply Forall_list_filter.
  - intros _. apply (preserves_gets _ (λ s, s)). intros s'.
    apply (preserves_bind _ _ _); [|intros _; apply (preserves_bind _ _ _); [|intros _; apply preserves_ret, _]].
    + apply kept_on_mem. intros l Hl. cbn. apply Forall_app. split; [done|]. by apply fresh_payloads.
    + apply (preserves_when _). apply (preserves_bind _ _ _); [apply preserves_lift, _|intros bs].
      apply (preserves_bind _ _ _); [apply kept_on_disk|intros _; apply preserves_ret, _].
Qed.
End durable_payloads.

#[export] Instance DurableRaftLog_laws : RaftLogLaws DurableRaftLog.
Proof.
  constructor; cbn; try done.
  - intros P term payload wall l Hp. by apply (durable_append_payloads P).
  - intros P prev pt incoming wall l Hi. by apply (durable_merge_payloads P).
  - intros resync idx l [= <-]. unfold truncate_disk_through, mbind, M_bind.
    pose proof (on_disk_mem (CommitLog.CommitLog_truncate_from idx) l) as Hm.
    by destruct (on_disk _ l) as [[e|x] s'].
Qed.

(** ** Frames *)

Section frames.
Context {L Rng : Type} `{RaftLogLaws L} `{Random Rng}.
Context (clock wall : Z).
Abbreviation Node := (RaftNode L Rng).
Abbreviation W := (World L Rng).

(** What elections depend on. *)
Definition key (n : Node) :=
  (id n, peers n, config n, old_config n, use_prevote n, pre_candidate n, persister n, role n, votes n).

Definition plain_node (n : Node) : Prop := plain_entries (entries (rlog n)).

(** Nothing sent, no election state changed. *)
Definition silent (w w' : W) : Prop :=
  plain_node (nd w) → plain_node (nd w') ∧ key (nd w') = key (nd w) ∧ sent w' = sent w.

#[export] Instance silent_preorder : PreOrder silent.
Proof.
  split; [by intros w|]. intros a b c Hab Hbc Ha. destruct (Hab Ha) as (Hb & K1 & S1).
  destruct (Hbc Hb) as (Hc & K2 & S2). split_and!; [done|congruence|congruence].
Qed.

Lemma silent_self {A} (f : Node → M W A) :
  (∀ w, respects silent w (f (nd w))) → preserves silent (self ≫= f).
Proof. apply (preserves_gets _ nd). Qed.

Lemma silent_on_node f :
  (∀ n, key (f n) = key n) → (∀ n, rlog (f n) = rlog n) → preserves silent (on_node f).
Proof.
  intros Hk Hl w Hp. cbn. unfold plain_node. cbn. rewrite Hl, Hk. done.
Qed.

(** Changes to the log that only drop entries. *)
Lemma silent_log_assign f :
  (∀ l, plain_entries (entries l) → plain_entries (entries (f l))) →
  preserves silent (on_node (λ n, n <| log := log_assign f (log n) |>)).
Proof.
  intros Hf w Hp. cbn. unfold plain_node, rlog in *. cbn. rewrite log_view_assign. split_and!; [by apply Hf|done|done].
Qed.

Lemma silent_draw lo hi : preserves silent (draw lo hi).
Proof. intros w Hp. unfold draw. by destruct (uniform lo hi (rng (nd w))). Qed.

Lemma silent_reset b : preserves silent (RaftNode_reset_election_deadline clock b).
Proof.
  unfold RaftNode_reset_election_deadline. apply silent_self. intros w.
  apply (respects_bind _); [apply silent_draw|]. intros x w1 _. revert w1.
  apply (preserves_bind _ _ _).
  - destruct b; [|apply (preserves_ret _)].
    apply (preserves_bind _ _ _); [apply silent_draw|intros e; apply (preserves_ret _)].
  - intros base. apply (preserves_bind _ _ _); [by apply silent_on_node|intros _; apply (preserves_ret _)].
Qed.

Lemma silent_write_snapshot idx term st : preserves silent (RaftNode_write_snapshot_file idx term st).
Proof. apply silent_on_node; intros n; by destruct (snapshot_dir n). Qed.

Lemma compact_plain idx term l : plain_entries (entries l) → plain_entries (entries (compact idx term l).2).
Proof.
  intros Hl. unfold compact. repeat destruct (_ && _); repeat destruct (_ <? _); cbn; try done;
    by apply Forall_list_filter.
Qed.

Lemma silent_take_snapshot : preserves silent RaftNode_take_snapshot.
Proof.
  unfold RaftNode_take_snapshot. apply silent_self. intros w.
  destruct (state_machine (nd w)) as [sm|]; [|apply (preserves_ret _)].
  destruct (_ =? _); [apply (preserves_ret _)|]. revert w. intros w.
  apply (respects_bind _); [apply silent_write_snapshot|]. intros _ w1 _. revert w1.
  apply (preserves_bind _ _ _); [by apply silent_on_node|intros _].
  apply (preserves_bind _ _ _); [apply silent_log_assign; intros l; apply compact_plain|intros _].
  apply silent_self. intros w1. apply (preserves_ret _).
Qed.

Lemma silent_sm_apply payload : preserves silent (sm_apply payload).
Proof.
  intros w Hp. unfold sm_apply. destruct (state_machine (nd w)) as [sm|]; [|done].
  by destruct (KVStore_apply payload sm) as [[e|x] sm'].
Qed.

Lemma silent_apply_entry nxt entry :
  plain (e_payload entry) → preserves silent (apply_entry clock nxt entry).
Proof.
  intros Hp. unfold apply_entry. apply silent_self. intros w. rewrite Hp, andb_false_r.
  destruct (state_machine (nd w)); [|by apply silent_on_node].
  apply (respects_bind _).
  { destruct (_ && _); [apply silent_sm_apply|apply (preserves_ret _)]. }
  intros result w1 _. revert w1.
  apply (preserves_bind _ _ _); [by apply silent_on_node|intros _].
  apply silent_self. intros w1. destruct (on_apply (nd w1)); [|by apply (preserves_ret _)]. by intros Hw.
Qed.

Lemma RaftLog_get_plain i l e : plain_entries (entries l) → RaftLog_get i l = Some e → plain (e_payload e).
Proof.
  unfold RaftLog_get. intros Hl Hg. destruct (_ && _); [|done]. rewrite Forall_lookup in Hl. by eapply Hl.
Qed.

Lemma silent_apply_loop fuel : preserves silent (apply_loop clock fuel).
Proof.
  induction fuel as [|fuel IH]; cbn [apply_loop]; [apply (preserves_ret _)|].
  apply silent_self. intros w. destruct (_ <? _); [|apply (preserves_ret _)].
  destruct (RaftLog_get _ _) as [e|] eqn:E.
  - intros Hp. pose proof (RaftLog_get_plain _ _ _ Hp E) as He. revert Hp. fold (silent w).
    apply (respects_bind silent); [by apply silent_apply_entry|]. intros _ w1 _. apply IH.
  - destruct (state_machine (nd w)); [apply (preserves_ret _)|].
    apply (respects_bind _); [by apply silent_on_node|]. intros _ w1 _. apply (preserves_ret _).
Qed.

Lemma silent_apply_committed : preserves silent (RaftNode_apply_committed clock).
Proof.
  unfold RaftNode_apply_committed. apply silent_self. intros w.
  apply (respects_bind _); [apply silent_apply_loop|]. intros through w1 _. revert w1.
  apply (preserves_when _). apply silent_self. intros w1.
  destruct (auto_snapshot_every _); [|apply (preserves_ret _)].
  destruct (snapshot_dir _); [|apply (preserves_ret _)].
  apply (preserves_when _). apply (preserves_bind _ _ _); [apply silent_take_snapshot|intros _; apply (preserves_ret _)].
Qed.

Lemma silent_advance_loop k : ∀ c, preserves silent (advance_commit_loop clock k c).
Proof.
  induction k as [|k IH]; intros c; cbn [advance_commit_loop]; [apply (preserves_ret _)|].
  apply silent_self. intros w. destruct (negb _); [apply IH|]. destruct (commit_quorum _ _); [|apply IH].
  apply (respects_bind _); [by apply silent_on_node|]. intros _ w1 _. apply silent_apply_committed.
Qed.

Lemma silent_advance_commit : preserves silent (RaftNode_advance_commit clock).
Proof. unfold RaftNode_advance_commit. apply silent_self. intros w. apply silent_advance_loop. Qed.

Lemma silent_get_key m p : preserves silent (get_key m p).
Proof. unfold get_key. destruct (m !! p); [apply (preserves_ret _)|apply (preserves_raise _)]. Qed.

Lemma silent_append_entry term payload :
  plain payload → preserves silent (on_log (log_append_entry term payload wall)).
Proof.
  intros Hp w Hw. pose proof (log_append_payloads plain term payload wall (log (nd w)) Hp Hw) as Hl.
  unfold on_log. destruct (log_append_entry _ _ _ _) as [r l]. cbn. done.
Qed.

Lemma silent_merge prev pt incoming :
  plain_entries incoming → preserves silent (on_log (log_merge prev pt incoming wall)).
Proof.
  intros Hp w Hw. pose proof (log_merge_payloads plain prev pt incoming wall (log (nd w)) Hp Hw) as Hl.
  unfold on_log. destruct (log_merge _ _ _ _ _) as [r l]. cbn. done.
Qed.

Lemma silent_resync idx : preserves silent (RaftNode_resync idx).
Proof.
  unfold RaftNode_resync. destruct log_truncate_disk_through as [f|] eqn:E; [|apply (preserves_ret _)].
  intros w Hw. pose proof (log_resync_view f idx (log (nd w)) E) as Hl.
  unfold on_log. destruct (f idx (log (nd w))) as [r l]. cbn in *. unfold plain_node, rlog in *. cbn.
  by rewrite Hl.
Qed.

Lemma silent_load_snapshot : preserves silent RaftNode_load_snapshot_file.
Proof.
  unfold RaftNode_load_snapshot_file. apply silent_self. intros w.
  destruct (snapshot_dir (nd w)) as [files|]; [|apply (preserves_ret _)].
  destruct (state_machine (nd w)) as [sm|]; [|apply (preserves_ret _)].
  destruct (latest_snapshot files) as [text|]; [|apply (preserves_ret _)].
  apply (respects_bind _); [apply preserves_lift, _|]. intros s w1 _.
  apply (respects_bind _); [by apply silent_on_node|]. intros _ w3 _.
  apply (respects_bind _); [apply silent_log_assign; intros l; apply compact_plain|]. intros _ w4 _.
  apply (respects_bind _); [apply silent_resync|]. intros _ w5 _. by apply silent_on_node.
Qed.

Lemma silent_init : preserves silent (RaftNode_init clock).
Proof.
  unfold RaftNode_init. apply (preserves_bind _ _ _); [apply silent_reset|]. intros x. apply silent_load_snapshot.
Qed.
End frames.
