(* ===== verification/NodeElection.v ===== *)
(** * Raft node: its handlers implement the election protocol

    Each handler of a node with a fixed membership and without pre-votes is a
    sequence of actions of [ElectionSpec], even when it raises half-way. *)
From stdpp Require Import relations.
From S2P Require Import Prelude Bytes RaftLog KVStore RaftInterfaces RaftNode StateFiles ElectionSpec NodeFacts.
Local Open Scope Z_scope.

(** Messages whose entries are plain. *)
Definition plain_msg (m : Msg) : Prop :=
  match m with Append _ _ _ _ es _ => plain_entries es | _ => True end.

(** What a restart loads is what the node has. *)
Definition synced (p : DurableState) : Prop :=
  ds_path p = true → DurableState_init (ds_path p) (ds_file p) = inr p.

Lemma save_synced t v p : synced p → synced (DurableState_save t v p).
Proof.
  unfold synced, DurableState_save, DurableState_init, DurableState_load. cbn [ds_path ds_file].
  intros _ ->. by rewrite parse_state_text.
Qed.

Section election.
Context {L Rng : Type} `{RaftLogLaws L} `{Random Rng}.
Context (clock wall : Z).
Context (C : gset NodeId).
Abbreviation Node := (RaftNode L Rng).
Abbreviation W := (World L Rng).

(** A node of the fixed configuration [C]. *)
Record settled (n : Node) : Prop := {
  st_config : config n = C;
  st_old : old_config n = None;
  st_me : id n ∈ C;
  st_nodup : NoDup (peers n);
  st_peers : list_to_set (peers n) = C ∖ {[id n]};
  st_prevote : use_prevote n = false;
  st_pre : pre_candidate n = false;
  st_plain : plain_node n;
  st_synced : synced (persister n);
}.

(** [settled] depends on these fields only. *)
Lemma settled_by n n' :
  (id n', peers n', config n', old_config n', use_prevote n')
    = (id n, peers n, config n, old_config n, use_prevote n) →
  pre_candidate n' = false → plain_node n' → synced (persister n') → settled n → settled n'.
Proof.
  intros Hk Hpr' Hp Hsy [Hc Ho Hm Hd Hps Hu _ _ _]. injection Hk as E1 E2 E3 E4 E5.
  constructor; rewrite ?E1, ?E2, ?E3, ?E4, ?E5; assumption.
Qed.

Lemma settled_key n n' : key n' = key n → plain_node n' → settled n → settled n'.
Proof.
  intros Hk Hp Hw. unfold key in Hk. injection Hk as E1 E2 E3 E4 E5 E6 E7 _ _.
  apply (settled_by n); [congruence| |exact Hp| |exact Hw]; rewrite ?E6, ?E7; apply Hw.
Qed.

(** The abstract server of a node. *)
Definition server_of (n : Node) : Server :=
  mkServer (term_of n) (voted_for (persister n)) (role n) (votes n).

Lemma server_of_key n n' : key n' = key n → server_of n' = server_of n ∧ id n' = id n.
Proof. intros Hk. unfold key in Hk. injection Hk as E1 _ _ _ _ _ E2 E3 E4. unfold server_of, term_of. by rewrite E2, E3, E4. Qed.

Context (heard_vote : Z → NodeId → Prop).

Definition view (w : W) : Server * list (NodeId * Msg) := (server_of (nd w), sent w).

(** [implements w w']: [w'] is reached by election actions from [w], and sends plain
    messages only. *)
Definition implements (w w' : W) : Prop :=
  settled (nd w) →
  settled (nd w') ∧ id (nd w') = id (nd w) ∧
  rtc (action C (id (nd w)) heard_vote) (view w) (view w') ∧
  ∃ new, sent w' = sent w ++ new ∧ Forall (λ dm, plain_msg dm.2) new.

#[export] Instance implements_preorder : PreOrder implements.
Proof.
  split.
  - intros w Hw. split_and!; [done|done|apply rtc_refl|]. exists []. by rewrite app_nil_r.
  - intros a b c Hab Hbc Ha. destruct (Hab Ha) as (Hb & I1 & A1 & n1 & S1 & P1).
    destruct (Hbc Hb) as (Hc & I2 & A2 & n2 & S2 & P2). rewrite I1 in A2.
    split_and!; [done|congruence|by etrans|]. exists (n1 ++ n2).
    rewrite S2, S1, <-app_assoc. split; [done|]. by apply Forall_app.
Qed.

Lemma silent_implements (w w' : W) : silent w w' → implements w w'.
Proof.
  intros Hs Hw. destruct (Hs (st_plain _ Hw)) as (Hp & Hk & E).
  destruct (server_of_key _ _ Hk) as [Hv Hi]. split_and!; [by eapply settled_key|done| |].
  - unfold view. rewrite Hv, E. apply rtc_refl.
  - exists []. by rewrite app_nil_r.
Qed.

(** Changes of election state, as one action. *)
Lemma one_action (w w' : W) :
  sent w' = sent w →
  (settled (nd w) → settled (nd w') ∧ id (nd w') = id (nd w) ∧
   action C (id (nd w)) heard_vote (view w) (server_of (nd w'), sent w)) →
  implements w w'.
Proof.
  intros E Ha Hw. destruct (Ha Hw) as (Hs & Hi & Hact). unfold view at 2. rewrite E.
  split_and!; [done|done|by apply rtc_once|]. exists []. by rewrite app_nil_r.
Qed.

Lemma send_implements (w : W) d m :
  (settled (nd w) → may_send (id (nd w)) (server_of (nd w)) d m ∧ plain_msg m) →
  respects implements w (send d m).
Proof.
  intros Ha Hw. destruct (Ha Hw) as [Hm Hp]. split_and!; [done|done|by apply rtc_once; constructor|].
  exists [(d, m)]. split; [done|]. by constructor.
Qed.

(** ** Leader's messages *)

(** Same election state, and only messages a leader may send. *)
Definition leading (w w' : W) : Prop :=
  plain_node (nd w) → role (nd w) = LEADER →
  plain_node (nd w') ∧ key (nd w') = key (nd w) ∧
  ∃ new, sent w' = sent w ++ new ∧
    Forall (λ dm, claims dm.2 (term_of (nd w)) (id (nd w)) ∧ plain_msg dm.2) new.

#[export] Instance leading_preorder : PreOrder leading.
Proof.
  split.
  - intros w Hw _. split_and!; [done|done|]. exists []. by rewrite app_nil_r.
  - intros a b c Hab Hbc Ha Hr. destruct (Hab Ha Hr) as (Hb & K1 & n1 & S1 & P1).
    destruct (server_of_key _ _ K1) as [Hv Hi]. unfold server_of in Hv. injection Hv as Ht _ Hr' _.
    destruct (Hbc Hb) as (Hc & K2 & n2 & S2 & P2); [congruence|].
    split_and!; [done|congruence|]. exists (n1 ++ n2).
    rewrite S2, S1, <-app_assoc. split; [done|]. apply Forall_app. split; [done|]. by rewrite <-Ht, <-Hi.
Qed.

Lemma silent_leading (w w' : W) : silent w w' → leading w w'.
Proof.
  intros Hs Hw _. destruct (Hs Hw) as (Hp & Hk & E). split_and!; [done|done|]. exists []. by rewrite app_nil_r.
Qed.

Lemma leading_implements (w w' : W) : leading w w' → role (nd w) = LEADER → implements w w'.
Proof.
  intros Hl Hr Hw. destruct (Hl (st_plain _ Hw) Hr) as (Hp & Hk & new & E & Hn).
  destruct (server_of_key _ _ Hk) as [Hv Hi]. split_and!; [by eapply settled_key|done| |].
  - unfold view. rewrite Hv, E. clear E. generalize (sent w). induction Hn as [|[d m] new [Hm _] _ IH]; intros out.
    + rewrite app_nil_r. apply rtc_refl.
    + eapply rtc_l; [|rewrite cons_middle, app_assoc; apply IH]. apply act_send.
      unfold claims in Hm. cbn in Hm. destruct m; try done; cbn; destruct Hm as [-> ->]; done.
  - exists new. split; [done|]. eapply Forall_impl; [exact Hn|]. by intros x [_ ?].
Qed.

Lemma entries_from_plain i lim l : plain_entries (entries l) → plain_entries (entries_from i lim l).
Proof.
  intros Hl. unfold entries_from. destruct lim as [k|]; [|by apply Forall_drop].
  destruct (_ =? 0); [by apply Forall_drop|]. by apply Forall_take, Forall_drop.
Qed.

Lemma leading_send (w : W) d m :
  (plain_node (nd w) → claims m (term_of (nd w)) (id (nd w)) ∧ plain_msg m) →
  respects leading w (send d m).
Proof.
  intros Hm Hp Hr. split_and!; [done|done|]. exists [(d, m)]. split; [done|]. constructor; [by apply Hm|done].
Qed.

Lemma leading_send_append p : preserves leading (RaftNode_send_append p).
Proof.
  unfold RaftNode_send_append. apply (preserves_gets _ nd). intros w.
  destruct (_ <? _); apply leading_send; intros Hp; [done|]. split; [done|]. by apply entries_from_plain.
Qed.

Lemma leading_send_all : preserves leading RaftNode_send_all_appends.
Proof.
  unfold RaftNode_send_all_appends. apply (preserves_gets _ nd). intros w.
  apply (preserves_for_each _). intros p. apply leading_send_append.
Qed.

Lemma silent_then {A} (m : M W A) : preserves silent m → preserves leading m.
Proof. intros Hm w. apply silent_leading, Hm. Qed.

Lemma leading_propose payload : plain payload → preserves leading (RaftNode_propose clock wall payload).
Proof.
  intros Hp. unfold RaftNode_propose. apply (preserves_gets _ nd). intros w.
  destruct (_ || _); [apply (preserves_ret _)|].
  apply (respects_bind _); [by apply silent_then, silent_append_entry|]. intros e w1 _. revert w1.
  apply (preserves_bind _ _ _); [apply silent_then, silent_advance_commit|intros _].
  apply (preserves_bind _ _ _); [apply leading_send_all|intros _; apply (preserves_ret _)].
Qed.

(** ** Changes of role *)

(** The end state of a silent computation keeps the key fields. *)
Lemma silent_run {A} (m : M W A) (w : W) r w' :
  preserves silent m → m w = (r, w') → plain_node (nd w) →
  plain_node (nd w') ∧ key (nd w') = key (nd w) ∧ sent w' = sent w.
Proof. intros Hm E. pose proof (Hm w) as Hs. unfold respects in Hs. rewrite E in Hs. exact Hs. Qed.

Lemma implements_silent {A} (m : M W A) : preserves silent m → preserves implements m.
Proof. intros Hm w. apply silent_implements, Hm. Qed.

Lemma implements_reset b : preserves implements (RaftNode_reset_election_deadline clock b).
Proof. apply implements_silent, silent_reset. Qed.

(** Resetting the deadline succeeds and changes only the deadline and the random
    source. *)
Lemma reset_run (w : W) :
  ∃ x w', RaftNode_reset_election_deadline clock false w = (inr x, w') ∧
    key (nd w') = key (nd w) ∧ rlog (nd w') = rlog (nd w) ∧ sent w' = sent w.
Proof.
  unfold RaftNode_reset_election_deadline. erewrite bind_ok; [|reflexivity].
  assert (∃ v r, draw (election_min (nd w)) (election_max (nd w)) w
    = (inr v, w <| nd := (nd w) <| rng := r |> |>)) as (v & r & E)
    by (unfold draw; destruct (uniform _ _ _) as [v r]; by exists v, r).
  erewrite bind_ok; [|exact E]. erewrite bind_ok; [|reflexivity]. erewrite bind_ok; [|reflexivity].
  do 2 eexists. split; [reflexivity|]. split_and!; reflexivity.
Qed.

Lemma settled_after (n n' : Node) : key n' = key n → rlog n' = rlog n → settled n → settled n'.
Proof. intros Hk Hl Hw. apply (settled_key n); [done| |done]. unfold plain_node. rewrite Hl. apply Hw. Qed.

(** The node after [_step_down]. *)
Definition stepped (term : Z) (n n' : Node) : Prop :=
  server_of n'
    = mkServer term (if term_of n <? term then None else voted_for (persister n)) FOLLOWER (votes n)
  ∧ id n' = id n ∧ rlog n' = rlog n ∧ (settled n → settled n').

Lemma step_down_assign term (w : W) :
  term_of (nd w) <= term →
  ∃ w1, RaftNode_step_down clock term w = (_ ← RaftNode_reset_election_deadline clock false; mret ()) w1
    ∧ sent w1 = sent w ∧ stepped term (nd w) (nd w1).
Proof.
  intros Ht. unfold RaftNode_step_down. erewrite bind_ok; [|reflexivity].
  destruct (Z.ltb_spec (term_of (nd w)) term) as [Hlt|Hge]; cbn [when].
  - erewrite bind_ok; [|reflexivity]. erewrite bind_ok; [|reflexivity].
    eexists. split; [reflexivity|]. split; [reflexivity|]. unfold stepped.
    rewrite (proj2 (Z.ltb_lt _ _) Hlt). split_and!; [reflexivity|reflexivity|reflexivity|].
    intros Hw. apply (settled_by (nd w)); [reflexivity|reflexivity|exact (st_plain _ Hw)|apply save_synced, Hw|exact Hw].
  - erewrite bind_ok; [|reflexivity]. erewrite bind_ok; [|reflexivity].
    eexists. split; [reflexivity|]. split; [reflexivity|]. unfold stepped.
    rewrite (proj2 (Z.ltb_ge _ _) Hge). replace term with (term_of (nd w)) by lia.
    split_and!; [reflexivity|reflexivity|reflexivity|].
    intros Hw. apply (settled_by (nd w)); [reflexivity|reflexivity|exact (st_plain _ Hw)|exact (st_synced _ Hw)|exact Hw].
Qed.

Lemma step_down_run term (w : W) :
  term_of (nd w) <= term →
  ∃ w', RaftNode_step_down clock term w = (inr (), w') ∧ sent w' = sent w ∧ stepped term (nd w) (nd w').
Proof.
  intros Ht. destruct (step_down_assign term w Ht) as (w1 & -> & Es & Hs & Hi & Hl & Hset).
  destruct (reset_run w1) as (x & w2 & E & Hk & Hl2 & Es2). erewrite bind_ok; [|exact E].
  exists w2. split; [reflexivity|]. split; [congruence|]. destruct (server_of_key _ _ Hk) as [Hv Hi2].
  unfold stepped. rewrite Hv, Hs, Hi2, Hl2. split_and!; [done..|]. intros Hw. by eapply settled_after, Hset.
Qed.

Lemma stepped_implements term (w w' : W) :
  term_of (nd w) <= term → sent w' = sent w → stepped term (nd w) (nd w') → implements w w'.
Proof.
  intros Ht Es (Hs & Hi & _ & Hset). apply one_action; [done|]. intros Hw.
  split_and!; [by apply Hset|done|]. rewrite Hs. by apply (act_step_down C _ _ (server_of (nd w)) (sent w) term).
Qed.

(** What holds after stepping down, for what follows. *)
Lemma step_down_bind {A} term (f : () → M W A) (w : W) :
  term_of (nd w) <= term →
  (∀ w', stepped term (nd w) (nd w') → respects implements w' (f ())) →
  respects implements w (RaftNode_step_down clock term ≫= f).
Proof.
  intros Ht Hf. destruct (step_down_run term w Ht) as (w' & E & Es & Hst).
  apply (respects_run implements w w' _ (f ())); [by apply bind_ok|by eapply stepped_implements|by apply Hf].
Qed.

Lemma implements_step_down term (w : W) :
  term_of (nd w) <= term → respects implements w (RaftNode_step_down clock term).
Proof.
  intros Ht. destruct (step_down_run term w Ht) as (w' & E & Es & Hst).
  unfold respects. rewrite E. by eapply stepped_implements.
Qed.

(** Recording a vote. *)
Lemma grant_run c (w : W) :
  ∃ w', (_ ← save (term_of (nd w)) (Some c); _ ← RaftNode_reset_election_deadline clock false; mret ()) w
          = (inr (), w') ∧ sent w' = sent w ∧
    server_of (nd w') = mkServer (term_of (nd w)) (Some c) (role (nd w)) (votes (nd w)) ∧
    id (nd w') = id (nd w) ∧ (settled (nd w) → settled (nd w')).
Proof.
  erewrite bind_ok; [|reflexivity]. set (w1 := update _ _).
  assert (sent w1 = sent w ∧ id (nd w1) = id (nd w) ∧
    server_of (nd w1) = mkServer (term_of (nd w)) (Some c) (role (nd w)) (votes (nd w)) ∧
    (settled (nd w) → settled (nd w1))) as (Es & Hi & Hs & Hset).
  { split_and!; [reflexivity..|]. intros Hw.
    apply (settled_by (nd w)); [reflexivity|exact (st_pre _ Hw)|exact (st_plain _ Hw)|apply save_synced, Hw|exact Hw]. }
  clearbody w1. destruct (reset_run w1) as (x & w2 & E & Hk & Hl2 & Es2). erewrite bind_ok; [|exact E].
  exists w2. destruct (server_of_key _ _ Hk) as [Hv Hi2].
  split_and!; [reflexivity|congruence..|]. intros Hw. by eapply settled_after, Hset.
Qed.

(** A silent computation keeps election state for what follows it. *)
Lemma silent_bind {A B} (m : M W A) (f : A → M W B) (w : W) :
  preserves silent m →
  (∀ x w', key (nd w') = key (nd w) → settled (nd w') → respects implements w' (f x)) →
  respects implements w (m ≫= f).
Proof.
  intros Hm Hf Hw. apply (respects_bind implements); [by apply implements_silent|..|done].
  intros x w' E. destruct (silent_run m w _ w' Hm E (st_plain _ Hw)) as (Hp & Hk & _).
  apply Hf; [done|by eapply settled_key].
Qed.

(** The new leader's office, and what it then says as a leader. *)
Definition in_office (n : Node) : Node :=
  n <| role := LEADER |> <| leader_id := Some (id n) |> <| pre_candidate := false |>
    <| transfer_target := None |> <| transfer_deadline := 0 |> <| match_index := ∅ |> <| next_index := ∅ |>.

Lemma become_leader_leading (w : W) :
  leading (w <| nd := in_office (nd w) |>) (RaftNode_become_leader clock wall w).2.
Proof.
  unfold RaftNode_become_leader. erewrite bind_ok; [|reflexivity].
  change (respects leading (w <| nd := in_office (nd w) |>) (self ≫= λ n,
    _ ← for_each (peers n) (λ p,
        on_node (λ n, n <| match_index := <[p := 0]> (match_index n) |>
                        <| next_index := <[p := last_index (rlog n) + 1]> (next_index n) |>
                        <| last_peer_ack := <[p := clock]> (last_peer_ack n) |>));
    _ ← when (bool_decide (state_machine n ≠ None)) (_ ← RaftNode_propose clock wall NOOP; mret ());
    _ ← RaftNode_send_all_appends;
    on_node (λ n, n <| next_heartbeat := clock + heartbeat_interval n |>
                    <| next_quorum_check := clock + quorum_check_interval n |>))).
  apply (preserves_gets _ nd). intros w2.
  apply (respects_bind _); [|intros _ w3 _; revert w3].
  { apply (preserves_for_each _). intros p. by apply silent_then, silent_on_node. }
  apply (preserves_bind _ _ _).
  { apply (preserves_when _). apply (preserves_bind _ _ _); [|intros _; apply (preserves_ret _)].
    by apply leading_propose. }
  intros _. apply (preserves_bind _ _ _); [apply leading_send_all|intros _].
  by apply silent_then, silent_on_node.
Qed.

Lemma implements_become_leader (w : W) :
  (settled (nd w) → role (nd w) = CANDIDATE ∧ majority C (votes (nd w))) →
  respects implements w (RaftNode_become_leader clock wall).
Proof.
  intros Hc Hw. destruct (Hc Hw) as [Hr Hm].
  refine ((_ : implements w (RaftNode_become_leader clock wall w).2) Hw).
  transitivity (w <| nd := in_office (nd w) |>).
  - apply (one_action w); [reflexivity|]. intros _. split; [|split; [reflexivity|]].
    + apply (settled_by (nd w)); [reflexivity|reflexivity|exact (st_plain _ Hw)|exact (st_synced _ Hw)|exact Hw].
    + exact (act_win C _ _ (server_of (nd w)) (sent w) Hr Hm).
  - apply leading_implements; [apply become_leader_leading|reflexivity].
Qed.

(** ** Campaigns *)

Lemma peers_size (n : Node) : settled n → size C = S (length (peers n)).
Proof.
  intros Hw. pose proof (st_me _ Hw) as Hme.
  assert (size (list_to_set (peers n) : gset NodeId) = length (peers n)) as E
    by apply size_list_to_set, (st_nodup _ Hw).
  rewrite (st_peers _ Hw) in E. rewrite size_difference in E by by apply singleton_subseteq_l.
  rewrite size_singleton in E. assert (size C ≠ 0%nat); [|lia].
  intros Hz%size_empty_inv. set_solver.
Qed.

Lemma settled_majority (n : Node) X : settled n → RaftNode_has_majority X n = true → majority C X.
Proof.
  intros Hw. unfold RaftNode_has_majority, majority. rewrite (st_old _ Hw), (st_config _ Hw). by rewrite Z.ltb_lt.
Qed.

Lemma implements_send_vote (w : W) d t c li lt : respects implements w (send d (Vote t c li lt)).
Proof. by apply send_implements. Qed.

(** Sending vote requests changes nothing else. *)
Lemma send_votes_run (ps : list NodeId) (f : NodeId → Msg) : ∀ w : W,
  ∃ w', for_each ps (λ p, send p (f p)) w = (inr (), w') ∧ nd w' = nd w.
Proof.
  induction ps as [|p ps IH]; intros w; cbn [for_each]; [by exists w|].
  erewrite bind_ok; [|reflexivity]. destruct (IH (w <| sent := sent w ++ [(p, f p)] |>)) as (w' & E & En).
  exists w'. by rewrite E.
Qed.

Lemma implements_start_election (w : W) :
  respects implements w (RaftNode_start_election clock wall).
Proof.
  unfold RaftNode_start_election.
  eapply (respects_run implements w); [erewrite bind_ok; [|reflexivity]; erewrite bind_ok; [|reflexivity];
    erewrite bind_ok; [reflexivity|reflexivity]|..].
  { apply one_action; [reflexivity|]. intros Hw. split; [|split; [reflexivity|]].
    - apply (settled_by (nd w)); [reflexivity|exact (st_pre _ Hw)|exact (st_plain _ Hw)|apply save_synced, Hw|exact Hw].
    - exact (act_campaign C _ _ (server_of (nd w)) (sent w)). }
  set (w1 := update _ _). assert (role (nd w1) = CANDIDATE ∧ votes (nd w1) = {[id (nd w1)]}) as [Hr Hv] by done.
  clearbody w1. apply silent_bind; [apply silent_reset|]. intros x w2 Hk Hset.
  assert (role (nd w2) = CANDIDATE ∧ votes (nd w2) = {[id (nd w2)]}) as [Hr2 Hv2].
  { unfold key in Hk. injection Hk as E1 _ _ _ _ _ _ E2 E3. by rewrite E1, E2, E3, Hr, Hv. }
  apply respects_gets. destruct (RaftNode_progress (nd w2)) as [lt li].
  destruct (send_votes_run (peers (nd w2)) (λ _, Vote (term_of (nd w2)) (id (nd w2)) li lt) w2) as (w3 & E3 & En).
  apply (respects_bind implements).
  { apply (preserves_for_each implements). intros p w'. by apply send_implements. }
  intros [] w3' E3'. rewrite E3 in E3'. injection E3' as <-. rewrite <-En in *.
  destruct (_ || _) eqn:Ewin; cbn [when]; [|apply (preserves_ret _)].
  apply implements_become_leader. intros _. split; [done|]. unfold majority. rewrite Hv2, size_singleton, (peers_size _ Hset).
  apply orb_true_iff in Ewin as [Ewin%bool_decide_eq_true|Ewin%Z.ltb_lt].
  - by rewrite Ewin.
  - rewrite Hv2, size_singleton in Ewin. unfold len in Ewin. rewrite Nat2Z.inj_succ. exact Ewin.
Qed.

Lemma implements_campaign (w : W) : respects implements w (RaftNode_start_prevote_or_election clock wall).
Proof.
  unfold RaftNode_start_prevote_or_election. apply (respects_gets implements).
  destruct (use_prevote (nd w) && _) eqn:E.
  { intros Hw. apply andb_true_iff in E as [E _]. by rewrite (st_prevote _ Hw) in E. }
  eapply (respects_run implements w); [erewrite bind_ok; [reflexivity|reflexivity]|..].
  - intros Hw. split; [|split; [reflexivity|split; [apply rtc_refl|]]].
    + apply (settled_by (nd w)); [reflexivity|reflexivity|exact (st_plain _ Hw)|exact (st_synced _ Hw)|exact Hw].
    + exists []. split; [symmetry; apply app_nil_r|constructor].
  - apply implements_start_election.
Qed.

(** ** Handlers *)

Lemma implements_on_prevote t c li lt : preserves implements (RaftNode_on_prevote clock t c li lt).
Proof. apply (preserves_gets _ nd). intros w. by apply send_implements. Qed.

Lemma implements_on_prevote_resp t f g : preserves implements (RaftNode_on_prevote_resp clock wall t f g).
Proof.
  apply (preserves_gets _ nd). intros w. destruct (negb (pre_candidate (nd w))) eqn:E; [apply (preserves_ret _)|].
  intros Hw. by rewrite (st_pre _ Hw) in E.
Qed.

Lemma implements_on_vote t c li lt : preserves implements (RaftNode_on_vote clock t c li lt).
Proof.
  apply (preserves_gets _ nd). intros w. destruct (Z.ltb_spec t (term_of (nd w))) as [|Hge]; [by apply send_implements|].
  set (rest := λ _ : (), _ : M W ()). change (respects implements w (when (term_of (nd w) <? t) (RaftNode_step_down clock t) ≫= rest)).
  assert (∀ w, respects implements w (rest ())) as Hrest.
  { clear w Hge. intros w. apply (respects_gets implements). cbv zeta.
    destruct (_ && _) eqn:Eg; cbn [when].
    2:{ apply (respects_bind _); [apply (preserves_ret _)|]. intros _ w' _. apply (respects_gets implements). by apply send_implements. }
    apply andb_true_iff in Eg as [Eg _]. rewrite orb_true_iff, !bool_decide_eq_true in Eg.
    destruct (grant_run c w) as (w' & E & Es & Hs & Hi & Hset).
    eapply (respects_run implements w w'); [by erewrite bind_ok; [reflexivity|exact E]|..].
    - apply one_action; [done|]. intros Hw. split_and!; [by apply Hset|done|]. rewrite Hs.
      exact (act_grant C _ _ (server_of (nd w)) (sent w) c Eg).
    - apply (respects_gets implements). apply send_implements. intros _.
      injection Hs as _ Hv _ _. cbn. by rewrite Hv. }
  destruct (term_of (nd w) <? t); cbn [when].
  - apply step_down_bind; [done|]. intros w' _. apply Hrest.
  - apply (respects_bind implements); [apply (preserves_ret _)|]. intros [] w' _. apply Hrest.
Qed.

Lemma implements_on_vote_resp t f g :
  (g = true → heard_vote t f) → preserves implements (RaftNode_on_vote_resp clock wall t f g).
Proof.
  intros Hh. apply (preserves_gets _ nd). intros w.
  destruct (negb (bool_decide _) || _) eqn:E; [apply (preserves_ret _)|].
  apply orb_false_iff in E as [Er Et]. apply negb_false_iff, bool_decide_eq_true in Er.
  apply negb_false_iff, Z.eqb_eq in Et. destruct g; cbn [when]; [|apply (preserves_ret _)].
  eapply (respects_run implements w); [erewrite bind_ok; [reflexivity|reflexivity]|..].
  - apply one_action; [reflexivity|]. intros Hw. split; [|split; [reflexivity|]].
    + apply (settled_by (nd w)); [reflexivity|exact (st_pre _ Hw)|exact (st_plain _ Hw)|exact (st_synced _ Hw)|exact Hw].
    + refine (act_count C _ _ (server_of (nd w)) (sent w) f Er _). change (heard_vote (term_of (nd w)) f). rewrite <-Et. by apply Hh.
  - set (w1 := update _ _). clearbody w1. unfold RaftNode_maybe_win. apply (respects_gets implements).
    intros Hw1. destruct (_ && _) eqn:Ew; cbn [when]; [|by apply (preserves_ret implements)].
    apply andb_true_iff in Ew as [Er1%bool_decide_eq_true Hm].
    apply implements_become_leader; [|done]. intros _. split; [done|]. by eapply settled_majority.
Qed.

(** A leader's message that is not stale makes the node its follower. *)
Lemma follow_bind {A} t (f : () → M W A) (w : W) :
  term_of (nd w) <= t → (∀ w', term_of (nd w') = t → role (nd w') = FOLLOWER → respects implements w' (f ())) →
  respects implements w
    (when ((term_of (nd w) <? t) || negb (bool_decide (role (nd w) = FOLLOWER))) (RaftNode_step_down clock t) ≫= f).
Proof.
  intros Ht Hf. destruct (_ || _) eqn:E; cbn [when].
  - apply step_down_bind; [done|]. intros w' (Hs & _). injection Hs as E1 _ E2 _. by apply Hf.
  - apply orb_false_iff in E as [E1%Z.ltb_ge E2%negb_false_iff%bool_decide_eq_true].
    apply (respects_bind implements); [apply (preserves_ret _)|]. intros [] w' [= <-]. apply Hf; [lia|done].
Qed.

(** A follower's assignments that only concern timers, indexes and the leader. *)
Lemma follower_assign (f : Node → Node) (w : W) :
  role (nd w) = FOLLOWER → (∀ n, role n = FOLLOWER → key (f n) = key n) → (∀ n, rlog (f n) = rlog n) →
  respects silent w (on_node f).
Proof. intros Hr Hk Hl Hp. cbn. unfold plain_node. cbn. by rewrite Hl, Hk. Qed.

Lemma implements_on_append t l pi pt es c :
  plain_entries es → preserves implements (RaftNode_on_append clock wall t l pi pt es c).
Proof.
  intros Hes. apply (preserves_gets _ nd). intros w.
  destruct (Z.ltb_spec t (term_of (nd w))) as [|Hge]; [by apply send_implements|].
  apply follow_bind; [done|]. intros w1 _ Hr.
  apply (respects_bind implements).
  { apply (respects_impl silent); [intros s'; apply silent_implements|].
    apply follower_assign; [done| |done]. intros n Hn. unfold key. cbn. by rewrite Hn. }
  intros _ w2 _. revert w2. apply (preserves_bind _ _ _); [apply implements_silent, silent_reset|intros _].
  apply (preserves_bind _ _ _); [by apply implements_silent, silent_merge|intros [[ok m] conflict]].
  apply (preserves_gets _ nd). intros w2. apply (respects_bind _).
  - apply (preserves_when _), implements_silent.
    apply (preserves_bind _ _ _); [by apply silent_on_node|intros _; apply silent_apply_committed].
  - intros _ w3 _. apply (respects_gets implements). by apply send_implements.
Qed.

Lemma implements_leading {A} (m : M W A) (w : W) :
  role (nd w) = LEADER → respects leading w m → respects implements w m.
Proof. intros Hr. apply respects_impl. intros s' Hl. by apply leading_implements. Qed.

Lemma leading_bind {A B} (m : M W A) (f : A → M W B) (w : W) :
  role (nd w) = LEADER → respects leading w m →
  (∀ x w', role (nd w') = LEADER → respects implements w' (f x)) → respects implements w (m ≫= f).
Proof.
  intros Hr Hm Hf Hw. apply (respects_bind implements); [by apply implements_leading|..|done].
  intros x w' E. unfold respects in Hm. rewrite E in Hm.
  destruct (Hm (st_plain _ Hw) Hr) as (_ & Hk & _). apply Hf. destruct (server_of_key _ _ Hk) as [Hv _].
  unfold server_of in Hv. injection Hv as _ _ Hr' _. congruence.
Qed.

Lemma implements_on_append_resp t f s m c : preserves implements (RaftNode_on_append_resp clock t f s m c).
Proof.
  apply (preserves_gets _ nd). intros w. destruct (negb (is_leader _) || _) eqn:E.
  { destruct (Z.ltb_spec (term_of (nd w)) t); cbn [when]; [|apply (preserves_ret _)].
    apply implements_step_down. lia. }
  apply orb_false_iff in E as [E%negb_false_iff _]. apply bool_decide_eq_true in E.
  apply implements_leading; [done|]. apply (respects_bind leading); [by apply silent_then, silent_on_node|].
  intros _ w1 _. clear E. destruct s.
  - apply silent_then, (preserves_bind _ _ _); [apply silent_get_key|intros mi].
    apply (preserves_bind _ _ _); [by apply silent_on_node|intros _; apply silent_advance_commit].
  - apply (respects_bind leading); [apply silent_then, silent_get_key|intros ni w2 _].
    apply (respects_bind leading); [by apply silent_then, silent_on_node|intros _ w3 _; apply leading_send_append].
Qed.

Lemma implements_on_timeout_now t : preserves implements (RaftNode_on_timeout_now clock wall t).
Proof.
  apply (preserves_gets _ nd). intros w. destruct (_ && _); cbn [when]; [|apply (preserves_ret _)].
  apply implements_start_election.
Qed.

Lemma silent_install idx idx_term data :
  preserves silent
    (_ ← on_node (λ n : Node, n <| state_machine := KVStore_restore data <$> state_machine n |>);
     _ ← on_node (λ n : Node, n <| log := log_assign (λ l,
           mkRaftLog (filter (λ e, idx < e_index e) (entries l)) (idx + 1) idx idx_term) (log n) |>);
     _ ← RaftNode_write_snapshot_file idx idx_term data;
     _ ← on_node (λ n, n <| last_snapshot := Some (mkSnapshot idx idx_term data) |>);
     RaftNode_resync idx).
Proof.
  apply (preserves_bind _ _ _); [by apply silent_on_node|intros _].
  apply (preserves_bind _ _ _); [apply silent_log_assign; intros l Hl; by apply Forall_list_filter|intros _].
  apply (preserves_bind _ _ _); [apply silent_write_snapshot|intros _].
  apply (preserves_bind _ _ _); [by apply silent_on_node|intros _; apply silent_resync].
Qed.

Lemma implements_on_install_snapshot t l idx it data :
  preserves implements (RaftNode_on_install_snapshot clock t l idx it data).
Proof.
  apply (preserves_gets _ nd). intros w.
  destruct (Z.ltb_spec t (term_of (nd w))) as [|Hge]; [by apply send_implements|].
  apply follow_bind; [done|]. intros w1 _ _. revert w1.
  apply (preserves_bind _ _ _); [by apply implements_silent, silent_on_node|intros _].
  apply (preserves_bind _ _ _); [apply implements_silent, silent_reset|intros _].
  apply (preserves_gets _ nd). intros w1. cbv zeta. apply (respects_bind _).
  { apply (preserves_when _), implements_silent, silent_install. }
  intros _ w2 _. revert w2.
  apply (preserves_bind _ _ _); [by apply implements_silent, silent_on_node|intros _].
  apply (preserves_bind _ _ _); [by apply (preserves_when _), implements_silent, silent_on_node|intros _].
  apply (preserves_gets _ nd). intros w2. by apply send_implements.
Qed.

(** Every message handler. *)
Lemma implements_handle m :
  plain_msg m → (∀ t v, m = VoteResp t v true → heard_vote t v) →
  preserves implements (RaftNode_handle clock wall m).
Proof.
  intros Hp Hh. destruct m; cbn [RaftNode_handle].
  - apply implements_on_prevote.
  - apply implements_on_prevote_resp.
  - apply implements_on_vote.
  - apply implements_on_vote_resp. intros ->. by apply Hh.
  - by apply implements_on_append.
  - apply implements_on_append_resp.
  - apply implements_on_install_snapshot.
  - apply implements_on_timeout_now.
Qed.

(** The timer. *)
Lemma implements_check_quorum now : preserves implements (RaftNode_check_quorum clock now).
Proof.
  apply (preserves_gets _ nd). intros w.
  cbv zeta. destruct (old_config (nd w)).
  - destruct (_ || _); cbn [when]; [by apply implements_step_down|apply (preserves_ret _)].
  - destruct (_ <=? _); cbn [when]; [by apply implements_step_down|apply (preserves_ret _)].
Qed.

Lemma implements_tick now : preserves implements (RaftNode_tick clock wall now).
Proof.
  apply (preserves_gets _ nd). intros w. destruct (is_leader (nd w)) eqn:Hl.
  2:{ destruct (_ <=? _); cbn [when]; [apply implements_campaign|apply (preserves_ret _)]. }
  apply bool_decide_eq_true in Hl. cbv zeta.
  set (first := when (truthy _ && _) _).
  assert (preserves leading first) as Hfirst.
  { apply (preserves_when _). apply (preserves_bind _ _ _); [by apply silent_then, silent_on_node|].
    intros _. apply leading_send_all. }
  assert (∀ w', role (nd w') = LEADER → respects implements w' (
    n ← self;
    _ ← when (next_heartbeat n <=? default clock now)
          (_ ← RaftNode_send_all_appends;
           on_node (λ n, n <| next_heartbeat := default clock now + heartbeat_interval n |>));
    n ← self;
    when (next_quorum_check n <=? default clock now)
      (_ ← RaftNode_check_quorum clock (default clock now);
       on_node (λ n, n <| next_quorum_check := default clock now + quorum_check_interval n |>)))) as Hrest.
  { clear w Hl first Hfirst. intros w Hl. apply (respects_gets implements). apply (respects_bind _).
    - apply implements_leading; [done|]. apply (preserves_when _).
      apply (preserves_bind _ _ _); [apply leading_send_all|intros _; by apply silent_then, silent_on_node].
    - intros _ w' _. apply (respects_gets implements). apply (preserves_when _).
      apply (preserves_bind _ _ _); [apply implements_check_quorum|intros _; by apply implements_silent, silent_on_node]. }
  apply leading_bind; [done|apply Hfirst|]. intros [] w' Hr. by apply Hrest.
Qed.

(** Client requests. *)
Lemma implements_propose payload :
  plain payload → preserves implements (RaftNode_propose clock wall payload).
Proof.
  intros Hp w. destruct (decide (role (nd w) = LEADER)) as [Hr|Hr].
  - apply implements_leading; [done|]. by apply leading_propose.
  - unfold RaftNode_propose. apply (respects_gets implements).
    replace (negb (is_leader (nd w))) with true; [apply (preserves_ret _)|].
    symmetry. apply negb_true_iff. by apply bool_decide_eq_false.
Qed.

Lemma implements_transfer target : preserves implements (RaftNode_transfer_leadership clock target).
Proof.
  apply (preserves_gets _ nd). intros w. destruct (_ || _); [apply (preserves_ret _)|].
  apply (respects_bind implements); [by apply implements_silent, silent_on_node|]. intros _ w1 _.
  apply (respects_bind implements); [by apply send_implements|]. intros _ w2 _. apply (preserves_ret _).
Qed.
End election.
