(* ===== verification/NodeFunctional.v ===== *)
(** * Raft node: what voting, committing and applying compute *)
From S2P Require Import Prelude Bytes Unicode RaftLog RaftLogFacts KVStore RaftInterfaces RaftNode ElectionSpec NodeFacts NodeElection.
Local Open Scope Z_scope.

Section functional.
Context {L Rng : Type} `{RaftLogLaws L} `{Random Rng}.
Context (clock wall : Z).
Abbreviation Node := (RaftNode L Rng).
Abbreviation W := (World L Rng).

(** ** Voting *)

(** The decision of [_on_vote] for a request that is not stale: the vote the node
    has left in the request's term, and the freshness of the candidate's log. *)
Definition grants (n : Node) (t : Z) (c : NodeId) (li lt : Z) : bool :=
  (bool_decide (term_of n < t) || bool_decide (voted_for (persister n) = None)
   || bool_decide (voted_for (persister n) = Some c))
  && pair_ge (lt, li) (RaftNode_progress n).

(** The part of [_on_vote] after the term check. *)
Definition vote_reply (c : NodeId) (li lt : Z) : M W () :=
  n ← self;
  let up_to_date := pair_ge (lt, li) (RaftNode_progress n) in
  let can_vote := bool_decide (voted_for (persister n) = None)
                  || bool_decide (voted_for (persister n) = Some c) in
  let grant := can_vote && up_to_date in
  _ ← when grant
        (_ ← save (term_of n) (Some c);
         _ ← RaftNode_reset_election_deadline clock false; mret ());
  n ← self;
  send c (VoteResp (term_of n) (id n) grant).

Lemma vote_reply_run c li lt (w : W) :
  let g := (bool_decide (voted_for (persister (nd w)) = None)
            || bool_decide (voted_for (persister (nd w)) = Some c))
           && pair_ge (lt, li) (RaftNode_progress (nd w)) in
  ∃ w', vote_reply c li lt w = (inr (), w') ∧
    sent w' = sent w ++ [(c, VoteResp (term_of (nd w)) (id (nd w)) g)] ∧
    term_of (nd w') = term_of (nd w) ∧ id (nd w') = id (nd w) ∧
    voted_for (persister (nd w')) = (if g then Some c else voted_for (persister (nd w))) ∧
    role (nd w') = role (nd w).
Proof.
  intros g. unfold vote_reply. erewrite bind_ok; [|reflexivity]. cbv zeta. fold g.
  destruct g; cbn [when].
  - destruct (grant_run clock ∅ c w) as (w1 & E & Es & Hs & Hi & _).
    unfold server_of in Hs. injection Hs as Ht Hv Hr Hvs.
    erewrite bind_ok; [|exact E]. erewrite bind_ok; [|reflexivity].
    eexists. split; [reflexivity|]. cbn. rewrite Es, Ht, Hi. split_and!; done.
  - erewrite bind_ok; [|reflexivity]. erewrite bind_ok; [|reflexivity].
    eexists. split; [reflexivity|]. done.
Qed.

Lemma progress_view (n n' : Node) : rlog n' = rlog n → RaftNode_progress n' = RaftNode_progress n.
Proof. intros E. unfold RaftNode_progress. by rewrite E. Qed.

(** [_on_vote], on every branch. *)
Lemma on_vote_run t c li lt (w : W) :
  let n := nd w in
  ∃ w', RaftNode_on_vote clock t c li lt w = (inr (), w') ∧
    if t <? term_of n
    then nd w' = n ∧ sent w' = sent w ++ [(c, VoteResp (term_of n) (id n) false)]
    else
      let g := grants n t c li lt in
      sent w' = sent w ++ [(c, VoteResp t (id n) g)] ∧ term_of (nd w') = t ∧ id (nd w') = id n ∧
      voted_for (persister (nd w'))
        = (if g then Some c else if term_of n <? t then None else voted_for (persister n)) ∧
      role (nd w') = (if term_of n <? t then FOLLOWER else role n).
Proof.
  cbv zeta. unfold RaftNode_on_vote. erewrite bind_ok; [|reflexivity].
  destruct (Z.ltb_spec t (term_of (nd w))) as [Hlt|Hge]; [eexists; split; [reflexivity|done]|].
  fold (vote_reply c li lt). unfold grants.
  destruct (Z.ltb_spec (term_of (nd w)) t) as [Hgt|Heq]; cbn [when].
  - destruct (step_down_run clock ∅ t w) as (w1 & E & Es & Hs & Hi & Hl & _); [lia|].
    unfold server_of in Hs. injection Hs as Ht Hv Hr _.
    rewrite (proj2 (Z.ltb_lt _ _) Hgt) in Hv.
    erewrite bind_ok; [|exact E].
    destruct (vote_reply_run c li lt w1) as (w2 & -> & E2 & Ht2 & Hi2 & Hv2 & Hr2).
    rewrite (progress_view (nd w) (nd w1) Hl), Hv, ?Ht, Hi, Es in *. rewrite (bool_decide_eq_true_2 (_ < t)) by done.
    exists w2. split; [done|]. cbn [orb] in *. rewrite bool_decide_eq_true_2 in * by done. cbn [orb] in *.
    split_and!; congruence.
  - erewrite bind_ok; [|reflexivity].
    destruct (vote_reply_run c li lt w) as (w2 & -> & E2 & Ht2 & Hi2 & Hv2 & Hr2).
    assert (term_of (nd w) = t) as <- by lia. rewrite (bool_decide_eq_false_2 (_ < _)) by lia.
    exists w2. split; [done|]. by cbn [orb].
Qed.

(** ** Committing *)

(** Neither index moves. *)
Definition still (w w' : W) : Prop :=
  commit_index (nd w') = commit_index (nd w) ∧ applied_index (nd w') = applied_index (nd w).

#[export] Instance still_preorder : PreOrder still.
Proof. split; [by intros w|]. intros a b c [H11 H12] [H21 H22]. split; congruence. Qed.

Lemma still_on_node f :
  (∀ n, commit_index (f n) = commit_index n) → (∀ n, applied_index (f n) = applied_index n) →
  preserves still (on_node f).
Proof. intros Hc Ha w. split; cbn; [apply Hc|apply Ha]. Qed.

Lemma still_take_snapshot : preserves still RaftNode_take_snapshot.
Proof.
  unfold RaftNode_take_snapshot. apply (preserves_gets _ nd). intros w.
  destruct (state_machine (nd w)) as [sm|]; [|apply (preserves_ret _)].
  destruct (_ =? _); [apply (preserves_ret _)|].
  apply (respects_bind _).
  { apply still_on_node; intros n; by destruct (snapshot_dir n). }
  intros _ w1 _. apply (respects_bind _); [by apply still_on_node|]. intros _ w2 _.
  apply (respects_bind _); [by apply still_on_node|]. intros _ w3 _. apply (preserves_gets _ nd).
  intros w4. apply (preserves_ret _).
Qed.

Lemma still_track ps : preserves still (track_peers clock ps).
Proof.
  apply (preserves_for_each _). intros p. apply (preserves_gets _ nd). intros w.
  apply (preserves_when _). by apply still_on_node.
Qed.

Lemma still_config payload : preserves still (apply_config clock payload).
Proof.
  unfold apply_config. destruct (cfg_loads _) as [[|s ss]|]; try apply (preserves_ret _).
  apply (preserves_bind _ _ _); [by apply still_on_node|intros _].
  apply (preserves_bind _ _ _); [by apply still_on_node|intros _].
  apply (preserves_gets _ nd). intros w.
  apply (respects_bind _); [apply still_track|]. intros _ w1 _.
  apply (respects_bind _); [|intros _ w2 _; by apply still_on_node].
  apply (preserves_gets _ nd). intros w2. apply (preserves_for_each _). intros p. by apply still_on_node.
Qed.

Lemma still_sm_apply payload : preserves still (sm_apply payload).
Proof.
  intros w. unfold respects, sm_apply. destruct (state_machine (nd w)) as [sm|]; [|done].
  by destruct (KVStore_apply payload sm) as [[e|x] sm'].
Qed.

(** Applying leaves the commit index and never lowers the applied one. *)
Definition applying (w w' : W) : Prop :=
  commit_index (nd w') = commit_index (nd w) ∧ applied_index (nd w) <= applied_index (nd w').

#[export] Instance applying_preorder : PreOrder applying.
Proof. split; [by intros w|]. intros a b c [H11 H12] [H21 H22]. split; [congruence|lia]. Qed.

Lemma still_applying {A} (m : M W A) (w : W) : respects still w m → respects applying w m.
Proof. apply respects_impl. intros w' [Hc Ha]. split; [done|lia]. Qed.

(** After what leaves the indexes alone, the applied index may move up. *)
Lemma still_then {A B} (m : M W A) (f : A → M W B) (w : W) nxt :
  preserves still m → applied_index (nd w) <= nxt →
  (∀ x w', applied_index (nd w') <= nxt → respects applying w' (f x)) → respects applying w (m ≫= f).
Proof.
  intros Hm Hn Hf. apply (respects_bind applying); [by apply still_applying|]. intros x w' E.
  pose proof (Hm w) as Hs. unfold respects in Hs. rewrite E in Hs. destruct Hs as [_ Ha]. apply Hf. cbn in Ha. lia.
Qed.

Lemma applying_advance nxt (w : W) :
  applied_index (nd w) <= nxt → respects applying w (on_node (λ n, n <| applied_index := nxt |>)).
Proof. intros Hn. by split. Qed.

Lemma applying_entry nxt e (w : W) :
  applied_index (nd w) <= nxt → respects applying w (apply_entry clock nxt e).
Proof.
  intros Hn. unfold apply_entry. apply (respects_gets applying). destruct (_ && _).
  { eapply still_then; [apply still_config|exact Hn|]. intros _ w'. apply applying_advance. }
  destruct (state_machine (nd w)); [|by apply applying_advance].
  eapply still_then; [|exact Hn|].
  { destruct (_ && _); [apply still_sm_apply|apply (preserves_ret _)]. }
  intros r w1 Hw1. apply (respects_bind applying); [by apply applying_advance|]. intros _ w2 _.
  apply (respects_gets applying). destruct (on_apply (nd w2)); [by split|apply (preserves_ret _)].
Qed.

Lemma applying_loop fuel : preserves applying (apply_loop clock fuel).
Proof.
  induction fuel as [|fuel IH]; cbn [apply_loop]; [apply (preserves_ret _)|].
  apply (preserves_gets _ nd). intros w. destruct (Z.ltb_spec (applied_index (nd w)) (commit_index (nd w))); [|apply (preserves_ret _)].
  destruct (RaftLog_get _ _) as [e|].
  - apply (respects_bind applying); [apply applying_entry; lia|]. intros _ w1 _. apply IH.
  - destruct (state_machine (nd w)); [apply (preserves_ret _)|].
    apply (respects_bind applying); [split; cbn; [done|lia]|]. intros _ w1 _. apply (preserves_ret _).
Qed.

Lemma applying_committed : preserves applying (RaftNode_apply_committed clock).
Proof.
  unfold RaftNode_apply_committed. apply (preserves_gets _ nd). intros w.
  apply (respects_bind _); [apply applying_loop|]. intros through w1 _. revert w1.
  apply (preserves_when _). apply (preserves_gets _ nd). intros w1.
  destruct (auto_snapshot_every _); [|apply (preserves_ret _)].
  destruct (snapshot_dir _); [|apply (preserves_ret _)].
  apply (preserves_when _). intros w2. apply (respects_bind applying).
  - apply still_applying, still_take_snapshot.
  - intros x w3 _. apply (preserves_ret _).
Qed.

(** *** What a follower commits *)

(** Neither the log nor the commit index changes. *)
Definition unlogged (w w' : W) : Prop :=
  commit_index (nd w') = commit_index (nd w) ∧ log (nd w') = log (nd w).

#[export] Instance unlogged_preorder : PreOrder unlogged.
Proof. split; [by intros w|]. intros a b c [H11 H12] [H21 H22]. split; congruence. Qed.

Lemma unlogged_reset b (w : W) : ∃ v w', RaftNode_reset_election_deadline clock b w = (inr v, w') ∧ unlogged w w'.
Proof.
  unfold RaftNode_reset_election_deadline, draw, mbind, M_bind, self, gets, on_node, modify, mret, M_ret. cbn.
  destruct (uniform _ _ _) as [v r]. destruct b; cbn; [destruct (uniform _ _ _) as [v' r']|]; cbn; by eexists _, _.
Qed.

Lemma unlogged_step_down t (w : W) : ∃ w', RaftNode_step_down clock t w = (inr (), w') ∧ unlogged w w'.
Proof.
  unfold RaftNode_step_down. change ((self ≫= ?f) w) with (f (nd w) w). cbv beta.
  assert (∃ w1, when (term_of (nd w) <? t) (save t None) w = (inr (), w1) ∧ unlogged w w1) as (w1 & E1 & U1).
  { destruct (_ <? t); by eexists. }
  erewrite bind_ok; [|exact E1]. erewrite bind_ok; [|reflexivity]. set (w2 := w1 <| nd := _ |>).
  destruct (unlogged_reset false w2) as (v & w' & E & U). erewrite bind_ok; [|exact E].
  exists w'. split; [done|]. transitivity w1; [done|]. transitivity w2; [done|exact U].
Qed.

(** A message that is not stale and whose entries the log takes: the leader's commit
    index is cut at the end of the log, not at the end of the message. *)
Lemma on_append_commit t ldr pi pt es c ok m cf l' (w : W) :
  term_of (nd w) <= t → log_merge pi pt es wall (log (nd w)) = (inr (ok, m, cf), l') →
  commit_index (nd (RaftNode_on_append clock wall t ldr pi pt es c w).2) =
    if ok && (commit_index (nd w) <? c) then Z.min c (last_index (log_view l')) else commit_index (nd w).
Proof.
  intros Ht Hm. unfold RaftNode_on_append. change ((self ≫= ?f) w) with (f (nd w) w). cbv beta.
  destruct (Z.ltb_spec t (term_of (nd w))); [lia|].
  assert (∃ w1, when ((term_of (nd w) <? t) || negb (bool_decide (role (nd w) = FOLLOWER))) (RaftNode_step_down clock t) w
    = (inr (), w1) ∧ unlogged w w1) as (w1 & E1 & U1).
  { destruct (_ || _); [apply unlogged_step_down|by exists w]. }
  erewrite bind_ok; [|exact E1]. erewrite bind_ok; [|reflexivity]. set (w2 := w1 <| nd := _ |>).
  destruct (unlogged_reset false w2) as (v & w3 & E3 & U3). erewrite bind_ok; [|exact E3].
  assert (unlogged w w3) as [Hc Hl] by (transitivity w1; [done|]; transitivity w2; [done|exact U3]). clear U1 U3 E1 E3.
  set (w4 := w3 <| nd := (nd w3) <| log := l' |> |>).
  assert (on_log (log_merge pi pt es wall) w3 = (inr (ok, m, cf), w4)) as E4 by (unfold on_log; by rewrite Hl, Hm).
  erewrite bind_ok; [|exact E4]. cbv beta iota. change ((self ≫= ?f) w4) with (f (nd w4) w4). cbv beta.
  change (commit_index (nd w4)) with (commit_index (nd w3)). rewrite Hc.
  destruct (ok && (commit_index (nd w) <? c)); cbn [when]; [|exact Hc].
  set (w5 := w4 <| nd := (nd w4) <| commit_index := Z.min c (last_index (rlog (nd w4))) |> |>).
  set (answer := λ _ : (), self ≫= _).
  assert (respects applying w5 (RaftNode_apply_committed clock ≫= answer)) as [Hcom _].
  { apply (respects_bind _); [apply applying_committed|]. intros [] w6 _. split; [done|apply Z.le_refl]. }
  exact Hcom.
Qed.

(** The candidates of the leader's commit rule. *)
Definition committable (n : Node) (c : Z) : bool :=
  (term_at c (rlog n) =? term_of n) && commit_quorum c n.

Lemma advance_loop_spec k : ∀ c (w : W),
  Z.of_nat k <= c - commit_index (nd w) →
  let c' := commit_index (nd (advance_commit_loop clock k c w).2) in
  (c' = commit_index (nd w) ∨ c - Z.of_nat k < c' <= c ∧ committable (nd w) c' = true) ∧
  (∀ d, Z.max c' (c - Z.of_nat k) < d <= c → committable (nd w) d = false).
Proof.
  induction k as [|k IH]; intros c w Hk; cbn [advance_commit_loop].
  { cbn. split; [by left|]. lia. }
  change ((self ≫= ?f) w) with (f (nd w) w). cbv beta.
  assert (∀ w', w' = (advance_commit_loop clock k (c - 1) w).2 → committable (nd w) c = false →
    (commit_index (nd w') = commit_index (nd w) ∨
       c - Z.of_nat (S k) < commit_index (nd w') <= c ∧ committable (nd w) (commit_index (nd w')) = true) ∧
    (∀ d, Z.max (commit_index (nd w')) (c - Z.of_nat (S k)) < d <= c → committable (nd w) d = false)) as Hskip.
  { intros w' -> Hc. destruct (IH (c - 1) w ltac:(lia)) as [H1' H2']. split.
    - destruct H1' as [->|[Hr Hq]]; [by left|right]. split; [lia|done].
    - intros d Hd. destruct (decide (d = c)) as [->|]; [done|]. apply H2'. lia. }
  destruct (term_at c (rlog (nd w)) =? term_of (nd w)) eqn:Et; cbn [negb].
  2:{ apply Hskip; [done|]. unfold committable. by rewrite Et. }
  destruct (commit_quorum c (nd w)) eqn:Eq.
  2:{ apply Hskip; [done|]. unfold committable. by rewrite Et, Eq. }
  set (w1 := w <| nd := (nd w) <| commit_index := c |> |>).
  destruct (applying_committed w1) as [Hc _]. change (commit_index (nd w1)) with c in Hc.
  change ((on_node ?f ≫= ?g) w) with (RaftNode_apply_committed clock w1). rewrite Hc.
  split; [|lia]. right. split; [lia|]. unfold committable. by rewrite Et, Eq.
Qed.

(** The leader commits the highest committable index above the old one, if any. *)
Lemma advance_commit_spec (w : W) :
  let n := nd w in
  let c' := commit_index (nd (RaftNode_advance_commit clock w).2) in
  (c' = commit_index n ∨ commit_index n < c' <= last_index (rlog n) ∧ committable n c' = true) ∧
  (∀ d, c' < d <= last_index (rlog n) → committable n d = false).
Proof.
  cbv zeta. unfold RaftNode_advance_commit.
  change ((self ≫= ?f) w) with (f (nd w) w). cbv beta.
  destruct (decide (commit_index (nd w) <= last_index (rlog (nd w)))) as [Hle|Hgt].
  - destruct (advance_loop_spec (Z.to_nat (last_index (rlog (nd w)) - commit_index (nd w)))
      (last_index (rlog (nd w))) w ltac:(lia)) as [H1' H2']. split; [destruct H1' as [->|[? ?]]; [by left|right; split; [lia|done]]|].
    intros d Hd. apply H2'. split; [|lia].
    destruct H1' as [E|[? ?]]; [rewrite E in *; lia|lia].
  - replace (Z.to_nat _) with O by lia. cbn. split; [by left|]. lia.
Qed.

(** *** The commit rule, read as majorities

    The members of [X] known to hold the log up to [c]: the leader itself and those
    whose match index is at least [c]. *)
Definition counted_for (c : Z) (n : Node) (p : NodeId) : Prop :=
  p = id n ∨ from_option (λ m, c <= m) False (match_index n !! p).
#[export] Instance counted_for_dec c n p : Decision (counted_for c n p).
Proof. unfold counted_for. destruct (match_index n !! p); cbn; apply _. Defined.

Definition holders (c : Z) (n : Node) (X : gset NodeId) : gset NodeId := filter (counted_for c n) X.

Lemma elem_of_holders c n X p : p ∈ holders c n X ↔ counted_for c n p ∧ p ∈ X.
Proof. apply elem_of_filter. Qed.

(** The servers counted by [replicated] are the holders other than the leader. *)
Lemma replicated_holders c (n : Node) X :
  match_index n !! id n = None → replicated c X n = Z.of_nat (size (holders c n X ∖ {[id n]})).
Proof.
  intros Hself. unfold replicated. f_equal. rewrite <-size_dom. f_equal. apply set_eq. intros p.
  rewrite elem_of_dom, elem_of_difference, elem_of_holders, elem_of_singleton. unfold counted_for. split.
  - intros [m [Hm [Hc Hp]]%map_lookup_filter_Some]. rewrite Hm. cbn. split; [auto|]. by intros ->; congruence.
  - intros [[[->|Hm] Hp] Hne]; [done|]. destruct (match_index n !! p) as [m|] eqn:E; [|done]. cbn in Hm.
    exists m. by apply map_lookup_filter_Some.
Qed.

(** With or without the leader's own place in [X]. *)
Lemma size_holders c (n : Node) X :
  Z.of_nat (size (holders c n X))
    = (if bool_decide (id n ∈ X) then 1 else 0) + Z.of_nat (size (holders c n X ∖ {[id n]})).
Proof.
  case_bool_decide as Hin.
  - rewrite size_difference by (intros p ->%elem_of_singleton; apply elem_of_holders; by split; [left|]).
    rewrite size_singleton. assert (size (holders c n X) ≠ O); [|lia].
    apply size_non_empty_iff. intros E. apply (not_elem_of_empty (C := gset NodeId) (id n)). rewrite <-E.
    apply elem_of_holders. by split; [left|].
  - assert (holders c n X ∖ {[id n]} = holders c n X) as ->; [|lia]. apply set_eq. intros p.
    rewrite elem_of_difference, elem_of_holders, elem_of_singleton.
    split; [tauto|]. intros [Hh Hp]. split; [done|]. by intros ->.
Qed.

Lemma size_holders_with c (n : Node) X :
  Z.of_nat (size ({[id n]} ∪ holders c n X)) = 1 + Z.of_nat (size (holders c n X ∖ {[id n]})).
Proof.
  replace ({[id n]} ∪ holders c n X) with ({[id n]} ∪ holders c n X ∖ {[id n]}) by
    (apply set_eq; intros p; rewrite !elem_of_union, elem_of_difference; destruct (decide (p ∈ ({[id n]} : gset NodeId))); tauto).
  rewrite size_union, size_singleton; [lia|].
  intros p. rewrite elem_of_difference. tauto.
Qed.

(** What the leader counts as a majority: more than half of the old configuration
    while a change is under way, and as many servers, the leader always among them, as
    are more than half of the present one. *)
Definition agreed (c : Z) (n : Node) : Prop :=
  (∀ old, old_config n = Some old → (size old < 2 * size (holders c n old))%nat) ∧
  (size (config n) < 2 * size ({[id n]} ∪ holders c n (config n)))%nat.

Lemma more_than_half a b : (a / 2 + 1 <=? b) = true ↔ a < 2 * b.
Proof. rewrite Z.leb_le. Z.to_euclidean_division_equations. lia. Qed.

Lemma commit_quorum_agreed c (n : Node) :
  match_index n !! id n = None → commit_quorum c n = true ↔ agreed c n.
Proof.
  intros Hself. unfold commit_quorum, agreed. rewrite ?replicated_holders by done.
  pose proof (size_holders_with c n (config n)) as Hnew.
  destruct (old_config n) as [old|].
  - rewrite replicated_holders by done. pose proof (size_holders c n old) as Hold.
    rewrite andb_true_iff, !more_than_half. split.
    + intros [Ho Hn]. split; [intros ? [= <-]|]; lia.
    + intros [Ho Hn]. specialize (Ho old eq_refl). split; lia.
  - rewrite more_than_half. split; [intros Hn; split; [done|lia]|intros [_ Hn]; lia].
Qed.

(** A leader that belongs to the configuration needs a majority of it. *)
Lemma agreed_majority c (n : Node) :
  id n ∈ config n → agreed c n → (size (config n) < 2 * size (holders c n (config n)))%nat.
Proof.
  intros Hin [_ Hn]. replace ({[id n]} ∪ _) with (holders c n (config n)) in Hn; [done|].
  apply set_eq. intros p. rewrite elem_of_union, elem_of_singleton. split; [by right|].
  intros [->|]; [|done]. apply elem_of_holders. by split; [left|].
Qed.

(** A leader outside a configuration of one server needs nobody. *)
Lemma agreed_alone c (n : Node) :
  id n ∉ config n → old_config n = None → size (config n) = 1%nat → agreed c n.
Proof.
  intros Hout Hold Hone. split; [congruence|]. rewrite Hone.
  assert (size ({[id n]} ∪ holders c n (config n)) ≠ O); [|lia]. apply size_non_empty_iff. intros E.
  apply (not_elem_of_empty (C := gset NodeId) (id n)). rewrite <-E. by apply elem_of_union_l, elem_of_singleton.
Qed.

(** ** Applying *)

(** Commands the state machine can decode; the entries before the first that it cannot. *)
Definition decodable (e : Entry) : bool := negb (is_command e) || utf8_valid (e_payload e).
Fixpoint before_undecodable (es : list Entry) : list Entry :=
  match es with
  | e :: es' => if decodable e then e :: before_undecodable es' else []
  | [] => []
  end.

Lemma KVStore_apply_total p sm : utf8_valid p = true → ∃ r, (KVStore_apply p sm).1 = inr r.
Proof.
  intros Hv. unfold KVStore_apply, lift, utf8_decode, mbind, M_bind. cbn. rewrite Hv.
  destruct (split_eq _) as [[k v]|]; cbn; eauto.
Qed.

(** The callbacks of a run of entries. *)
Definition callback_of (n : Node) (e : Entry) (a : ApplyEvent) : Prop :=
  ap_node a = id n ∧ ap_index a = e_index e ∧ ap_payload a = e_payload e.

(** What turns of the loop leave that apply [es] and end with the state machine [sm]. *)
Definition applied_entries (w : W) (es : list Entry) (sm : KVStore) (w' : W) : Prop :=
  state_machine (nd w') = Some sm ∧
  applied_index (nd w') = applied_index (nd w) + len es ∧
  commit_index (nd w') = commit_index (nd w) ∧ rlog (nd w') = rlog (nd w) ∧
  id (nd w') = id (nd w) ∧ on_apply (nd w') = on_apply (nd w) ∧
  auto_snapshot_every (nd w') = auto_snapshot_every (nd w) ∧ sent w' = sent w ∧
  ∃ new, applied w' = applied w ++ new ∧
    (if on_apply (nd w) then Forall2 (callback_of (nd w)) es new else new = []).

(** Recording the result of an entry. *)
Lemma record_applied sm nxt e result (w : W) :
  state_machine (nd w) = Some sm → nxt = applied_index (nd w) + 1 →
  ∃ w', (_ ← on_node (λ n, n <| applied_index := nxt |>);
         n ← self;
         when (on_apply n)
           (modify (λ w, w <| applied := applied w ++ [mkApplied (id n) (e_index e) (e_payload e) result] |>))) w
        = (inr (), w') ∧
    state_machine (nd w') = Some sm ∧ applied_index (nd w') = nxt ∧
    commit_index (nd w') = commit_index (nd w) ∧ rlog (nd w') = rlog (nd w) ∧
    id (nd w') = id (nd w) ∧ on_apply (nd w') = on_apply (nd w) ∧
  auto_snapshot_every (nd w') = auto_snapshot_every (nd w) ∧ sent w' = sent w ∧
    applied w' = applied w ++ if on_apply (nd w) then [mkApplied (id (nd w)) (e_index e) (e_payload e) result] else [].
Proof.
  intros Hsm Hn. erewrite bind_ok; [|reflexivity]. erewrite bind_ok; [|reflexivity]. cbn.
  destruct (on_apply (nd w)) eqn:Ho; cbn; eexists; (split; [reflexivity|]); cbn; rewrite ?app_nil_r; done.
Qed.

Lemma apply_entry_run sm e (w : W) :
  state_machine (nd w) = Some sm → plain (e_payload e) → decodable e = true →
  ∃ w', apply_entry clock (applied_index (nd w) + 1) e w = (inr (), w') ∧ applied_entries w [e] (sm_step sm e) w'.
Proof.
  intros Hsm Hp Hd. unfold apply_entry. erewrite bind_ok; [|reflexivity]. rewrite Hp, andb_false_r, Hsm.
  fold (is_command e). unfold applied_entries, sm_step.
  destruct (is_command e) eqn:Hc.
  - unfold decodable in Hd. rewrite Hc in Hd. destruct (KVStore_apply_total (e_payload e) sm Hd) as [r Hr].
    assert (sm_apply (e_payload e) w
      = (inr (Some r), w <| nd := (nd w) <| state_machine := Some (KVStore_apply (e_payload e) sm).2 |> |>)) as E.
    { unfold sm_apply. rewrite Hsm. destruct (KVStore_apply (e_payload e) sm) as [r' sm']. cbn in Hr. by subst r'. }
    erewrite bind_ok; [|exact E]. set (w1 := w <| nd := _ |>).
    destruct (record_applied (KVStore_apply (e_payload e) sm).2 (applied_index (nd w) + 1) e (Some r) w1)
      as (w' & E' & H1' & H2' & H3' & H4' & H5' & H6' & H7' & H8' & H9'); [done..|].
    exists w'. split; [exact E'|]. split_and!; try done. eexists. split; [exact H9'|].
    cbn. destruct (on_apply (nd w)); [|done]. by repeat constructor.
  - erewrite bind_ok; [|reflexivity].
    destruct (record_applied sm (applied_index (nd w) + 1) e None w)
      as (w' & E' & H1' & H2' & H3' & H4' & H5' & H6' & H7' & H8' & H9'); [done..|].
    exists w'. split; [exact E'|]. split_and!; try done. eexists. split; [exact H9'|].
    destruct (on_apply (nd w)); [|done]. by repeat constructor.
Qed.

(** The entries after the applied ones, up to the commit index. *)
Definition committed_entries (n : Node) (es : list Entry) : Prop :=
  commit_index n = applied_index n + len es ∧
  ∀ k e, es !! k = Some e → RaftLog_get (applied_index n + 1 + Z.of_nat k) (rlog n) = Some e.

(** A command that is not UTF-8 raises and leaves the node as it was, up to the state
    machine's count of operations. *)
Lemma apply_entry_stuck nxt sm e (w : W) :
  state_machine (nd w) = Some sm → plain (e_payload e) → decodable e = false →
  ∃ w', apply_entry clock nxt e w = (inl UnicodeDecodeError, w') ∧ applied_entries w [] (sm_step sm e) w'.
Proof.
  intros Hsm Hp [Hc%negb_false_iff Hu]%orb_false_iff. unfold apply_entry.
  change ((self ≫= ?f) w) with (f (nd w) w). cbv beta zeta.
  rewrite Hp, andb_false_r, Hsm. fold (is_command e). rewrite Hc.
  unfold sm_apply, mbind, M_bind. rewrite Hsm.
  unfold applied_entries, sm_step. rewrite Hc.
  unfold KVStore_apply, lift, utf8_decode, mbind, M_bind. cbn. rewrite Hu.
  eexists. split; [reflexivity|]. cbn. rewrite len_nil. split_and!; try done; [lia|].
  exists []. rewrite app_nil_r. split; [done|]. by destruct (on_apply (nd w)).
Qed.

(** One entry, then others. *)
Lemma applied_entries_cons w e es sm1 w1 sm2 w2 :
  applied_entries w [e] sm1 w1 → applied_entries w1 es sm2 w2 → applied_entries w (e :: es) sm2 w2.
Proof.
  intros (S1 & A1 & C1 & L1 & I1 & O1 & T1 & N1 & new1 & V1 & F1) (S2 & A2 & C2 & L2 & I2 & O2 & T2 & N2 & new2 & V2 & F2).
  rewrite len_cons, len_nil in A1. split_and!; [done|rewrite len_cons; lia|congruence..|].
  exists (new1 ++ new2). rewrite V2, V1, <-app_assoc. split; [done|].
  rewrite O1 in F2. destruct (on_apply (nd w)).
  - inversion F1 as [|? a ? ? Ha Hnil]; subst. inversion Hnil; subst. cbn. constructor; [done|].
    eapply Forall2_impl; [exact F2|]. intros x y (Ha1 & Ha2 & Ha3). unfold callback_of. by rewrite <-I1.
  - by subst.
Qed.

(** The state machine after trying [es]: a command it cannot decode is the last it
    looks at. *)
Definition sm_after (sm : KVStore) (es : list Entry) : KVStore :=
  foldl sm_step sm (take (S (length (before_undecodable es))) es).

(** The loop applies the entries before the first command it cannot decode, and raises
    there. *)
Lemma apply_loop_run es : ∀ sm (w : W),
  state_machine (nd w) = Some sm → committed_entries (nd w) es → plain_entries es →
  ∃ w', apply_loop clock (length es) w
      = ((if forallb decodable es then inr true else inl UnicodeDecodeError), w') ∧
    applied_entries w (before_undecodable es) (sm_after sm es) w'.
Proof.
  induction es as [|e es IH]; intros sm w Hsm [Hc Hes] Hp; cbn [apply_loop length forallb before_undecodable].
  - exists w. split; [done|]. unfold applied_entries. cbn. rewrite Hsm, len_nil in *. split_and!; try done; [lia|].
    exists []. rewrite app_nil_r. split; [done|]. by destruct (on_apply (nd w)).
  - rewrite len_cons in Hc. pose proof (len_nonneg es). apply Forall_cons in Hp as [Hpe Hp].
    change ((self ≫= ?f) w) with (f (nd w) w). cbv beta.
    destruct (Z.ltb_spec (applied_index (nd w)) (commit_index (nd w))); [|lia].
    pose proof (Hes O e eq_refl) as He. rewrite Z.add_0_r in He. cbv zeta. rewrite He.
    destruct (decodable e) eqn:Hde; cbn [andb].
    2:{ destruct (apply_entry_stuck (applied_index (nd w) + 1) sm e w Hsm Hpe Hde) as (w' & E & Hw').
      exists w'. split; [by erewrite bind_exn by exact E|].
      unfold sm_after. cbn [before_undecodable]. by rewrite Hde. }
    destruct (apply_entry_run sm e w Hsm Hpe Hde) as (w1 & E1 & R1).
    pose proof R1 as (S1 & A1 & C1 & L1 & _). rewrite len_cons, len_nil in A1.
    destruct (IH (sm_step sm e) w1) as (w2 & E2 & R2); [done| |done|].
    { split; [lia|]. intros k x Hk. rewrite L1, A1. rewrite <-(Hes (S k) x Hk). f_equal. lia. }
    exists w2. split; [by erewrite bind_ok by exact E1|].
    unfold sm_after. cbn [before_undecodable]. rewrite Hde. by eapply applied_entries_cons.
Qed.

(** Without snapshots, [_apply_committed] is that loop. *)
Lemma apply_committed_run es sm (w : W) :
  auto_snapshot_every (nd w) = None → state_machine (nd w) = Some sm →
  committed_entries (nd w) es → plain_entries es →
  ∃ w', RaftNode_apply_committed clock w
      = ((if forallb decodable es then inr () else inl UnicodeDecodeError), w') ∧
    applied_entries w (before_undecodable es) (sm_after sm es) w'.
Proof.
  intros Ha Hsm Hes Hp. destruct (apply_loop_run es sm w Hsm Hes Hp) as (w' & E & Hw').
  exists w'. split; [|done]. unfold RaftNode_apply_committed. destruct Hes as [Hc _].
  change ((self ≫= ?f) w) with (f (nd w) w). cbv beta.
  replace (Z.to_nat (commit_index (nd w) - applied_index (nd w))) with (length es) by (unfold len in Hc; lia).
  destruct (forallb decodable es); [|by erewrite bind_exn by exact E].
  erewrite bind_ok; [|exact E]. cbn [when]. change ((self ≫= ?f) w') with (f (nd w') w'). cbv beta.
  pose proof Hw' as (_ & _ & _ & _ & _ & _ & -> & _). by rewrite Ha.
Qed.

(** All of them, when every command is UTF-8. *)
Lemma before_undecodable_all es : forallb decodable es = true → before_undecodable es = es.
Proof.
  induction es as [|e es IH]; cbn; [done|]. intros [He Hes]%andb_true_iff. by rewrite He, IH.
Qed.

Lemma sm_after_all sm es : forallb decodable es = true → sm_after sm es = foldl sm_step sm es.
Proof. intros Hes. unfold sm_after. rewrite before_undecodable_all, take_ge; [done|lia|done]. Qed.

(** A command that fails to decode leaves the data of the state machine. *)
Lemma sm_after_data sm es : kv_data (sm_after sm es) = kv_data (foldl sm_step sm (before_undecodable es)).
Proof.
  unfold sm_after. revert sm. induction es as [|e es IH]; intros sm; [done|]. cbn [before_undecodable].
  destruct (decodable e) eqn:He; [apply IH|]. cbn. apply orb_false_iff in He as [Hc%negb_false_iff Hu].
  unfold sm_step. rewrite Hc. unfold KVStore_apply, lift, utf8_decode, mbind, M_bind. cbn. by rewrite Hu.
Qed.

(** A command that is not UTF-8 stops the node: applying raises, and stays where it
    was. *)
Lemma apply_stuck e sm (w : W) :
  state_machine (nd w) = Some sm → plain (e_payload e) → is_command e = true →
  utf8_valid (e_payload e) = false → applied_index (nd w) < commit_index (nd w) →
  RaftLog_get (applied_index (nd w) + 1) (rlog (nd w)) = Some e →
  let '(r, w') := RaftNode_apply_committed clock w in
  r = inl UnicodeDecodeError ∧ applied_index (nd w') = applied_index (nd w) ∧ applied w' = applied w.
Proof.
  intros Hsm Hp Hc Hu Hlt He. unfold RaftNode_apply_committed.
  change ((self ≫= ?f) w) with (f (nd w) w). cbv beta.
  destruct (Z.to_nat (commit_index (nd w) - applied_index (nd w))) as [|fuel] eqn:Ef; [lia|].
  assert (decodable e = false) as Hde by (unfold decodable; by rewrite Hc, Hu).
  destruct (apply_entry_stuck (applied_index (nd w) + 1) sm e w Hsm Hp Hde)
    as (w' & E & _ & A & _ & _ & _ & _ & _ & _ & new & V & F).
  assert (apply_loop clock (S fuel) w = (inl UnicodeDecodeError, w')) as E'.
  { cbn [apply_loop]. change ((self ≫= ?f) w) with (f (nd w) w). cbv beta zeta.
    rewrite (proj2 (Z.ltb_lt _ _) Hlt), He. by erewrite bind_exn by exact E. }
  erewrite bind_exn by exact E'. rewrite len_nil in A. split_and!; [done|lia|]. rewrite V.
  destruct (on_apply (nd w)); [inversion F|]; subst; by rewrite app_nil_r.
Qed.
End functional.
