(* ===== verification/NodeMonotone.v ===== *)
(** * Raft node: what no operation ever undoes

    Over every handler, with or without pre-votes and membership changes, and
    whatever is raised: the term never falls, a vote is never changed within its
    term, the applied index never falls, and the state file holds what the node
    has. *)
From S2P Require Import Prelude Bytes Unicode RaftLog KVStore RaftInterfaces RaftNode ElectionSpec NodeFacts NodeElection NodeFunctional.
Local Open Scope Z_scope.

(** Walk through a computation, proving that its parts preserve a relation; the
    database holds the parts that are not mere compositions. *)
Create HintDb walk.
Ltac walk :=
  repeat first
    [ solve [eauto with walk]
    | apply (preserves_ret _)
    | apply (preserves_raise _)
    | progress intros
    | apply (preserves_bind _ _ _)
    | apply (preserves_when _)
    | apply (preserves_for_each _)
    | match goal with
      | |- preserves _ (let _ := _ in _) => progress cbv zeta
      | |- preserves _ (if ?b then _ else _) => destruct b
      | |- preserves _ (match ?x with _ => _ end) => destruct x
      end ].

Section monotone.
Context {L Rng : Type} `{RaftLogOps L} `{Random Rng}.
Context (clock wall : Z).
Abbreviation Node := (RaftNode L Rng).
Abbreviation W := (World L Rng).

(** The facts kept. *)
Record kept (n n' : Node) : Prop := {
  k_term : term_of n <= term_of n';
  k_vote c : term_of n' = term_of n → voted_for (persister n) = Some c → voted_for (persister n') = Some c;
  k_applied : applied_index n <= applied_index n';
  k_synced : synced (persister n) → synced (persister n');
  k_path : ds_path (persister n') = ds_path (persister n);
}.

Definition keeps (w w' : W) : Prop := kept (nd w) (nd w').

#[export] Instance keeps_preorder : PreOrder keeps.
Proof.
  split; [intros w; by split|]. intros a b c [T1 V1 A1 S1 P1] [T2 V2 A2 S2 P2].
  split; [lia| |lia|auto|congruence]. intros x Ht Hv. apply V2; [lia|]. apply V1; [lia|done].
Qed.

Lemma keeps_self : preserves keeps self.
Proof. intros w. by split. Qed.

Lemma keeps_same f :
  (∀ n, persister (f n) = persister n) → (∀ n, applied_index n <= applied_index (f n)) →
  preserves keeps (on_node f).
Proof.
  intros Hp Ha w. unfold respects, keeps. cbn.
  split; unfold term_of; rewrite ?Hp; [done|by intros c _|apply Ha|done|done].
Qed.

Lemma keeps_send d m : preserves keeps (send d m).
Proof. intros w. by split. Qed.

Lemma keeps_draw lo hi : preserves keeps (draw lo hi).
Proof. intros w. unfold respects, keeps, draw. destruct (uniform _ _ _). by split. Qed.

Lemma keeps_on_log {A} (m : M L A) : preserves keeps (on_log m).
Proof. intros w. unfold respects, keeps, on_log. destruct (m _). by split. Qed.

Lemma keeps_sm_apply p : preserves keeps (sm_apply p).
Proof.
  intros w. unfold respects, keeps, sm_apply. destruct (state_machine (nd w)) as [sm|]; [|by split].
  by destruct (KVStore_apply p sm) as [[e|x] sm'].
Qed.

Lemma keeps_event f : preserves keeps (modify (λ w : W, w <| applied := f w |>)).
Proof. intros w. by split. Qed.

(** Saving a term and vote: allowed when the term rises or the vote was open. *)
Lemma keeps_save t v (w : W) :
  term_of (nd w) <= t →
  (t = term_of (nd w) → voted_for (persister (nd w)) = None ∨ voted_for (persister (nd w)) = v) →
  respects keeps w (save t v).
Proof.
  intros Ht Hv. split; cbn; [done| |done|by apply save_synced|done].
  intros c E Hc. destruct (Hv E) as [Hn|<-]; congruence.
Qed.
End monotone.

#[export] Hint Resolve keeps_self keeps_send keeps_draw keeps_on_log keeps_sm_apply keeps_event : walk.
#[export] Hint Extern 2 (preserves keeps (on_node _)) => by apply keeps_same : walk.

Section monotone_ops.
Context {L Rng : Type} `{RaftLogOps L} `{Random Rng}.
Context (clock wall : Z).
Abbreviation Node := (RaftNode L Rng).
Abbreviation W := (World L Rng).
Abbreviation keeps := (keeps (L:=L) (Rng:=Rng)).

Lemma keeps_reset b : preserves keeps (RaftNode_reset_election_deadline clock b).
Proof. unfold RaftNode_reset_election_deadline. walk. Qed.
#[local] Hint Resolve keeps_reset : walk.

Lemma keeps_step_down t : preserves keeps (RaftNode_step_down clock t).
Proof.
  unfold RaftNode_step_down. apply (preserves_gets _ nd). intros w. apply (respects_bind _).
  - destruct (Z.ltb_spec (term_of (nd w)) t); cbn [when]; [|apply (preserves_ret _)].
    apply keeps_save; lia.
  - intros _ w1 _. revert w1. change (preserves keeps
      (_ ← on_node (λ n : Node, n <| role := FOLLOWER |> <| pre_candidate := false |>
         <| transfer_target := None |> <| transfer_deadline := 0 |>);
       _ ← RaftNode_reset_election_deadline clock false; mret ())). walk.
Qed.
#[local] Hint Resolve keeps_step_down : walk.

Lemma keeps_write_snapshot idx t st : preserves keeps (RaftNode_write_snapshot_file (L:=L) (Rng:=Rng) idx t st).
Proof. apply keeps_same; intros n; by destruct (snapshot_dir n). Qed.
#[local] Hint Resolve keeps_write_snapshot : walk.

Lemma keeps_take_snapshot : preserves keeps RaftNode_take_snapshot.
Proof. unfold RaftNode_take_snapshot. walk. Qed.
#[local] Hint Resolve keeps_take_snapshot : walk.

Lemma keeps_config p : preserves keeps (apply_config (L:=L) (Rng:=Rng) clock p).
Proof. unfold apply_config, set_peers, track_peers, forget_peers. walk. Qed.
#[local] Hint Resolve keeps_config : walk.

(** Applying entries: the persister is not touched, and the indexes only rise. *)
Definition same_persister (w w' : W) : Prop := persister (nd w') = persister (nd w).

#[local] Instance same_persister_preorder : PreOrder same_persister.
Proof. split; [by intros w|]. intros a b c. unfold same_persister. congruence. Qed.

Lemma persister_on_node f : (∀ n, persister (f n) = persister n) → preserves same_persister (on_node f).
Proof. intros Hf w. apply Hf. Qed.
#[local] Hint Extern 2 (preserves same_persister (on_node _)) => by apply persister_on_node : walk.

Lemma persister_self : preserves same_persister self.
Proof. by intros w. Qed.
#[local] Hint Resolve persister_self : walk.

Lemma persister_event f : preserves same_persister (modify (λ w : W, w <| applied := f w |>)).
Proof. by intros w. Qed.
#[local] Hint Resolve persister_event : walk.

Lemma persister_sm_apply p : preserves same_persister (sm_apply p).
Proof.
  intros w. unfold respects, same_persister, sm_apply. destruct (state_machine (nd w)) as [sm|]; [|done].
  by destruct (KVStore_apply p sm) as [[e|x] sm'].
Qed.
#[local] Hint Resolve persister_sm_apply : walk.

Lemma persister_write_snapshot idx t st : preserves same_persister (RaftNode_write_snapshot_file idx t st).
Proof. apply persister_on_node. intros n. by destruct (snapshot_dir n). Qed.
#[local] Hint Resolve persister_write_snapshot : walk.

Lemma persister_take_snapshot : preserves same_persister RaftNode_take_snapshot.
Proof. unfold RaftNode_take_snapshot. walk. Qed.
#[local] Hint Resolve persister_take_snapshot : walk.

Lemma persister_entry nxt e : preserves same_persister (apply_entry clock nxt e).
Proof. unfold apply_entry, apply_config, set_peers, track_peers, forget_peers. walk. Qed.
#[local] Hint Resolve persister_entry : walk.

Lemma persister_loop fuel : preserves same_persister (apply_loop clock fuel).
Proof. induction fuel as [|fuel IH]; cbn [apply_loop]; walk. Qed.
#[local] Hint Resolve persister_loop : walk.

Lemma persister_committed : preserves same_persister (RaftNode_apply_committed clock).
Proof. unfold RaftNode_apply_committed. walk. Qed.

Lemma keeps_apply_committed : preserves keeps (RaftNode_apply_committed clock).
Proof.
  intros w. pose proof (persister_committed w) as Hp. destruct (applying_committed clock w) as [_ Ha].
  unfold respects, same_persister in Hp. split; unfold term_of; rewrite ?Hp; auto. done.
Qed.
#[local] Hint Resolve keeps_apply_committed : walk.

(** *** Replication *)

Lemma keeps_send_append p : preserves keeps (RaftNode_send_append p).
Proof. unfold RaftNode_send_append. walk. Qed.
#[local] Hint Resolve keeps_send_append : walk.

Lemma keeps_send_all : preserves keeps RaftNode_send_all_appends.
Proof. unfold RaftNode_send_all_appends. walk. Qed.
#[local] Hint Resolve keeps_send_all : walk.

Lemma keeps_advance_loop k : ∀ c, preserves keeps (advance_commit_loop clock k c).
Proof. induction k as [|k IH]; intros c; cbn [advance_commit_loop]; walk. Qed.
#[local] Hint Resolve keeps_advance_loop : walk.

Lemma keeps_advance : preserves keeps (RaftNode_advance_commit clock).
Proof. unfold RaftNode_advance_commit. walk. Qed.
#[local] Hint Resolve keeps_advance : walk.

Lemma keeps_propose p : preserves keeps (RaftNode_propose clock wall p).
Proof. unfold RaftNode_propose. walk. Qed.
#[local] Hint Resolve keeps_propose : walk.

Lemma keeps_transfer target : preserves keeps (RaftNode_transfer_leadership clock target).
Proof. unfold RaftNode_transfer_leadership. walk. Qed.

Lemma keeps_propose_config X : preserves keeps (RaftNode_propose_config clock wall X).
Proof. unfold RaftNode_propose_config, set_peers, track_peers. walk. Qed.
#[local] Hint Resolve keeps_propose_config : walk.

Lemma keeps_add_server i : preserves keeps (RaftNode_propose_add_server clock wall i).
Proof. unfold RaftNode_propose_add_server. walk. Qed.

Lemma keeps_remove_server i : preserves keeps (RaftNode_propose_remove_server clock wall i).
Proof. unfold RaftNode_propose_remove_server. walk. Qed.

(** *** Elections *)

Lemma keeps_become_leader : preserves keeps (RaftNode_become_leader clock wall).
Proof. unfold RaftNode_become_leader. walk. Qed.
#[local] Hint Resolve keeps_become_leader : walk.

Lemma keeps_maybe_win : preserves keeps (RaftNode_maybe_win clock wall).
Proof. unfold RaftNode_maybe_win. walk. Qed.
#[local] Hint Resolve keeps_maybe_win : walk.

Lemma keeps_start_election : preserves keeps (RaftNode_start_election clock wall).
Proof.
  unfold RaftNode_start_election. apply (preserves_gets _ nd). intros w.
  apply (respects_bind keeps); [apply keeps_save; lia|]. intros _ w1 _. revert w1.
  set (m := _ ≫= _). change (preserves keeps m). subst m. walk.
Qed.
#[local] Hint Resolve keeps_start_election : walk.

Lemma keeps_campaign : preserves keeps (RaftNode_start_prevote_or_election clock wall).
Proof. unfold RaftNode_start_prevote_or_election. walk. Qed.
#[local] Hint Resolve keeps_campaign : walk.

Lemma keeps_check_quorum now : preserves keeps (RaftNode_check_quorum clock now).
Proof. unfold RaftNode_check_quorum. walk. Qed.
#[local] Hint Resolve keeps_check_quorum : walk.

Lemma keeps_tick now : preserves keeps (RaftNode_tick clock wall now).
Proof. unfold RaftNode_tick. walk. Qed.

(** *** Handlers *)

(** A vote is recorded only where the node's vote is open or the same. *)
Lemma keeps_vote_reply c li lt : preserves keeps (vote_reply clock c li lt).
Proof.
  unfold vote_reply. apply (preserves_gets _ nd). intros w. cbv zeta.
  apply (respects_bind keeps).
  - destruct (_ && _) eqn:Eg; cbn [when]; [|apply (preserves_ret _)].
    apply andb_true_iff in Eg as [Eg _]. rewrite orb_true_iff, !bool_decide_eq_true in Eg.
    apply (respects_bind keeps); [by apply keeps_save|]. intros _ w1 _.
    apply (respects_bind keeps); [apply keeps_reset|]. intros x w2 _. apply (preserves_ret _).
  - intros _ w1 _. revert w1. set (m := _ ≫= _). change (preserves keeps m). subst m. walk.
Qed.
#[local] Hint Resolve keeps_vote_reply : walk.

Lemma keeps_on_vote t c li lt : preserves keeps (RaftNode_on_vote clock t c li lt).
Proof.
  unfold RaftNode_on_vote. apply (preserves_bind _ _ _); [walk|]. intros n.
  destruct (_ <? _); [walk|]. apply (preserves_bind _ _ _); [walk|]. intros _.
  apply (keeps_vote_reply c li lt).
Qed.
#[local] Hint Resolve keeps_on_vote : walk.

Lemma keeps_get_key m p : preserves keeps (get_key m p).
Proof. unfold get_key. walk. Qed.
#[local] Hint Resolve keeps_get_key : walk.

Lemma keeps_resync idx : preserves keeps (RaftNode_resync idx).
Proof. unfold RaftNode_resync. walk. Qed.
#[local] Hint Resolve keeps_resync : walk.

Lemma keeps_raise_applied idx :
  preserves keeps (on_node (λ n : Node, n <| applied_index := Z.max (applied_index n) idx |>)).
Proof. apply keeps_same; [done|]. intros n. cbn. lia. Qed.
#[local] Hint Resolve keeps_raise_applied : walk.

Lemma keeps_handle m : preserves keeps (RaftNode_handle clock wall m).
Proof.
  destruct m; cbn [RaftNode_handle]; [| | by apply keeps_on_vote|..];
    unfold RaftNode_on_prevote, RaftNode_on_prevote_resp, RaftNode_on_vote_resp, RaftNode_on_append,
      RaftNode_on_append_resp, RaftNode_on_install_snapshot, RaftNode_on_timeout_now; walk.
Qed.

Lemma keeps_init : preserves keeps (RaftNode_init clock).
Proof.
  unfold RaftNode_init, RaftNode_load_snapshot_file. walk.
  apply keeps_same; [done|]. intros n. cbn. lia.
Qed.
End monotone_ops.
