(* ===== verification/NodeLog.v ===== *)
(** * Raft node over any implementation of the log

    [LogImplements] states what a node relies on of a log object: appending and
    merging compute what the in-memory log computes, as long as the result fits the
    implementation.  Then a node without a snapshot directory does exactly what a node
    over the in-memory log does.  The durable log is such an implementation. *)
From stdpp Require Import relations.
From S2P Require Import Prelude Bytes RaftLog RaftLogFacts LogSpec DurableLog DurableLogFacts KVStore RaftInterfaces RaftNode NodeMonotone.
Local Open Scope Z_scope.

(** ** The interface *)

(** A time a record can be stamped with. *)
Definition stamp (wall : Z) : Prop := - 2 ^ 63 <= wall < 2 ^ 63.

Class LogImplements (L : Type) `{RaftLogOps L} (ok : L → Prop) (fits : RaftLog → Prop) : Prop := {
  li_append term payload wall (l : L) :
    ok l → stamp wall → 0 <= term → fits (RaftLog_append_entry term payload (log_view l)).2 →
    returns (log_append_entry term payload wall) l
      (λ e l', (e, log_view l') = RaftLog_append_entry term payload (log_view l) ∧ ok l');
  li_merge prev prev_term es wall (l : L) :
    ok l → stamp wall → 0 <= prev → numbered (prev + 1) es → Forall (λ e, 0 <= e_term e) es →
    fits (RaftLog_merge prev prev_term es (log_view l)).2 →
    returns (log_merge prev prev_term es wall) l
      (λ r l', (r, log_view l') = RaftLog_merge prev prev_term es (log_view l) ∧ ok l');
}.

#[export] Instance durable_implements : LogImplements DurableRaftLog (durable seg_log_repr) storable.
Proof.
  constructor.
  - intros term payload wall l Hl Hw Ht [Hok Hfit]. cbn in *.
    apply Forall_app in Hok as [_ He]. apply Forall_cons in He as [He _]. by apply (append_entry_spec seg_log_repr).
  - intros prev prev_term es wall l Hl Hw Hp Hn Ht Hfit. by apply (durable_merge_computes seg_log_repr).
Qed.

(** ** The node in memory *)

Section node_log.
Context {L Rng : Type} `{RaftLogOps L} `{Random Rng}.

(** The node with its log in memory. *)
Definition mem_node (n : RaftNode L Rng) : RaftNode RaftLog Rng :=
  mkNode _ _ (id n) (peers n) (config n) (old_config n) (joint_index n) (rng n) (persister n)
    (state_machine n) (on_apply n) (election_min n) (election_max n) (heartbeat_interval n)
    (quorum_check_interval n) (max_batch n) (use_prevote n) (log_view (log n)) (snapshot_dir n)
    (auto_snapshot_every n) (last_snapshot n) (role n) (leader_id n) (pre_candidate n)
    (commit_index n) (applied_index n) (election_deadline n) (votes n) (next_index n)
    (match_index n) (last_peer_ack n) (last_leader_contact n) (next_heartbeat n)
    (next_quorum_check n) (transfer_target n) (transfer_deadline n) (prevote_term n).

Definition mem_world (w : World L Rng) : World RaftLog Rng := mkWorld _ _ (mem_node (nd w)) (sent w) (applied w).
End node_log.

Create HintDb mirror.

(** ** Simulation *)

Section simulation.
Context {L Rng : Type} `{RaftLogOps L} `{Random Rng}.
Context (ok : L → Prop) (fits : RaftLog → Prop) `{!LogImplements L ok fits}.
Context (clock wall : Z) (wall_ok : stamp wall).
Abbreviation W := (World L Rng).
Abbreviation WM := (World RaftLog Rng).

Record linked (n : RaftNode L Rng) : Prop := {
  ln_ok : ok (log n);
  ln_dir : snapshot_dir n = None;
  ln_term : 0 <= term_of n;
}.

Definition matches {A} (x : (Exn + A) * W) (y : (Exn + A) * WM) : Prop :=
  x.1 = y.1 ∧ y.2 = mem_world x.2 ∧ linked (nd x.2).

(** Both do the same; or so they do as long as the log fits. *)
Definition same {A} (m : M W A) (m' : M WM A) : Prop :=
  ∀ w, linked (nd w) → matches (m w) (m' (mem_world w)).

Definition sim {A} (m : M W A) (m' : M WM A) : Prop :=
  ∀ w, linked (nd w) → fits (rlog (nd (m' (mem_world w)).2)) → matches (m w) (m' (mem_world w)).

(** Without a directory, the log stays. *)
Definition dirless (w w' : WM) : Prop := snapshot_dir (nd w) = None → snapshot_dir (nd w') = None.
Definition steady (w w' : WM) : Prop :=
  snapshot_dir (nd w) = None → snapshot_dir (nd w') = None ∧ rlog (nd w') = rlog (nd w).

#[export] Instance dirless_preorder : PreOrder dirless.
Proof. split; [intros w Hw; exact Hw|]. intros a b c Hab Hbc Ha. apply Hbc, Hab, Ha. Qed.

#[export] Instance steady_preorder : PreOrder steady.
Proof.
  split; [intros w Hw; by split|]. intros a b c Hab Hbc Ha. destruct (Hab Ha) as [Hb E1]. destruct (Hbc Hb) as [Hc E2].
  split; [done|congruence].
Qed.

(** *** Composition *)

Lemma same_sim {A} (m : M W A) m' : same m m' → sim m m'.
Proof. intros Hm w Hw _. by apply Hm. Qed.

Lemma same_ret {A} (x : A) : same (mret x) (mret x).
Proof. intros w Hw. by (split; [|split]). Qed.

Lemma same_raise {A} e : same (A:=A) (raise e) (raise e).
Proof. intros w Hw. by (split; [|split]). Qed.

Lemma same_bind {A B} (m : M W A) m' (f : A → M W B) f' :
  same m m' → (∀ x, same (f x) (f' x)) → same (m ≫= f) (m' ≫= f').
Proof.
  intros Hm Hf w Hw. destruct (Hm w Hw) as (E1 & E2 & Hw1). unfold mbind, M_bind.
  destruct (m w) as [r w1], (m' (mem_world w)) as [r' w1']. cbn in *. subst r' w1'.
  destruct r as [e|x]; [by (split; [|split])|by apply Hf].
Qed.

Lemma same_then {A B} (m : M W A) m' (f : A → M W B) f' :
  same m m' → (∀ x, sim (f x) (f' x)) → sim (m ≫= f) (m' ≫= f').
Proof.
  intros Hm Hf w Hw. destruct (Hm w Hw) as (E1 & E2 & Hw1). unfold mbind, M_bind.
  destruct (m w) as [r w1], (m' (mem_world w)) as [r' w1']. cbn in *. subst r' w1'.
  destruct r as [e|x]; [by (split; [|split])|by apply Hf].
Qed.

Lemma sim_then {A B} (m : M W A) m' (f : A → M W B) f' :
  sim m m' → preserves dirless m' → (∀ x, same (f x) (f' x)) → (∀ x, preserves steady (f' x)) → sim (m ≫= f) (m' ≫= f').
Proof.
  intros Hm Hd Hf Hs w Hw Hfit. specialize (Hm w Hw). specialize (Hd (mem_world w) (ln_dir _ Hw)).
  unfold mbind, M_bind in *. destruct (m' (mem_world w)) as [[e|x] w1'] eqn:E'; cbn in *.
  - destruct (Hm Hfit) as (E1 & E2 & Hw1). destruct (m w) as [r w1]. cbn in *. subst r w1'. by (split; [|split]).
  - destruct (Hs x w1' Hd) as [_ El]. destruct Hm as (E1 & E2 & Hw1); [change (fits (rlog (nd w1'))); rewrite <-El; exact Hfit|].
    destruct (m w) as [r w1]. cbn in *. subst r w1'. by apply Hf.
Qed.

Lemma same_self {A} (f : RaftNode L Rng → M W A) (f' : RaftNode RaftLog Rng → M WM A) :
  (∀ n, linked n → same (f n) (f' (mem_node n))) → same (self ≫= f) (self ≫= f').
Proof. intros Hf w Hw. by apply Hf. Qed.

Lemma sim_self {A} (f : RaftNode L Rng → M W A) (f' : RaftNode RaftLog Rng → M WM A) :
  (∀ n, linked n → sim (f n) (f' (mem_node n))) → sim (self ≫= f) (self ≫= f').
Proof. intros Hf w Hw. by apply Hf. Qed.

Lemma same_when b (m : M W ()) m' : same m m' → same (when b m) (when b m').
Proof. destruct b; [done|]. intros _. apply same_ret. Qed.

Lemma sim_when b (m : M W ()) m' : sim m m' → sim (when b m) (when b m').
Proof. destruct b; [done|]. intros _. apply same_sim, same_ret. Qed.

Lemma same_for_each {A} (l : list A) (f : A → M W ()) f' :
  (∀ x, same (f x) (f' x)) → same (for_each l f) (for_each l f').
Proof.
  intros Hf. induction l as [|x l IH]; cbn [for_each]; [apply same_ret|]. by apply same_bind.
Qed.

(** *** Assignments, messages, random numbers *)

Lemma same_on_node f f' :
  (∀ n, mem_node (f n) = f' (mem_node n)) → (∀ n, log (f n) = log n) → (∀ n, snapshot_dir (f n) = snapshot_dir n) →
  (∀ n, term_of (f n) = term_of n) → same (on_node f) (on_node f').
Proof.
  intros Hf Hl Hd Ht w [H1 H2 H3]. split; [done|split; [cbn; by rewrite <-Hf|]].
  constructor; cbn; [by rewrite Hl|by rewrite Hd|by rewrite Ht].
Qed.

Lemma same_send d m : same (send d m) (send d m).
Proof. intros w [H1 H2 H3]. by (split; [|split]). Qed.

Lemma same_event (f : W → list ApplyEvent) f' :
  (∀ w, f w = f' (mem_world w)) → same (modify (λ w : W, w <| applied := f w |>)) (modify (λ w : WM, w <| applied := f' w |>)).
Proof. intros Hf w [H1 H2 H3]. split; [done|split; [cbn; unfold mem_world; cbn; by rewrite Hf|by constructor]]. Qed.

Lemma same_draw lo hi : same (draw lo hi) (draw lo hi).
Proof.
  intros w [H1 H2 H3]. unfold draw. cbn. destruct (uniform lo hi (rng (nd w))) as [v r]. by (split; [|split]).
Qed.

Lemma same_sm_apply p : same (sm_apply p) (sm_apply p).
Proof.
  intros w [H1 H2 H3]. unfold sm_apply. cbn. destruct (state_machine (nd w)) as [sm|]; [|by (split; [|split])].
  destruct (KVStore_apply p sm) as [[e|x] sm']; by (split; [|split]).
Qed.

Lemma same_save (t : Z) v : 0 <= t → same (save t v) (save t v).
Proof. intros Ht w [H1 H2 H3]. split; [done|split; [done|by constructor]]. Qed.

(** ** The operations *)

Ltac mirror :=
  repeat first
    [ solve [eauto with mirror]
    | apply same_ret
    | apply same_raise
    | apply same_self; intros ? ?; cbv beta zeta
    | apply same_bind; [|intros ?]
    | apply same_when
    | apply same_for_each; intros ?
    | match goal with
      | |- same (if ?b then _ else _) (if ?b' then _ else _) => change b' with b; destruct b
      end ].

#[local] Hint Resolve same_ret same_raise same_send same_draw same_sm_apply : mirror.
#[local] Hint Extern 2 (same (on_node _) (on_node _)) => apply same_on_node; intros ?; reflexivity : mirror.

Lemma same_reset b : same (RaftNode_reset_election_deadline clock b) (RaftNode_reset_election_deadline clock b).
Proof. unfold RaftNode_reset_election_deadline. mirror. Qed.
#[local] Hint Resolve same_reset : mirror.

Lemma same_step_down t : same (RaftNode_step_down clock t) (RaftNode_step_down clock t).
Proof.
  unfold RaftNode_step_down. apply same_self. intros n Hn. apply same_bind; [|intros ?; mirror].
  change (term_of (mem_node n)) with (term_of n). destruct (Z.ltb_spec (term_of n) t); cbn [when]; [|mirror].
  apply same_save. pose proof (ln_term _ Hn). lia.
Qed.
#[local] Hint Resolve same_step_down : mirror.

Lemma same_track ps : same (track_peers clock ps) (track_peers clock ps).
Proof. unfold track_peers. mirror. Qed.

Lemma same_forget : same forget_peers forget_peers.
Proof. unfold forget_peers. mirror. Qed.

Lemma same_set_peers : same set_peers set_peers.
Proof. unfold set_peers. mirror. Qed.
#[local] Hint Resolve same_track same_forget same_set_peers : mirror.

Lemma same_config b : same (apply_config clock b) (apply_config clock b).
Proof. unfold apply_config. destruct (cfg_loads _) as [[|s ss]|]; mirror. Qed.
#[local] Hint Resolve same_config : mirror.

Lemma same_entry nxt e : same (apply_entry clock nxt e) (apply_entry clock nxt e).
Proof.
  unfold apply_entry. apply same_self. intros n Hn. cbv zeta. destruct (_ && starts_with CFG _); [mirror|].
  cbn [mem_node state_machine]. destruct (state_machine n); [|mirror].
  apply same_bind; [destruct (_ && _); mirror|]. intros r. apply same_bind; [mirror|]. intros _.
  apply same_self. intros n1 _. apply same_when. by apply (same_event (λ w, applied w ++ _) (λ w, applied w ++ _)).
Qed.
#[local] Hint Resolve same_entry : mirror.

Lemma same_loop fuel : same (apply_loop clock fuel) (apply_loop clock fuel).
Proof.
  induction fuel as [|fuel IH]; cbn [apply_loop]; [mirror|]. apply same_self. intros n Hn. cbv zeta.
  change (rlog (mem_node n)) with (rlog n). cbn [mem_node applied_index commit_index state_machine].
  destruct (_ <? _); [|mirror]. destruct (RaftLog_get _ _); [mirror|]. destruct (state_machine n); mirror.
Qed.
#[local] Hint Resolve same_loop : mirror.

Lemma same_committed : same (RaftNode_apply_committed clock) (RaftNode_apply_committed clock).
Proof.
  unfold RaftNode_apply_committed. apply same_self. intros n Hn. apply same_bind; [apply same_loop|]. intros through.
  apply same_when, same_self. intros n1 Hn1. cbn [mem_node auto_snapshot_every snapshot_dir]. rewrite (ln_dir _ Hn1).
  destruct (auto_snapshot_every n1); mirror.
Qed.
#[local] Hint Resolve same_committed : mirror.

Lemma same_send_append p : same (RaftNode_send_append p) (RaftNode_send_append p).
Proof. unfold RaftNode_send_append. apply same_self. intros n Hn. cbv zeta. change (rlog (mem_node n)) with (rlog n). mirror. Qed.
#[local] Hint Resolve same_send_append : mirror.

Lemma same_send_all : same RaftNode_send_all_appends RaftNode_send_all_appends.
Proof. unfold RaftNode_send_all_appends. mirror. Qed.
#[local] Hint Resolve same_send_all : mirror.

Lemma same_advance_loop k : ∀ c, same (advance_commit_loop clock k c) (advance_commit_loop clock k c).
Proof. induction k as [|k IH]; intros c; cbn [advance_commit_loop]; mirror. Qed.
#[local] Hint Resolve same_advance_loop : mirror.

Lemma same_advance : same (RaftNode_advance_commit clock) (RaftNode_advance_commit clock).
Proof. unfold RaftNode_advance_commit. mirror. Qed.
#[local] Hint Resolve same_advance : mirror.

(** *** What leaves the log in memory alone *)

Lemma steady_self : preserves steady self.
Proof. intros w Hw. by split. Qed.

Lemma steady_on_node f :
  (∀ n, snapshot_dir (f n) = snapshot_dir n) → (∀ n, rlog (f n) = rlog n) → preserves steady (on_node f).
Proof. intros Hd Hl w Hw. split; cbn; [by rewrite Hd|apply Hl]. Qed.

Lemma steady_send d m : preserves steady (send d m).
Proof. intros w Hw. by split. Qed.

Lemma steady_event f : preserves steady (modify (λ w : WM, w <| applied := f w |>)).
Proof. intros w Hw. by split. Qed.

Lemma steady_sm_apply p : preserves steady (sm_apply p).
Proof.
  intros w Hw. unfold sm_apply. destruct (state_machine (nd w)) as [sm|]; [|by split].
  destruct (KVStore_apply p sm) as [[e|x] sm']; by split.
Qed.

#[local] Hint Resolve steady_self steady_send steady_event steady_sm_apply : walk.
#[local] Hint Extern 2 (preserves steady (on_node _)) => by apply steady_on_node : walk.

Lemma steady_config b : preserves steady (apply_config clock b).
Proof. unfold apply_config, set_peers, track_peers, forget_peers. walk. Qed.
#[local] Hint Resolve steady_config : walk.

Lemma steady_entry nxt e : preserves steady (apply_entry clock nxt e).
Proof. unfold apply_entry. walk. Qed.
#[local] Hint Resolve steady_entry : walk.

Lemma steady_loop fuel : preserves steady (apply_loop clock fuel).
Proof. induction fuel as [|fuel IH]; cbn [apply_loop]; walk. Qed.
#[local] Hint Resolve steady_loop : walk.

Lemma steady_committed : preserves steady (RaftNode_apply_committed clock).
Proof.
  unfold RaftNode_apply_committed. apply (preserves_gets _ nd). intros w0.
  apply (respects_bind _); [apply steady_loop|]. intros through w _. revert w. apply (preserves_when _).
  apply (preserves_gets _ nd). intros w. destruct (auto_snapshot_every (nd w)) as [k|]; [|apply (preserves_ret _)].
  destruct (snapshot_dir (nd w)) as [d|] eqn:Ed; [|apply (preserves_ret _)]. intros Hw. congruence.
Qed.
#[local] Hint Resolve steady_committed : walk.

Lemma steady_send_append p : preserves steady (RaftNode_send_append p).
Proof. unfold RaftNode_send_append. walk. Qed.
#[local] Hint Resolve steady_send_append : walk.

Lemma steady_send_all : preserves steady RaftNode_send_all_appends.
Proof. unfold RaftNode_send_all_appends. walk. Qed.
#[local] Hint Resolve steady_send_all : walk.

Lemma steady_advance_loop k : ∀ c, preserves steady (advance_commit_loop clock k c).
Proof. induction k as [|k IH]; intros c; cbn [advance_commit_loop]; walk. Qed.
#[local] Hint Resolve steady_advance_loop : walk.

Lemma steady_advance : preserves steady (RaftNode_advance_commit clock).
Proof. unfold RaftNode_advance_commit. walk. Qed.
#[local] Hint Resolve steady_advance : walk.

Lemma steady_dirless {A} (m : M WM A) : preserves steady m → preserves dirless m.
Proof. intros Hm w Hw. by apply Hm. Qed.

(** *** What appends *)

Lemma sim_append_entry payload (n : RaftNode L Rng) :
  0 <= term_of n →
  sim (on_log (log_append_entry (term_of n) payload wall)) (on_log (log_append_entry (term_of n) payload wall)).
Proof.
  intros Ht w [H1 H2 H3] Hfit. cbn in Hfit.
  pose proof (li_append (term_of n) payload wall (log (nd w)) H1 wall_ok Ht Hfit) as Hl.
  apply returns_inv in Hl as (e & l' & E & Eq & Hok). unfold on_log. cbn -[RaftLog_append_entry] in *.
  rewrite E. rewrite <-Eq. split; [done|split; [done|by constructor]].
Qed.

Lemma dirless_append_entry t payload : preserves dirless (on_log (log_append_entry t payload wall)).
Proof. by intros w Hw. Qed.

Lemma sim_propose payload : sim (RaftNode_propose clock wall payload) (RaftNode_propose clock wall payload).
Proof.
  unfold RaftNode_propose. apply sim_self. intros n Hn.
  change (is_leader (mem_node n)) with (is_leader n). cbn [mem_node transfer_target].
  destruct (_ || _); [by apply same_sim, same_ret|].
  apply sim_then; [by apply sim_append_entry, Hn|apply dirless_append_entry|intros e; mirror|intros e; walk].
Qed.

Lemma dirless_propose payload : preserves dirless (RaftNode_propose clock wall payload).
Proof.
  unfold RaftNode_propose. apply (preserves_gets _ nd). intros w. destruct (_ || _); [apply (preserves_ret _)|].
  apply (respects_bind _); [apply dirless_append_entry|]. intros e w1 _. set (m := _ ≫= _).
  assert (preserves dirless m) as Hm; [|apply Hm]. subst m. apply steady_dirless. walk.
Qed.

Lemma sim_become_leader : sim (RaftNode_become_leader clock wall) (RaftNode_become_leader clock wall).
Proof.
  unfold RaftNode_become_leader. apply same_then; [mirror|]. intros _. apply sim_self. intros n Hn.
  cbn [mem_node peers]. apply same_then; [mirror|]. intros _. cbn [mem_node state_machine].
  apply sim_then; [|..].
  - apply sim_when, sim_then; [apply sim_propose|apply dirless_propose|intros ?; mirror|intros ?; walk].
  - apply (preserves_when _), (preserves_bind _ _ _); [apply dirless_propose|intros _; apply (preserves_ret _)].
  - intros _. mirror.
  - intros _. walk.
Qed.

Lemma sim_maybe_win : sim (RaftNode_maybe_win clock wall) (RaftNode_maybe_win clock wall).
Proof. unfold RaftNode_maybe_win. apply sim_self. intros n Hn. apply sim_when, sim_become_leader. Qed.

Lemma sim_start_election : sim (RaftNode_start_election clock wall) (RaftNode_start_election clock wall).
Proof.
  unfold RaftNode_start_election. apply sim_self. intros n Hn.
  change (term_of (mem_node n)) with (term_of n). pose proof (ln_term _ Hn) as Ht.
  apply same_then; [apply same_save; lia|]. intros _.
  apply same_then; [mirror|]. intros _. apply same_then; [mirror|]. intros _.
  apply sim_self. intros n1 Hn1. change (RaftNode_progress (mem_node n1)) with (RaftNode_progress n1).
  destruct (RaftNode_progress n1) as [lt li]. cbn [mem_node peers].
  apply same_then; [apply same_for_each; intros p; apply same_send|]. intros _. apply sim_when, sim_become_leader.
Qed.

Lemma sim_campaign :
  sim (RaftNode_start_prevote_or_election clock wall) (RaftNode_start_prevote_or_election clock wall).
Proof.
  unfold RaftNode_start_prevote_or_election. apply sim_self. intros n Hn. cbn [mem_node use_prevote pre_candidate].
  destruct (_ && _).
  - apply same_sim, same_bind; [mirror|]. intros _. apply same_self. intros n1 Hn1.
    change (RaftNode_progress (mem_node n1)) with (RaftNode_progress n1).
    destruct (RaftNode_progress n1) as [lt li]. cbn [mem_node peers].
    apply same_bind; [apply same_for_each; intros p; apply same_send|]. intros _. mirror.
  - apply same_then; [mirror|]. intros _. apply sim_start_election.
Qed.

(** *** Timers and requests *)

Lemma same_check_quorum now : same (RaftNode_check_quorum clock now) (RaftNode_check_quorum clock now).
Proof.
  unfold RaftNode_check_quorum. apply same_self. intros n Hn. cbv zeta. cbn [mem_node old_config].
  change (term_of (mem_node n)) with (term_of n). destruct (old_config n); mirror.
Qed.
#[local] Hint Resolve same_check_quorum : mirror.

Lemma sim_tick now : sim (RaftNode_tick clock wall now) (RaftNode_tick clock wall now).
Proof.
  unfold RaftNode_tick. cbv zeta. apply sim_self. intros n Hn. change (is_leader (mem_node n)) with (is_leader n).
  destruct (is_leader n); [apply same_sim; mirror|]. apply sim_when, sim_campaign.
Qed.

Lemma same_transfer target : same (RaftNode_transfer_leadership clock target) (RaftNode_transfer_leadership clock target).
Proof. unfold RaftNode_transfer_leadership. mirror. Qed.

Lemma steady_draw lo hi : preserves steady (draw lo hi).
Proof. intros w Hw. unfold respects, draw. destruct (uniform lo hi (rng (nd w))) as [v r]. by split. Qed.
#[local] Hint Resolve steady_draw : walk.

Lemma steady_init : preserves steady (RaftNode_init clock).
Proof.
  unfold RaftNode_init. apply (preserves_bind _ _ _); [unfold RaftNode_reset_election_deadline; walk|].
  intros _. unfold RaftNode_load_snapshot_file. apply (preserves_gets _ nd). intros w.
  destruct (snapshot_dir (nd w)) as [d|] eqn:Ed; [|apply (preserves_ret _)]. intros Hw. congruence.
Qed.

Lemma steady_transfer target : preserves steady (RaftNode_transfer_leadership clock target).
Proof. unfold RaftNode_transfer_leadership. walk. Qed.

Lemma same_init : same (RaftNode_init clock) (RaftNode_init clock).
Proof.
  unfold RaftNode_init. apply same_bind; [mirror|]. intros _. unfold RaftNode_load_snapshot_file.
  apply same_self. intros n Hn. cbn [mem_node snapshot_dir]. rewrite (ln_dir _ Hn). apply same_ret.
Qed.

(** *** Messages *)

Lemma same_on_prevote t c li lt : same (RaftNode_on_prevote clock t c li lt) (RaftNode_on_prevote clock t c li lt).
Proof. unfold RaftNode_on_prevote. mirror. Qed.

Lemma sim_on_prevote_resp t f g : sim (RaftNode_on_prevote_resp clock wall t f g) (RaftNode_on_prevote_resp clock wall t f g).
Proof.
  unfold RaftNode_on_prevote_resp. apply sim_self. intros n Hn. cbn [mem_node pre_candidate prevote_term].
  destruct (_ || _); [apply same_sim, same_ret|]. apply same_then; [mirror|]. intros _. apply sim_self. intros n1 Hn1.
  change (RaftNode_has_majority (votes (mem_node n1)) (mem_node n1)) with (RaftNode_has_majority (votes n1) n1).
  destruct (RaftNode_has_majority _ _); [|apply same_sim; mirror].
  apply same_then; [mirror|]. intros _. apply sim_start_election.
Qed.

Lemma same_on_vote t c li lt : same (RaftNode_on_vote clock t c li lt) (RaftNode_on_vote clock t c li lt).
Proof.
  unfold RaftNode_on_vote. apply same_self. intros n Hn. change (term_of (mem_node n)) with (term_of n).
  destruct (_ <? _); [mirror|]. apply same_bind; [mirror|]. intros _. apply same_self. intros n1 Hn1. cbv zeta.
  apply same_bind; [|intros _; mirror]. apply same_when, same_bind; [apply same_save, Hn1|intros _; mirror].
Qed.

Lemma sim_on_vote_resp t f g : sim (RaftNode_on_vote_resp clock wall t f g) (RaftNode_on_vote_resp clock wall t f g).
Proof.
  unfold RaftNode_on_vote_resp. apply sim_self. intros n Hn. change (term_of (mem_node n)) with (term_of n).
  cbn [mem_node role]. destruct (_ || _); [apply same_sim, same_ret|]. apply sim_when, same_then; [mirror|].
  intros _. apply sim_maybe_win.
Qed.

Lemma sim_merge pi pt es :
  0 <= pi → numbered (pi + 1) es → Forall (λ e, 0 <= e_term e) es →
  sim (on_log (log_merge pi pt es wall)) (on_log (log_merge pi pt es wall)).
Proof.
  intros Hpi Hn Ht w [H1 H2 H3] Hfit.
  assert (fits (RaftLog_merge pi pt es (log_view (log (nd w)))).2) as Hfit'.
  { revert Hfit. unfold on_log. cbn -[RaftLog_merge]. by destruct (RaftLog_merge _ _ _ _). }
  pose proof (li_merge pi pt es wall (log (nd w)) H1 wall_ok Hpi Hn Ht Hfit') as Hl.
  apply returns_inv in Hl as (r & l' & E & Eq & Hok). unfold on_log. cbn -[RaftLog_merge] in *.
  rewrite E, <-Eq. split; [done|split; [done|by constructor]].
Qed.

Lemma sim_on_append t l pi pt es c :
  0 <= pi → numbered (pi + 1) es → Forall (λ e, 0 <= e_term e) es →
  sim (RaftNode_on_append clock wall t l pi pt es c) (RaftNode_on_append clock wall t l pi pt es c).
Proof.
  intros Hpi Hn Ht. unfold RaftNode_on_append. apply sim_self. intros n Hln. change (term_of (mem_node n)) with (term_of n).
  cbn [mem_node role id]. destruct (_ <? _); [apply same_sim; mirror|].
  apply same_then; [mirror|]. intros _. apply same_then; [mirror|]. intros _. apply same_then; [mirror|]. intros _.
  apply sim_then; [by apply sim_merge| | |].
  - intros w Hw. unfold on_log. cbn -[RaftLog_merge]. by destruct (RaftLog_merge _ _ _ _).
  - intros [[b x] h]. mirror.
  - intros [[b x] h]. walk.
Qed.

Lemma same_get_key (m : gmap NodeId Z) p : same (get_key m p) (get_key m p).
Proof. unfold get_key. destruct (m !! p); [apply same_ret|apply same_raise]. Qed.
#[local] Hint Resolve same_get_key : mirror.

Lemma same_on_append_resp t f s x c :
  same (RaftNode_on_append_resp clock t f s x c) (RaftNode_on_append_resp clock t f s x c).
Proof.
  unfold RaftNode_on_append_resp. apply same_self. intros n Hn. change (term_of (mem_node n)) with (term_of n).
  change (is_leader (mem_node n)) with (is_leader n). cbn [mem_node match_index next_index].
  destruct (_ || _); [mirror|]. apply same_bind; [mirror|]. intros _. destruct s; mirror.
Qed.

Lemma sim_on_timeout_now t : sim (RaftNode_on_timeout_now clock wall t) (RaftNode_on_timeout_now clock wall t).
Proof. unfold RaftNode_on_timeout_now. apply sim_self. intros n Hn. apply sim_when, sim_start_election. Qed.

(** What the handler of a message relies on. *)
Definition sensible (m : Msg) : Prop :=
  match m with
  | Append _ _ pi _ es _ => 0 <= pi ∧ numbered (pi + 1) es ∧ Forall (λ e, 0 <= e_term e) es
  | InstallSnapshot _ _ _ _ _ => False
  | _ => True
  end.

Lemma sim_handle m : sensible m → sim (RaftNode_handle clock wall m) (RaftNode_handle clock wall m).
Proof.
  intros Hm. destruct m; cbn [RaftNode_handle].
  - apply same_sim, same_on_prevote.
  - apply sim_on_prevote_resp.
  - apply same_sim, same_on_vote.
  - apply sim_on_vote_resp.
  - by apply sim_on_append; apply Hm.
  - apply same_sim, same_on_append_resp.
  - done.
  - apply sim_on_timeout_now.
Qed.
End simulation.
