(* ===== verification/Network.v ===== *)
(** * A cluster of Raft nodes

    Nodes exchange messages through a network that may lose, duplicate, delay and
    reorder them; timers fire at any time; nodes restart with the term and vote of
    their state file.  This is the environment of [SimCluster] (pylog/sim.py) and of
    the TCP server, without their timing.  A cluster implements the abstract election
    protocol, hence has at most one leader per term. *)
From stdpp Require Import relations.
From S2P Require Import Prelude Bytes RaftLog KVStore RaftInterfaces RaftNode ElectionSpec NodeFacts NodeElection.
Local Open Scope Z_scope.

Section network.
Context {L Rng : Type} `{RaftLogLaws L} `{Random Rng}.
Abbreviation Node := (RaftNode L Rng).
Abbreviation NodeM := (M (World L Rng)).

(** The nodes, and every message ever sent with its destination. *)
Record Net := mkNet {
  nodes : gmap NodeId Node;
  soup : list (NodeId * Msg);
}.

(** The network after node [i], in state [n], ran [op]. *)
Definition after {A} (net : Net) (i : NodeId) (n : Node) (op : NodeM A) : Net :=
  let w := (op (mkWorld _ _ n [] [])).2 in
  mkNet (<[i := nd w]> (nodes net)) (soup net ++ sent w).

(** A restarted node: a new object with the term and vote [p] read from its state
    file and the same members, with some log. *)
Definition restarted (n : Node) (p : DurableState) (ids : list NodeId) (r : Rng) (sm : option KVStore)
    (timeout : Z * Z) (heartbeat batch : Z) (l : L) : Node :=
  RaftNode_new (id n) ids r p sm timeout heartbeat None batch false true l None None.

Inductive net_step (C : gset NodeId) : Net → Net → Prop :=
  | net_deliver net i n m clock wall :
      nodes net !! i = Some n → (i, m) ∈ soup net →
      net_step C net (after net i n (RaftNode_handle clock wall m))
  | net_tick net i n now clock wall :
      nodes net !! i = Some n →
      net_step C net (after net i n (RaftNode_tick clock wall now))
  | net_propose net i n payload clock wall :
      nodes net !! i = Some n → plain payload →
      net_step C net (after net i n (RaftNode_propose clock wall payload))
  | net_transfer net i n target clock :
      nodes net !! i = Some n →
      net_step C net (after net i n (RaftNode_transfer_leadership clock target))
  | net_restart net i n p ids r sm timeout heartbeat batch l clock :
      nodes net !! i = Some n → ds_path (persister n) = true →
      DurableState_init true (ds_file (persister n)) = inr p →
      NoDup ids → list_to_set ids = C → plain_entries (entries (log_view l)) →
      net_step C net (after net i (restarted n p ids r sm timeout heartbeat batch l)
                        (RaftNode_init clock)).

Record net_init (C : gset NodeId) (net : Net) : Prop := {
  ni_dom : dom (nodes net) = C;
  ni_soup : soup net = [];
  ni_nodes i n : nodes net !! i = Some n →
    settled C n ∧ id n = i ∧ role n = FOLLOWER ∧ voted_for (persister n) = None;
}.

Definition net_reachable (C : gset NodeId) (net : Net) : Prop :=
  ∃ net0, net_init C net0 ∧ rtc (net_step C) net0 net.

(** ** Invariant *)

Record net_ok (C : gset NodeId) (net : Net) : Prop := {
  no_nodes i n : nodes net !! i = Some n → settled C n ∧ id n = i;
  no_soup d m : (d, m) ∈ soup net → plain_msg m;
}.

Definition cluster_of (net : Net) : Cluster := mkCluster (server_of <$> nodes net) (soup net).

(** ** Lifting a node's actions to the cluster *)

Lemma action_mono C i (P Q : Z → NodeId → Prop) x y :
  (∀ t v, P t v → Q t v) → action C i P x y → action C i Q x y.
Proof. intros HPQ Ha. destruct Ha; constructor; auto. Qed.

Lemma action_out C i P s o s' o' :
  action C i P (s, o) (s', o') → ∃ out, o' = o ++ out ∧ action C i P (s, []) (s', out).
Proof.
  remember (s, o) as x eqn:Ex. remember (s', o') as y eqn:Ey.
  intros Ha; destruct Ha; injection Ex as -> ->; injection Ey as <- <-.
  1: { exists [(d, m)]. split; [done|]. by apply (act_send C i P s []). }
  all: exists []; rewrite app_nil_r; split; [done|by constructor].
Qed.

Lemma lift_actions C i old x y :
  rtc (action C i (vote_heard old i)) x y → ∀ c,
  servers c !! i = Some x.1 → old ⊆ wire c →
  ∃ out, y.2 = x.2 ++ out ∧
    rtc (cluster_step C) c (mkCluster (<[i := y.1]> (servers c)) (wire c ++ out)).
Proof.
  induction 1 as [[s o]|[s o] [s1 o1] [s2 o2] Hact _ IH]; intros c Hi Hsub; cbn [fst snd] in *.
  - exists []. rewrite !app_nil_r, insert_id by done. split; [done|]. destruct c. apply rtc_refl.
  - destruct (action_out _ _ _ _ _ _ _ Hact) as (out1 & -> & Ha).
    destruct (IH (mkCluster (<[i := s1]> (servers c)) (wire c ++ out1))) as (out2 & -> & Hrest); cbn [servers wire].
    { by rewrite lookup_insert_eq. }
    { intros x Hx. apply elem_of_app. left. by apply Hsub. }
    exists (out1 ++ out2). rewrite app_assoc. split; [done|]. eapply rtc_l.
    + apply (cluster_action C c i s s1 out1); [done|]. eapply action_mono; [|exact Ha].
      intros t v Hv. by apply Hsub.
    + cbn [servers wire] in Hrest. by rewrite insert_insert_eq, <-app_assoc in Hrest.
Qed.

(** An operation that implements election actions takes the cluster along. *)
Lemma op_refines {A} C net i n (op : NodeM A) :
  net_ok C net → nodes net !! i = Some n →
  respects (implements C (vote_heard (soup net) i)) (mkWorld _ _ n [] []) op →
  net_ok C (after net i n op) ∧ rtc (cluster_step C) (cluster_of net) (cluster_of (after net i n op)).
Proof.
  intros ok Hi Hop. destruct (no_nodes _ _ ok i n Hi) as [Hset Hid]. unfold after.
  set (w := (op (mkWorld _ _ n [] [])).2) in *. unfold respects in Hop. fold w in Hop.
  destruct (Hop Hset) as (Hset' & Hid' & Hact & new & Enew & Hnew). cbn in Hid', Hact, Enew.
  rewrite Hid in Hact, Hid'. split.
  - constructor; cbn.
    + intros j n' [[<- <-]|[_ Hj]]%lookup_insert_Some; [done|by apply (no_nodes _ _ ok)].
    + intros d m [Hd|Hd]%elem_of_app; [by eapply (no_soup _ _ ok)|].
      rewrite Enew in Hd. rewrite Forall_forall in Hnew. by apply (Hnew (d, m)).
  - destruct (lift_actions C i (soup net) _ _ Hact (cluster_of net)) as (out & Eout & Hsteps).
    { cbn. by rewrite lookup_fmap, Hi. }
    { done. }
    cbn in Eout. unfold cluster_of in *. cbn in *. rewrite fmap_insert, Eout. exact Hsteps.
Qed.

(** ** Restarts *)

Lemma new_settled C (i : NodeId) ids r p sm timeout heartbeat qc batch cb l :
  i ∈ C → NoDup ids → list_to_set ids = C → plain_entries (entries (log_view l)) → synced p →
  settled C (RaftNode_new (Rng:=Rng) i ids r p sm timeout heartbeat qc batch false cb l None None).
Proof.
  intros Hi Hnd Hids Hl Hp.
  assert (list_to_set (filter (λ p, p ≠ i) ids) = C ∖ {[i]}) as Hps.
  { apply set_eq. intros x. rewrite elem_of_list_to_set, list_elem_of_filter, elem_of_difference.
    rewrite <-Hids, elem_of_list_to_set, elem_of_singleton. tauto. }
  constructor; try done; cbn.
  - rewrite Hps. apply set_eq. intros x. rewrite elem_of_union, elem_of_difference, !elem_of_singleton.
    destruct (decide (x = i)) as [->|]; tauto.
  - by apply NoDup_filter.
Qed.

(** A node replaced by a new object with its term and vote. *)
Lemma replace_refines C net i n n' :
  net_ok C net → nodes net !! i = Some n → settled C n' → id n' = i →
  server_of n' = mkServer (term_of n) (voted_for (persister n)) FOLLOWER ∅ →
  net_ok C (mkNet (<[i := n']> (nodes net)) (soup net)) ∧
  rtc (cluster_step C) (cluster_of net) (cluster_of (mkNet (<[i := n']> (nodes net)) (soup net))).
Proof.
  intros ok Hi Hset' Hid Hserver. split.
  - constructor; cbn; [|by apply ok].
    intros j m [[<- <-]|[_ Hj]]%lookup_insert_Some; [by split|by apply (no_nodes _ _ ok)].
  - unfold cluster_of. cbn. rewrite fmap_insert, Hserver. apply rtc_once.
    rewrite <-(app_nil_r (soup net)) at 2.
    refine (cluster_action C (mkCluster (server_of <$> nodes net) (soup net)) i (server_of n) _ [] _ _).
    + cbn. by rewrite lookup_fmap, Hi.
    + apply (act_restart C i _ (server_of n) []).
Qed.

Lemma restart_refines C net i n p ids r sm timeout heartbeat batch l :
  net_ok C net → nodes net !! i = Some n → ds_path (persister n) = true →
  DurableState_init true (ds_file (persister n)) = inr p →
  NoDup ids → list_to_set ids = C → plain_entries (entries (log_view l)) →
  let n' := restarted n p ids r sm timeout heartbeat batch l in
  net_ok C (mkNet (<[i := n']> (nodes net)) (soup net)) ∧
  rtc (cluster_step C) (cluster_of net) (cluster_of (mkNet (<[i := n']> (nodes net)) (soup net))).
Proof.
  intros ok Hi Hpath Hp Hnd Hids Hl n'. destruct (no_nodes _ _ ok i n Hi) as [Hset Hid].
  pose proof (st_synced _ _ Hset Hpath) as Hsync. rewrite Hpath in Hsync.
  rewrite Hsync in Hp. injection Hp as <-.
  apply (replace_refines C net i n); [done..| |exact Hid|done].
  apply new_settled; [apply (st_me _ _ Hset)|done..|]. apply (st_synced _ _ Hset).
Qed.

(** ** Refinement *)

Lemma implements_init C P clock : preserves (implements C P) (RaftNode_init (L:=L) (Rng:=Rng) clock).
Proof. intros w. apply implements_silent, silent_init. Qed.

Lemma net_step_refines C net net' :
  net_ok C net → net_step C net net' →
  net_ok C net' ∧ rtc (cluster_step C) (cluster_of net) (cluster_of net').
Proof.
  intros ok Hstep. destruct Hstep as [net i n m clock wall Hi Hm|net i n now clock wall Hi
    |net i n payload clock wall Hi Hp|net i n target clock Hi
    |net i n p ids r sm timeout heartbeat batch l clock Hi Hpath Hp Hnd Hids Hl].
  - apply op_refines; [done..|]. apply implements_handle; [by eapply (no_soup _ _ ok)|].
    intros t v ->. exact Hm.
  - apply op_refines; [done..|]. apply implements_tick.
  - apply op_refines; [done..|]. by apply implements_propose.
  - apply op_refines; [done..|]. apply implements_transfer.
  - destruct (restart_refines C net i n p ids r sm timeout heartbeat batch l) as [ok' Hs]; [done..|].
    set (n' := restarted n p ids r sm timeout heartbeat batch l) in *.
    destruct (op_refines C (mkNet (<[i := n']> (nodes net)) (soup net)) i n' (RaftNode_init clock)) as [ok2 Hs2].
    + done.
    + cbn. by rewrite lookup_insert_eq.
    + apply implements_init.
    + unfold after in *. cbn [nodes soup] in *. rewrite insert_insert_eq in *. split; [done|by etrans].
Qed.

Lemma net_refines C net : net_reachable C net → net_ok C net ∧ cluster_reachable C (cluster_of net).
Proof.
  intros (net0 & [Hd Hs Hn] & Hsteps).
  assert (net_ok C net0) as ok0.
  { constructor; [intros i n Hi; destruct (Hn i n Hi); tauto|]. rewrite Hs. by intros d m ?%not_elem_of_nil. }
  assert (net_ok C net ∧ rtc (cluster_step C) (cluster_of net0) (cluster_of net)) as [ok Hr].
  { clear Hd Hs Hn. induction Hsteps as [x|x y z Hxy _ IH]; [split; [done|apply rtc_refl]|].
    destruct (net_step_refines _ _ _ ok0 Hxy) as [ok1 Hfst]. destruct (IH ok1) as [ok2 Hsnd].
    split; [done|by etrans]. }
  split; [done|]. exists (cluster_of net0). split; [|done]. split_and!; [by cbn; rewrite dom_fmap_L|done|].
  intros i s Hi. cbn in Hi. rewrite lookup_fmap in Hi. destruct (nodes net0 !! i) as [n|] eqn:E; [|done].
  injection Hi as <-. destruct (Hn i n E) as (_ & _ & Hr' & Hv). by rewrite <-Hr', <-Hv.
Qed.
End network.
Arguments Net : clear implicits.
