(* ===== verification/SimFacts.v ===== *)
(** * The simulated cluster is a network of nodes

    The simulator refines [Network]: its queue holds messages that were sent, its
    event loop delivers them and fires timers, and a restart keeps a node's term and
    vote.  The history of messages it throws away is the only thing added. *)
From stdpp Require Import relations.
From S2P Require Import Prelude Bytes Unicode RaftLog KVStore RaftInterfaces RaftNode StateFiles ElectionSpec NodeFacts NodeElection NodeMonotone Network Sim.
Local Open Scope Z_scope.

Section sim_facts.
Context {Rng : Type} `{Random Rng} `{RandomFork Rng}.
Context (C : gset NodeId).
Abbreviation Node := (RaftNode RaftLog Rng).
Abbreviation W := (World RaftLog Rng).
Abbreviation Cluster := (SimCluster Rng).

(** [hist] is every message sent so far. *)
Record sim_ok (hist : list (NodeId * Msg)) (s : Cluster) : Prop := {
  si_nodup : NoDup (node_ids s);
  si_ids : list_to_set (node_ids s) = C;
  si_prevote : sim_prevote s = false;
  si_path i n : sim_nodes s !! i = Some n → ds_path (persister n) = state_dir s;
  si_ok : net_ok C (mkNet (sim_nodes s) hist);
  si_reachable : cluster_reachable C (cluster_of (mkNet (sim_nodes s) hist));
  si_queue f : f ∈ queue s → (fl_dest f, fl_msg f) ∈ hist;
}.

Definition sim_inv (s : Cluster) : Prop := ∃ hist, sim_ok hist s.

(** What the invariant does not depend on. *)
Lemma sim_ok_frame hist s s' :
  (node_ids s', sim_prevote s', state_dir s', sim_nodes s') = (node_ids s, sim_prevote s, state_dir s, sim_nodes s) →
  (∀ f, f ∈ queue s' → f ∈ queue s) → sim_ok hist s → sim_ok hist s'.
Proof.
  intros Ek Hq [Hnd Hids Hpv Hpath ok Hr Hsub]. injection Ek as E1 E2 E3 E4.
  constructor; rewrite ?E1, ?E2, ?E3, ?E4; [done..|]. intros f Hf. by apply Hsub, Hq.
Qed.

Lemma sim_inv_frame s s' :
  (node_ids s', sim_prevote s', state_dir s', sim_nodes s') = (node_ids s, sim_prevote s, state_dir s, sim_nodes s) →
  (∀ f, f ∈ queue s' → f ∈ queue s) → sim_inv s → sim_inv s'.
Proof. intros Ek Hq [hist ok]. exists hist. by apply (sim_ok_frame hist s). Qed.

(** ** Sending *)

Lemma elem_of_heappush f g q : f ∈ heappush g q ↔ f = g ∨ f ∈ q.
Proof.
  induction q as [|h q IH]; cbn [heappush]; [by rewrite list_elem_of_singleton, elem_of_nil; tauto|].
  destruct (before g h); rewrite !elem_of_cons; [done|]. rewrite IH. tauto.
Qed.

(** Queueing messages touches the queue and the sequence number only. *)
Lemma sends_run ms : ∀ s : Cluster, ∃ q n,
  for_each ms (λ dm, SimTransport_send dm.1 dm.2) s = (inr (), s <| sim_seq := n |> <| queue := q |>) ∧
  ∀ f, f ∈ q → f ∈ queue s ∨ (fl_dest f, fl_msg f) ∈ ms.
Proof.
  induction ms as [|[d m] ms IH]; intros s.
  - exists (queue s), (sim_seq s). split; [by destruct s|tauto].
  - cbn [for_each]. erewrite bind_ok; [|reflexivity].
    match goal with |- context [for_each ms _ ?s1] => destruct (IH s1) as (q & n & E & Hq) end. rewrite E. exists q, n. split; [reflexivity|].
    intros f Hf. destruct (Hq f Hf) as [[->|Hin]%elem_of_heappush|Hin]; cbn; [right; left|by left|by do 2 right].
Qed.

(** A method of a node, seen from the cluster. *)
Lemma on_sim_node_run {A} i (op : Z → M W A) (s : Cluster) n :
  sim_nodes s !! i = Some n →
  let w := (op (sim_clock s) (mkWorld _ _ n [] [])).2 in
  ∃ q m, (on_sim_node i op s).2
    = s <| sim_nodes := <[i := nd w]> (sim_nodes s) |> <| sim_applied := sim_applied s ++ applied w |>
        <| sim_seq := m |> <| queue := q |> ∧
  ∀ f, f ∈ q → f ∈ queue s ∨ (fl_dest f, fl_msg f) ∈ sent w.
Proof.
  intros Hi. unfold on_sim_node. rewrite Hi. destruct (op _ _) as [r w]. cbn [snd].
  match goal with |- context [(_ ≫= _) ?s1] => destruct (sends_run (sent w) s1) as (q & m & E & Hq) end. erewrite bind_ok; [|exact E].
  exists q, m. split; [reflexivity|]. exact Hq.
Qed.

(** An operation of a node that implements election actions keeps the invariant. *)
Lemma sim_inv_node {A} hist i (op : Z → M W A) (s : Cluster) :
  sim_ok hist s →
  preserves (implements C (vote_heard hist i)) (op (sim_clock s)) →
  preserves keeps (op (sim_clock s)) →
  sim_inv (on_sim_node i op s).2.
Proof.
  intros inv Hop Hkeep. destruct (sim_nodes s !! i) as [n|] eqn:Hi; [|by exists hist; unfold on_sim_node; rewrite Hi].
  destruct (on_sim_node_run i op s n Hi) as (q & m & -> & Hq).
  destruct inv as [Hnd Hids Hpv Hpath ok Hr Hsub].
  destruct (op_refines C _ i n (op (sim_clock s)) ok Hi (Hop _)) as [ok' Hsteps].
  exists (soup (after (mkNet (sim_nodes s) hist) i n (op (sim_clock s)))).
  constructor; [done..| |exact ok'| |].
  - cbn. intros j n' [[<- <-]|[_ Hj]]%lookup_insert_Some; [|by eapply Hpath].
    rewrite <-(Hpath _ _ Hi). apply (k_path _ _ (Hkeep (mkWorld _ _ n [] []))).
  - destruct Hr as (c0 & Hinit & Hc0). exists c0. split; [done|]. etrans; [exact Hc0|exact Hsteps].
  - intros f [Hf|Hf]%Hq; apply elem_of_app; [left; by apply Hsub|by right].
Qed.

(** ** Building nodes *)

Lemma silent_adopt_log saved clock :
  plain_entries (entries saved) → preserves silent (adopt_log (Rng:=Rng) saved clock).
Proof.
  intros Hl. unfold adopt_log. apply (preserves_bind _ _ _); [apply silent_init|intros _].
  apply (preserves_bind _ _ _); [intros w _; split; [exact Hl|by split]|intros _].
  apply (preserves_bind _ _ _); [by apply silent_on_node|intros _].
  apply (preserves_bind _ _ _); [by apply silent_on_node|intros _]. apply silent_apply_committed.
Qed.

(** What building a node leaves alone, whatever it raises. *)
Definition sim_frame (s s' : Cluster) : Prop :=
  (node_ids s', sim_prevote s', state_dir s', sim_nodes s', queue s')
  = (node_ids s, sim_prevote s, state_dir s, sim_nodes s, queue s).

Lemma build_node_run i saved file (s : Cluster) :
  plain_entries (entries saved) →
  sim_frame s (SimCluster_build_node i saved file s).2 ∧
  ∀ n, (SimCluster_build_node i saved file s).1 = inr n →
    ∃ r p, DurableState_init (state_dir s) file = inr p ∧
      key n = key (build_node s i r p) ∧ plain_node n.
Proof.
  intros Hl. unfold SimCluster_build_node. destruct (fork (sim_rng s)) as [r r']. cbv zeta.
  set (s1 := s <| sim_rng := _ |> <| half_built := _ |>). change (state_dir s1) with (state_dir s).
  assert (sim_frame s s1) as Hs1 by reflexivity. change (build_node s1 i) with (build_node s i). clearbody s1.
  destruct (DurableState_init (state_dir s) file) as [e|p] eqn:Ep.
  { split; [exact Hs1|]. intros n [=]. }
  pose proof (silent_adopt_log saved (sim_clock s1) Hl (mkWorld _ _ (build_node s i r p) [] [])) as Hs.
  unfold respects in Hs. destruct (adopt_log _ _ _) as [res w]. cbn [snd nd sent] in Hs.
  destruct Hs as (Hp & Hk & Hsent); [by constructor|]. rewrite Hsent. cbn [for_each].
  destruct res as [e|[]]; (split; [exact Hs1|]); intros n E; [discriminate|].
  injection E as <-. by exists r, p.
Qed.

(** The new node of a restart. *)
Lemma rebuilt_settled (s : Cluster) i r p (n old : Node) :
  sim_inv s → sim_nodes s !! i = Some old →
  DurableState_init (state_dir s) (ds_file (persister old)) = inr p →
  key n = key (build_node s i r p) → plain_node n →
  let n' := n <| persister := mkDS (ds_path (persister n)) (ds_file (persister n))
                  (current_term (persister old)) (voted_for (persister old)) |> in
  settled C n' ∧ id n' = i ∧ server_of n' = mkServer (term_of old) (voted_for (persister old)) FOLLOWER ∅ ∧
  ds_path (persister n') = state_dir s.
Proof.
  intros (hist & [Hnd Hids Hpv Hpath ok _ _]) Hi Hp Hk Hpl n'.
  destruct (no_nodes _ _ ok i old Hi) as [Hset Hido].
  assert (ds_path p = state_dir s) as Hpp.
  { unfold DurableState_init, DurableState_load in Hp. repeat case_match; by simplify_eq. }
  assert (synced p) as Hsy.
  { unfold synced. intros Ht. rewrite Hpp in Ht. rewrite Ht in Hp.
    rewrite <-(Hpath _ _ Hi) in Ht. pose proof (st_synced _ _ Hset Ht) as E. rewrite Ht, Hp in E.
    injection E as ->. by apply (st_synced _ _ Hset). }
  assert (i ∈ C) as HiC.
  { rewrite <-Hido. apply (st_me _ _ Hset). }
  assert (settled C (build_node s i r p)) as Hnew.
  { unfold build_node. rewrite Hpv. apply new_settled; [done..|by constructor|done]. }
  assert (persister n = p) as Hpn by (unfold key in Hk; by injection Hk).
  assert (synced (persister n')) as Hsn.
  { unfold synced. cbn. rewrite Hpn, Hpp. intros Ht. rewrite Ht in Hp.
    rewrite <-(Hpath _ _ Hi) in Ht. pose proof (st_synced _ _ Hset Ht) as E. rewrite Ht, Hp in E. injection E as ->.
    rewrite <-Hpp, Ht, Hp. f_equal. rewrite <-Ht. by destruct (persister old). }
  pose proof (settled_key _ _ _ Hk Hpl Hnew) as Hn. split_and!.
  - apply (settled_by C n); [reflexivity|apply Hn|exact Hpl|exact Hsn|exact Hn].
  - unfold key in Hk. injection Hk. intros; subst; done.
  - unfold key in Hk. injection Hk as _ _ _ _ _ _ _ Er Ev. unfold server_of. cbn. by rewrite Er, Ev.
  - cbn. by rewrite Hpn.
Qed.

Lemma sim_inv_install (s s1 : Cluster) i n old :
  sim_inv s → sim_frame s s1 → sim_nodes s !! i = Some old → settled C n → id n = i →
  server_of n = mkServer (term_of old) (voted_for (persister old)) FOLLOWER ∅ →
  ds_path (persister n) = state_dir s → sim_inv (install i n s1).2.
Proof.
  intros (hist & [Hnd Hids Hpv Hpath ok Hr Hsub]) Hf Hi Hset Hid Hserver Hp.
  unfold sim_frame in Hf. injection Hf as E1 E2 E3 E4 E5.
  destruct (replace_refines C _ i old n ok Hi Hset Hid Hserver) as [ok' Hsteps].
  exists hist. constructor; cbn; rewrite ?E1, ?E2, ?E3, ?E4, ?E5; [done..| |done| |done].
  - intros j m [[<- <-]|[_ Hj]]%lookup_insert_Some; [done|by eapply Hpath].
  - destruct Hr as (c0 & Hinit & Hc0). exists c0. split; [done|by etrans].
Qed.

Lemma sim_inv_restart i (s : Cluster) : sim_inv s → sim_inv (SimCluster_restart i s).2.
Proof.
  intros inv. unfold SimCluster_restart. erewrite bind_ok; [|reflexivity].
  set (s0 := s <| crashed := _ |>).
  assert (sim_inv s0) as inv0 by (by apply (sim_inv_frame s)). clearbody s0. clear s inv. rename s0 into s, inv0 into inv.
  erewrite bind_ok; [|reflexivity]. destruct (sim_nodes s !! i) as [old|] eqn:Hi; [|done].
  assert (settled C old) as Hset.
  { destruct inv as (hist & inv). by destruct (no_nodes _ _ (si_ok _ _ inv) i old Hi). }
  destruct (build_node_run i (log old) (ds_file (persister old)) s) as [Hf Hn]; [apply Hset|].
  destruct (SimCluster_build_node i (log old) (ds_file (persister old)) s) as [[e|n] s1] eqn:E.
  - erewrite bind_exn; [|exact E]. cbn [snd] in *. unfold sim_frame in Hf. injection Hf as E1 E2 E3 E4 E5.
    apply (sim_inv_frame s); [congruence|by rewrite E5|done].
  - erewrite bind_ok; [|exact E]. destruct (Hn n eq_refl) as (r & p & Hp & Hk & Hpl).
    destruct (rebuilt_settled s i r p n old) as (Hset' & Hid & Hserver & Hpath); [done..|].
    by eapply sim_inv_install.
Qed.

(** ** The event loop *)

(** What follows the node's operation does not touch the cluster. *)
Lemma after_sim_node {A B} i (op : Z → M W A) (x : B) (s : Cluster) :
  ((_ ← on_sim_node i op; mret x) s).2 = (on_sim_node i op s).2.
Proof. unfold mbind, M_bind. by destruct (on_sim_node _ _ _) as [[e|y] s2]. Qed.

Lemma sim_inv_fire i due (s : Cluster) : sim_inv s → sim_inv (fire i due s).2.
Proof.
  intros (hist & inv). unfold fire. erewrite bind_ok; [|reflexivity]. rewrite after_sim_node.
  apply (sim_inv_node hist); [by apply (sim_ok_frame hist s)|apply implements_tick|apply keeps_tick].
Qed.

Lemma sim_inv_deliver f q (s : Cluster) :
  sim_inv s → queue s = f :: q → sim_inv (deliver f q s).2.
Proof.
  intros (hist & inv) Hq. unfold deliver. erewrite bind_ok; [|reflexivity].
  set (s1 := s <| queue := _ |> <| sim_clock := _ |>).
  assert (sim_ok hist s1) as inv1.
  { apply (sim_ok_frame hist s); [reflexivity| |done]. intros g Hg. rewrite Hq. by right. }
  assert ((fl_dest f, fl_msg f) ∈ hist) as Hin by (apply (si_queue _ _ inv); rewrite Hq; left).
  erewrite bind_ok; [|reflexivity]. do 3 (case_match; [by exists hist|]). rewrite after_sim_node.
  apply (sim_inv_node hist); [done| |apply keeps_handle].
  apply implements_handle; [by eapply (no_soup _ _ (si_ok _ _ inv))|]. intros t v Em. rewrite Em in Hin. exact Hin.
Qed.

Lemma sim_inv_step (s : Cluster) : sim_inv s → sim_inv (SimCluster_step s).2.
Proof.
  intros inv. unfold SimCluster_step. erewrite bind_ok; [|reflexivity].
  destruct (earliest s (live_nodes s)) as [[i due]|], (queue s) as [|f q] eqn:Eq; [| |done|].
  - by apply sim_inv_fire.
  - destruct (_ <=? _); [by apply sim_inv_fire|by apply sim_inv_deliver].
  - by apply sim_inv_deliver.
Qed.

Lemma sim_inv_propose i payload (s : Cluster) :
  plain payload → sim_inv s → sim_inv (SimCluster_propose i payload s).2.
Proof.
  intros Hp (hist & inv). apply (sim_inv_node hist); [done|by apply implements_propose|apply keeps_propose].
Qed.

(** ** Construction *)

(** A node built over an empty log and no snapshots is built without raising. *)
Lemma adopt_empty_run clock (w : W) :
  snapshot_dir (nd w) = None → ∃ w', adopt_log RaftLog_init clock w = (inr (), w').
Proof.
  intros Hd. unfold adopt_log, RaftNode_init. destruct (reset_exact clock true w) as (x & d & r & E).
  set (w1 := w <| nd := _ |>) in E. assert (snapshot_dir (nd w1) = None) as Hd1 by exact Hd. clearbody w1. erewrite bind_ok; [|erewrite bind_ok; [|exact E]].
  2:{ unfold RaftNode_load_snapshot_file. erewrite bind_ok; [|reflexivity]. rewrite Hd1. reflexivity. }
  erewrite bind_ok; [|reflexivity]. erewrite bind_ok; [|reflexivity]. erewrite bind_ok; [|reflexivity].
  match goal with |- context [RaftNode_apply_committed _ ?w] => set (w2 := w) end.
  assert (snapshot_dir (nd w2) = None ∧ commit_index (nd w2) = 0 ∧ applied_index (nd w2) = 0) as (Hd2 & Hc & Ha) by done.
  clearbody w2. exists w2. unfold RaftNode_apply_committed. erewrite bind_ok; [|reflexivity].
  rewrite Hc, Ha. erewrite bind_ok; [|reflexivity]. cbn [when]. erewrite bind_ok; [|reflexivity].
  rewrite Hd2. by destruct (auto_snapshot_every _).
Qed.

(** The cluster under construction: the nodes [ids] are built. *)
Record starting (ids : list NodeId) (s : Cluster) : Prop := {
  sg_nodup : NoDup (node_ids s);
  sg_ids : list_to_set (node_ids s) = C;
  sg_prevote : sim_prevote s = false;
  sg_dom : dom (sim_nodes s) = list_to_set ids;
  sg_queue : queue s = [];
  sg_nodes i n : sim_nodes s !! i = Some n →
    settled C n ∧ id n = i ∧ role n = FOLLOWER ∧ voted_for (persister n) = None ∧
    ds_path (persister n) = state_dir s;
}.

Lemma fresh_state b : DurableState_init b None = inr (mkDS b None 0 None).
Proof. by destruct b. Qed.

Lemma init_node_run ids i (s : Cluster) :
  starting ids s → i ∈ C →
  ∃ s', (n ← SimCluster_build_node i RaftLog_init None; install i n) s = (inr (), s') ∧
    starting (i :: ids) s' ∧ node_ids s' = node_ids s.
Proof.
  intros [Hnd Hids Hpv Hdom Hq Hn] HiC.
  destruct (build_node_run i RaftLog_init None s) as [Hf Hb]; [by constructor|].
  assert (∃ n, (SimCluster_build_node i RaftLog_init None s).1 = inr n) as [n En].
  { unfold SimCluster_build_node. destruct (fork (sim_rng s)) as [r r']. cbv zeta.
    rewrite fresh_state.
    match goal with |- context [adopt_log _ ?c ?w] => destruct (adopt_empty_run c w) as [w' E] end; [done|].
    rewrite E. match goal with |- context [(_ ≫= _) ?s1] => destruct (sends_run (sent w') s1) as (q & m & E2 & _) end.
    erewrite bind_ok; [|exact E2]. eexists. reflexivity. }
  destruct (Hb n En) as (r & p & Hp & Hk & Hpl).
  destruct (SimCluster_build_node i RaftLog_init None s) as [res s1] eqn:E. cbn [fst snd] in *. subst res.
  erewrite bind_ok; [|exact E]. eexists. split; [reflexivity|].
  unfold sim_frame in Hf. injection Hf as E1 E2 E3 E4 E5. split; [|exact E1].
  assert (p = mkDS (state_dir s) None 0 None) as ->.
  { rewrite fresh_state in Hp. by injection Hp as <-. }
  assert (settled C (build_node s i r (mkDS (state_dir s) None 0 None))) as Hnew.
  { unfold build_node. rewrite Hpv. apply new_settled; [done..|by constructor|].
    unfold synced. cbn. by intros ->. }
  constructor; cbn; rewrite ?E1, ?E2, ?E3, ?E4, ?E5; [done..| |done|].
  - by rewrite dom_insert_L, Hdom.
  - intros j m [[<- <-]|[_ Hj]]%lookup_insert_Some; [|by apply Hn].
    split; [by eapply settled_key|]. unfold key in Hk. injection Hk as -> _ _ _ _ _ -> -> _. done.
Qed.

Lemma init_nodes_run todo : ∀ ids (s : Cluster),
  starting ids s → (∀ i, i ∈ todo → i ∈ C) →
  ∃ s', for_each todo (λ i, n ← SimCluster_build_node i RaftLog_init None; install i n) s = (inr (), s') ∧
    starting (rev_append todo ids) s' .
Proof.
  induction todo as [|i todo IH]; intros ids s Hs HC; [by exists s|].
  destruct (init_node_run ids i s Hs) as (s1 & E & Hs1 & _); [apply HC; left|].
  destruct (IH (i :: ids) s1 Hs1) as (s2 & E2 & Hs2); [intros j Hj; apply HC; by right|].
  exists s2. split; [|done]. cbn [for_each]. erewrite bind_ok; [exact E2|exact E].
Qed.

(** The constructor of the cluster does not raise, and establishes the invariant. *)
Lemma sim_init_run ids r timeout heartbeat latency dir :
  NoDup ids → list_to_set ids = C →
  ∃ s, SimCluster_init (SimCluster_new ids r timeout heartbeat latency dir false) = (inr (), s) ∧ sim_inv s.
Proof.
  intros Hnd Hids. unfold SimCluster_init. erewrite bind_ok; [|reflexivity].
  set (s0 := SimCluster_new _ _ _ _ _ _ _). change (node_ids s0) with ids.
  destruct (init_nodes_run ids [] s0) as (s & E & Hs).
  { constructor; [done..|]. intros i n. cbn. by rewrite lookup_empty. }
  { intros i Hi. rewrite <-Hids. by apply elem_of_list_to_set. }
  exists s. split; [exact E|]. destruct Hs as [Hnd' Hids' Hpv Hdom Hq Hn].
  assert (dom (sim_nodes s) = C) as HdC.
  { rewrite Hdom, <-Hids. rewrite rev_append_rev, app_nil_r. apply set_eq. intros x.
    rewrite !elem_of_list_to_set, !list_elem_of_In. symmetry. apply in_rev. }
  exists []. constructor; [done..| | | |].
  - intros i n Hi. by destruct (Hn i n Hi) as (_ & _ & _ & _ & ?).
  - constructor; cbn; [|by intros d m ?%not_elem_of_nil]. intros i n Hi. destruct (Hn i n Hi) as (? & ? & _). done.
  - exists (cluster_of (mkNet (sim_nodes s) [])). split; [|apply rtc_refl]. split_and!; [by cbn; rewrite dom_fmap_L|done|].
    intros i sv Hi. cbn in Hi. rewrite lookup_fmap in Hi. destruct (sim_nodes s !! i) as [n|] eqn:E2; [|done].
    injection Hi as <-. destruct (Hn i n E2) as (_ & _ & Hr' & Hv & _). by rewrite <-Hr', <-Hv.
  - rewrite Hq. by intros f ?%not_elem_of_nil.
Qed.

(** ** Scripts *)

(** What a test does to a cluster. *)
Inductive SimOp : Set :=
  | OpStep
  | OpCrash (i : NodeId)
  | OpRestart (i : NodeId)
  | OpPartition (a b : NodeId)
  | OpHeal (a b : NodeId)
  | OpIsolate (i : NodeId)
  | OpHealAll (i : NodeId)
  | OpPropose (i : NodeId) (payload : bytes).

(** Proposals that are not configuration entries. *)
Definition plain_op (o : SimOp) : Prop := match o with OpPropose _ payload => plain payload | _ => True end.

Definition run_sim_op (o : SimOp) (s : Cluster) : Cluster :=
  match o with
  | OpStep => (SimCluster_step s).2
  | OpCrash i => (SimCluster_crash i s).2
  | OpRestart i => (SimCluster_restart i s).2
  | OpPartition a b => (SimCluster_partition a b s).2
  | OpHeal a b => (SimCluster_heal a b s).2
  | OpIsolate i => (SimCluster_isolate i s).2
  | OpHealAll i => (SimCluster_heal_all i s).2
  | OpPropose i payload => (SimCluster_propose i payload s).2
  end.

(** A script goes on after an operation that raised. *)
Definition run_script (ops : list SimOp) (s : Cluster) : Cluster := foldl (λ s o, run_sim_op o s) s ops.

Definition safe (s s' : Cluster) : Prop := sim_inv s → sim_inv s'.

#[local] Instance safe_preorder : PreOrder safe.
Proof. split; unfold safe; [intros s; auto|intros a b c; auto]. Qed.

Lemma safe_fault f :
  (∀ s : Cluster, (node_ids (f s), sim_prevote (f s), state_dir (f s), sim_nodes (f s), queue (f s))
    = (node_ids s, sim_prevote s, state_dir s, sim_nodes s, queue s)) →
  preserves safe (on_sim f).
Proof.
  intros Hf s inv. cbn. pose proof (Hf s) as E. injection E as E1 E2 E3 E4 E5.
  apply (sim_inv_frame s); [congruence|by rewrite E5|done].
Qed.

Lemma safe_faults (ids : list NodeId) (skip : NodeId → bool) (op : NodeId → M Cluster ()) :
  (∀ i, preserves safe (op i)) → preserves safe (for_each ids (λ i, when (skip i) (op i))).
Proof. intros Hop. apply (preserves_for_each _). intros i. by apply (preserves_when _). Qed.

Lemma safe_op o (s : Cluster) : plain_op o → safe s (run_sim_op o s).
Proof.
  intros Hp. destruct o; cbn [run_sim_op].
  - exact (sim_inv_step s).
  - by apply safe_fault.
  - exact (sim_inv_restart _ s).
  - by apply safe_fault.
  - by apply safe_fault.
  - unfold SimCluster_isolate. refine (preserves_gets _ (λ s, s) _ _ s). intros s'.
    apply safe_faults. intros j. by apply safe_fault.
  - unfold SimCluster_heal_all. refine (preserves_gets _ (λ s, s) _ _ s). intros s'.
    apply safe_faults. intros j. by apply safe_fault.
  - exact (sim_inv_propose _ _ s Hp).
Qed.

Lemma safe_script ops : ∀ s : Cluster, Forall plain_op ops → safe s (run_script ops s).
Proof.
  induction ops as [|o ops IH]; intros s Hp; [done|]. apply Forall_cons in Hp as [Ho Hp].
  cbn. transitivity (run_sim_op o s); [by apply safe_op|by apply IH].
Qed.
End sim_facts.
