(* ===== verification/NodeLiveness.v ===== *)
(** * A candidate that a majority can hear wins its election

    The messages of an election and what each does, put together: the candidate's
    timer fires, voters that are not ahead receive its requests, and it receives
    their replies. *)
From stdpp Require Import relations.
From S2P Require Import Prelude Bytes RaftLog KVStore RaftInterfaces RaftNode ElectionSpec NodeFacts NodeElection NodeFunctional Network.
Local Open Scope Z_scope.

Section liveness.
Context {L Rng : Type} `{RaftLogLaws L} `{Random Rng}.
Context (clock wall : Z) (C : gset NodeId).
Abbreviation Node := (RaftNode L Rng).
Abbreviation W := (World L Rng).
Abbreviation Net := (Net L Rng).

(** ** The candidate *)

Lemma become_leader_wins (w : W) :
  plain_node (nd w) →
  let w' := (RaftNode_become_leader clock wall w).2 in
  role (nd w') = LEADER ∧ term_of (nd w') = term_of (nd w) ∧ ∃ new, sent w' = sent w ++ new.
Proof.
  intros Hp. destruct (become_leader_leading clock wall w Hp eq_refl) as (_ & Hk & new & Es & _).
  destruct (server_of_key _ _ Hk) as [Hv _]. unfold server_of in Hv. injection Hv as Ht _ Hr _.
  split_and!; [exact Hr|exact Ht|]. by exists new.
Qed.

(** Elected, or short of a majority with at least the votes [V]. *)
Definition running (t : Z) (V : gset NodeId) (n : Node) : Prop :=
  term_of n = t ∧
  (role n = LEADER ∨ role n = CANDIDATE ∧ V ⊆ votes n ∧ ¬ majority C (votes n)).

Lemma running_majority t V n : running t V n → majority C V → role n = LEADER.
Proof.
  intros [_ [Hl|(_ & Hsub & Hn)]] Hm; [done|]. destruct Hn. apply subseteq_size in Hsub. unfold majority in *. lia.
Qed.

(** The timer of a node that is not the leader. *)
Lemma tick_campaigns (w : W) :
  settled C (nd w) → role (nd w) ≠ LEADER → election_deadline (nd w) <= clock →
  let n := nd w in
  let w' := (RaftNode_tick clock wall None w).2 in
  running (term_of n + 1) {[id n]} (nd w') ∧
  let '(lt, li) := RaftNode_progress n in
  ∀ p, p ∈ peers n → (p, Vote (term_of n + 1) (id n) li lt) ∈ sent w'.
Proof.
  intros Hset Hr Hdue n w'. subst w'.
  assert (RaftNode_tick clock wall None w
    = RaftNode_start_election clock wall (w <| nd := (nd w) <| pre_candidate := false |> |>)) as ->.
  { unfold RaftNode_tick. cbv zeta. erewrite bind_ok; [|reflexivity].
    unfold is_leader. rewrite bool_decide_eq_false_2 by done. cbn [default].
    rewrite (proj2 (Z.leb_le _ _) Hdue). cbn [when]. unfold RaftNode_start_prevote_or_election.
    erewrite bind_ok; [|reflexivity]. rewrite (st_prevote _ _ Hset). cbn [andb]. by erewrite bind_ok. }
  unfold RaftNode_start_election. erewrite bind_ok; [|reflexivity]. erewrite bind_ok; [|reflexivity].
  erewrite bind_ok; [|reflexivity]. set (w1 := update _ _).
  assert (role (nd w1) = CANDIDATE ∧ votes (nd w1) = {[id n]} ∧ term_of (nd w1) = term_of n + 1 ∧ id (nd w1) = id n ∧
    peers (nd w1) = peers n ∧ rlog (nd w1) = rlog n ∧ sent w1 = sent w) as (S1 & S2 & S3 & S4 & S5 & S6 & S7) by done.
  clearbody w1. destruct (reset_run clock w1) as (x & w2 & E & Hk & Hl & Es). erewrite bind_ok; [|exact E].
  erewrite bind_ok; [|reflexivity].
  assert (term_of (nd w2) = term_of n + 1 ∧ id (nd w2) = id n ∧ peers (nd w2) = peers n ∧ role (nd w2) = CANDIDATE ∧
    votes (nd w2) = {[id n]}) as (T2 & I2 & P2 & R2 & V2).
  { unfold key in Hk. injection Hk as K1 K2 _ _ _ _ K3 K4 K5. unfold term_of in *. split_and!; congruence. }
  rewrite (progress_view n (nd w2)) by congruence. destruct (RaftNode_progress n) as [lt li].
  rewrite T2, I2, P2, V2. set (req := Vote _ _ _ _).
  assert (∀ ps (v : W), for_each ps (λ p, send p req) v = (inr (), v <| sent := sent v ++ ((., req) <$> ps) |>)) as Hsend.
  { induction ps as [|p ps IH]; intros v; cbn [for_each fmap list_fmap]; [by rewrite app_nil_r; destruct v|].
    erewrite bind_ok; [|reflexivity]. rewrite IH. cbn. by rewrite <-app_assoc. }
  erewrite bind_ok; [|apply Hsend]. set (w3 := w2 <| sent := _ |>).
  assert (plain_node (nd w3)) as Hp3 by (unfold plain_node; change (rlog (nd w3)) with (rlog (nd w2)); rewrite Hl, S6; apply (st_plain _ _ Hset)).
  assert (∀ p, p ∈ peers n → (p, req) ∈ sent w3) as Hreq.
  { intros p Hin. apply elem_of_app. right. apply list_elem_of_fmap. by exists p. }
  destruct (_ || _) eqn:Ewin; cbn [when].
  - destruct (become_leader_wins w3 Hp3) as (Rl & Tl & new & Sl). split.
    + split; [|by left]. rewrite Tl. exact T2.
    + intros p Hin. rewrite Sl. apply elem_of_app. left. by apply Hreq.
  - split; [change (running (term_of n + 1) {[id n]} (nd w3))|exact Hreq]. split; [exact T2|]. right. assert (votes (nd w3) = {[id n]}) as V3 by exact V2.
    split_and!; [exact R2|by rewrite V3|]. rewrite V3. unfold majority. rewrite size_singleton, (peers_size clock C (λ _ _, False) _ Hset). fold n.
    apply orb_false_iff in Ewin as [_ Ewin%Z.ltb_ge]. rewrite size_singleton in Ewin. unfold len in Ewin. lia.
Qed.

(** A granted vote. *)
Lemma count_vote t V v (w : W) :
  settled C (nd w) → running t V (nd w) →
  running t (V ∪ {[v]}) (nd (RaftNode_on_vote_resp clock wall t v true w).2).
Proof.
  intros Hset [Ht Hrun]. unfold RaftNode_on_vote_resp. erewrite bind_ok; [|reflexivity].
  rewrite Ht, Z.eqb_refl. cbn [negb orb]. rewrite orb_false_r.
  destruct Hrun as [Hl|(Hr & HV & _)].
  { rewrite bool_decide_eq_false_2 by (by rewrite Hl). cbn. split; [done|by left]. }
  rewrite bool_decide_eq_true_2 by done. cbn [negb when]. erewrite bind_ok; [|reflexivity].
  set (w1 := update _ _).
  assert (role (nd w1) = CANDIDATE ∧ term_of (nd w1) = t ∧ votes (nd w1) = votes (nd w) ∪ {[v]} ∧ plain_node (nd w1) ∧
    config (nd w1) = C ∧ old_config (nd w1) = None) as (R1 & T1 & V1 & P1 & C1 & O1).
  { split_and!; [exact Hr|exact Ht|reflexivity|apply (st_plain _ _ Hset)|apply (st_config _ _ Hset)|apply (st_old _ _ Hset)]. }
  clearbody w1. unfold RaftNode_maybe_win. erewrite bind_ok; [|reflexivity].
  rewrite R1, bool_decide_eq_true_2 by done. cbn [andb].
  unfold RaftNode_has_majority. rewrite O1, C1. destruct (Z.ltb_spec (Z.of_nat (size C) / 2) (Z.of_nat (size (votes (nd w1))))); cbn [when].
  - destruct (become_leader_wins w1 P1) as (Rl & Tl & _). split; [congruence|by left].
  - change (running t (V ∪ {[v]}) (nd w1)). split; [done|]. right.
    split_and!; [done|rewrite V1; by apply union_mono_r|]. unfold majority. lia.
Qed.

(** ** The voters *)

(** What a voter must be to vote for a request of term [t]. *)
Definition willing (t li lt : Z) (m : Node) : Prop := term_of m < t ∧ pair_ge (lt, li) (RaftNode_progress m) = true.

Lemma ask_votes i t li lt R : ∀ net : Net,
  net_ok C net → NoDup R → i ∉ R →
  (∀ j, j ∈ R → (j, Vote t i li lt) ∈ soup net ∧ ∃ m, nodes net !! j = Some m ∧ willing t li lt m) →
  ∃ net', rtc (net_step C) net net' ∧ net_ok C net' ∧ nodes net' !! i = nodes net !! i ∧
    (∀ x, x ∈ soup net → x ∈ soup net') ∧ ∀ j, j ∈ R → (i, VoteResp t j true) ∈ soup net'.
Proof.
  induction R as [|j R IH]; intros net ok Hnd Hi Hask.
  { exists net. split_and!; [apply rtc_refl|done..|]. by intros j ?%elem_of_nil. }
  apply NoDup_cons in Hnd as [Hj Hnd]. apply not_elem_of_cons in Hi as [Hij Hi].
  destruct (Hask j) as (Hreq & m & Hm & Ht & Hp); [left|].
  pose proof (net_deliver C net j m _ clock wall Hm Hreq) as Hstep.
  destruct (net_step_refines C _ _ ok Hstep) as [ok1 _].
  set (net1 := after net j m (RaftNode_handle clock wall (Vote t i li lt))) in *.
  assert (∃ new, soup net1 = soup net ++ new ∧ (i, VoteResp t j true) ∈ new) as (new & Es & Hin).
  { destruct (on_vote_run clock t i li lt (mkWorld _ _ m [] [])) as (w' & E & Hw'). cbn [nd sent] in Hw'.
    rewrite (proj2 (Z.ltb_ge t (term_of m))) in Hw' by lia. destruct Hw' as (Hs & _).
    unfold grants in Hs. rewrite (bool_decide_eq_true_2 (term_of m < t)), Hp in Hs by done.
    destruct (no_nodes _ _ ok j m Hm) as [_ Hid]. rewrite Hid in Hs.
    exists (sent w'). unfold net1, after. cbn [RaftNode_handle]. rewrite E. split; [done|]. rewrite Hs. left. }
  destruct (IH net1 ok1 Hnd Hi) as (net2 & Hsteps & ok2 & Hni & Hsub & Hgot).
  { intros k Hk. assert (k ≠ j) as Hkj by congruence. destruct (Hask k) as (Hrk & mk & Hmk & Hw); [by right|]. split.
    - rewrite Es. apply elem_of_app. by left.
    - exists mk. split; [|done]. unfold net1, after. cbn [nodes]. by rewrite lookup_insert_ne. }
  exists net2. split_and!; [by eapply rtc_l|done| | |].
  - rewrite Hni. unfold net1, after. cbn [nodes]. by rewrite lookup_insert_ne.
  - intros x Hx. apply Hsub. rewrite Es. apply elem_of_app. by left.
  - intros k [->|Hk]%elem_of_cons; [|by apply Hgot]. apply Hsub. rewrite Es. apply elem_of_app. by right.
Qed.

(** The replies. *)
Lemma collect_votes i t R : ∀ V (net : Net) n,
  net_ok C net → nodes net !! i = Some n → running t V n →
  (∀ j, j ∈ R → (i, VoteResp t j true) ∈ soup net) →
  ∃ net' n', rtc (net_step C) net net' ∧ nodes net' !! i = Some n' ∧ running t (V ∪ list_to_set R) n'.
Proof.
  induction R as [|j R IH]; intros V net n ok Hn Hrun Hgot.
  { exists net, n. split_and!; [apply rtc_refl|done|]. cbn. by rewrite union_empty_r_L. }
  destruct (no_nodes _ _ ok i n Hn) as [Hset _].
  pose proof (net_deliver C net i n _ clock wall Hn (Hgot j ltac:(left))) as Hstep.
  destruct (net_step_refines C _ _ ok Hstep) as [ok1 _].
  set (net1 := after net i n (RaftNode_handle clock wall (VoteResp t j true))) in *.
  pose proof (count_vote t V j (mkWorld _ _ n [] []) Hset Hrun) as Hrun1.
  destruct (IH (V ∪ {[j]}) net1 _ ok1 (lookup_insert_eq _ _ _) Hrun1) as (net2 & n2 & Hsteps & Hn2 & Hrun2).
  { intros k Hk. apply elem_of_app. left. apply Hgot. by right. }
  exists net2, n2. split_and!; [by eapply rtc_l|done|]. cbn. by rewrite union_assoc_L.
Qed.

(** ** The election *)

Lemma reachable_node (net : Net) j :
  cluster_reachable C (cluster_of net) → j ∈ C → ∃ m, nodes net !! j = Some m.
Proof.
  intros [cast inv]%election_inv_reachable Hj. rewrite <-(ei_dom _ _ _ inv) in Hj.
  unfold cluster_of in Hj. cbn in Hj. rewrite dom_fmap_L in Hj. by apply elem_of_dom in Hj.
Qed.

Lemma election_run (net : Net) i n (Q : gset NodeId) :
  net_reachable C net → nodes net !! i = Some n → role n ≠ LEADER → election_deadline n <= clock →
  Q ⊆ C → majority C Q → i ∈ Q →
  (let '(lt, li) := RaftNode_progress n in
   ∀ j m, j ∈ Q → nodes net !! j = Some m → willing (term_of n + 1) li lt m) →
  ∃ net' n', rtc (net_step C) net net' ∧ nodes net' !! i = Some n' ∧ running (term_of n + 1) Q n'.
Proof.
  intros Hreach Hn Hr Hdue HQ HM HiQ Hwill. destruct (net_refines C net Hreach) as [ok Hc].
  destruct (no_nodes _ _ ok i n Hn) as [Hset Hid].
  pose proof (tick_campaigns (mkWorld _ _ n [] []) Hset Hr Hdue) as [Hrun Hreq]. cbn [nd] in Hrun, Hreq.
  destruct (RaftNode_progress n) as [lt li] eqn:Ep. rewrite Hid in Hrun, Hreq.
  pose proof (net_tick C net i n None clock wall Hn) as Hstep.
  destruct (net_step_refines C _ _ ok Hstep) as [ok1 _].
  set (net1 := after net i n (RaftNode_tick clock wall None)) in *.
  assert (nodes net1 !! i = Some (nd (RaftNode_tick clock wall None (mkWorld _ _ n [] [])).2)) as Hn1
    by apply lookup_insert_eq.
  destruct (ask_votes i (term_of n + 1) li lt (elements (Q ∖ {[i]})) net1 ok1) as (net2 & Hs2 & ok2 & Hi2 & _ & Hgot).
  { apply NoDup_elements. }
  { rewrite elem_of_elements, elem_of_difference, elem_of_singleton. by intros [_ []]. }
  { intros j [HjQ Hj]%elem_of_elements%elem_of_difference. rewrite elem_of_singleton in Hj. split.
    - apply elem_of_app. right. apply Hreq. pose proof (st_peers _ _ Hset) as Hps. rewrite Hid in Hps.
      apply (elem_of_list_to_set (C:=gset NodeId)). rewrite Hps. apply elem_of_difference.
      rewrite elem_of_singleton. split; [by apply HQ|done].
    - destruct (reachable_node net j Hc) as [m Hm]; [by apply HQ|]. exists m. split; [|by eapply Hwill].
      unfold net1, after. cbn [nodes]. by rewrite lookup_insert_ne. }
  rewrite Hn1 in Hi2.
  destruct (collect_votes i (term_of n + 1) _ {[i]} net2 _ ok2 Hi2 Hrun Hgot) as (net3 & n3 & Hs3 & Hi3 & Hrun3).
  exists net3, n3. split_and!; [eapply rtc_l; [exact Hstep|by etrans]|done|].
  rewrite list_to_set_elements_L, <-union_difference_L in Hrun3 by by apply singleton_subseteq_l. done.
Qed.
End liveness.
