(* ===== verification/Replication.v ===== *)
(** * Raft node: its handlers implement the replication protocol

    Each handler of a node with a fixed membership, an in-memory log, no pre-votes and
    no snapshots is a sequence of actions of [RaftSpec], even when it raises half-way. *)
From stdpp Require Import relations.
From S2P Require Import Prelude Bytes Unicode RaftLog RaftLogFacts KVStore RaftInterfaces RaftNode StateFiles ElectionSpec RaftSpec NodeFacts NodeElection NodeFunctional NodeMonotone.
Local Open Scope Z_scope.

(** ** Frames *)

Section frames.
Context {Rng : Type} `{Random Rng}.
Context (clock wall : Z).
Abbreviation Node := (RaftNode RaftLog Rng).
Abbreviation W := (World RaftLog Rng).

(** A node with its whole log and no snapshot directory. *)
Record logged (n : Node) : Prop := {
  lg_wf : raft_log_wf (rlog n);
  lg_whole : uncompacted (rlog n);
  lg_base : snapshot_last_index (rlog n) = 0 ∧ snapshot_last_term (rlog n) = 0;
  lg_dir : snapshot_dir n = None;
  lg_next p i : next_index n !! p = Some i → 1 <= i;
  lg_match p i : match_index n !! p = Some i → 0 <= i;
  lg_term : 0 <= term_of n;
  lg_commit : 0 <= commit_index n;
}.

Lemma logged_last_index n : logged n → last_index (rlog n) = len (entries (rlog n)).
Proof. intros Hn. apply last_index_uncompacted; apply Hn. Qed.

Lemma logged_log n : logged n → rlog n = set_entries (entries (rlog n)) RaftLog_init.
Proof.
  intros Hn. pose proof (lg_whole _ Hn) as Hu. destruct (lg_base _ Hn) as [H1 H2]. unfold uncompacted in Hu.
  destruct (rlog n). cbn in *. by subst.
Qed.

(** The log is kept. *)
Definition log_kept (w w' : W) : Prop := logged (nd w) → logged (nd w') ∧ rlog (nd w') = rlog (nd w).

#[export] Instance log_kept_preorder : PreOrder log_kept.
Proof.
  split; [by intros w|]. intros a b c Hab Hbc Ha. destruct (Hab Ha) as [Hb E1]. destruct (Hbc Hb) as [Hc E2].
  split; [done|congruence].
Qed.

(** [logged] depends on these fields only. *)
Definition log_fields (n : Node) := (log n, snapshot_dir n, next_index n, match_index n, term_of n, commit_index n).

Lemma log_kept_same f : (∀ n, log_fields (f n) = log_fields n) → preserves log_kept (on_node f).
Proof.
  intros Hf w [H1 H2 H3 H4 H5 H6 H7 H8]. specialize (Hf (nd w)). unfold log_fields in Hf. injection Hf as E1 E2 E3 E4 E5 E6.
  cbn. split; [|unfold rlog; by rewrite E1]. constructor; unfold rlog in *; rewrite ?E1, ?E2, ?E3, ?E4, ?E5, ?E6; done.
Qed.

Lemma log_kept_tables f :
  (∀ n, (log (f n), snapshot_dir (f n), term_of (f n), commit_index (f n)) = (log n, snapshot_dir n, term_of n, commit_index n)) →
  (∀ n, logged n → (∀ p i, next_index (f n) !! p = Some i → 1 <= i) ∧ (∀ p i, match_index (f n) !! p = Some i → 0 <= i)) →
  preserves log_kept (on_node f).
Proof.
  intros Hf Ht w Hw. destruct (Ht _ Hw) as [Hn Hm]. specialize (Hf (nd w)). injection Hf as E1 E2 E3 E4. destruct Hw as [H1 H2 H3 H4 H5 H6 H7 H8].
  cbn. split; [|unfold rlog; by rewrite E1]. constructor; unfold rlog in *; rewrite ?E1, ?E2, ?E3, ?E4; done.
Qed.

Lemma log_kept_self : preserves log_kept self.
Proof. by intros w. Qed.

Lemma log_kept_send d m : preserves log_kept (send d m).
Proof. by intros w Hw. Qed.

Lemma log_kept_event f : preserves log_kept (modify (λ w : W, w <| applied := f w |>)).
Proof. by intros w Hw. Qed.

Lemma log_kept_draw lo hi : preserves log_kept (draw lo hi).
Proof.
  intros w [H1 H2 H3 H4 H5 H6 H7 H8]. unfold draw. destruct (uniform lo hi (rng (nd w))) as [v r]. by split.
Qed.

Lemma log_kept_sm_apply p : preserves log_kept (sm_apply p).
Proof.
  intros w Hw. unfold sm_apply. destruct (state_machine (nd w)) as [sm|]; [|done].
  destruct (KVStore_apply p sm) as [[e|x] sm']; destruct Hw as [H1 H2 H3 H4 H5 H6 H7 H8]; by split.
Qed.

Lemma log_kept_get_key m p : preserves log_kept (get_key (L:=RaftLog) (Rng:=Rng) m p).
Proof. unfold get_key. destruct (m !! p); [apply (preserves_ret _)|apply (preserves_raise _)]. Qed.

(** No new match indexes but zeros, and the same commit index. *)
Definition tables_kept (w w' : W) : Prop :=
  commit_index (nd w') = commit_index (nd w) ∧
  ∀ p x, match_index (nd w') !! p = Some x → x <= 0 ∨ match_index (nd w) !! p = Some x.

#[export] Instance tables_kept_preorder : PreOrder tables_kept.
Proof.
  split; [intros w; split; [done|by right]|]. intros a b c [E1 Hab] [E2 Hbc]. split; [congruence|].
  intros p x Hx. destruct (Hbc p x Hx); [by left|by apply Hab].
Qed.

Lemma tables_kept_same f :
  (∀ n, commit_index (f n) = commit_index n) → (∀ n, match_index (f n) = match_index n) → preserves tables_kept (on_node f).
Proof. intros Hc Hf w. split; cbn; [apply Hc|]. intros p x. rewrite Hf. by right. Qed.

Lemma tables_kept_zero f q :
  (∀ n, commit_index (f n) = commit_index n) → (∀ n, match_index (f n) = <[q := 0]> (match_index n)) → preserves tables_kept (on_node f).
Proof.
  intros Hc Hf w. split; cbn; [apply Hc|]. intros p x. rewrite Hf. intros [[_ <-]|[_ Hx]]%lookup_insert_Some; [left; lia|by right].
Qed.

Lemma tables_kept_delete f q :
  (∀ n, commit_index (f n) = commit_index n) → (∀ n, match_index (f n) = delete q (match_index n)) → preserves tables_kept (on_node f).
Proof. intros Hc Hf w. split; cbn; [apply Hc|]. intros p x. rewrite Hf. intros [_ Hx]%lookup_delete_Some. by right. Qed.

(** What the state machine has applied, and its data. *)
Definition machine_of (n : Node) : Z * gmap string string :=
  match state_machine n with Some sm => (applied_index n, kv_data sm) | None => (0, ∅) end.

Definition machine_kept (w w' : W) : Prop := machine_of (nd w') = machine_of (nd w).

#[export] Instance machine_kept_preorder : PreOrder machine_kept.
Proof. split; [by intros w|]. intros a b c Hab Hbc. unfold machine_kept in *. congruence. Qed.

Lemma machine_kept_same f : (∀ n, machine_of (f n) = machine_of n) → preserves machine_kept (on_node f).
Proof. intros Hf w. apply Hf. Qed.

Lemma machine_kept_self : preserves machine_kept self.
Proof. by intros w. Qed.

Lemma machine_kept_draw lo hi : preserves machine_kept (draw lo hi).
Proof. intros w. unfold respects, draw. by destruct (uniform lo hi (rng (nd w))) as [v r]. Qed.

Lemma tables_kept_self : preserves tables_kept self.
Proof. intros w. by split; [|right]. Qed.

Lemma tables_kept_event f : preserves tables_kept (modify (λ w : W, w <| applied := f w |>)).
Proof. intros w. by split; [|right]. Qed.

Lemma tables_kept_draw lo hi : preserves tables_kept (draw lo hi).
Proof. intros w. unfold respects, draw. destruct (uniform lo hi (rng (nd w))) as [v r]. by split; [|right]. Qed.

Lemma tables_kept_sm_apply p : preserves tables_kept (sm_apply p).
Proof.
  intros w. unfold respects, sm_apply. destruct (state_machine (nd w)) as [sm|]; [|by split; [|right]].
  destruct (KVStore_apply p sm) as [[e|y] sm']; by split; [|right].
Qed.

Lemma tables_kept_on_log {A} (f : RaftLog → A * RaftLog) : preserves tables_kept (on_node (λ n : Node, n <| log := (f (log n)).2 |>)).
Proof. by apply tables_kept_same. Qed.
End frames.

#[export] Hint Resolve log_kept_self log_kept_send log_kept_draw log_kept_sm_apply log_kept_event log_kept_get_key : walk.
#[export] Hint Extern 2 (preserves log_kept (on_node _)) => by apply log_kept_same : walk.
#[export] Hint Resolve tables_kept_self tables_kept_draw tables_kept_sm_apply tables_kept_event : walk.
#[export] Hint Resolve machine_kept_self machine_kept_draw : walk.
#[export] Hint Extern 2 (preserves machine_kept (on_node _)) => by apply machine_kept_same : walk.
#[export] Hint Extern 2 (preserves tables_kept (on_node _)) =>
  solve [by apply tables_kept_same|by eapply tables_kept_zero|by eapply tables_kept_delete] : walk.

Section operations.
Context {Rng : Type} `{Random Rng}.
Context (clock wall : Z).
Abbreviation Node := (RaftNode RaftLog Rng).
Abbreviation W := (World RaftLog Rng).
Abbreviation logged := (logged (Rng:=Rng)).
Abbreviation log_kept := (log_kept (Rng:=Rng)).
Abbreviation tables_kept := (tables_kept (Rng:=Rng)).
Abbreviation machine_kept := (machine_kept (Rng:=Rng)).

Lemma log_kept_reset b : preserves log_kept (RaftNode_reset_election_deadline clock b).
Proof. unfold RaftNode_reset_election_deadline. walk. Qed.

Lemma tables_kept_reset b : preserves tables_kept (RaftNode_reset_election_deadline clock b).
Proof. unfold RaftNode_reset_election_deadline. walk. Qed.

Lemma machine_kept_reset b : preserves machine_kept (RaftNode_reset_election_deadline clock b).
Proof. unfold RaftNode_reset_election_deadline. walk. Qed.
#[local] Hint Resolve log_kept_reset tables_kept_reset machine_kept_reset : walk.

(** A tracked and a forgotten peer. *)
Lemma track_tables (n : Node) (p : NodeId) :
  logged n →
  (∀ q i, <[p := last_index (rlog n) + 1]> (next_index n) !! q = Some i → 1 <= i) ∧
  (∀ q i, <[p := 0]> (match_index n) !! q = Some i → 0 <= i).
Proof.
  intros Hn. pose proof (logged_last_index n Hn) as El. pose proof (len_nonneg (entries (rlog n))). split; intros q i Hq.
  - apply lookup_insert_Some in Hq as [[_ <-]|[_ Hq]]; [lia|by eapply lg_next].
  - apply lookup_insert_Some in Hq as [[_ <-]|[_ Hq]]; [lia|by eapply lg_match].
Qed.

Lemma delete_tables (n : Node) (p : NodeId) :
  logged n → (∀ q i, delete p (next_index n) !! q = Some i → 1 <= i) ∧ (∀ q i, delete p (match_index n) !! q = Some i → 0 <= i).
Proof. intros Hn. split; intros q i [_ Hq]%lookup_delete_Some; [by eapply lg_next|by eapply lg_match]. Qed.
#[local] Hint Extern 3 (preserves log_kept (on_node _)) =>
  solve [apply log_kept_tables; [done|intros ? Hl; exact (track_tables _ _ Hl)]
        |apply log_kept_tables; [done|intros ? Hl; exact (delete_tables _ _ Hl)]] : walk.

Lemma log_kept_config b : preserves log_kept (apply_config clock b).
Proof. unfold apply_config, set_peers, track_peers, forget_peers. walk. Qed.

Lemma tables_kept_config b : preserves tables_kept (apply_config clock b).
Proof. unfold apply_config, set_peers, track_peers, forget_peers. walk. Qed.
#[local] Hint Resolve log_kept_config tables_kept_config : walk.

Lemma log_kept_entry nxt e : preserves log_kept (apply_entry clock nxt e).
Proof. unfold apply_entry. walk. Qed.

Lemma tables_kept_entry nxt e : preserves tables_kept (apply_entry clock nxt e).
Proof. unfold apply_entry. walk. Qed.
#[local] Hint Resolve log_kept_entry tables_kept_entry : walk.

Lemma log_kept_loop fuel : preserves log_kept (apply_loop clock fuel).
Proof. induction fuel as [|fuel IH]; cbn [apply_loop]; walk. Qed.

Lemma tables_kept_loop fuel : preserves tables_kept (apply_loop clock fuel).
Proof. induction fuel as [|fuel IH]; cbn [apply_loop]; walk. Qed.
#[local] Hint Resolve log_kept_loop tables_kept_loop : walk.

(** Without a directory no snapshot is taken. *)
Lemma log_kept_committed : preserves log_kept (RaftNode_apply_committed clock).
Proof.
  unfold RaftNode_apply_committed. apply (preserves_gets _ nd). intros w0.
  apply (respects_bind _); [apply log_kept_loop|]. intros through w _. revert w. apply (preserves_when _).
  apply (preserves_gets _ nd). intros w. destruct (auto_snapshot_every (nd w)) as [k|]; [|apply (preserves_ret _)].
  destruct (snapshot_dir (nd w)) as [d|] eqn:Ed; [|apply (preserves_ret _)].
  intros Hw. by rewrite (lg_dir _ Hw) in Ed.
Qed.

Lemma tables_kept_write idx t st : preserves tables_kept (RaftNode_write_snapshot_file (L:=RaftLog) (Rng:=Rng) idx t st).
Proof. apply tables_kept_same; intros n; by destruct (snapshot_dir n). Qed.
#[local] Hint Resolve tables_kept_write : walk.

Lemma tables_kept_committed : preserves tables_kept (RaftNode_apply_committed clock).
Proof. unfold RaftNode_apply_committed, RaftNode_take_snapshot. walk. Qed.
#[local] Hint Resolve log_kept_committed tables_kept_committed : walk.

Lemma log_kept_save t v (w : W) : (logged (nd w) → 0 <= t) → respects log_kept w (save t v).
Proof. intros Ht Hw. pose proof (Ht Hw). destruct Hw as [H1 H2 H3 H4 H5 H6 _ H8]. by split. Qed.

Lemma log_kept_step_down t (w : W) : respects log_kept w (RaftNode_step_down clock t).
Proof.
  unfold RaftNode_step_down. apply (respects_gets log_kept). apply (respects_bind _).
  - destruct (Z.ltb_spec (term_of (nd w)) t); cbn [when]; [|apply (preserves_ret _)].
    apply log_kept_save. intros Hw. pose proof (lg_term _ Hw). lia.
  - intros _ w1 _. revert w1. set (m := _ ≫= _). change (preserves log_kept m). subst m. walk.
Qed.

Lemma tables_kept_step_down t : preserves tables_kept (RaftNode_step_down clock t).
Proof.
  unfold RaftNode_step_down. assert (∀ v, preserves tables_kept (save (L:=RaftLog) (Rng:=Rng) t v)) as Hs by (intros v; by apply tables_kept_same). walk.
Qed.

Lemma machine_kept_step_down t : preserves machine_kept (RaftNode_step_down clock t).
Proof.
  unfold RaftNode_step_down. assert (∀ v, preserves machine_kept (save (L:=RaftLog) (Rng:=Rng) t v)) as Hs by (intros v; by apply machine_kept_same). walk.
Qed.

Lemma log_kept_init (w : W) : snapshot_dir (nd w) = None → respects log_kept w (RaftNode_init clock).
Proof.
  intros Hd. unfold RaftNode_init. apply (respects_bind _); [apply log_kept_reset|].
  intros x w1 E. destruct (reset_exact clock true w) as (y & d & r' & E'). rewrite E' in E.
  injection E as _ <-. unfold RaftNode_load_snapshot_file. apply (respects_gets log_kept). cbn. rewrite Hd.
  apply (preserves_ret log_kept).
Qed.
End operations.

(** ** The replica of a node *)

Section refinement.
Context {Rng : Type} `{Random Rng}.
Context (clock wall : Z) (C : gset NodeId) (heard : Msg → Prop).
Abbreviation Node := (RaftNode RaftLog Rng).
Abbreviation W := (World RaftLog Rng).
Abbreviation logged := (logged (Rng:=Rng)).
Abbreviation log_kept := (log_kept (Rng:=Rng)).
Abbreviation tables_kept := (tables_kept (Rng:=Rng)).
Abbreviation machine_kept := (machine_kept (Rng:=Rng)).
Abbreviation silent := (silent (L:=RaftLog) (Rng:=Rng)).

(** The match indexes count for a leader only. *)
Definition replica_of (n : Node) : Replica :=
  mkReplica (server_of n) (entries (rlog n)) (match role n with LEADER => match_index n | _ => ∅ end) (commit_index n) (machine_of n).

Definition rview (w : W) : Replica * list (NodeId * Msg) := (replica_of (nd w), sent w).

Definition ready (n : Node) : Prop := settled C n ∧ logged n.

Definition acts (w w' : W) : Prop :=
  ready (nd w) →
  ready (nd w') ∧ id (nd w') = id (nd w) ∧ rtc (raft_action C (id (nd w)) heard) (rview w) (rview w').

#[local] Instance acts_preorder : PreOrder acts.
Proof.
  split; [by intros w Hw; split_and!; [..|apply rtc_refl]|]. intros a b c Hab Hbc Ha.
  destruct (Hab Ha) as (Hb & I1 & A1). destruct (Hbc Hb) as (Hc & I2 & A2). rewrite I1 in A2.
  split_and!; [done|congruence|by etrans].
Qed.

Lemma acts_one (w w' : W) :
  sent w' = sent w →
  (ready (nd w) → ready (nd w') ∧ id (nd w') = id (nd w) ∧
   raft_action C (id (nd w)) heard (replica_of (nd w), sent w) (replica_of (nd w'), sent w)) →
  acts w w'.
Proof.
  intros E Ha Hw. destruct (Ha Hw) as (Hr & Hi & Hact). split_and!; [done|done|]. apply rtc_once.
  unfold rview. by rewrite E.
Qed.

Lemma acts_send (w : W) d m :
  (ready (nd w) → may_say (id (nd w)) heard (replica_of (nd w)) d m) → respects acts w (send d m).
Proof. intros Hm Hw. split_and!; [done|done|]. apply rtc_once. by apply (ra_say C (id (nd w)) heard (replica_of (nd w))), Hm. Qed.

(** Forgotten match indexes. *)
Lemma tables_step me s log M M' ci mc (r : Role) out :
  (∀ p x, M' !! p = Some x → x <= 0 ∨ M !! p = Some x) →
  rtc (raft_action C me heard)
    (mkReplica s log (match r with LEADER => M | _ => ∅ end) ci mc, out)
    (mkReplica s log (match r with LEADER => M' | _ => ∅ end) ci mc, out).
Proof.
  intros Ht. destruct r; [apply rtc_refl..|]. apply rtc_once, ra_table.
  intros p x Hx. destruct (Ht p x Hx); [by left|by right; left].
Qed.

(** Nothing that a replica shows, but for forgotten match indexes. *)
Lemma idle_acts (w w' : W) : silent w w' → log_kept w w' → tables_kept w w' → machine_kept w w' → acts w w'.
Proof.
  intros Hs Hl Ht Em [Hset Hlog]. destruct (Hs (st_plain _ _ Hset)) as (Hp & Hk & Es), (Hl Hlog) as [Hlog' El], Ht as [Ec Ht].
  destruct (server_of_key _ _ Hk) as [Hv Hi]. split_and!; [split; [by eapply settled_key|done]|done|].
  unfold rview, replica_of. rewrite Es, El, Hv, Ec, Em.
  assert (role (nd w') = role (nd w)) as -> by (unfold server_of in Hv; by injection Hv).
  by apply tables_step.
Qed.

Lemma acts_idle {A} (m : M W A) :
  preserves silent m → preserves log_kept m → preserves tables_kept m → preserves machine_kept m → preserves acts m.
Proof. intros H1 H2 H3 H4 w. apply idle_acts; [apply H1|apply H2|apply H3|apply H4]. Qed.

Lemma acts_reset b : preserves acts (RaftNode_reset_election_deadline clock b).
Proof. apply acts_idle; [apply silent_reset|apply log_kept_reset|apply tables_kept_reset|apply machine_kept_reset]. Qed.

Lemma idle_node f :
  (∀ n, key (f n) = key n) → (∀ n, log_fields (f n) = log_fields n) → (∀ n, machine_of (f n) = machine_of n) →
  preserves acts (on_node f).
Proof.
  intros Hk Hf Hm. apply acts_idle; [|by apply log_kept_same| |by apply machine_kept_same].
  - apply silent_on_node; [done|]. intros n. specialize (Hf n). unfold log_fields in Hf. injection Hf as E _ _ _ _ _.
    unfold rlog. by rewrite E.
  - apply tables_kept_same; intros n; specialize (Hf n); unfold log_fields in Hf; by injection Hf.
Qed.

(** An assignment to a node in a known state. *)
Lemma idle_node_at f (w : W) :
  key (f (nd w)) = key (nd w) → log_fields (f (nd w)) = log_fields (nd w) → machine_of (f (nd w)) = machine_of (nd w) →
  respects acts w (on_node f).
Proof.
  intros Hk Hf Hm. unfold log_fields in Hf. injection Hf as E1 E2 E3 E4 E5 E6. apply idle_acts; cbn.
  - intros Hp. unfold plain_node, rlog in *. cbn. by rewrite E1.
  - intros [H1 H2 H3 H4 H5 H6 H7 H8]. split; [|unfold rlog; cbn; by rewrite E1].
    constructor; unfold rlog in *; cbn; rewrite ?E1, ?E2, ?E3, ?E4, ?E5, ?E6; done.
  - split; cbn; [done|]. intros p x. rewrite E4. by right.
  - done.
Qed.

(** ** Applying *)

(** What a turn of the loop does to the state machine. *)
Definition turned (n : Node) (e : Entry) (n' : Node) : Prop :=
  machine_of n' = machine_of n ∨
  ∃ d, machine_of n = (applied_index n, d) ∧ machine_of n' = (applied_index n + 1, kv_step d e).

Lemma KVStore_apply_data p sm : (∀ r, (KVStore_apply p sm).1 ≠ inr r) → kv_data (KVStore_apply p sm).2 = kv_data sm.
Proof.
  unfold KVStore_apply, lift, utf8_decode, mbind, M_bind. cbn. destruct (utf8_valid p); cbn; [|done].
  destruct (split_eq _) as [[k v]|]; cbn; intros Hr; by edestruct Hr.
Qed.

Lemma sm_step_data sm e : kv_data (sm_step sm e) = kv_step (kv_data sm) e.
Proof.
  unfold kv_step, sm_step. destruct (is_command e); [|done].
  unfold KVStore_apply, lift, utf8_decode, mbind, M_bind. cbn. destruct (utf8_valid _); cbn; [|done].
  by destruct (split_eq _) as [[k v]|].
Qed.

Lemma entry_turned e (w : W) :
  plain (e_payload e) → turned (nd w) e (nd (apply_entry clock (applied_index (nd w) + 1) e w).2).
Proof.
  intros Hp. unfold apply_entry. change ((self ≫= ?f) w) with (f (nd w) w). cbv beta zeta.
  rewrite Hp, andb_false_r. destruct (state_machine (nd w)) as [sm|] eqn:Esm; [|by left; unfold machine_of; cbn; rewrite Esm].
  fold (is_command e). destruct (is_command e) eqn:Hc.
  - unfold sm_apply at 1, mbind at 1, M_bind at 1. rewrite Esm.
    pose proof (KVStore_apply_data (e_payload e) sm) as Hdata.
    destruct (KVStore_apply (e_payload e) sm) as [[x|r] sm'] eqn:Ea; cbn [fst snd] in *.
    + left. unfold machine_of. cbn. by rewrite Esm, Hdata.
    + set (w1 := w <| nd := _ |>).
      destruct (record_applied sm' (applied_index (nd w) + 1) e (Some r) w1) as (w' & E & H1 & H2 & _); [done..|].
      rewrite E. right. exists (kv_data sm). unfold machine_of. cbn [snd]. rewrite Esm, H1, H2. split; [done|].
      rewrite <-sm_step_data. unfold sm_step. by rewrite Hc, Ea.
  - destruct (record_applied sm (applied_index (nd w) + 1) e None w) as (w' & E & H1 & H2 & _); [done..|].
    (erewrite bind_ok; [|reflexivity]). rewrite E. right. exists (kv_data sm). unfold machine_of. cbn [snd]. rewrite Esm, H1, H2.
    split; [done|]. rewrite <-sm_step_data. unfold sm_step. by rewrite Hc.
Qed.

Lemma acts_apply_entry e (w : W) :
  applied_index (nd w) < commit_index (nd w) → RaftLog_get (applied_index (nd w) + 1) (rlog (nd w)) = Some e →
  respects acts w (apply_entry clock (applied_index (nd w) + 1) e).
Proof.
  intros Hlt He [Hset Hlog].
  pose proof (RaftLog_get_plain _ _ _ (st_plain _ _ Hset) He) as Hpe. unfold RaftLog_get in He.
  pose proof (lg_whole _ Hlog) as Hu. unfold uncompacted in Hu. rewrite Hu in He.
  destruct (_ && _); [|done]. replace (applied_index (nd w) + 1 - 1) with (applied_index (nd w)) in He by lia.
  destruct (silent_apply_entry clock (applied_index (nd w) + 1) e Hpe w (st_plain _ _ Hset)) as (Hp & Hk & Es).
  destruct (log_kept_entry clock (applied_index (nd w) + 1) e w Hlog) as [Hlog' El].
  destruct (tables_kept_entry clock (applied_index (nd w) + 1) e w) as [Ec Ht].
  pose proof (entry_turned e w Hpe) as Hm. set (w' := (apply_entry _ _ _ w).2) in *.
  destruct (server_of_key _ _ Hk) as [Hv Hi]. split_and!; [split; [by eapply settled_key|done]|done|].
  assert (role (nd w') = role (nd w)) as Er by (unfold server_of in Hv; by injection Hv).
  unfold rview, replica_of. rewrite Es, El, Hv, Ec, Er. destruct Hm as [->|(d & -> & ->)]; [by apply tables_step|].
  eapply rtc_l; [by apply (ra_apply C (id (nd w)) heard _ _ _ _ _ d (sent w) e)|]. by apply tables_step.
Qed.

Lemma acts_apply_loop fuel : preserves acts (apply_loop clock fuel).
Proof.
  induction fuel as [|fuel IH]; cbn [apply_loop]; [apply (preserves_ret _)|].
  apply (preserves_gets _ nd). intros w. destruct (Z.ltb_spec (applied_index (nd w)) (commit_index (nd w))) as [Hlt|]; [|apply (preserves_ret _)].
  destruct (RaftLog_get _ _) as [e|] eqn:E.
  - apply (respects_bind acts); [by apply acts_apply_entry|]. intros _ w1 _. apply IH.
  - destruct (state_machine (nd w)) as [sm|] eqn:Esm; [apply (preserves_ret _)|].
    apply (respects_bind acts); [|intros _ w1 _; apply (preserves_ret _)].
    apply idle_node_at; [done..|]. unfold machine_of. cbn. by rewrite Esm.
Qed.

(** Without a directory no snapshot is taken. *)
Lemma acts_apply_committed : preserves acts (RaftNode_apply_committed clock).
Proof.
  unfold RaftNode_apply_committed. apply (preserves_gets _ nd). intros w0.
  apply (respects_bind _); [apply acts_apply_loop|]. intros through w _. revert w. apply (preserves_when _).
  apply (preserves_gets _ nd). intros w. destruct (auto_snapshot_every (nd w)) as [k|]; [|apply (preserves_ret _)].
  destruct (snapshot_dir (nd w)) as [d|] eqn:Ed; [|apply (preserves_ret _)].
  intros [_ Hw]. by rewrite (lg_dir _ Hw) in Ed.
Qed.

(** ** Terms and votes *)

Lemma stepped_acts t (w w' : W) :
  term_of (nd w) <= t → sent w' = sent w → stepped C t (nd w) (nd w') → log_kept w w' → tables_kept w w' → machine_kept w w' → acts w w'.
Proof.
  intros Ht Es (Hs & Hi & El & Hset) Hlog [Ec _] Em. apply acts_one; [done|]. intros [Hw Hl].
  split_and!; [split; [by apply Hset|by apply Hlog]|done|]. unfold replica_of. rewrite Hs, El, Ec, Em.
  assert (role (nd w') = FOLLOWER) as -> by (unfold server_of in Hs; by injection Hs).
  apply (ra_step_down C _ _ (server_of (nd w)) (entries (rlog (nd w))) _ _ _ (sent w) t Ht).
Qed.

Lemma acts_step_down_run t (w : W) :
  term_of (nd w) <= t →
  ∃ w', RaftNode_step_down clock t w = (inr (), w') ∧ acts w w' ∧ stepped C t (nd w) (nd w').
Proof.
  intros Ht. destruct (step_down_run clock C t w Ht) as (w' & E & Es & Hst). exists w'. split_and!; [done| |done].
  apply (stepped_acts t); [done..| | |].
  - pose proof (log_kept_step_down clock t w) as Hl. unfold respects in Hl. by rewrite E in Hl.
  - pose proof (tables_kept_step_down clock t w) as Hk. unfold respects in Hk. by rewrite E in Hk.
  - pose proof (machine_kept_step_down clock t w) as Hk. unfold respects in Hk. by rewrite E in Hk.
Qed.

Lemma acts_step_down t (w : W) : term_of (nd w) <= t → respects acts w (RaftNode_step_down clock t).
Proof. intros Ht. destruct (acts_step_down_run t w Ht) as (w' & E & Ha & _). unfold respects. by rewrite E. Qed.

Lemma step_down_then {A} t (f : () → M W A) (w : W) :
  term_of (nd w) <= t → (∀ w', stepped C t (nd w) (nd w') → respects acts w' (f ())) →
  respects acts w (RaftNode_step_down clock t ≫= f).
Proof.
  intros Ht Hf. destruct (acts_step_down_run t w Ht) as (w' & E & Ha & Hst).
  apply (respects_run acts w w' _ (f ())); [by apply bind_ok|done|by apply Hf].
Qed.

(** The log by which votes are granted. *)
Lemma progress_fresh n : logged n → RaftNode_progress n = freshness (entries (rlog n)).
Proof.
  intros Hn. unfold RaftNode_progress, freshness. pose proof (logged_last_index n Hn) as El.
  assert (last_term (rlog n) = default 0 (e_term <$> last (entries (rlog n)))) as Et.
  { unfold last_term. by destruct (last (entries (rlog n))). }
  by rewrite El, Et, (proj1 (lg_base _ Hn)), andb_false_r.
Qed.

(** ** Leaders *)

Definition office (me : NodeId) (w w' : W) : Prop :=
  ready (nd w) → role (nd w) = LEADER → id (nd w) = me →
  ready (nd w') ∧ role (nd w') = LEADER ∧ id (nd w') = me ∧ rtc (raft_action C me heard) (rview w) (rview w').

#[local] Instance office_preorder me : PreOrder (office me).
Proof.
  split; [by intros w Hw Hr Hi; split_and!; [..|apply rtc_refl]|]. intros a b c Hab Hbc Ha Hr Hi.
  destruct (Hab Ha Hr Hi) as (Hb & R1 & I1 & A1). destruct (Hbc Hb R1 I1) as (Hc & R2 & I2 & A2).
  split_and!; [done..|by etrans].
Qed.

Lemma office_acts me (w w' : W) : role (nd w) = LEADER → id (nd w) = me → office me w w' → acts w w'.
Proof. intros Hr Hi Ho Hw. destruct (Ho Hw Hr Hi) as (Hw' & _ & Hi' & Ha). split_and!; [done|congruence|by rewrite Hi]. Qed.

(** What changes no election state leaves a leader in office. *)
Lemma silent_office me {A} (m : M W A) : preserves silent m → preserves acts m → preserves (office me) m.
Proof.
  intros H1 H2 w Hw Hr Hi. destruct (H2 w Hw) as (Hw' & Hi' & Ha).
  destruct (H1 w (st_plain _ _ (proj1 Hw))) as (_ & Hk & _). destruct (server_of_key _ _ Hk) as [Hv _].
  split_and!; [done| |congruence|by rewrite <-Hi]. rewrite <-Hr. exact (f_equal s_role Hv).
Qed.

Lemma idle_office me {A} (m : M W A) :
  preserves silent m → preserves log_kept m → preserves tables_kept m → preserves machine_kept m → preserves (office me) m.
Proof. intros H1 H2 H3 H4. apply silent_office; [done|by apply acts_idle]. Qed.

Lemma office_node me f :
  (∀ n, key (f n) = key n) → (∀ n, log_fields (f n) = log_fields n) → (∀ n, machine_of (f n) = machine_of n) →
  preserves (office me) (on_node f).
Proof.
  intros Hk Hf Hm. apply silent_office; [|by apply idle_node]. apply silent_on_node; [done|].
  intros n. specialize (Hf n). unfold log_fields in Hf. injection Hf as E _ _ _ _ _. unfold rlog. by rewrite E.
Qed.

Lemma term_before_at (l : RaftLog) i : uncompacted l → 0 <= i → term_at i l = term_before (entries l) i.
Proof.
  intros Hu Hi. unfold term_before. destruct (Z.eqb_spec i 0) as [->|Hne]; [done|].
  replace i with (first_index l + Z.of_nat (Z.to_nat (i - 1))) at 1 by (rewrite Hu; lia).
  rewrite term_at_lookup, Hu. destruct (Z.eqb_spec (1 + Z.of_nat (Z.to_nat (i - 1))) 0); [lia|done].
Qed.

Lemma entries_from_slice ni lim l :
  uncompacted l → 1 <= ni → slice_of (entries l) (ni - 1) (term_at (ni - 1) l) (entries_from ni lim l).
Proof.
  intros Hu Hn. split; [lia|]. split; [apply term_before_at; [done|lia]|]. unfold entries_from. rewrite Hu.
  replace (Z.max 0 (ni - 1)) with (ni - 1) by lia. set (rest := drop _ _).
  destruct lim as [k|]; [destruct (k =? 0)|]; [exists (length rest); by rewrite firstn_all|by eexists|
    exists (length rest); by rewrite firstn_all].
Qed.

Lemma office_send_append me p : p ≠ me → preserves (office me) (RaftNode_send_append p).
Proof.
  intros Hp. unfold RaftNode_send_append. apply (preserves_gets _ nd). intros w. cbv zeta. set (ni := default _ _).
  intros Hw Hr Hi. pose proof Hw as [Hset Hl].
  assert (1 <= ni) as Hni.
  { unfold ni. destruct (next_index (nd w) !! p) as [x|] eqn:E; [by eapply lg_next|].
    pose proof (logged_last_index _ Hl) as El. pose proof (len_nonneg (entries (rlog (nd w)))). cbn [default]. cbn in *. lia. }
  rewrite (lg_whole _ Hl). destruct (Z.ltb_spec ni 1); [lia|].
  split_and!; [done..|]. apply rtc_once. rewrite <-Hi.
  refine (ra_say C (id (nd w)) heard (replica_of (nd w)) (sent w) p _ _). cbn [may_say replica_of r_server r_log].
  rewrite Hi. split_and!; [done..|]. apply (entries_from_slice ni _ (rlog (nd w))); [apply Hl|done].
Qed.

Lemma office_send_all me : preserves (office me) RaftNode_send_all_appends.
Proof.
  unfold RaftNode_send_all_appends. apply (preserves_gets _ nd). intros w Hw Hr Hi. pose proof Hw as [Hset _].
  assert (∀ ps (v : W), (∀ p, p ∈ ps → p ≠ me) → respects (office me) v (for_each ps RaftNode_send_append)) as Hps.
  { induction ps as [|p ps IH]; intros v Hps; cbn [for_each]; [apply (preserves_ret _)|].
    apply (respects_bind _); [apply office_send_append, Hps; left|]. intros _ v' _. apply IH. intros q Hq. apply Hps. by right. }
  apply Hps; [|done..]. intros p Hp E. rewrite <-(elem_of_list_to_set (C:=gset NodeId)), (st_peers _ _ Hset), Hi, E in Hp.
  by apply elem_of_difference in Hp as [_ []%not_elem_of_singleton].
Qed.

Lemma office_append_entry me payload (w : W) :
  plain payload → respects (office me) w (on_log (log_append_entry (term_of (nd w)) payload wall)).
Proof.
  intros Hp Hw Hr Hi. pose proof Hw as [Hset Hl].
  pose proof (silent_append_entry wall (term_of (nd w)) payload Hp w (st_plain _ _ Hset)) as (Hp' & Hk & _).
  assert (role (nd (on_log (log_append_entry (term_of (nd w)) payload wall) w).2) = LEADER) as Hr' by done.
  assert (id (nd (on_log (log_append_entry (term_of (nd w)) payload wall) w).2) = me) as Hi' by done.
  split_and!; [split; [by eapply settled_key|]|done|done|].
  - destruct Hl as [H1 H2 H3 H4 H5 H6 H7 H8].
    destruct (append_entry_wf (term_of (nd w)) payload (rlog (nd w)) _ _ H1 (or_introl H2) H7 eq_refl) as (Hwf & _ & Hf & _).
    by constructor.
  - apply rtc_once. rewrite <-Hi. unfold rview, replica_of. rewrite Hr', Hr.
    change (entries (rlog (nd (on_log (log_append_entry (term_of (nd w)) payload wall) w).2)))
      with (entries (rlog (nd w)) ++ [mkEntry (last_index (rlog (nd w)) + 1) (term_of (nd w)) payload]).
    rewrite (logged_last_index _ Hl). by apply (ra_append C (id (nd w)) heard (server_of (nd w))).
Qed.

(** An entry of the node's own term. *)
Lemma own_entry (n : Node) k : logged n → 1 <= k → term_at k (rlog n) = term_of n → has (entries (rlog n)) (Z.to_nat (k - 1)) (term_of n).
Proof.
  intros Hl Hk Ht. destruct (term_at_inv (rlog n) k (term_of n) Ht) as (j & e & Ej & He & Et); [apply (lg_term _ Hl)|lia|].
  rewrite (lg_whole _ Hl) in Ej. exists e. split; [|done]. by replace (Z.to_nat (k - 1)) with j by lia.
Qed.

Lemma settled_quorum (n : Node) k : settled C n → commit_quorum k n = quorum C (match_index n) k.
Proof. intros Hset. unfold commit_quorum, replicated, quorum. by rewrite (st_old _ _ Hset), (st_config _ _ Hset). Qed.

(** The commit rule. *)
Lemma office_commit me k (w : W) :
  1 <= k → term_at k (rlog (nd w)) = term_of (nd w) → commit_quorum k (nd w) = true →
  respects (office me) w (on_node (λ n, n <| commit_index := k |>)).
Proof.
  intros Hk Ht Hq Hw Hr Hi. pose proof Hw as [Hset Hl]. split_and!; [split|done|done|].
  - by apply (settled_key C (nd w)); [|apply (st_plain _ _ Hset)|].
  - destruct Hl as [H1 H2 H3 H4 H5 H6 H7 H8]. constructor; try done. cbn. lia.
  - apply rtc_once. rewrite <-Hi. rewrite settled_quorum in Hq by done.
    pose proof (ra_commit C (id (nd w)) heard (server_of (nd w)) (entries (rlog (nd w))) (match_index (nd w)) (commit_index (nd w)) (machine_of (nd w)) (sent w) (Z.to_nat (k - 1)) Hr
      (own_entry _ _ Hl Hk Ht)) as Ha.
    replace (Z.of_nat (Z.to_nat (k - 1)) + 1) with k in Ha by lia. unfold rview, replica_of. cbn. rewrite Hr. exact (Ha Hq).
Qed.

Lemma office_advance_loop me k : ∀ c (w : W), Z.of_nat k <= c → respects (office me) w (advance_commit_loop clock k c).
Proof.
  induction k as [|k IH]; intros c w Hc; cbn [advance_commit_loop]; [apply (preserves_ret _)|].
  apply (respects_gets (office me)). destruct (Z.eqb_spec (term_at c (rlog (nd w))) (term_of (nd w))) as [Ht|]; cbn [negb]; [|apply IH; lia].
  destruct (commit_quorum c (nd w)) eqn:Eq; [|apply IH; lia].
  apply (respects_bind (office me)); [apply office_commit; [lia|done..]|]. intros _ w' _. revert w'.
  apply silent_office; [apply silent_apply_committed|apply acts_apply_committed].
Qed.

Lemma office_advance me : preserves (office me) (RaftNode_advance_commit clock).
Proof.
  unfold RaftNode_advance_commit. apply (preserves_gets _ nd). intros w Hw. refine (office_advance_loop me _ _ w _ Hw).
  pose proof (lg_commit _ (proj2 Hw)). rewrite (logged_last_index _ (proj2 Hw)) in *. pose proof (len_nonneg (entries (rlog (nd w)))). lia.
Qed.

Lemma office_propose me payload : plain payload → preserves (office me) (RaftNode_propose clock wall payload).
Proof.
  intros Hp. unfold RaftNode_propose. apply (preserves_gets _ nd). intros w.
  destruct (_ || _); [apply (preserves_ret _)|].
  apply (respects_bind _); [by apply office_append_entry|]. intros e w1 _. revert w1.
  apply (preserves_bind _ _ _); [apply office_advance|intros _].
  apply (preserves_bind _ _ _); [apply office_send_all|intros _; apply (preserves_ret _)].
Qed.

Lemma office_become_leader (w : W) :
  office (id (nd w)) (w <| nd := in_office (nd w) |>) (RaftNode_become_leader clock wall w).2.
Proof.
  set (me := id (nd w)). unfold RaftNode_become_leader. erewrite bind_ok; [|reflexivity].
  set (rest := _ ≫= _). assert (preserves (office me) rest) as Hrest; [|apply (Hrest (w <| nd := in_office (nd w) |>))].
  subst rest. apply (preserves_gets _ nd). intros w2. apply (respects_bind _); [|intros _ w3 _; revert w3].
  { apply (preserves_for_each _). intros p. apply idle_office; [by apply silent_on_node| | |by apply machine_kept_same].
    - apply log_kept_tables; [done|]. intros n Hl. exact (track_tables n p Hl).
    - by eapply tables_kept_zero. }
  set (m := _ ≫= _). change (preserves (office me) m). subst m. apply (preserves_bind _ _ _).
  { apply (preserves_when _). apply (preserves_bind _ _ _); [by apply office_propose|intros _; apply (preserves_ret _)]. }
  intros _. apply (preserves_bind _ _ _); [apply office_send_all|intros _]. by apply office_node.
Qed.

Lemma acts_become_leader (w : W) :
  (ready (nd w) → role (nd w) = CANDIDATE ∧ majority C (votes (nd w))) →
  respects acts w (RaftNode_become_leader clock wall).
Proof.
  intros Hc Hw. destruct (Hc Hw) as [Hr Hm].
  refine ((_ : acts w (RaftNode_become_leader clock wall w).2) Hw).
  transitivity (w <| nd := in_office (nd w) |>).
  - apply acts_one; [reflexivity|]. intros [Hset Hl]. split; [split|split; [reflexivity|]].
    + apply (settled_by C (nd w)); [reflexivity|reflexivity|exact (st_plain _ _ Hset)|exact (st_synced _ _ Hset)|exact Hset].
    + destruct Hl as [H1 H2 H3 H4 H5 H6 H7 H8]. by split.
    + unfold replica_of. rewrite Hr. exact (ra_win C _ heard (server_of (nd w)) (entries (rlog (nd w))) ∅ _ _ (sent w) Hr Hm).
  - apply (office_acts (id (nd w))); [done|done|apply office_become_leader].
Qed.

(** ** Campaigns *)

Lemma acts_send_votes n lt li ps : ∀ w : W,
  nd w = n → role n = CANDIDATE → RaftNode_progress n = (lt, li) →
  respects acts w (for_each ps (λ p, send p (Vote (term_of n) (id n) li lt))).
Proof.
  induction ps as [|p ps IH]; intros w E Hr Hp; cbn [for_each]; [apply (preserves_ret _)|].
  apply (respects_bind _).
  - apply acts_send. intros [_ Hl]. rewrite E in *. cbn. split_and!; [done..|]. by rewrite <-Hp, progress_fresh.
  - intros x w' Hs. injection Hs as _ <-. by apply IH.
Qed.

(** A computation that succeeds. *)
Lemma acts_bind_run {A B} (m : M W A) (f : A → M W B) (w w' : W) x :
  m w = (inr x, w') → acts w w' → respects acts w' (f x) → respects acts w (m ≫= f).
Proof. intros E Ha Hf. apply (respects_run acts w w' _ (f x)); [by apply bind_ok|done..]. Qed.

Lemma acts_start_election (w : W) : respects acts w (RaftNode_start_election clock wall).
Proof.
  unfold RaftNode_start_election.
  eapply (respects_run acts w); [erewrite bind_ok; [|reflexivity]; erewrite bind_ok; [|reflexivity];
    erewrite bind_ok; [reflexivity|reflexivity]|..].
  { apply acts_one; [reflexivity|]. intros [Hw Hl]. split; [split|split; [reflexivity|]].
    - apply (settled_by C (nd w)); [reflexivity|exact (st_pre _ _ Hw)|exact (st_plain _ _ Hw)|apply save_synced, Hw|exact Hw].
    - destruct Hl as [H1 H2 H3 H4 H5 H6 H7 H8]. constructor; try done. unfold term_of in *. cbn. lia.
    - exact (ra_campaign C _ heard (server_of (nd w)) _ _ _ _ (sent w)). }
  set (w1 := update _ _). assert (role (nd w1) = CANDIDATE ∧ votes (nd w1) = {[id (nd w1)]}) as [Hr Hv] by done.
  clearbody w1. destruct (reset_run clock w1) as (x & w2 & E & Hk & Hl2 & Es).
  eapply acts_bind_run; [exact E| |].
  { pose proof (acts_reset false w1) as Ha. unfold respects in Ha. by rewrite E in Ha. }
  assert (role (nd w2) = CANDIDATE ∧ votes (nd w2) = {[id (nd w2)]}) as [Hr2 Hv2].
  { unfold key in Hk. injection Hk as E1 _ _ _ _ _ _ E2 E3. by rewrite E1, E2, E3, Hr, Hv. }
  apply (respects_gets acts). destruct (RaftNode_progress (nd w2)) as [lt li] eqn:Ep.
  destruct (send_votes_run (peers (nd w2)) (λ _, Vote (term_of (nd w2)) (id (nd w2)) li lt) w2) as (w3 & E3 & En).
  eapply acts_bind_run; [exact E3| |].
  { pose proof (acts_send_votes (nd w2) lt li (peers (nd w2)) w2 eq_refl Hr2 Ep) as Ha. unfold respects in Ha. by rewrite E3 in Ha. }
  rewrite <-En in *. destruct (_ || _) eqn:Ewin; cbn [when]; [|apply (preserves_ret _)].
  apply acts_become_leader. intros [Hset _]. split; [done|]. unfold majority. rewrite Hv2, size_singleton, (peers_size clock C (λ _ _, False) _ Hset).
  apply orb_true_iff in Ewin as [Ewin%bool_decide_eq_true|Ewin%Z.ltb_lt].
  - by rewrite Ewin.
  - rewrite Hv2, size_singleton in Ewin. unfold len in Ewin. rewrite Nat2Z.inj_succ. exact Ewin.
Qed.

Lemma acts_campaign (w : W) : respects acts w (RaftNode_start_prevote_or_election clock wall).
Proof.
  unfold RaftNode_start_prevote_or_election. apply (respects_gets acts).
  destruct (use_prevote (nd w) && _) eqn:E.
  { intros [Hset _]. apply andb_true_iff in E as [E _]. by rewrite (st_prevote _ _ Hset) in E. }
  eapply (respects_run acts w); [erewrite bind_ok; [reflexivity|reflexivity]|..].
  - intros [Hset Hl]. split; [split|split; [reflexivity|apply rtc_refl]].
    + apply (settled_by C (nd w)); [reflexivity|reflexivity|exact (st_plain _ _ Hset)|exact (st_synced _ _ Hset)|exact Hset].
    + destruct Hl as [H1 H2 H3 H4 H5 H6 H7 H8]. by split.
  - apply acts_start_election.
Qed.

(** ** Handlers *)

(** A computation that leaves the key and the log before one that depends on them. *)
Lemma acts_then {A B} (m : M W A) (f : A → M W B) (w : W) :
  respects acts w m → preserves silent m → respects log_kept w m →
  (∀ x w', key (nd w') = key (nd w) → rlog (nd w') = rlog (nd w) → respects acts w' (f x)) →
  respects acts w (m ≫= f).
Proof.
  intros Ha H1 H2 Hf Hw. apply (respects_bind acts); [done|..|done]. intros x w' E.
  pose proof (H1 w (st_plain _ _ (proj1 Hw))) as (_ & Hk & _). destruct (H2 (proj2 Hw)) as [_ El].
  rewrite E in Hk, El. by apply Hf.
Qed.

Lemma acts_on_prevote t c li lt : preserves acts (RaftNode_on_prevote clock t c li lt).
Proof. apply (preserves_gets _ nd). intros w. by apply acts_send. Qed.

Lemma acts_on_prevote_resp t f g : preserves acts (RaftNode_on_prevote_resp clock wall t f g).
Proof.
  apply (preserves_gets _ nd). intros w. destruct (negb (pre_candidate (nd w))) eqn:E; [apply (preserves_ret _)|].
  intros [Hset _]. by rewrite (st_pre _ _ Hset) in E.
Qed.

(** A vote is recorded. *)
Lemma acts_grant c li lt (w : W) :
  voted_for (persister (nd w)) = None ∨ voted_for (persister (nd w)) = Some c →
  heard (Vote (term_of (nd w)) c li lt) → pair_ge (lt, li) (RaftNode_progress (nd w)) = true →
  ∃ w', (_ ← save (term_of (nd w)) (Some c); _ ← RaftNode_reset_election_deadline clock false; mret ()) w = (inr (), w') ∧
    acts w w' ∧ voted_for (persister (nd w')) = Some c.
Proof.
  intros Hv Hh Hge. destruct (grant_run clock C c w) as (w' & E & Es & Hs & Hi & Hset). exists w'. split; [done|].
  unfold server_of in Hs. split; [|by injection Hs]. intros [Hw Hl].
  set (m := _ ≫= _) in E.
  assert (respects log_kept w m) as Hlk.
  { subst m. apply (respects_bind _); [apply log_kept_save; intros _; apply (lg_term _ Hl)|].
    intros _ w1 _. apply (respects_bind _); [apply log_kept_reset|]. intros x w2 _. apply (preserves_ret _). }
  assert (preserves tables_kept m) as Htk.
  { subst m. apply (preserves_bind _ _ _); [by apply tables_kept_same|intros _].
    apply (preserves_bind _ _ _); [apply tables_kept_reset|intros _; apply (preserves_ret _)]. }
  assert (preserves machine_kept m) as Hmk.
  { subst m. apply (preserves_bind _ _ _); [by apply machine_kept_same|intros _].
    apply (preserves_bind _ _ _); [apply machine_kept_reset|intros _; apply (preserves_ret _)]. }
  destruct (Hlk Hl) as [Hl' El]. destruct (Htk w) as [Ec Htab]. specialize (Hmk w). unfold respects, Replication.machine_kept in Hmk. rewrite E in *. cbn [snd] in *.
  rewrite progress_fresh in Hge by done.
  split_and!; [by split; [apply Hset|]|done|]. unfold rview, replica_of. rewrite Es, El, Ec, Hmk.
  assert (role (nd w') = role (nd w)) as Er by by injection Hs.
  eapply rtc_l; [exact (ra_grant C (id (nd w)) heard (server_of (nd w)) _ _ _ _ (sent w) c li lt Hv Hh Hge)|].
  unfold server_of at 1. cbn [s_role server_of s_term s_votes]. unfold server_of. rewrite Hs, Er.
  by apply tables_step.
Qed.

Lemma acts_on_vote t c li lt : heard (Vote t c li lt) → preserves acts (RaftNode_on_vote clock t c li lt).
Proof.
  intros Hh. apply (preserves_gets _ nd). intros w. destruct (Z.ltb_spec t (term_of (nd w))) as [|Hge]; [by apply acts_send|].
  set (rest := λ _ : (), _ : M W ()). change (respects acts w (when (term_of (nd w) <? t) (RaftNode_step_down clock t) ≫= rest)).
  assert (∀ w, term_of (nd w) = t → respects acts w (rest ())) as Hrest.
  { clear w Hge. intros w Ht. apply (respects_gets acts). cbv zeta.
    destruct (_ && _) eqn:Eg; cbn [when].
    2:{ apply (respects_bind _); [apply (preserves_ret _)|]. intros _ w' _. apply (respects_gets acts). by apply acts_send. }
    apply andb_true_iff in Eg as [Eg Hpg]. rewrite orb_true_iff, !bool_decide_eq_true in Eg. rewrite <-Ht in Hh.
    destruct (acts_grant c li lt w Eg Hh Hpg) as (w' & E & Ha & Hv).
    eapply acts_bind_run; [exact E|done|]. apply (respects_gets acts). apply acts_send. intros _. by cbn. }
  destruct (Z.ltb_spec (term_of (nd w)) t); cbn [when].
  - apply step_down_then; [done|]. intros w' (Hs & _). apply Hrest. exact (f_equal s_term Hs).
  - apply (respects_bind acts); [apply (preserves_ret _)|]. intros [] w' [= <-]. apply Hrest. lia.
Qed.

Lemma acts_on_vote_resp t f g :
  heard (VoteResp t f g) → preserves acts (RaftNode_on_vote_resp clock wall t f g).
Proof.
  intros Hh. apply (preserves_gets _ nd). intros w.
  destruct (negb (bool_decide _) || _) eqn:E; [apply (preserves_ret _)|].
  apply orb_false_iff in E as [Er Et]. apply negb_false_iff, bool_decide_eq_true in Er.
  apply negb_false_iff, Z.eqb_eq in Et. subst t. destruct g; cbn [when]; [|apply (preserves_ret _)].
  eapply (respects_run acts w); [erewrite bind_ok; [reflexivity|reflexivity]|..].
  - apply acts_one; [reflexivity|]. intros [Hw Hl]. split; [split|split; [reflexivity|]].
    + apply (settled_by C (nd w)); [reflexivity|exact (st_pre _ _ Hw)|exact (st_plain _ _ Hw)|exact (st_synced _ _ Hw)|exact Hw].
    + destruct Hl as [H1 H2 H3 H4 H5 H6 H7 H8]. by split.
    + exact (ra_count C _ heard (server_of (nd w)) _ _ _ _ (sent w) f Er Hh).
  - set (w1 := update _ _). clearbody w1. unfold RaftNode_maybe_win. apply (respects_gets acts).
    intros Hw1. destruct (_ && _) eqn:Ew; cbn [when]; [|by apply (preserves_ret acts)].
    apply andb_true_iff in Ew as [Er1%bool_decide_eq_true Hm].
    apply acts_become_leader; [|done]. intros [Hset _]. split; [done|]. exact (settled_majority C _ _ Hset Hm).
Qed.

Lemma acts_on_timeout_now t : preserves acts (RaftNode_on_timeout_now clock wall t).
Proof.
  apply (preserves_gets _ nd). intros w. destruct (_ && _); cbn [when]; [|apply (preserves_ret _)].
  apply acts_start_election.
Qed.

(** *** Append messages *)

Lemma merge_logged pi pt es l :
  raft_log_wf l → uncompacted l → 0 <= pi → numbered (pi + 1) es → Forall (λ e, 0 <= e_term e) es →
  raft_log_wf (RaftLog_merge pi pt es l).2 ∧ uncompacted (RaftLog_merge pi pt es l).2.
Proof.
  intros wf Hu Hpi Hn Ht. destruct (decide (last_index l < pi ∨ term_at pi l ≠ pt)) as [Hr|Hr].
  { by rewrite merge_reject. }
  assert (pi <= last_index l ∧ term_at pi l = pt) as [Hl <-] by lia.
  rewrite merge_accept; [|done|rewrite Hu; lia|done]. cbn [snd]. split; [|exact Hu].
  pose proof (merge_point l pi wf ltac:(rewrite Hu; lia)) as Hp. rewrite Hu in *.
  replace (Z.to_nat (pi + 1 - 1)) with (Z.to_nat pi) in * by lia. set (n := Z.to_nat pi) in *.
  assert (numbered 1 (entries l)) as Hnl by (intros k e Hk; rewrite <-Hu; by apply rl_index).
  rewrite renumbered_id by done. constructor; cbn [first_index set_entries entries]; [apply wf| |].
  - rewrite Hu. apply numbered_app. split; [by apply numbered_take|].
    unfold len. rewrite length_take, Nat.min_l by done. replace (1 + Z.of_nat n) with (pi + 1) by (unfold n; lia).
    apply merge_suffix_numbered; [|done]. replace (pi + 1) with (1 + Z.of_nat n) by (unfold n; lia). by apply numbered_drop.
  - pose proof (rl_terms _ wf). apply Forall_app. split; [by apply Forall_take|].
    apply merge_suffix_terms; [by apply Forall_drop|done].
Qed.

(** What every message that is heard is. *)
Definition sound (me : NodeId) (m : Msg) : Prop :=
  match m with
  | Append _ l pi _ es _ => l ≠ me ∧ 0 <= pi ∧ numbered (pi + 1) es ∧ Forall (λ e, 0 <= e_term e) es ∧ plain_entries es
  | AppendResp _ v _ _ _ => v ≠ me
  | InstallSnapshot _ _ _ _ _ => False
  | _ => True
  end.

(** A leader's message that is not stale makes the node its follower. *)
Lemma follow_then {A} t (f : () → M W A) (w : W) :
  term_of (nd w) <= t →
  (∀ w', term_of (nd w') = t → role (nd w') = FOLLOWER → id (nd w') = id (nd w) → respects acts w' (f ())) →
  respects acts w
    (when ((term_of (nd w) <? t) || negb (bool_decide (role (nd w) = FOLLOWER))) (RaftNode_step_down clock t) ≫= f).
Proof.
  intros Ht Hf. destruct (_ || _) eqn:E; cbn [when].
  - apply step_down_then; [done|]. intros w' (Hs & Hi & _). apply Hf; [exact (f_equal s_term Hs)|exact (f_equal s_role Hs)|done].
  - apply orb_false_iff in E as [E1%Z.ltb_ge E2%negb_false_iff%bool_decide_eq_true].
    apply (respects_bind acts); [apply (preserves_ret _)|]. intros [] w' [= <-]. apply Hf; [lia|done..].
Qed.

Lemma fits_merged log pi pt es : fits log pi pt → fits (merge_entries (Z.to_nat pi) log es) pi pt.
Proof.
  intros [Hpi E]. unfold len in *. set (n := Z.to_nat pi). assert (length (take n log) = n) as Hn by (rewrite length_take; lia).
  split; [unfold merge_entries, len; rewrite length_app; lia|]. unfold term_before in *. destruct (Z.eqb_spec pi 0); [done|].
  unfold merge_entries. rewrite lookup_app_l, lookup_take_lt by lia. done.
Qed.

Lemma merged_has log pi es k e :
  0 <= pi <= len log → es !! k = Some e → has (merge_entries (Z.to_nat pi) log es) (Z.to_nat pi + k) (e_term e).
Proof.
  intros Hpi He. unfold len in *. set (n := Z.to_nat pi). assert (length (take n log) = n) as Hn by (rewrite length_take; lia).
  destruct (merge_suffix_agrees (drop n log) es k e He) as (x & Hx & Et). exists x. split; [|done].
  unfold merge_entries. rewrite lookup_app_r by lia. rewrite <-Hx. f_equal. lia.
Qed.

Lemma same_log (w : W) : w <| nd := (nd w) <| log := rlog (nd w) |> |> = w.
Proof. by destruct w as [[]]. Qed.

(** The merge: the log stays, or takes over entries that were heard. *)
Lemma acts_merge t l pi pt es c (w : W) :
  sound (id (nd w)) (Append t l pi pt es c) → heard (Append t l pi pt es c) →
  term_of (nd w) = t → role (nd w) = FOLLOWER → ready (nd w) →
  ∃ ok x h w', on_log (log_merge pi pt es wall) w = (inr (ok, x, h), w') ∧ acts w w' ∧ key (nd w') = key (nd w) ∧
    (ok = true → x = pi + len es ∧ holds (entries (rlog (nd w'))) pi pt es).
Proof.
  intros (_ & Hpi & Hn & Ht & Hpl) Hh Et Hr [Hset Hl].
  pose proof (silent_merge wall pi pt es Hpl w (st_plain _ _ Hset)) as (Hp' & Hk & Es).
  destruct (decide (last_index (rlog (nd w)) < pi ∨ term_at pi (rlog (nd w)) ≠ pt)) as [Hrej|Hacc].
  { assert (∃ h, on_log (log_merge pi pt es wall) w = (inr (false, 0, h), w)) as [h E].
    { set (h := if last_index (rlog (nd w)) <? pi then last_index (rlog (nd w)) + 1
                else conflict_term_first_index (term_at pi (rlog (nd w))) pi (rlog (nd w))).
      exists h. rewrite <-(same_log w) at 2. unfold on_log. cbn -[RaftLog_merge]. change (log (nd w)) with (rlog (nd w)).
      by rewrite (merge_reject _ _ _ _ Hrej). }
    do 4 eexists. split_and!; [exact E|done|done|done]. }
  assert (pi <= last_index (rlog (nd w)) ∧ term_at pi (rlog (nd w)) = pt) as [Hle <-] by lia.
  pose proof (merge_accept (rlog (nd w)) pi es (lg_wf _ Hl) ltac:(rewrite (lg_whole _ Hl); lia) Ht) as Em.
  rewrite (lg_whole _ Hl), renumbered_id in Em by done. replace (pi + 1 - 1) with pi in Em by lia.
  cbv zeta in Em. fold (merge_entries (Z.to_nat pi) (entries (rlog (nd w))) es) in Em.
  set (l' := set_entries _ _) in Em. set (w' := w <| nd := (nd w) <| log := l' |> |>).
  assert (on_log (log_merge pi (term_at pi (rlog (nd w))) es wall) w = (inr (true, pi + len es, 0), w')) as E.
  { unfold on_log. cbn -[RaftLog_merge]. change (log (nd w)) with (rlog (nd w)). by rewrite Em. }
  rewrite E in Hp', Hk. cbn [snd] in Hp', Hk. rewrite (logged_last_index _ Hl) in Hle.
  assert (fits (entries (rlog (nd w))) pi (term_at pi (rlog (nd w)))) as Hfit.
  { split; [lia|]. symmetry. apply term_before_at; [apply Hl|done]. }
  exists true, (pi + len es), 0, w'. split; [done|]. split; [|split; [done|]].
  - apply acts_one; [done|]. intros _. split; [split; [by eapply settled_key|]|split; [done|]].
    + destruct Hl as [H1 H2 H3 H4 H5 H6 H7 H8].
      destruct (merge_logged pi (term_at pi (rlog (nd w))) es (rlog (nd w)) H1 H2 Hpi Hn Ht) as [Hwf Hu].
      rewrite Em in Hwf, Hu. by constructor.
    + unfold replica_of. change (role (nd w')) with (role (nd w)). rewrite Hr.
      refine (ra_merge C (id (nd w)) heard (server_of (nd w)) _ _ _ _ (sent w) l pi _ es c Hr _ Hfit).
      unfold server_of. cbn [s_term]. by rewrite Et.
  - intros _. split; [done|]. split; [by apply fits_merged|]. intros k e He. apply merged_has; [lia|done].
Qed.

(** A follower that has what a message carries takes over its commit index, up to its
    own last index. *)
Lemma follow_kept b c (w : W) :
  respects log_kept w (when (b && (commit_index (nd w) <? c))
    (_ ← on_node (λ n, n <| commit_index := Z.min c (last_index (rlog n)) |>); RaftNode_apply_committed clock)).
Proof.
  destruct (_ && _) eqn:E; cbn [when]; [|apply (preserves_ret _)]. apply andb_true_iff in E as [_ E%Z.ltb_lt].
  apply (respects_bind _); [|intros _ w' _; apply log_kept_committed].
  intros Hl. pose proof (logged_last_index _ Hl) as El. pose proof (len_nonneg (entries (rlog (nd w)))).
  destruct Hl as [H1 H2 H3 H4 H5 H6 H7 H8]. split; [|done]. constructor; try done. cbn in *. lia.
Qed.

Lemma acts_follow b l pi pt es c (w : W) :
  heard (Append (term_of (nd w)) l pi pt es c) → role (nd w) = FOLLOWER →
  (b = true → holds (entries (rlog (nd w))) pi pt es) →
  respects acts w (when (b && (commit_index (nd w) <? c))
    (_ ← on_node (λ n, n <| commit_index := Z.min c (last_index (rlog n)) |>); RaftNode_apply_committed clock)).
Proof.
  intros Hh Hr Hhold. destruct (_ && _) eqn:E; cbn [when]; [|apply (preserves_ret _)].
  apply andb_true_iff in E as [-> E%Z.ltb_lt]. specialize (Hhold eq_refl).
  apply (respects_bind _).
  2: { intros _ w' _. apply acts_apply_committed. }
  apply acts_one; [done|]. intros [Hset Hl]. pose proof (logged_last_index _ Hl) as El. pose proof (len_nonneg (entries (rlog (nd w)))).
  split; [split|split; [done|]].
  - by apply (settled_key C (nd w)); [|apply (st_plain _ _ Hset)|].
  - destruct Hl as [H1 H2 H3 H4 H5 H6 H7 H8]. constructor; try done. cbn in *. lia.
  - unfold replica_of. cbn. rewrite Hr. change (log (nd w)) with (rlog (nd w)). rewrite El.
    by apply (ra_follow C (id (nd w)) heard (server_of (nd w)) _ _ _ _ (sent w) l pi pt es c).
Qed.

Lemma acts_on_append t l pi pt es c :
  heard (Append t l pi pt es c) →
  ∀ w : W, sound (id (nd w)) (Append t l pi pt es c) → respects acts w (RaftNode_on_append clock wall t l pi pt es c).
Proof.
  intros Hh w Hs. unfold RaftNode_on_append. apply (respects_gets acts). pose proof (proj1 Hs) as Hne.
  destruct (Z.ltb_spec t (term_of (nd w))) as [|Hge]; [by apply acts_send|].
  apply follow_then; [done|]. intros w1 Ht Hr Hi. rewrite <-Hi in Hs, Hne. clear Hi Hge w.
  eapply acts_bind_run; [reflexivity| |].
  { apply (idle_node_at (λ n, n <| role := FOLLOWER |> <| leader_id := Some l |> <| last_leader_contact := clock |>)); [|done..].
    unfold key. cbn. by rewrite Hr. }
  set (w2 := update _ _). destruct (reset_exact clock false w2) as (y & d & r & E). pose proof (acts_reset false w2) as Hreset.
  unfold respects in Hreset. rewrite E in Hreset. eapply acts_bind_run; [exact E|exact Hreset|]. clear E Hreset.
  set (w3 := update _ _). intros Hw3.
  destruct (acts_merge t l pi pt es c w3 Hs Hh Ht eq_refl Hw3) as (ok & x & h & w4 & E & Ha & Hk & Hok).
  revert Hw3. eapply acts_bind_run; [exact E|exact Ha|]. apply (respects_gets acts).
  assert (term_of (nd w4) = t ∧ role (nd w4) = FOLLOWER) as [Et4 Er4].
  { unfold key in Hk. unfold term_of. injection Hk as _ _ _ _ _ _ E2 E3 _. rewrite E2, E3. split; [exact Ht|done]. }
  apply acts_then.
  - apply (acts_follow ok l pi pt es c); [by rewrite Et4|by rewrite Er4|]. intros E'. by apply Hok.
  - apply (preserves_when _), (preserves_bind _ _ _); [by apply silent_on_node|intros _; apply silent_apply_committed].
  - apply follow_kept.
  - intros _ w5 Hk5 El. apply (respects_gets acts). apply acts_send. intros _. rewrite Hk in Hk5.
    assert (id (nd w5) = id (nd w3) ∧ term_of (nd w5) = term_of (nd w3) ∧ role (nd w5) = role (nd w3)) as (I5 & T5 & R5).
    { unfold key, term_of in *. injection Hk5 as E1 _ _ _ _ _ E2 E3 _. by rewrite E1, E2, E3. }
    cbn [may_say]. rewrite I5, T5. split_and!; [done|exact Hne|]. intros ->. destruct (Hok eq_refl) as (-> & Hhold).
    split_and!; [cbn; by rewrite T5|cbn; by rewrite R5|]. exists l, pi, pt, es, c. cbn [replica_of r_log]. rewrite El.
    change (term_of (nd w3)) with (term_of (nd w1)). rewrite Ht. by split_and!.
Qed.

(** *** Acknowledgements *)

(** A table entry, as read in a state whose tables are those of [w]. *)
Lemma get_key_then {A} (tbl : gmap NodeId Z) p (f : Z → M W A) (w : W) :
  (∀ i, tbl !! p = Some i → respects acts w (f i)) → respects acts w (get_key tbl p ≫= f).
Proof.
  intros Hf. unfold get_key. destruct (tbl !! p) as [i|] eqn:E; [|apply (preserves_raise acts)].
  change (respects acts w (f i)). by apply Hf.
Qed.

(** A successful answer raises the match index. *)
Lemma acts_matched p x c mi (w : W) :
  heard (AppendResp (term_of (nd w)) p true x c) → role (nd w) = LEADER → match_index (nd w) !! p = Some mi →
  respects acts w (on_node (λ n, n <| match_index := <[p := Z.max mi x]> (match_index n) |>
                                   <| next_index := <[p := Z.max mi x + 1]> (next_index n) |>)).
Proof.
  intros Hh Hr Hmi. apply acts_one; [done|]. intros [Hset Hl]. pose proof (lg_match _ Hl _ _ Hmi) as H0. split; [split|split; [done|]].
  - by apply (settled_key C (nd w)); [|apply (st_plain _ _ Hset)|].
  - destruct Hl as [H1 H2 H3 H4 H5 H6 H7 H8]. constructor; try done; cbn; intros q i [[_ <-]|[_ Hi]]%lookup_insert_Some;
      [lia|by eapply H5|lia|by eapply H6].
  - unfold replica_of. cbn. rewrite Hr. apply ra_table. intros q i [[<- <-]|[_ Hi]]%lookup_insert_Some; [right|by right; left].
    destruct (Z.max_spec mi x) as [[_ ->]|[_ ->]]; [right; by exists c|by left].
Qed.

Lemma acts_on_append_resp t f s x c :
  heard (AppendResp t f s x c) →
  ∀ w : W, sound (id (nd w)) (AppendResp t f s x c) → respects acts w (RaftNode_on_append_resp clock t f s x c).
Proof.
  intros Hh w Hne. unfold RaftNode_on_append_resp. apply (respects_gets acts).
  destruct (negb (is_leader (nd w)) || _) eqn:E.
  { destruct (Z.ltb_spec (term_of (nd w)) t); cbn [when]; [apply acts_step_down; lia|apply (preserves_ret acts)]. }
  apply orb_false_iff in E as [Er Et]. apply negb_false_iff, bool_decide_eq_true in Er.
  apply negb_false_iff, Z.eqb_eq in Et. subst t.
  eapply acts_bind_run; [reflexivity|by apply (idle_node_at (λ n, n <| last_peer_ack := <[f := clock]> (last_peer_ack n) |>))|].
  set (w1 := update _ _). destruct s.
  - apply get_key_then. intros mi Hmi. apply (respects_bind acts); [by eapply (acts_matched f x c mi w1)|].
    intros [] w2 [= <-]. apply (office_acts (id (nd w1))); [exact Er|done|apply office_advance].
  - apply get_key_then. intros ni Hni. cbv zeta. set (hint := match c with Some _ => _ | None => _ end).
    apply (office_acts (id (nd w)) w1); [done|done|]. set (m := _ ≫= _). assert (preserves (office (id (nd w))) m) as Hm; [|apply Hm].
    subst m. apply (preserves_bind _ _ _).
    + apply idle_office; [by apply silent_on_node| |by apply tables_kept_same|by apply machine_kept_same].
      apply log_kept_tables; [done|]. intros n Hl. cbn. split; [|apply (lg_match _ Hl)].
      intros q i [[_ <-]|[_ Hi]]%lookup_insert_Some; [lia|by eapply lg_next].
    + intros _. by apply office_send_append.
Qed.

(** ** Every message *)

Lemma acts_handle m (w : W) :
  heard m → sound (id (nd w)) m → respects acts w (RaftNode_handle clock wall m).
Proof.
  intros Hh Hs. destruct m; cbn [RaftNode_handle].
  - apply acts_on_prevote.
  - apply acts_on_prevote_resp.
  - by apply acts_on_vote.
  - by apply acts_on_vote_resp.
  - by apply acts_on_append.
  - by apply acts_on_append_resp.
  - done.
  - apply acts_on_timeout_now.
Qed.

(** ** Timers and requests *)

Lemma acts_check_quorum now : preserves acts (RaftNode_check_quorum clock now).
Proof.
  apply (preserves_gets _ nd). intros w. cbv zeta. destruct (old_config (nd w)).
  - destruct (_ || _); cbn [when]; [by apply acts_step_down|apply (preserves_ret _)].
  - destruct (_ <=? _); cbn [when]; [by apply acts_step_down|apply (preserves_ret _)].
Qed.

Lemma office_then {A B} (m : M W A) (f : A → M W B) (w : W) :
  role (nd w) = LEADER → (∀ me, respects (office me) w m) →
  (∀ x w', role (nd w') = LEADER → respects acts w' (f x)) → respects acts w (m ≫= f).
Proof.
  intros Hr Hm Hf Hw. apply (respects_bind acts); [by apply (office_acts (id (nd w))), Hm|..|done].
  intros x w' E. destruct (Hm (id (nd w)) Hw Hr eq_refl) as (_ & Hr' & _). rewrite E in Hr'. by apply Hf.
Qed.

Lemma acts_tick now : preserves acts (RaftNode_tick clock wall now).
Proof.
  apply (preserves_gets _ nd). intros w. destruct (is_leader (nd w)) eqn:Hl.
  2:{ destruct (_ <=? _); cbn [when]; [apply acts_campaign|apply (preserves_ret _)]. }
  apply bool_decide_eq_true in Hl. cbv zeta.
  assert (∀ me b f, (∀ n, key (f n) = key n) → (∀ n, log_fields (f n) = log_fields n) → (∀ n, machine_of (f n) = machine_of n) →
    preserves (office me) (when b (_ ← on_node f; RaftNode_send_all_appends))) as H1.
  { intros me b f Hk Hf Hm. apply (preserves_when _), (preserves_bind _ _ _); [by apply office_node|intros _; apply office_send_all]. }
  assert (∀ me b f, (∀ n, key (f n) = key n) → (∀ n, log_fields (f n) = log_fields n) → (∀ n, machine_of (f n) = machine_of n) →
    preserves (office me) (when b (_ ← RaftNode_send_all_appends; on_node f))) as H2.
  { intros me b f Hk Hf Hm. apply (preserves_when _), (preserves_bind _ _ _); [apply office_send_all|intros _; by apply office_node]. }
  apply office_then; [done|intros me; by apply H1|]. intros [] w1 Hl1. apply (respects_gets acts).
  apply office_then; [done|intros me; by apply H2|]. intros [] w2 Hl2. apply (respects_gets acts).
  apply (preserves_when _), (preserves_bind _ _ _); [apply acts_check_quorum|intros _; by apply idle_node].
Qed.

Lemma acts_propose payload : plain payload → preserves acts (RaftNode_propose clock wall payload).
Proof.
  intros Hp w. destruct (decide (role (nd w) = LEADER)) as [Hr|Hr].
  - apply (office_acts (id (nd w))); [done|done|]. by apply office_propose.
  - unfold RaftNode_propose. apply (respects_gets acts).
    replace (negb (is_leader (nd w))) with true; [apply (preserves_ret _)|].
    symmetry. apply negb_true_iff. by apply bool_decide_eq_false.
Qed.

Lemma acts_transfer target : preserves acts (RaftNode_transfer_leadership clock target).
Proof.
  apply (preserves_gets _ nd). intros w. destruct (_ || _); [apply (preserves_ret _)|].
  apply (respects_bind acts); [by apply idle_node|]. intros _ w1 _.
  apply (respects_bind acts); [by apply acts_send|]. intros _ w2 _. apply (preserves_ret _).
Qed.

(** A new node object. *)
Lemma acts_init (w : W) : snapshot_dir (nd w) = None → respects acts w (RaftNode_init clock).
Proof.
  intros Hd. unfold RaftNode_init. destruct (reset_exact clock true w) as (y & d & r & E).
  pose proof (acts_reset true w) as Ha. unfold respects in Ha. rewrite E in Ha.
  eapply acts_bind_run; [exact E|exact Ha|]. unfold RaftNode_load_snapshot_file. apply (respects_gets acts). cbn. rewrite Hd.
  apply (preserves_ret acts).
Qed.
End refinement.
