(* ===== verification/ReplicationNet.v ===== *)
(** * A cluster of Raft nodes implements the replication protocol

    Nodes that keep their logs in memory and take no snapshots, in the network of
    [Network]; a restarted node has its log.  Every run of the network is a run of the
    protocol of [RaftSpec], whose properties hold of the nodes. *)
From stdpp Require Import relations.
From S2P Require Import Prelude Bytes RaftLog RaftLogFacts KVStore RaftInterfaces RaftNode ElectionSpec RaftSpec CommitSpec NodeFacts NodeElection Network Replication.
Local Open Scope Z_scope.

(** ** Lifting a node's actions to the cluster *)

Lemma raft_action_mono C i (P Q : Msg → Prop) x y :
  (∀ m, P m → Q m) → raft_action C i P x y → raft_action C i Q x y.
Proof.
  intros HPQ Ha. destruct Ha; try (by constructor); try (by econstructor; eauto).
  - apply ra_say. destruct m; try done. destruct H as (H1 & H2 & H3). split_and!; [done..|]. intros E.
    destruct (H3 E) as (H4 & H5 & l & pi & pt & es & c & Hh & Hrest). split_and!; [done..|]. exists l, pi, pt, es, c. auto.
  - apply ra_table. intros p x Hx. destruct (H p x Hx) as [|[|[c Hc]]]; [by left|by right; left|right; right]. eauto.
Qed.

Lemma raft_action_out C i P r o r' o' :
  raft_action C i P (r, o) (r', o') → ∃ out, o' = o ++ out ∧ raft_action C i P (r, []) (r', out).
Proof.
  remember (r, o) as x eqn:Ex. remember (r', o') as y eqn:Ey.
  intros Ha; destruct Ha; injection Ex as <- <-; injection Ey as <- <-.
  1: { exists [(d, m)]. split; [done|]. by apply (ra_say C i P r0 []). }
  all: exists []; rewrite app_nil_r; split; [done|by econstructor].
Qed.

Lemma raft_lift C i old x y :
  rtc (raft_action C i (λ m, (i, m) ∈ old)) x y → ∀ c,
  replicas c !! i = Some x.1 → old ⊆ wired c →
  ∃ out, y.2 = x.2 ++ out ∧ rtc (raft_step C) c (mkRaft (<[i := y.1]> (replicas c)) (wired c ++ out)).
Proof.
  induction 1 as [[s o]|[s o] [s1 o1] [s2 o2] Hact _ IH]; intros c Hi Hsub; cbn [fst snd] in *.
  - exists []. rewrite !app_nil_r, insert_id by done. split; [done|]. destruct c. apply rtc_refl.
  - destruct (raft_action_out _ _ _ _ _ _ _ Hact) as (out1 & -> & Ha).
    destruct (IH (mkRaft (<[i := s1]> (replicas c)) (wired c ++ out1))) as (out2 & -> & Hrest); cbn [replicas wired].
    { by rewrite lookup_insert_eq. }
    { intros x Hx. apply elem_of_app. left. by apply Hsub. }
    exists (out1 ++ out2). rewrite app_assoc. split; [done|]. eapply rtc_l.
    + apply (raft_do C c i s s1 out1); [done|]. eapply raft_action_mono; [|exact Ha]. intros m Hm. by apply Hsub.
    + cbn [replicas wired] in Hrest. by rewrite insert_insert_eq, <-app_assoc in Hrest.
Qed.

(** ** The network *)

Section replicas.
Context {Rng : Type} `{Random Rng}.
Abbreviation Node := (RaftNode RaftLog Rng).
Abbreviation Net := (Net RaftLog Rng).
Abbreviation NodeM := (M (World RaftLog Rng)).

(** A state machine that has applied nothing. *)
Definition fresh_machine (sm : option KVStore) : Prop := sm = None ∨ sm = Some KVStore_init.

(** The steps of [Network], where a restarted node has the log it had and a new state
    machine. *)
Inductive replica_step (C : gset NodeId) : Net → Net → Prop :=
  | replica_deliver net i n m clock wall :
      nodes net !! i = Some n → (i, m) ∈ soup net →
      replica_step C net (after net i n (RaftNode_handle clock wall m))
  | replica_tick net i n now clock wall :
      nodes net !! i = Some n →
      replica_step C net (after net i n (RaftNode_tick clock wall now))
  | replica_propose net i n payload clock wall :
      nodes net !! i = Some n → plain payload →
      replica_step C net (after net i n (RaftNode_propose clock wall payload))
  | replica_transfer net i n target clock :
      nodes net !! i = Some n →
      replica_step C net (after net i n (RaftNode_transfer_leadership clock target))
  | replica_restart net i n p ids r sm timeout heartbeat batch clock :
      nodes net !! i = Some n → ds_path (persister n) = true →
      DurableState_init true (ds_file (persister n)) = inr p →
      NoDup ids → list_to_set ids = C → fresh_machine sm →
      replica_step C net (after net i (restarted n p ids r sm timeout heartbeat batch (log n)) (RaftNode_init clock)).

Record replica_init (C : gset NodeId) (net : Net) : Prop := {
  ri_net : net_init C net;
  ri_nodes i n : nodes net !! i = Some n → rlog n = RaftLog_init ∧ commit_index n = 0 ∧ machine_of n = (0, ∅) ∧ logged n;
}.

Definition replica_reachable (C : gset NodeId) (net : Net) : Prop :=
  ∃ net0, replica_init C net0 ∧ rtc (replica_step C) net0 net.

Lemma replica_step_net C net net' : net_ok C net → replica_step C net net' → net_step C net net'.
Proof.
  intros ok Hs. destruct Hs; [by eapply net_deliver|by eapply net_tick|by eapply net_propose|by eapply net_transfer|].
  eapply net_restart; try done. eapply st_plain, no_nodes; [done|eassumption].
Qed.

Definition raft_of (net : Net) : Raft := mkRaft (replica_of <$> nodes net) (soup net).

Lemma raft_of_node net i n : nodes net !! i = Some n → replicas (raft_of net) !! i = Some (replica_of n).
Proof. intros Hi. cbn. by rewrite lookup_fmap, Hi. Qed.

(** Nodes with their logs, in a network that follows the protocol. *)
Definition followed (C : gset NodeId) (net : Net) : Prop :=
  net_ok C net ∧ (∀ i n, nodes net !! i = Some n → logged n) ∧ ∃ H, raft_inv C H (raft_of net).

(** Messages are what the handlers rely on. *)
Lemma followed_sound C net d m : followed C net → (d, m) ∈ soup net → sound d m.
Proof.
  intros (ok & _ & H' & Hsaid & _ & hok & _) Hm. pose proof (no_soup _ _ ok _ _ Hm) as Hp.
  assert (message_ok H' d m) as Hmok by (apply (ho_said _ _ hok); by rewrite Hsaid).
  destruct m as [| | | |t l pi pt es c|t f s x c| |]; try done.
  - destruct Hmok as (Hd & log & Hr & Hpi & _ & k & ->). destruct (ho_sane _ _ hok _ _ _ Hr) as [Hn Ht].
    split_and!; [done|done| | |exact Hp].
    + apply numbered_take. replace (pi + 1) with (1 + Z.of_nat (Z.to_nat pi)) by lia. by apply numbered_drop.
    + apply Forall_take, Forall_drop. eapply Forall_impl; [exact Ht|]. intros e He; cbn in *; lia.
  - by destruct Hmok.
Qed.

(** An operation of a node. *)
Lemma op_follows {A} C net i n n0 c0 (op : NodeM A) :
  id n0 = i → ready C n0 → (∀ j m, nodes net !! j = Some m → logged m) →
  rtc (raft_step C) c0 (mkRaft (<[i := replica_of n0]> (replicas (raft_of net))) (soup net)) →
  nodes net !! i = Some n →
  respects (acts C (λ m, (i, m) ∈ soup net)) (mkWorld _ _ n0 [] []) op →
  (∀ j m, nodes (after net i n0 op) !! j = Some m → logged m) ∧ rtc (raft_step C) c0 (raft_of (after net i n0 op)).
Proof.
  intros Hid Hready Hl Hpre Hi Hop. unfold after.
  set (w := (op (mkWorld _ _ n0 [] [])).2) in *. unfold respects in Hop. fold w in Hop.
  destruct (Hop Hready) as ((_ & Hl') & _ & Hact). cbn [nd] in Hact. rewrite Hid in Hact. split.
  - cbn. intros j m [[<- <-]|[_ Hj]]%lookup_insert_Some; [done|by eapply Hl].
  - set (c1 := mkRaft _ (soup net)) in Hpre.
    destruct (raft_lift C i (soup net) _ _ Hact c1) as (out & Eout & Hsteps).
    { cbn. by rewrite lookup_insert_eq. }
    { done. }
    cbn in Eout. etrans; [exact Hpre|]. unfold raft_of. cbn in *. by rewrite insert_insert_eq, <-fmap_insert, <-Eout in Hsteps.
Qed.

Lemma op_follows_same {A} C net i n (op : NodeM A) :
  followed C net → nodes net !! i = Some n →
  respects (acts C (λ m, (i, m) ∈ soup net)) (mkWorld _ _ n [] []) op →
  (∀ j m, nodes (after net i n op) !! j = Some m → logged m) ∧
  rtc (raft_step C) (raft_of net) (raft_of (after net i n op)).
Proof.
  intros (ok & Hl & _) Hi Hop. destruct (no_nodes _ _ ok _ _ Hi) as [Hset Hid].
  eapply op_follows; [done|split; [done|by eapply Hl]|done| |done|done].
  rewrite insert_id by by apply raft_of_node. apply rtc_refl.
Qed.

Lemma restart_follows C net i n p ids r sm timeout heartbeat batch clock :
  followed C net → nodes net !! i = Some n → ds_path (persister n) = true →
  DurableState_init true (ds_file (persister n)) = inr p → NoDup ids → list_to_set ids = C → fresh_machine sm →
  let net' := after net i (restarted n p ids r sm timeout heartbeat batch (log n)) (RaftNode_init clock) in
  (∀ j m, nodes net' !! j = Some m → logged m) ∧ rtc (raft_step C) (raft_of net) (raft_of net').
Proof.
  intros (ok & Hl & _) Hi Hpath Hp Hnd Hids Hsm. destruct (no_nodes _ _ ok _ _ Hi) as [Hset Hid].
  pose proof (st_synced _ _ Hset Hpath) as Hsync. rewrite Hpath, Hp in Hsync. injection Hsync as ->.
  set (n0 := restarted _ _ _ _ _ _ _ _ _). cbv zeta. eapply op_follows; [exact Hid| |done| |exact Hi|by apply acts_init].
  - split; [|destruct (Hl i n Hi) as [H1 H2 H3 _ _ _ H7 _]; by split].
    apply new_settled; [apply (st_me _ _ Hset)|done|done|apply (st_plain _ _ Hset)|apply (st_synced _ _ Hset)].
  - apply rtc_once. rewrite <-(app_nil_r (soup net)).
    refine (raft_do C (raft_of net) i (replica_of n) _ [] _ _); [by apply raft_of_node|].
    assert (machine_of n0 = (0, ∅)) as Em by by destruct Hsm as [-> | ->].
    unfold replica_of at 2. rewrite Em. exact (ra_restart C i _ (server_of n) (entries (rlog n)) _ _ _ []).
Qed.

Lemma replica_step_follows C net net' :
  followed C net → replica_step C net net' →
  followed C net' ∧ rtc (raft_step C) (raft_of net) (raft_of net').
Proof.
  intros Hf Hs. assert ((∀ j m, nodes net' !! j = Some m → logged m) ∧ rtc (raft_step C) (raft_of net) (raft_of net')) as [Hl Hsteps].
  { destruct Hs as [net i n m clock wall Hi Hm|net i n now clock wall Hi|net i n payload clock wall Hi Hp|net i n target clock Hi|].
    - apply op_follows_same; [done|done|]. apply acts_handle; [done|]. cbn.
      destruct (no_nodes _ _ (proj1 Hf) _ _ Hi) as [_ ->]. by eapply followed_sound.
    - apply op_follows_same; [done|done|]. apply acts_tick.
    - apply op_follows_same; [done|done|]. by apply acts_propose.
    - apply op_follows_same; [done|done|]. apply acts_transfer.
    - by apply restart_follows. }
  split; [|done]. destruct Hf as (ok & _ & H' & inv). split_and!; [|done|].
  - by eapply net_step_refines, replica_step_net.
  - destruct (raft_inv_steps _ _ _ _ inv Hsteps) as (H'' & _ & inv'). by exists H''.
Qed.

Lemma replica_steps_follow C net net' :
  followed C net → rtc (replica_step C) net net' → followed C net' ∧ rtc (raft_step C) (raft_of net) (raft_of net').
Proof.
  intros Hf Hsteps. induction Hsteps as [x|x y z Hxy _ IH]; [split; [done|apply rtc_refl]|].
  destruct (replica_step_follows _ _ _ Hf Hxy) as [Hf1 Hs1]. destruct (IH Hf1) as [Hf2 Hs2].
  split; [done|by etrans].
Qed.

Lemma replica_init_raft C net : replica_init C net → raft_init C (raft_of net).
Proof.
  intros [[Hd Hs Hn] Hl]. split_and!; [by cbn; rewrite dom_fmap_L|done|]. intros i r Hi. cbn in Hi.
  rewrite lookup_fmap in Hi. destruct (nodes net !! i) as [n|] eqn:E; [|done]. injection Hi as <-.
  destruct (Hn i n E) as (_ & _ & Hr & Hv), (Hl i n E) as (El & Ec & Em & Hlg). split_and!; [cbn [r_log replica_of]; by rewrite El|done|done|apply Hlg|done|done].
Qed.

Lemma replica_init_followed C net : replica_init C net → followed C net.
Proof.
  intros Hinit. destruct (raft_inv_init _ _ (replica_init_raft _ _ Hinit)) as [H' inv].
  destruct Hinit as [[Hd Hs Hn] Hl]. split_and!; [|intros i n Hi; by apply (Hl i n Hi)|by exists H'].
  constructor; [intros i n Hi; destruct (Hn i n Hi); tauto|]. rewrite Hs. by intros d m ?%not_elem_of_nil.
Qed.

Lemma replica_follows C net : replica_reachable C net → followed C net ∧ raft_reachable C (raft_of net).
Proof.
  intros (net0 & Hinit & Hsteps). destruct (replica_steps_follow _ _ _ (replica_init_followed _ _ Hinit) Hsteps) as [Hf Hs].
  split; [done|]. exists (raft_of net0). split; [by apply replica_init_raft|done].
Qed.

(** ** What follows for the nodes *)

Lemma replicas_match C net a b na nb :
  replica_reachable C net → nodes net !! a = Some na → nodes net !! b = Some nb →
  matching (entries (rlog na)) (entries (rlog nb)).
Proof.
  intros [(_ & _ & H' & inv) _]%replica_follows Ha%raft_of_node Hb%raft_of_node.
  exact (raft_logs_match _ _ _ _ _ _ _ inv Ha Hb).
Qed.

Lemma leader_logs C net net' a b na nb (k : Z) :
  replica_reachable C net → rtc (replica_step C) net net' →
  nodes net !! a = Some na → role na = LEADER → term_at k (rlog na) = term_of na → commit_quorum k na = true →
  nodes net' !! b = Some nb → role nb = LEADER → term_of na <= term_of nb →
  take (Z.to_nat k) (entries (rlog nb)) = take (Z.to_nat k) (entries (rlog na)).
Proof.
  intros [Hf _]%replica_follows Hsteps Ha Hra Hterm Hq Hb Hrb Hle. pose proof Hf as (ok & Hl & H' & inv).
  destruct (decide (k <= 0)) as [Hk|Hk]; [by replace (Z.to_nat k) with 0%nat by lia|].
  destruct (replica_steps_follow _ _ _ Hf Hsteps) as [_ Hraft].
  destruct (raft_inv_steps _ _ _ _ inv Hraft) as (H'' & Hlater & inv'').
  assert (1 <= k) as Hk1 by lia. pose proof (own_entry _ _ (Hl _ _ Ha) Hk1 Hterm) as Hhas.
  assert (majority C (backers C a (replica_of na) (Z.to_nat (k - 1)))) as HM.
  { eapply quorum_majority; [exact inv|by apply raft_of_node|done|]. cbn. rewrite Hra.
    replace (Z.of_nat (Z.to_nat (k - 1)) + 1) with k by lia. rewrite <-(settled_quorum C na k); [done|]. by eapply no_nodes. }
  replace (Z.to_nat k) with (S (Z.to_nat (k - 1))) by lia.
  exact (leaders_complete C H' _ H'' _ a (replica_of na) b (replica_of nb) _ inv Hlater inv''
    (raft_of_node _ _ _ Ha) Hra Hhas HM (raft_of_node _ _ _ Hb) Hrb Hle).
Qed.

(** *** What is committed and applied *)

Section safety.
Context (C : gset NodeId) (net net' : Net) (a b : NodeId) (na nb : Node).
Hypothesis reachable : replica_reachable C net.
Hypothesis later : rtc (replica_step C) net net'.
Hypothesis cov : covered (soup net').
Hypothesis at_a : nodes net !! a = Some na.
Hypothesis at_b : nodes net' !! b = Some nb.

Lemma raft_runs : ∃ c0, raft_init C c0 ∧ rtc (raft_step C) c0 (raft_of net) ∧ rtc (raft_step C) (raft_of net) (raft_of net').
Proof.
  destruct reachable as (net0 & Hinit & Hto). exists (raft_of net0). split; [by apply replica_init_raft|].
  destruct (replica_steps_follow _ _ _ (replica_init_followed _ _ Hinit) Hto) as [Hf Hto'].
  by destruct (replica_steps_follow _ _ _ Hf later) as [_ Hon'].
Qed.

Lemma committed_logs k :
  k <= commit_index na → k <= commit_index nb → take (Z.to_nat k) (entries (rlog na)) = take (Z.to_nat k) (entries (rlog nb)).
Proof.
  destruct raft_runs as (c0 & Hinit & Hto & Hon).
  exact (committed_agree C c0 _ _ a b _ _ Hinit Hto Hon cov (raft_of_node _ _ _ at_a) (raft_of_node _ _ _ at_b) k).
Qed.

Lemma applied_logs sa sb :
  state_machine na = Some sa → state_machine nb = Some sb → applied_index na <= applied_index nb →
  kv_data sa = replay (take (Z.to_nat (applied_index na)) (entries (rlog nb))).
Proof.
  destruct raft_runs as (c0 & Hinit & Hto & Hon). intros Ea Eb.
  pose proof (applied_agree C c0 _ _ a b _ _ Hinit Hto Hon cov (raft_of_node _ _ _ at_a) (raft_of_node _ _ _ at_b)) as Happ.
  cbn in Happ. unfold machine_of in Happ. by rewrite Ea, Eb in Happ.
Qed.
End safety.
End replicas.
