(* ===== verification/Unbatched.v ===== *)
(** * Clusters that do not cut their messages

    A node whose [max_batch] is zero, or as long as its log has no more entries than
    that, puts all that a peer lacks into each append message, so no message carries a
    commit index beyond its entries, which is what state machine safety asks for. *)
From stdpp Require Import relations.
From S2P Require Import Prelude Bytes RaftLog RaftLogFacts KVStore RaftInterfaces RaftNode ElectionSpec RaftSpec CommitSpec NodeFacts NodeElection NodeMonotone Network Replication ReplicationNet.
Local Open Scope Z_scope.

Section unbatched.
Context {Rng : Type} `{Random Rng}.
Context (clock wall : Z).
Abbreviation Node := (RaftNode RaftLog Rng).
Abbreviation W := (World RaftLog Rng).
Abbreviation log_kept := (log_kept (Rng:=Rng)).

(** *** Messages that are covered *)

(** What is sent is covered, and [max_batch] stays. *)
Definition says_covered (w w' : W) : Prop :=
  max_batch (nd w') = max_batch (nd w) ∧ ∃ new, sent w' = sent w ++ new ∧ covered new.

#[export] Instance says_covered_preorder : PreOrder says_covered.
Proof.
  split; [intros w; split; [done|]; exists []; rewrite app_nil_r; split; [done|by constructor]|].
  intros a b c [B1 (n1 & S1 & C1)] [B2 (n2 & S2 & C2)]. split; [congruence|]. exists (n1 ++ n2).
  rewrite S2, S1, app_assoc. split; [done|]. by apply Forall_app.
Qed.

(** Nothing is sent, and the commit index stays. *)
Definition still (w w' : W) : Prop :=
  max_batch (nd w') = max_batch (nd w) ∧ commit_index (nd w') = commit_index (nd w) ∧ sent w' = sent w.

#[export] Instance still_preorder : PreOrder still.
Proof. split; [by intros w|]. intros a b c (? & ? & ?) (? & ? & ?). split_and!; congruence. Qed.

Lemma still_same f :
  (∀ n, max_batch (f n) = max_batch n) → (∀ n, commit_index (f n) = commit_index n) → preserves still (on_node f).
Proof. intros H1 H2 w. split; [apply H1|split; [apply H2|done]]. Qed.

Lemma covered_same f : (∀ n, max_batch (f n) = max_batch n) → preserves says_covered (on_node f).
Proof. intros H1 w. split; [apply H1|]. exists []. rewrite app_nil_r. split; [done|by constructor]. Qed.

Lemma covered_send d m : covers m = true → preserves says_covered (send d m).
Proof. intros Hm w. split; [done|]. exists [(d, m)]. split; [done|]. by constructor. Qed.

Lemma still_covered {A} (m : M W A) : preserves still m → preserves says_covered m.
Proof.
  intros Hm w. destruct (Hm w) as (E1 & _ & E2). split; [done|]. exists []. rewrite app_nil_r. split; [done|by constructor].
Qed.

Lemma still_self : preserves still self.
Proof. by intros w. Qed.

Lemma still_event f : preserves still (modify (λ w : W, w <| applied := f w |>)).
Proof. by intros w. Qed.

Lemma still_draw lo hi : preserves still (draw lo hi).
Proof. intros w. unfold respects, draw. by destruct (uniform lo hi (rng (nd w))) as [v r]. Qed.

Lemma still_apply_command p : preserves still (sm_apply p).
Proof.
  intros w. unfold respects, sm_apply. destruct (state_machine (nd w)) as [sm|]; [|done].
  by destruct (KVStore_apply p sm) as [[e|y] sm'].
Qed.

Lemma still_get_key m p : preserves still (get_key (L:=RaftLog) (Rng:=Rng) m p).
Proof. unfold get_key. destruct (m !! p); [apply (preserves_ret _)|apply (preserves_raise _)]. Qed.

Lemma still_on_log {A} (f : M RaftLog A) : preserves still (on_log (Rng:=Rng) f).
Proof. intros w. unfold respects, on_log. by destruct (f (log (nd w))). Qed.
#[local] Hint Resolve still_self still_event still_draw still_apply_command still_get_key still_on_log : walk.
#[local] Hint Extern 2 (preserves still (on_node _)) => by apply still_same : walk.

Lemma still_save t v : preserves still (save (L:=RaftLog) (Rng:=Rng) t v).
Proof. by apply still_same. Qed.
#[local] Hint Resolve still_save : walk.

Lemma still_reset b : preserves still (RaftNode_reset_election_deadline clock b).
Proof. unfold RaftNode_reset_election_deadline. walk. Qed.
#[local] Hint Resolve still_reset : walk.

Lemma still_step_down t : preserves still (RaftNode_step_down clock t).
Proof. unfold RaftNode_step_down. walk. Qed.

Lemma still_apply_config b : preserves still (apply_config clock b).
Proof. unfold apply_config, set_peers, track_peers, forget_peers. walk. Qed.
#[local] Hint Resolve still_step_down still_apply_config : walk.

Lemma still_entry nxt e : preserves still (apply_entry clock nxt e).
Proof. unfold apply_entry. walk. Qed.
#[local] Hint Resolve still_entry : walk.

Lemma still_loop fuel : preserves still (apply_loop clock fuel).
Proof. induction fuel as [|fuel IH]; cbn [apply_loop]; walk. Qed.
#[local] Hint Resolve still_loop : walk.

Lemma still_write idx t st : preserves still (RaftNode_write_snapshot_file (L:=RaftLog) (Rng:=Rng) idx t st).
Proof. apply still_same; intros n; by destruct (snapshot_dir n). Qed.
#[local] Hint Resolve still_write : walk.

Lemma still_committed : preserves still (RaftNode_apply_committed clock).
Proof. unfold RaftNode_apply_committed, RaftNode_take_snapshot. walk. Qed.
#[local] Hint Resolve still_committed : walk.

(** *** A follower's answers *)
#[local] Hint Extern 2 (preserves says_covered (on_node _)) => by apply covered_same : walk.
#[local] Hint Extern 2 (preserves says_covered (send _ _)) => by apply covered_send : walk.
#[local] Hint Extern 4 (preserves says_covered _) => apply still_covered; solve [eauto with walk] : walk.

Lemma covered_on_append t l pi pt es c : preserves says_covered (RaftNode_on_append clock wall t l pi pt es c).
Proof. unfold RaftNode_on_append. walk. Qed.

Lemma covered_on_install t l i it d : preserves says_covered (RaftNode_on_install_snapshot (L:=RaftLog) (Rng:=Rng) clock t l i it d).
Proof. unfold RaftNode_on_install_snapshot, RaftNode_resync. cbn [log_truncate_disk_through]. walk. Qed.

(** *** What a leader says *)

(** A node that has what it has committed, and one whose log fits into a message. *)
Definition whole (n : Node) : Prop := logged n ∧ commit_index n <= len (entries (rlog n)).
Definition uncut (n : Node) : Prop := max_batch n = 0 ∨ len (entries (rlog n)) <= max_batch n.

(** What is sent is covered if the log still fits in the end; the log only grows. *)
Definition says_whole (w w' : W) : Prop :=
  whole (nd w) → whole (nd w') ∧ max_batch (nd w') = max_batch (nd w) ∧
    len (entries (rlog (nd w))) <= len (entries (rlog (nd w'))) ∧
    ∃ new, sent w' = sent w ++ new ∧ (uncut (nd w') → covered new).

Lemma uncut_before (n n' : Node) :
  max_batch n' = max_batch n → len (entries (rlog n)) <= len (entries (rlog n')) → uncut n' → uncut n.
Proof. unfold uncut. intros -> Hl [?|?]; [by left|right; lia]. Qed.

#[export] Instance says_whole_preorder : PreOrder says_whole.
Proof.
  split; [intros w Hw; split_and!; [done|done|lia|]; exists []; rewrite app_nil_r; split; [done|by constructor]|].
  intros a b c Hab Hbc Ha. destruct (Hab Ha) as (Hb & B1 & L1 & n1 & S1 & C1), (Hbc (proj1 (Hab Ha))) as (Hc & B2 & L2 & n2 & S2 & C2).
  split_and!; [done|congruence|lia|]. exists (n1 ++ n2). rewrite S2, S1, app_assoc. split; [done|].
  intros Hu. apply Forall_app. split; [|by apply C2]. by eapply C1, uncut_before.
Qed.

Lemma calm_whole_at {A} (m : M W A) w : respects log_kept w m → respects still w m → respects says_whole w m.
Proof.
  intros Hl Hs (Hlog & Hc). destruct (Hl Hlog) as [Hlog' El], Hs as (E1 & E2 & E3). rewrite El. split_and!; [|done|lia|].
  - split; [done|]. by rewrite El, E2.
  - exists []. rewrite app_nil_r. split; [done|by constructor].
Qed.

Lemma calm_whole {A} (m : M W A) : preserves log_kept m → preserves still m → preserves says_whole m.
Proof. intros Hl Hs w. by apply calm_whole_at. Qed.

Lemma whole_send_at d m (w : W) : (whole (nd w) → uncut (nd w) → covers m = true) → respects says_whole w (send d m).
Proof.
  intros Hm Hw. cbn. split_and!; [done|done|lia|]. exists [(d, m)]. split; [done|]. intros Hu. constructor; [by apply Hm|constructor].
Qed.

Lemma whole_send d m : covers m = true → preserves says_whole (send d m).
Proof. intros Hm w. by apply whole_send_at. Qed.

Lemma entries_from_all i n (l : RaftLog) :
  n = 0 ∨ len (entries l) <= n → entries_from i (Some n) l = drop (Z.to_nat (Z.max 0 (i - first_index l))) (entries l).
Proof.
  intros Hn. unfold entries_from. cbv zeta. set (out := drop _ _). destruct (Z.eqb_spec n 0) as [|Hz]; [done|].
  destruct Hn as [|Hn]; [done|]. apply take_ge. assert (len out <= len (entries l)) by (unfold out, len; rewrite length_drop; lia).
  unfold slice_bound. pose proof (len_nonneg (entries l)). unfold len in *. destruct (Z.ltb_spec n 0); lia.
Qed.

Lemma whole_send_append p : preserves says_whole (RaftNode_send_append p).
Proof.
  unfold RaftNode_send_append. apply (preserves_gets _ nd). intros w. cbv zeta. set (ni := default _ _).
  destruct (Z.ltb_spec ni (first_index (rlog (nd w)))); [by apply whole_send|].
  apply whole_send_at. intros [Hl Hc] Hu. cbn [covers]. rewrite entries_from_all by exact Hu.
  apply Z.leb_le. pose proof (lg_whole _ Hl) as Hw. unfold uncompacted in Hw.
  unfold rlog in *.
  change (log_view (log (nd w))) with (log (nd w)) in *. rewrite Hw in *. unfold len in *. rewrite length_drop. lia.
Qed.
#[local] Hint Resolve whole_send_append : walk.

Lemma whole_send_all : preserves says_whole RaftNode_send_all_appends.
Proof. unfold RaftNode_send_all_appends. apply (preserves_gets _ nd). intros w. apply (preserves_for_each _). intros p. apply whole_send_append. Qed.
#[local] Hint Resolve whole_send_all : walk.
#[local] Hint Resolve log_kept_self log_kept_reset log_kept_committed log_kept_config : walk.
#[local] Hint Extern 4 (preserves says_whole (on_node _)) => apply calm_whole; [by apply log_kept_same|by apply still_same] : walk.
#[local] Hint Extern 5 (preserves says_whole (send _ _)) => by apply whole_send : walk.
#[local] Hint Extern 6 (preserves says_whole _) => apply calm_whole; solve [eauto with walk] : walk.

Lemma whole_self : preserves says_whole self.
Proof. apply calm_whole; [by intros w|apply still_self]. Qed.

Lemma whole_append_entry payload (w : W) : respects says_whole w (on_log (log_append_entry (term_of (nd w)) payload wall)).
Proof.
  intros (Hl & Hc). pose proof (len_nonneg [mkEntry (last_index (log (nd w)) + 1) (term_of (nd w)) payload]) as H1.
  change (rlog (nd w)) with (log (nd w)) in Hc.
  split; [|split; [done|split; [cbn; rewrite len_app; change (rlog (nd w)) with (log (nd w)); lia|exists []; rewrite app_nil_r; split; [done|by constructor]]]].
  split; [clear H1|cbn; rewrite len_app; lia].
  destruct Hl as [H1 H2 H3 H4 H5 H6 H7 H8].
  destruct (append_entry_wf (term_of (nd w)) payload (rlog (nd w)) _ _ H1 (or_introl H2) H7 eq_refl) as (Hwf & _ & Hf & _).
  by constructor.
Qed.

Lemma whole_advance_loop k : ∀ c (w : W), c <= len (entries (rlog (nd w))) → Z.of_nat k <= c → respects says_whole w (advance_commit_loop clock k c).
Proof.
  induction k as [|k IH]; intros c w Hc Hk; cbn [advance_commit_loop]; [apply (preserves_ret _)|].
  apply (respects_gets says_whole). destruct (_ =? _); cbn [negb]; [|apply IH; lia].
  destruct (commit_quorum c (nd w)); [|apply IH; lia].
  apply (respects_bind says_whole).
  - intros (Hl & _). split; [|split; [done|split; [cbn; lia|exists []; rewrite app_nil_r; split; [done|by constructor]]]].
    split; [|done]. destruct Hl as [H1 H2 H3 H4 H5 H6 H7 H8]. constructor; try done. cbn. lia.
  - intros _ w' _. revert w'. apply calm_whole; [apply log_kept_committed|apply still_committed].
Qed.

Lemma whole_advance : preserves says_whole (RaftNode_advance_commit clock).
Proof.
  unfold RaftNode_advance_commit. apply (preserves_gets _ nd). intros w Hw. refine (whole_advance_loop _ _ w _ _ Hw).
  - by rewrite (logged_last_index _ (proj1 Hw)).
  - pose proof (lg_commit _ (proj1 Hw)). rewrite (logged_last_index _ (proj1 Hw)). pose proof (len_nonneg (entries (rlog (nd w)))). lia.
Qed.
#[local] Hint Resolve whole_self whole_advance : walk.

Lemma whole_propose payload : preserves says_whole (RaftNode_propose clock wall payload).
Proof.
  unfold RaftNode_propose. apply (preserves_gets _ nd). intros w.
  destruct (_ || _); [apply (preserves_ret _)|].
  apply (respects_bind _); [apply whole_append_entry|]. intros e w1 _. revert w1.
  apply (preserves_bind _ _ _); [apply whole_advance|intros _]. walk.
Qed.
#[local] Hint Resolve whole_propose : walk.

Lemma whole_tables f :
  (∀ n, (log (f n), snapshot_dir (f n), term_of (f n), commit_index (f n)) = (log n, snapshot_dir n, term_of n, commit_index n)) →
  (∀ n, max_batch (f n) = max_batch n) →
  (∀ n, logged n → (∀ p i, next_index (f n) !! p = Some i → 1 <= i) ∧ (∀ p i, match_index (f n) !! p = Some i → 0 <= i)) →
  preserves says_whole (on_node f).
Proof.
  intros H1 H2 H3. apply calm_whole; [by apply log_kept_tables|]. apply still_same; [done|]. intros n. specialize (H1 n). by injection H1.
Qed.

Lemma whole_become_leader : preserves says_whole (RaftNode_become_leader clock wall).
Proof.
  unfold RaftNode_become_leader. apply (preserves_bind _ _ _).
  { apply whole_tables; [done|done|]. intros n _. cbn. by split; intros p i ?%lookup_empty_Some. }
  intros _. apply (preserves_bind _ _ _); [apply whole_self|]. intros n0. apply (preserves_bind _ _ _).
  { apply (preserves_for_each _). intros p. apply whole_tables; [done|done|]. intros n Hl. exact (track_tables n p Hl). }
  intros _. walk.
Qed.
#[local] Hint Resolve whole_become_leader : walk.

Lemma whole_save_next v (w : W) : respects says_whole w (save (term_of (nd w) + 1) v).
Proof.
  apply calm_whole_at; [|apply still_save]. apply log_kept_save. intros Hl. pose proof (lg_term _ Hl). lia.
Qed.

Lemma whole_start_election : preserves says_whole (RaftNode_start_election clock wall).
Proof.
  unfold RaftNode_start_election. apply (preserves_gets _ nd). intros w.
  apply (respects_bind _); [apply whole_save_next|]. intros _ w1 _. revert w1.
  set (m := _ ≫= _). change (preserves says_whole m). subst m. walk.
Qed.
#[local] Hint Resolve whole_start_election : walk.

Lemma whole_campaign : preserves says_whole (RaftNode_start_prevote_or_election clock wall).
Proof. unfold RaftNode_start_prevote_or_election. walk. Qed.

Lemma whole_step_down t : preserves says_whole (RaftNode_step_down clock t).
Proof. intros w. apply calm_whole_at; [apply log_kept_step_down|apply still_step_down]. Qed.
#[local] Hint Resolve whole_campaign whole_step_down : walk.

Lemma whole_check_quorum now : preserves says_whole (RaftNode_check_quorum clock now).
Proof. unfold RaftNode_check_quorum. walk. Qed.
#[local] Hint Resolve whole_check_quorum : walk.

Lemma whole_tick now : preserves says_whole (RaftNode_tick clock wall now).
Proof. unfold RaftNode_tick. walk. Qed.

Lemma whole_transfer target : preserves says_whole (RaftNode_transfer_leadership (L:=RaftLog) (Rng:=Rng) clock target).
Proof. unfold RaftNode_transfer_leadership. walk. Qed.

Lemma whole_maybe_win : preserves says_whole (RaftNode_maybe_win clock wall).
Proof. unfold RaftNode_maybe_win. walk. Qed.
#[local] Hint Resolve whole_maybe_win : walk.

(** The new indexes of a peer that has answered. *)
Lemma whole_progress p mi ni :
  0 <= mi → 1 <= ni →
  preserves says_whole (on_node (λ n : Node, n <| match_index := <[p := mi]> (match_index n) |> <| next_index := <[p := ni]> (next_index n) |>)).
Proof.
  intros Hm Hn. apply whole_tables; [done|done|]. intros n Hl. cbn. split; intros q i [[_ <-]|[_ Hq]]%lookup_insert_Some; try done.
  - by eapply lg_next.
  - by eapply lg_match.
Qed.

Lemma whole_back_off p ni : 1 <= ni → preserves says_whole (on_node (λ n : Node, n <| next_index := <[p := ni]> (next_index n) |>)).
Proof.
  intros Hn. apply whole_tables; [done|done|]. intros n Hl. cbn. split; [intros q i [[_ <-]|[_ Hq]]%lookup_insert_Some|by apply lg_match]; [done|by eapply lg_next].
Qed.

Lemma whole_on_append_resp t from ok x c : preserves says_whole (RaftNode_on_append_resp clock t from ok x c).
Proof.
  unfold RaftNode_on_append_resp. apply (preserves_gets _ nd). intros w. destruct (_ || _).
  { destruct (term_of (nd w) <? t); [apply whole_step_down|apply (preserves_ret _)]. }
  intros Hw. pose proof (lg_match _ (proj1 Hw)) as Hm. revert Hw. set (m := _ ≫= _). change (respects says_whole w m). subst m.
  apply (respects_bind _); [by apply calm_whole; [apply log_kept_same|apply still_same]|]. intros _ w1 _.
  unfold get_key. destruct ok.
  - destruct (match_index (nd w) !! from) as [mi|] eqn:E; [|apply (preserves_raise _)]. pose proof (Hm _ _ E).
    apply (respects_bind _); [apply (preserves_ret _)|]. intros y w2 [= <- <-]. revert w1.
    apply (preserves_bind _ _ _); [apply whole_progress; lia|]. intros _. apply whole_advance.
  - destruct (next_index (nd w) !! from) as [ni|] eqn:E; [|apply (preserves_raise _)].
    apply (respects_bind _); [apply (preserves_ret _)|]. intros y w2 [= <- <-]. revert w1.
    apply (preserves_bind _ _ _); [apply whole_back_off; lia|]. intros _. apply whole_send_append.
Qed.

Lemma covered_init : preserves says_covered (RaftNode_init (L:=RaftLog) (Rng:=Rng) clock).
Proof. unfold RaftNode_init, RaftNode_load_snapshot_file, RaftNode_resync. cbn [log_truncate_disk_through]. walk. Qed.

(** What any handler sends. *)
Definition sends_covered (w w' : W) : Prop := ∃ new, sent w' = sent w ++ new ∧ (uncut (nd w') → covered new).

Lemma handle_covered m (w : W) : whole (nd w) → sends_covered w (RaftNode_handle clock wall m w).2.
Proof.
  intros Hw.
  assert (∀ c : M W (), preserves says_covered c → sends_covered w (c w).2) as Hc.
  { intros c Hc. destruct (Hc w) as (_ & new & E & Hn). by exists new. }
  assert (∀ c : M W (), preserves says_whole c → sends_covered w (c w).2) as Hwh.
  { intros c Hc'. by destruct (Hc' w Hw) as (_ & _ & _ & Hn). }
  destruct m; cbn [RaftNode_handle].
  - apply Hc. unfold RaftNode_on_prevote. walk.
  - apply Hwh. unfold RaftNode_on_prevote_resp. walk.
  - apply Hc. unfold RaftNode_on_vote. walk.
  - apply Hwh. unfold RaftNode_on_vote_resp. walk.
  - apply Hc, covered_on_append.
  - apply Hwh, whole_on_append_resp.
  - apply Hc, covered_on_install.
  - apply Hwh. unfold RaftNode_on_timeout_now. walk.
Qed.
End unbatched.

(** ** The cluster *)

Section network.
Context {Rng : Type} `{Random Rng}.
Abbreviation Net := (Net RaftLog Rng).

(** The log of every node fits into one message. *)
Definition unbatched (net : Net) : Prop := ∀ i n, nodes net !! i = Some n → uncut n.

Definition unbatched_step (C : gset NodeId) (net net' : Net) : Prop := replica_step C net net' ∧ unbatched net'.

Definition unbatched_reachable (C : gset NodeId) (net : Net) : Prop :=
  ∃ net0, replica_init C net0 ∧ unbatched net0 ∧ rtc (unbatched_step C) net0 net.

Lemma unbatched_steps C (net net' : Net) : rtc (unbatched_step C) net net' → rtc (replica_step C) net net'.
Proof. apply rtc_subrel. by intros ? ? []. Qed.

Lemma unbatched_replica C net : unbatched_reachable C net → replica_reachable C net.
Proof. intros (net0 & Hi & _ & Hs). exists net0. split; [done|by apply unbatched_steps]. Qed.

(** Covered messages so far, so what is committed is in the log. *)
Lemma covered_whole C (net : Net) i n :
  replica_reachable C net → covered (soup net) → nodes net !! i = Some n → whole n.
Proof.
  intros Hr Hcov Hi. pose proof Hr as (net0 & Hinit & Hsteps). destruct (replica_follows _ _ Hr) as [(_ & Hl & _) _].
  pose proof (replica_init_raft _ _ Hinit) as Hrinit. destruct (raft_inv_init _ _ Hrinit) as [H0 inv0].
  destruct (replica_steps_follow _ _ _ (replica_init_followed _ _ Hinit) Hsteps) as [_ Hraft].
  destruct (commits_steps _ _ _ _ inv0 Hraft (commits_init _ _ _ Hrinit) Hcov) as (H1 & _ & (_ & _ & ok & _) & co).
  pose proof (co_replicas _ _ _ co _ _ (raft_of_node _ _ _ Hi)) as Hcert.
  split; [by apply (Hl i)|]. pose proof (len_nonneg (entries (rlog n))).
  assert (commit_index n <= len (entries (rlog n)) ∨ commit_index n <= 0) as [?|?] by (exact (certified_length _ _ _ _ _ Hcert)); lia.
Qed.

Lemma step_covered C (net net' : Net) :
  replica_reachable C net → unbatched net' → replica_step C net net' → covered (soup net) → covered (soup net').
Proof.
  intros Hr Hu' Hs Hcov.
  assert (∀ A (op : M (World RaftLog Rng) A) i n, unbatched (after net i n op) →
    sends_covered (mkWorld _ _ n [] []) (op (mkWorld _ _ n [] [])).2 → covered (soup (after net i n op))) as Hafter.
  { intros A op i n Hu (new & E & Hn). cbn in E |- *. rewrite E. apply Forall_app. split; [done|]. apply Hn.
    apply (Hu i). cbn. by rewrite lookup_insert_eq. }
  assert (∀ i n, nodes net !! i = Some n → whole n) as Hwhole by (intros; by eapply covered_whole).
  destruct Hs as [net i n m clock wall Hi Hm|net i n now clock wall Hi|net i n payload clock wall Hi Hp|net i n target clock Hi|]; (apply Hafter; [exact Hu'|]).
  - by apply handle_covered, (Hwhole i).
  - by apply (whole_tick clock wall now (mkWorld _ _ n [] [])), (Hwhole i).
  - by apply (whole_propose clock wall payload (mkWorld _ _ n [] [])), (Hwhole i).
  - by apply (whole_transfer clock target (mkWorld _ _ n [] [])), (Hwhole i).
  - destruct (covered_init clock (mkWorld _ _ (restarted n p ids r sm timeout heartbeat batch (log n)) [] [])) as (_ & new & E & Hn).
    by exists new.
Qed.

Lemma unbatched_covered C (net : Net) : unbatched_reachable C net → covered (soup net) ∧ unbatched net.
Proof.
  intros (net0 & Hinit & Hu & Hs). revert net Hs. apply (rtc_ind_r (λ net, covered (soup net) ∧ unbatched net)).
  - split; [|done]. destruct Hinit as [[_ Hsoup _] _]. rewrite Hsoup. by constructor.
  - intros net1 net2 Hto [Hs Hu2] [Hcov Hu1]. split; [|done]. eapply step_covered; [|done..].
    exists net0. split; [done|by apply unbatched_steps].
Qed.

(** What is committed and applied agrees. *)
Lemma unbatched_agree C (net net' : Net) a b na nb :
  unbatched_reachable C net → rtc (unbatched_step C) net net' →
  nodes net !! a = Some na → nodes net' !! b = Some nb →
  (∀ k, k <= commit_index na → k <= commit_index nb →
     take (Z.to_nat k) (entries (rlog na)) = take (Z.to_nat k) (entries (rlog nb))) ∧
  (∀ sa sb, state_machine na = Some sa → state_machine nb = Some sb → applied_index na <= applied_index nb →
     kv_data sa = replay (take (Z.to_nat (applied_index na)) (entries (rlog nb)))).
Proof.
  intros Hr Hon Ha Hb. destruct (unbatched_covered C net') as [Hcov _].
  { destruct Hr as (net0 & Hi & Hu & Hs). exists net0. split; [done|]. split; [done|]. by etransitivity. }
  pose proof (unbatched_replica _ _ Hr). pose proof (unbatched_steps _ _ _ Hon).
  split; [|intros sa sb]; [by eapply committed_logs|by eapply applied_logs].
Qed.
End network.
