(* ===== verification/Threads.v ===== *)
(** * Methods with thread switches

    Methods as programs of atomic steps, the threads of Programs.  Run alone, they do
    what the methods of RaftNode
    and CommitLog do; ThreadTheorems runs them against each other, as the servers do,
    which start a thread for each connection and take no lock around a method. *)
From S2P Require Import Prelude Programs Bytes LogRecord FileSystem Segment CommitLog RaftLog RaftInterfaces RaftNode.
Local Open Scope Z_scope.

(** ** [RaftNode] *)

Section node.
Context {L Rng : Type} `{RaftLogOps L} `{Random Rng}.
Context (clock : Z).
Abbreviation NodeProg := (Prog (World L Rng)).

Definition step_down_prog (term : Z) : NodeProg () :=
  n ← atom self;
  _ ← (if term_of n <? term then atom (save term None) else mret ());
  _ ← atom (on_node (λ n, n <| role := FOLLOWER |> <| pre_candidate := false |>
                            <| transfer_target := None |> <| transfer_deadline := 0 |>));
  _ ← atom (RaftNode_reset_election_deadline clock false);
  mret ().

(** [_on_vote]: each use of [self] or of the state file is a step. *)
Definition on_vote_prog (term : Z) (candidate : NodeId) (m_li m_lt : Z) : NodeProg () :=
  n ← atom self;
  if term <? term_of n then atom (send candidate (VoteResp (term_of n) (id n) false))
  else
    _ ← (if term_of n <? term then step_down_prog term else mret ());
    mine ← atom (gets (λ w, RaftNode_progress (nd w)));
    let up_to_date := pair_ge (m_lt, m_li) mine in
    voted ← atom (gets (λ w, voted_for (persister (nd w))));
    let can_vote := bool_decide (voted = None) || bool_decide (voted = Some candidate) in
    let grant := can_vote && up_to_date in
    _ ← (if grant then
           n ← atom self;
           _ ← atom (save (term_of n) (Some candidate));
           _ ← atom (RaftNode_reset_election_deadline clock false);
           mret ()
         else mret ());
    n ← atom self;
    atom (send candidate (VoteResp (term_of n) (id n) grant)).

Lemma step_down_alone t w : run_alone (step_down_prog t) w = RaftNode_step_down clock t w.
Proof.
  unfold step_down_prog, RaftNode_step_down, when. cbn. unfold mbind, M_bind, mret, M_ret, self, gets.
  by destruct (term_of (nd w) <? t).
Qed.

Lemma on_vote_alone t c li lt w : run_alone (on_vote_prog t c li lt) w = RaftNode_on_vote clock t c li lt w.
Proof.
  unfold on_vote_prog, RaftNode_on_vote, self. rewrite run_alone_step, !gets_bind.
  destruct (t <? term_of (nd w)); [apply run_alone_atom|].
  rewrite run_alone_bind. apply bind_ext; [unfold when; destruct (_ <? _); [apply step_down_alone|done]|].
  intros _ s. rewrite !run_alone_step, gets_bind. rewrite run_alone_step, !gets_bind. cbv zeta.
  rewrite run_alone_bind. unfold when. apply bind_ext.
  - destruct (_ && _); [|done]. by rewrite run_alone_step, gets_bind, run_alone_step.
  - intros _ s'. rewrite run_alone_step, !gets_bind. apply run_alone_atom.
Qed.
End node.

(** ** [CommitLog] *)

(** [append]: each use of the log object or of a file is a step. *)
Definition append_prog (payload : bytes) (timestamp : option Z) (now : Z) : Prog (FS * CommitLog) Z :=
  l ← atom this;
  let offset := log_next_offset l in
  let ts := default now timestamp in
  '(i, active) ← atom CommitLog_active;
  '(i, _) ← (if max_segment_bytes l <=? Segment.size active
             then _ ← atom (CommitLog_new_segment offset); atom CommitLog_active
             else mret (i, active));
  record ← atom (lift (encode_record offset payload ts));
  _ ← atom (on_segment i (Segment_append offset record ts));
  _ ← atom (CommitLog.on_log (set_log_next (offset + 1)));
  mret offset.

Lemma active_same s : (CommitLog_active s).2 = s.
Proof. unfold CommitLog_active, this. rewrite gets_bind. by destruct (last (segments s.2)). Qed.

Lemma append_rest_alone o p k i s :
  run_alone (record ← atom (lift (encode_record o p k)); _ ← atom (on_segment i (Segment_append o record k));
    _ ← atom (CommitLog.on_log (set_log_next (o + 1))); mret o) s =
  (record ← lift (encode_record o p k); _ ← on_segment i (Segment_append o record k);
    _ ← CommitLog.on_log (set_log_next (o + 1)); mret o) s.
Proof.
  rewrite run_alone_step. apply bind_ext; [done|]. intros r s2. rewrite run_alone_step. apply bind_ext; [done|].
  intros [] s3. by rewrite run_alone_step.
Qed.

Lemma append_alone p t now s : run_alone (append_prog p t now) s = CommitLog_append p t now s.
Proof.
  unfold append_prog, CommitLog_append, this. rewrite run_alone_step, !gets_bind. cbv zeta. rewrite run_alone_step.
  pose proof (active_same s) as Es. destruct (CommitLog_active s) as [[e|[i g]] s1] eqn:E; cbn [snd] in Es; subst s1.
  { by rewrite !(bind_exn _ _ _ _ _ E). }
  rewrite !(bind_ok _ _ _ _ _ E), run_alone_bind. unfold when. destruct (_ <=? _).
  - rewrite (bind_ext _ _ _ _ _ (run_alone_step _ _ _) (λ _ _, eq_refl)), bind_assoc. apply bind_ext; [done|]. intros _ s1.
    apply bind_ext; [apply run_alone_atom|]. intros [i' g'] s2. apply append_rest_alone.
  - cbn [run_alone]. rewrite !ret_bind, (bind_ok _ _ _ _ _ E). apply append_rest_alone.
Qed.
