(* ===== verification/DurableNet.v ===== *)
(** * A cluster of Raft nodes over durable logs

    The nodes of [RaftServerNode] (pylog/server.py) keep their logs on disk and find
    them there when they restart.  As long as the logs fit the disk, such a cluster does
    what the cluster of [ReplicationNet] does with the logs in memory, so what holds of
    that cluster's logs holds of these. *)
From stdpp Require Import relations.
From S2P Require Import Prelude Bytes RaftLog RaftLogFacts CommitLog LogSpec DurableLog DurableLogFacts KVStore RaftInterfaces RaftNode ElectionSpec RaftSpec NodeFacts NodeElection NodeLog Network Replication ReplicationNet Unbatched.
Local Open Scope Z_scope.

Section durable_net.
Context {Rng : Type} `{Random Rng}.
Abbreviation Node := (RaftNode DurableRaftLog Rng).
Abbreviation Net := (Net DurableRaftLog Rng).
Abbreviation synced := (durable seg_log_repr).

(** The cluster with its logs in memory. *)
Definition mem_net (net : Net) : Network.Net RaftLog Rng := mkNet (mem_node <$> nodes net) (soup net).

(** What the node would have in memory after [op] can be stored. *)
Definition room {A} (n : Node) (op : M (World RaftLog Rng) A) : Prop :=
  storable (rlog (nd (op (mkWorld _ _ (mem_node n) [] [])).2)).

(** [DurableRaftLog(dir, max_segment_bytes)] on the directory of [l]. *)
Definition reopened (max_bytes : Z) (l : DurableRaftLog) : (Exn + ()) * DurableRaftLog :=
  DurableRaftLog_open max_bytes (dl_disk l).1.

(** The steps of [ReplicationNet], where a restarted node opens its log's directory. *)
Inductive durable_step (C : gset NodeId) : Net → Net → Prop :=
  | durable_deliver net i n m clock wall :
      nodes net !! i = Some n → (i, m) ∈ soup net → stamp wall → room n (RaftNode_handle clock wall m) →
      durable_step C net (after net i n (RaftNode_handle clock wall m))
  | durable_tick net i n now clock wall :
      nodes net !! i = Some n → stamp wall → room n (RaftNode_tick clock wall now) →
      durable_step C net (after net i n (RaftNode_tick clock wall now))
  | durable_propose net i n payload clock wall :
      nodes net !! i = Some n → plain payload → stamp wall → room n (RaftNode_propose clock wall payload) →
      durable_step C net (after net i n (RaftNode_propose clock wall payload))
  | durable_transfer net i n target clock :
      nodes net !! i = Some n →
      durable_step C net (after net i n (RaftNode_transfer_leadership clock target))
  | durable_restart net i n p ids r sm timeout heartbeat batch max_bytes u l clock :
      nodes net !! i = Some n → ds_path (persister n) = true →
      DurableState_init true (ds_file (persister n)) = inr p →
      NoDup ids → list_to_set ids = C → fresh_machine sm → reopened max_bytes (log n) = (inr u, l) →
      durable_step C net (after net i (restarted n p ids r sm timeout heartbeat batch l) (RaftNode_init clock)).

(** Nodes start over new directories. *)
Definition durable_init (C : gset NodeId) (net : Net) : Prop :=
  replica_init C (mem_net net) ∧ ∀ i n, nodes net !! i = Some n → synced (log n).

Definition durable_reachable (C : gset NodeId) (net : Net) : Prop :=
  ∃ net0, durable_init C net0 ∧ rtc (durable_step C) net0 net.

(** ** The two clusters go together *)

Definition disks_ok (net : Net) : Prop :=
  ∀ i n, nodes net !! i = Some n → synced (log n) ∧ storable (rlog n).

Lemma mem_net_node net i n : nodes net !! i = Some n → nodes (mem_net net) !! i = Some (mem_node n).
Proof. intros Hi. cbn. by rewrite lookup_fmap, Hi. Qed.

Lemma node_linked C net i n :
  followed C (mem_net net) → disks_ok net → nodes net !! i = Some n → linked synced n.
Proof.
  intros (_ & Hl & _) Hd Hi. destruct (Hl _ _ (mem_net_node _ _ _ Hi)) as [_ _ _ Hdir _ _ Ht _].
  constructor; [by eapply Hd|exact Hdir|exact Ht].
Qed.

(** An operation that both nodes run alike. *)
Lemma op_goes_along {A} net i n (op : M (World DurableRaftLog Rng) A) op' :
  sim synced storable op op' → linked synced n → room n op' → disks_ok net →
  mem_net (after net i n op) = after (mem_net net) i (mem_node n) op' ∧ disks_ok (after net i n op).
Proof.
  intros Hsim Hn Hroom Hd. destruct (Hsim (mkWorld _ _ n [] []) Hn Hroom) as (_ & E & [Hok _ _]).
  unfold after, room in *. unfold mem_world in *. cbn [nd sent applied] in *.
  destruct (op (mkWorld _ _ n [] [])) as [x w], (op' (mkWorld _ _ (mem_node n) [] [])) as [x' w'].
  cbn [fst snd] in *. subst w'. split.
  - unfold mem_net. cbn. by rewrite fmap_insert.
  - intros j m Hj. cbn in Hj. apply lookup_insert_Some in Hj as [[<- <-]|[_ Hj]]; [by split|by eapply Hd].
Qed.

(** A restart: the directory has the log. *)
Lemma restart_goes_along C net i n p ids r sm timeout heartbeat batch max_bytes u l clock :
  followed C (mem_net net) → disks_ok net → nodes net !! i = Some n → ds_path (persister n) = true →
  DurableState_init true (ds_file (persister n)) = inr p →
  NoDup ids → list_to_set ids = C → fresh_machine sm → reopened max_bytes (log n) = (inr u, l) →
  let net' := after net i (restarted n p ids r sm timeout heartbeat batch l) (RaftNode_init clock) in
  replica_step C (mem_net net) (mem_net net') ∧ disks_ok net'.
Proof.
  intros Hf Hd Hi Hpath Hp Hnd Hids Hsm Hre. pose proof Hf as (ok & Hl & _).
  pose proof (mem_net_node net i n Hi) as Hi'. destruct (Hd i n Hi) as [Hsync Hst].
  pose proof (durable_reopen_log seg_log_repr (log n) max_bytes Hsync (proj2 Hst)) as Hopen.
  unfold reopened, DurableRaftLog_open in Hre. unfold returns in Hopen. rewrite Hre in Hopen. destruct Hopen as [El Hsync'].
  pose proof (logged_log _ (Hl _ _ Hi')) as Elog. change (rlog (mem_node n)) with (dl_mem (log n)) in Elog. rewrite <-Elog in El.
  set (n0 := restarted n p ids r sm timeout heartbeat batch l).
  assert (mem_node n0 = restarted (mem_node n) p ids r sm timeout heartbeat batch (log (mem_node n))) as En.
  { unfold n0, restarted, RaftNode_new, mem_node. cbn. by rewrite El. }
  assert (linked synced n0) as Hn0.
  { constructor; [exact Hsync'|done|]. cbn. pose proof (node_linked C net i n Hf Hd Hi) as [_ _ Ht].
    destruct (no_nodes _ _ ok _ _ Hi') as [Hset _]. pose proof (st_synced _ _ Hset Hpath) as Hsy. cbn in Hsy.
    rewrite Hpath, Hp in Hsy. injection Hsy as ->. exact Ht. }
  assert (room n0 (RaftNode_init clock)) as Hroom.
  { unfold room. destruct (steady_init clock (mkWorld _ _ (mem_node n0) [] []) eq_refl) as [_ ->]. cbn. by rewrite El. }
  destruct (op_goes_along net i n0 _ _ (same_sim synced storable _ _ (same_init synced clock)) Hn0 Hroom Hd) as [E Hd'].
  split; [|exact Hd']. cbv zeta. rewrite E, En. by apply replica_restart.
Qed.

Lemma sound_sensible d m : sound d m → sensible m.
Proof. destruct m; cbn; tauto. Qed.

Lemma step_goes_along C net net' :
  followed C (mem_net net) → disks_ok net → durable_step C net net' →
  replica_step C (mem_net net) (mem_net net') ∧ disks_ok net'.
Proof.
  intros Hf Hd Hs. destruct Hs as [net i n m clock wall Hi Hm Hw Hroom|net i n now clock wall Hi Hw Hroom
    |net i n payload clock wall Hi Hp Hw Hroom|net i n target clock Hi
    |net i n p ids r sm timeout heartbeat batch max_bytes u l clock Hi Hpath Hp Hnd Hids Hsm Hre];
    pose proof (node_linked C net i n Hf Hd Hi) as Hn; pose proof (mem_net_node net i n Hi) as Hi'.
  - destruct (op_goes_along net i n _ _ (sim_handle synced storable clock wall Hw m (sound_sensible _ _ (followed_sound C _ i m Hf Hm))) Hn Hroom Hd)
      as [-> Hd']. split; [by apply replica_deliver|done].
  - destruct (op_goes_along net i n _ _ (sim_tick synced storable clock wall Hw now) Hn Hroom Hd) as [-> Hd'].
    split; [by apply replica_tick|done].
  - destruct (op_goes_along net i n _ _ (sim_propose synced storable clock wall Hw payload) Hn Hroom Hd) as [-> Hd'].
    split; [by apply replica_propose|done].
  - assert (room n (RaftNode_transfer_leadership clock target)) as Hroom.
    { unfold room. destruct (steady_transfer clock target (mkWorld _ _ (mem_node n) [] []) (ln_dir _ _ Hn)) as [_ ->]. by eapply Hd. }
    destruct (op_goes_along net i n _ _ (same_sim synced storable _ _ (same_transfer synced clock target)) Hn Hroom Hd) as [-> Hd'].
    split; [by apply replica_transfer|done].
  - by eapply restart_goes_along.
Qed.

Lemma steps_go_along C net net' :
  followed C (mem_net net) → disks_ok net → rtc (durable_step C) net net' →
  rtc (replica_step C) (mem_net net) (mem_net net') ∧ disks_ok net'.
Proof.
  intros Hf Hd Hsteps. induction Hsteps as [x|x y z Hxy _ IH]; [split; [apply rtc_refl|done]|].
  destruct (step_goes_along _ _ _ Hf Hd Hxy) as [Hxy' Hd1]. destruct (replica_step_follows _ _ _ Hf Hxy') as [Hf1 _].
  destruct (IH Hf1 Hd1) as [Hyz Hd2]. split; [by eapply rtc_l|done].
Qed.

Lemma durable_init_ok C net : durable_init C net → followed C (mem_net net) ∧ disks_ok net.
Proof.
  intros [Hinit Hd]. split; [by apply replica_init_followed|]. intros i n Hi. split; [by eapply Hd|].
  destruct (ri_nodes _ _ Hinit _ _ (mem_net_node _ _ _ Hi)) as [E _]. change (rlog n) with (rlog (mem_node n)). rewrite E.
  split; [constructor|done].
Qed.

Lemma durable_follows C net : durable_reachable C net → replica_reachable C (mem_net net) ∧ disks_ok net.
Proof.
  intros (net0 & Hinit & Hsteps). destruct (durable_init_ok _ _ Hinit) as [Hf Hd].
  destruct (steps_go_along _ _ _ Hf Hd Hsteps) as [Hs Hd']. split; [|done]. exists (mem_net net0). by split; [apply Hinit|].
Qed.

(** ** Clusters whose logs fit into messages *)

Definition durable_unbatched_step (C : gset NodeId) (net net' : Net) : Prop := durable_step C net net' ∧ unbatched (mem_net net').

Definition durable_unbatched (C : gset NodeId) (net : Net) : Prop :=
  ∃ net0, durable_init C net0 ∧ unbatched (mem_net net0) ∧ rtc (durable_unbatched_step C) net0 net.

Lemma unbatched_steps_along C net net' :
  followed C (mem_net net) → disks_ok net → rtc (durable_unbatched_step C) net net' →
  rtc (unbatched_step C) (mem_net net) (mem_net net').
Proof.
  intros Hf Hd Hsteps. induction Hsteps as [x|x y z [Hxy Hu] _ IH]; [apply rtc_refl|].
  destruct (step_goes_along _ _ _ Hf Hd Hxy) as [Hxy' Hd1]. destruct (replica_step_follows _ _ _ Hf Hxy') as [Hf1 _].
  eapply rtc_l; [by split|by apply IH].
Qed.

Lemma durable_unbatched_follows C net net' :
  durable_unbatched C net → rtc (durable_unbatched_step C) net net' →
  unbatched_reachable C (mem_net net) ∧ rtc (unbatched_step C) (mem_net net) (mem_net net').
Proof.
  intros (net0 & Hinit & Hu & Hto) Hon. destruct (durable_init_ok _ _ Hinit) as [Hf Hd].
  split; [exists (mem_net net0); split; [apply Hinit|]; split; [done|by apply unbatched_steps_along]|].
  assert (rtc (durable_step C) net0 net) as Hs by (eapply rtc_subrel; [|exact Hto]; by intros x y []).
  destruct (steps_go_along _ _ _ Hf Hd Hs) as [Hs' Hd1].
  destruct (replica_steps_follow _ _ _ Hf Hs') as [Hf1 _]. by apply unbatched_steps_along.
Qed.
End durable_net.
