(* ===== verification/PreVote.v ===== *)
(** * Executing a cluster, and pre-votes

    A schedule names which node's timer fires, which message is delivered and what is
    proposed to whom; running it gives a reachable network.  With pre-votes enabled a schedule of five
    nodes ends with two leaders of one term: the votes of a pre-vote round are
    collected in [votes] while the node is still a candidate of its last election,
    so that a late grant completes a majority of both. *)
From stdpp Require Import relations.
From S2P Require Import Prelude Bytes Unicode RaftLog KVStore RaftInterfaces RaftNode ElectionSpec NodeFacts NodeElection Network.
Local Open Scope Z_scope.

Section run.
Context {L Rng : Type} `{RaftLogLaws L} `{Random Rng}.

Inductive Event : Set :=
  | Fire (i : NodeId) (clock : Z)
  | Deliver (k : nat) (clock : Z)
  | Propose (i : NodeId) (payload : bytes) (clock : Z).

(** The timer of a node, the [k]-th message sent so far, or a client's command. *)
Definition run_event (net : Net L Rng) (e : Event) : option (Net L Rng) :=
  match e with
  | Fire i clock =>
      n ← nodes net !! i; Some (after net i n (RaftNode_tick clock 0 None))
  | Deliver k clock =>
      '(i, m) ← soup net !! k;
      n ← nodes net !! i; Some (after net i n (RaftNode_handle clock 0 m))
  | Propose i payload clock =>
      n ← nodes net !! i;
      if starts_with CFG payload then None else Some (after net i n (RaftNode_propose clock 0 payload))
  end.

Fixpoint run_events (net : Net L Rng) (es : list Event) : option (Net L Rng) :=
  match es with [] => Some net | e :: es' => net' ← run_event net e; run_events net' es' end.

Lemma run_event_step C net e net' : run_event net e = Some net' → net_step C net net'.
Proof.
  destruct e as [i clock|k clock|i payload clock]; cbn -[starts_with CFG].
  - destruct (nodes net !! i) as [n|] eqn:E; [|done]. intros [= <-]. by apply net_tick.
  - destruct (soup net !! k) as [[i m]|] eqn:Ek; [|done]. cbn.
    destruct (nodes net !! i) as [n|] eqn:E; [|done]. intros [= <-].
    apply net_deliver; [done|]. by eapply list_elem_of_lookup_2.
  - destruct (nodes net !! i) as [n|] eqn:E; [|done]. cbn -[starts_with CFG]. destruct (starts_with CFG payload) eqn:Ep; [done|].
    intros [= <-]. apply net_propose; [done|exact Ep].
Qed.

Lemma run_events_steps C es : ∀ net net', run_events net es = Some net' → rtc (net_step C) net net'.
Proof.
  induction es as [|e es IH]; intros net net'; cbn; [intros [= <-]; apply rtc_refl|].
  destruct (run_event net e) as [net1|] eqn:E; [|done]. intros Hr.
  eapply rtc_l; [by eapply run_event_step|by apply IH].
Qed.

(** A cluster as it is started, each node with the log [l] and a state
    file it has not written yet. *)
Definition start_node (prevote : bool) (batch : Z) (ids : list NodeId) (r : Rng) (l : L) (i : NodeId) : RaftNode L Rng :=
  nd (RaftNode_init 0 (mkWorld _ _
    (RaftNode_new i ids r (mkDS true None 0 None) (Some KVStore_init) (150, 300) 50 None batch
       prevote true l None None) [] [])).2.

Definition start_net (prevote : bool) (batch : Z) (ids : list NodeId) (r : Rng) (l : L) : Net L Rng :=
  mkNet (list_to_map ((λ i, (i, start_node prevote batch ids r l i)) <$> ids)) [].

Lemma start_net_node prevote batch ids r l i n :
  nodes (start_net prevote batch ids r l) !! i = Some n → n = start_node prevote batch ids r l i ∧ i ∈ ids.
Proof.
  intros Hi. apply elem_of_list_to_map_2 in Hi. apply list_elem_of_fmap in Hi as (j & E & Hj). by injection E as -> ->.
Qed.

Lemma start_node_settled batch (ids : list NodeId) r l i :
  NoDup ids → plain_entries (entries (log_view l)) → i ∈ ids →
  let n := start_node false batch ids r l i in
  settled (list_to_set ids) n ∧ id n = i ∧ role n = FOLLOWER ∧ voted_for (persister n) = None.
Proof.
  intros Hnd Hl Hi. cbv zeta. unfold start_node. set (w := mkWorld _ _ _ [] []).
  assert (settled (list_to_set ids) (nd w)) as Hset.
  { apply new_settled; [by apply elem_of_list_to_set|done..|by intros ?]. }
  assert (respects silent w (RaftNode_init 0)) as Hs by apply silent_init.
  destruct (Hs (st_plain _ _ Hset)) as (Hp & Hk & _). destruct (server_of_key _ _ Hk) as [Hv Hid].
  split; [by eapply settled_key|]. split; [exact Hid|].
  split; [exact (f_equal s_role Hv)|exact (f_equal s_voted Hv)].
Qed.

Lemma start_net_init batch ids r l :
  NoDup ids → plain_entries (entries (log_view l)) → net_init (list_to_set ids) (start_net false batch ids r l).
Proof.
  intros Hnd Hl. constructor; [|done|].
  - cbn. rewrite dom_list_to_map_L, <-list_fmap_compose. f_equal. apply list_fmap_id.
  - intros i n [-> Hi]%start_net_node. by apply start_node_settled.
Qed.
End run.
