(* ===== verification/LogTheorems.v ===== *)
(** * The commit log: theorems

    The properties of records, segments and the log, with runs that satisfy their
    hypotheses.  [log_repr fs l first rs] reads: the directory [fs] and the object
    [l] stand for the records [rs], the first of which has offset [first]. *)
From S2P Require Import Prelude Bytes Crc32 LogRecord FileSystem Bisect Segment SegmentFacts CommitLog CommitLogFacts Retention LogSpec.
Local Open Scope Z_scope.

(** ** A log to run the theorems on *)

Lemma returns_final {S A} (m : M S A) s (Q : A → S → Prop) :
  returns m s Q → ∃ x, Q x (m s).2.
Proof. intros (x & s' & E & HQ)%returns_inv. exists x. by rewrite E. Qed.

(** The empty log, in an empty directory; three records over two segments. *)
Definition demo_empty : LogState := (CommitLog_init (∅, mkLog (Z.max 1 64) 16 [] 0)).2.
Definition demo_recs : list LogRec := batch_records 0 [[x61; x62]; [x63]; [x64]] [5; 6; 7].
Definition demo_three : LogState := (CommitLog_append_many [[x61; x62]; [x63]; [x64]] (Some [5; 6; 7]) 0 demo_empty).2.

Lemma demo_empty_repr : log_repr demo_empty.1 demo_empty.2 0 [].
Proof.
  assert (list_bases ∅ = []) as Hn by reflexivity.
  destruct (returns_final _ _ _ (cl_create (CommitLogSpec:=seg_log_spec) ∅ 64 16 Hn)) as [x Hx]. exact Hx.
Qed.

Lemma demo_three_repr : log_repr demo_three.1 demo_three.2 0 demo_recs.
Proof.
  destruct (returns_final _ _ _ (cl_append_many (CommitLogSpec:=seg_log_spec) demo_empty 0 [] [[x61; x62]; [x63]; [x64]] (Some [5; 6; 7]) 0
    demo_empty_repr ltac:(simpl; lia)
    ltac:(apply (bool_decide_unpack _); vm_compute; exact I) ltac:(by vm_compute))) as [x [_ Hx]]. exact Hx.
Qed.

(** ** Records *)

(** C36: a record with a payload of at most 64 MiB, and with offset and timestamp in the
    ranges of the header fields, is encoded, and what was encoded is read back, whatever
    follows it in the file, which is left after the record. *)
Theorem record_roundtrip o t p rest :
  rec_ok (mkRec o t p) →
  ∃ b, encode_record o p t = inr b ∧ read_record (b ++ rest) = (inr (Some (mkRec o t p)), rest).
Proof.
  intros Hok. exists (enc (mkRec o t p)). split.
  - by apply encode_record_enc, (rec_ok_packable (mkRec o t p)).
  - by apply read_record_enc.
Qed.

Lemma record_roundtrip_witness :
  rec_ok (mkRec 3 7 [x61]) ∧
  ∃ b, encode_record 3 [x61] 7 = inr b ∧ read_record (b ++ [x00]) = (inr (Some (mkRec 3 7 [x61])), [x00]).
Proof.
  assert (rec_ok (mkRec 3 7 [x61])) as H by (apply (bool_decide_unpack _); vm_compute; exact I).
  split; [exact H|exact (record_roundtrip 3 7 [x61] [x00] H)].
Defined.

(** what [read_record] accepts is an encoding: the bytes it consumed are those
    of the record it returns, whose fields are in range. *)
Theorem record_read_sound f r f' :
  read_record f = (inr (Some r), f') →
  f = enc r ++ f' ∧ encode_record (rec_offset r) (rec_payload r) (rec_timestamp r) = inr (enc r)
  ∧ len (rec_payload r) <= MAX_RECORD_BYTES.
Proof.
  intros H. apply read_record_inv in H as [Hok E]. split; [done|]. split; [|apply Hok].
  rewrite encode_record_enc by by apply rec_ok_packable. by destruct r.
Qed.

Lemma record_read_sound_witness :
  read_record (enc (mkRec 1 2 [x61]) ++ [x07]) = (inr (Some (mkRec 1 2 [x61])), [x07]) ∧
  enc (mkRec 1 2 [x61]) ++ [x07] = enc (mkRec 1 2 [x61]) ++ [x07].
Proof.
  assert (read_record (enc (mkRec 1 2 [x61]) ++ [x07]) = (inr (Some (mkRec 1 2 [x61])), [x07])) as H by (vm_compute; reflexivity).
  split; [exact H|]. exact (proj1 (record_read_sound _ _ _ H)).
Defined.

(** C37: damage to one payload byte of a stored record is always detected; reading
    raises [CorruptRecord]. *)
Theorem record_damage_detected o t a x y b rest :
  rec_ok (mkRec o t (a ++ x :: b)) → x ≠ y →
  (read_record (header_of (mkRec o t (a ++ x :: b)) ++ (a ++ y :: b) ++ rest)).1 = inl CorruptRecord.
Proof.
  intros Hok Hne. rewrite read_record_payload.
  - cbn [rec_payload]. destruct Hok as (_ & _ & Hm). cbn [rec_payload] in Hm.
    destruct (Z.ltb_spec MAX_RECORD_BYTES (len (a ++ x :: b))); [lia|].
    destruct (Z.eqb_spec (crc32 (a ++ y :: b)) (crc32 (a ++ x :: b))) as [E|]; [|done].
    by apply crc32_single_byte in E; [|by apply not_eq_sym].
  - by apply (rec_ok_packable (mkRec o t (a ++ x :: b))).
  - cbn [rec_payload]. by rewrite !len_app, !len_cons.
Qed.

Lemma record_damage_detected_witness :
  rec_ok (mkRec 0 0 ([x61] ++ x62 :: [x63])) ∧
  (read_record (header_of (mkRec 0 0 ([x61] ++ x62 :: [x63])) ++ ([x61] ++ x00 :: [x63]) ++ [])).1 = inl CorruptRecord.
Proof.
  assert (rec_ok (mkRec 0 0 ([x61] ++ x62 :: [x63]))) as H by (apply (bool_decide_unpack _); vm_compute; exact I).
  split; [exact H|]. apply (record_damage_detected 0 0 [x61] x62 x00 [x63] [] H). discriminate.
Defined.

(** [encode_record] raises [struct.error] exactly when a field does not fit the
    header. *)
Theorem record_encode_bounds o p t :
  encode_record o p t = inl StructError ↔
  ¬ (0 <= o < 2 ^ 64 ∧ - 2 ^ 63 <= t < 2 ^ 63 ∧ len p < 2 ^ 32).
Proof.
  split.
  - intros E Hp. by rewrite encode_record_enc in E.
  - intros Hn. by apply encode_record_error.
Qed.

(** a payload over [MAX_RECORD_BYTES] that still fits the length field is
    written without an error and can never be read back. *)
Theorem record_too_long o t p rest :
  0 <= o < 2 ^ 64 → - 2 ^ 63 <= t < 2 ^ 63 → MAX_RECORD_BYTES < len p < 2 ^ 32 →
  ∃ b, encode_record o p t = inr b ∧ (read_record (b ++ rest)).1 = inl CorruptRecord.
Proof.
  intros Ho Ht Hp. assert (packable o t (len p)) as Hpk by (unfold packable; lia).
  exists (enc (mkRec o t p)). split; [by apply encode_record_enc|].
  rewrite enc_split, <-app_assoc, read_record_payload by done. cbn [rec_payload].
  destruct (Z.ltb_spec MAX_RECORD_BYTES (len p)); [done|lia].
Qed.

Lemma record_too_long_witness :
  let p := replicate (Z.to_nat (MAX_RECORD_BYTES + 1)) x00 in
  ∃ b, encode_record 0 p 0 = inr b ∧ (read_record (b ++ [])).1 = inl CorruptRecord.
Proof.
  cbv zeta. apply (record_too_long 0 0 (replicate (Z.to_nat (MAX_RECORD_BYTES + 1)) x00) []).
  - split; [apply Z.leb_le; reflexivity|apply Z.ltb_lt; reflexivity].
  - split; [apply Z.leb_le; reflexivity|apply Z.ltb_lt; reflexivity].
  - unfold len. rewrite length_replicate, Z2Nat.id by (apply Z.leb_le; reflexivity).
    split; apply Z.ltb_lt; reflexivity.
Defined.

(** ** File names and lookup *)

(** the segment files of a directory are found again by their names: listing a
    directory with log files for the offsets [bs] and no other [.log] file gives [bs]
    in order. *)
Theorem bases_roundtrip fs bs :
  StronglySorted Z.lt bs → Forall (λ b, 0 <= b) bs →
  (∀ name, is_Some (fs !! name) ↔ ∃ b, b ∈ bs ∧ (name = log_name b ∨ name = index_name b)) →
  list_bases fs = bs.
Proof.
  intros Hs Hpos Hfs. apply list_bases_spec; [done|..].
  - apply Forall_forall. intros b Hb. rewrite Forall_forall in Hpos. split; [by apply Hpos|].
    apply Hfs. eauto.
  - intros name b Hn Hseg. apply Hfs in Hn as (b' & Hb' & [->| ->]); [|by rewrite segment_base_index_name in Hseg].
    rewrite Forall_forall in Hpos. rewrite segment_base_log_name in Hseg by by apply Hpos. by injection Hseg as <-.
Qed.

Lemma bases_roundtrip_witness :
  list_bases (<[log_name 7 := [x00]]> (<[index_name 7 := []]> (<[log_name 0 := []]> {[index_name 0 := []]}))) = [0; 7].
Proof.
  apply bases_roundtrip.
  - repeat constructor.
  - repeat constructor; lia.
  - intros name. rewrite !lookup_insert_is_Some, lookup_singleton_is_Some. split.
    + intros [<-|[_ [<-|[_ [<-|[_ <-]]]]]]; [exists 7|exists 7|exists 0|exists 0]; (split; [|auto]);
        apply (bool_decide_unpack _); reflexivity.
    + intros (b & Hb & Hn). apply elem_of_cons in Hb as [->|Hb].
      * destruct (decide (name = log_name 7)); [by left|]. right. split; [auto|].
        destruct (decide (name = index_name 7)); [by left|]. right. split; [auto|].
        destruct (decide (name = log_name 0)); [by left|]. right. split; [auto|]. destruct Hn; congruence.
      * apply list_elem_of_singleton in Hb as ->.
        destruct (decide (name = log_name 7)); [by left|]. right. split; [auto|].
        destruct (decide (name = index_name 7)); [by left|]. right. split; [auto|].
        destruct (decide (name = log_name 0)); [by left|]. right. split; [auto|]. destruct Hn; congruence.
Defined.

(** [bisect_right] terminates and returns the number of keys at or below [x]. *)
Theorem bisect_right_counts keys x :
  StronglySorted Z.lt keys → bisect_right keys x = length (filter (λ k, k <= x) keys).
Proof. intros Hs. apply splits_at_count. by apply bisect_right_splits. Qed.

Lemma bisect_right_counts_witness :
  bisect_right [0; 4; 9] 8 = length (filter (λ k, k <= 8) [0; 4; 9]).
Proof. apply bisect_right_counts. repeat constructor. Defined.

(** ** Segments *)

(** a lookup through the sparse index finds the record with the offset, wherever
    the index entries fall, and leaves the segment alone. *)
Theorem segment_read_lookup fs rs g abs :
  seg_wf fs rs g →
  Segment_read abs (fs, g) =
    (inr (if bool_decide (base_offset g <= abs) then rs !! Z.to_nat (abs - base_offset g) else None), (fs, g)).
Proof. intros wf. by apply Segment_read_spec. Qed.

(** A well-formed segment to look into: the only one of [demo_empty]. *)
Definition demo_seg : Segment := default (Segment_init 0 0) (last (segments demo_empty.2)).

Lemma demo_seg_wf : seg_wf demo_empty.1 [] demo_seg.
Proof.
  destruct demo_empty_repr as (ps & p & wf & E).
  apply app_eq_nil in E as [E1 E2] || idtac.
  destruct (log_wf_last _ _ _ _ _ wf) as (gs & g & Es & Hgs & Hg & _).
  unfold demo_seg. rewrite Es, last_snoc. cbn [default from_option id].
  rewrite concat_snoc in E. apply app_eq_nil in E as [_ ->]. exact Hg.
Qed.

Lemma segment_read_lookup_witness :
  Segment_read 0 (demo_empty.1, demo_seg) = (inr None, (demo_empty.1, demo_seg)).
Proof. exact (segment_read_lookup _ _ _ 0 demo_seg_wf). Defined.

(** recovering a segment keeps the records before the first unreadable byte,
    truncates the file there and rebuilds the index. *)
Theorem segment_recovers fs rs tail g :
  0 <= base_offset g → 1 <= index_interval_bytes g →
  fs !! log_path g = Some (enc_all rs ++ tail) → Forall rec_ok rs →
  contiguous (base_offset g) rs → len (enc_all rs) < 2 ^ 64 → unreadable tail →
  returns Segment_recover (fs, g)
    (λ n s', n = base_offset g + len rs ∧ s'.1 !! log_path g = Some (enc_all rs) ∧ seg_post fs g rs s').
Proof.
  intros Hb Hi Hl Hok Hc Hf Hu. eapply returns_mono; [by apply (Segment_recover_spec fs rs tail g)|].
  intros n s' (-> & Hp). split; [done|split; [|done]]. destruct Hp as (Hwf & Hb' & _).
  pose proof (wf_log _ _ _ Hwf) as Hlog. unfold log_path in *. by rewrite <-Hb'.
Qed.

Lemma segment_recovers_witness :
  let r := mkRec 0 5 [x61] in
  let fs : FS := {[log_name 0 := enc_all [r] ++ take 10 (enc r)]} in
  returns Segment_recover (fs, Segment_init 0 16)
    (λ n s', n = 0 + len [r] ∧ s'.1 !! log_name 0 = Some (enc_all [r]) ∧ seg_post fs (Segment_init 0 16) [r] s').
Proof.
  cbv zeta. set (r := mkRec 0 5 [x61]).
  assert (rec_ok r) as Hr by (apply (bool_decide_unpack _); vm_compute; exact I).
  apply (segment_recovers _ [r] (take 10 (enc r)) (Segment_init 0 16)).
  - done.
  - done.
  - apply lookup_singleton_eq.
  - by constructor.
  - intros [|i] x E; [by injection E as <-|done].
  - by vm_compute.
  - apply unreadable_torn; [exact Hr|]. apply Nat.ltb_lt. by vm_compute.
Defined.

(** ** The log *)

(** C15: an append takes the next offset and adds one record at the end, whether or
    not it starts a new segment; everything before stays readable. *)
Theorem log_append fs l first rs payload timestamp now :
  log_repr fs l first rs →
  let r := mkRec (log_next_offset l) (default now timestamp) payload in
  rec_ok r → log_fits (rs ++ [r]) →
  returns (CommitLog_append payload timestamp now) (fs, l)
    (λ o s', o = log_next_offset l ∧ log_repr s'.1 s'.2 first (rs ++ [r]) ∧
       (CommitLog_read o s').1 = inr (Some r) ∧
       ∀ o', first <= o' < o → (CommitLog_read o' s').1 = (CommitLog_read o' (fs, l)).1).
Proof.
  intros Hrepr r Hr Hfit. pose proof (log_repr_next _ _ _ _ Hrepr) as Hn.
  pose proof (cl_append (CommitLogSpec:=seg_log_spec) (fs, l) first rs payload timestamp now Hrepr) as H.
  cbv zeta in H. rewrite <-Hn in H. fold r in H. eapply returns_mono; [by apply H|].
  intros o s' [-> Hrepr']. split; [done|]. split; [done|].
  assert (first <= first + len rs) by (pose proof (len_nonneg rs); lia).
  split; [|intros o' Ho']; rewrite !(cl_read (CommitLogSpec:=seg_log_spec) _ _ _ _ Hrepr'); cbn [fst].
  - rewrite bool_decide_eq_true_2 by lia. rewrite lookup_app_r by (unfold len in *; lia).
    replace (Z.to_nat (log_next_offset l - first) - length rs)%nat with O by (unfold len in *; lia). done.
  - rewrite (cl_read (CommitLogSpec:=seg_log_spec) (fs, l) _ _ _ Hrepr). cbn [fst].
    rewrite bool_decide_eq_true_2 by lia. rewrite lookup_app_l; [done|]. unfold len in *. lia.
Qed.

Lemma log_append_witness :
  returns (CommitLog_append [x65] (Some 8) 0) (demo_three.1, demo_three.2)
    (λ o s', o = 3 ∧ log_repr s'.1 s'.2 0 (demo_recs ++ [mkRec 3 8 [x65]]) ∧
       (CommitLog_read o s').1 = inr (Some (mkRec 3 8 [x65])) ∧
       ∀ o', 0 <= o' < o → (CommitLog_read o' s').1 = (CommitLog_read o' (demo_three.1, demo_three.2)).1).
Proof.
  refine (log_append demo_three.1 demo_three.2 0 demo_recs [x65] (Some 8) 0 demo_three_repr _ _).
  - apply (bool_decide_unpack _). vm_compute. exact I.
  - by vm_compute.
Defined.

(** C26: [append_many] appends the whole batch in order with consecutive offsets,
    however it is spread over segments: the log ends as if each payload had been
    appended with its timestamp. *)
Theorem log_append_many fs l first rs payloads timestamps now :
  log_repr fs l first rs →
  let ts := default (replicate (length payloads) now) timestamps in
  let news := batch_records (log_next_offset l) payloads ts in
  (length payloads ≤ length ts)%nat → Forall rec_ok news → log_fits (rs ++ news) →
  returns (CommitLog_append_many payloads timestamps now) (fs, l)
    (λ offsets s', offsets = (λ i, log_next_offset l + Z.of_nat i) <$> seq 0 (length payloads) ∧
       log_repr s'.1 s'.2 first (rs ++ news)).
Proof.
  intros Hrepr ts news Hlen Hok Hfit. pose proof (log_repr_next _ _ _ _ Hrepr) as Hn.
  pose proof (cl_append_many (CommitLogSpec:=seg_log_spec) (fs, l) first rs payloads timestamps now Hrepr) as H.
  cbv zeta in H. rewrite <-Hn in H. eapply returns_mono; [by apply H|].
  intros offsets s' [-> Hrepr']. split; [|done]. symmetry. by apply batch_records_offsets.
Qed.

Lemma log_append_many_witness :
  returns (CommitLog_append_many [[x65]; [x66]] None 9) (demo_three.1, demo_three.2)
    (λ offsets s', offsets = (λ i, log_next_offset demo_three.2 + Z.of_nat i) <$> seq 0 2 ∧
       log_repr s'.1 s'.2 0 (demo_recs ++ batch_records (log_next_offset demo_three.2) [[x65]; [x66]] [9; 9])).
Proof.
  refine (log_append_many demo_three.1 demo_three.2 0 demo_recs [[x65]; [x66]] None 9 demo_three_repr _ _ _).
  - simpl. lia.
  - apply (bool_decide_unpack _). vm_compute. exact I.
  - by vm_compute.
Defined.

(** Reading a range from a retained offset gives the next [limit] records, in
    order, and changes nothing. *)
Theorem log_read_range fs l first rs start limit :
  log_repr fs l first rs → first <= start →
  CommitLog_read_range start limit (fs, l) =
    (inr (take (Z.to_nat limit) (drop (Z.to_nat (start - first)) rs)), (fs, l)).
Proof. intros Hrepr. apply (cl_read_range (CommitLogSpec:=seg_log_spec) (fs, l) first rs start limit Hrepr). Qed.

Lemma log_read_range_witness :
  CommitLog_read_range 1 5 (demo_three.1, demo_three.2) =
    (inr (take (Z.to_nat 5) (drop (Z.to_nat (1 - 0)) demo_recs)), (demo_three.1, demo_three.2)).
Proof. apply (log_read_range demo_three.1 demo_three.2 0 demo_recs 1 5 demo_three_repr). lia. Defined.

(** C27: truncating at a retained offset keeps exactly the records below it, says
    whether any was dropped, and the next append reuses the offset; an offset below
    the first one changes nothing. *)
Theorem log_truncate fs l first rs o :
  log_repr fs l first rs →
  returns (CommitLog_truncate_from o) (fs, l)
    (λ b s', if o <? first then b = false ∧ s' = (fs, l)
             else b = (o <? log_next_offset l) ∧
                  log_next_offset s'.2 = Z.min o (log_next_offset l) ∧
                  log_repr s'.1 s'.2 first (take (Z.to_nat (o - first)) rs)).
Proof.
  intros Hrepr. pose proof (log_repr_next _ _ _ _ Hrepr) as Hn.
  eapply returns_mono; [apply (cl_truncate (CommitLogSpec:=seg_log_spec) (fs, l) first rs o Hrepr)|].
  intros b s'. destruct (Z.ltb_spec o first); [done|]. rewrite <-Hn. intros [-> Hrepr']. split; [done|]. split; [|done].
  pose proof (log_repr_next _ _ _ _ Hrepr') as Hn'. rewrite Hn', Hn. unfold len. rewrite length_take. lia.
Qed.

Lemma log_truncate_witness :
  returns (CommitLog_truncate_from 1) (demo_three.1, demo_three.2)
    (λ b s', b = (1 <? log_next_offset demo_three.2) ∧
       log_next_offset s'.2 = Z.min 1 (log_next_offset demo_three.2) ∧
       log_repr s'.1 s'.2 0 (take (Z.to_nat (1 - 0)) demo_recs)).
Proof. exact (log_truncate demo_three.1 demo_three.2 0 demo_recs 1 demo_three_repr). Defined.

(** C6: crash recovery.  The process dies while it appends a record: the active
    segment's file ends with any proper prefix of the record's bytes, its index file
    holds anything.  Reopening the directory, with any sizes configured, gives exactly
    the records that were there before. *)
Theorem log_crash_recovery fs l first rs g content r n fs' max_bytes interval :
  log_repr fs l first rs → log_fits rs →
  last (segments l) = Some g → fs !! log_path g = Some content →
  rec_ok r → (n < length (enc r))%nat → crash_image fs (base_offset g) content (take n (enc r)) fs' →
  returns CommitLog_init (fs', mkLog (Z.max 1 max_bytes) interval [] 0)
    (λ _ s', log_repr s'.1 s'.2 first rs).
Proof.
  intros (ps & p & wf & <-) Hfit Hg Hc Hr Hn Hcrash.
  destruct (log_wf_last _ _ _ _ _ wf) as (gs & g' & E & Hgs & Hg' & Hbs & Hb & _).
  rewrite E, last_snoc in Hg. injection Hg as ->.
  rewrite (wf_log _ _ _ Hg') in Hc. injection Hc as <-. rewrite Hb in Hcrash.
  eapply returns_mono.
  - apply (open_spec fs' first ps p (take n (enc r))); [by eapply crash_dir_wf|by apply unreadable_torn].
  - intros u s' (wf' & _). by exists ps, p.
Qed.

(** The crash image of an append of [r] to the active segment of [demo_three]. *)
Definition demo_active : Segment := default (Segment_init 0 0) (last (segments demo_three.2)).
Definition demo_content : bytes := default [] (demo_three.1 !! log_path demo_active).
Definition demo_lost : LogRec := mkRec 3 8 [x65; x66].
Definition demo_crashed : FS := <[log_path demo_active := demo_content ++ take 29 (enc demo_lost)]> demo_three.1.

Lemma log_crash_recovery_witness :
  returns CommitLog_init (demo_crashed, mkLog (Z.max 1 64) 16 [] 0)
    (λ _ s', log_repr s'.1 s'.2 0 demo_recs).
Proof.
  refine (log_crash_recovery demo_three.1 demo_three.2 0 demo_recs demo_active demo_content demo_lost 29
            demo_crashed 64 16 demo_three_repr _ _ _ _ _ _).
  - by vm_compute.
  - by vm_compute.
  - by vm_compute.
  - apply (bool_decide_unpack _). vm_compute. exact I.
  - apply Nat.ltb_lt. by vm_compute.
  - split; [apply lookup_insert_eq|]. intros name H1 H2. by apply lookup_insert_ne, not_eq_sym.
Defined.

(** sweeping old segments removes a prefix of whole segments, never the active
    one: the records from the new first offset on are the same, and so is the next
    offset.  Nothing is removed unless some segment starts below [min_base]. *)
Theorem log_sweep fs l first rs min_base :
  log_repr fs l first rs →
  returns (CommitLog_truncate_segments_before min_base) (fs, l)
    (λ removed s', 0 <= removed ∧ log_next_offset s'.2 = log_next_offset l ∧
       ∃ n, log_repr s'.1 s'.2 (first + Z.of_nat n) (drop n rs) ∧ (n ≤ length rs)%nat ∧
         (removed = 0 ↔ n = O) ∧ (0 < removed → first < min_base)).
Proof.
  intros Hrepr. eapply returns_mono; [apply (cl_sweep (CommitLogSpec:=seg_log_spec) (fs, l) first rs min_base Hrepr)|].
  intros removed s' (H0 & n & Hn & Hl & Hz & Hpos). split; [done|]. split.
  - rewrite (log_repr_next _ _ _ _ Hn), (log_repr_next _ _ _ _ Hrepr). unfold len. rewrite length_drop. lia.
  - exists n. split_and!; [exact Hn|done| |intros Hr; by apply Hpos].
    split; [done|]. intros ->. destruct (decide (removed = 0)); [done|]. destruct Hpos; lia.
Qed.

Lemma log_sweep_witness :
  returns (CommitLog_truncate_segments_before 1) (demo_three.1, demo_three.2)
    (λ removed s', 0 <= removed ∧ log_next_offset s'.2 = log_next_offset demo_three.2 ∧
       ∃ n, log_repr s'.1 s'.2 (0 + Z.of_nat n) (drop n demo_recs) ∧ (n ≤ length demo_recs)%nat ∧
         (removed = 0 ↔ n = O) ∧ (0 < removed → 0 < 1)).
Proof. exact (log_sweep demo_three.1 demo_three.2 0 demo_recs 1 demo_three_repr). Defined.
