(* ===== verification/HandleTheorems.v ===== *)
(** * Theorems: segments with file handles *)
From S2P Require Import Prelude Bytes LogRecord FileSystem Segment SegmentFacts CommitLog Handles HandleFacts.
Local Open Scope Z_scope.

Section directory.
Context (readahead : Z → bytes → nat * nat).
Abbreviation make_h := (λ base interval, (no_handles, Segment_init base interval)).

Lemma new_mirror b interval bs s s' :
  dir_mirror bs s s' → 0 <= b → b ∉ bs →
  dir_mirror (bs ++ [b]) (s.1, s.2 ++ [make_h b interval]) (s'.1, s'.2 ++ [Segment_init b interval]).
Proof.
  intros [Hd Hf Hg Hb Hnd Hpos Hh] Hb0 Hnew. split; cbn; try done.
  - by rewrite fmap_app, Hg.
  - by rewrite fmap_app, Hb.
  - apply NoDup_app. split_and!; [done| |apply NoDup_singleton]. by intros x Hx ->%list_elem_of_singleton.
  - apply Forall_app. split; [done|]. by constructor.
  - intros i h g [Hi|[_ [_ [= <- <-]]%list_lookup_singleton_Some]]%lookup_app_Some; [by eapply Hh|apply no_handles_ok].
Qed.

Lemma delete_mirror i bs s s' :
  dir_mirror bs s s' → dir_mirror (delete i bs) (s.1, delete i s.2) (s'.1, delete i s'.2).
Proof.
  intros [Hd Hf Hg Hb Hnd Hpos Hh]. split; cbn; try done.
  - by rewrite list_fmap_delete, Hg.
  - by rewrite list_fmap_delete, Hb.
  - eapply sublist_NoDup; [exact Hnd|apply sublist_delete].
  - by apply Forall_delete.
  - intros j h g Hj. apply list_elem_of_lookup_2, list_elem_of_delete_inv in Hj.
    apply list_elem_of_lookup in Hj as [k Hk]. by eapply Hh.
Qed.

Lemma reopen_mirror bs' interval bs s s' :
  dir_mirror bs s s' → NoDup bs' → Forall (λ b, 0 <= b) bs' →
  dir_mirror bs' (s.1, (λ b, make_h b interval) <$> bs') (s'.1, (λ b, Segment_init b interval) <$> bs').
Proof.
  intros [Hd Hf Hg Hb Hnd Hpos Hh] Hnd' Hpos'. split; cbn; try done.
  - by rewrite <-list_fmap_compose.
  - rewrite <-list_fmap_compose. apply list_fmap_id.
  - intros i h g. rewrite list_lookup_fmap, fmap_Some. intros (b & _ & [= -> ->]). apply no_handles_ok.
Qed.

Lemma close_mirror ids bs : ∀ s s',
  dir_mirror bs s s' →
  let h := for_each ids (λ i, _ ← on_object i (seg_call_h readahead CallCloseHandles); mret ()) s in
  let p := for_each ids (λ i, _ ← on_object i (seg_call CallCloseHandles); mret ()) s' in
  h.1 = p.1 ∧ dir_mirror bs h.2 p.2.
Proof.
  induction ids as [|i ids IH]; intros s s' Hs; cbn [for_each]; [by split|].
  destruct (on_object_mirror false (seg_call_h readahead CallCloseHandles) (seg_call CallCloseHandles) i bs s s' Hs) as [E Hs1].
  { intros base others Ho. by apply mirrors_call. }
  unfold mbind, M_bind in *. destruct (on_object i (seg_call_h _ _) s) as [r s1], (on_object i (seg_call _) s') as [r' s1'].
  cbn [fst snd] in E, Hs1. subst r'. destruct r as [e|x]; [by split|]. exact (IH s1 s1' Hs1).
Qed.

(** One call: the same result, and the script goes on from the new bases. *)
Lemma dir_call_mirror c cs bs s s' :
  dir_mirror bs s s' → script_ok (c :: cs) bs = true →
  let h := dir_call (seg_call_h readahead) Segment_delete_h make_h c s in
  let p := dir_call seg_call Segment_delete Segment_init c s' in
  h.1 = p.1 ∧ ∃ bs', script_ok cs bs' = true ∧ dir_mirror bs' h.2 p.2.
Proof.
  intros Hs Hok. destruct c as [b interval| |i c|i|bs' interval]; cbn [script_ok] in Hok.
  - apply andb_true_iff in Hok as [[Hb Hnew]%bool_decide_eq_true Hok]. split; [done|]. eexists. split; [exact Hok|]. by apply new_mirror.
  - assert (length s.2 = length s'.2) as El by (rewrite <-(dm_fields _ _ _ Hs); by rewrite length_fmap).
    destruct (close_mirror (seq 0 (length s.2)) bs s s' Hs) as [E Hs1]. cbn [dir_call]. unfold CommitLog_close, gets.
    unfold mbind, M_bind in *. cbn [fst snd] in *. rewrite <-El.
    destruct (for_each _ _ s) as [r s1], (for_each _ _ s') as [r' s1']. cbn [fst snd] in E, Hs1. subst r'.
    destruct r as [e|x]; (split; [done|]); by exists bs.
  - destruct (on_object_mirror false (seg_call_h readahead c) (seg_call c) i bs s s' Hs) as [E Hs1].
    { intros base others Ho. by apply mirrors_call. }
    split; [exact E|]. by exists bs.
  - destruct (on_object_mirror true Segment_delete_h Segment_delete i bs s s' Hs) as [E Hs1].
    { intros base others Ho. by apply mirrors_delete. }
    assert (length bs = length s'.2) as Hl by (by rewrite <-(dm_bases _ _ _ Hs), length_fmap).
    assert ((i < length bs)%nat ∧ (on_object i Segment_delete s').1 = inr ()
      ∨ ¬ (i < length bs)%nat ∧ (on_object i Segment_delete s').1 = inl IndexError) as Hr.
    { unfold on_object. rewrite Hl. destruct (decide (i < length s'.2)%nat) as [Hi|Hi]; [left|right]; (split; [done|]).
      - apply lookup_lt_is_Some in Hi as [g Hi]. by rewrite Hi.
      - by rewrite lookup_ge_None_2 by lia. }
    cbn [dir_call]. unfold mbind, M_bind.
    destruct (on_object i Segment_delete_h s) as [r s1], (on_object i Segment_delete s') as [r' s1']. cbn in E, Hs1, Hr. subst r'.
    destruct Hr as [[Hi ->]|[Hi ->]]; (split; [done|]).
    + rewrite bool_decide_eq_true_2 in Hok by done. eexists. split; [exact Hok|]. by apply delete_mirror.
    + rewrite bool_decide_eq_false_2 in Hok by done. by exists bs.
  - apply andb_true_iff in Hok as [[Hnd Hpos]%bool_decide_eq_true Hok]. split; [done|]. exists bs'. split; [exact Hok|].
    by eapply reopen_mirror.
Qed.

Lemma dir_run_mirror cs : ∀ bs s s',
  dir_mirror bs s s' → script_ok cs bs = true →
  (run_handles readahead cs s).1 = (run_plain cs s').1 ∧
  ∃ bs', dir_mirror bs' (run_handles readahead cs s).2 (run_plain cs s').2.
Proof.
  unfold run_handles, run_plain. induction cs as [|c cs IH]; intros bs s s' Hs Hok; cbn [dir_run]; [eauto|].
  destruct (dir_call_mirror _ _ _ _ _ Hs Hok) as (E & bs1 & Hok1 & Hs1).
  destruct (dir_call (seg_call_h readahead) Segment_delete_h _ c s) as [r s1], (dir_call seg_call Segment_delete Segment_init c s') as [r' s1'].
  cbn in E, Hs1. subst r'. destruct (IH _ _ _ Hs1 Hok1) as [E' H'].
  destruct (dir_run _ _ _ cs s1) as [rs s2], (dir_run _ _ _ cs s1') as [rs' s2']. cbn in *. by subst rs'.
Qed.
End directory.

(** C16: the files a segment keeps open cannot be seen.  Whatever is done with the segments
    of a directory, opening them, appending, reading, cutting and removing in any
    order, with append, index and read handles and an mmap kept from call to call, and
    whatever part of the file the buffer of a read handle holds, every call returns or
    raises what it does when each access goes to the file by its name, and the
    directory and the fields of the segments are the same in the end.  In particular no
    read shows a record that was cut off, and the mmap always has the whole file. *)
Theorem handles_transparent readahead d cs :
  disk_ok d → script_ok cs [] = true →
  let '(results, (d', objects)) := run_handles readahead cs (d, []) in
  run_plain cs (files d, []) = (results, (files d', objects.*2)).
Proof.
  intros Hd Hok. destruct (dir_run_mirror readahead cs [] (d, []) (files d, [])) as [E [bs' H]]; [|done|].
  - split; cbn; first [done|by constructor].

  - destruct (run_handles readahead cs (d, [])) as [rs [d' os]], (run_plain cs (files d, [])) as [rs' [fs gs]].
    cbn in E. subst rs'. destruct H as [_ Hf Hg _ _ _ _]. cbn in Hf, Hg. by subst.
Qed.

(** Three records in one segment: the first read fills the buffer of the read handle
    (the mmap has been asked for first), the cut closes it, and the record written
    instead of the second is the one that is read. *)
Definition demo_record (o : Z) (p : bytes) : bytes := enc (mkRec o 0 p).

Definition demo_script : list DirCall :=
  [NewSegment 0 4096; OnSegment 0 CallRecover; OnSegment 0 (CallAppend 0 (demo_record 0 [x61]) 0);
   OnSegment 0 (CallAppend 1 (demo_record 1 [x62]) 0); OnSegment 0 (CallRead 1); OnSegment 0 (CallPositionOf 1);
   OnSegment 0 (CallTruncateFrom 1); OnSegment 0 (CallAppend 1 (demo_record 1 [x63]) 0); OnSegment 0 (CallRead 1);
   OnSegment 0 (CallPositionOf 1); NewSegment 2 4096; OnSegment 1 CallRecover; CloseLog; DeleteSegment 0;
   ReopenSegments [2] 4096; OnSegment 0 CallRecover].

Definition whole_file : Z → bytes → nat * nat := λ _ f, (0%nat, length f).

Example demo_script_results :
  (run_handles whole_file demo_script (mkDisk ∅ [], [])).1 =
    inr <$> [Done; Number 0; Done; Done; Found (Some (mkRec 1 0 [x62])); Position (Some 29); Changed true; Done;
             Found (Some (mkRec 1 0 [x63])); Position (Some 29); Done; Number 2; Done; Done; Done; Number 2].
Proof. vm_compute. reflexivity. Qed.

Lemma handles_transparent_witness :
  run_plain demo_script (∅, []) =
    ((run_handles whole_file demo_script (mkDisk ∅ [], [])).1,
     (files (run_handles whole_file demo_script (mkDisk ∅ [], [])).2.1, (run_handles whole_file demo_script (mkDisk ∅ [], [])).2.2.*2)).
Proof.
  assert (disk_ok (mkDisk ∅ [])) as Hd by (split; cbn; intros *; by rewrite lookup_empty).
  pose proof (handles_transparent whole_file (mkDisk ∅ []) demo_script Hd eq_refl) as H.
  destruct (run_handles whole_file demo_script (mkDisk ∅ [], [])) as [rs [d' os]]. exact H.
Defined.
