(* ===== verification/BrokerTheorems.v ===== *)
(** * The broker: theorems

    [holds s K] reads: the data directory and the broker object [s] hold the topics
    [K], which maps a topic to the first retained offset and the records of each of
    its partitions. *)
From S2P Require Import Prelude Bytes Crc32 LogRecord FileSystem Segment SegmentFacts CommitLog CommitLogFacts Retention LogSpec Unicode Json Broker BrokerFacts PartitionFacts GroupFacts.
Local Open Scope Z_scope.

Abbreviation holds := (broker_repr (repr:=seg_log_repr)).

(** ** Brokers to run the theorems on *)

(** A new broker with two partitions per topic; three records produced to it. *)
Definition demo_new : DataDir * Broker := (mkData ∅ ∅, Broker_new 2 64 16 None None).
Definition demo_one : DataDir * Broker := (Broker_produce "t" [x61] None (Some 1) 0 demo_new).2.
Definition demo_two : DataDir * Broker := (Broker_produce "t" [xff] None (Some 2) 0 demo_one).2.
Definition demo_used : DataDir * Broker := (Broker_produce "t" [x63] None None 3 demo_two).2.

Definition demo_recs_0 : list LogRec := [mkRec 0 1 [x61]; mkRec 1 3 [x63]].
Definition demo_recs_1 : list LogRec := [mkRec 0 2 [xff]].
Definition demo_contents : Contents := {["t"%string := [(0, demo_recs_0); (0, demo_recs_1)]]}.

Lemma demo_new_holds : holds demo_new ∅.
Proof.
  constructor; cbn; [constructor| | |done|lia].
  - intros t. rewrite lookup_empty. split; by intros [].
  - intros t parts ks. rewrite lookup_empty. done.
Qed.

(** The effect of [produce] on a broker whose contents are known. *)
Lemma produced_holds s K t payload key timestamp now i first rs K' :
  holds s K → key_ok key → route key (rr s.2) (len (topic_contents s K t)) = i →
  topic_contents s K t !! Z.to_nat i = Some (first, rs) →
  rec_ok (mkRec (first + len rs) (default now timestamp) payload) →
  log_fits (rs ++ [mkRec (first + len rs) (default now timestamp) payload]) →
  <[t := <[Z.to_nat i := (first, rs ++ [mkRec (first + len rs) (default now timestamp) payload])]>
           (topic_contents s K t)]> K = K' →
  holds (Broker_produce t payload key timestamp now s).2 K'.
Proof.
  intros Hs Hk <- Hi Hr Hfit <-.
  destruct (returns_inv _ _ _ (produce_spec (repr:=seg_log_repr) _ _ _ _ _ _ _ _ _ Hs Hk Hi Hr Hfit))
    as (x & s' & -> & _ & H & _). exact H.
Qed.

Ltac decided := apply (bool_decide_unpack _); vm_compute; exact I.

Lemma demo_used_holds : holds demo_used demo_contents.
Proof.
  assert (holds demo_one {["t"%string := [(0, [mkRec 0 1 [x61]]); (0, [])]]}) as H1.
  { eapply (produced_holds demo_new ∅ _ _ _ _ _ 0 0 []); [apply demo_new_holds|exact I|decided..]. }
  assert (holds demo_two {["t"%string := [(0, [mkRec 0 1 [x61]]); (0, demo_recs_1)]]}) as H2.
  { eapply (produced_holds demo_one _ _ _ _ _ _ 1 0 []); [exact H1|exact I|decided..]. }
  eapply (produced_holds demo_two _ _ _ _ _ _ 0 0 [mkRec 0 1 [x61]]); [exact H2|exact I|decided..].
Qed.

(** A broker with an age limit of 5 ms and one record per segment: the sweep at time
    101 keeps the last record. *)
Definition demo_small : DataDir * Broker := (mkData ∅ ∅, Broker_new 1 20 16 (Some 5) None).
Definition demo_a : DataDir * Broker := (Broker_produce "t" [x61] None (Some 1) 0 demo_small).2.
Definition demo_b : DataDir * Broker := (Broker_produce "t" [x62] None (Some 2) 0 demo_a).2.
Definition demo_full : DataDir * Broker := (Broker_produce "t" [x63] None (Some 100) 0 demo_b).2.
Definition demo_swept : DataDir * Broker := (Broker_retention_sweep 101 demo_full).2.
Definition demo_full_recs : list LogRec := [mkRec 0 1 [x61]; mkRec 1 2 [x62]; mkRec 2 100 [x63]].
Definition demo_swept_contents : Contents := {["t"%string := [(2, [mkRec 2 100 [x63]])]]}.

Lemma demo_full_holds : holds demo_full {["t"%string := [(0, demo_full_recs)]]}.
Proof.
  assert (holds demo_a {["t"%string := [(0, [mkRec 0 1 [x61]])]]}) as H1.
  { eapply (produced_holds demo_small ∅ _ _ _ _ _ 0 0 []); [|exact I|decided..].
    destruct demo_new_holds as [H1 H2 H3 H4 _]. constructor; [exact H1|exact H2|exact H3|exact H4|cbn; lia]. }
  assert (holds demo_b {["t"%string := [(0, [mkRec 0 1 [x61]; mkRec 1 2 [x62]])]]}) as H2.
  { eapply (produced_holds demo_a _ _ _ _ _ _ 0 0 [mkRec 0 1 [x61]]); [exact H1|exact I|decided..]. }
  eapply (produced_holds demo_b _ _ _ _ _ _ 0 0 [mkRec 0 1 [x61]; mkRec 1 2 [x62]]); [exact H2|exact I|decided..].
Qed.

Lemma log_repr_first fs l first rs :
  log_repr fs l first rs → base_offset <$> head (segments l) = Some first.
Proof.
  intros (ps & p & wf & _). pose proof (lw_bases _ _ _ _ _ wf) as E.
  destruct (segments l) as [|g gs]; [by destruct ps|]. cbn. destruct ps; injection E as E _; by rewrite E.
Qed.

Definition demo_swept_base : option Z :=
  parts ← dict_get "t" (topics demo_swept.2); l ← parts !! 0%nat; base_offset <$> head (segments l).

Lemma demo_swept_holds : holds demo_swept demo_swept_contents.
Proof.
  destruct (returns_inv _ _ _ (broker_sweep_spec (repr:=seg_log_repr) demo_full _ 101 demo_full_holds))
    as (x & s' & E & K & Hs & Ht & _).
  assert (demo_swept = s') as <- by (unfold demo_swept; by rewrite E).
  assert (K = demo_swept_contents) as ->; [|exact Hs].
  pose proof (Ht "t"%string) as Ht'. rewrite lookup_singleton_eq in Ht'.
  inversion Ht' as [? ks Hks Ek EK|]; subst. symmetry in EK.
  destruct ks as [|k [|]]; [by inversion Hks| |by inversion Hks as [|? ? ? ? ? H]; inversion H].
  apply Forall2_cons in Hks as [(n & Hn & ->) _]. cbn [fst snd] in *.
  destruct (br_lookup (repr:=seg_log_repr) _ _ _ _ 0 _ Hs EK eq_refl) as (parts & l & Hp & Hl & _ & Hr).
  pose proof (log_repr_first _ _ _ _ Hr) as Hf.
  assert (demo_swept_base = Some (0 + Z.of_nat n)) as Hb.
  { unfold demo_swept_base. rewrite Hp. cbn [mbind option_bind]. rewrite Hl. exact Hf. }
  assert (demo_swept_base = Some 2) as E2 by (vm_compute; reflexivity). rewrite E2 in Hb. injection Hb as Hb. assert (n = 2%nat) as -> by (destruct n; lia).
  apply map_eq. intros t. specialize (Ht t). unfold demo_swept_contents.
  destruct (decide (t = "t"%string)) as [->|Hne]; [rewrite EK; reflexivity|].
  rewrite lookup_singleton_ne in Ht |- * by done. by inversion Ht.
Qed.

(** ** Topics *)

(** C28: producing a message appends exactly one record, to one partition of its
    topic: [crc32(key) % n] for a keyed message, else the next in turn; the offset
    returned is the partition's next one, the topic is created with the default
    number of partitions when it is new, and every other partition, topic and
    consumer group is as before. *)
Theorem produce_appends s K t payload key timestamp now first rs :
  holds s K → key_ok key →
  let ks := topic_contents s K t in
  let i := match key with Some k => crc32 (bytes_of_str k) mod len ks | None => rr s.2 mod len ks end in
  ks !! Z.to_nat i = Some (first, rs) →
  let r := mkRec (first + len rs) (default now timestamp) payload in
  rec_ok r → log_fits (rs ++ [r]) →
  returns (Broker_produce t payload key timestamp now) s (λ p s',
    p = mkProduced t i (first + len rs) ∧
    holds s' (<[t := <[Z.to_nat i := (first, rs ++ [r])]> ks]> K) ∧
    rr s'.2 = (match key with None => rr s.2 + 1 | Some _ => rr s.2 end) ∧
    dd_groups s'.1 = dd_groups s.1 ∧ groups s'.2 = groups s.2).
Proof. intros. by apply produce_spec. Qed.

Lemma produce_appends_witness :
  returns (Broker_produce "t" [x64] (Some "user-42"%string) None 9) demo_used (λ p s',
    p = mkProduced "t" 1 1 ∧
    holds s' (<["t"%string := <[1%nat := (0, demo_recs_1 ++ [mkRec 1 9 [x64]])]> [(0, demo_recs_0); (0, demo_recs_1)]]>
                demo_contents) ∧
    rr s'.2 = rr demo_used.2 ∧ dd_groups s'.1 = dd_groups demo_used.1 ∧ groups s'.2 = groups demo_used.2).
Proof.
  assert (crc32 (bytes_of_str "user-42") mod 2 = 1) as Ec by (vm_compute; reflexivity).
  pose proof (produce_appends demo_used demo_contents "t" [x64] (Some "user-42"%string) None 9 0 demo_recs_1
    demo_used_holds) as H.
  change (topic_contents demo_used demo_contents "t") with [(0, demo_recs_0); (0, demo_recs_1)] in H.
  cbv beta iota zeta in H. change (len [(0, demo_recs_0); (0, demo_recs_1)]) with 2 in H. rewrite Ec in H.
  apply H; [vm_compute; reflexivity|reflexivity|decided..].
Defined.

(** C29: [fetch] from any offset.  It looks for the record after [after], the first of
    all for a negative [after].  If retention has removed that offset it returns
    nothing, however many records are left; otherwise it returns, in order, the
    records of the partition with offsets above [after], at most [limit] of them.  It
    changes nothing. *)
Theorem fetch_after s K t p ks first rs after limit :
  holds s K → K !! t = Some ks → 0 <= p < len ks → ks !! Z.to_nat p = Some (first, rs) →
  returns (Broker_fetch t p after limit) s (λ out s',
    out = (if Z.max 0 (after + 1) <? first then []
           else fetched <$> take (Z.to_nat limit) (filter (λ r, after < rec_offset r) rs)) ∧
    holds s' K ∧ same_rest s s').
Proof.
  intros Hs HK Hp Hk. eapply returns_mono; [by apply (fetch_spec s K t p ks first rs)|].
  intros out s' (-> & Hs' & Hr). split; [|done].
  destruct (br_lookup _ _ _ _ _ _ Hs HK Hk) as (parts & l & _ & _ & _ & Hrepr).
  destruct (cl_facts _ _ _ Hrepr) as (Hfirst & _ & Hc). cbn [fst snd] in Hfirst, Hc.
  rewrite after_records_filter by done. by destruct (_ <? first).
Qed.

Lemma fetch_after_witness :
  returns (Broker_fetch "t" 0 0 100) demo_used (λ out s',
    out = fetched <$> [mkRec 1 3 [x63]] ∧ holds s' demo_contents ∧ same_rest demo_used s') ∧
  returns (Broker_fetch "t" 0 (-1) 100) demo_swept (λ out s',
    out = [] ∧ holds s' demo_swept_contents ∧ same_rest demo_swept s').
Proof.
  split.
  - apply (fetch_after demo_used demo_contents "t" 0 [(0, demo_recs_0); (0, demo_recs_1)] 0 demo_recs_0 0 100 demo_used_holds);
      [vm_compute; reflexivity|vm_compute; split; discriminate || reflexivity|reflexivity].
  - apply (fetch_after demo_swept demo_swept_contents "t" 0 [(2, [mkRec 2 100 [x63]])] 2 [mkRec 2 100 [x63]] (-1) 100
      demo_swept_holds); [vm_compute; reflexivity|vm_compute; split; discriminate || reflexivity|reflexivity].
Defined.

(** C30: opening a broker again over its data directory, with any settings, finds
    every topic and partition with its records and its first offset, and leaves the
    consumer groups' files alone. *)
Theorem broker_restart s K partitions segment_bytes interval max_age max_bytes :
  holds s K → (∀ t ks k, K !! t = Some ks → k ∈ ks → log_fits k.2) → 1 <= partitions →
  returns Broker_init (s.1, Broker_new partitions segment_bytes interval max_age max_bytes)
    (λ _ s', holds s' K ∧ dd_groups s'.1 = dd_groups s.1).
Proof.
  intros Hs Hfit Hp. set (b := Broker_new _ _ _ _ _).
  eapply returns_mono; [apply (broker_restart_spec (repr:=seg_log_repr) b s.1 K); [by apply broker_data|done|done]|].
  intros _ s' [H1 [H2 _]]. by split.
Qed.

Lemma broker_restart_witness :
  returns Broker_init (demo_used.1, Broker_new 5 32 8 None (Some 7))
    (λ _ s', holds s' demo_contents ∧ dd_groups s'.1 = dd_groups demo_used.1).
Proof.
  apply (broker_restart demo_used demo_contents 5 32 8 None (Some 7) demo_used_holds); [|lia].
  unfold demo_contents. intros t ks k [<- <-]%lookup_singleton_Some Hk.
  assert (Forall (λ k, log_fits k.2) [(0, demo_recs_0); (0, demo_recs_1)]) as Hall by decided.
  rewrite Forall_forall in Hall. by apply Hall.
Defined.

(** ** Retention *)

(** C34: a retention sweep of the broker leaves each partition with a suffix of its
    records, numbered as before, and changes no topic, group or setting. *)
Theorem sweep_keeps_suffixes s K now :
  holds s K →
  returns (Broker_retention_sweep now) s (λ removed s', 0 <= removed ∧ same_rest s s' ∧ ∃ K', holds s' K' ∧
    dom K' = dom K ∧
    ∀ t ks ks' i first rs first' rs', K !! t = Some ks → K' !! t = Some ks' →
      ks !! i = Some (first, rs) → ks' !! i = Some (first', rs') →
      length ks' = length ks ∧ first <= first' ∧ first' + len rs' = first + len rs ∧
      rs' = drop (Z.to_nat (first' - first)) rs).
Proof.
  intros Hs. eapply returns_mono; [by apply (broker_sweep_spec s K now)|].
  intros removed s' (K' & Hs' & Ht & Hr & H0). split_and!; [done|done|]. exists K'. split_and!; [done| |].
  - apply set_eq. intros t. rewrite !elem_of_dom. specialize (Ht t). by inversion Ht.
  - intros t ks ks' i first rs first' rs' HK HK' Hi Hi'. specialize (Ht t). rewrite HK, HK' in Ht.
    inversion Ht as [? ? Hks|]; subst. split; [symmetry; by eapply Forall2_length|].
    destruct (Forall2_lookup_l _ _ _ _ _ Hks Hi) as (k & Hk & n & Hn & ->). simplify_eq. cbn in *.
    unfold len in *. rewrite length_drop. split_and!; [lia|lia|]. f_equal. lia.
Qed.

Lemma sweep_keeps_suffixes_witness :
  returns (Broker_retention_sweep 10) demo_used (λ removed s', 0 <= removed ∧ same_rest demo_used s' ∧ ∃ K', holds s' K' ∧
    dom K' = dom demo_contents ∧
    ∀ t ks ks' i first rs first' rs', demo_contents !! t = Some ks → K' !! t = Some ks' →
      ks !! i = Some (first, rs) → ks' !! i = Some (first', rs') →
      length ks' = length ks ∧ first <= first' ∧ first' + len rs' = first + len rs ∧
      rs' = drop (Z.to_nat (first' - first)) rs).
Proof. exact (sweep_keeps_suffixes demo_used demo_contents 10 demo_used_holds). Defined.

(** The partition of [demo_full], on its own. *)
Definition demo_log_state : LogState :=
  (partition_files "t" 0 demo_full.1, default (mkLog 0 0 [] 0) (dict_get "t" (topics demo_full.2) ≫= λ parts, parts !! 0%nat)).

Lemma demo_log_repr : log_repr demo_log_state.1 demo_log_state.2 0 demo_full_recs.
Proof.
  destruct (br_lookup (repr:=seg_log_repr) demo_full _ "t" [(0, demo_full_recs)] 0 _ demo_full_holds
    ltac:(vm_compute; reflexivity) eq_refl) as (parts & l & Hp & Hl & _ & Hr).
  unfold demo_log_state. cbn [fst snd].
  assert ((dict_get "t" (topics demo_full.2) ≫= λ parts, parts !! 0%nat) = Some l) as ->; [|exact Hr].
  rewrite Hp. exact Hl.
Qed.

(** With an age limit only, a sweep removes a prefix of the records, each of them
    older than the limit, and counts the segments it removed; the segments are
    removed up to the first one whose newest record is young enough, never the active
    one. *)
Theorem retention_by_age fs l first rs now age :
  log_repr fs l first rs →
  let k := expired_count now age (segments l) in
  returns (Partition_retention_sweep now (Some age) None) (fs, l) (λ removed s',
    removed = Z.of_nat k ∧ log_next_offset s'.2 = log_next_offset l ∧
    length (segments s'.2) = (length (segments l) - k)%nat ∧ segments s'.2 ≠ [] ∧
    ∃ n, log_repr s'.1 s'.2 (first + Z.of_nat n) (drop n rs) ∧
      Forall (λ r, age < now - rec_timestamp r) (take n rs)).
Proof.
  intros (ps & p & wf & <-) k. unfold Partition_retention_sweep. apply returns_bind.
  eapply returns_mono; [by eapply sweep_by_age_run|]. fold k.
  intros removed s' (-> & Hk & wf' & Hn). apply returns_ret.
  pose proof (length_segments _ _ _ _ _ wf) as Hl. pose proof (length_segments _ _ _ _ _ wf') as Hl'.
  rewrite length_drop in Hl'. split_and!; [done|done|lia|by destruct (segments s'.2)|].
  exists (length (concat (take k ps))).
  assert (concat (ps ++ [p]) = concat (take k ps) ++ concat (drop k ps ++ [p])) as E.
  { by rewrite <-concat_app, app_assoc, take_drop. }
  rewrite E, drop_app_length, take_app_length. split; [by exists (drop k ps), p|].
  by eapply expired_records.
Qed.

Lemma retention_by_age_witness :
  returns (Partition_retention_sweep 101 (Some 5) None) (demo_log_state.1, demo_log_state.2) (λ removed s',
    removed = Z.of_nat 2 ∧ log_next_offset s'.2 = log_next_offset demo_log_state.2 ∧
    length (segments s'.2) = (length (segments demo_log_state.2) - 2)%nat ∧ segments s'.2 ≠ [] ∧
    ∃ n, log_repr s'.1 s'.2 (0 + Z.of_nat n) (drop n demo_full_recs) ∧
      Forall (λ r, 5 < 101 - rec_timestamp r) (take n demo_full_recs)).
Proof.
  pose proof (retention_by_age demo_log_state.1 demo_log_state.2 0 demo_full_recs 101 5 demo_log_repr) as H.
  assert (expired_count 101 5 (segments demo_log_state.2) = 2%nat) as E by (vm_compute; reflexivity).
  cbv zeta in H. rewrite E in H. exact H.
Defined.

(** C35: with a byte budget only, a sweep ends with the partition within the budget or
    down to its active segment, having removed a prefix of the records. *)
Theorem retention_by_size fs l first rs now total :
  log_repr fs l first rs →
  returns (Partition_retention_sweep now None (Some total)) (fs, l) (λ removed s',
    (length (segments s'.2) = 1%nat ∨ size_bytes s'.2 <= total) ∧
    ∃ n, (n ≤ length rs)%nat ∧ log_repr s'.1 s'.2 (first + Z.of_nat n) (drop n rs)).
Proof.
  intros (ps & p & wf & <-). unfold Partition_retention_sweep. apply returns_bind.
  unfold sweep_by_age. apply returns_bind. eapply returns_intro; [reflexivity|]. apply returns_ret.
  apply returns_bind. eapply returns_intro; [reflexivity|]. cbn [snd]. apply returns_bind.
  eapply returns_mono; [eapply (sweep_by_size_run total); [exact wf|]|].
  { rewrite (length_segments _ _ _ _ _ wf). lia. }
  intros more s' (k & Hk & wf' & Hend). apply returns_ret. split; [exact Hend|].
  exists (length (concat (take k ps))).
  assert (concat (ps ++ [p]) = concat (take k ps) ++ concat (drop k ps ++ [p])) as E.
  { by rewrite <-concat_app, app_assoc, take_drop. }
  rewrite E, drop_app_length, length_app. split; [lia|]. by exists (drop k ps), p.
Qed.

Lemma retention_by_size_witness :
  returns (Partition_retention_sweep 0 None (Some 60)) (demo_log_state.1, demo_log_state.2) (λ removed s',
    (length (segments s'.2) = 1%nat ∨ size_bytes s'.2 <= 60) ∧
    ∃ n, (n ≤ length demo_full_recs)%nat ∧ log_repr s'.1 s'.2 (0 + Z.of_nat n) (drop n demo_full_recs)).
Proof. exact (retention_by_size demo_log_state.1 demo_log_state.2 0 demo_full_recs 0 60 demo_log_repr). Defined.

(** the byte budget removes segments two at a time and counts one: here three
    segments of 29 bytes must shrink to 60, which removing the first would do, but
    the active one is all that is left, and one removal is reported. *)
Theorem retention_drops_two :
  let '(r, s') := Partition_retention_sweep 0 None (Some 60) demo_log_state in
  Segment.size <$> segments demo_log_state.2 = [29; 29; 29] ∧ r = inr 1 ∧ Segment.size <$> segments s'.2 = [29].
Proof. vm_compute. repeat split. Qed.

(** ** Consumer groups *)

Lemma demo_group name : group_of demo_used name = inr (mkGroup name []).
Proof.
  unfold group_of, ConsumerGroup_init.
  assert (dd_groups demo_used.1 = ∅) as -> by (vm_compute; reflexivity). by rewrite lookup_empty.
Qed.

Lemma demo_groups_ok : groups_ok demo_used.
Proof.
  assert (groups demo_used.2 = []) as E by (vm_compute; reflexivity). constructor.
  - intros name g. rewrite E. done.
  - intros name g. rewrite demo_group. intros [= <-]. constructor.
Qed.

(** Committing an offset sets the group's offset of that partition to the larger
    of the old one and the new one, changes no other partition of the group and no
    other group, and writes the group's file so that loading it again gives the same
    group. *)
Theorem commit_monotone s name t p o g :
  groups_ok s → group_of s name = inr g → -1 <= o →
  returns (Broker_commit name t p o) s (λ _ s', ∃ g',
    groups_ok s' ∧ dict_get name (groups s'.2) = Some g' ∧
    ConsumerGroup_init name (dd_groups s'.1) = inr g' ∧
    ConsumerGroup_committed t p g' = Z.max (ConsumerGroup_committed t p g) o ∧
    (∀ t' p', (t', p') ≠ (t, p) → ConsumerGroup_committed t' p' g' = ConsumerGroup_committed t' p' g) ∧
    (∀ name', name' ≠ name → group_of s' name' = group_of s name') ∧
    dd_topics s'.1 = dd_topics s.1 ∧ topics s'.2 = topics s.2).
Proof.
  intros Hok Hg Ho. eapply returns_mono; [by apply commit_spec|].
  intros _ s' (H1 & H2 & H3 & H4 & H5 & H6). eexists. split_and!; [done|exact H3|exact H2| | |done|done|by rewrite H6].
  - unfold ConsumerGroup_committed at 1. cbn [g_offsets]. rewrite committed_after_spec by done. by rewrite decide_True.
  - intros t' p' Hne. unfold ConsumerGroup_committed at 1. cbn [g_offsets].
    rewrite committed_after_spec by done. by rewrite decide_False.
Qed.

Lemma commit_monotone_witness :
  returns (Broker_commit "g" "t" 0 7) demo_used (λ _ s', ∃ g',
    groups_ok s' ∧ dict_get "g" (groups s'.2) = Some g' ∧
    ConsumerGroup_init "g" (dd_groups s'.1) = inr g' ∧
    ConsumerGroup_committed "t" 0 g' = Z.max (ConsumerGroup_committed "t" 0 (mkGroup "g" [])) 7 ∧
    (∀ t' p', (t', p') ≠ ("t"%string, 0) → ConsumerGroup_committed t' p' g' = ConsumerGroup_committed t' p' (mkGroup "g" [])) ∧
    (∀ name', name' ≠ "g"%string → group_of s' name' = group_of demo_used name') ∧
    dd_topics s'.1 = dd_topics demo_used.1 ∧ topics s'.2 = topics demo_used.2).
Proof. apply (commit_monotone demo_used "g" "t" 0 7 (mkGroup "g" []) demo_groups_ok (demo_group "g")). lia. Defined.

(** the lag of a group is the number of records above its committed offset: zero
    for an unknown topic, and never negative. *)
Theorem lag_correct s K name t p g :
  holds s K → groups_ok s → group_of s name = inr g →
  (∀ ks, K !! t = Some ks → 0 <= p < len ks) →
  returns (Broker_lag name t p) s (λ lag s',
    lag = (match K !! t with
           | None => 0
           | Some ks =>
               match ks !! Z.to_nat p with
               | Some (first, rs) => Z.max 0 (first + len rs - 1 - ConsumerGroup_committed t p g)
               | None => 0
               end
           end) ∧ holds s' K ∧ groups_ok s').
Proof.
  intros Hs Hok Hg Hp. unfold Broker_lag. apply returns_bind. eapply returns_intro; [reflexivity|].
  destruct (K !! t) as [ks|] eqn:HK.
  2:{ destruct (dict_get t (topics s.2)) eqn:E; [|by apply returns_ret].
      destruct (proj1 (br_open _ _ Hs t) (mk_is_Some _ _ E)). congruence. }
  specialize (Hp ks eq_refl). destruct (lookup_lt_is_Some_2 ks (Z.to_nat p)) as [[first rs] Hk]; [unfold len in Hp; lia|].
  destruct (br_lookup _ _ _ _ _ _ Hs HK Hk) as (parts & l & -> & Hl & _ & Hr). rewrite Hk.
  unfold py_lookup. destruct (Z.leb_spec 0 p); [|lia]. rewrite Hl.
  apply returns_bind. eapply returns_mono; [by apply group_spec|]. intros g' s' (-> & Hd & Hok' & Hb).
  pose proof (cl_next _ _ _ Hr) as Hn. cbn [fst snd] in Hn.
  apply returns_ret. unfold Partition_high_watermark. rewrite Hn.
  split_and!; [done| |done]. destruct Hs as [H1 H2 H3 H4 H5]. rewrite <-Hd in *.
  constructor; [by rewrite Hb|by rewrite Hb|by rewrite Hb|done|by rewrite Hb].
Qed.

Lemma lag_correct_witness :
  returns (Broker_lag "g" "t" 0) demo_used (λ lag s',
    lag = (match demo_contents !! "t"%string with
           | None => 0
           | Some ks =>
               match ks !! Z.to_nat 0 with
               | Some (first, rs) => Z.max 0 (first + len rs - 1 - ConsumerGroup_committed "t" 0 (mkGroup "g" []))
               | None => 0
               end
           end) ∧ holds s' demo_contents ∧ groups_ok s').
Proof.
  apply (lag_correct demo_used demo_contents "g" "t" 0 (mkGroup "g" []) demo_used_holds demo_groups_ok (demo_group "g")).
  intros ks [= <-]. vm_compute. split; discriminate || reflexivity.
Defined.
