(* ===== verification/ApiTheorems.v ===== *)
(** * Theorems: the gateway, its dashboard and the metrics *)
From S2P Require Import Prelude Bytes LogRecord FileSystem SegmentFacts CommitLog CommitLogFacts LogSpec Unicode Json Broker BrokerFacts GroupFacts Api Metrics BrokerTheorems.
Local Open Scope Z_scope.

(** ** What one request does *)

Lemma topic_repr_dir (d d' : DataDir) t parts ks :
  dd_topics d' = dd_topics d → topic_repr (repr:=seg_log_repr) d t parts ks → topic_repr (repr:=seg_log_repr) d' t parts ks.
Proof.
  intros E [H1 H2 H3 H4]. constructor; [done|done| |by rewrite E].
  intros i l k Hl Hk. unfold partition_files. rewrite E. by apply H3.
Qed.

(** Groups are no part of the contents. *)
Lemma holds_frame s s' K :
  dd_topics s'.1 = dd_topics s.1 → s'.2 = s.2 <| groups := groups s'.2 |> → holds s K → holds s' K.
Proof.
  intros Ed Eb [H1 H2 H3 H4 H5].
  assert (topics s'.2 = topics s.2) as Et by (by rewrite Eb).
  assert (default_partitions s'.2 = default_partitions s.2) as En by (by rewrite Eb).
  constructor; rewrite ?Et, ?Ed, ?En; [done..| |done|done].
  intros t parts ks Hp Hk. eapply topic_repr_dir; [exact Ed|by apply H3].
Qed.

Lemma groups_ok_frame s s' : same_rest s s' → groups_ok s → groups_ok s' ∧ ∀ name, group_of s' name = group_of s name.
Proof.
  intros [Ed Eb] [H1 H2]. assert (groups s'.2 = groups s.2) as Eg by (by rewrite Eb).
  assert (∀ name, group_of s' name = group_of s name) as E by (intros name; unfold group_of; by rewrite Ed).
  split; [|done]. constructor; intros name g; rewrite E, ?Eg; [apply H1|apply H2].
Qed.

Lemma group_of_dir s s' name : s'.1 = s.1 → group_of s' name = group_of s name.
Proof. intros E. unfold group_of. by rewrite E. Qed.

Section consumer.
Context (name t part : string) (q : list (string * list string)) (p limit : Z).
Hypothesis Hname : query_arg q "group" EmptyString = name.
Hypothesis Hgroup : name ≠ EmptyString.
Hypothesis Hpart : int_of_text part = inr p.
Hypothesis Hlimit : int_of_text (query_arg q "limit" "100") = inr limit.

(** The group [name] has consumed the partition up to, excluding, offset [o]. *)
Definition consumed_to (s : DataDir * Broker) (o : Z) : Prop :=
  groups_ok s ∧ ∃ g, group_of s name = inr g ∧ ConsumerGroup_committed t p g = o - 1.

Lemma api_consume_spec s K ks first rs o :
  holds s K → K !! t = Some ks → 0 <= p < len ks → ks !! Z.to_nat p = Some (first, rs) →
  0 <= o → consumed_to s o →
  returns (api_consume t part q) s (λ out s',
    let recs := next_records o (Z.to_nat limit) first rs in
    out = fetched <$> recs ∧ holds s' K ∧ consumed_to s' (o + len recs)).
Proof.
  intros Hs HK Hp Hk Ho (Hok & g & Hg & Hc). unfold api_consume.
  apply returns_bind. eapply returns_intro; [unfold lift; by rewrite Hpart|]. cbv zeta.
  apply returns_bind. eapply returns_intro; [unfold lift; by rewrite Hlimit|].
  rewrite Hname, !(bool_decide_eq_false_2 (name = EmptyString)) by done.
  apply returns_bind, returns_bind. eapply returns_mono; [by apply group_spec|].
  intros g' s1 (-> & Ed1 & Hok1 & Eb1). apply returns_ret. rewrite Hc.
  assert (holds s1 K) as Hs1 by (eapply holds_frame; [by rewrite Ed1|done|done]).
  destruct (br_lookup _ _ _ _ _ _ Hs1 HK Hk) as (parts & l & _ & _ & _ & Hrepr).
  destruct (cl_facts _ _ _ Hrepr) as (Hfirst & _ & Hcont). cbn [fst snd] in Hfirst, Hcont.
  apply returns_bind. eapply returns_mono; [by apply (fetch_spec s1 K t p ks first rs)|].
  intros out s2 (-> & Hs2 & Hrest). destruct (groups_ok_frame _ _ Hrest Hok1) as [Hok2 Eg2].
  rewrite after_next by done. pose proof (last_next o (Z.to_nat limit) first rs) as Hlast. set (recs := next_records _ _ _ _) in *. assert (group_of s2 name = inr g) as Hg2 by (by rewrite Eg2, (group_of_dir s s1)).
  rewrite fmap_last. destruct (last recs) as [r|] eqn:El; cbn [fmap option_fmap option_map].
  2:{ apply last_None in El. rewrite El. apply returns_bind, returns_ret, returns_ret. rewrite len_nil, Z.add_0_r.
      split_and!; [done|done|]. split; [done|]. by exists g. }
  specialize (Hlast r Hcont eq_refl).
  assert (0 < len recs) as Hpos by (destruct recs; [done|rewrite len_cons; pose proof (len_nonneg recs); lia]).
  apply returns_bind. eapply returns_mono; [apply (commit_spec s2 name t p (f_offset (fetched r)) g Hok2 Hg2)|].
  intros _ s3 (Hok3 & Hg3 & _ & _ & Ed3 & Eb3). apply returns_ret. split_and!; [done|by eapply holds_frame|].
  split; [done|]. eexists. split; [exact Hg3|]. unfold ConsumerGroup_committed. cbn [g_offsets f_offset fetched].
  rewrite committed_after_spec by lia. rewrite decide_True by done. rewrite Hc. lia.
Qed.

(** [n] requests, one after the other. *)
Fixpoint consume_times (n : nat) : BrokerM (list Fetched) :=
  match n with
  | O => mret []
  | S n' => out ← api_consume t part q; rest ← consume_times n'; mret (out ++ rest)
  end.

Lemma consume_times_spec n : ∀ s K ks first rs o,
  holds s K → K !! t = Some ks → 0 <= p < len ks → ks !! Z.to_nat p = Some (first, rs) →
  0 <= o → consumed_to s o →
  returns (consume_times n) s (λ out s',
    let recs := next_records o (n * Z.to_nat limit) first rs in
    out = fetched <$> recs ∧ holds s' K ∧ consumed_to s' (o + len recs)).
Proof.
  induction n as [|n IH]; intros s K ks first rs o Hs HK Hp Hk Ho Hc; cbn [consume_times].
  { apply returns_ret. cbn [Nat.mul]. assert (next_records o 0 first rs = []) as ->.
    { unfold next_records. by destruct (o <? first). }
    rewrite len_nil, Z.add_0_r. done. }
  apply returns_bind. eapply returns_mono; [by apply (api_consume_spec s K ks first rs o)|].
  intros out s1 (-> & Hs1 & Hc1). cbn [Nat.mul]. rewrite next_records_app. cbv zeta.
  set (recs := next_records _ _ _ _) in *. pose proof (len_nonneg recs).
  apply returns_bind. eapply returns_mono; [apply (IH s1 K ks first rs (o + len recs)); [done..|lia|done]|].
  intros out s2 (-> & Hs2 & Hc2). apply returns_ret. rewrite <-fmap_app. split_and!; [done|done|].
  by rewrite len_app, Z.add_assoc.
Qed.
End consumer.

(** C19: a consumer group that reads a partition through the gateway.  Let [o] be the
    offset after the last one the group has committed, [0] for a new group.  If
    retention has not removed [o], then however often [/consume] is requested, and
    with any limit, the messages of all replies together are the records of the
    partition from [o] on, each exactly once and in order, up to the limit per
    request; the group's offset is then behind the last of them, in its file too, so
    that the next request, or a broker started again, goes on from there.  If
    retention has removed [o], all replies are empty and the group stays where it
    is. *)
Theorem consumed_once name t part q p limit n s K ks first rs o :
  query_arg q "group" EmptyString = name → name ≠ EmptyString →
  int_of_text part = inr p → int_of_text (query_arg q "limit" "100") = inr limit →
  holds s K → K !! t = Some ks → 0 <= p < len ks → ks !! Z.to_nat p = Some (first, rs) →
  0 <= o → consumed_to name t p s o →
  returns (consume_times t part q n) s (λ out s',
    let recs := if o <? first then [] else take (n * Z.to_nat limit) (drop (Z.to_nat (o - first)) rs) in
    out = fetched <$> recs ∧ holds s' K ∧ consumed_to name t p s' (o + len recs)).
Proof. intros. by eapply consume_times_spec. Qed.

Lemma consumed_once_witness :
  returns (consume_times "t" "0" [("group", ["g"]); ("limit", ["1"])]%string 2) demo_used (λ out s',
    out = fetched <$> demo_recs_0 ∧ holds s' demo_contents ∧ consumed_to "g" "t" 0 s' 2).
Proof.
  apply (consumed_once "g" "t" "0" [("group", ["g"]); ("limit", ["1"])]%string 0 1 2 demo_used demo_contents
    [(0, demo_recs_0); (0, demo_recs_1)] 0 demo_recs_0 0);
    [vm_compute; reflexivity|discriminate|vm_compute; reflexivity|vm_compute; reflexivity|apply demo_used_holds
    |vm_compute; reflexivity|vm_compute; split; discriminate || reflexivity|reflexivity|lia|].
  split; [apply demo_groups_ok|]. exists (mkGroup "g" []). split; [apply demo_group|vm_compute; reflexivity].
Defined.

(** ** The dashboard *)

(** What comes before and after the rows. *)
Definition page_parts : bytes * bytes := (take 1246 DASHBOARD_HTML, drop 1252 DASHBOARD_HTML).

(** The page is the source's with the rows of the topics in their place, whatever bytes
    the names have: a name is put in as it is, also one that has tags, or is
    [{rows}]. *)
Theorem dashboard_page describe metrics q d b :
  do_GET describe metrics "/" q (d, b) =
    (inr (RPage (page_parts.1 ++ join [x0a] (dashboard_row <$> merge_sort (λ x y, String.le x.1 y.1) (Broker_stats b).1.1) ++ page_parts.2)), (d, b)).
Proof.
  unfold do_GET, broker. unfold mbind, M_bind, gets. cbn [fst snd]. rewrite (bool_decide_eq_true_2 ("/"%string = "/"%string)) by done.
  unfold dashboard. generalize (join [x0a] (dashboard_row <$> merge_sort (λ x y, String.le x.1 y.1) (Broker_stats b).1.1)) as rows.
  intros rows. vm_compute. reflexivity.
Qed.

(** ** Metrics *)

(** Whatever else the registry is asked for in between, a histogram holds the newest
    of the values it was given, in order: all of them up to 2048, never more than
    that, and at least the last 1024 when some were dropped. *)
Theorem histogram_window {V} (zero : V) add name ops :
  let m := foldl (run_metric zero add) Metrics_init ops in
  window (observed name ops) (samples name m).
Proof.
  cbv zeta. induction ops as [|o ops IH] using rev_ind; [exists 0%nat; split_and!; [done|cbn; lia|by left]|].
  rewrite foldl_app. unfold observed. rewrite omap_app. fold (observed name ops). cbn [foldl].
  set (m := foldl _ _ _) in *. destruct o as [n v|n v|n v]; cbn [omap list_omap run_metric]; [by rewrite app_nil_r| |by rewrite app_nil_r].
  unfold samples, Metrics_observe. cbn [hist]. case_bool_decide as E; cbn [omap list_omap].
  - subst n. rewrite dict_get_set. cbn [default]. apply window_snoc, IH.
  - rewrite app_nil_r, dict_get_set_ne by congruence. exact IH.
Qed.

(** The Prometheus text can be made at any time: no list is indexed outside its
    length.  Of a histogram with values it shows as [p50] a value that more than half
    of them do not exceed and that at least half reach, and as [p99] one that more than
    ninety-nine in a hundred do not exceed, the index computed in double precision
    being the exact one for all windows; the registry stays as it is. *)
Theorem prometheus_quantiles {V} (zero : V) add print (le : relation V) `{!RelDecision le, !Transitive le, !Total le} div name uptime ops :
  let m := foldl (run_metric zero add) Metrics_init ops in
  let vals := samples name m in
  (∃ text, Metrics_prometheus zero add print le div uptime m = (inr text, m)) ∧
  (vals ≠ [] → returns (summary zero add le div vals) m (λ '(p50, p99, avg) m',
    m' = m ∧ avg = div (foldl add zero (merge_sort le vals)) (length vals) ∧
    (length vals < 2 * count (λ x, le x p50) vals ∧ length vals ≤ 2 * count (le p50) vals)%nat ∧
    (99 * length vals < 100 * count (λ x, le x p99) vals ∧ 0 < count (le p99) vals)%nat)).
Proof.
  cbv zeta. set (m := foldl _ _ _). split.
  - pose proof (prometheus_returns zero add print le div uptime m (run_metrics_bounded zero add ops)) as Hp.
    apply returns_inv in Hp as (text & m' & E & ->). by exists text.
  - intros Hv. pose proof (histogram_window zero add name ops) as (j & _ & Hl & _). fold m in Hl.
    eapply returns_mono; [by apply summary_spec|]. intros [[p50 p99] avg] m' (-> & -> & H50%rank_sorted & H99%rank_sorted); [|done..].
    assert (0 < length (samples name m))%nat by (destruct (samples name m); [done|cbn; lia]).
    split; [done|]. split; [done|].
    pose proof (Nat.div_mod_eq (length (samples name m)) 2). pose proof (Nat.mod_upper_bound (length (samples name m)) 2).
    pose proof (Nat.div_mod_eq (length (samples name m) * 99) 100). pose proof (Nat.mod_upper_bound (length (samples name m) * 99) 100).
    split; lia.
Qed.
