(* ===== verification/CliTheorems.v ===== *)
(** * Theorems: reading a topic from the command line *)
From S2P Require Import Prelude Bytes LogRecord FileSystem SegmentFacts CommitLog CommitLogFacts LogSpec Unicode Json JsonFacts Net NetFacts Broker BrokerFacts Api Cli BrokerTheorems.
Local Open Scope Z_scope.

(** The reply with the records [rs], and the lines it is printed as. *)
Definition records_reply (rs : list LogRec) : Json :=
  JObj [("messages"%string, JArr ((λ r, fetched_json (fetched r)) <$> rs))].

Definition record_line (r : LogRec) : Printed :=
  Message (JInt (rec_offset r)) (JStr (utf8_replace (rec_payload r))).

Definition fits (v : Json) : Prop := len (json_dumps true v) <= MAX_FRAME_BYTES.

Lemma records_reply_framable rs : fits (records_reply rs) → framable (records_reply rs).
Proof.
  intros H. split; [|done]. cbn. rewrite andb_true_r. by apply forallb_fmap_true.
Qed.

Lemma fetch_request_framable t p a : fits (fetch_request t p (JInt a)) → framable (fetch_request t p (JInt a)).
Proof. by split. Qed.

(** Printing the messages of a reply. *)
Lemma print_messages {St} rs (s : list Printed * St) :
  for_each ((λ r, fetched_json (fetched r)) <$> rs) print_message s = (inr (), (s.1 ++ (record_line <$> rs), s.2)).
Proof.
  revert s. induction rs as [|r rs IH]; intros [out st]; cbn [fmap list_fmap for_each].
  { cbn. by rewrite app_nil_r. }
  erewrite bind_ok; [|reflexivity]. rewrite IH. cbn. by rewrite <-app_assoc.
Qed.

Section consume.
Context (describe : Exn → string) (unknown_op : Json → string) (now : Z) (t : string) (p limit : Z).
Context (K : Contents) (ks : list (Z * list LogRec)) (rs : list LogRec).
Hypothesis HK : K !! t = Some ks.
Hypothesis Hp : 0 <= p < len ks.
Hypothesis Hks : ks !! Z.to_nat p = Some (0, rs).
Hypothesis Hreq : ∀ a, -1 <= a < len rs → fits (fetch_request t p (JInt a)).
Hypothesis Hrep : ∀ k, fits (records_reply (take 100 (drop k rs))).
Abbreviation call := (frame_call describe (tcp_dispatch unknown_op now)).

(** One round trip: the next hundred records. *)
Lemma fetch_call s k :
  holds s K → (k ≤ length rs)%nat →
  ∃ s', call (fetch_request t p (JInt (Z.of_nat k - 1))) s = (inr (records_reply (take 100 (drop k rs))), s') ∧ holds s' K.
Proof.
  intros Hs Hk. set (a := Z.of_nat k - 1).
  assert (returns (tcp_dispatch unknown_op now (fetch_request t p (JInt a))) s
    (λ v s', v = records_reply (take 100 (drop k rs)) ∧ holds s' K)) as Hd.
  { destruct (br_lookup _ _ _ _ _ _ Hs HK Hks) as (parts & l & Hparts & _ & Ht & _).
    assert (len parts = len ks) as El by (unfold len; by rewrite (tr_length _ _ _ _ Ht)).
    cbn. unfold tcp_fetch. apply returns_bind. eapply returns_intro; [reflexivity|]. cbn.
    apply returns_bind. eapply returns_intro; [reflexivity|]. rewrite Hparts.
    apply returns_bind. eapply returns_intro; [reflexivity|]. rewrite El.
    rewrite (proj2 (Z.leb_le 0 p)), (proj2 (Z.ltb_lt p (len ks))) by lia. cbn [andb].
    apply returns_bind. eapply returns_intro; [reflexivity|].
    apply returns_bind. eapply returns_mono; [by apply (fetch_spec s K t p ks 0 rs a 100)|].
    intros out s' (-> & Hs' & _). apply returns_ret. split; [|done]. unfold records_reply.
    rewrite <-list_fmap_compose. unfold after_records.
    assert ((if 0 <=? a then a + 1 else 0) = Z.of_nat k) as -> by (unfold a; destruct (Z.leb_spec 0 (Z.of_nat k - 1)); lia).
    rewrite (proj2 (Z.ltb_ge _ 0)) by lia. by rewrite Z.sub_0_r, Nat2Z.id. }
  apply returns_inv in Hd as (v & s' & E & -> & Hs'). exists s'.
  assert (respond describe (tcp_dispatch unknown_op now) (fetch_request t p (JInt a)) s
    = (records_reply (take 100 (drop k rs)), s')) as Er by (unfold respond; by rewrite E).
  rewrite frame_call_spec, Er; [done| |rewrite Er; apply records_reply_framable, Hrep].
  apply fetch_request_framable, Hreq. unfold len, a. lia.
Qed.

(** How many records are shown: whole replies until [limit] is reached. *)
Definition shown_count : nat := Z.to_nat (Z.min (len rs) (100 * ((limit + 99) / 100))).

Lemma rs_offset s i r : holds s K → rs !! i = Some r → rec_offset r = Z.of_nat i.
Proof.
  intros Hs Hr. destruct (br_lookup _ _ _ _ _ _ Hs HK Hks) as (parts & l & _ & _ & _ & Hrepr).
  destruct (cl_facts _ _ _ Hrepr) as (_ & _ & Hcont). exact (Hcont _ _ Hr).
Qed.

(** The bounds of a reply that does not end the loop. *)
Lemma reply_count k recs :
  recs = take 100 (drop k rs) → recs ≠ [] → (k ≤ length rs)%nat → (k = length rs ∨ (100 | Z.of_nat k)) → Z.of_nat k < limit →
  let k' := (k + length recs)%nat in
  (0 < length recs)%nat ∧ (k' ≤ length rs)%nat ∧ (k' = length rs ∨ (100 | Z.of_nat k')) ∧
  (k' ≤ shown_count)%nat ∧ (Z.of_nat k' < limit ∨ k' = shown_count).
Proof.
  intros -> Hne Hk Hd Hlt. rewrite length_take, length_drop.
  assert (k ≠ length rs) as Hkl by (intros ->; apply Hne; by rewrite drop_all).
  destruct Hd as [|[j Hj]]; [done|]. unfold shown_count, len.
  set (q := (limit + 99) / 100). assert (100 * q <= limit + 99 < 100 * q + 100) as Hq.
  { unfold q. pose proof (Z.div_mod (limit + 99) 100). pose proof (Z.mod_pos_bound (limit + 99) 100). lia. }
  cbv zeta. destruct (decide (100 ≤ length rs - k)%nat).
  - rewrite Nat.min_l by lia. split_and!; [lia|lia|right; exists (j + 1); lia|lia|]. lia.
  - rewrite Nat.min_r by lia. split_and!; [lia..|]. lia.
Qed.

Lemma consume_loop_spec fuel : ∀ s k out,
  holds s K → (k ≤ length rs)%nat → (k = length rs ∨ (100 | Z.of_nat k)) → limit - Z.of_nat k <= Z.of_nat fuel →
  (Z.of_nat k < limit ∨ k = shown_count) →
  returns (consume_loop call t p limit false fuel (JInt (Z.of_nat k - 1)) (Z.of_nat k)) (out, s) (λ ended s',
    ended = true ∧ holds s'.2 K ∧
    s'.1 = out ++ if (k =? 0)%nat && (0 <? limit) && bool_decide (rs = []) then [NoNewMessages]
                  else record_line <$> take (shown_count - k) (drop k rs)).
Proof.
  induction fuel as [|fuel IH]; intros s k out Hs Hk H100 Hf Hlim; cbn [consume_loop];
    destruct (Z.ltb_spec (Z.of_nat k) limit) as [Hlt|Hge]; try lia.
  1,3: destruct Hlim as [?|Hn]; [lia|]; apply returns_ret; split_and!; [done..|];
    rewrite <-Hn, Nat.sub_diag; destruct (Nat.eqb_spec k 0); cbn [andb]; [|by rewrite app_nil_r];
    (destruct (Z.ltb_spec 0 limit); [lia|]); by rewrite app_nil_r.
  destruct (fetch_call s k Hs Hk) as (s1 & E & Hs1).
  apply returns_bind. eapply returns_intro; [unfold on_server; by rewrite E|].
  set (recs := take 100 (drop k rs)) in *. cbn [records_reply].
  apply returns_bind. eapply returns_intro; [reflexivity|].
  rewrite fmap_last. destruct (last recs) as [r|] eqn:El; cbn [fmap option_fmap option_map].
  - assert (recs ≠ []) as Hne by (intros E0; by rewrite E0 in El).
    destruct (reply_count k recs eq_refl Hne Hk H100 Hlt) as (Hpos & Hk' & H100' & Hsc & Hlim').
    apply returns_bind. eapply returns_intro; [apply print_messages|].
    apply returns_bind. eapply returns_intro; [reflexivity|]. cbn [fst snd].
    assert (f_offset (fetched r) = Z.of_nat (k + length recs) - 1) as ->.
    { cbn. rewrite last_lookup in El. unfold recs in El at 1. apply lookup_take_Some in El as [El _]. rewrite lookup_drop in El.
      fold recs in El. rewrite (rs_offset s _ _ Hs El). lia. }
    assert (Z.of_nat k + len ((λ r, fetched_json (fetched r)) <$> recs) = Z.of_nat (k + length recs)) as ->
      by (unfold len; rewrite length_fmap; lia).
    eapply returns_mono; [apply IH; [done..|lia|done]|]. intros ended s' (-> & Hs' & Eo). split_and!; [done..|].
    rewrite Eo. rewrite (proj2 (Nat.eqb_neq (k + length recs) 0)) by lia. cbn [andb].
    rewrite (bool_decide_eq_false_2 (rs = [])), andb_false_r by (intros E0; rewrite E0 in Hk'; cbn in Hk'; lia).
    rewrite <-app_assoc, <-fmap_app. do 2 f_equal.
    assert (recs = take (length recs) (drop k rs)) as E1.
    { unfold recs. rewrite length_take. destruct (decide (100 ≤ length (drop k rs))%nat); [by rewrite Nat.min_l|].
      rewrite Nat.min_r, !take_ge by lia. done. }
    rewrite E1 at 1. rewrite <-drop_drop.
    replace (shown_count - k)%nat with (length recs + (shown_count - (k + length recs)))%nat by lia.
    by rewrite take_take_drop.
  - apply last_None in El. assert (length recs = 0%nat) as E0 by (by rewrite El).
    unfold recs in E0. rewrite length_take, length_drop in E0. assert (k = length rs) as Ek by lia.
    rewrite (drop_ge rs k), take_nil by lia. destruct (Z.eqb_spec (Z.of_nat k) 0) as [Hk0|Hk0].
    + assert (rs = []) as Ers by (apply length_zero_iff_nil; lia).
      apply returns_bind. eapply returns_intro; [reflexivity|]. apply returns_ret. split_and!; [done..|].
      rewrite (proj2 (Nat.eqb_eq k 0)), (proj2 (Z.ltb_lt 0 limit)), (bool_decide_eq_true_2 _ Ers) by lia. done.
    + apply returns_bind. eapply returns_intro; [reflexivity|]. apply returns_ret. split_and!; [done..|].
      rewrite (proj2 (Nat.eqb_neq k 0)) by lia. cbn. by rewrite app_nil_r.
Qed.
End consume.

(** C20: [cmd_consume] on a partition that still has its first record, without following,
    ends and prints the partition, if its requests and the replies to them fit frames:
    request by request over the frame protocol, the records come out once each and in order, in whole replies of a hundred until the
    limit is reached (so up to 99 more than the limit asks for), or all of them if
    there are fewer; an empty partition prints the one line that says so; and the
    broker's contents stay as they were. *)
Theorem consume_prints describe unknown_op now t p limit s K ks rs :
  holds s K → K !! t = Some ks → 0 <= p < len ks → ks !! Z.to_nat p = Some (0, rs) →
  (∀ a, -1 <= a < len rs → fits (fetch_request t p (JInt a))) →
  (∀ k, fits (records_reply (take 100 (drop k rs)))) →
  returns (cmd_consume (frame_call describe (tcp_dispatch unknown_op now)) t p limit false) ([], s) (λ ended s',
    ended = true ∧ holds s'.2 K ∧
    s'.1 = if (0 <? limit) && bool_decide (rs = []) then [NoNewMessages]
           else record_line <$> take (shown_count limit rs) rs).
Proof.
  intros Hs HK Hp Hks Hreq Hrep. unfold cmd_consume. eapply returns_mono.
  - apply (consume_loop_spec describe unknown_op now t p limit K ks rs HK Hp Hks Hreq Hrep _ s 0 [] Hs).
    + lia.
    + right. exists 0. done.
    + lia.
    + destruct (Z.ltb_spec 0 limit); [by left|right]. unfold shown_count.
      assert ((limit + 99) / 100 <= 0) by (apply Z.lt_succ_r, Z.div_lt_upper_bound; lia). lia.
  - intros ended s' (-> & H1 & H2). split_and!; [done..|]. by rewrite H2, drop_0, Nat.sub_0_r.
Qed.

Lemma demo_fits : (∀ a, -1 <= a < len demo_recs_0 → fits (fetch_request "t" 0 (JInt a))) ∧
  ∀ k, fits (records_reply (take 100 (drop k demo_recs_0))).
Proof.
  split.
  - intros a Ha. assert (a = -1 ∨ a = 0 ∨ a = 1) as [->|[->| ->]] by (change (len demo_recs_0) with 2 in Ha; lia);
      vm_compute; discriminate.
  - intros [|[|[|k]]]; vm_compute; discriminate.
Qed.

Lemma consume_prints_witness :
  returns (cmd_consume (frame_call (λ _, "error"%string) (tcp_dispatch (λ _, "unknown op"%string) 5)) "t" 0 10 false)
    ([], demo_used) (λ ended s',
    ended = true ∧ holds s'.2 demo_contents ∧
    s'.1 = [Message (JInt 0) (JStr "a"); Message (JInt 1) (JStr "c")]).
Proof.
  eapply returns_mono; [apply (consume_prints (λ _, "error"%string) (λ _, "unknown op"%string) 5 "t" 0 10 demo_used
    demo_contents [(0, demo_recs_0); (0, demo_recs_1)] demo_recs_0 demo_used_holds);
    [vm_compute; reflexivity|split; [discriminate|reflexivity]|reflexivity|apply demo_fits|apply demo_fits]|].
  intros ended s' (H1 & H2 & H3). split; [exact H1|]. split; [exact H2|exact H3].
Defined.
