(* ===== verification/RaftLogTheorems.v ===== *)
(** * The Raft log and its durable form: theorems *)
From S2P Require Import Prelude Bytes LogRecord FileSystem Segment CommitLog CommitLogFacts LogSpec RaftLog RaftLogFacts DurableLog DurableLogFacts.
Local Open Scope Z_scope.

(** ** AppendEntries *)

(** A follower with a stale suffix, a leader's log, and the entries it sends. *)
Definition ent (i t : Z) (b : byte) : Entry := mkEntry i t [b].
Definition demo_follower : RaftLog := mkRaftLog [ent 1 1 x61; ent 2 1 x62; ent 3 2 x63] 1 0 0.
Definition demo_leader : list Entry := [ent 1 1 x61; ent 2 1 x62; ent 3 3 x64; ent 4 3 x65].

Lemma demo_follower_wf : raft_log_wf demo_follower.
Proof.
  split; [done| |repeat constructor; done].
  intros i e Hi. repeat (destruct i as [|i]; [by injection Hi as <-|]). done.
Qed.

Lemma numbered_of_check i es :
  bool_decide (imap (λ k e, i + Z.of_nat k) es = (e_index <$> es)) = true → numbered i es.
Proof.
  intros Hb%bool_decide_eq_true k e Hk.
  assert ((e_index <$> es) !! k = Some (e_index e)) as E by by rewrite list_lookup_fmap, Hk.
  rewrite <-Hb, list_lookup_imap, Hk in E. by injection E.
Qed.

(** Log Matching as a check. *)
Definition matching_check (a b : list Entry) : bool :=
  forallb (λ k, match a !! k, b !! k with
                | Some x, Some y => negb (e_term x =? e_term y) || bool_decide (take (S k) a = take (S k) b)
                | _, _ => true
                end) (seq 0 (length a)).

Lemma matching_of_check a b : matching_check a b = true → matching a b.
Proof.
  unfold matching_check. rewrite forallb_forall. intros H k x y Hx Hy E.
  specialize (H k). rewrite Hx, Hy, E, Z.eqb_refl in H. cbn [negb orb] in H.
  apply (bool_decide_unpack _). rewrite H; [done|]. apply in_seq. apply lookup_lt_Some in Hx. lia.
Qed.

(** C8: Log Matching is kept by AppendEntries.  The follower's log matches the
    leader's log [L], agrees with it up to [n] and receives a slice of it from there:
    the merge succeeds with the slice's last index, the follower then has exactly the
    leader's entries up to it, and still matches [L] — and either nothing changed or
    its stale suffix is gone. *)
Theorem merge_log_matching l L n m :
  raft_log_wf l → first_index l = 1 → numbered 1 L → Forall (λ e, 0 <= e_term e) L →
  matching (entries l) L → (n ≤ length (entries l))%nat → take n (entries l) = take n L →
  let incoming := take m (drop n L) in
  ∃ l', RaftLog_merge (Z.of_nat n) (term_at (Z.of_nat n) l) incoming l
          = ((true, Z.of_nat n + len incoming, 0), l') ∧
    let upto := (n + length incoming)%nat in
    take upto (entries l') = take upto L ∧ matching (entries l') L ∧
    (l' = l ∨ entries l' = take upto L).
Proof. apply merge_matching. Qed.

Lemma merge_log_matching_witness :
  ∃ l', RaftLog_merge (Z.of_nat 2) (term_at (Z.of_nat 2) demo_follower) (take 2 (drop 2 demo_leader)) demo_follower
          = ((true, Z.of_nat 2 + len (take 2 (drop 2 demo_leader)), 0), l') ∧
    let upto := (2 + length (take 2 (drop 2 demo_leader)))%nat in
    take upto (entries l') = take upto demo_leader ∧ matching (entries l') demo_leader ∧
    (l' = demo_follower ∨ entries l' = take upto demo_leader).
Proof.
  apply (merge_log_matching demo_follower demo_leader 2 2).
  - exact demo_follower_wf.
  - reflexivity.
  - apply numbered_of_check. reflexivity.
  - repeat constructor; done.
  - apply matching_of_check. reflexivity.
  - simpl. lia.
  - reflexivity.
Defined.

(** An accepted merge computes the reference merge: the log up to the match point,
    then the local entries as long as their terms agree with the incoming ones, then
    the rest of the incoming entries, renumbered. *)
Theorem merge_reference l prev incoming :
  raft_log_wf l → first_index l - 1 <= prev <= last_index l → Forall (λ e, 0 <= e_term e) incoming →
  let n := Z.to_nat (prev + 1 - first_index l) in
  let merged := take n (entries l) ++ merge_suffix (drop n (entries l)) (renumbered (prev + 1) incoming) in
  RaftLog_merge prev (term_at prev l) incoming l
    = ((true, prev + len incoming, 0), set_entries merged l) ∧
  (∀ k e, incoming !! k = Some e → ∃ x, merged !! (n + k)%nat = Some x ∧ e_term x = e_term e).
Proof.
  intros wf Hp Hts n merged. split; [by apply merge_accept|].
  intros k e Hk. pose proof (merge_point l prev wf Hp) as Hn. fold n in Hn.
  destruct (merge_suffix_agrees (drop n (entries l)) (renumbered (prev + 1) incoming) k
    (mkEntry (prev + 1 + Z.of_nat k) (e_term e) (e_payload e))) as (x & Hx & E).
  { unfold renumbered. by rewrite list_lookup_imap, Hk. }
  exists x. split; [|done]. unfold merged. rewrite lookup_app_r by (rewrite length_take; lia).
  rewrite length_take, Nat.min_l by done. by replace (n + k - n)%nat with k by lia.
Qed.

Lemma merge_reference_witness :
  let n := Z.to_nat (1 + 1 - 1) in
  let incoming := [ent 2 1 x62; ent 3 3 x64] in
  let merged := take n (entries demo_follower)
                ++ merge_suffix (drop n (entries demo_follower)) (renumbered (1 + 1) incoming) in
  RaftLog_merge 1 (term_at 1 demo_follower) incoming demo_follower
    = ((true, 1 + len incoming, 0), set_entries merged demo_follower) ∧
  (∀ k e, incoming !! k = Some e → ∃ x, merged !! (n + k)%nat = Some x ∧ e_term x = e_term e).
Proof.
  apply (merge_reference demo_follower 1 [ent 2 1 x62; ent 3 3 x64]).
  - exact demo_follower_wf.
  - split; apply Z.leb_le; reflexivity.
  - repeat constructor; done.
Defined.

(** entries that do not conflict with the log never shorten it, so that a late
    or repeated AppendEntries cannot undo a newer one; repeating a merge changes
    nothing. *)
Theorem merge_no_loss l prev incoming :
  raft_log_wf l → first_index l - 1 <= prev <= last_index l → Forall (λ e, 0 <= e_term e) incoming →
  (∀ k e x, incoming !! k = Some e →
     entries l !! (Z.to_nat (prev + 1 - first_index l) + k)%nat = Some x → e_term x = e_term e) →
  ∃ added, entries (RaftLog_merge prev (term_at prev l) incoming l).2 = entries l ++ added
    ∧ len added = Z.max 0 (len incoming - (len (entries l) - (prev + 1 - first_index l))).
Proof.
  intros wf Hp Hts Hagree. rewrite merge_accept by done. cbn [snd entries set_entries].
  set (n := Z.to_nat (prev + 1 - first_index l)) in *. pose proof (merge_point l prev wf Hp) as Hn. fold n in Hn.
  rewrite merge_suffix_no_conflict.
  - rewrite app_assoc, take_drop. eexists. split; [done|].
    unfold len. rewrite !length_drop, length_renumbered. unfold n in *. lia.
  - intros k x y Hx Hy. rewrite lookup_drop in Hx. unfold renumbered in Hy. rewrite list_lookup_imap in Hy.
    destruct (incoming !! k) as [e|] eqn:E; [|done]. injection Hy as <-. cbn. by eapply Hagree.
Qed.

Lemma merge_no_loss_witness :
  ∃ added, entries (RaftLog_merge 1 (term_at 1 demo_follower) [ent 2 1 x62] demo_follower).2
             = entries demo_follower ++ added
    ∧ len added = Z.max 0 (len [ent 2 1 x62] - (len (entries demo_follower) - (1 + 1 - 1))).
Proof.
  apply (merge_no_loss demo_follower 1 [ent 2 1 x62]).
  - exact demo_follower_wf.
  - split; apply Z.leb_le; reflexivity.
  - repeat constructor; done.
  - intros [|k] e x He Hx; [|done]. injection He as <-. by injection Hx as <-.
Defined.

(** A refused merge leaves the log alone, and its hint makes the leader back off:
    a gap asks for the index after the log; otherwise the hint is the first index of
    the run of the conflicting term that ends at [prev], at most [prev] itself. *)
Theorem merge_refusal l prev prev_term incoming :
  1 <= prev → last_index l < prev ∨ term_at prev l ≠ prev_term →
  ∃ hint, RaftLog_merge prev prev_term incoming l = ((false, 0, hint), l) ∧
    (last_index l < prev → hint = last_index l + 1) ∧
    (prev <= last_index l →
       1 <= hint <= prev ∧ (∀ j, hint <= j <= prev → term_at j l = term_at prev l) ∧
       (hint = 1 ∨ term_at (hint - 1) l ≠ term_at prev l)).
Proof.
  intros Hp Hr. rewrite merge_reject by done. eexists. split; [done|].
  destruct (Z.ltb_spec (last_index l) prev); (split; [by intros|lia]) || (split; [lia|]).
  intros _. by apply conflict_term_first_index_spec.
Qed.

Lemma merge_refusal_witness :
  ∃ hint, RaftLog_merge 3 7 [] demo_follower = ((false, 0, hint), demo_follower) ∧
    (last_index demo_follower < 3 → hint = last_index demo_follower + 1) ∧
    (3 <= last_index demo_follower →
       1 <= hint <= 3 ∧ (∀ j, hint <= j <= 3 → term_at j demo_follower = term_at 3 demo_follower) ∧
       (hint = 1 ∨ term_at (hint - 1) demo_follower ≠ term_at 3 demo_follower)).
Proof. apply (merge_refusal demo_follower 3 7 []); [lia|right; discriminate]. Defined.

(** compaction either refuses and changes nothing, or drops exactly the entries up
    to the snapshot point, keeps the rest with their indexes and records the point.
    It refuses a point at or beyond the last entry. *)
Theorem compact_correct l idx term :
  raft_log_wf l →
  let '(ok, l') := compact idx term l in
  if ok then
    raft_log_wf l' ∧ first_index l - 1 <= idx ∧ (entries l = [] ∨ idx < last_index l) ∧
    first_index l' = idx + 1 ∧ entries l' = drop (Z.to_nat (idx + 1 - first_index l)) (entries l) ∧
    snapshot_last_index l' = idx ∧ snapshot_last_term l' = term
  else l' = l ∧ (idx < first_index l - 1 ∨ entries l ≠ [] ∧ last_index l <= idx).
Proof. apply compact_spec. Qed.

Lemma compact_correct_witness :
  raft_log_wf (compact 2 1 demo_follower).2 ∧ entries (compact 2 1 demo_follower).2 = [ent 3 2 x63].
Proof.
  pose proof (compact_correct demo_follower 2 1 demo_follower_wf) as H. cbn in H.
  destruct H as (H1 & _ & _ & _ & H2 & _). split; [exact H1|exact H2].
Defined.

(** after a snapshot that covers the whole log, AppendEntries is refused for every
    previous index but 0, with the hint 1: a leader that starts at the snapshot's
    index backs off below it. *)
Theorem snapshot_refuses_appends idx term prev prev_term incoming :
  1 <= prev →
  RaftLog_merge prev prev_term incoming (mkRaftLog [] (idx + 1) idx term)
    = ((false, 0, 1), mkRaftLog [] (idx + 1) idx term).
Proof.
  intros Hp. rewrite merge_reject by by left; cbn; lia. cbn.
  destruct (Z.ltb_spec 0 prev); [done|lia].
Qed.

Lemma snapshot_refuses_appends_witness :
  RaftLog_merge 5 2 [ent 6 2 x61] (mkRaftLog [] (5 + 1) 5 2) = ((false, 0, 1), mkRaftLog [] (5 + 1) 5 2).
Proof. apply (snapshot_refuses_appends 5 2 5 2 [ent 6 2 x61]). lia. Defined.

(** ** The durable log

    [durable seg_log_repr s]: the commit log holds exactly the cached entries. *)

Abbreviation in_sync := (durable seg_log_repr).

Lemma returns_state {S A} (m : M S A) s (Q : A → S → Prop) :
  returns m s Q → ∃ x, Q x (m s).2.
Proof. intros (x & s' & E & HQ)%returns_inv. exists x. by rewrite E. Qed.

Definition demo_durable_empty : DurableRaftLog :=
  (DurableRaftLog_init (mkDurable (∅, mkLog (Z.max 1 64) 4096 [] 0) RaftLog_init)).2.

Lemma demo_durable_empty_sync : in_sync demo_durable_empty.
Proof.
  assert (list_bases ∅ = []) as Hn by reflexivity.
  destruct (returns_state _ _ _ (durable_create seg_log_repr ∅ 64 Hn)) as [x [_ Hd]]. exact Hd.
Qed.

Definition demo_durable_two : DurableRaftLog :=
  (DurableRaftLog_merge 0 0 [ent 1 1 x61; ent 2 1 x62] 0 demo_durable_empty).2.

Lemma entry_ok_small i t b : bool_decide (0 <= t < 2 ^ 64) = true → entry_ok (ent i t b).
Proof. intros Ht%bool_decide_eq_true. split; [done|]. apply Z.leb_le. reflexivity. Qed.

Lemma demo_durable_two_sync : in_sync demo_durable_two.
Proof.
  destruct (returns_state _ _ _ (durable_merge_spec seg_log_repr demo_durable_empty 0 0 [ent 1 1 x61; ent 2 1 x62] 0
    demo_durable_empty_sync ltac:(lia) (numbered_of_check (0 + 1) [ent 1 1 x61; ent 2 1 x62] eq_refl)
    ltac:(repeat constructor; by apply entry_ok_small) ltac:(lia) ltac:(by vm_compute))) as [x [_ Hd]]. exact Hd.
Qed.

(** the payload format of durable entries round-trips for every 64-bit term, and
    other terms are refused. *)
Theorem entry_payload_roundtrip t p :
  (0 <= t < 2 ^ 64 →
     ∃ b, encode_entry_payload t p = inr b ∧ decode_entry_payload b = inr (t, p)) ∧
  (¬ 0 <= t < 2 ^ 64 → encode_entry_payload t p = inl StructError).
Proof.
  split; [|apply encode_entry_payload_error].
  intros Ht. exists (be_encode 8 t ++ p). by rewrite encode_entry_payload_ok, decode_encode_payload.
Qed.

(** The durable merge refines the in-memory one: same answer, same cache, and the
    disk again holds exactly the cache — conflicting suffixes are gone from it too. *)
Theorem durable_merge_refines s prev prev_term incoming now :
  in_sync s → 0 <= prev → numbered (prev + 1) incoming → Forall entry_ok incoming →
  - 2 ^ 63 <= now < 2 ^ 63 →
  disk_size (entries (RaftLog_merge prev prev_term incoming (dl_mem s)).2) < 2 ^ 64 →
  returns (DurableRaftLog_merge prev prev_term incoming now) s
    (λ res s', (res, dl_mem s') = RaftLog_merge prev prev_term incoming (dl_mem s) ∧ in_sync s' ∧
       log_next_offset (dl_disk s').2 = last_index (dl_mem s')).
Proof.
  intros Hs Hp Hn Hok Hnow Hfit.
  eapply returns_mono; [by apply (durable_merge_spec seg_log_repr)|].
  intros res s' [E Hd]. split_and!; [done|done|by apply (durable_next seg_log_repr)].
Qed.

Lemma durable_merge_refines_witness :
  returns (DurableRaftLog_merge 1 1 [ent 2 2 x63] 0) demo_durable_two
    (λ res s', (res, dl_mem s') = RaftLog_merge 1 1 [ent 2 2 x63] (dl_mem demo_durable_two) ∧ in_sync s' ∧
       log_next_offset (dl_disk s').2 = last_index (dl_mem s')).
Proof.
  apply (durable_merge_refines demo_durable_two 1 1 [ent 2 2 x63] 0 demo_durable_two_sync).
  - lia.
  - apply numbered_of_check. reflexivity.
  - repeat constructor; by apply entry_ok_small.
  - lia.
  - by vm_compute.
Defined.

(** appending to the durable log appends the same entry to cache and disk. *)
Theorem durable_append_refines s term payload now :
  in_sync s → - 2 ^ 63 <= now < 2 ^ 63 →
  let e := mkEntry (last_index (dl_mem s) + 1) term payload in
  entry_ok e → disk_size (entries (dl_mem s) ++ [e]) < 2 ^ 64 →
  returns (DurableRaftLog_append_entry term payload now) s
    (λ e' s', (e', dl_mem s') = RaftLog_append_entry term payload (dl_mem s) ∧ in_sync s').
Proof. intros Hs Hnow e. by apply (append_entry_spec seg_log_repr). Qed.

Lemma durable_append_refines_witness :
  returns (DurableRaftLog_append_entry 2 [x63] 0) demo_durable_two
    (λ e' s', (e', dl_mem s') = RaftLog_append_entry 2 [x63] (dl_mem demo_durable_two) ∧ in_sync s').
Proof.
  apply (durable_append_refines demo_durable_two 2 [x63] 0 demo_durable_two_sync).
  - lia.
  - split; [split; [apply Z.leb_le|apply Z.ltb_lt]; reflexivity|apply Z.leb_le; reflexivity].
  - by vm_compute.
Defined.

(** A restart loses nothing: opening the directory of a durable log rebuilds
    exactly its entries, in sync with the disk. *)
Theorem durable_restart s max_bytes :
  in_sync s → disk_size (entries (dl_mem s)) < 2 ^ 64 →
  returns DurableRaftLog_init (mkDurable ((dl_disk s).1, mkLog (Z.max 1 max_bytes) 4096 [] 0) RaftLog_init)
    (λ _ s', entries (dl_mem s') = entries (dl_mem s) ∧ in_sync s').
Proof. apply (durable_reopen seg_log_repr). Qed.

Lemma durable_restart_witness :
  returns DurableRaftLog_init (mkDurable ((dl_disk demo_durable_two).1, mkLog (Z.max 1 64) 4096 [] 0) RaftLog_init)
    (λ _ s', entries (dl_mem s') = entries (dl_mem demo_durable_two) ∧ in_sync s').
Proof.
  apply (durable_restart demo_durable_two 64 demo_durable_two_sync). by vm_compute.
Defined.

(** [truncate_disk_through(i)], called after a snapshot of the log's prefix was
    loaded, removes from the disk the entries above [i], which the cache still has:
    the next restart loses them. *)
Theorem resync_drops_suffix :
  let s := (truncate_disk_through 1
              (mkDurable (dl_disk demo_durable_two) (compact 1 1 (dl_mem demo_durable_two)).2)).2 in
  entries (dl_mem s) = [ent 2 1 x62] ∧
  entries (dl_mem (DurableRaftLog_init (mkDurable ((dl_disk s).1, mkLog 64 4096 [] 0) RaftLog_init)).2)
    = [ent 1 1 x61].
Proof. vm_compute. split; reflexivity. Qed.
