(* ===== verification/NodeTheorems.v ===== *)
(** * Raft nodes and clusters: theorems *)
From stdpp Require Import relations.
From S2P Require Import Prelude Bytes FileSystem Unicode RaftLog RaftLogFacts DurableLog KVStore RaftInterfaces RaftNode ElectionSpec NodeFacts NodeElection NodeFunctional NodeMonotone Network NodeLiveness PreVote StateFiles.
Local Open Scope Z_scope.

(** ** A cluster to run the theorems on

    Three nodes without pre-votes. *)
Definition demo_ids : list NodeId := ["A"; "B"; "C"]%string.
Definition demo_members : gset NodeId := list_to_set demo_ids.
Abbreviation DemoNet := (Net RaftLog ListRng).
Abbreviation DemoWorld := (World RaftLog ListRng).

Definition demo_start : DemoNet := start_net false 256 demo_ids [] RaftLog_init.

(** [A] campaigns and wins with [B]'s vote. *)
Definition demo_schedule : list Event := [Fire "A" 150; Deliver 0 151; Deliver 2 152]%string.
Definition demo_net : DemoNet := default demo_start (run_events demo_start demo_schedule).

Lemma demo_net_init : net_init demo_members demo_start.
Proof. apply start_net_init; [|constructor]. apply (bool_decide_unpack (NoDup demo_ids)). vm_compute. exact I. Qed.

Lemma demo_net_reachable : net_reachable demo_members demo_net.
Proof.
  exists demo_start. split; [apply demo_net_init|].
  apply (run_events_steps demo_members demo_schedule). unfold demo_net.
  assert (bool_decide (run_events demo_start demo_schedule = None) = false) as Hrun by (by vm_compute).
  by destruct (run_events demo_start demo_schedule).
Qed.

(** The node of an identifier. *)
Definition node_at (net : DemoNet) (i : NodeId) : RaftNode RaftLog ListRng :=
  default (start_node false 256 [] [] RaftLog_init i) (nodes net !! i).

(** ** Elections *)

(** C1: election safety.  In a cluster of nodes with fixed members and without
    pre-votes, over any log implementation, for every order, loss and duplication of
    messages, every firing of timers, restarts with their state files, client
    proposals and leadership transfers: two leaders of one term are the same node,
    and so are the senders of all leader messages of one term, past and present. *)
Theorem election_safety {L Rng} `{RaftLogLaws L} `{Random Rng}
    (C : gset NodeId) (net : Net L Rng) a b t :
  net_reachable C net →
  (∃ n, nodes net !! a = Some n ∧ role n = LEADER ∧ term_of n = t) ∨
    (∃ d m, (d, m) ∈ soup net ∧ claims m t a) →
  (∃ n, nodes net !! b = Some n ∧ role n = LEADER ∧ term_of n = t) ∨
    (∃ d m, (d, m) ∈ soup net ∧ claims m t b) →
  a = b.
Proof.
  intros Hr Ha Hb. destruct (net_refines C net Hr) as [_ Hc].
  assert (∀ l, (∃ n, nodes net !! l = Some n ∧ role n = LEADER ∧ term_of n = t) ∨
    (∃ d m, (d, m) ∈ soup net ∧ claims m t l) → leads (cluster_of net) t l) as Hleads.
  { intros l [(n & Hn & Hl & Ht)|Hm]; [left|by right]. exists (server_of n).
    split; [by cbn; rewrite lookup_fmap, Hn|done]. }
  eapply one_leader_per_term; [exact Hc|by apply Hleads|by apply Hleads].
Qed.

Lemma election_safety_witness :
  role (node_at demo_net "A") = LEADER ∧ term_of (node_at demo_net "A") = 1 ∧ "A"%string = "A"%string.
Proof.
  split; [vm_compute; reflexivity|]. split; [vm_compute; reflexivity|].
  apply (election_safety demo_members demo_net "A" "A" 1 demo_net_reachable).
  - left. exists (node_at demo_net "A"). split; [vm_compute; reflexivity|split; vm_compute; reflexivity].
  - right. exists "B"%string, (Append 1 "A" 0 0 [mkEntry 1 1 NOOP] 0). split; [|split; reflexivity].
    apply (list_elem_of_lookup_2 _ 3). vm_compute. reflexivity.
Defined.

(** C13: the cluster of C1, with fixed members and without pre-votes, implements the
    abstract election protocol: every reachable network of nodes, read as servers with their term, vote, role and received votes and as
    the messages on the wire, is a reachable state of the protocol. *)
Theorem cluster_refinement {L Rng} `{RaftLogLaws L} `{Random Rng}
    (C : gset NodeId) (net : Net L Rng) :
  net_reachable C net → cluster_reachable C (cluster_of net).
Proof. apply net_refines. Qed.

Lemma cluster_refinement_witness : cluster_reachable demo_members (cluster_of demo_net).
Proof. exact (cluster_refinement demo_members demo_net demo_net_reachable). Defined.

(** C22: elections complete.  From any reachable state, a node that is not the leader
    and whose timer is due becomes the leader of the next term by a schedule of its
    timer and of the messages it leads to, if a majority of the cluster has no higher
    term and no fresher log: no such state is a dead end, whatever was lost before. *)
Theorem election_completes {L Rng} `{RaftLogLaws L} `{Random Rng}
    (C : gset NodeId) (net : Net L Rng) i n (Q : gset NodeId) clock :
  net_reachable C net → nodes net !! i = Some n →
  role n ≠ LEADER → election_deadline n <= clock →
  Q ⊆ C → majority C Q → i ∈ Q →
  (∀ j m, j ∈ Q → nodes net !! j = Some m →
     term_of m <= term_of n ∧ pair_ge (RaftNode_progress n) (RaftNode_progress m) = true) →
  ∃ net' n', rtc (net_step C) net net' ∧ nodes net' !! i = Some n' ∧
    role n' = LEADER ∧ term_of n' = term_of n + 1.
Proof.
  intros Hreach Hn Hr Hdue HQ HM Hi Hwill.
  destruct (election_run clock 0 C net i n Q) as (net' & n' & Hs & Hn' & Hrun); [done..| |].
  { destruct (RaftNode_progress n) as [lt li]. intros j m Hj Hm. destruct (Hwill j m Hj Hm). split; [lia|done]. }
  exists net', n'. split_and!; [done|done|by eapply running_majority|apply Hrun].
Qed.

Lemma election_completes_witness : ∃ net' n', rtc (net_step demo_members) demo_start net' ∧
  nodes net' !! "B"%string = Some n' ∧ role n' = LEADER ∧ term_of n' = 1.
Proof.
  apply (election_completes demo_members demo_start "B" (node_at demo_start "B") {["B"; "C"]}%string 500).
  - exists demo_start. split; [apply demo_net_init|apply rtc_refl].
  - vm_compute. reflexivity.
  - vm_compute. discriminate.
  - vm_compute. discriminate.
  - apply (bool_decide_unpack _). vm_compute. exact I.
  - vm_compute. reflexivity.
  - apply (bool_decide_unpack _). vm_compute. exact I.
  - intros j m Hj Hm. apply elem_of_union in Hj as [->%elem_of_singleton| ->%elem_of_singleton];
      vm_compute in Hm; injection Hm as <-; vm_compute; (split; [discriminate|reflexivity]).
Defined.

(** the abstract protocol has at most one leader per term. *)
Theorem protocol_election_safety C c t a b :
  cluster_reachable C c → leads c t a → leads c t b → a = b.
Proof. apply one_leader_per_term. Qed.

Lemma protocol_election_safety_witness :
  leads (cluster_of demo_net) 1 "A" ∧ "A"%string = "A"%string.
Proof.
  assert (cluster_reachable demo_members (cluster_of demo_net)) as Hr by (apply net_refines, demo_net_reachable).
  assert (leads (cluster_of demo_net) 1 "A") as Hl.
  { left. exists (server_of (node_at demo_net "A")). vm_compute. repeat split. }
  split; [exact Hl|]. exact (protocol_election_safety _ _ _ _ _ Hr Hl Hl).
Defined.

(** C40: with pre-votes enabled, the default, election safety fails: five nodes reach a
    state with two leaders of term 1.  [A] starts a pre-vote round while it is still a
    candidate of term 1; the pre-vote it gets for term 2 and a late vote of term 1
    make a majority together, while another majority has elected [E]. *)
Theorem prevote_two_leaders :
  let ids := ["A"; "B"; "C"; "D"; "E"]%string in
  let start : DemoNet := start_net true 256 ids [] RaftLog_init in
  ∃ net : DemoNet, rtc (net_step (list_to_set ids)) start net ∧
    ∃ a e, nodes net !! "A"%string = Some a ∧ nodes net !! "E"%string = Some e ∧
      role a = LEADER ∧ role e = LEADER ∧ term_of a = 1 ∧ term_of e = 1.
Proof.
  intros ids start.
  set (schedule := [Fire "A" 150; Deliver 0 151; Deliver 1 151; Deliver 4 152; Deliver 5 152; Deliver 8 153;
    Fire "E" 154; Deliver 12 155; Deliver 13 155; Deliver 15 156; Deliver 16 156; Deliver 18 157;
    Deliver 19 157; Deliver 21 158; Deliver 22 158; Fire "A" 350; Deliver 31 351; Deliver 35 352;
    Deliver 10 353]%string).
  assert (bool_decide (run_events start schedule = None) = false) as Hrun by (by vm_compute).
  destruct (run_events start schedule) as [net|] eqn:E; [|done]. clear Hrun.
  assert (∀ i, (λ n, (role n, term_of n)) <$> nodes net !! i =
    (λ n, (role n, term_of n)) <$> nodes (default start (run_events start schedule)) !! i) as Hview by (by rewrite E).
  assert ((λ n, (role n, term_of n)) <$> nodes net !! "A"%string = Some (LEADER, 1)) as (a & Ea & [= Ra Ta])%fmap_Some
    by (rewrite Hview; vm_compute; reflexivity).
  assert ((λ n, (role n, term_of n)) <$> nodes net !! "E"%string = Some (LEADER, 1)) as (e & Ee & [= Re Te])%fmap_Some
    by (rewrite Hview; vm_compute; reflexivity).
  exists net. split; [by apply (run_events_steps _ schedule)|]. exists a, e. by split_and!.
Qed.

(** ** Single nodes *)

(** C17: [_on_vote] on every branch.  A stale request is denied with the node's term
    and nothing else happens.  Otherwise the reply carries the request's term, the
    vote is granted exactly if the node has not voted for another candidate in that
    term and the candidate's log is at least as fresh, and then the vote is recorded;
    a higher term makes the node a follower and forgets its old vote. *)
Theorem on_vote_correct {L Rng} `{RaftLogOps L} `{Random Rng} clock t c li lt
    (w : World L Rng) :
  let n := nd w in
  ∃ w', RaftNode_on_vote clock t c li lt w = (inr (), w') ∧
    if t <? term_of n
    then nd w' = n ∧ sent w' = sent w ++ [(c, VoteResp (term_of n) (id n) false)]
    else
      let g := grants n t c li lt in
      sent w' = sent w ++ [(c, VoteResp t (id n) g)] ∧ term_of (nd w') = t ∧ id (nd w') = id n ∧
      voted_for (persister (nd w'))
        = (if g then Some c else if term_of n <? t then None else voted_for (persister n)) ∧
      role (nd w') = (if term_of n <? t then FOLLOWER else role n).
Proof. apply on_vote_run. Qed.

(** The operations of a node. *)
Inductive Operation : Type :=
  | OpHandle (m : Msg) | OpTick (now : option Z) | OpPropose (payload : bytes)
  | OpTransfer (target : NodeId) | OpAddServer (i : NodeId) | OpRemoveServer (i : NodeId)
  | OpSnapshot | OpInit.

Definition run_operation {L Rng} `{RaftLogOps L} `{Random Rng} (clock wall : Z)
    (o : Operation) (w : World L Rng) : World L Rng :=
  match o with
  | OpHandle m => (RaftNode_handle clock wall m w).2
  | OpTick now => (RaftNode_tick clock wall now w).2
  | OpPropose p => (RaftNode_propose clock wall p w).2
  | OpTransfer i => (RaftNode_transfer_leadership clock i w).2
  | OpAddServer i => (RaftNode_propose_add_server clock wall i w).2
  | OpRemoveServer i => (RaftNode_propose_remove_server clock wall i w).2
  | OpSnapshot => (RaftNode_take_snapshot w).2
  | OpInit => (RaftNode_init clock w).2
  end.

(** C21: no operation of a node, in any mode and whatever it raises, lowers its term,
    changes a vote within its term or lowers the applied index; and if the state file
    held the node's term and vote before, it does afterwards. *)
Theorem node_never_regresses {L Rng} `{RaftLogOps L} `{Random Rng} clock wall o
    (w : World L Rng) :
  let n := nd w in
  let n' := nd (run_operation clock wall o w) in
  term_of n <= term_of n' ∧
  (∀ c, term_of n' = term_of n → voted_for (persister n) = Some c → voted_for (persister n') = Some c) ∧
  applied_index n <= applied_index n' ∧
  (synced (persister n) → synced (persister n')).
Proof.
  cbv zeta. assert (kept (nd w) (nd (run_operation clock wall o w))) as [K1 K2 K3 K4 _]; [|done].
  destruct o; cbn [run_operation].
  - apply keeps_handle.
  - apply keeps_tick.
  - apply keeps_propose.
  - apply keeps_transfer.
  - apply keeps_add_server.
  - apply keeps_remove_server.
  - apply keeps_take_snapshot.
  - apply keeps_init.
Qed.

(** C18: the leader's commit rule.  A server holds an index if it is the leader or its
    match index is at least that, and an index is agreed if more than half of the old
    configuration (while a change is under way) hold it and the servers of the present
    configuration that hold it, together with the leader, are more than half of it.
    For a node without a match index of its own, [_advance_commit] leaves the commit
    index or sets it to the highest index above it, within the log, that has an entry
    of the current term and is agreed.  If the leader belongs to its configuration an
    agreed index is held by a majority of it; a leader outside a configuration with
    one server agrees on everything alone. *)
Theorem advance_commit_correct {L Rng} `{RaftLogOps L} `{Random Rng} clock (w : World L Rng) :
  let n := nd w in
  match_index n !! id n = None →
  let c' := commit_index (nd (RaftNode_advance_commit clock w).2) in
  (c' = commit_index n ∨
     commit_index n < c' <= last_index (rlog n) ∧ term_at c' (rlog n) = term_of n ∧ agreed c' n) ∧
  (∀ d, c' < d <= last_index (rlog n) → ¬ (term_at d (rlog n) = term_of n ∧ agreed d n)) ∧
  (id n ∈ config n → ∀ d, agreed d n →
     (size (config n) < 2 * size (holders d n (config n)))%nat) ∧
  (id n ∉ config n → old_config n = None → size (config n) = 1%nat → ∀ d, agreed d n).
Proof.
  cbv zeta. intros Hself. destruct (advance_commit_spec clock w) as [H1' H2'].
  pose proof (λ c, commit_quorum_agreed c (nd w) Hself) as Hq. split_and!.
  - destruct H1' as [E|[Hr [Ht%Z.eqb_eq Hc]%andb_true_iff]]; [by left|right]. by rewrite Hq in Hc.
  - intros d Hd [Ht Ha]. specialize (H2' d Hd). unfold committable in H2'.
    by rewrite (proj2 (Z.eqb_eq _ _) Ht), (proj2 (Hq d) Ha) in H2'.
  - intros Hin d. by apply agreed_majority.
  - intros Hout Hold Hone d. by apply agreed_alone.
Qed.

(** [A] leads three servers and [B] has its entry. *)
Definition demo_committing : DemoWorld :=
  mkWorld _ _ ((node_at demo_net "A") <| match_index := {["B" := 1; "C" := 0]}%string |>) [] [].

Lemma advance_commit_correct_witness :
  commit_index (nd demo_committing) = 0 ∧ commit_index (nd (RaftNode_advance_commit 0 demo_committing).2) = 1 ∧
  ∀ d, 1 < d <= last_index (rlog (nd demo_committing)) →
    ¬ (term_at d (rlog (nd demo_committing)) = term_of (nd demo_committing) ∧ agreed d (nd demo_committing)).
Proof.
  split; [vm_compute; reflexivity|].
  assert (commit_index (nd (RaftNode_advance_commit 0 demo_committing).2) = 1) as E by (vm_compute; reflexivity).
  split; [exact E|]. rewrite <-E.
  apply (advance_commit_correct 0 demo_committing). vm_compute. reflexivity.
Defined.

(** Such a leader: a client proposes the text of a configuration entry with [B] alone;
    once [B] has it and [A] has applied it, [A] commits the next command although no
    member of the configuration holds it. *)
Definition outside_run : M DemoWorld unit :=
  _ ← RaftNode_propose 160 160 (CFG ++ cfg_dumps ["B"%string]);
  _ ← RaftNode_handle 170 170 (AppendResp 1 "B" true 2 None);
  _ ← RaftNode_propose 180 180 (bytes_of_str "x=1");
  mret ().

Example outside_leader_commits :
  let n := nd (outside_run (mkWorld _ _ (node_at demo_net "A") [] [])).2 in
  role n = LEADER ∧ commit_index n = 3 ∧ last_index (rlog n) = 3 ∧
  config n = {["B"%string]} ∧ holders 3 n (config n) = ∅.
Proof. vm_compute. done. Qed.

(** C23: applying committed entries.  Let [es] be the entries after the applied index
    up to the commit index, none a configuration entry, on a node with a state machine
    and without automatic snapshots, and [ok] those before the first command that is
    not UTF-8 (all of them if every command is).  [_apply_committed] runs the state
    machine over [ok], in order and once each (skipping empty entries and no-ops),
    makes one callback per entry of [ok] in order, raises the applied index by their
    number and sends nothing.  If every command is UTF-8 it returns and has reached
    the commit index; otherwise it raises [UnicodeDecodeError] below the offending
    entry, with the state machine's data as after [ok]. *)
Theorem apply_committed_correct {L Rng} `{RaftLogOps L} `{Random Rng} clock es sm
    (w : World L Rng) :
  auto_snapshot_every (nd w) = None → state_machine (nd w) = Some sm →
  committed_entries (nd w) es → plain_entries es →
  let ok := before_undecodable es in
  ∃ r w' sm', RaftNode_apply_committed clock w = (r, w') ∧
    r = (if forallb decodable es then inr () else inl UnicodeDecodeError) ∧
    state_machine (nd w') = Some sm' ∧ kv_data sm' = kv_data (foldl sm_step sm ok) ∧
    applied_index (nd w') = applied_index (nd w) + len ok ∧
    commit_index (nd w') = commit_index (nd w) ∧ sent w' = sent w ∧
    (∃ new, applied w' = applied w ++ new ∧
      (if on_apply (nd w) then Forall2 (callback_of (nd w)) ok new else new = [])) ∧
    (forallb decodable es = true → ok = es ∧ sm' = foldl sm_step sm es ∧
       applied_index (nd w') = commit_index (nd w)).
Proof.
  cbv zeta. intros Ha Hsm Hes Hp.
  destruct (apply_committed_run clock es sm w Ha Hsm Hes Hp)
    as (w' & E & S & A & C & _ & _ & _ & _ & N & V). destruct Hes as [Hc _].
  eexists _, w', _. split; [exact E|]. split_and!; [done|exact S|apply sm_after_data|done..|].
  intros Hall. rewrite before_undecodable_all in A by done. split_and!; [by apply before_undecodable_all|by apply sm_after_all|lia].
Qed.

(** A node with four committed entries, one applied; the last is not UTF-8. *)
Definition demo_entries : list Entry :=
  [mkEntry 1 1 (bytes_of_str "x=1"); mkEntry 2 1 NOOP; mkEntry 3 1 (bytes_of_str "y=2"); mkEntry 4 1 [xff]].
Definition demo_applying : DemoWorld :=
  mkWorld _ _ ((start_node false 256 demo_ids [] (mkRaftLog demo_entries 1 0 0) "A")
    <| applied_index := 1 |> <| commit_index := 4 |>) [] [].

Lemma apply_committed_correct_witness :
  (RaftNode_apply_committed 0 demo_applying).1 = inl UnicodeDecodeError ∧
  (RaftNode_apply_committed 0 (demo_applying <| nd := (nd demo_applying) <| commit_index := 3 |> |>)).1 = inr () ∧
  applied_index (nd (RaftNode_apply_committed 0 demo_applying).2) = 3.
Proof.
  assert (committed_entries (nd demo_applying) (drop 1 demo_entries)) as Hes.
  { split; [reflexivity|]. intros [|[|[|[|k]]]] e He; try (injection He as <-; reflexivity); discriminate He. }
  assert (committed_entries ((nd demo_applying) <| commit_index := 3 |>) (take 2 (drop 1 demo_entries))) as Hes'.
  { split; [reflexivity|]. intros [|[|k]] e He; try (injection He as <-; reflexivity); discriminate He. }
  destruct (apply_committed_correct 0 (drop 1 demo_entries) KVStore_init demo_applying)
    as (r & w' & sm' & E & Hr & _ & _ & A & _); [reflexivity|reflexivity|exact Hes|repeat constructor|].
  destruct (apply_committed_correct 0 (take 2 (drop 1 demo_entries)) KVStore_init
    (demo_applying <| nd := (nd demo_applying) <| commit_index := 3 |> |>))
    as (r2 & w2 & sm2 & E2 & Hr2 & _); [reflexivity|reflexivity|exact Hes'|repeat constructor|].
  rewrite E, E2. cbn [fst snd]. split; [exact Hr|]. split; [exact Hr2|]. rewrite A. vm_compute. reflexivity.
Defined.

(** a committed command that is not UTF-8 stops a node for good: applying raises
    [UnicodeDecodeError] and the applied index stays below the entry, so that every
    later attempt raises again. *)
Theorem undecodable_command_wedges {L Rng} `{RaftLogOps L} `{Random Rng} clock e sm
    (w : World L Rng) :
  state_machine (nd w) = Some sm → plain (e_payload e) → is_command e = true →
  utf8_valid (e_payload e) = false → applied_index (nd w) < commit_index (nd w) →
  RaftLog_get (applied_index (nd w) + 1) (rlog (nd w)) = Some e →
  let '(r, w') := RaftNode_apply_committed clock w in
  r = inl UnicodeDecodeError ∧ applied_index (nd w') = applied_index (nd w) ∧ applied w' = applied w.
Proof. apply apply_stuck. Qed.

Definition demo_wedged : DemoWorld :=
  mkWorld _ _ ((start_node false 256 demo_ids [] (mkRaftLog [mkEntry 1 1 [xff]] 1 0 0) "A")
    <| commit_index := 1 |>) [] [].

Lemma undecodable_command_wedges_witness :
  (RaftNode_apply_committed 0 demo_wedged).1 = inl UnicodeDecodeError ∧
  applied_index (nd (RaftNode_apply_committed 0 demo_wedged).2) = applied_index (nd demo_wedged).
Proof.
  pose proof (undecodable_command_wedges 0 (mkEntry 1 1 [xff]) KVStore_init demo_wedged
    eq_refl eq_refl eq_refl eq_refl eq_refl eq_refl) as H.
  destruct (RaftNode_apply_committed 0 demo_wedged) as [r w']. destruct H as (H1 & H2 & _).
  split; [exact H1|exact H2].
Defined.

(** ** Snapshots *)

(** C24: a snapshot survives the node.  A node with a snapshot directory takes a snapshot
    at its applied index; whatever node is then built over that directory, with any
    log and any state machine, it reads the file that was just written as the latest
    one, however many older files are there, and starts with the same keys and count
    of operations, the same applied index and that index committed. *)
Theorem snapshot_restart {Rng} `{Random Rng} (w : World RaftLog Rng) sm files :
  state_machine (nd w) = Some sm → applied_index (nd w) ≠ 0 → snapshot_dir (nd w) = Some files →
  name_index (applied_index (nd w)) → snapshot_dir_ok files →
  (∀ j, name_index j → is_Some (files !! snapshot_name j) → j <= applied_index (nd w)) →
  returns RaftNode_take_snapshot w (λ snap w',
    ∀ clock node_id peer_ids r p sm0 timeout heartbeat check batch prevote callback (l : RaftLog) auto,
      let node := RaftNode_new node_id peer_ids r p (Some sm0) timeout heartbeat check batch
                     prevote callback l (snapshot_dir (nd w')) auto in
      returns (RaftNode_init clock) (mkWorld _ _ node [] []) (λ _ w2,
        is_Some snap ∧ last_snapshot (nd w2) = snap ∧ state_machine (nd w2) = Some sm ∧
        commit_index (nd w2) = applied_index (nd w) ∧ applied_index (nd w2) = applied_index (nd w))).
Proof.
  intros Hsm Ha Hd Hn Hok Hmax.
  eapply returns_mono; [apply returns_and; [by apply (take_snapshot_run w sm files)|by apply (snapshot_restart_run w sm files)]|].
  intros snap w' [(term & Hs & _) Hr]. intros. eapply returns_mono; [by apply (Hr clock _ sm0)|].
  intros _ w2 (H1 & H2 & H3 & H4).
  by split_and!; [rewrite Hs; eexists|..].
Qed.

(** Two commands applied, an older snapshot in the directory. *)
Definition demo_snapshotting : DemoWorld :=
  mkWorld _ _ ((start_node false 256 demo_ids [] (mkRaftLog [mkEntry 1 1 []; mkEntry 2 1 []] 1 0 0) "A")
    <| state_machine := Some (mkKV {["x"%string := "1"%string]} 2) |> <| applied_index := 2 |>
    <| snapshot_dir := Some {[snapshot_name 1 := snapshot_text 1 1 (mkSnap ∅ 1)]} |>) [] [].

Lemma demo_snapshots_ok : snapshot_dir_ok {[snapshot_name 1 := snapshot_text 1 1 (mkSnap ∅ 1)]}.
Proof. intros name [text [<- _]%lookup_singleton_Some] _. by exists 1. Qed.

Lemma snapshot_restart_witness :
  ∃ snap w', RaftNode_take_snapshot demo_snapshotting = (inr snap, w') ∧
    returns (RaftNode_init 7) (mkWorld _ _ (RaftNode_new "B" demo_ids [] (mkDS false None 0 None) (Some KVStore_init)
        (150, 300) 50 None 256 true false RaftLog_init (snapshot_dir (nd w')) None) [] []) (λ _ w2,
      state_machine (nd w2) = state_machine (nd demo_snapshotting) ∧ applied_index (nd w2) = 2).
Proof.
  unshelve epose proof (snapshot_restart demo_snapshotting (mkKV {["x"%string := "1"%string]} 2)
    {[snapshot_name 1 := snapshot_text 1 1 (mkSnap ∅ 1)]} eq_refl _ eq_refl _ demo_snapshots_ok _) as Hr.
  - discriminate.
  - split; [discriminate|reflexivity].
  - intros j Hj [text [Ej _]%lookup_singleton_Some].
    assert (1 = j) as <-; [|discriminate]. apply Z.le_antisymm; apply snapshot_name_le;
      try exact Hj; try (split; [discriminate|reflexivity]); rewrite Ej; reflexivity.
  - apply returns_inv in Hr as (snap & w' & E & Hr). exists snap, w'. split; [exact E|].
    eapply returns_mono; [apply Hr|]. intros _ w2 (_ & _ & H3 & _ & H5). split; [exact H3|exact H5].
Defined.
