(* ===== verification/ThreadTheorems.v ===== *)
(** * Theorems: threads without locks *)
From stdpp Require Import relations.
From S2P Require Import Prelude Bytes LogRecord FileSystem Segment CommitLog Unicode RaftLog KVStore RaftInterfaces RaftNode NodeFacts Network PreVote Programs Threads NodeTheorems.
Local Open Scope Z_scope.

(** ** Votes *)

(** The network when threads of the node [i] have run, as the schedule says, each on a
    message that was sent to it. *)
Definition after_threads (net : DemoNet) (i : NodeId) (progs : list (Prog DemoWorld ())) (schedule : list nat) :
    list (Exn + Prog DemoWorld ()) * DemoNet :=
  let '(ts, w) := interleave schedule (inr <$> progs) (mkWorld _ _ (node_at net i) [] []) in
  (ts, mkNet (<[i := nd w]> (nodes net)) (soup net ++ sent w)).

(** [A] and [C] campaign for term 1; their requests are on the way to each other and to
    [B]. *)
Definition two_campaigns : list Event := [Fire "A" 150; Fire "C" 150]%string.
Definition contested : DemoNet := default demo_start (run_events demo_start two_campaigns).

(** The first thread goes on until it knows that [B] has not voted, then so does the
    second, then each goes to its end. *)
Definition switches : list nat := replicate 7 0%nat ++ replicate 3 1%nat ++ replicate 5 0%nat ++ replicate 5 1%nat.

(** The answers reach [A] and [C]. *)
Definition counting : list Event := [Deliver 4 161; Deliver 5 161].

Definition vote_progs : list (Prog DemoWorld ()) := (λ c, on_vote_prog 160 1 c 0 0) <$> ["A"; "C"]%string.
Definition raced : DemoNet := (after_threads contested "B" vote_progs switches).2.
Definition counted : DemoNet := default raced (run_events raced counting).

Lemma contested_reachable : net_reachable demo_members contested.
Proof.
  exists demo_start. split; [apply demo_net_init|]. unfold contested.
  assert (bool_decide (run_events demo_start two_campaigns = None) = false) as E by (by vm_compute).
  destruct (run_events demo_start two_campaigns) as [net|] eqn:Er; [by apply (run_events_steps _ two_campaigns)|done].
Qed.

Lemma contested_soup :
  soup contested = [("B", Vote 1 "A" 0 0); ("C", Vote 1 "A" 0 0); ("A", Vote 1 "C" 0 0); ("B", Vote 1 "C" 0 0)]%string.
Proof. vm_compute. reflexivity. Qed.

Lemma counting_steps : rtc (net_step demo_members) raced counted.
Proof.
  unfold counted. destruct (run_events raced counting) as [net|] eqn:E; [by apply (run_events_steps _ counting)|apply rtc_refl].
Qed.

(** What the threads and the candidates end with. *)
Lemma race_sides :
  (after_threads contested "B" vote_progs switches).1 = [inr (Done ()); inr (Done ())] ∧
  (λ n, (role n, term_of n)) <$> nodes counted !! "A"%string = Some (LEADER, 1) ∧
  (λ n, (role n, term_of n)) <$> nodes counted !! "C"%string = Some (LEADER, 1).
Proof. split_and!; vm_compute; reflexivity. Qed.

(** C39: without a lock, election safety fails.  [RaftServerNode] calls [handle] from the
    thread of every connection, so that two requests for votes of one term can be
    handled at the same time.  In a cluster of three without pre-votes, with the
    candidates [A] and [C] of term 1, the threads of [B] switch between the test of
    [voted_for] and the save: both return, both have granted the vote of term 1, and
    both candidates lead term 1.  The state before is one the cluster of C1 reaches,
    and alone each thread does what [handle] does with its request. *)
Theorem vote_race :
  let '(ts, net) := after_threads contested "B" vote_progs switches in
  net_reachable demo_members contested ∧
  (∀ c (w : DemoWorld), c ∈ ["A"; "C"]%string → ("B"%string, Vote 1 c 0 0) ∈ soup contested ∧
     run_alone (on_vote_prog 160 1 c 0 0) w = RaftNode_handle 160 0 (Vote 1 c 0 0) w) ∧
  ts = [inr (Done ()); inr (Done ())] ∧
  ∃ net', rtc (net_step demo_members) net net' ∧
    ∃ a c, nodes net' !! "A"%string = Some a ∧ nodes net' !! "C"%string = Some c ∧
      role a = LEADER ∧ role c = LEADER ∧ term_of a = 1 ∧ term_of c = 1.
Proof.
  pose proof race_sides as (Hts & HA & HC).
  rewrite (surjective_pairing (after_threads contested "B" vote_progs switches)).
  split; [exact contested_reachable|]. split; [|split; [exact Hts|]].
  - intros c w Hc. split; [|apply on_vote_alone].
    rewrite contested_soup. apply elem_of_cons in Hc as [->|Hc%list_elem_of_singleton]; [by left|subst c; by do 3 right; left].
  - apply fmap_Some in HA as (a & Ea & [= Ra Ta]), HC as (c & Ec & [= Rc Tc]).
    eexists. split; [apply counting_steps|]. exists a, c. by split_and!.
Qed.

(** ** Appending *)

Definition log_with (ps : list bytes) : FS * CommitLog :=
  foldl (λ s p, (CommitLog_append p (Some 0) 0 s).2) (CommitLog_open 1000 4096 ∅).2 ps.

(** Two requests append to one log; the second thread reads the next offset before the
    first has moved it: both are told offset 1, the record of the second can not be read at
    any offset, and the log that is opened again goes on with offset 2. *)
Theorem append_race :
  let s := log_with [[x61]] in
  let progs := [append_prog [x62] (Some 0) 0; append_prog [x63] (Some 0) 0] in
  let '(ts, s') := interleave (0%nat :: 1%nat :: replicate 4 0%nat ++ replicate 4 1%nat) (inr <$> progs) s in
  ts = [inr (Done 1); inr (Done 1)] ∧
  (λ o, (CommitLog_read o s').1) <$> [0; 1; 2] = [inr (Some (mkRec 0 0 [x61])); inr (Some (mkRec 1 0 [x62])); inr None] ∧
  log_next_offset (CommitLog_open 1000 4096 s'.1).2.2 = 2.
Proof. vm_compute. repeat split. Qed.
