(* ===== verification/ReplicationTheorems.v ===== *)
(** * Theorems: the replicated log of a cluster *)
From stdpp Require Import relations.
From S2P Require Import Prelude Bytes Unicode RaftLog RaftLogFacts KVStore RaftInterfaces RaftNode ElectionSpec RaftSpec CommitSpec NodeFacts NodeElection NodeFunctional Network Replication ReplicationNet Unbatched PreVote.
Local Open Scope Z_scope.

(** ** Schedules

    Three nodes without pre-votes that send at most [batch] entries in a message. *)
Definition replica_ids : list NodeId := ["A"; "B"; "C"]%string.
Definition replica_members : gset NodeId := list_to_set replica_ids.
Definition replica_start (batch : Z) : Net RaftLog ListRng := start_net false batch replica_ids [] RaftLog_init.
Definition replica_run (batch : Z) (es : list Event) : Net RaftLog ListRng :=
  default (replica_start batch) (run_events (replica_start batch) es).

Lemma run_event_replica C e (net net' : Net RaftLog ListRng) : run_event net e = Some net' → replica_step C net net'.
Proof.
  destruct e as [i clock|k clock|i payload clock]; cbn -[starts_with CFG].
  - destruct (nodes net !! i) as [n|] eqn:E; [|done]. intros [= <-]. by apply replica_tick.
  - destruct (soup net !! k) as [[i m]|] eqn:Ek; [|done]. cbn.
    destruct (nodes net !! i) as [n|] eqn:E; [|done]. intros [= <-].
    apply replica_deliver; [done|]. by eapply list_elem_of_lookup_2.
  - destruct (nodes net !! i) as [n|] eqn:E; [|done]. cbn -[starts_with CFG]. destruct (starts_with CFG payload) eqn:Ep; [done|].
    intros [= <-]. apply replica_propose; [done|exact Ep].
Qed.

Lemma run_events_replica C es : ∀ net net' : Net RaftLog ListRng, run_events net es = Some net' → rtc (replica_step C) net net'.
Proof.
  induction es as [|e es IH]; intros net net'; cbn; [intros [= <-]; apply rtc_refl|].
  destruct (run_event net e) as [net1|] eqn:E; [|done]. intros Hr.
  eapply rtc_l; [by eapply run_event_replica|by apply IH].
Qed.

Lemma replica_start_init batch : replica_init replica_members (replica_start batch).
Proof.
  constructor.
  - apply (start_net_init (L:=RaftLog) (Rng:=ListRng) batch replica_ids [] RaftLog_init); [|constructor]. apply (bool_decide_unpack (NoDup replica_ids)). vm_compute. exact I.
  - intros i n Hi. destruct (start_net_node (L:=RaftLog) (Rng:=ListRng) false batch replica_ids [] RaftLog_init i n Hi) as [-> _].
    unfold start_node. set (w := mkWorld _ _ _ [] []).
    assert (logged (nd w)) as Hl by by split; [apply RaftLog_init_wf|..].
    destruct (log_kept_init 0 w eq_refl Hl) as [Hl' E]. by split_and!.
Qed.

Lemma replica_run_reachable batch es : replica_reachable replica_members (replica_run batch es).
Proof.
  exists (replica_start batch). split; [apply replica_start_init|]. unfold replica_run.
  destruct (run_events _ es) as [net|] eqn:E; [by apply (run_events_replica _ es)|apply rtc_refl].
Qed.

(** A run goes on. *)
Lemma run_events_app xs ys : ∀ net : Net RaftLog ListRng, run_events net (xs ++ ys) = (n ← run_events net xs; run_events n ys).
Proof. induction xs as [|x xs IH]; intros net; cbn; [done|]. destruct (run_event net x); [apply IH|done]. Qed.

Lemma replica_run_app C batch xs ys :
  bool_decide (run_events (replica_start batch) (xs ++ ys) = None) = false →
  rtc (replica_step C) (replica_run batch xs) (replica_run batch (xs ++ ys)).
Proof.
  unfold replica_run. rewrite run_events_app. destruct (run_events _ xs) as [n|]; [|done]. cbn.
  destruct (run_events n ys) as [n'|] eqn:E; [|done]. intros _. by eapply run_events_replica.
Qed.

(** What is seen of a node at the end. *)
Definition peek {A} (f : RaftNode RaftLog ListRng → A) (batch : Z) (es : list Event) (i : NodeId) : option A :=
  f <$> nodes (replica_run batch es) !! i.

(** ** Log matching *)

(** C7: log matching.  In a cluster of nodes with fixed members, in-memory logs and no
    snapshots, without pre-votes, for every order, loss and duplication of messages,
    every firing of timers, client proposals, leadership transfers and restarts with
    the state file, the log and a new state machine: the logs of two nodes that have an entry of the same
    index and term are the same up to and including it. *)
Theorem log_matching {Rng} `{Random Rng} (C : gset NodeId) (net : Net RaftLog Rng) a b na nb k x y :
  replica_reachable C net → nodes net !! a = Some na → nodes net !! b = Some nb →
  entries (rlog na) !! k = Some x → entries (rlog nb) !! k = Some y → e_term x = e_term y →
  take (S k) (entries (rlog na)) = take (S k) (entries (rlog nb)).
Proof. intros Hr Ha Hb. exact (replicas_match C net a b na nb Hr Ha Hb k x y). Qed.

(** [A] leads term 1 and keeps a command to itself; [B] leads term 2 and commits. *)
Definition superseded : list Event :=
  [Fire "A" 150; Deliver 0 151; Deliver 2 152; Deliver 3 153; Deliver 4 153; Propose "A" (bytes_of_str "x=1") 155;
   Fire "B" 400; Deliver 12 401; Deliver 13 402; Deliver 15 403; Deliver 18 404]%string.

(** [C] leads term 3 with the entries of [B]; [A] hears from [C]. *)
Definition succession : list Event :=
  [Fire "C" 800; Deliver 20 801; Deliver 21 802; Deliver 23 803; Deliver 26 804;
   Deliver 22 805; Deliver 27 806; Deliver 28 807]%string.

Definition deposed : list Event := superseded ++ succession.

Lemma log_matching_witness : ∃ na nb,
  nodes (replica_run 1 deposed) !! "B"%string = Some na ∧ nodes (replica_run 1 deposed) !! "C"%string = Some nb ∧
  take 3 (entries (rlog na)) = take 3 (entries (rlog nb)).
Proof.
  assert (peek (λ n, entries (rlog n) !! 2%nat) 1 deposed "B" = Some (Some (mkEntry 3 3 NOOP))) as (na & Ea & Ex)%fmap_Some by (by vm_compute).
  assert (peek (λ n, entries (rlog n) !! 2%nat) 1 deposed "C" = Some (Some (mkEntry 3 3 NOOP))) as (nb & Eb & Ey)%fmap_Some by (by vm_compute).
  exists na, nb. split; [exact Ea|]. split; [exact Eb|].
  exact (log_matching replica_members _ "B" "C" na nb 2 _ _ (replica_run_reachable 1 deposed) Ea Eb (eq_sym Ex) (eq_sym Ey) eq_refl).
Defined.

(** ** Leader completeness *)

(** C5: leader completeness.  In such a cluster, what the commit rule of a leader holds
    for, an entry of its own term that a majority acknowledged, with all entries before
    it, is in the log of every node that leads in the same or a later term, from then
    on and whatever happens: nothing that was committed is lost by elections. *)
Theorem leader_completeness {Rng} `{Random Rng} (C : gset NodeId) (net net' : Net RaftLog Rng) a b na nb k :
  replica_reachable C net → rtc (replica_step C) net net' →
  nodes net !! a = Some na → role na = LEADER → term_at k (rlog na) = term_of na → commit_quorum k na = true →
  nodes net' !! b = Some nb → role nb = LEADER → term_of na <= term_of nb →
  take (Z.to_nat k) (entries (rlog nb)) = take (Z.to_nat k) (entries (rlog na)).
Proof. apply leader_logs. Qed.

Lemma leader_completeness_witness : ∃ na nb,
  nodes (replica_run 1 superseded) !! "B"%string = Some na ∧ nodes (replica_run 1 deposed) !! "C"%string = Some nb ∧
  role nb = LEADER ∧ take 2 (entries (rlog nb)) = take 2 (entries (rlog na)).
Proof.
  assert (peek (λ n, (role n, (term_of n, term_at 2 (rlog n), commit_quorum 2 n))) 1 superseded "B" = Some (LEADER, (2, 2, true)))
    as (na & Ea & Hna)%fmap_Some by (by vm_compute).
  assert (peek (λ n, (role n, term_of n)) 1 deposed "C" = Some (LEADER, 3)) as (nb & Eb & Hnb)%fmap_Some by (by vm_compute).
  injection Hna as Hra Hta Hat Hq. injection Hnb as Hrb Htb.
  exists na, nb. split; [exact Ea|]. split; [exact Eb|]. split; [exact (eq_sym Hrb)|].
  apply (leader_completeness replica_members _ _ "B" "C" na nb 2 (replica_run_reachable 1 superseded)
    (replica_run_app _ 1 superseded succession ltac:(by vm_compute)) Ea (eq_sym Hra)); [by transitivity 2; symmetry|by symmetry|exact Eb|by symmetry|lia].
Defined.

(** C11: the cluster implements the replication protocol: every reachable network of
    nodes, read as servers with their election state, their logs, the match indexes of
    the leaders, their commit indexes and what they have applied, is a reachable state
    of the protocol. *)
Theorem replication_refinement {Rng} `{Random Rng} (C : gset NodeId) (net : Net RaftLog Rng) :
  replica_reachable C net → raft_reachable C (raft_of net).
Proof. intros Hr. by apply replica_follows. Qed.

Lemma replication_refinement_witness : raft_reachable replica_members (raft_of (replica_run 1 deposed)).
Proof. exact (replication_refinement replica_members _ (replica_run_reachable 1 deposed)). Defined.

(** ** State machine safety *)

(** C2: state machine safety.  In the cluster of log matching (fixed members, in-memory
    logs, no snapshots, no pre-votes), as long as no append message has carried a commit index
    beyond the entries in it: what any two nodes have committed agrees, also when the
    one is observed later than the other, and what the one has applied, when the other
    has applied as much, is the beginning of what the other has applied, replayed.  So
    what is committed is the same everywhere and stays, whatever the network does and
    whoever crashes, and nodes that have applied as many entries hold the same data. *)
Theorem state_machine_safety {Rng} `{Random Rng} (C : gset NodeId) (net net' : Net RaftLog Rng) a b na nb :
  replica_reachable C net → rtc (replica_step C) net net' → covered (soup net') →
  nodes net !! a = Some na → nodes net' !! b = Some nb →
  (∀ k, k <= commit_index na → k <= commit_index nb →
     take (Z.to_nat k) (entries (rlog na)) = take (Z.to_nat k) (entries (rlog nb))) ∧
  (∀ sa sb, state_machine na = Some sa → state_machine nb = Some sb → applied_index na <= applied_index nb →
     kv_data sa = replay (take (Z.to_nat (applied_index na)) (entries (rlog nb)))).
Proof.
  intros Hr Hon Hcov Ha Hb. split; [|intros sa sb]; [by eapply committed_logs|by eapply applied_logs].
Qed.

(** [C] goes on to commit a command with [B] and then [A]; later [B] hears that it is
    committed. *)
Definition onward : list Event :=
  [Propose "C" (bytes_of_str "y=2") 900; Deliver 31 901; Deliver 32 902; Fire "C" 950; Deliver 33 951]%string.

Definition informed : list Event := [Deliver 34 952].

(** What is then seen of [A], and of [B] later. *)
Lemma informed_nodes : ∃ na nb sa sb,
  nodes (replica_run 256 (deposed ++ onward)) !! "A"%string = Some na ∧
  nodes (replica_run 256 ((deposed ++ onward) ++ informed)) !! "B"%string = Some nb ∧
  state_machine na = Some sa ∧ state_machine nb = Some sb ∧ kv_data sa !! "y"%string = Some "2"%string ∧
  commit_index na = 4 ∧ commit_index nb = 4 ∧ applied_index na = 4 ∧ applied_index nb = 4.
Proof.
  assert (peek (λ n, (commit_index n, (applied_index n, state_machine n ≫= KVStore_get "y"))) 256 (deposed ++ onward) "A"
    = Some (4, (4, Some "2")))%string as (na & Ea & Hna)%fmap_Some by (by vm_compute).
  assert (peek (λ n, (commit_index n, (applied_index n, state_machine n ≫= KVStore_get "y"))) 256 ((deposed ++ onward) ++ informed) "B"
    = Some (4, (4, Some "2")))%string as (nb & Eb & Hnb)%fmap_Some by (by vm_compute).
  cbv beta in Hna, Hnb. apply pair_equal_spec in Hna as [Hca [Haa Hsa]%pair_equal_spec], Hnb as [Hcb [Hab Hsb]%pair_equal_spec].
  symmetry in Hsa, Hsb. apply bind_Some in Hsa as (sa & Hsa & Ey), Hsb as (sb & Hsb & _).
  exists na, nb, sa, sb.
  exact (conj Ea (conj Eb (conj Hsa (conj Hsb (conj Ey (conj (eq_sym Hca) (conj (eq_sym Hcb) (conj (eq_sym Haa) (eq_sym Hab))))))))).
Qed.

Lemma state_machine_safety_witness : ∃ na nb sa,
  nodes (replica_run 256 (deposed ++ onward)) !! "A"%string = Some na ∧
  nodes (replica_run 256 ((deposed ++ onward) ++ informed)) !! "B"%string = Some nb ∧
  state_machine na = Some sa ∧ kv_data sa !! "y"%string = Some "2"%string ∧
  take 4 (entries (rlog na)) = take 4 (entries (rlog nb)) ∧ kv_data sa = replay (take 4 (entries (rlog nb))).
Proof.
  destruct informed_nodes as (na & nb & sa & sb & Ea & Eb & Hsa & Hsb & Ey & Hca & Hcb & Haa & Hab).
  assert (covered (soup (replica_run 256 ((deposed ++ onward) ++ informed)))) as Hcov by (apply covered_check; by vm_compute).
  destruct (state_machine_safety replica_members _ _ "A" "B" na nb (replica_run_reachable 256 (deposed ++ onward))
    (replica_run_app _ 256 (deposed ++ onward) informed ltac:(by vm_compute)) Hcov Ea Eb) as [Hlog Hdata].
  exists na, nb, sa. split; [exact Ea|]. split; [exact Eb|]. split; [exact Hsa|]. split; [exact Ey|].
  split; [apply (Hlog 4); lia|]. rewrite (Hdata sa sb Hsa Hsb), Haa by lia. reflexivity.
Defined.

(** C4: state machine safety as long as logs fit into messages.  In a cluster in which at all
    times each node has [max_batch = 0] or a log of at most [max_batch] entries (the
    default is 256), with everything else as for log matching, every append message
    covers the commit index it carries, so the premise of state machine safety holds by
    itself: what nodes have committed and applied agrees in every reachable state and
    stays. *)
Theorem unbatched_safety {Rng} `{Random Rng} (C : gset NodeId) (net net' : Net RaftLog Rng) a b na nb :
  unbatched_reachable C net → rtc (unbatched_step C) net net' →
  nodes net !! a = Some na → nodes net' !! b = Some nb →
  (∀ k, k <= commit_index na → k <= commit_index nb →
     take (Z.to_nat k) (entries (rlog na)) = take (Z.to_nat k) (entries (rlog nb))) ∧
  (∀ sa sb, state_machine na = Some sa → state_machine nb = Some sb → applied_index na <= applied_index nb →
     kv_data sa = replay (take (Z.to_nat (applied_index na)) (entries (rlog nb)))).
Proof. apply unbatched_agree. Qed.

(** A run in which no node ever cuts a message. *)
Definition whole_messages (net : Net RaftLog ListRng) : bool :=
  forallb (λ x, bool_decide (uncut x.2)) (map_to_list (nodes net)).

Fixpoint run_whole (net : Net RaftLog ListRng) (es : list Event) : bool :=
  whole_messages net &&
  match es with
  | [] => true
  | e :: es' => match run_event net e with Some net' => run_whole net' es' | None => false end
  end.

Lemma whole_messages_unbatched net : whole_messages net = true → unbatched net.
Proof.
  unfold whole_messages. rewrite forallb_forall. intros H i n Hi. specialize (H (i, n)). cbn in H.
  apply bool_decide_eq_true in H; [done|]. by apply list_elem_of_In, elem_of_map_to_list.
Qed.

Lemma run_whole_head net es : run_whole net es = true → unbatched net.
Proof. destruct es; cbn; intros [H _]%andb_true_iff; by apply whole_messages_unbatched. Qed.

Lemma run_whole_steps C es : ∀ net, run_whole net es = true →
  ∃ net', run_events net es = Some net' ∧ rtc (unbatched_step C) net net'.
Proof.
  induction es as [|e es IH]; intros net; cbn [run_whole run_events]; [intros _; exists net; by split|].
  intros [_ H]%andb_true_iff. destruct (run_event net e) as [net1|] eqn:E; [|done].
  destruct (IH net1 H) as (net' & E' & Hs). exists net'. split; [exact E'|]. eapply rtc_l; [|exact Hs].
  split; [by eapply run_event_replica|by eapply run_whole_head].
Qed.

Lemma replica_run_whole xs : run_whole (replica_start 256) xs = true → unbatched_reachable replica_members (replica_run 256 xs).
Proof.
  intros H. exists (replica_start 256). split; [apply replica_start_init|]. split; [by eapply run_whole_head|].
  destruct (run_whole_steps replica_members xs _ H) as (net & E & Hs). unfold replica_run. by rewrite E.
Qed.

Lemma replica_run_on C xs ys :
  run_whole (replica_start 256) xs = true → run_whole (replica_run 256 xs) ys = true →
  rtc (unbatched_step C) (replica_run 256 xs) (replica_run 256 (xs ++ ys)).
Proof.
  intros H. destruct (run_whole_steps C xs _ H) as (net & E & _). unfold replica_run. rewrite run_events_app, E. cbn. intros H'.
  destruct (run_whole_steps C ys _ H') as (net' & E' & Hs). by rewrite E'.
Qed.

Lemma unbatched_safety_witness : ∃ na nb sa,
  nodes (replica_run 256 (deposed ++ onward)) !! "A"%string = Some na ∧
  nodes (replica_run 256 ((deposed ++ onward) ++ informed)) !! "B"%string = Some nb ∧
  state_machine na = Some sa ∧ kv_data sa !! "y"%string = Some "2"%string ∧
  take 4 (entries (rlog na)) = take 4 (entries (rlog nb)) ∧ kv_data sa = replay (take 4 (entries (rlog nb))).
Proof.
  destruct informed_nodes as (na & nb & sa & sb & Ea & Eb & Hsa & Hsb & Ey & Hca & Hcb & Haa & Hab).
  assert (run_whole (replica_start 256) (deposed ++ onward) = true) as Hw by (by vm_compute).
  destruct (unbatched_safety replica_members _ _ "A" "B" na nb (replica_run_whole _ Hw)
    (replica_run_on _ _ informed Hw ltac:(by vm_compute)) Ea Eb) as [Hlog Hdata].
  exists na, nb, sa. split; [exact Ea|]. split; [exact Eb|]. split; [exact Hsa|]. split; [exact Ey|].
  split; [apply (Hlog 4); lia|]. rewrite (Hdata sa sb Hsa Hsb), Haa by lia. reflexivity.
Defined.

(** ** What a follower commits *)

(** C38: without the premise of C2 state machine safety fails.  When a follower takes a
    message with a commit index above its own, it sets its own to that, or to its last
    index if that is smaller, also where its log goes on beyond the entries of the
    message; otherwise it keeps its own.  So the
    cluster of log matching reaches a state in which two nodes have applied the same
    number of entries, but different ones, and their state machines hold different
    data. *)
Theorem commit_beyond_message {Rng} `{Random Rng} :
  (∀ clock wall t ldr pi pt es c (w : World RaftLog Rng),
     term_of (nd w) <= t →
     let '((ok, _, _), l') := RaftLog_merge pi pt es (log (nd w)) in
     commit_index (nd (RaftNode_on_append clock wall t ldr pi pt es c w).2) =
       if ok && (commit_index (nd w) <? c) then Z.min c (last_index l') else commit_index (nd w)) ∧
  (∃ (C : gset NodeId) (net : Net RaftLog ListRng) a b na nb sa sb k,
     replica_reachable C net ∧ nodes net !! a = Some na ∧ nodes net !! b = Some nb ∧
     state_machine na = Some sa ∧ state_machine nb = Some sb ∧
     applied_index na = applied_index nb ∧ Z.of_nat k < applied_index na ∧
     entries (rlog na) !! k ≠ entries (rlog nb) !! k ∧ kv_data sa ≠ kv_data sb).
Proof.
  split.
  - intros clock wall t ldr pi pt es c w Ht.
    destruct (RaftLog_merge pi pt es (log (nd w))) as [[[ok m] cf] l'] eqn:E.
    assert (log_merge (L:=RaftLog) pi pt es wall (log (nd w)) = (inr (ok, m, cf), l')) as Hm by (cbn; by rewrite E).
    exact (on_append_commit clock wall t ldr pi pt es c ok m cf l' w Ht Hm).
  - set (view := λ n : RaftNode RaftLog ListRng,
      (applied_index n, (entries (rlog n) !! 1%nat, (λ sm, kv_data sm !! "x"%string) <$> state_machine n))).
    assert (peek view 1 deposed "A" = Some (2, (Some (mkEntry 2 1 (bytes_of_str "x=1")), Some (Some "1"%string))))
      as (na & Ea & Hna)%fmap_Some by (by vm_compute).
    assert (peek view 1 deposed "B" = Some (2, (Some (mkEntry 2 2 NOOP), Some None))) as (nb & Eb & Hnb)%fmap_Some by (by vm_compute).
    unfold view in Hna, Hnb. apply pair_equal_spec in Hna as [Ha [Hea Hsa]%pair_equal_spec], Hnb as [Hb [Heb Hsb]%pair_equal_spec].
    symmetry in Hsa, Hsb. apply fmap_Some in Hsa as (sa & Hsa & Ex), Hsb as (sb & Hsb & Ex').
    exists replica_members, (replica_run 1 deposed), "A"%string, "B"%string, na, nb, sa, sb, 1%nat.
    split; [apply replica_run_reachable|]. split; [exact Ea|]. split; [exact Eb|]. split; [exact Hsa|].
    split; [exact Hsb|]. split; [congruence|]. split; [lia|]. split; [by rewrite <-Hea, <-Heb|congruence].
Qed.
