(* ===== verification/DurableTheorems.v ===== *)
(** * Theorems: a cluster over durable logs *)
From stdpp Require Import relations.
From S2P Require Import Prelude Bytes Unicode RaftLog RaftLogFacts LogRecord FileSystem CommitLog LogSpec DurableLog DurableLogFacts KVStore RaftInterfaces RaftNode ElectionSpec RaftSpec CommitSpec NodeFacts NodeElection NodeLog Network Replication ReplicationNet Unbatched DurableNet PreVote ReplicationTheorems.
Local Open Scope Z_scope.

Abbreviation DNet := (Net DurableRaftLog ListRng).

(** ** Schedules with restarts *)

Definition storable_check (l : RaftLog) : bool :=
  forallb (λ e, (0 <=? e_term e) && (e_term e <? 2 ^ 64) && (len (e_payload e) + 8 <=? MAX_RECORD_BYTES)) (entries l)
  && (disk_size (entries l) <? 2 ^ 64).

Lemma storable_checked l : storable_check l = true → storable l.
Proof.
  intros [He Hs%Z.ltb_lt]%andb_true_iff. split; [|done]. apply Forall_forall. intros e Hin. rewrite forallb_forall in He.
  apply list_elem_of_In in Hin. specialize (He _ Hin). apply andb_true_iff in He as [[H1%Z.leb_le H2%Z.ltb_lt]%andb_true_iff H3%Z.leb_le].
  by split.
Qed.

(** What the node [i] has after an event in the cluster with its logs in memory fits. *)
Definition event_fits (net : DNet) (e : Event) : bool :=
  match run_event (mem_net net) e with
  | Some net' => forallb (λ '(_, n), storable_check (rlog n)) (map_to_list (nodes net'))
  | None => false
  end.

(** An event, or a node that crashes and starts again from its files. *)
Inductive DurableEvent : Set :=
  | Run (e : Event)
  | Reboot (i : NodeId) (clock : Z).

Definition run_durable_event (net : DNet) (e : DurableEvent) : option DNet :=
  match e with
  | Run e => if event_fits net e then run_event net e else None
  | Reboot i clock =>
      n ← nodes net !! i;
      if ds_path (persister n) then
        match DurableState_init true (ds_file (persister n)), reopened 64 (log n) with
        | inr p, (inr _, l) =>
            Some (after net i (restarted n p replica_ids [] (Some KVStore_init) (150, 300) 50 0 l) (RaftNode_init clock))
        | _, _ => None
        end
      else None
  end.

Fixpoint run_durable (net : DNet) (es : list DurableEvent) : option DNet :=
  match es with [] => Some net | e :: es' => net' ← run_durable_event net e; run_durable net' es' end.

Lemma stamp_zero : stamp 0.
Proof. by split. Qed.

Lemma event_room net e net' :
  event_fits net e = true → run_event (mem_net net) e = Some net' →
  ∀ i n, nodes net' !! i = Some n → storable (rlog n).
Proof.
  unfold event_fits. intros Hf E i n Hi. rewrite E, forallb_forall in Hf. apply storable_checked.
  apply (Hf (i, n)). apply list_elem_of_In. by apply elem_of_map_to_list.
Qed.

Lemma run_durable_event_step e (net net' : DNet) :
  run_durable_event net e = Some net' → durable_step replica_members net net'.
Proof.
  destruct e as [e|i clock]; cbn -[reopened DurableState_init event_fits run_event].
  - destruct (event_fits net e) eqn:Hf; [|done]. pose proof (event_room net e) as Hroom. specialize (Hroom) with (1 := Hf).
    destruct e as [i clock|k clock|i payload clock]; cbn -[starts_with CFG] in *.
    + destruct (nodes net !! i) as [n|] eqn:E; [|done]. rewrite lookup_fmap, E in Hroom. intros [= <-].
      apply durable_tick; [done|apply stamp_zero|]. eapply (Hroom _ eq_refl i). by apply lookup_insert_eq.
    + destruct (soup net !! k) as [[i m]|] eqn:Ek; [|done]. cbn in *.
      destruct (nodes net !! i) as [n|] eqn:E; [|done]. rewrite lookup_fmap, E in Hroom. intros [= <-].
      apply durable_deliver; [done|by eapply list_elem_of_lookup_2|apply stamp_zero|]. eapply (Hroom _ eq_refl i). by apply lookup_insert_eq.
    + destruct (nodes net !! i) as [n|] eqn:E; [|done]. rewrite lookup_fmap, E in Hroom. cbn -[starts_with CFG] in *.
      destruct (starts_with CFG payload) eqn:Ep; [done|]. intros [= <-].
      apply durable_propose; [done|exact Ep|apply stamp_zero|]. eapply (Hroom _ eq_refl i). by apply lookup_insert_eq.
  - destruct (nodes net !! i) as [n|] eqn:E; [|done]. cbn -[reopened DurableState_init].
    destruct (ds_path (persister n)) eqn:Ep; [|done]. destruct (DurableState_init _ _) as [x|p] eqn:Es; [done|].
    destruct (reopened 64 (log n)) as [[x|u] l] eqn:Er; [done|]. intros [= <-].
    apply (durable_restart _ _ _ n p replica_ids [] _ (150, 300) 50 0 64 u l); try done.
    + apply (bool_decide_unpack (NoDup replica_ids)). vm_compute. exact I.
    + by right.
Qed.

Lemma run_durable_steps es : ∀ net net' : DNet, run_durable net es = Some net' → rtc (durable_step replica_members) net net'.
Proof.
  induction es as [|e es IH]; intros net net'; cbn; [intros [= <-]; apply rtc_refl|].
  destruct (run_durable_event net e) as [net1|] eqn:E; [|done]. intros Hr.
  eapply rtc_l; [by apply run_durable_event_step in E|by apply IH].
Qed.

(** Three nodes over new directories, whose segments take 64 bytes. *)
Definition empty_log : DurableRaftLog := (DurableRaftLog_open 64 ∅).2.
Definition durable_start : DNet := start_net false 0 replica_ids [] empty_log.

Lemma empty_log_synced : durable seg_log_repr empty_log.
Proof.
  assert (list_bases ∅ = []) as Hn by reflexivity.
  pose proof (durable_create seg_log_repr ∅ 64 Hn) as Hc. unfold empty_log, DurableRaftLog_open.
  destruct (returns_inv _ _ _ Hc) as (x & s' & E & _ & Hd). by rewrite E.
Qed.

Lemma durable_start_mem : mem_net durable_start = replica_start 0.
Proof. reflexivity. Qed.

Lemma durable_start_init : durable_init replica_members durable_start.
Proof.
  split; [rewrite durable_start_mem; apply replica_start_init|].
  intros i n Hi. destruct (start_net_node (L:=DurableRaftLog) (Rng:=ListRng) false 0 replica_ids [] empty_log i n Hi) as [-> _].
  exact empty_log_synced.
Qed.

Definition durable_run (es : list DurableEvent) : DNet := default durable_start (run_durable durable_start es).

Lemma durable_run_reachable es : durable_reachable replica_members (durable_run es).
Proof.
  exists durable_start. split; [apply durable_start_init|]. unfold durable_run.
  destruct (run_durable _ es) as [net|] eqn:E; [by apply (run_durable_steps es)|apply rtc_refl].
Qed.

(** ** The cluster with its logs on disk *)

(** C12: a cluster of nodes over durable logs, with fixed members, without pre-votes and
    without a snapshot directory, restarted from their state files and log
    directories, does what a cluster with in-memory logs that survive restarts does, as
    long as entries and logs fit the disk format: its nodes, with their logs read from
    the cache, are a reachable state of that cluster, so that log matching, leader
    completeness and state machine safety hold of them; and every node's disk holds
    exactly the entries of its cache. *)
Theorem durable_refinement {Rng} `{Random Rng} (C : gset NodeId) (net : Net DurableRaftLog Rng) :
  durable_reachable C net →
  replica_reachable C (mem_net net) ∧
  ∀ i n, nodes net !! i = Some n → durable seg_log_repr (log n) ∧ storable (rlog n).
Proof. apply durable_follows. Qed.

(** [A] leads, commits a command, crashes and starts again. *)
Definition rebooted : list DurableEvent :=
  [Run (Fire "A" 150); Run (Deliver 0 151); Run (Deliver 2 152); Run (Propose "A" (bytes_of_str "x=1") 153);
   Run (Deliver 7 154); Run (Deliver 9 155); Reboot "A" 160]%string.

Definition glance {A} (f : RaftNode DurableRaftLog ListRng → A) (es : list DurableEvent) (i : NodeId) : option A :=
  f <$> nodes (durable_run es) !! i.

Lemma durable_refinement_witness : ∃ n,
  nodes (durable_run rebooted) !! "A"%string = Some n ∧
  role n = FOLLOWER ∧ term_of n = 1 ∧ entries (rlog n) = [mkEntry 1 1 NOOP; mkEntry 2 1 (bytes_of_str "x=1")] ∧
  replica_reachable replica_members (mem_net (durable_run rebooted)) ∧ durable seg_log_repr (log n).
Proof.
  destruct (durable_refinement replica_members _ (durable_run_reachable rebooted)) as [Hreach Hdisks].
  assert (glance (λ n, (role n, (term_of n, entries (rlog n)))) rebooted "A"
    = Some (FOLLOWER, (1, [mkEntry 1 1 NOOP; mkEntry 2 1 (bytes_of_str "x=1")]))) as (n & Ea & Hn)%fmap_Some by (by vm_compute).
  cbv beta in Hn. apply pair_equal_spec in Hn as [Hr [Ht He]%pair_equal_spec].
  exists n. split; [exact Ea|]. split; [by symmetry|]. split; [by symmetry|]. split; [by symmetry|].
  split; [exact Hreach|]. by apply (Hdisks "A"%string n).
Defined.

(** ** State machine safety *)

(** C3: state machine safety across crashes.  In a cluster of nodes over durable logs,
    with fixed members, without pre-votes and without a snapshot directory, which lose
    everything but their state files and log directories when they crash and start
    again from these, over a network that loses, repeats and reorders: as long as each
    log fits into an append message (256 entries by default) and the disk format, what
    any two nodes have committed agrees, also when the one is observed later than the
    other and has crashed in between, and what the one has applied is the beginning of
    what the other has applied, replayed. *)
Theorem durable_safety {Rng} `{Random Rng} (C : gset NodeId) (net net' : Net DurableRaftLog Rng) a b na nb :
  durable_unbatched C net → rtc (durable_unbatched_step C) net net' →
  nodes net !! a = Some na → nodes net' !! b = Some nb →
  (∀ k, k <= commit_index na → k <= commit_index nb →
     take (Z.to_nat k) (entries (rlog na)) = take (Z.to_nat k) (entries (rlog nb))) ∧
  (∀ sa sb, state_machine na = Some sa → state_machine nb = Some sb → applied_index na <= applied_index nb →
     kv_data sa = replay (take (Z.to_nat (applied_index na)) (entries (rlog nb)))).
Proof.
  intros Hr Hon Ha%mem_net_node Hb%mem_net_node. destruct (durable_unbatched_follows _ _ _ Hr Hon) as [Hr' Hon'].
  exact (unbatched_agree C _ _ a b _ _ Hr' Hon' Ha Hb).
Qed.

(** Runs in which all logs fit into messages. *)
Fixpoint durable_whole (net : DNet) (es : list DurableEvent) : bool :=
  whole_messages (mem_net net) &&
  match es with
  | [] => true
  | e :: es' => match run_durable_event net e with Some net' => durable_whole net' es' | None => false end
  end.

Lemma durable_whole_head net es : durable_whole net es = true → unbatched (mem_net net).
Proof. destruct es; cbn -[mem_net]; intros [H _]%andb_true_iff; by apply whole_messages_unbatched. Qed.

Lemma durable_whole_steps es : ∀ net, durable_whole net es = true →
  ∃ net', run_durable net es = Some net' ∧ rtc (durable_unbatched_step replica_members) net net'.
Proof.
  induction es as [|e es IH]; intros net; cbn [durable_whole run_durable]; [intros _; exists net; by split|].
  intros [_ H]%andb_true_iff. destruct (run_durable_event net e) as [net1|] eqn:E; [|done].
  destruct (IH net1 H) as (net' & E' & Hs). exists net'. split; [exact E'|]. eapply rtc_l; [|exact Hs].
  split; [by eapply run_durable_event_step|by eapply durable_whole_head].
Qed.

Lemma run_durable_app xs ys : ∀ net : DNet, run_durable net (xs ++ ys) = (n ← run_durable net xs; run_durable n ys).
Proof. induction xs as [|x xs IH]; intros net; cbn; [done|]. destruct (run_durable_event net x); [apply IH|done]. Qed.

Lemma durable_runs_whole xs ys :
  durable_whole durable_start xs = true → durable_whole (durable_run xs) ys = true →
  durable_unbatched replica_members (durable_run xs) ∧ rtc (durable_unbatched_step replica_members) (durable_run xs) (durable_run (xs ++ ys)).
Proof.
  intros Hx Hy. destruct (durable_whole_steps xs _ Hx) as (net & E & Hs). destruct (durable_whole_steps ys _ Hy) as (net' & E' & Hs').
  unfold durable_run in *. rewrite run_durable_app, E in *. cbn in *. rewrite E'. split; [|exact Hs'].
  exists durable_start. split; [apply durable_start_init|]. split; [by eapply durable_whole_head|exact Hs].
Qed.

(** [A] leads and applies a command; then it crashes and starts again, and [B] leads the
    next term with the vote of [A] and the entries of [A]'s disk. *)
Definition led : list DurableEvent :=
  [Run (Fire "A" 150); Run (Deliver 0 151); Run (Deliver 2 152); Run (Propose "A" (bytes_of_str "x=1") 153);
   Run (Deliver 7 154); Run (Deliver 9 155)]%string.
Definition recovered : list DurableEvent :=
  [Reboot "A" 160; Run (Fire "B" 600); Run (Deliver 10 601); Run (Deliver 12 602); Run (Deliver 13 603); Run (Deliver 17 604)]%string.

Lemma durable_safety_witness : ∃ na nb sa,
  nodes (durable_run led) !! "A"%string = Some na ∧ nodes (durable_run (led ++ recovered)) !! "B"%string = Some nb ∧
  state_machine na = Some sa ∧ kv_data sa !! "x"%string = Some "1"%string ∧
  take 2 (entries (rlog na)) = take 2 (entries (rlog nb)) ∧ kv_data sa = replay (take 2 (entries (rlog nb))).
Proof.
  assert (glance (λ n, (commit_index n, (applied_index n, state_machine n ≫= KVStore_get "x"))) led "A"
    = Some (2, (2, Some "1")))%string as (na & Ea & Hna)%fmap_Some by (by vm_compute).
  assert (glance (λ n, (commit_index n, (applied_index n, state_machine n ≫= KVStore_get "x"))) (led ++ recovered) "B"
    = Some (3, (3, Some "1")))%string as (nb & Eb & Hnb)%fmap_Some by (by vm_compute).
  cbv beta in Hna, Hnb. apply pair_equal_spec in Hna as [Hca [Haa Hsa]%pair_equal_spec], Hnb as [Hcb [Hab Hsb]%pair_equal_spec].
  symmetry in Hsa, Hsb. apply bind_Some in Hsa as (sa & Hsa & Ex), Hsb as (sb & Hsb & _).
  destruct (durable_runs_whole led recovered ltac:(by vm_compute) ltac:(by vm_compute)) as [Hr Hon].
  destruct (durable_safety replica_members _ _ "A" "B" na nb Hr Hon Ea Eb) as [Hlog Hdata].
  exists na, nb, sa. split; [exact Ea|]. split; [exact Eb|]. split; [exact Hsa|]. split; [exact Ex|].
  split; [apply (Hlog 2); lia|]. rewrite (Hdata sa sb Hsa Hsb), <-Haa by lia. reflexivity.
Defined.
