(* ===== verification/SimTheorems.v ===== *)
(** * Theorems: the simulated cluster *)
From S2P Require Import Prelude Bytes Unicode RaftLog KVStore RaftInterfaces RaftNode ElectionSpec NodeFacts NodeElection Network Sim SimFacts.
Local Open Scope Z_scope.

(** C14: a simulated cluster without pre-votes is built without raising, and whatever a
    test does to it, steps, crashes, restarts, partitions and proposals of plain
    commands in any order, and whatever these raise: two of its nodes, crashed or
    not, that lead in the same term are the same node. *)
Theorem sim_election_safety {Rng} `{Random Rng} `{RandomFork Rng} ids (r : Rng) timeout heartbeat latency dir ops :
  NoDup ids → Forall plain_op ops →
  let start := SimCluster_init (SimCluster_new ids r timeout heartbeat latency dir false) in
  let s := run_script ops start.2 in
  start.1 = inr () ∧
  ∀ a b na nb, sim_nodes s !! a = Some na → sim_nodes s !! b = Some nb →
    role na = LEADER → role nb = LEADER → term_of na = term_of nb → a = b.
Proof.
  intros Hnd Hops start s.
  destruct (sim_init_run (list_to_set ids) ids r timeout heartbeat latency dir Hnd eq_refl) as (s0 & E & inv).
  assert (sim_inv (list_to_set ids) s) as (hist & ok).
  { unfold s, start. rewrite E. by apply safe_script. }
  split; [unfold start; by rewrite E|]. intros a b na nb Ha Hb La Lb Ht.
  apply (one_leader_per_term _ _ (term_of na) _ _ (si_reachable _ _ _ ok)); left.
  - exists (server_of na). split; [by cbn; rewrite lookup_fmap, Ha|done].
  - exists (server_of nb). split; [by cbn; rewrite lookup_fmap, Hb|done].
Qed.

(** Three nodes; [A] leads, is cut off with a proposal it cannot commit, and restarts. *)
Definition demo_ids : list NodeId := ["A"; "B"; "C"]%string.
Definition demo_ops : list SimOp :=
  replicate 12 OpStep ++ [OpIsolate "A"; OpPropose "A" (bytes_of_str "x=1"); OpCrash "A"; OpRestart "A"]
  ++ replicate 100 OpStep.

Abbreviation demo_run ops :=
  (run_script (Rng:=ListRng) ops
     (SimCluster_init (SimCluster_new (Rng:=ListRng) demo_ids [0; 500; 900] (150, 300) 50 1 true false)).2).

Lemma demo_leader :
  (λ n, (role n, term_of n)) <$> (sim_nodes (demo_run demo_ops) !! "B"%string) = Some (LEADER, 2).
Proof. vm_compute. reflexivity. Qed.

Lemma demo_ops_plain : Forall plain_op demo_ops.
Proof.
  apply Forall_app. split; [by apply Forall_replicate|]. apply Forall_app. split; [|by apply Forall_replicate].
  by repeat constructor.
Qed.

Lemma demo_ids_nodup : NoDup demo_ids.
Proof. apply (bool_decide_unpack (NoDup demo_ids)). vm_compute. exact I. Qed.

Lemma sim_election_safety_witness : ∃ n,
  sim_nodes (demo_run demo_ops) !! "B"%string = Some n ∧ role n = LEADER ∧
  ∀ (b : NodeId) nb, sim_nodes (demo_run demo_ops) !! b = Some nb → role nb = LEADER → term_of nb = 2 → "B"%string = b.
Proof.
  pose proof demo_leader as E. apply fmap_Some in E as (n & Hn & [= Ln Tn]).
  exists n. split; [exact Hn|]. split; [exact (eq_sym Ln)|]. intros b nb Hb Lb Ht.
  apply (proj2 (sim_election_safety (Rng:=ListRng) demo_ids [0; 500; 900] (150, 300) 50 1 true demo_ops
    demo_ids_nodup demo_ops_plain) "B"%string b n nb Hn Hb); congruence.
Defined.

(** The simulator's restart breaks state machine safety.  The restarted node takes
    its whole log for committed, so it applies a proposal no quorum holds, while the
    others elect a leader and commit another entry at the same index. *)
Theorem sim_restart_diverges :
  ∃ index p q, p ≠ q ∧
    (∃ result, mkApplied "A" index p result ∈ sim_applied (demo_run demo_ops)) ∧
    (∃ result, mkApplied "B" index q result ∈ sim_applied (demo_run demo_ops)) ∧
    (∃ result, mkApplied "C" index q result ∈ sim_applied (demo_run demo_ops)).
Proof.
  exists 2, (bytes_of_str "x=1"), NOOP.
  set (events := sim_applied (demo_run demo_ops)). vm_compute in events. split; [done|].
  split_and!; eexists; unfold events; rewrite !elem_of_cons; naive_solver.
Qed.
