(* ===== verification/NetTheorems.v ===== *)
(** * Theorems: frames, the wire and the server *)
From S2P Require Import Prelude Bytes FileSystem Unicode CommitLog SegmentFacts CommitLogFacts LogSpec Json JsonFacts RaftLog DurableLog KVStore RaftInterfaces RaftNode Net NetFacts FrameServer Wire WireFacts Server Transport TransportFacts ServerFacts StateFiles DurableLogFacts RaftLogTheorems Programs.
Local Open Scope Z_scope.

(** ** Frames *)

(** A connection is served frame by frame, however the stream is cut into pieces:
    each request is handled once, in order, on the state the one before left; its
    answer, an error frame if the handler raised, is sent before the next is read;
    and what is left at the end, a torn or oversized or undecodable frame, closes the
    connection without an answer. *)
Theorem frames_served {St} describe (handler : Json → M St Json) reqs tail e rest (c : Conn) st :
  Forall (λ x, x ≠ []) (c_in c) → concat (c_in c) = concat (frame <$> reqs) ++ tail →
  next_frame tail = (inl e, rest) → ends_connection e = true →
  Forall framable reqs →
  Forall (λ v, len (json_dumps true v) < 2 ^ 32) (responses describe handler reqs st).1 →
  ∃ c', serve_conn describe handler (c, st) = (inr (), (c', (responses describe handler reqs st).2)) ∧
    c_out c' = c_out c ++ concat (frame <$> (responses describe handler reqs st).1).
Proof.
  intros Hne Hc Ht He Hreqs Hresp. apply (serve_loop_spec describe handler reqs tail e rest); [by split|done..|].
  rewrite Hc, length_app. pose proof (frames_length reqs). lia.
Qed.

Lemma frames_served_witness : ∃ c' : Conn,
  serve_conn (λ _, "KeyError"%string) (λ req n, (inr (JArr [req; JInt n]), n + 1))
    (mkConn [[x02]; [x00; x00; x00; x34]; [x32; x09]] [], 7) = (inr (), (c', 8)) ∧
  c_out c' = [] ++ concat (frame <$> [JArr [JInt 42; JInt 7]]).
Proof.
  apply (frames_served (λ _, "KeyError"%string) (λ req n, (inr (JArr [req; JInt n]), n + 1)) [JInt 42] [x09]
    Disconnected [] (mkConn [[x02]; [x00; x00; x00; x34]; [x32; x09]] []) 7).
  - repeat constructor; discriminate.
  - vm_compute. reflexivity.
  - vm_compute. reflexivity.
  - reflexivity.
  - constructor; [|constructor]. split; [reflexivity|]. vm_compute. discriminate.
  - constructor; [|constructor]. vm_compute. reflexivity.
Defined.

(** ** Messages *)

(** C31: every message of the protocol is well typed on the wire: encoding leaves no byte
    string for [json.dumps] to refuse, the result is well-formed JSON, and its text is
    read and decoded to the same message, payloads with any bytes included, provided a
    snapshot it carries does not have [B64_KEY] for its only key. *)
Theorem message_typed m :
  ∃ j, wire_message m = inr j ∧ json_wf j = true ∧ json_loads (json_dumps true j) = inr j ∧
    (msg_safe m → ∃ d, decode_wire (val_of_json j) = inr (VDict d) ∧ msg_of_val d = Some m).
Proof.
  exists (plain_json (msg_val m)). pose proof (msg_val_wf m) as Hwf. rewrite <-plain_json_wf in Hwf.
  split_and!; [apply wire_message_spec|done|by apply loads_dumps|]. intros Hs.
  rewrite val_of_plain, decode_encode_wire by by apply msg_val_safe.
  pose proof (msg_of_msg_val m) as E. destruct (msg_val m) as [| | | | | |d]; try done. by exists d.
Qed.

(** The encoding is lost on one shape.  A snapshot of a store whose only key is
    [B64_KEY] never arrives: its dictionary is taken for an encoded byte string, and
    the message is refused or not decoded at all, whatever the value is. *)
Theorem snapshot_lost t l i it v ops :
  ∃ j, wire_message (InstallSnapshot t l i it (mkSnap {[B64_KEY := v]} ops)) = inr j ∧
    match decode_wire (val_of_json j) with inr (VDict d) => msg_of_val d = None | inr _ => False | inl _ => True end.
Proof.
  eexists. split; [apply wire_message_spec|]. rewrite val_of_plain. unfold msg_val, state_val. cbn [snap_keys snap_ops].
  rewrite map_to_list_singleton. cbn [fmap list_fmap fst snd encode_wire].
  rewrite decode_dict by done. cbn -[B64_KEY b64decode msg_of_val]. rewrite bool_decide_eq_true_2 by done.
  by destruct (b64decode (VStr v)) as [e|b].
Qed.

(** ** From the socket to the node *)

(** C9: messages that arrive over a connection, with its thread the only one, are handled
    exactly as if the node had been called with each in the order they were sent:
    whatever the pieces the bytes come in, the node ends in the state its handlers lead
    to, one answer is sent per message, and a frame torn by the end of the connection
    does nothing.  The messages are to fit frames of 64 MiB, the answers to have
    lengths that fit the header, and a snapshot among the messages must not have
    [B64_KEY] for its only key. *)
Theorem connection_delivers {L Rng} `{RaftLogOps L} `{StatsSource L} `{Random Rng}
    clock wall addresses describe ms tail e rest (c : Conn) (w : World L Rng) :
  let wires := (λ m, plain_json (msg_val m)) <$> ms in
  Forall msg_safe ms → Forall (λ j, len (json_dumps true j) <= MAX_FRAME_BYTES) wires →
  Forall (λ x, x ≠ []) (c_in c) → concat (c_in c) = concat (frame <$> wires) ++ tail →
  next_frame tail = (inl e, rest) → ends_connection e = true →
  Forall (λ v, len (json_dumps true v) < 2 ^ 32) (answers clock wall describe ms w) →
  Forall2 (λ m j, wire_message m = inr j) ms wires ∧
  ∃ c', serve_conn describe (on_wire_message clock wall addresses) (c, w)
      = (inr (), (c', foldl (λ w m, (RaftNode_handle clock wall m w).2) w ms)) ∧
    c_out c' = c_out c ++ concat (frame <$> answers clock wall describe ms w).
Proof.
  intros wires Hs Hl Hne Hc Ht He Ha. split.
  { unfold wires. clear. induction ms as [|m ms IH]; constructor; [apply wire_message_spec|done]. }
  pose proof (responses_messages clock wall addresses describe ms w Hs) as Er. fold wires in Er.
  destruct (serve_loop_spec describe (on_wire_message clock wall addresses) wires tail e rest
    (S (length (concat (c_in c)))) c w) as (c' & E & Ho); [by split|done|done| |by rewrite Er| |].
  - apply Forall_forall. intros j Hj. rewrite Forall_forall in Hl. split; [|by apply Hl].
    apply list_elem_of_fmap in Hj as (m & -> & _). rewrite plain_json_wf. apply msg_val_wf.
  - rewrite Hc, length_app. pose proof (frames_length wires). lia.
  - rewrite Er in E, Ho. by exists c'.
Qed.

(** A follower, a request for its vote, and a torn frame. *)
Definition demo_follower : World RaftLog ListRng :=
  mkWorld _ _ (RaftNode_new "n2" ["n1"; "n2"]%string [] (mkDS false None 0 None) (Some KVStore_init) (150, 300) 50 None 256
    true false RaftLog_init None None) [] [].

Definition demo_vote : Msg := Vote 1 "n1" 0 0.

Definition demo_bytes : bytes := frame (plain_json (msg_val demo_vote)) ++ [x01].

Lemma connection_delivers_witness : ∃ c' : Conn,
  serve_conn (λ _, ""%string) (on_wire_message 10 0 ∅) (mkConn [take 3 demo_bytes; drop 3 demo_bytes] [], demo_follower)
    = (inr (), (c', foldl (λ w m, (RaftNode_handle 10 0 m w).2) demo_follower [demo_vote])) ∧
  sent (foldl (λ w m, (RaftNode_handle 10 0 m w).2) demo_follower [demo_vote]) = [("n1"%string, VoteResp 1 "n2" true)].
Proof.
  destruct (connection_delivers 10 0 ∅ (λ _, ""%string) [demo_vote] [x01] Disconnected []
    (mkConn [take 3 demo_bytes; drop 3 demo_bytes] []) demo_follower) as [_ (c' & E & _)].
  - by repeat constructor.
  - constructor; [|constructor]. vm_compute. discriminate.
  - repeat constructor; vm_compute; discriminate.
  - vm_compute. reflexivity.
  - vm_compute. reflexivity.
  - reflexivity.
  - constructor; [|constructor]. vm_compute. reflexivity.
  - exists c'. split; [exact E|]. vm_compute. reflexivity.
Defined.

(** ** Many connections *)

(** C10: connections share the handler's object without a lock and are otherwise
    independent.  The handler is any program of atomic steps.  Whatever connections a
    started server has been given, in whatever pieces and order their bytes arrive and
    their threads take turns, with steps of one handler between those of another, also
    when peers close, calls on sockets fail, accepting fails or the server is stopped
    in between: the object is where an interleaving of the handler's programs, one for
    each request of all connections, has brought it.  On each connection the requests
    are the first frames of the bytes that arrived, and what was sent are the frames
    of the answers of its own requests, in their order: none is left out while the
    thread receives, one while it handles; then the next turns call the handler with
    the next whole frame and send the answer when the handler is through, if it fits a
    frame.  Only a thread that has ended may have left out one answer, or a part of
    its frame.  Stopping the server stops none of this. *)
Theorem connections_served {St} describe (handler : Json → Prog St Json) host port st0 es :
  let start := (FrameServer_start (inr port) (FrameServer_init host 0)).2 in
  let '(s, st, h) := server_run describe handler es start st0 in
  ∃ schedule ts, interleave schedule (handlers handler h) st0 = (ts, st) ∧
    ∀ k c, fs_threads s !! k = Some c →
      (∃ rest, consumes (arrived k h) (requests k h) rest ∧ (cn_phase c ≠ Ended → concat (c_in (cn_conn c)) = rest)) ∧
      ∃ unsent part,
        outcomes describe k (calls h) ts = (Some <$> replies k h) ++ unsent ∧
        c_out (cn_conn c) = concat (frame <$> replies k h) ++ part ∧
        match cn_phase c with
        | Receiving => unsent = [] ∧ part = [] ∧
            ∀ v rest st', next_frame (concat (c_in (cn_conn c))) = (inr v, rest) →
              (serve_turn describe handler c st').2 = Some (Called v)
        | Handling t => unsent = [answer_of describe t] ∧ part = [] ∧
            ∀ v st', answer_of describe t = Some v → len (json_dumps true v) < 2 ^ 32 →
              (serve_turn describe handler c st').2 = Some (Answered v)
        | Ended => unsent = [] ∧ part = [] ∨ ∃ v, unsent = [Some v] ∧ part `prefix_of` frame v
        end.
Proof.
  intros start. pose proof (server_run_inv describe handler st0 es start st0 [] (server_start_inv describe handler st0 host port)) as H.
  destruct (server_run describe handler es start st0) as [[s st] h]. destruct H as (schedule & ts & _ & E & Hall).
  exists schedule, ts. split; [exact E|]. intros k c Hk. specialize (Hall k). rewrite Hk in Hall.
  destruct Hall as [Hph (p & rest & [Hne Hp] & Hc & Hr)]. split.
  { exists rest. split; [exact Hc|]. intros Hend. rewrite Hp. by apply Hr. }
  unfold phase_ok in Hph. destruct (cn_phase c) as [|t|] eqn:Ephase.
  - destruct Hph as [Ho Hs]. exists [], []. rewrite !app_nil_r. split_and!; [done..|]. intros v rest' st'. by apply turn_receives.
  - destruct Hph as (Ho & Hs & _). exists [answer_of describe t], []. rewrite app_nil_r. split_and!; [done..|].
    intros v st'. by eapply turn_answers.
  - destruct Hph as (unsent & part & Ho & Hl & Hs & Hpart). exists (Some <$> unsent), part. rewrite <-fmap_app.
    split_and!; [done..|]. destruct unsent as [|v [|]]; [left|right|cbn in Hl; lia].
    + split; [done|by apply prefix_nil_inv].
    + exists v. split; [done|]. cbn in Hpart. by rewrite app_nil_r in Hpart.
Qed.

(** A handler that counts its calls in two steps. *)
Definition count_prog (req : Json) : Prog Z Json :=
  n ← atom get; _ ← atom (put (n + 1)); mret (JArr [req; JInt n]).

(** Two connections, one frame cut in two and a stop on the way.  Both handlers read the
    count before either writes it. *)
Definition two_connections : list ServerEvent :=
  [Accepted; Accepted; Arrives 0 (take 5 (frame (JInt 42))); Arrives 1 (frame JNull ++ frame (JBool true));
   Turn 0; Turn 1; Turn 1; Arrives 0 (drop 5 (frame (JInt 42))); Turn 0; Turn 0; Stops;
   Turn 0; Turn 0; Turn 1; Turn 1; Turn 1; Turn 1; Turn 1; Turn 1].

Example handlers_overlap :
  let '(s, st, h) := server_run (λ _, ""%string) count_prog two_connections
    (FrameServer_start (inr 9000) (FrameServer_init "h" 0)).2 0 in
  st = 2 ∧ fs_running s = false ∧
  (λ c, c_out (cn_conn c)) <$> fs_threads s =
    [frame (JArr [JInt 42; JInt 0]); frame (JArr [JNull; JInt 0]) ++ frame (JArr [JBool true; JInt 1])].
Proof. vm_compute. repeat split. Qed.

(** C32: the transport contains the failures of the network, which is what the handlers of a
    node rely on when they send.  With connections that raise operating-system errors
    and calls that raise these, [Disconnected] or [ValueError], sending to a known peer
    returns or raises a [ValueError], the one the second try does not catch; the
    connections of other peers are left alone; and a kept connection that turns out to
    be dead costs nothing but itself: if the peer answers on a new one, the message is
    delivered over it and it is kept. *)
Theorem send_contained {Net Client} `{TcpNet Net Client} addresses peer msg (conns : gmap NodeId Client) (net : Net) :
  (∀ p, raises_only os_error (net_connect (Net:=Net) (Client:=Client) p)) →
  (∀ c j, raises_only (λ e, os_error e || disconnected e || value_error e) (net_call (Net:=Net) (Client:=Client) c j)) →
  peer ∈ addresses →
  let '(r, s') := TcpTransport_send addresses peer msg (conns, net) in
  (r = inr () ∨ ∃ e, r = inl e ∧ value_error e = true) ∧
  (∀ q, q ≠ peer → s'.1 !! q = conns !! q) ∧
  ∀ wire old e net1 c net2 v net3,
    wire_message msg = inr wire → conns !! peer = Some old → net_call old wire net = (inl e, net1) →
    net_connect peer (net_close old net1) = (inr c, net2) → net_call c wire net2 = (inr v, net3) →
    r = inr () ∧ s' = (<[peer := c]> conns, net3).
Proof.
  intros Hconn Hcall Hp.
  pose proof (send_raises addresses peer Hconn Hcall Hp msg (conns, net)) as Hr.
  assert (preserves (others_kept (Net:=Net) peer) (TcpTransport_send addresses peer msg)) as Ho.
  { rewrite send_run. apply preserves_except; [apply _|apply call_others|apply reconnect_others]. }
  specialize (Ho (conns, net)). unfold respects in Ho.
  destruct (TcpTransport_send addresses peer msg (conns, net)) as [r s'] eqn:E. split_and!.
  - destruct r as [e|[]]; [right|by left]. exists e. split; [done|]. by eapply Hr.
  - intros q Hq. exact (Ho q Hq).
  - intros wire old e net1 c net2 v net3 Hw Hold E1 E2 E3.
    rewrite send_run in E. rewrite wire_message_spec in Hw. assert (plain_json (msg_val msg) = wire) as Ew by congruence. rewrite Ew in E.
    pose proof (Hcall _ _ _ _ _ E1) as He. cbv beta in He.
    unfold try_except at 1 in E. unfold call_peer at 1, TcpTransport_conn at 1, mbind, M_bind in E. cbn in E.
    rewrite Hold in E. cbn in E. rewrite E1 in E. cbn in E. rewrite He in E.
    unfold reconnect, try_except, call_peer, TcpTransport_conn, mbind, M_bind in E. cbn in E. rewrite Hold in E. cbn in E.
    rewrite lookup_delete_eq, bool_decide_eq_true_2 in E by done. cbn in E. rewrite E2 in E. cbn in E. rewrite E3 in E.
    injection E as <- <-. by rewrite insert_delete_eq.
Qed.

(** A network that counts its calls, with the one connection 0 dead. *)
Definition demo_connect (p : NodeId) : M nat nat := λ n, (inr (S n), n).
Definition demo_call (c : nat) (j : Json) : M nat Json := λ n, (if (c =? 0)%nat then inl OSError else inr JNull, S n).
#[local] Instance demo_tcp : TcpNet nat nat := {| net_connect := demo_connect; net_call := demo_call; net_close := λ _ n, n |}.

Lemma send_contained_witness :
  TcpTransport_send {["n2"%string]} "n2" demo_vote ({["n2"%string := 0%nat]}, 0%nat)
    = (inr (), (<["n2"%string := 2%nat]> {["n2"%string := 0%nat]}, 2%nat)).
Proof.
  pose proof (send_contained {["n2"%string]} "n2" demo_vote {["n2"%string := 0%nat]} 0%nat) as Hs.
  destruct (TcpTransport_send {["n2"%string]} "n2" demo_vote ({["n2"%string := 0%nat]}, 0%nat)) as [r s'].
  destruct Hs as (_ & _ & Hd).
  - intros p s0 e s1 E. discriminate E.
  - intros c j s0 e s1 E. cbn in E. unfold demo_call in E. destruct (c =? 0)%nat; [|discriminate E].
    injection E as <- _. reflexivity.
  - apply elem_of_singleton. reflexivity.
  - destruct (Hd (plain_json (msg_val demo_vote)) 0%nat OSError 1%nat 2%nat 1%nat JNull 2%nat) as [-> ->];
      [apply wire_message_spec|reflexivity..].
Defined.

(** ** Starting again *)

(** C25: a server node survives its process.  Take a node with a durable log in step with
    its disk, of less than 2^64 bytes, with its term and vote in the state file (or
    term 0, no vote and no such file), and without a snapshot file (C24 is about nodes with
    one).  A node built over its files, by any id and with any timeouts, starts as a
    follower with the same term and vote and the same log entries, again in step with
    the disk, with nothing committed or applied and an empty state machine: the
    promises a Raft server makes are kept across the restart. *)
Theorem server_restart {Rng} `{Random Rng} (n : RaftNode DurableRaftLog Rng)
    clock node_id addresses (r : Rng) timeout heartbeat prevote :
  in_sync (log n) → disk_size (entries (dl_mem (log n))) < 2 ^ 64 → state_saved (persister n) →
  latest_snapshot (default ∅ (snapshot_dir n)) = None →
  ∃ n', RaftServerNode_durable clock node_id addresses r timeout heartbeat prevote (files_of n) = inr n' ∧
    term_of n' = term_of n ∧ voted_for (persister n') = voted_for (persister n) ∧
    entries (rlog n') = entries (rlog n) ∧ in_sync (log n') ∧
    role n' = FOLLOWER ∧ commit_index n' = 0 ∧ applied_index n' = 0 ∧ state_machine n' = Some KVStore_init.
Proof.
  intros Hs Hd Hp Hl. unfold RaftServerNode_durable, files_of. cbn [sf_state sf_wal sf_snapshots].
  rewrite (state_saved_load _ Hp).
  destruct (returns_inv _ _ _ (durable_reopen seg_log_repr (log n) (64 * 1024 * 1024) Hs Hd)) as (x & l & E & He & Hs').
  unfold DurableRaftLog_open. rewrite E. unfold RaftServerNode_node.
  destruct (init_without_snapshot clock (RaftNode_new node_id addresses r
    (mkDS true (ds_file (persister n)) (current_term (persister n)) (voted_for (persister n))) (Some KVStore_init)
    timeout heartbeat None 256 prevote false l (Some (default ∅ (snapshot_dir n))) None) _ eq_refl Hl) as (r' & d & ->).
  eexists. split; [reflexivity|]. by split_and!.
Qed.

(** Two entries in the log, term 3, a vote for [n1]. *)
Definition demo_durable_node : RaftNode DurableRaftLog ListRng :=
  RaftNode_new "n2" ["n1"; "n2"]%string [] (mkDS true (Some (state_text 3 (Some "n1"%string))) 3 (Some "n1"%string))
    (Some KVStore_init) (300, 600) 100 None 256 true false demo_durable_two (Some ∅) None.

Lemma server_restart_witness :
  ∃ n', RaftServerNode_durable 0 "n2" ["n1"; "n2"]%string ([] : ListRng) (300, 600) 100 true (files_of demo_durable_node) = inr n' ∧
    term_of n' = 3 ∧ voted_for (persister n') = Some "n1"%string ∧ length (entries (rlog n')) = 2%nat.
Proof.
  destruct (server_restart demo_durable_node 0 "n2" ["n1"; "n2"]%string [] (300, 600) 100 true demo_durable_two_sync)
    as (n' & E & Ht & Hv & He & _).
  - vm_compute. reflexivity.
  - left. reflexivity.
  - reflexivity.
  - exists n'. split; [exact E|]. split; [exact Ht|]. split; [exact Hv|]. rewrite He. vm_compute. reflexivity.
Defined.
