(* ===== verification/RunnerTheorems.v ===== *)
(** * Theorems: clusters of server nodes

    The invariant of [RaftClusterRunner]'s constructor on the store of dictionaries, and
    what its nodes know in the end; the leader [cluster_stable] reports. *)
From S2P Require Import Prelude Bytes FileSystem Unicode Json JsonFacts KVStore RaftLog DurableLog RaftInterfaces RaftNode Server BrokerFacts Cli Runner.
Local Open Scope Z_scope.

(** ** Dictionaries of addresses *)

Definition bound_at (port : Z) : string * Z := ("127.0.0.1"%string, port).

(** The dictionary of the nodes [ids] when the first of them are bound to [ports]. *)
Fixpoint table (ids : list NodeId) (ports : list Z) : Addresses :=
  match ids, ports with
  | [], _ => []
  | n :: ids', [] => (n, placeholder) :: table ids' []
  | n :: ids', p :: ports' => (n, bound_at p) :: table ids' ports'
  end.

Lemma table_keys ids ports : (table ids ports).*1 = ids.
Proof. revert ports. induction ids as [|n ids IH]; intros [|p ports]; cbn; [done..| |]; f_equal; apply IH. Qed.

Lemma table_full ids ports : length ports = length ids → table ids ports = zip ids (bound_at <$> ports).
Proof. revert ports. induction ids as [|n ids IH]; intros [|p ports] E; try done. cbn. f_equal. apply IH. by injection E. Qed.

Lemma placeholders_table ids d :
  NoDup (d.*1 ++ ids) → foldl (λ d n, dict_set n placeholder d) d ids = d ++ table ids [].
Proof.
  revert d. induction ids as [|n ids IH]; intros d Hnd; cbn; [by rewrite app_nil_r|].
  assert (n ∉ d.*1) as Hn.
  { apply NoDup_app in Hnd as (_ & Hd & _). intros Hin. apply (Hd _ Hin). by left. }
  rewrite dict_set_fresh by done. rewrite IH; [by rewrite <-app_assoc|].
  rewrite fmap_app. cbn. by rewrite <-app_assoc.
Qed.

Lemma dict_set_table ids ports n p :
  NoDup ids → ids !! length ports = Some n → dict_set n (bound_at p) (table ids ports) = table ids (ports ++ [p]).
Proof.
  revert ports. induction ids as [|m ids IH]; intros ports Hnd Hn; [done|].
  apply NoDup_cons in Hnd as [Hm Hnd]. destruct ports as [|q ports]; cbn in *.
  - injection Hn as ->. by rewrite bool_decide_eq_true_2.
  - rewrite bool_decide_eq_false_2; [by rewrite IH|].
    intros ->. apply Hm. by eapply list_elem_of_lookup_2.
Qed.

Lemma dict_get_table ids ports i n :
  NoDup ids → ids !! i = Some n → dict_get n (table ids ports) = Some (from_option bound_at placeholder (ports !! i)).
Proof.
  revert ports i. induction ids as [|m ids IH]; intros ports i Hnd Hn; [done|].
  apply NoDup_cons in Hnd as [Hm Hnd]. destruct i as [|i]; cbn in Hn.
  - injection Hn as ->. destruct ports; cbn; by rewrite bool_decide_eq_true_2.
  - assert (m ≠ n) by (intros ->; apply Hm; by eapply list_elem_of_lookup_2).
    destruct ports as [|q ports]; cbn; rewrite bool_decide_eq_false_2 by done; [|by apply (IH _ i)].
    by rewrite (IH [] i).
Qed.

Lemma runner_ids_nodup count : NoDup (runner_ids count).
Proof.
  unfold runner_ids. apply NoDup_fmap_2_strong; [|apply NoDup_seq].
  intros i j _ _ [= E]. apply dec_inj in E; lia.
Qed.

(** ** The constructor *)

Section runner.
Context {L Rng Os : Type} `{RaftLogOps L} `{Random Rng} `{Sockets Os}.
Context (make : NodeId → list NodeId → Exn + RaftNode L Rng).
Context (threads : nat → NodeId → RaftNode L Rng → RaftNode L Rng).
Context (P : NodeId → RaftNode L Rng → Prop) (ids : list NodeId).
Hypothesis Hids : NoDup ids.
Hypothesis Hmake : ∀ n, n ∈ ids → ∃ node, make n ids = inr node ∧ P n node.
Hypothesis Hthreads : ∀ k n node, P n node → P n (threads k n node).
Hypothesis Hbind : ∀ os : Os, ∃ p os', sock_bind "127.0.0.1" 0 os = (inr p, os').
Abbreviation Proc := (Process L Rng Os).

(** Writing [d[n] = addr] to the dictionaries at [refs]. *)
Definition written (refs : list Ref) (n : NodeId) (addr : string * Z) (heap : list Addresses) : list Addresses :=
  imap (λ r d, if decide (r ∈ refs) then dict_set n addr d else d) heap.

Lemma written_lookup refs n addr heap r :
  written refs n addr heap !! r = (λ d, if decide (r ∈ refs) then dict_set n addr d else d) <$> heap !! r.
Proof. apply list_lookup_imap. Qed.

Lemma written_one a n addr heap : <[a := dict_set n addr (default [] (heap !! a))]> heap = written [a] n addr heap.
Proof.
  apply list_eq. intros r. rewrite written_lookup. destruct (decide (r = a)) as [->|Hr].
  - destruct (heap !! a) as [d|] eqn:E; cbn [fmap option_fmap option_map from_option].
    + rewrite decide_True by by apply list_elem_of_singleton.
      rewrite list_lookup_insert_eq; [done|]. by eapply lookup_lt_Some.
    + by rewrite list_insert_ge by by apply lookup_ge_None.
  - rewrite list_lookup_insert_ne by done. destruct (heap !! r); [|done]. cbn [fmap option_fmap option_map].
    by rewrite decide_False by by intros ?%list_elem_of_singleton.
Qed.

Lemma written_none n addr heap : written [] n addr heap = heap.
Proof.
  apply list_eq. intros r. rewrite written_lookup. destruct (heap !! r); [|done]. cbn [fmap option_fmap option_map].
  by rewrite decide_False by apply not_elem_of_nil.
Qed.

(** Dictionaries that are different objects are written one after the other. *)
Lemma written_app refs refs' n addr heap :
  (∀ r, r ∈ refs → r ∉ refs') → written refs' n addr (written refs n addr heap) = written (refs ++ refs') n addr heap.
Proof.
  intros Hd. apply list_eq. intros r. rewrite !written_lookup. destruct (heap !! r) as [d|]; [|done]. cbn [fmap option_fmap option_map]. f_equal.
  specialize (Hd r). destruct (decide (r ∈ refs)), (decide (r ∈ refs')), (decide (r ∈ refs ++ refs')) as [Hr|Hr];
    rewrite ?elem_of_app in Hr; first [done|tauto].
Qed.

Lemma set_address_run a n addr (s : Proc) :
  set_address a n addr s = (inr (), s <| ps_heap := written [a] n addr (ps_heap s) |>).
Proof. unfold set_address, modify, deref. by rewrite written_one. Qed.

Lemma set_addresses_run n addr (others : list (ServerNode L Rng)) : ∀ s : Proc,
  NoDup (sv_addresses <$> others) →
  for_each others (λ o, set_address (sv_addresses o) n addr) s
    = (inr (), s <| ps_heap := written (sv_addresses <$> others) n addr (ps_heap s) |>).
Proof.
  induction others as [|o others IH]; intros s Hnd; cbn [for_each].
  - cbn [fmap list_fmap]. rewrite written_none. by destruct s.
  - rewrite fmap_cons, NoDup_cons in Hnd. destruct Hnd as [Ho Hnd].
    erewrite bind_ok; [|apply set_address_run]. rewrite IH by done. cbn -[written].
    rewrite written_app; [done|]. by intros r ->%list_elem_of_singleton.
Qed.

(** When the nodes bound to [ports] have been started: every dictionary has the same
    addresses, and no two of them are one object. *)
Record formed (ports : list Z) (s : Proc) : Prop := {
  fm_ids : sv_id <$> ps_nodes s = take (length ports) ids;
  fm_own : ps_heap s !! ps_addresses s = Some (table ids ports);
  fm_node i sv : ps_nodes s !! i = Some sv →
    sv_transport sv = sv_addresses sv ∧ ps_heap s !! sv_addresses sv = Some (table ids ports) ∧
    sv_bound sv = ports !! i ∧ sv_running sv = true ∧ sv_stopped sv = false ∧ P (sv_id sv) (sv_node sv);
  fm_refs : NoDup (ps_addresses s :: (sv_addresses <$> ps_nodes s));
}.

Lemma formed_count ports s : formed ports s → (length ports ≤ length ids)%nat → length (ps_nodes s) = length ports.
Proof. intros Hf Hl. pose proof (f_equal length (fm_ids _ _ Hf)) as E. rewrite length_fmap, length_take in E. lia. Qed.

Lemma threads_run_formed ports s : formed ports s → returns (threads_run threads) s (λ _ s', formed ports s').
Proof.
  intros [Hi Ho Hn Hr]. eapply returns_intro; [reflexivity|]. constructor; cbn.
  - by rewrite <-list_fmap_compose.
  - done.
  - intros i sv. rewrite list_lookup_fmap, fmap_Some. intros (sv0 & Hsv & ->). cbn.
    destruct (Hn _ _ Hsv) as (? & ? & ? & ? & ? & ?). split_and!; try done. by apply Hthreads.
  - by rewrite <-list_fmap_compose.
Qed.

(** Starting the next node. *)
Lemma runner_add_run n ports s :
  formed ports s → ids !! length ports = Some n →
  ∃ p os' node, P n node ∧
    let a := length (ps_heap s) in
    runner_add make n s = (inr (), s
      <| ps_heap := written (a :: ps_addresses s :: (sv_addresses <$> ps_nodes s)) n (bound_at p) (ps_heap s ++ [table ids ports]) |>
      <| ps_os := os' |>
      <| ps_nodes := ps_nodes s ++ [mkServerNode _ _ n a a node "127.0.0.1" 0 (Some p) true false] |>).
Proof.
  intros Hf Hn. destruct (Hmake n) as (node & Em & HP); [by eapply list_elem_of_lookup_2|].
  destruct (Hbind (ps_os s)) as (p & os' & Eb). exists p, os', node. split; [done|]. cbv zeta.
  unfold runner_add. erewrite bind_ok; [|reflexivity]. unfold deref at 1. rewrite (fm_own _ _ Hf). cbn [from_option Datatypes.id].
  erewrite bind_ok; [|reflexivity].
  set (s1 := update _ s). set (a := length (ps_heap s)).
  assert (deref s1 a = table ids ports) as Ed by (unfold deref, s1, a; cbn; by rewrite lookup_app_r, Nat.sub_diag).
  assert (RaftServerNode_init make n a s1 = (inr (mkServerNode _ _ n a a node "127.0.0.1" 0 None false false), s1)) as Ei.
  { unfold RaftServerNode_init. erewrite bind_ok; [|reflexivity]. rewrite Ed, table_keys, (dict_get_table _ _ _ _ Hids Hn).
    rewrite Em, lookup_ge_None_2 by done. reflexivity. }
  erewrite bind_ok; [|exact Ei]. erewrite bind_ok; [|unfold RaftServerNode_start; erewrite bind_ok;
    [|unfold on_os; cbn; by rewrite Eb]; erewrite bind_ok; [reflexivity|apply set_address_run]].
  erewrite bind_ok; [|reflexivity]. erewrite bind_ok; [|reflexivity]. erewrite bind_ok; [|apply set_address_run].
  erewrite bind_ok; [|reflexivity].
  pose proof (fm_refs _ _ Hf) as Hr. assert (∀ r, r ∈ ps_addresses s :: (sv_addresses <$> ps_nodes s) → (r < a)%nat) as Hlt.
  { intros r [->|(sv & -> & Hsv)%list_elem_of_fmap]%elem_of_cons; [eapply lookup_lt_Some, Hf|].
    apply list_elem_of_lookup in Hsv as [i Hsv]. eapply lookup_lt_Some, (fm_node _ _ Hf _ _ Hsv). }
  apply NoDup_cons in Hr as [Hr1 Hr2]. erewrite bind_ok; [|by apply set_addresses_run].
  unfold modify. f_equal. cbn -[written]. unfold update; cbn -[written].
  rewrite !written_app; [reflexivity|..].
  - intros r ->%list_elem_of_singleton Hin. specialize (Hlt a Hin). lia.
  - by intros r ->%list_elem_of_singleton.
Qed.

Lemma runner_add_formed n ports s :
  formed ports s → ids !! length ports = Some n →
  returns (runner_add make n) s (λ _ s', ∃ p, formed (ports ++ [p]) s').
Proof.
  intros Hf Hn. destruct (runner_add_run n ports s Hf Hn) as (p & os' & node & HP & E).
  eapply returns_intro; [exact E|]. exists p.
  assert (length (ps_nodes s) = length ports) as Hlen.
  { apply formed_count; [done|]. apply lookup_lt_Some in Hn. lia. }
  set (a := length (ps_heap s)). set (refs := a :: ps_addresses s :: (sv_addresses <$> ps_nodes s)).
  assert (∀ r, r ∈ refs → (ps_heap s ++ [table ids ports]) !! r = Some (table ids ports) →
    written refs n (bound_at p) (ps_heap s ++ [table ids ports]) !! r = Some (table ids (ports ++ [p]))) as Hw.
  { intros r Hr Ht. rewrite written_lookup, Ht. cbn [fmap option_fmap option_map].
    by rewrite decide_True, dict_set_table by done. }
  assert (∀ r, ps_heap s !! r = Some (table ids ports) → (r < a)%nat ∧ (ps_heap s ++ [table ids ports]) !! r = Some (table ids ports)) as Hold.
  { intros r Hr. split; [by eapply lookup_lt_Some|]. by apply lookup_app_l_Some. }
  constructor; cbn -[written].
  - rewrite fmap_app, (fm_ids _ _ Hf), length_app, Nat.add_1_r, (take_S_r _ _ n) by done. done.
  - apply Hw; [by right; left|]. apply Hold, Hf.
  - intros i sv [Hsv|[Hi [Ei <-]%list_lookup_singleton_Some]]%lookup_app_Some.
    + destruct (fm_node _ _ Hf _ _ Hsv) as (? & Hh & Hb & ? & ? & ?). split_and!; try done.
      * apply Hw; [|by apply Hold]. right; right. apply list_elem_of_fmap. exists sv. split; [done|]. by eapply list_elem_of_lookup_2.
      * rewrite Hb, lookup_app_l; [done|]. apply lookup_lt_Some in Hsv. lia.
    + cbn -[written]. assert (i = length ports) as -> by lia. split_and!; try done.
      * apply Hw; [by left|]. by rewrite lookup_app_r, Nat.sub_diag.
      * by rewrite lookup_app_r, Nat.sub_diag.
  - rewrite fmap_app, app_comm_cons. apply NoDup_app. split_and!; [apply Hf| |apply NoDup_singleton].
    intros r Hr Ea%list_elem_of_singleton. assert (r < a)%nat; [|cbn in Ea; lia].
    apply elem_of_cons in Hr as [->|(sv & -> & [i Hsv]%list_elem_of_lookup)%list_elem_of_fmap]; apply Hold.
    + apply Hf.
    + apply (fm_node _ _ Hf _ _ Hsv).
Qed.

Lemma runner_loop_formed todo : ∀ ports s,
  formed ports s → (length ports ≤ length ids)%nat → drop (length ports) ids = todo →
  returns (runner_loop make threads todo) s (λ _ s', ∃ ports', length ports' = length ids ∧ formed ports' s').
Proof.
  induction todo as [|n todo IH]; intros ports s Hf Hl Hd; cbn [runner_loop].
  - apply returns_ret. exists ports. split; [|done]. apply (f_equal length) in Hd. rewrite length_drop in Hd. cbn in Hd. lia.
  - assert (ids !! length ports = Some n) as Hn by (by rewrite <-(Nat.add_0_r (length ports)), <-lookup_drop, Hd).
    apply returns_bind. eapply returns_mono; [by apply runner_add_formed|]. intros [] s1 [p Hf1].
    apply returns_bind. eapply returns_mono; [by apply threads_run_formed|]. intros [] s2 Hf2.
    apply (IH (ports ++ [p])); [done|..].
    + rewrite length_app. apply lookup_lt_Some in Hn. cbn. lia.
    + rewrite length_app, <-drop_drop, Hd. done.
Qed.
End runner.

(** C33: [RaftClusterRunner] makes a cluster whose members can reach each other.  When
    every [RaftNode] can be made and every socket bound, the constructor returns;
    its nodes are [node1] to [node<count>], distinct; each has been made with all of
    them as [list(addresses)] and has what that gives it, however its threads ran
    meanwhile; and although every node was given a copy of the dictionary in which
    the nodes to come have port 0, in the end the dictionary that its transport reads
    maps every node to the port that node listens on.  No two nodes share a
    dictionary, and a node shares its own with its transport. *)
Theorem cluster_formed {L Rng Os} `{RaftLogOps L} `{Random Rng} `{Sockets Os} make threads
    (P : NodeId → RaftNode L Rng → Prop) count (s : Process L Rng Os) :
  (∀ n, n ∈ runner_ids count → ∃ node, make n (runner_ids count) = inr node ∧ P n node) →
  (∀ k n node, P n node → P n (threads k n node)) →
  (∀ os : Os, ∃ p os', sock_bind "127.0.0.1" 0 os = (inr p, os')) →
  returns (RaftClusterRunner_init make threads count) s (λ _ s',
    ∃ ports, sv_id <$> ps_nodes s' = runner_ids count ∧ NoDup (runner_ids count) ∧
      length (runner_ids count) = Z.to_nat count ∧
      Forall2 (λ sv p, sv_bound sv = Some p ∧ sv_running sv = true ∧ sv_stopped sv = false ∧
        P (sv_id sv) (sv_node sv) ∧ sv_transport sv = sv_addresses sv ∧
        deref s' (sv_transport sv) = zip (runner_ids count) (bound_at <$> ports)) (ps_nodes s') ports ∧
      NoDup (ps_addresses s' :: (sv_addresses <$> ps_nodes s'))).
Proof.
  intros Hm Ht Hb. pose proof (runner_ids_nodup count) as Hnd. unfold RaftClusterRunner_init.
  apply returns_bind. eapply returns_intro; [reflexivity|]. apply returns_bind. eapply returns_intro; [reflexivity|].
  eapply returns_mono; [apply (runner_loop_formed make threads P (runner_ids count) Hnd Hm Ht Hb _ []); [|cbn; lia|done]|].
  - constructor; cbn; [done| |by intros ??|apply NoDup_singleton].
    rewrite lookup_app_r, Nat.sub_diag by done. by rewrite placeholders_table.
  - intros _ s' (ports & Hl & Hf). exists ports.
    pose proof (formed_count _ _ _ _ Hf ltac:(lia)) as Hc. split_and!.
    + rewrite (fm_ids _ _ _ _ Hf), take_ge by lia. done.
    + done.
    + unfold runner_ids. by rewrite length_fmap, length_seq.
    + apply Forall2_same_length_lookup_2; [done|]. intros i sv p Hsv Hp.
      destruct (fm_node _ _ _ _ Hf _ _ Hsv) as (E & Hh & Hbd & ? & ? & ?). rewrite Hbd, Hp. split_and!; try done.
      unfold deref. by rewrite E, Hh, <-table_full by done.
    + apply Hf.
Qed.

(** Sockets that are numbered. *)
#[local] Instance demo_sockets : Sockets Z := {
  sock_bind _ port := λ next, (inr (if port =? 0 then next else port), next + 1);
  sock_close _ _ next := next;
}.

Definition demo_make (n : NodeId) (addresses : list NodeId) : Exn + RaftNode RaftLog ListRng :=
  RaftServerNode_volatile 0 n addresses [] (300, 600) 100 true.

(** The timers, ten milliseconds later. *)
Definition demo_threads (k : nat) (n : NodeId) (node : RaftNode RaftLog ListRng) : RaftNode RaftLog ListRng :=
  nd (timer_round 10 0 (mkWorld _ _ node [] [])).2.

Definition demo_fresh (n : NodeId) (node : RaftNode RaftLog ListRng) : Prop :=
  id node = n ∧ peers node = filter (λ p, p ≠ n) (runner_ids 3) ∧ RaftNode_next_event_due node = 300.

Lemma demo_threads_idle k n node : demo_fresh n node → demo_fresh n (demo_threads k n node).
Proof. intros H. unfold demo_threads, timer_round, self, gets, mbind, M_bind. cbn [nd]. by rewrite (proj2 (proj2 H)). Qed.

Lemma cluster_formed_witness :
  let s := mkProcess RaftLog ListRng Z [] 0%nat [] [] 9000 0%nat [] in
  returns (RaftClusterRunner_init demo_make demo_threads 3) s (λ _ s',
    ∃ ports, sv_id <$> ps_nodes s' = ["node1"; "node2"; "node3"]%string ∧
      Forall2 (λ sv p, sv_bound sv = Some p ∧ demo_fresh (sv_id sv) (sv_node sv) ∧
        deref s' (sv_transport sv) = zip (runner_ids 3) (bound_at <$> ports)) (ps_nodes s') ports).
Proof.
  intros s. eapply returns_mono; [apply (cluster_formed demo_make demo_threads demo_fresh 3 s)|].
  - intros n Hn. change (n ∈ ["node1"; "node2"; "node3"]%string) in Hn. rewrite !elem_of_cons, elem_of_nil in Hn.
    destruct Hn as [->|[->|[->|[]]]]; eexists; (split; [vm_compute; reflexivity|]);
      split_and!; vm_compute; reflexivity.
  - apply demo_threads_idle.
  - intros os. eexists _, _. reflexivity.
  - intros _ s' (ports & Hi & _ & _ & Hf & _). exists ports. split; [exact Hi|].
    eapply Forall2_impl; [exact Hf|]. intros sv p (? & _ & _ & ? & _ & ?). auto.
Defined.

Example demo_cluster_ports :
  (λ n, deref (RaftClusterRunner_init demo_make demo_threads 3 (mkProcess RaftLog ListRng Z [] 0%nat [] [] 9000 0%nat [])).2 (sv_transport n)) <$>
    ps_nodes (RaftClusterRunner_init demo_make demo_threads 3 (mkProcess RaftLog ListRng Z [] 0%nat [] [] 9000 0%nat [])).2
  = replicate 3 [("node1", ("127.0.0.1", 9000)); ("node2", ("127.0.0.1", 9001)); ("node3", ("127.0.0.1", 9002))]%string.
Proof. vm_compute. reflexivity. Qed.

(** ** The stable leader *)

(** A set of one element, which is all that a list holds. *)
Lemma claimed_one (xs : list (option NodeId)) (x : option NodeId) (X : gset (option NodeId)) :
  X = list_to_set xs → xs ≠ [] → (∀ y, y ∈ xs → y = x) → X = {[x]}.
Proof.
  intros -> Hne Hx. destruct xs as [|y xs]; [done|]. apply set_eq. intros z.
  rewrite elem_of_list_to_set, elem_of_singleton. split; [apply Hx|]. intros ->. rewrite <-(Hx y); by left.
Qed.

Section stable.
Context {L Rng Os : Type} `{RaftLogOps L} `{Random Rng}.
Implicit Types (ns : list (ServerNode L Rng)) (l : NodeId).

Lemma elem_of_live ns n : n ∈ live_nodes ns ↔ n ∈ ns ∧ sv_stopped n = false.
Proof. unfold live_nodes. rewrite list_elem_of_filter. tauto. Qed.

Lemma existsb_leader ns l :
  existsb (λ n, bool_decide (sv_id n = l) && leads n) ns = true ↔
  ∃ n, n ∈ ns ∧ sv_id n = l ∧ role (sv_node n) = LEADER.
Proof.
  rewrite existsb_exists. unfold leads. setoid_rewrite list_elem_of_In. setoid_rewrite andb_true_iff.
  setoid_rewrite bool_decide_eq_true. done.
Qed.

End stable.

(** What [cluster_stable] waits for is agreement: one look at the nodes reports [l]
    exactly if [l] is a node that has not been stopped, its role is leader, and every
    node that has not been stopped takes [l] for its leader. *)
Theorem stable_leader_correct {L Rng} (ns : list (ServerNode L Rng)) l :
  stable_leader ns = Some l ↔
  (∃ n, n ∈ ns ∧ sv_stopped n = false ∧ sv_id n = l ∧ role (sv_node n) = LEADER) ∧
  ∀ n, n ∈ ns → sv_stopped n = false → leader_id (sv_node n) = Some l.
Proof.
  unfold stable_leader. set (claimed := list_to_set _ : gset (option NodeId)). split.
  - case_bool_decide as Hs; [|done]. apply size_1_elem_of in Hs as [x Hx]. apply leibniz_equiv in Hx.
    rewrite Hx, elements_singleton. destruct x as [l'|]; [|done].
    destruct (existsb _ _) eqn:E; [|by rewrite andb_false_r]. case_bool_decide; [|done]. intros [= ->].
    apply existsb_leader in E as (n & [Hn Hl]%elem_of_live & Hi & Hr). split; [by exists n|].
    intros n' Hn' Hl'. assert (leader_id (sv_node n') ∈ claimed) as Hc.
    { unfold claimed. apply elem_of_list_to_set, list_elem_of_fmap. exists n'. split; [done|]. by apply elem_of_live. }
    rewrite Hx in Hc. by apply elem_of_singleton in Hc.
  - intros [(n & Hn & Hl & Hi & Hr) Hall]. assert (n ∈ live_nodes ns) as Hlive by by apply elem_of_live.
    assert (claimed = {[Some l]}) as ->.
    { eapply claimed_one; [reflexivity| |].
      - intros E. apply fmap_nil_inv in E. rewrite E in Hlive. by apply elem_of_nil in Hlive.
      - intros y (n' & -> & [Hn' Hl']%elem_of_live)%list_elem_of_fmap. by apply Hall. }
    rewrite size_singleton, elements_singleton, !bool_decide_eq_true_2; [|set_solver|done].
    by rewrite (proj2 (existsb_leader _ l)) by eauto.
Qed.

(** [count] is the least odd number from three on that is not below the number asked for. *)
Lemma replicate_count_least nodes :
  replicate_count nodes mod 2 = 1 ∧ 3 <= replicate_count nodes ∧ nodes <= replicate_count nodes ∧
  ∀ m, m mod 2 = 1 → 3 <= m → nodes <= m → replicate_count nodes <= m.
Proof.
  unfold replicate_count. destruct (Z.eqb_spec (nodes mod 2) 1); split_and!; intros; div_lia.
Qed.

(** Waiting returns, and what it reports holds when it returns. *)
Lemma cluster_stable_reports {L Rng Os} `{RaftLogOps L} `{Random Rng} threads polls (s : Process L Rng Os) :
  returns (cluster_stable threads polls) s (λ o s', o = None ∨ ∃ l, o = Some l ∧ stable_leader (ps_nodes s') = Some l).
Proof.
  revert s. induction polls as [|polls IH]; intros s; cbn [cluster_stable]; [by apply returns_ret; left|].
  apply returns_bind. eapply returns_intro; [reflexivity|]. destruct (stable_leader (ps_nodes s)) as [l|] eqn:E.
  - apply returns_ret. right. by exists l.
  - apply returns_bind. eapply returns_intro; [reflexivity|]. apply IH.
Qed.

(** [wait_for_role] of a node of the process never raises, and [true] means that the
    node has the role at that moment. *)
Lemma wait_for_role_correct {L Rng Os} `{RaftLogOps L} `{Random Rng} threads i wanted polls (s : Process L Rng Os) :
  (i < length (ps_nodes s))%nat →
  returns (RaftServerNode_wait_for_role threads i wanted polls) s (λ b s',
    length (ps_nodes s') = length (ps_nodes s) ∧
    (b = true → ∃ n, ps_nodes s' !! i = Some n ∧ role_value (role (sv_node n)) = wanted)).
Proof.
  revert s. induction polls as [|polls IH]; intros s Hi; cbn [RaftServerNode_wait_for_role]; [by apply returns_ret|].
  apply returns_bind. eapply returns_intro; [done|]. pose proof Hi as [n Hn]%lookup_lt_is_Some. rewrite Hn.
  case_bool_decide; [by apply returns_ret; split; [|exists n]|].
  apply returns_bind. eapply returns_intro; [done|]. eapply returns_mono; [apply IH; cbn; by rewrite length_fmap|].
  intros b s' [El Hb]. split; [|done]. rewrite El. cbn. by rewrite length_fmap.
Qed.

(** [RaftClusterRunner.leader] does not ask whether a node has been stopped: as long as
    a crashed leader keeps its role, it is the one proposed to if it comes first.  Here
    [node1] led and is crashed, and [node2] leads a later term; the write that is
    reported as made is in the log of [node1] only. *)
Definition demo_lead (term now : Z) (node : RaftNode RaftLog ListRng) : RaftNode RaftLog ListRng :=
  nd (RaftNode_become_leader now 0 (mkWorld _ _ (node <| persister := mkDS false None term (Some (id node)) |>) [] [])).2.

Definition demo_failover : M (Process RaftLog ListRng Z) (bool * list (list (Z * string))) :=
  _ ← RaftClusterRunner_init demo_make demo_threads 3;
  _ ← modify (λ s, s <| ps_nodes := alter (λ n, n <| sv_node := demo_lead 1 400 (sv_node n) |>) 0%nat (ps_nodes s) |>);
  ns ← gets ps_nodes;
  _ ← match RaftClusterRunner_leader ns with Some (i, n) => crash_node i n | None => mret () end;
  _ ← modify (λ s, s <| ps_nodes := alter (λ n, n <| sv_node := demo_lead 2 900 (sv_node n) |>) 1%nat (ps_nodes s) |>);
  done ← propose_stable (λ _ _ node, node) (λ _, 1000) (λ _, 0) (bytes_of_str "after-crash=yes") 60;
  logs ← gets (λ s, (λ n, (λ e, (e_term e, str_of_bytes (e_payload e))) <$> entries (log (sv_node n))) <$> ps_nodes s);
  mret (done, logs).

Lemma stopped_leader_chosen :
  (demo_failover (mkProcess RaftLog ListRng Z [] 0%nat [] [] 9000 0%nat [])).1
  = inr (true, [[(1, "__raft_noop__"); (1, "after-crash=yes")]; [(2, "__raft_noop__")]; []])%string.
Proof. vm_compute. reflexivity. Qed.

(** A node started by [cmd_raft_node] knows its peers by the addresses of the arguments,
    itself by the port it is bound to, and these are the ports that are printed. *)
Lemma raft_node_started {L Rng Os} `{Sockets Os} (make : NodeId → list NodeId → Exn + RaftNode L Rng)
    node_id specs peers host port node p os' (s : Process L Rng Os) :
  raft_node_peers node_id specs = inr (inr peers) → dict_get node_id peers = Some (host, port) →
  make node_id peers.*1 = inr node → sock_bind host port (ps_os s) = (inr p, os') →
  returns (cmd_raft_node make node_id specs) s (λ r s', ∃ sv ports,
    r = inr (sv, ports) ∧ sv_node sv = node ∧ sv_bound sv = Some p ∧
    deref s' (sv_transport sv) = dict_set node_id (bound_at p) peers ∧
    ports = (λ '(nid, addr), (nid, addr.2)) <$> dict_set node_id (bound_at p) peers).
Proof.
  intros Hp Hd Hm Hb. unfold cmd_raft_node. rewrite Hp. apply returns_bind. eapply returns_intro; [reflexivity|].
  apply returns_bind. eapply returns_intro; [reflexivity|]. set (s1 := update _ s). set (a := length (ps_heap s)).
  assert (ps_heap s1 !! a = Some peers) as Ea by (unfold s1, a; cbn; by rewrite lookup_app_r, Nat.sub_diag).
  apply returns_bind. eapply returns_intro.
  { unfold RaftServerNode_init. erewrite bind_ok; [|reflexivity]. unfold deref. rewrite Ea. cbn [from_option Datatypes.id].
    rewrite Hm, Hd. reflexivity. }
  apply returns_bind. eapply returns_intro.
  { unfold RaftServerNode_start. erewrite bind_ok; [|unfold on_os, s1; cbn; by rewrite Hb].
    erewrite bind_ok; [reflexivity|apply set_address_run]. }
  apply returns_bind. eapply returns_intro; [reflexivity|]. apply returns_ret.
  eexists _, _. split; [reflexivity|]. unfold deref. cbn -[written]. fold a. rewrite written_lookup.
  change (ps_heap s ++ [peers]) with (ps_heap s1). rewrite Ea. cbn [fmap option_fmap option_map].
  by rewrite decide_True by by apply list_elem_of_singleton.
Qed.

(** A run of [cmd_replicate] where [node1] leads first, and steps down when the next
    leader, [node2], is elected after the crash. *)
Definition demo_election (k : nat) (n : NodeId) (node : RaftNode RaftLog ListRng) : RaftNode RaftLog ListRng :=
  let follow term leader := node <| persister := mkDS false None term None |> <| role := FOLLOWER |> <| leader_id := Some leader |> in
  if bool_decide (k = 2%nat) then
    if bool_decide (n = "node1"%string) then demo_lead 1 400 node else follow 1 "node1"%string
  else if bool_decide (k = 4%nat) then
    if bool_decide (n = "node2"%string) then demo_lead 2 900 node else follow 2 "node2"%string
  else node.

Definition demo_replicate : (Exn + Z) * Process RaftLog ListRng Z :=
  cmd_replicate demo_make demo_election (λ _, 1000) (λ _, 0) 2 5 5 (mkProcess _ _ _ [] 0%nat [] [] 9000 0%nat []).

Example demo_replicate_run :
  demo_replicate.1 = inr 0 ∧
  (λ r, match r with
        | ClusterFormed l rows | ReElected (Some l) rows =>
            Some (l, (λ row, match row with LiveRow n _ t _ li _ _ => (n, t, li) | CrashedRow n => (n, -1, 0) end) <$> rows)
        | _ => None
        end) <$> ps_out demo_replicate.2
  = [Some ("node1", [("node1", 1, 1); ("node2", 1, 0); ("node3", 1, 0)]); None; None; None;
     Some ("node2", [("node1", -1, 0); ("node2", 2, 2); ("node3", 2, 0)]); None]%string ∧
  Forall (λ n, sv_running n = false) (ps_nodes demo_replicate.2).
Proof. split_and!; [vm_compute; reflexivity..|]. vm_compute. repeat constructor. Qed.
